(* ===== verification/_CoqProject ===== *)
-Q . S2P
Prelude.v
StdStrings.v
MetaTypes.v
Leader.v
KvService.v
KvInvariant.v
KvProps.v
KvRefine.v
KvQuery.v
LeaseService.v
LeaseProps.v
WatchService.v
WatchProps.v
PushService.v
PushProps.v
Backup.v
BackupProps.v
KvAccessor.v
AccessorProps.v
Durability.v
Expiry.v
SchedItems.v
BaseQueue.v
TimeQueue.v
QueueProps.v
AggQueue.v
SchedPolicy.v
FairnessProps.v
PriorityScheduler.v
QueueActor.v
SchedProps.v
QueueActorProps.v
AggProps.v
Lru.v
LruProps.v
SchedTree.v
SchedTreeProps.v
SchedTreeOps.v
SchedTreeCodec.v
GlobalSched.v
GlobalProps.v
MetaClient.v
KvClient.v
Monitor.v
InstanceTypes.v
InstanceOp.v
InstanceMachine.v
InstanceCtrl.v
InstanceSystem.v
InstanceStore.v
InstanceInv.v
InstanceCases.v
InstanceLife.v
InstanceExec.v
InstanceProps.v
RetrySystem.v
RetryProps.v
Family.v
FamilyProps.v
FamilyExit.v
IntMap.v
Ports.v
PortsProps.v
Timers.v
TimersProps.v
Cooldown.v
CooldownProps.v
Quota.v
QuotaProps.v
Election.v
ElectionProps.v
