(* ===== verification/Prelude.v ===== *)
(** * A verification of the YuanRong function system

    The function system is a set of C++ processes built from litebus actors:
    an actor owns its members, handles one message at a time, and posts
    messages to others.  This development models the parts every other
    part relies on - the metadata store with its clients, the decision of
    where and when an instance is scheduled, the topology of the schedulers
    and the life cycle of instances - and proves what makes them correct.

    ** How the code is modelled

    A handler of an actor is a function of the monad [Act S W A] of this
    file: members of type [S] in, a result, the members after it and the list
    of messages [W] it posted.  [litebus::Async] and [Send] are [post]; a
    continuation on a future is a message handled later.  The definitions keep
    the names of the functions and members they translate and every branch of
    them; log lines are left out.  Runs of an actor with its environment are
    step relations (or folds over message lists), and the theorems about runs
    are by induction on them.  Integers whose overflow matters are wrapped
    explicitly; [std::map] is a [gmap] with its iteration order; objects
    shared through pointers live in a heap.

    What is not under [src/] is a parameter: generated protobuf code
    ([Codec], with the documented round trip [CodecOk]; serialized sizes),
    JSON, digests, the clock, random ids, the state of a cancel future when it
    is read and the placements the performers choose ([Environment]).  Every
    theorem with such a parameter has a witness that instantiates it.

    ** The metadata store ([src/functionsystem/src/meta_store/server/src])

    - [MetaTypes], [Leader]: messages, statuses, the role of the process
      ([common/status], [common/leader/business_policy.h],
      [proto/posix/message.proto]).
    - [KvService] ([kv_service_actor.cpp]): the cache, the writes in flight,
      puts, deletes, ranges, transactions, watches, revocation, recovery and
      following of the storage.  [KvInvariant] has the step system and the
      invariant; [KvProps]: well-formed revisions, the watch stream is the log
      of the cache, isolation of writes in flight, commit and rollback;
      [KvRefine]: a transaction is its operations in sequence, the backup log
      is the cache; [KvQuery]: ranges, recovery, resynchronisation.
    - [LeaseService], [LeaseProps] ([lease_service_actor.cpp]): grants, their
      expiry in 64-bit milliseconds, the checkpoint, resynchronisation.
    - [WatchService], [WatchProps] ([watch_service_actor.cpp]): the registry
      represents a set of watches, an event reaches exactly the watches that
      match it.  [PushService], [PushProps] ([..._async_push_actor.cpp]):
      events are grouped, delivered in order, and never stay queued.
    - [Backup], [BackupProps] ([backup_actor.cpp]): batching keeps the order of
      writes, promises are conserved, the queue drains.
    - [KvAccessor], [AccessorProps] ([kv_service_accessor_actor.cpp]): every
      request is passed on exactly once, after the recovery.
    - [Durability] composes key-value actor, backup and recovery: what was
      flushed survives a restart.  [Expiry] composes lease and key-value
      actor: exactly the keys of expired leases disappear.

    ** Scheduling decisions ([src/functionsystem/src/common/schedule_decision])

    - [SchedItems] ([queue/queue_item.h], [create_agent_decision.h]): requests,
      groups, aggregated items.
    - [BaseQueue], [TimeQueue], [QueueProps] ([queue/schedule_queue.cpp],
      [queue/time_sorted_queue.cpp]): the time-sorted queue is a priority
      queue.  [AggQueue], [AggProps] ([queue/aggregated_queue.cpp]): the
      aggregated queue is a queue of requests per priority.
    - [SchedPolicy], [FairnessProps] ([scheduler/priority_policy]): which
      requests are held back.
    - [PriorityScheduler], [SchedProps] ([scheduler/priority_scheduler.cpp]):
      consuming the running queue terminates and settles every request.
    - [QueueActor], [QueueActorProps] ([schedule_queue_actor.cpp]): no request
      is lost or answered twice, no wake-up is lost, the actor comes to
      rest.

    ** Caches ([src/functionsystem/src/common/lru])

    - [Lru], [LruProps] ([lru_cache.h], [thread_safe_lru_cache.h]): the linked
      list with its index answers like a list kept most recently used first.

    ** The topology of schedulers

    - [SchedTree] ([common/scheduler_topology]): nodes, levels, adding,
      removing and replacing schedulers, serializing and recovering.
      [SchedTreeProps] has the links of a tree and what the elementary changes
      do to them, [SchedTreeOps] the invariant of all runs and what every
      operation changes, [SchedTreeCodec] the round trip through the store.
    - [GlobalSched], [GlobalProps]
      ([function_master/global_scheduler/global_sched_actor.cpp]): the master
      with the metadata store; what is stored at rest is the tree, updates
      come to rest, and a failover keeps the topology.

    ** Clients of the store ([src/functionsystem/src/meta_store/client/cpp])

    - [MetaClient] ([txn_transaction.h], [kv_client_strategy.cpp],
      [common/utils/request_sync_helper.h]): building a transaction, its
      request and its answer; repeating a request with a back-off.
    - [KvClient] ([meta_store_kv_client_strategy.cpp]): puts, deletes, gets and
      transactions, and the fall-break, which answers what waits when the
      store is taken for lost.
    - [Monitor] ([meta_store_monitor.cpp], [common_driver.cpp],
      [common_flags.cpp]): the health checks, and the retry limit computed from
      their flags.
    - [RetrySystem], [RetryProps]: client, store and monitor in time.  Messages
      may be late or lost; the monitor is on time and its word reaches the
      client within three seconds.  Retries are bounded, resolve a request
      once, and outlast the checks of a lost store.

    ** Instances ([src/functionsystem/src/function_proxy])

    - [InstanceTypes] ([common/types/instance_state.h], [resource.proto],
      [common/metadata], [common/utils]): states, records, routes, keys.  JSON
      and the digest of a runtime id are parameters; the laws of JSON are
      [InstanceJsonOk].
    - [InstanceOp] ([common/meta_store_adapter/instance_operator.cpp]): the
      transactions that store an instance and the reading of their answers.
    - [InstanceMachine] ([common/state_machine/instance_state_machine.cpp],
      [instance_context.cpp]): transitions and their continuations, deleting,
      exiting.  [InstanceCtrl]
      ([local_scheduler/instance_control/instance_ctrl_actor.cpp],
      [TransInstanceState]): one transition at a time, roll-back and adoption
      of what is stored.
    - [InstanceSystem]: proxies over one store, whose promise is the class
      [TxnStore] with the laws [TxnStoreOk]; messages may be late, repeated or
      lost.  Callers give a transition the machine's key and version and their
      own copy of the request; the continuation of a write runs at once with
      the roll-back; a deleted record is not created again.
    - [InstanceStore] discharges the laws twice: for a plain map, and for the
      key-value actor of the metadata store behind its client.
    - [InstanceInv], [InstanceCases], [InstanceLife], [InstanceExec],
      [InstanceProps]: what a transition writes, the history of a record, and
      that the life cycle of an instance is respected across proxies.

    ** Families of instances and quotas ([function_master/instance_manager])

    - [Family] ([instance_family_caches.cpp], [instance_manager_actor.cpp]): who
      was created by whom, the walk over the descendants, and the handlers that
      end the descendants of an instance that is gone.  [FamilyProps] has the
      links and the walk, [FamilyExit] the runs of a master, the handler of a
      deletion and two cases it does not cover.
    - [Quota], [QuotaProps] ([quota_manager_actor.cpp], [quota_config.h]): what
      a tenant uses, and the eviction of its newest instances; the books are
      exact, and no tenant is above its quota when a message has been handled.
    - [Cooldown] ([common/utils/tenant_cooldown_manager.h] and its users in the
      instance controllers): the time for which such a tenant is refused.
      [CooldownProps] runs it over the timers of [Timers] with the callbacks in
      the mailbox: a block lasts exactly until the timer of its last event.

    ** Timers and ports

    - [Timers], [TimersProps] ([common/litebus/src/timer/timertools.cpp]): the
      pool of timers, the run timer and the watch timer; no timer is lost, early
      or run twice.
    - [Ports], [PortsProps] ([runtime_manager/port/port_manager.cpp]): the pool
      of ports of a node refines a table of owners.
    - [IntMap] has the order of maps with integer keys for both.

    ** Leader election ([common/leader], [common/explorer])

    - [Election] ([txn_leader_actor.cpp], [txn_explorer_actor.cpp]): the election
      of a leader by a transaction over a leased key, and the explorer that
      follows the key.
    - [ElectionProps]: nodes over one store, with leases that run out and answers
      that are late or lost: at most one leader has a lease that is alive; while
      the key is free, every node has a message on its way that goes on to an
      election, if leases outlast their campaigns and the reads after failed
      campaigns are answered.  [false_leader_reachable] is a run where a lease
      does not.

    ** Fuel

    Loops of the code are structural recursions over what they iterate; the
    ones that are not carry a bound that is proved sufficient:
    [Scheduler.consume] is given the number of requests of the running queue
    ([consume_settles_all] shows the queue is empty at the end), the flush
    loop of the backup the number of queued batches, the climb to a node with
    room in the scheduler tree the number of nodes ([climb_spec],
    [height_heap]), its serialization the number of nodes and levels
    ([root_entries]), and storing it two rounds ([put_topology_enough]).  The
    walk over the descendants of an instance takes a bound, and
    [family_exit_complete] shows one that is enough for a family without
    cycles ([own_parent_never_listed]: with one there is none).

    ** Not modelled

    Actor start-up and registration, logging, metrics and tracing; gRPC and
    HTTP servers, files, containers, kubernetes (I/O); cryptography; the
    choice of nodes by the scheduling plugins, whose scores are floating-point
    numbers; the components listed as not modelled in the manifest, among them
    the elections that etcd or kubernetes hold, the heartbeat,
    which depends on the events of the connection layer, and the deployment of
    instances on a node, which is calls of containers.  Next in the plan:
    the watches and leases of the client library, the view of instances and
    their recovery by the local scheduler, the resource view. *)

From Stdlib Require Import Ascii ZArith Lia.
From stdpp Require Import base gmap strings list fin_maps sorting.

Open Scope Z_scope.

(** ** The actor monad

    A litebus actor handles one message at a time: it reads and writes its
    own members, and its [litebus::Async] and [Send] calls put messages into
    other actors' mailboxes.  [Act S W A] is a handler body over the members
    [S] that returns an [A] and the list of messages of type [W] it posted,
    in program order. *)
Definition Act (S W A : Type) : Type := S → A * S * list W.

Section act.
Context {S W : Type}.

Definition val {A} (m : Act S W A) (s : S) : A := (m s).1.1.
Definition exec {A} (m : Act S W A) (s : S) : S := (m s).1.2.
Definition outs {A} (m : Act S W A) (s : S) : list W := (m s).2.

#[global] Instance act_ret : MRet (Act S W) := λ A a s, (a, s, []).
#[global] Instance act_bind : MBind (Act S W) := λ A B f m s,
  let r := m s in
  let r' := f r.1.1 r.1.2 in
  (r'.1.1, r'.1.2, r.2 ++ r'.2).

(** Read the members, replace them, post one message. *)
Definition members : Act S W S := λ s, (s, s, []).
Definition modify (f : S → S) : Act S W unit := λ s, (tt, f s, []).
Definition post (w : W) : Act S W unit := λ s, (tt, s, [w]).

(** [if (b) { m }] *)
Definition act_when (b : bool) (m : Act S W unit) : Act S W unit :=
  if b then m else mret tt.

(** A range-based [for] whose body only acts. *)
Fixpoint for_each {A} (l : list A) (body : A → Act S W unit) : Act S W unit :=
  match l with
  | [] => mret tt
  | a :: l => body a ≫= λ _, for_each l body
  end.

(** A range-based [for] whose body pushes one result per element. *)
Fixpoint for_collect {A B} (l : list A) (body : A → Act S W B) : Act S W (list B) :=
  match l with
  | [] => mret []
  | a :: l => body a ≫= λ b, for_collect l body ≫= λ bs, mret (b :: bs)
  end.

Lemma val_ret {A} (a : A) s : val (mret a) s = a.
Proof. done. Qed.
Lemma exec_ret {A} (a : A) s : exec (mret a) s = s.
Proof. done. Qed.
Lemma outs_ret {A} (a : A) s : outs (mret a) s = [].
Proof. done. Qed.
Lemma val_bind {A B} (m : Act S W A) (f : A → Act S W B) s :
  val (m ≫= f) s = val (f (val m s)) (exec m s).
Proof. done. Qed.
Lemma exec_bind {A B} (m : Act S W A) (f : A → Act S W B) s :
  exec (m ≫= f) s = exec (f (val m s)) (exec m s).
Proof. done. Qed.
Lemma outs_bind {A B} (m : Act S W A) (f : A → Act S W B) s :
  outs (m ≫= f) s = outs m s ++ outs (f (val m s)) (exec m s).
Proof. done. Qed.
Lemma val_members s : val members s = s.
Proof. done. Qed.
Lemma exec_members s : exec members s = s.
Proof. done. Qed.
Lemma outs_members s : outs members s = [].
Proof. done. Qed.
Lemma exec_modify f s : exec (modify f) s = f s.
Proof. done. Qed.
Lemma outs_modify f s : outs (modify f) s = [].
Proof. done. Qed.
Lemma exec_post w s : exec (post w) s = s.
Proof. done. Qed.
Lemma outs_post w s : outs (post w) s = [w].
Proof. done. Qed.
Lemma exec_when b m s : exec (act_when b m) s = if b then exec m s else s.
Proof. by destruct b. Qed.
Lemma outs_when b m s : outs (act_when b m) s = if b then outs m s else [].
Proof. by destruct b. Qed.

Lemma exec_for_each {A} (l : list A) body s :
  exec (for_each l body) s = foldl (λ s a, exec (body a) s) s l.
Proof. revert s. induction l as [|a l IH]; intros s; [done|]. apply IH. Qed.

Lemma exec_for_each_app {A} (l1 l2 : list A) body s :
  exec (for_each (l1 ++ l2) body) s = exec (for_each l2 body) (exec (for_each l1 body) s).
Proof. by rewrite !exec_for_each, foldl_app. Qed.
Lemma outs_for_each_app {A} (l1 l2 : list A) body s :
  outs (for_each (l1 ++ l2) body) s =
  outs (for_each l1 body) s ++ outs (for_each l2 body) (exec (for_each l1 body) s).
Proof.
  revert s. induction l1 as [|a l1 IH]; intros s; [done|]. simpl.
  by rewrite !outs_bind, exec_bind, IH, app_assoc.
Qed.

(** A loop keeps what each of its iterations keeps. *)
Lemma for_each_inv {A} (P : S → Prop) (l : list A) body s :
  (∀ a s, a ∈ l → P s → P (exec (body a) s)) →
  P s → P (exec (for_each l body) s).
Proof.
  revert s. induction l as [|a l IH]; intros s Hb Hs; [done|].
  simpl. rewrite exec_bind. apply IH; [set_solver|]. apply Hb; [left|done].
Qed.

Lemma for_collect_inv {A B} (P : S → Prop) (l : list A) (body : A → Act S W B) s :
  (∀ a s, a ∈ l → P s → P (exec (body a) s)) →
  P s → P (exec (for_collect l body) s).
Proof.
  revert s. induction l as [|a l IH]; intros s Hb Hs; [done|].
  simpl. rewrite !exec_bind, exec_ret. apply IH; [set_solver|]. apply Hb; [left|done].
Qed.

(** Every message a loop posts was posted by one of its iterations. *)
Lemma for_each_outs {A} (Q : W → Prop) (l : list A) body s :
  (∀ a s, a ∈ l → Forall Q (outs (body a) s)) →
  Forall Q (outs (for_each l body) s).
Proof.
  revert s. induction l as [|a l IH]; intros s Hb; [constructor|].
  simpl. rewrite outs_bind. apply Forall_app. split; [apply Hb; left|apply IH; set_solver].
Qed.
End act.

Arguments val : simpl never.
Arguments exec : simpl never.
Arguments outs : simpl never.

(** [act_simpl] pushes [val], [exec] and [outs] through a handler body. *)
Create Rewrite HintDb act.
#[export] Hint Rewrite @val_ret @exec_ret @outs_ret @val_bind @exec_bind @outs_bind
  @val_members @exec_members @outs_members @exec_modify @outs_modify
  @exec_post @outs_post @exec_when @outs_when : act.
Ltac act_simpl := autorewrite with act in *; cbn [fst snd] in *.

(** ** Filters of a list *)
Lemma filter_other {A} (P : A → Prop) `{∀ x, Decision (P x)} (l : list A) :
  Forall (λ x, ¬ P x) l → filter P l = [].
Proof. induction 1 as [|x l Hx _ IH]; [done|]. by rewrite filter_cons_False. Qed.
Lemma filter_all {A} (P : A → Prop) `{∀ x, Decision (P x)} (l : list A) :
  Forall P l → filter P l = l.
Proof. induction 1 as [|x l Hx _ IH]; [done|]. rewrite filter_cons_True by done. by rewrite IH. Qed.

Lemma filter_iff_in {A} (P Q : A → Prop) `{!∀ x, Decision (P x), !∀ x, Decision (Q x)} (l : list A) :
  (∀ x, x ∈ l → P x ↔ Q x) → filter P l = filter Q l.
Proof.
  induction l as [|x l IH]; intros Hl; [done|]. rewrite !filter_cons.
  rewrite (IH ltac:(intros y Hy; apply Hl; by right)).
  assert (P x ↔ Q x) by (apply Hl; left). repeat case_decide; tauto.
Qed.

(** ** Ordered containers

    [std::map<std::string, A>] is a [gmap string A]; a range-based [for] over
    it visits the keys in the order of [operator<] on [std::string], which is
    the byte order [String.le]. *)
Definition key_le {A} (p q : string * A) : Prop := String.le p.1 q.1.

#[global] Instance key_le_dec {A} : RelDecision (@key_le A).
Proof. intros p q. unfold key_le. apply _. Defined.
#[global] Instance key_le_total {A} : Total (@key_le A).
Proof. intros p q. apply String.le_total. Qed.
#[global] Instance key_le_trans {A} : Transitive (@key_le A).
Proof. intros p q r. unfold key_le. apply transitivity. Qed.

Definition std_map_list {A} (m : gmap string A) : list (string * A) :=
  merge_sort key_le (map_to_list m).

Section std_map.
Context {A : Type}.
Implicit Types m : gmap string A.

Lemma std_map_list_perm m : std_map_list m ≡ₚ map_to_list m.
Proof. apply merge_sort_Permutation. Qed.

Lemma elem_of_std_map_list m k a : (k, a) ∈ std_map_list m ↔ m !! k = Some a.
Proof. rewrite std_map_list_perm. apply elem_of_map_to_list. Qed.

Lemma std_map_list_sorted m : StronglySorted key_le (std_map_list m).
Proof. apply StronglySorted_merge_sort; apply _. Qed.

Lemma NoDup_std_map_list m : NoDup (std_map_list m).*1.
Proof.
  rewrite std_map_list_perm. apply NoDup_fst_map_to_list.
Qed.
End std_map.

(** [std::set<std::string>] in iteration order. *)
Definition std_set_list (X : gset string) : list string := merge_sort String.le (elements X).

Lemma elem_of_std_set_list X k : k ∈ std_set_list X ↔ k ∈ X.
Proof. unfold std_set_list. rewrite merge_sort_Permutation. apply elem_of_elements. Qed.

(** [std::sort] with a comparator: some permutation of the input that the
    comparator sorts.  The standard leaves the order of equivalent elements
    open, so nothing below may depend on it. *)
Definition sorts_before {A} (less : A → A → bool) (a b : A) : Prop := less b a = false.
#[global] Instance sorts_before_dec {A} (less : A → A → bool) : RelDecision (sorts_before less).
Proof. intros a b. unfold sorts_before. apply _. Defined.
Definition std_sort {A} (less : A → A → bool) (l : list A) : list A :=
  merge_sort (sorts_before less) l.

Lemma std_sort_perm {A} (less : A → A → bool) l : std_sort less l ≡ₚ l.
Proof. apply merge_sort_Permutation. Qed.
Lemma std_sort_sorted {A} (less : A → A → bool) l :
  Total (sorts_before less) → Transitive (sorts_before less) →
  StronglySorted (sorts_before less) (std_sort less l).
Proof. intros. apply StronglySorted_merge_sort; apply _. Qed.

(** Removing a list of keys one after the other, as the erase loops do. *)
Definition erase_keys `{Countable K} {A} (ks : list K) (m : gmap K A) : gmap K A :=
  foldl (λ m k, delete k m) m ks.

Section erase_keys.
Context `{Countable K} {A : Type}.
Implicit Types m : gmap K A.

Lemma lookup_erase_keys ks m k :
  erase_keys ks m !! k = (if decide (k ∈ ks) then None else m !! k).
Proof.
  revert m. unfold erase_keys.
  induction ks as [|k' ks IH]; intros m; cbn [foldl].
  { by rewrite decide_False by set_solver. }
  rewrite IH.
  destruct (decide (k ∈ ks)) as [Hin|Hin].
  { by rewrite decide_True by set_solver. }
  destruct (decide (k = k')) as [->|Hne].
  { rewrite lookup_delete_eq, decide_True by set_solver. done. }
  rewrite lookup_delete_ne, decide_False by set_solver. done.
Qed.

Lemma lookup_erase_keys_Some ks m k a :
  erase_keys ks m !! k = Some a ↔ (k ∉ ks) ∧ m !! k = Some a.
Proof. rewrite lookup_erase_keys. case_decide; naive_solver. Qed.

Lemma erase_keys_empty ks : erase_keys ks (∅ : gmap K A) = ∅.
Proof. apply map_eq. intros k. rewrite lookup_erase_keys. by case_decide. Qed.
End erase_keys.

(** [std::string::operator<] and [operator>=]. *)
Definition str_lt (a b : string) : bool := String.ltb a b.

Lemma str_lt_ge a b : str_lt b a = false ↔ String.le a b.
Proof.
  unfold str_lt, String.ltb, String.le, String.leb.
  rewrite (String.compare_antisym a b). by destruct (String.compare b a).
Qed.
Lemma str_lt_irrefl a : str_lt a a = false.
Proof. by apply str_lt_ge. Qed.
Lemma str_lt_trans a b c : str_lt a b = true → str_lt b c = true → str_lt a c = true.
Proof.
  rewrite <- !not_false_iff_true, !str_lt_ge. intros Hab Hbc Hca.
  destruct (String.le_total b a) as [H|H]; [done|]. apply Hbc. by trans a.
Qed.

(** The half-open key range of the range and delete requests:
    [!(k < key || k >= range_end)]. *)
Definition in_range (key range_end k : string) : bool :=
  negb (str_lt k key) && str_lt k range_end.

(** Inserting a list of bindings one after the other. *)
Definition insert_pairs `{Countable K} {A} (ps : list (K * A)) (m : gmap K A) : gmap K A :=
  foldl (λ m p, <[p.1 := p.2]> m) m ps.

Lemma insert_pairs_list `{Countable K} {A} (ps : list (K * A)) (m : gmap K A) :
  NoDup ps.*1 → insert_pairs ps m = list_to_map ps ∪ m.
Proof.
  revert m. unfold insert_pairs. induction ps as [|[k a] ps IH]; intros m; cbn [foldl].
  { intros _. simpl. by rewrite (left_id_L ∅ (∪)). }
  rewrite fmap_cons, NoDup_cons. intros [Hk Hnd]. rewrite IH by done. simpl.
  rewrite <- insert_union_l, insert_union_r; [done|].
  by apply not_elem_of_list_to_map_1.
Qed.

Lemma lookup_insert_pairs_ne `{Countable K} {A} (ps : list (K * A)) (m : gmap K A) k :
  k ∉ ps.*1 → insert_pairs ps m !! k = m !! k.
Proof.
  revert m. unfold insert_pairs. induction ps as [|p ps IH]; intros m Hk; [done|].
  rewrite fmap_cons, not_elem_of_cons in Hk. cbn [foldl].
  destruct Hk as [Hne Hk]. rewrite IH by done. by rewrite lookup_insert_ne.
Qed.

Lemma insert_pairs_map `{Countable K} {A} (ps : list (K * A)) (m m' : gmap K A) :
  ps ≡ₚ map_to_list m → insert_pairs ps m' = m ∪ m'.
Proof.
  intros Hp. rewrite insert_pairs_list by (rewrite Hp; apply NoDup_fst_map_to_list).
  f_equal. rewrite <- (list_to_map_to_list m). apply list_to_map_proper; [|done].
  rewrite Hp. apply NoDup_fst_map_to_list.
Qed.

(** Inserting the bindings of [m] and erasing the other keys leaves [m]. *)
Lemma erase_others `{Countable K} {A} (ps : list (K * A)) (m c : gmap K A) ks :
  ps ≡ₚ map_to_list m → (∀ k, k ∈ ks ↔ k ∉ ps.*1 ∧ is_Some (c !! k)) →
  erase_keys ks (insert_pairs ps c) = m.
Proof.
  intros Hps Hks. apply map_eq. intros k. rewrite lookup_erase_keys, (insert_pairs_map _ _ _ Hps).
  assert (Hpk : k ∈ ps.*1 ↔ is_Some (m !! k)).
  { rewrite Hps, list_elem_of_fmap. split.
    - intros ([k' a] & -> & Ha%elem_of_map_to_list). by eexists.
    - intros [a Ha]. exists (k, a). by rewrite elem_of_map_to_list. }
  rewrite lookup_union. case_decide as Hd; rewrite Hks, Hpk in Hd.
  - destruct Hd as [Hn _]. by apply eq_None_not_Some in Hn.
  - destruct (m !! k) eqn:E; [by destruct (c !! k)|]. destruct (c !! k) eqn:Ec; [|done].
    exfalso. apply Hd. split; [by intros []|by eexists].
Qed.

(** A subsequence of a sorted sequence is sorted. *)
Lemma StronglySorted_sublist {A} (R : A → A → Prop) l l' :
  l' `sublist_of` l → StronglySorted R l → StronglySorted R l'.
Proof.
  induction 1 as [|x l' l Hs IH|x l' l Hs IH]; intros H; [done|..]; inversion_clear H as [|? ? Hl Hx].
  - constructor; [by apply IH|]. apply Forall_forall. intros y Hy.
    apply (proj1 (Forall_forall _ _) Hx). by eapply elem_of_submseteq, sublist_submseteq.
  - by apply IH.
Qed.

(** ** Machine integers *)
Definition INT64_MAX : Z := 2 ^ 63 - 1.
Definition INT64_MIN : Z := - 2 ^ 63.

(** The two's complement value of a result that does not fit [int64_t]. *)
Definition wrap64 (z : Z) : Z := (z + 2 ^ 63) mod 2 ^ 64 - 2 ^ 63.

(** The implicit conversion of an integer to [uint32_t]. *)
Definition to_uint32 (z : Z) : Z := z mod 2 ^ 32.

Lemma wrap64_small z : INT64_MIN ≤ z ≤ INT64_MAX → wrap64 z = z.
Proof.
  unfold INT64_MIN, INT64_MAX, wrap64. intros H.
  rewrite Z.mod_small; lia.
Qed.

Lemma to_uint32_small z : 0 ≤ z < 2 ^ 32 → to_uint32 z = z.
Proof. intros H. apply Z.mod_small. done. Qed.

(** ** Statuses ([common/status/status.h]) *)
Record Status := mkStatus { st_code : Z; st_msg : string }.

Definition SUCCESS : Z := 0.
Definition FAILED : Z := -1.
Definition StatusOK : Status := mkStatus SUCCESS "".
Definition IsOk (s : Status) : bool := bool_decide (st_code s = SUCCESS).
Definition IsError (s : Status) : bool := negb (IsOk s).

Lemma IsError_OK : IsError StatusOK = false.
Proof. done. Qed.
#[export] Hint Rewrite IsError_OK : act.

(** ** Protobuf messages on the wire

    [SerializeAsString] and [ParseFromString] are generated by protoc: a
    message type comes with the two functions, and [CodecOk] is the
    round trip protobuf documents. *)
Class Codec (A : Type) := { ser : A → string; parse : string → option A }.
Class CodecOk (A : Type) {C : Codec A} : Prop :=
  parse_ser : ∀ a : A, parse (ser a) = Some a.

#[global] Instance ser_inj `{CodecOk A} : Inj (=) (=) (ser (A:=A)).
Proof. intros a b E. apply (inj Some). by rewrite <- !parse_ser, E. Qed.

(** A codec for any countable type, used to instantiate the parameter. *)
Fixpoint pos_digits (p : positive) : string :=
  match p with
  | xH => ""
  | xO p => String "0"%char (pos_digits p)
  | xI p => String "1"%char (pos_digits p)
  end.
Fixpoint digits_pos (s : string) : positive :=
  match s with
  | EmptyString => xH
  | String "0"%char s => xO (digits_pos s)
  | String _ s => xI (digits_pos s)
  end.
Lemma digits_pos_digits p : digits_pos (pos_digits p) = p.
Proof. induction p as [p IH|p IH|]; simpl; by rewrite ?IH. Qed.

Definition countable_codec (A : Type) `{Countable A} : Codec A :=
  {| ser a := pos_digits (encode a); parse s := decode (digits_pos s) |}.
Lemma countable_codec_ok (A : Type) `{Countable A} : CodecOk A (C:=countable_codec A).
Proof. intros a. simpl. by rewrite digits_pos_digits, decode_encode. Qed.

(** [act_unfold] runs a handler body on a symbolic state. *)
Ltac act_unfold :=
  cbv [mbind act_bind mret act_ret members modify post act_when];
  cbn [fst snd app].
