(* ===== verification/StdStrings.v ===== *)
(** * Strings of the C++ standard library

    [std::to_string] and [std::stoll] on [int64_t], [std::string::substr] and
    [std::string::find], with the lemmas the components share. *)

From S2P Require Import Prelude.
From stdpp Require Import base strings pretty numbers.
From Stdlib Require Import Ascii ZArith Lia.

Open Scope Z_scope.

(** [std::to_string] prints an integer in decimal. *)
Definition to_string (z : Z) : string := pretty z.

(** ** [std::stoll]

    Leading white space is skipped, a sign may follow, then the longest run of
    digits is read.  No digit raises [invalid_argument], a value outside of
    [int64_t] raises [out_of_range]; both are [None]. *)
Definition is_space (c : ascii) : bool :=
  let n := nat_of_ascii c in
  bool_decide (n = 32)%nat || bool_decide (9 ≤ n ≤ 13)%nat.
Definition digit_of (c : ascii) : option Z :=
  let n := N_of_ascii c in
  if (48 <=? n)%N && (n <=? 57)%N then Some (Z.of_N n - 48) else None.

Fixpoint skip_space (s : string) : string :=
  match s with
  | String c s' => if is_space c then skip_space s' else s
  | "" => ""
  end.
(** The value of the run of digits at the head of [s], after [acc]. *)
Fixpoint scan_digits (s : string) (acc : Z) : Z :=
  match s with
  | String c s' =>
      match digit_of c with
      | Some d => scan_digits s' (10 * acc + d)
      | None => acc
      end
  | "" => acc
  end.
Definition starts_with_digit (s : string) : bool :=
  match s with
  | String c _ => bool_decide (digit_of c ≠ None)
  | "" => false
  end.
Definition stoll_sign (s : string) : Z * string :=
  match s with
  | String "-" s' => (-1, s')
  | String "+" s' => (1, s')
  | _ => (1, s)
  end.
Definition stoll (s : string) : option Z :=
  let p := stoll_sign (skip_space s) in
  if negb (starts_with_digit p.2) then None
  else
    let z := p.1 * scan_digits p.2 0 in
    if (INT64_MIN <=? z) && (z <=? INT64_MAX) then Some z else None.

(** ** [std::string::substr]: [None] is the [out_of_range] exception. *)
Definition substr (pos : nat) (s : string) : option string :=
  if (pos <=? String.length s)%nat
  then Some (String.substring pos (String.length s - pos) s) else None.

(** ** Lemmas *)
Lemma digit_of_pretty x : (x < 10)%N → digit_of (pretty_N_char x) = Some (Z.of_N x).
Proof.
  intros Hx. destruct x as [|p]; [done|].
  repeat (destruct p as [p|p|]; try done; try lia).
Qed.

Lemma scan_pretty_go x : ∀ s, scan_digits (pretty_N_go x s) 0 = scan_digits s (Z.of_N x).
Proof.
  induction (N.lt_wf_0 x) as [x _ IH]. intros s.
  destruct (decide (x = 0)%N) as [->|Hx]; [by rewrite pretty_N_go_0|].
  rewrite pretty_N_go_step by lia. rewrite IH by (apply N.div_lt; lia).
  cbn [scan_digits]. rewrite digit_of_pretty by (apply N.mod_lt; lia).
  f_equal. rewrite N2Z.inj_mod, N2Z.inj_div. pose proof (Z.div_mod (Z.of_N x) 10). lia.
Qed.

Lemma pretty_go_digit x s :
  starts_with_digit s = true ∨ (0 < x)%N → starts_with_digit (pretty_N_go x s) = true.
Proof.
  revert s. induction (N.lt_wf_0 x) as [x _ IH]. intros s Hs.
  destruct (decide (x = 0)%N) as [->|Hx]; [rewrite pretty_N_go_0; destruct Hs; [done|lia]|].
  rewrite pretty_N_go_step by lia. apply IH; [apply N.div_lt; lia|]. left. simpl.
  by rewrite digit_of_pretty by (apply N.mod_lt; lia).
Qed.

Lemma pretty_pos_scan (p : positive) :
  starts_with_digit (pretty p) = true ∧ scan_digits (pretty p) 0 = Z.pos p.
Proof.
  unfold pretty, pretty_positive, pretty, pretty_N. rewrite decide_False by done.
  split; [apply pretty_go_digit; right; lia|by rewrite scan_pretty_go].
Qed.

Lemma starts_with_digit_plain s :
  starts_with_digit s = true → skip_space s = s ∧ stoll_sign s = (1, s).
Proof.
  destruct s as [|c s]; [done|]. cbn [starts_with_digit]. rewrite bool_decide_eq_true.
  destruct c as [[] [] [] [] [] [] [] []]; try (intros; split; reflexivity); by intros [].
Qed.

(** Reading back a printed [int64_t] gives the same value. *)
Lemma stoll_to_string z : INT64_MIN ≤ z ≤ INT64_MAX → stoll (to_string z) = Some z.
Proof.
  intros Hz. assert (((INT64_MIN <=? z) && (z <=? INT64_MAX)) = true) as Hb.
  { apply andb_true_iff. rewrite !Z.leb_le. done. }
  unfold stoll, to_string. destruct z as [|p|p]; [done|..].
  - change (pretty (Z.pos p)) with (pretty p). destruct (pretty_pos_scan p) as [Hd Hs].
    destruct (starts_with_digit_plain _ Hd) as [-> ->]. cbn [fst snd].
    by rewrite Hd, Hs, Z.mul_1_l, Hb.
  - destruct (pretty_pos_scan p) as [Hd Hs].
    change (stoll_sign (skip_space (pretty (Z.neg p)))) with (-1, pretty p).
    cbn [fst snd]. rewrite Hd, Hs. cbn [negb].
    change (-1 * Z.pos p) with (Z.neg p). by rewrite Hb.
Qed.

Lemma to_string_inj : Inj (=) (=) to_string.
Proof. apply _. Qed.

Lemma substr_app (p k : string) : substr (String.length p) (p +:+ k) = Some k.
Proof.
  unfold substr. induction p as [|c p IH]; simpl.
  - f_equal. rewrite Nat.sub_0_r. induction k as [|c k IH]; simpl; [done|by f_equal].
  - apply IH.
Qed.
