(* ===== verification/MetaTypes.v ===== *)
(** * Messages of the meta store

    The records of [mvccpb], [etcdserverpb] and [messages::MetaStore] that the
    server actors exchange, with the fields the server reads or writes.  An
    unset protobuf field reads as its default: the empty string, zero, false. *)

From S2P Require Import Prelude.
From stdpp Require Import base gmap strings list countable.

Open Scope Z_scope.

(** An actor identifier; [AID::OK] is false on the empty one. *)
Abbreviation AID := string (only parsing).
Definition aid_ok (a : AID) : bool := negb (bool_decide (a = "")).

(** ** [mvccpb] *)
Record KeyValue := mkKV {
  kv_key : string;
  kv_create_revision : Z;
  kv_mod_revision : Z;
  kv_version : Z;
  kv_value : string;
  kv_lease : Z;
}.
Definition kv_empty : KeyValue := mkKV "" 0 0 0 "" 0.

#[global] Instance KeyValue_eq_dec : EqDecision KeyValue.
Proof. solve_decision. Defined.
#[global] Program Instance KeyValue_countable : Countable KeyValue :=
  inj_countable'
    (λ kv, (kv_key kv, kv_create_revision kv, kv_mod_revision kv, kv_version kv,
            kv_value kv, kv_lease kv))
    (λ '(k, c, m, v, x, l), mkKV k c m v x l) _.
Next Obligation. by intros []. Qed.

Inductive EventType := EVENT_PUT | EVENT_DELETE.
Record Event := mkEvent { ev_type : EventType; ev_kv : KeyValue; ev_prev_kv : option KeyValue }.

(** ** [etcdserverpb] *)
Record ResponseHeader := mkHeader { hd_cluster_id : Z; hd_revision : Z }.

Record EtcdPutRequest := mkEtcdPut {
  ep_key : string; ep_value : string; ep_lease : Z; ep_prev_kv : bool }.
Record EtcdPutResponse := mkEtcdPutResp {
  epr_header : ResponseHeader; epr_prev_kv : option KeyValue }.

Record DeleteRangeRequest := mkDeleteRange {
  dr_key : string; dr_range_end : string; dr_prev_kv : bool }.
Record DeleteRangeResponse := mkDeleteRangeResp {
  drr_header : ResponseHeader; drr_deleted : Z; drr_prev_kvs : list KeyValue }.

Inductive SortOrder := ORDER_NONE | ORDER_ASCEND | ORDER_DESCEND.
Inductive SortTarget :=
  | SORT_KEY | SORT_VERSION | SORT_CREATE | SORT_MOD | SORT_VALUE | SORT_OTHER.
Record RangeRequest := mkRange {
  rr_key : string; rr_range_end : string;
  rr_sort_order : SortOrder; rr_sort_target : SortTarget;
  rr_keys_only : bool; rr_count_only : bool }.
Record RangeResponse := mkRangeResp {
  rrr_header : ResponseHeader; rrr_count : Z; rrr_kvs : list KeyValue }.

Inductive CompareResult := CMP_EQUAL | CMP_GREATER | CMP_LESS | CMP_NOT_EQUAL | CMP_OTHER.
Inductive CompareTarget := TGT_VERSION | TGT_CREATE | TGT_MOD | TGT_VALUE | TGT_LEASE | TGT_OTHER.
(** The [target_union] of a compare; reading another arm gives its default. *)
Inductive TargetUnion :=
  | U_none
  | U_version (z : Z) | U_create_revision (z : Z) | U_mod_revision (z : Z)
  | U_value (s : string) | U_lease (z : Z).
Record Compare := mkCompare {
  cmp_result : CompareResult; cmp_target : CompareTarget;
  cmp_key : string; cmp_union : TargetUnion }.
Definition cmp_version (c : Compare) : Z :=
  match cmp_union c with U_version z => z | _ => 0 end.
Definition cmp_create_revision (c : Compare) : Z :=
  match cmp_union c with U_create_revision z => z | _ => 0 end.
Definition cmp_mod_revision (c : Compare) : Z :=
  match cmp_union c with U_mod_revision z => z | _ => 0 end.
Definition cmp_value (c : Compare) : string :=
  match cmp_union c with U_value s => s | _ => "" end.
Definition cmp_lease (c : Compare) : Z :=
  match cmp_union c with U_lease z => z | _ => 0 end.

(** A nested transaction is carried but never executed, so its body is left out. *)
Inductive RequestOp :=
  | kRequestRange (r : RangeRequest)
  | kRequestPut (p : EtcdPutRequest)
  | kRequestDeleteRange (d : DeleteRangeRequest)
  | kRequestTxn
  | REQUEST_NOT_SET.
Inductive ResponseOp :=
  | kResponseRange (r : RangeResponse)
  | kResponsePut (p : EtcdPutResponse)
  | kResponseDeleteRange (d : DeleteRangeResponse).
Record TxnRequest := mkTxn {
  txn_compare : list Compare; txn_success : list RequestOp; txn_failure : list RequestOp }.
Record TxnResponse := mkTxnResp {
  txr_header : ResponseHeader; txr_succeeded : bool; txr_responses : list ResponseOp }.

Record WatchCreateRequest := mkWatchCreate {
  wc_key : string; wc_range_end : string; wc_prev_kv : bool }.
Record WatchRequest := mkWatchRequest {
  wq_create : WatchCreateRequest; wq_cancel_watch_id : Z }.
Record WatchResponse := mkWatchResp {
  wr_header : ResponseHeader; wr_watch_id : Z; wr_created : bool; wr_canceled : bool;
  wr_cancel_reason : string; wr_events : list Event }.

Record LeaseGrantRequest := mkGrant { lg_id : Z; lg_ttl : Z }.
Record LeaseIdRequest := mkLeaseId { li_id : Z }.
(** The header of the lease responses is a constant. *)
Record LeaseHeader := mkLeaseHeader {
  lh_cluster_id : Z; lh_member_id : Z; lh_revision : Z; lh_raft_term : Z }.
Record LeaseResponse := mkLeaseResp { lr_header : LeaseHeader; lr_id : Z; lr_ttl : Z }.

(** ** [messages::MetaStore] *)
Record PutRequest := mkPut {
  pr_requestid : string; pr_key : string; pr_value : string; pr_lease : Z;
  pr_prevkv : bool; pr_asyncbackup : bool }.
Record PutResponse := mkPutResp {
  pp_requestid : string; pp_revision : Z; pp_prevkv : string;
  pp_status : Z; pp_errormsg : string }.
Record MetaStoreRequest := mkReq {
  mq_requestid : string; mq_requestmsg : string; mq_asyncbackup : bool }.
Record MetaStoreResponse := mkResp {
  mr_responseid : string; mr_responsemsg : string; mr_status : Z; mr_errormsg : string }.
Record GetAndWatchResponse := mkGetAndWatch { gw_get : string; gw_watch : string }.

#[global] Instance EventType_eq_dec : EqDecision EventType.
Proof. solve_decision. Defined.
#[global] Program Instance EventType_countable : Countable EventType :=
  inj_countable' (λ t, match t with EVENT_PUT => true | EVENT_DELETE => false end)
    (λ b, if b : bool then EVENT_PUT else EVENT_DELETE) _.
Next Obligation. by intros []. Qed.
#[global] Instance Event_eq_dec : EqDecision Event.
Proof. solve_decision. Defined.
#[global] Program Instance Event_countable : Countable Event :=
  inj_countable' (λ e, (ev_type e, ev_kv e, ev_prev_kv e)) (λ '(t, k, p), mkEvent t k p) _.
Next Obligation. by intros []. Qed.
#[global] Instance ResponseHeader_eq_dec : EqDecision ResponseHeader.
Proof. solve_decision. Defined.
#[global] Program Instance ResponseHeader_countable : Countable ResponseHeader :=
  inj_countable' (λ h, (hd_cluster_id h, hd_revision h)) (λ '(c, r), mkHeader c r) _.
Next Obligation. by intros []. Qed.
#[global] Instance WatchResponse_eq_dec : EqDecision WatchResponse.
Proof. solve_decision. Defined.
#[global] Program Instance WatchResponse_countable : Countable WatchResponse :=
  inj_countable'
    (λ w, (wr_header w, wr_watch_id w, wr_created w, wr_canceled w, wr_cancel_reason w, wr_events w))
    (λ '(h, i, c, x, r, e), mkWatchResp h i c x r e) _.
Next Obligation. by intros []. Qed.
#[global] Instance MetaStoreResponse_eq_dec : EqDecision MetaStoreResponse.
Proof. solve_decision. Defined.
#[global] Program Instance MetaStoreResponse_countable : Countable MetaStoreResponse :=
  inj_countable' (λ r, (mr_responseid r, mr_responsemsg r, mr_status r, mr_errormsg r))
    (λ '(i, m, s, e), mkResp i m s e) _.
Next Obligation. by intros []. Qed.

Record Lease := mkLease {
  ls_id : Z; ls_ttl : Z; ls_expiry : Z; ls_items : list string }.
#[global] Instance Lease_eq_dec : EqDecision Lease.
Proof. solve_decision. Defined.

(** ** Results the key-value actor hands to the backup actor
    ([backup_actor.h]): the new and the previous value of a put, the values a
    delete removes, and both lists of a transaction. *)
Abbreviation PutResults := (KeyValue * KeyValue)%type (only parsing).
Abbreviation DeleteResults := (list KeyValue) (only parsing).
Abbreviation TxnResults := (list (KeyValue * KeyValue) * list (list KeyValue))%type (only parsing).

(** An event of the storage below the meta store. *)
Inductive StoreEventType := EVENT_TYPE_PUT | EVENT_TYPE_DELETE.
Record WatchEvent := mkWatchEvent { we_type : StoreEventType; we_kv : KeyValue }.
Record GetResponse := mkGetResp { gr_status : Status; gr_revision : Z; gr_kvs : list KeyValue }.

Definition META_STORE_CLUSTER_ID : Z := 123456.
Definition META_STORE_MEMBER_ID : Z := 456789.
Definition META_STORE_REVISION : Z := 32.
Definition META_STORE_RAFT_TERM : Z := 2.
Definition META_STORE_BACKUP_KV_PREFIX : string := "/metastore/kv/".
Definition META_STORE_BACKUP_LEASE_PREFIX : string := "/metastore/lease/".

(** [s.substr(n)]; the source only calls it on keys that carry the prefix of
    length [n]. *)
Definition str_drop (n : nat) (s : string) : string :=
  String.substring n (String.length s - n) s.

Lemma str_drop_app (p k : string) : str_drop (String.length p) (p +:+ k) = k.
Proof.
  unfold str_drop. induction p as [|c p IH]; simpl.
  - rewrite Nat.sub_0_r. induction k as [|c k IH]; simpl; [done|by f_equal].
  - apply IH.
Qed.

(** The serialisers of the messages the key-value actor parses or sends. *)
Class Protobuf := {
  pb_kv :: Codec KeyValue;
  pb_watch_request :: Codec WatchRequest;
  pb_delete_request :: Codec DeleteRangeRequest;
  pb_range_request :: Codec RangeRequest;
  pb_txn_request :: Codec TxnRequest;
  pb_delete_response :: Codec DeleteRangeResponse;
  pb_range_response :: Codec RangeResponse;
  pb_txn_response :: Codec TxnResponse;
  pb_watch_response :: Codec WatchResponse;
  pb_get_and_watch :: Codec GetAndWatchResponse;
  pb_put_response :: Codec PutResponse;
  pb_response :: Codec MetaStoreResponse;
}.
