(* ===== verification/Leader.v ===== *)
(** * Roles

    The leader election callback of [common/leader/business_policy.h]: every
    actor with a master and a slave business decides its next role here. *)

From stdpp Require Import base strings.

Inductive Business := MASTER_BUSINESS | SLAVE_BUSINESS.
#[global] Instance Business_eq_dec : EqDecision Business.
Proof. solve_decision. Defined.

(** [None] is the empty status, for which no business is registered. *)
Definition GetStatus (curUrl masterUrl : string) (curStatus : Business) : option Business :=
  let status := if bool_decide (curUrl = masterUrl) then MASTER_BUSINESS else SLAVE_BUSINESS in
  if bool_decide (curStatus = status) then None else Some status.

(** A reported change is a change, and it names the role of the address. *)
Lemma GetStatus_Some cur master b b' :
  GetStatus cur master b = Some b' →
  b' ≠ b ∧ (b' = MASTER_BUSINESS ↔ cur = master).
Proof. unfold GetStatus. repeat case_bool_decide; naive_solver. Qed.
