(* ===== verification/KvService.v ===== *)
(** * The key-value actor ([meta_store/server/src/kv_service_actor.cpp])

    [Kv.State] holds the members of [KvServiceActor]; each handler is an
    action over them that posts messages to the watch, lease and backup actors
    and to clients. *)

From S2P Require Import Prelude MetaTypes Leader.
From stdpp Require Import base gmap strings list fin_maps sorting.
From Stdlib Require Import ZArith Lia.

Open Scope Z_scope.

Module Kv.

(** ** Members *)
Inductive RequestCase := CasePut | CaseDeleteRange.
#[global] Instance RequestCase_eq_dec : EqDecision RequestCase.
Proof. solve_decision. Defined.

Record OngoingEvent := mkOngoing {
  og_type : RequestCase; og_kv : KeyValue; og_preKv : KeyValue }.

(** [curStatus_] and [business_] always name the same role. *)

Record State := mkState {
  modRevision_ : Z;
  ongoing_ : gmap string OngoingEvent;
  cache_ : gmap string KeyValue;
  watchServiceActor_ : bool;  (* spawned *)
  backupActor_ : bool;        (* [backupActor_.OK()] *)
  needExplore_ : bool;
  curStatus_ : Business;
}.

Definition set_modRevision (r : Z) (s : State) : State :=
  mkState r (ongoing_ s) (cache_ s) (watchServiceActor_ s) (backupActor_ s)
    (needExplore_ s) (curStatus_ s).
Definition set_ongoing (o : gmap string OngoingEvent) (s : State) : State :=
  mkState (modRevision_ s) o (cache_ s) (watchServiceActor_ s) (backupActor_ s)
    (needExplore_ s) (curStatus_ s).
Definition set_cache (c : gmap string KeyValue) (s : State) : State :=
  mkState (modRevision_ s) (ongoing_ s) c (watchServiceActor_ s) (backupActor_ s)
    (needExplore_ s) (curStatus_ s).
Definition set_watchActor (b : bool) (s : State) : State :=
  mkState (modRevision_ s) (ongoing_ s) (cache_ s) b (backupActor_ s)
    (needExplore_ s) (curStatus_ s).
Definition set_curStatus (b : Business) (s : State) : State :=
  mkState (modRevision_ s) (ongoing_ s) (cache_ s) (watchServiceActor_ s) (backupActor_ s)
    (needExplore_ s) b.

(** The members after construction and [InitExplorer]. *)
Definition init (backup needExplore : bool) : State :=
  let explore := backup && needExplore in
  mkState 0 ∅ ∅ false backup explore (if explore then SLAVE_BUSINESS else MASTER_BUSINESS).

(** ** Messages posted by the handlers *)
Inductive Out :=
  | LeaseAttach (item : string) (leaseID : Z)
  | SpawnWatchServiceActor
  | WatchCreate (from : AID) (uuid : string) (request : WatchCreateRequest)
  | WatchCreateWatch (from : AID) (request : WatchCreateRequest)
  | WatchSendResponse (from : AID) (method : string) (response : MetaStoreResponse)
  | WatchOnPut (kv prevKv : KeyValue)
  | WatchOnDeleteList (kvs : DeleteResults)
  | WatchOnDelete (prevKv : KeyValue)
  | BackupWritePut (kv : KeyValue) (asyncBackup : bool)
  | BackupWriteDeletes (kvs : DeleteResults) (asyncBackup : bool)
  | BackupWriteTxn (txn : TxnResults) (asyncBackup : bool)
  | BackupGet (prefix : string)
  | BackupWatch (prefix : string) (revision : Z)
  | Send (to : AID) (name : string) (msg : string).

(** What runs when the backup actor has answered: the commit of a put, of a
    delete or of a transaction. *)
Inductive BackupKont :=
  | ThenOnTryPutCache (from : AID) (request : PutRequest) (response : PutResponse)
  | ThenOnTryDeleteRange (deletes : DeleteResults) (from : AID) (request : MetaStoreRequest)
      (response : DeleteRangeResponse)
  | ThenOnTryTxn (txn : TxnResults) (from : AID) (request : MetaStoreRequest)
      (response : TxnResponse).

(** What runs after the commit, with its status: the answer to the client. *)
Inductive ReplyKont :=
  | ThenOnAsyncPut (from : AID) (request : PutRequest) (response : PutResponse) (status : Status)
  | ThenOnAsyncDelete (from : AID) (request : MetaStoreRequest) (response : DeleteRangeResponse)
      (status : Status)
  | ThenOnAsyncTxn (from : AID) (request : MetaStoreRequest) (response : TxnResponse)
      (status : Status).

(** A [litebus::Future<Status>]: a value, or a continuation waiting for the
    backup actor or for the watch actor. *)
Inductive Future :=
  | Ready (status : Status)
  | AwaitBackup (k : BackupKont)
  | AwaitWatch (from : AID) (uuid : string) (request : WatchCreateRequest).

Abbreviation K := (Act State Out).

Section handlers.
Context {PB : Protobuf}.

(** What is left in a [KeyValue] that was moved from.  Protobuf only promises
    a valid message. *)
Context (kv_moved : KeyValue → KeyValue).

(** ** Role ([UpdateLeaderInfo], [leader::GetStatus]) *)
Definition UpdateLeaderInfo (curUrl leaderAddress : string) : K bool :=
  s ← members;
  match GetStatus curUrl leaderAddress (curStatus_ s) with
  | None => mret false
  | Some newStatus => modify (set_curStatus newStatus) ≫= λ _, mret true
  end.

(** ** Puts *)
Definition CheckAndCreateWatchServiceActor : K unit :=
  s ← members;
  if watchServiceActor_ s then mret tt
  else post SpawnWatchServiceActor ≫= λ _, modify (set_watchActor true).

Definition CheckUniqueOngoingValid (s : State) (key : string) : bool :=
  bool_decide (ongoing_ s !! key = None).

Definition CheckDeletesOngoingValid (s : State) (deletes : DeleteResults) : bool :=
  forallb (λ kv,
    match ongoing_ s !! kv_key kv with
    | None => true
    | Some e => bool_decide (og_type e = CaseDeleteRange)
    end) deletes.

Definition CheckTxnOngoingValid (s : State) (txn : TxnResults) : bool :=
  forallb (λ puts, CheckUniqueOngoingValid s (kv_key puts.1)) txn.1 &&
  forallb (CheckDeletesOngoingValid s) txn.2.

Definition InsertUniqueOngoing (type : RequestCase) (kv preKv : KeyValue) : K unit :=
  modify (λ s, set_ongoing (<[kv_key kv := mkOngoing type kv preKv]> (ongoing_ s)) s).

Definition InsertDeleteOngoing (deletes : DeleteResults) : K unit :=
  for_each deletes (λ kv, InsertUniqueOngoing CaseDeleteRange kv kv_empty).

Definition InsertTxnOngoing (txn : TxnResults) : K unit :=
  for_each txn.1 (λ puts, InsertUniqueOngoing CasePut puts.1 puts.2) ≫= λ _,
  for_each txn.2 (λ deletes,
    for_each deletes (λ kv, InsertUniqueOngoing CaseDeleteRange kv kv_empty)).

(** The key-value a put on top of [kv] (the cached one, or an empty one)
    produces at revision [rev]. *)
Definition next_kv (kv : KeyValue) (request : PutRequest) (rev : Z) : KeyValue :=
  if bool_decide (kv_key kv = "") then
    mkKV (pr_key request) rev rev 1 (pr_value request) (pr_lease request)
  else
    mkKV (kv_key kv) (kv_create_revision kv) rev (kv_version kv + 1)
      (pr_value request) (pr_lease request).

Definition TryPutCache (request : PutRequest) : K (PutResults * PutResponse) :=
  s ← members;
  let prevKv := default kv_empty (cache_ s !! pr_key request) in
  let prevBytes :=
    if negb (bool_decide (kv_key prevKv = "")) && pr_prevkv request
    then ser prevKv else "" in
  let rev := modRevision_ s + 1 in
  modify (set_modRevision rev) ≫= λ _,
  let kv := next_kv prevKv request rev in
  post (LeaseAttach (pr_key request) (pr_lease request)) ≫= λ _,
  mret ((kv, prevKv), mkPutResp (pr_requestid request) rev prevBytes 0 "").

Definition OnTryPutCache (key : string) (status : Status) : K Status :=
  if IsError status then
    modify (λ s, set_ongoing (delete key (ongoing_ s)) s) ≫= λ _,
    mret status
  else
    s ← members;
    match ongoing_ s !! key with
    | None => mret status
    | Some e =>
        modify (λ s, set_cache (<[key := og_kv e]> (cache_ s)) s) ≫= λ _,
        post (WatchOnPut (og_kv e) (og_preKv e)) ≫= λ _,
        modify (λ s, set_ongoing (delete key (ongoing_ s)) s) ≫= λ _,
        mret StatusOK
    end.

Definition OnAsyncPut (from : AID) (request : PutRequest) (putResponse : PutResponse)
    (status : Status) : K Status :=
  let putResponse :=
    if IsError status then
      mkPutResp (pp_requestid putResponse) (pp_revision putResponse) (pp_prevkv putResponse)
        (st_code status) (st_msg status)
    else putResponse in
  post (Send from "OnPut" (ser putResponse)) ≫= λ _,
  mret StatusOK.

Definition Master_AsyncPut (from : AID) (request : PutRequest) : K Future :=
  CheckAndCreateWatchServiceActor ≫= λ _,
  s ← members;
  if negb (CheckUniqueOngoingValid s (pr_key request)) then
    mret (Ready (mkStatus FAILED "async put failed."))
  else
    r ← TryPutCache request;
    InsertUniqueOngoing CasePut r.1.1 r.1.2 ≫= λ _,
    act_when (backupActor_ s) (post (BackupWritePut r.1.1 (pr_asyncbackup request))) ≫= λ _,
    if backupActor_ s && negb (pr_asyncbackup request) then
      mret (AwaitBackup (ThenOnTryPutCache from request r.2))
    else
      OnTryPutCache (pr_key request) StatusOK ≫= λ _,
      st ← OnAsyncPut from request r.2 StatusOK;
      mret (Ready st).

(** The etcd flavour of a put, used by transactions. *)
Definition TryPut (etcdPutRequest : EtcdPutRequest) : K (PutResults * EtcdPutResponse) :=
  let request := mkPut "" (ep_key etcdPutRequest) (ep_value etcdPutRequest)
                   (ep_lease etcdPutRequest) (ep_prev_kv etcdPutRequest) false in
  r ← TryPutCache request;
  let kv := r.1.1 in
  let preKv := r.1.2 in
  let header := mkHeader META_STORE_CLUSTER_ID (pp_revision r.2) in
  if pr_prevkv request && negb (bool_decide (kv_key preKv = "")) then
    mret ((kv, kv_moved preKv), mkEtcdPutResp header (Some preKv))
  else
    mret ((kv, preKv), mkEtcdPutResp header None).

Definition Put (etcdPutRequest : EtcdPutRequest) : K (PutResults * option EtcdPutResponse) :=
  s ← members;
  if negb (CheckUniqueOngoingValid s (ep_key etcdPutRequest)) then
    mret ((kv_empty, kv_empty), None)
  else
    r ← TryPut etcdPutRequest;
    InsertUniqueOngoing CasePut r.1.1 r.1.2 ≫= λ _,
    OnTryPutCache (ep_key etcdPutRequest) StatusOK ≫= λ _,
    mret (r.1, Some r.2).

(** ** Deletes *)
Definition AddPrevKv (kv : KeyValue) : KeyValue :=
  mkKV (kv_key kv) (kv_create_revision kv) (kv_mod_revision kv) (kv_version kv)
    (kv_value kv) (kv_lease kv).

Definition TryDeleteRange (s : State) (request : DeleteRangeRequest)
    : DeleteResults * DeleteRangeResponse :=
  let deletes :=
    if bool_decide (dr_range_end request = "") then
      match cache_ s !! dr_key request with
      | Some kv => [kv]
      | None => []
      end
    else
      (filter (λ p, in_range (dr_key request) (dr_range_end request) p.1 = true)
        (std_map_list (cache_ s))).*2 in
  let prev_kvs := if dr_prev_kv request then AddPrevKv <$> deletes else [] in
  (deletes, mkDeleteRangeResp (mkHeader META_STORE_CLUSTER_ID (modRevision_ s))
              (Z.of_nat (length deletes)) prev_kvs).

Definition OnTryDeleteRange (deletes : DeleteResults) (status : Status) : K Status :=
  if IsError status then
    for_each deletes (λ kv, modify (λ s, set_ongoing (delete (kv_key kv) (ongoing_ s)) s)) ≫= λ _,
    mret status
  else
    match deletes with
    | [] => mret StatusOK
    | _ =>
        for_each deletes (λ kv, modify (λ s, set_cache (delete (kv_key kv) (cache_ s)) s)) ≫= λ _,
        for_each deletes (λ kv, modify (λ s, set_ongoing (delete (kv_key kv) (ongoing_ s)) s)) ≫= λ _,
        post (WatchOnDeleteList deletes) ≫= λ _,
        mret StatusOK
    end.

Definition OnAsyncDelete (from : AID) (request : MetaStoreRequest)
    (deleteResponse : DeleteRangeResponse) (status : Status) : K Status :=
  let code := if IsError status then st_code status else 0 in
  let errormsg := if IsError status then st_msg status else "" in
  post (Send from "OnDelete"
    (ser (mkResp (mq_requestid request) (ser deleteResponse) code errormsg))) ≫= λ _,
  mret StatusOK.

Definition Master_AsyncDelete (from : AID) (request : MetaStoreRequest) : K Future :=
  match parse (mq_requestmsg request) : option DeleteRangeRequest with
  | None => mret (Ready (mkStatus FAILED "receive illegal delete request"))
  | Some payload =>
      s ← members;
      let r := TryDeleteRange s payload in
      if negb (CheckDeletesOngoingValid s r.1) then
        mret (Ready (mkStatus FAILED "receive illegal delete request"))
      else
        InsertDeleteOngoing r.1 ≫= λ _,
        act_when (backupActor_ s)
          (post (BackupWriteDeletes r.1 (mq_asyncbackup request))) ≫= λ _,
        if backupActor_ s && negb (mq_asyncbackup request) then
          mret (AwaitBackup (ThenOnTryDeleteRange r.1 from request r.2))
        else
          OnTryDeleteRange r.1 StatusOK ≫= λ _,
          st ← OnAsyncDelete from request r.2 StatusOK;
          mret (Ready st)
  end.

Definition DeleteRange (request : DeleteRangeRequest)
    : K (option DeleteResults * DeleteRangeResponse) :=
  s ← members;
  let r := TryDeleteRange s request in
  if negb (CheckDeletesOngoingValid s r.1) then mret (None, r.2)
  else
    InsertDeleteOngoing r.1 ≫= λ _,
    OnTryDeleteRange r.1 StatusOK ≫= λ _,
    mret (Some r.1, r.2).

(** ** Ranges *)
Definition sort_less (order : SortOrder) (target : SortTarget) (s t : KeyValue) : bool :=
  let desc := match order with ORDER_DESCEND => true | _ => false end in
  match target with
  | SORT_KEY => if desc then str_lt (kv_key t) (kv_key s) else str_lt (kv_key s) (kv_key t)
  | SORT_VERSION => if desc then kv_version t <? kv_version s else kv_version s <? kv_version t
  | SORT_CREATE =>
      if desc then kv_create_revision t <? kv_create_revision s
      else kv_create_revision s <? kv_create_revision t
  | SORT_MOD =>
      if desc then kv_mod_revision t <? kv_mod_revision s
      else kv_mod_revision s <? kv_mod_revision t
  | SORT_VALUE => if desc then str_lt (kv_value t) (kv_value s) else str_lt (kv_value s) (kv_value t)
  | SORT_OTHER => false
  end.

Definition SortTarget (request : RangeRequest) (targets : list KeyValue) : list KeyValue :=
  match rr_sort_target request with
  | SORT_OTHER => targets
  | t => std_sort (sort_less (rr_sort_order request) t) targets
  end.

(** The copy of a cached key-value a range answers with: key, modification
    revision, and the value unless only keys are asked for. *)
Definition range_view (keys_only : bool) (key : string) (kv : KeyValue) : KeyValue :=
  mkKV key 0 (kv_mod_revision kv) 0 (if keys_only then "" else kv_value kv) 0.

Definition Range (s : State) (request : RangeRequest) : RangeResponse :=
  let header := mkHeader META_STORE_CLUSTER_ID (modRevision_ s) in
  if bool_decide (rr_range_end request = "") then
    match cache_ s !! rr_key request with
    | None => mkRangeResp header 0 []
    | Some kv =>
        if rr_count_only request then mkRangeResp header 1 []
        else mkRangeResp header 1 [range_view (rr_keys_only request) (rr_key request) kv]
    end
  else
    let targets :=
      (filter (λ p, in_range (rr_key request) (rr_range_end request) p.1 = true)
        (std_map_list (cache_ s))).*2 in
    let count := Z.of_nat (length targets) in
    if rr_count_only request then mkRangeResp header count []
    else
      mkRangeResp header count
        ((λ kv, range_view (rr_keys_only request) (kv_key kv) kv) <$> SortTarget request targets).

Definition OnAsyncGet (from : AID) (request : MetaStoreRequest) (getResponse : RangeResponse)
    : K Status :=
  post (Send from "OnGet" (ser (mkResp (mq_requestid request) (ser getResponse) 0 ""))) ≫= λ _,
  mret StatusOK.

Definition Master_AsyncGet (from : AID) (request : MetaStoreRequest) : K Future :=
  match parse (mq_requestmsg request) : option RangeRequest with
  | None => mret (Ready (mkStatus FAILED "receive illegal get payload"))
  | Some payload =>
      s ← members;
      st ← OnAsyncGet from request (Range s payload);
      mret (Ready st)
  end.

(** ** Transactions *)
Definition TxnIfCompareZ (source : Z) (operation : CompareResult) (target : Z) : bool :=
  match operation with
  | CMP_EQUAL => bool_decide (source = target)
  | CMP_GREATER => target <? source
  | CMP_LESS => source <? target
  | CMP_NOT_EQUAL => bool_decide (source ≠ target)
  | CMP_OTHER => false
  end.
Definition TxnIfCompareS (source : string) (operation : CompareResult) (target : string) : bool :=
  match operation with
  | CMP_EQUAL => bool_decide (source = target)
  | CMP_GREATER => str_lt target source
  | CMP_LESS => str_lt source target
  | CMP_NOT_EQUAL => bool_decide (source ≠ target)
  | CMP_OTHER => false
  end.

Definition TxnIfOne (s : State) (cmp : Compare) : bool :=
  let it := cache_ s !! cmp_key cmp in
  match cmp_target cmp with
  | TGT_VERSION =>
      TxnIfCompareZ (from_option kv_version 0 it) (cmp_result cmp) (cmp_version cmp)
  | TGT_CREATE =>
      TxnIfCompareZ (from_option kv_create_revision 0 it) (cmp_result cmp) (cmp_create_revision cmp)
  | TGT_MOD =>
      TxnIfCompareZ (from_option kv_mod_revision 0 it) (cmp_result cmp) (cmp_mod_revision cmp)
  | TGT_VALUE =>
      match it with
      | None => false
      | Some kv => TxnIfCompareS (kv_value kv) (cmp_result cmp) (cmp_value cmp)
      end
  | TGT_LEASE =>
      TxnIfCompareZ (from_option kv_lease 0 it) (cmp_result cmp) (cmp_lease cmp)
  | TGT_OTHER => false
  end.

Definition TxnIf (s : State) (request : TxnRequest) : bool :=
  forallb (TxnIfOne s) (txn_compare request).

(** The responses and results a transaction has accumulated. *)
Abbreviation TxnAcc := (list ResponseOp * TxnResults)%type.

Definition TxnCommon (op : RequestOp) (acc : TxnAcc) : K TxnAcc :=
  let responses := acc.1 in
  let txn := acc.2 in
  match op with
  | kRequestRange rangeRequest =>
      s ← members;
      mret (responses ++ [kResponseRange (Range s rangeRequest)], txn)
  | kRequestPut putRequest =>
      r ← TryPut putRequest;
      mret (responses ++ [kResponsePut r.2], (txn.1 ++ [r.1], txn.2))
  | kRequestDeleteRange deleteRequest =>
      s ← members;
      let r := TryDeleteRange s deleteRequest in
      mret (responses ++ [kResponseDeleteRange r.2], (txn.1, txn.2 ++ [r.1]))
  | kRequestTxn | REQUEST_NOT_SET => mret acc
  end.

Fixpoint TxnLoop (ops : list RequestOp) (acc : TxnAcc) : K TxnAcc :=
  match ops with
  | [] => mret acc
  | op :: ops => TxnCommon op acc ≫= TxnLoop ops
  end.

Definition TxnThen (request : TxnRequest) (header : ResponseHeader) : K (TxnResults * TxnResponse) :=
  acc ← TxnLoop (txn_success request) ([], ([], []));
  mret (acc.2, mkTxnResp header true acc.1).

Definition TxnElse (request : TxnRequest) (header : ResponseHeader) : K (TxnResults * TxnResponse) :=
  acc ← TxnLoop (txn_failure request) ([], ([], []));
  mret (acc.2, mkTxnResp header false acc.1).

Definition TryTxn (request : TxnRequest) : K (TxnResults * TxnResponse) :=
  s ← members;
  let header := mkHeader META_STORE_CLUSTER_ID (modRevision_ s) in
  if TxnIf s request then TxnThen request header else TxnElse request header.

Definition OnTryTxn (txnResults : TxnResults) (status : Status) : K Status :=
  if IsError status then
    let keysToErase := (kv_key ∘ fst <$> txnResults.1) ++ (kv_key <$> concat txnResults.2) in
    modify (λ s, set_ongoing (erase_keys keysToErase (ongoing_ s)) s) ≫= λ _,
    mret status
  else
    for_each txnResults.1 (λ kv,
      OnTryPutCache (kv_key kv.1) StatusOK ≫= λ _, mret tt) ≫= λ _,
    for_each txnResults.2 (λ kvs,
      OnTryDeleteRange kvs StatusOK ≫= λ _, mret tt) ≫= λ _,
    mret StatusOK.

Definition OnAsyncTxn (from : AID) (request : MetaStoreRequest) (response : TxnResponse)
    (status : Status) : K Status :=
  let code := if IsError status then st_code status else 0 in
  let errormsg := if IsError status then st_msg status else "" in
  post (Send from "OnTxn"
    (ser (mkResp (mq_requestid request) (ser response) code errormsg))) ≫= λ _,
  mret StatusOK.

Definition Master_AsyncTxn (from : AID) (request : MetaStoreRequest) : K Future :=
  match parse (mq_requestmsg request) : option TxnRequest with
  | None => mret (Ready (mkStatus FAILED "receive illegal txn payload"))
  | Some payload =>
      r ← TryTxn payload;
      s ← members;
      if negb (CheckTxnOngoingValid s r.1) then
        mret (Ready (mkStatus FAILED "failed to try txn"))
      else
        InsertTxnOngoing r.1 ≫= λ _,
        act_when (backupActor_ s) (post (BackupWriteTxn r.1 (mq_asyncbackup request))) ≫= λ _,
        if backupActor_ s && negb (mq_asyncbackup request) then
          mret (AwaitBackup (ThenOnTryTxn r.1 from request r.2))
        else
          OnTryTxn r.1 StatusOK ≫= λ _,
          st ← OnAsyncTxn from request r.2 StatusOK;
          mret (Ready st)
  end.

Definition Txn (request : TxnRequest) : K (option TxnResults * TxnResponse) :=
  r ← TryTxn request;
  s ← members;
  if negb (CheckTxnOngoingValid s r.1) then mret (None, r.2)
  else
    InsertTxnOngoing r.1 ≫= λ _,
    OnTryTxn r.1 StatusOK ≫= λ _,
    mret (Some r.1, r.2).

(** ** Watches *)
Definition ConvertWatchCreateRequestToRangeRequest (createReq : WatchCreateRequest) : RangeRequest :=
  mkRange (wc_key createReq) (wc_range_end createReq) ORDER_NONE SORT_KEY false false.

Definition Master_AsyncWatch (from : AID) (request : MetaStoreRequest) : K Future :=
  match parse (mq_requestmsg request) : option WatchRequest with
  | None => mret (Ready (mkStatus FAILED "receive illegal watch request"))
  | Some watchRequest =>
      CheckAndCreateWatchServiceActor ≫= λ _,
      post (WatchCreate from (mq_requestid request) (wq_create watchRequest)) ≫= λ _,
      mret (Ready StatusOK)
  end.

Definition Master_AsyncGetAndWatch (from : AID) (request : MetaStoreRequest) : K Future :=
  match parse (mq_requestmsg request) : option WatchRequest with
  | None => mret (Ready (mkStatus FAILED "receive illegal get and watch request"))
  | Some watchRequest =>
      CheckAndCreateWatchServiceActor ≫= λ _,
      post (WatchCreateWatch from (wq_create watchRequest)) ≫= λ _,
      mret (AwaitWatch from (mq_requestid request) (wq_create watchRequest))
  end.

Definition OnAsyncGetAndWatch (from : AID) (uuid : string) (watchRequest : WatchCreateRequest)
    (watchResponse : WatchResponse) : K Status :=
  s ← members;
  let getResponse := Range s (ConvertWatchCreateRequestToRangeRequest watchRequest) in
  let gwResponse := mkGetAndWatch (ser getResponse) (ser watchResponse) in
  post (WatchSendResponse from "OnGetAndWatch" (mkResp uuid (ser gwResponse) 0 "")) ≫= λ _,
  mret StatusOK.

Definition OnCreateWatcher (startReversion : Z) : K unit :=
  s ← members;
  for_each (std_map_list (cache_ s)) (λ iterator,
    act_when (startReversion <=? kv_mod_revision iterator.2)
      (post (WatchOnPut iterator.2 kv_empty))).

(** ** Lease expiry *)
Fixpoint RevokeLoop (keys : list string) (deletes : DeleteResults) : K DeleteResults :=
  match keys with
  | [] => mret deletes
  | key :: keys =>
      s ← members;
      match cache_ s !! key with
      | None => RevokeLoop keys deletes
      | Some kv =>
          modify (λ s, set_cache (delete key (cache_ s)) s) ≫= λ _,
          RevokeLoop keys (deletes ++ [kv])
      end
  end.

Definition OnRevoke (keys : gset string) : K Status :=
  deletes ← RevokeLoop (std_set_list keys) [];
  s ← members;
  act_when (negb (bool_decide (deletes = []))) (post (WatchOnDeleteList deletes)) ≫= λ _,
  act_when (backupActor_ s) (post (BackupWriteDeletes deletes true)) ≫= λ _,
  mret StatusOK.

(** ** Recovery and the events of the storage below *)
Definition prefix_len : nat := String.length META_STORE_BACKUP_KV_PREFIX.

(** [true] means the future is already there; otherwise [Sync] follows. *)
Definition Recover : K bool :=
  s ← members;
  if backupActor_ s then post (BackupGet META_STORE_BACKUP_KV_PREFIX) ≫= λ _, mret false
  else mret true.

Definition raise_modRevision (rev : Z) : K unit :=
  modify (λ s, if modRevision_ s <? rev then set_modRevision rev s else s).

Definition Sync (getResponse : GetResponse) : K bool :=
  for_each (gr_kvs getResponse) (λ item,
    match parse (kv_value item) : option KeyValue with
    | None => mret tt
    | Some kv =>
        modify (λ s, set_cache (<[str_drop prefix_len (kv_key item) := kv]> (cache_ s)) s) ≫= λ _,
        act_when (negb (bool_decide (kv_lease kv = 0)))
          (post (LeaseAttach (kv_key kv) (kv_lease kv))) ≫= λ _,
        raise_modRevision (kv_mod_revision kv)
    end) ≫= λ _,
  s ← members;
  act_when (needExplore_ s)
    (post (BackupWatch META_STORE_BACKUP_KV_PREFIX (gr_revision getResponse))) ≫= λ _,
  mret true.

Definition HandleKvPutEvent (event : WatchEvent) (synced : bool) (currentRevision : Z) : K unit :=
  match parse (kv_value (we_kv event)) : option KeyValue with
  | None => mret tt
  | Some kv =>
      let key := str_drop prefix_len (kv_key (we_kv event)) in
      s ← members;
      let cacheKv := cache_ s !! key in
      let idle := bool_decide (ongoing_ s !! key = None) in
      let update :=
        let prevKv := default kv_empty cacheKv in
        modify (λ s, set_cache (<[key := kv]> (cache_ s)) s) ≫= λ _,
        post (WatchOnPut kv prevKv) ≫= λ _,
        act_when (negb (bool_decide (kv_lease kv = 0)))
          (post (LeaseAttach (kv_key kv) (kv_lease kv))) ≫= λ _,
        raise_modRevision (kv_mod_revision kv) in
      if bool_decide (curStatus_ s = MASTER_BUSINESS)
         && (kv_mod_revision kv <=? currentRevision) && negb synced then
        match cacheKv with
        | Some ckv =>
            if bool_decide (ser ckv = ser kv) then mret tt
            else if (kv_mod_revision kv <? kv_mod_revision ckv) && idle then
              act_when (backupActor_ s) (post (BackupWritePut ckv true))
            else update
        | None =>
            if idle then act_when (backupActor_ s) (post (BackupWriteDeletes [kv] true))
            else update
        end
      else update
  end.

Definition HandleKvDeleteEvent (event : WatchEvent) : K unit :=
  let key := str_drop prefix_len (kv_key (we_kv event)) in
  s ← members;
  post (WatchOnDelete (default kv_empty (cache_ s !! key))) ≫= λ _,
  modify (λ s, set_cache (delete key (cache_ s)) s).

(** The revision reaches [HandleKvPutEvent] through its [uint32_t] parameter. *)
Definition HandleKvEvents (events : list WatchEvent) (synced : bool) : K unit :=
  s ← members;
  let currentModRevision := modRevision_ s in
  for_each events (λ event,
    match we_type event with
    | EVENT_TYPE_PUT => HandleKvPutEvent event synced (to_uint32 currentModRevision)
    | EVENT_TYPE_DELETE => HandleKvDeleteEvent event
    end).

(** [None] is the null response, which the code dereferences. *)
Definition KvSyncer (getResponse : option GetResponse) : K (option Status) :=
  match getResponse with
  | None => mret None
  | Some gr =>
      if IsError (gr_status gr) then mret (Some (gr_status gr))
      else match gr_kvs gr with
      | [] => mret (Some StatusOK)
      | kvs =>
          let remoteKeys := (λ kv, str_drop prefix_len (kv_key kv)) <$> kvs in
          s ← members;
          let local := filter (λ p, p.1 ∉ remoteKeys) (std_map_list (cache_ s)) in
          let events :=
            (mkWatchEvent EVENT_TYPE_PUT <$> kvs) ++
            ((λ p, mkWatchEvent EVENT_TYPE_DELETE
                     (mkKV (META_STORE_BACKUP_KV_PREFIX +:+ p.1) 0 0 0 (ser p.2) 0)) <$> local) in
          HandleKvEvents events true ≫= λ _,
          mret (Some StatusOK)
      end
  end.

(** ** Dispatch on the role: a slave refuses every client request. *)
Definition by_role (master : K Future) : K Future :=
  s ← members;
  match curStatus_ s with
  | MASTER_BUSINESS => master
  | SLAVE_BUSINESS => mret (Ready (mkStatus FAILED ""))
  end.

Definition AsyncPut (from : AID) (request : PutRequest) : K Future :=
  by_role (Master_AsyncPut from request).
Definition AsyncDelete (from : AID) (request : MetaStoreRequest) : K Future :=
  by_role (Master_AsyncDelete from request).
Definition AsyncGet (from : AID) (request : MetaStoreRequest) : K Future :=
  by_role (Master_AsyncGet from request).
Definition AsyncTxn (from : AID) (request : MetaStoreRequest) : K Future :=
  by_role (Master_AsyncTxn from request).
Definition AsyncWatch (from : AID) (request : MetaStoreRequest) : K Future :=
  by_role (Master_AsyncWatch from request).
Definition AsyncGetAndWatch (from : AID) (request : MetaStoreRequest) : K Future :=
  by_role (Master_AsyncGetAndWatch from request).

(** The two stages of the continuation chains of [AsyncPut], [AsyncDelete]
    and [AsyncTxn]: the commit with the status of the backup, then the answer
    with the status of the commit. *)
Definition on_backup (k : BackupKont) (status : Status) : K ReplyKont :=
  match k with
  | ThenOnTryPutCache from request response =>
      st ← OnTryPutCache (pr_key request) status;
      mret (ThenOnAsyncPut from request response st)
  | ThenOnTryDeleteRange deletes from request response =>
      st ← OnTryDeleteRange deletes status;
      mret (ThenOnAsyncDelete from request response st)
  | ThenOnTryTxn txn from request response =>
      st ← OnTryTxn txn status;
      mret (ThenOnAsyncTxn from request response st)
  end.

Definition on_reply (r : ReplyKont) : K Status :=
  match r with
  | ThenOnAsyncPut from request response st => OnAsyncPut from request response st
  | ThenOnAsyncDelete from request response st => OnAsyncDelete from request response st
  | ThenOnAsyncTxn from request response st => OnAsyncTxn from request response st
  end.

(** ** The actor among its peers

    A configuration is the members, the continuations waiting for the backup
    actor and for their turn in the mailbox, and all messages posted so far.
    The peers answer in any order and with any status. *)
Record Config := mkConfig {
  c_st : State;
  c_backup : list BackupKont;
  c_replies : list ReplyKont;
  c_outs : list Out;
}.

Definition run_handler (m : K Future) (c : Config) : Config :=
  let s := c_st c in
  mkConfig (exec m s)
    (match val m s with AwaitBackup k => c_backup c ++ [k] | _ => c_backup c end)
    (c_replies c) (c_outs c ++ outs m s).

Definition run_backup (i : nat) (k : BackupKont) (status : Status) (c : Config) : Config :=
  let m := on_backup k status in
  let s := c_st c in
  mkConfig (exec m s) (delete i (c_backup c)) (c_replies c ++ [val m s]) (c_outs c ++ outs m s).

Definition run_reply (i : nat) (r : ReplyKont) (c : Config) : Config :=
  let m := on_reply r in
  let s := c_st c in
  mkConfig (exec m s) (c_backup c) (delete i (c_replies c)) (c_outs c ++ outs m s).

Definition run_act {A} (m : K A) (c : Config) : Config :=
  mkConfig (exec m (c_st c)) (c_backup c) (c_replies c) (c_outs c ++ outs m (c_st c)).

(** The requests of clients. *)
Inductive client_request : K Future → Prop :=
  | req_put from request : client_request (AsyncPut from request)
  | req_delete from request : client_request (AsyncDelete from request)
  | req_get from request : client_request (AsyncGet from request)
  | req_txn from request : client_request (AsyncTxn from request)
  | req_watch from request : client_request (AsyncWatch from request)
  | req_get_and_watch from request : client_request (AsyncGetAndWatch from request).

(** Client requests and the answers to them. *)
Inductive client_step : Config → Config → Prop :=
  | step_request m c : client_request m → client_step c (run_handler m c)
  | step_backup i k status c :
      c_backup c !! i = Some k → client_step c (run_backup i k status c)
  | step_reply i r c : c_replies c !! i = Some r → client_step c (run_reply i r c).

(** ... together with expiring leases, the answer of the watch actor and role
    changes. *)
Inductive step : Config → Config → Prop :=
  | step_client c c' : client_step c c' → step c c'
  | step_revoke keys c : step c (run_act (OnRevoke keys) c)
  | step_watch from uuid request response c :
      step c (run_act (OnAsyncGetAndWatch from uuid request response) c)
  | step_leader curUrl address c : step c (run_act (UpdateLeaderInfo curUrl address) c).

Definition initial (backup needExplore : bool) : Config :=
  mkConfig (init backup needExplore) [] [] [].

Definition reachable (c : Config) : Prop :=
  ∃ backup needExplore, rtc step (initial backup needExplore) c.
Definition client_reachable (c : Config) : Prop :=
  ∃ backup needExplore, rtc client_step (initial backup needExplore) c.

End handlers.
End Kv.
