(* ===== verification/KvInvariant.v ===== *)
(** * What every message leaves true of the key-value actor

    The effect of each handler of [KvService] on the members, then the
    invariants of the configurations the actor reaches among its peers:
    well-formed revisions, isolation of writes in flight, and the watch
    stream as a faithful log of the cache. *)

From S2P Require Import Prelude MetaTypes Leader KvService.
From stdpp Require Import base gmap strings list fin_maps sorting relations.
From Stdlib Require Import ZArith Lia.

Open Scope Z_scope.
Set Default Proof Using "Type".
Import Kv.

(** A key-value stored under [k] by an actor at revision [rev]. *)
Definition kv_ok (rev : Z) (k : string) (kv : KeyValue) : Prop :=
  kv_key kv = k ∧ 1 ≤ kv_version kv ∧
  1 ≤ kv_create_revision kv ≤ kv_mod_revision kv ∧ kv_mod_revision kv ≤ rev.

Record kv_wf (s : State) : Prop := {
  wf_rev : 0 ≤ modRevision_ s;
  wf_cache : map_Forall (kv_ok (modRevision_ s)) (cache_ s);
  wf_ongoing : map_Forall (λ k e, kv_ok (modRevision_ s) k (og_kv e)) (ongoing_ s);
}.

Section effects.
Context {PB : Protobuf} (kv_moved : KeyValue → KeyValue).

(** ** Effects *)
Lemma exec_InsertUniqueOngoing type kv preKv s :
  exec (InsertUniqueOngoing type kv preKv) s =
  set_ongoing (<[kv_key kv := mkOngoing type kv preKv]> (ongoing_ s)) s.
Proof. done. Qed.

Lemma exec_TryPutCache request s :
  exec (TryPutCache request) s = set_modRevision (modRevision_ s + 1) s.
Proof. done. Qed.

Lemma val_TryPutCache_kv request s :
  (val (TryPutCache request) s).1 =
  (next_kv (default kv_empty (cache_ s !! pr_key request)) request (modRevision_ s + 1),
   default kv_empty (cache_ s !! pr_key request)).
Proof. done. Qed.

Definition put_of (p : EtcdPutRequest) : PutRequest :=
  mkPut "" (ep_key p) (ep_value p) (ep_lease p) (ep_prev_kv p) false.

Lemma exec_TryPut p s :
  exec (TryPut kv_moved p) s = set_modRevision (modRevision_ s + 1) s.
Proof.
  unfold TryPut. act_simpl. rewrite exec_TryPutCache. by case_match.
Qed.

Lemma val_TryPut_kv p s :
  (val (TryPut kv_moved p) s).1.1 =
  next_kv (default kv_empty (cache_ s !! ep_key p)) (put_of p) (modRevision_ s + 1).
Proof.
  unfold TryPut. act_simpl. rewrite val_TryPutCache_kv. by case_match.
Qed.

Lemma outs_TryPut p s :
  outs (TryPut kv_moved p) s = [LeaseAttach (ep_key p) (ep_lease p)].
Proof. unfold TryPut. act_simpl. by case_match. Qed.

(** The commit of a put whose key is in flight. *)
Lemma OnTryPutCache_ok key s e :
  ongoing_ s !! key = Some e →
  OnTryPutCache key StatusOK s =
  (StatusOK,
   set_ongoing (delete key (ongoing_ s)) (set_cache (<[key := og_kv e]> (cache_ s)) s),
   [WatchOnPut (og_kv e) (og_preKv e)]).
Proof. intros H. unfold OnTryPutCache. rewrite IsError_OK. act_unfold. by rewrite H. Qed.

(** ... and of one whose entry is gone. *)
Lemma OnTryPutCache_gone key s :
  ongoing_ s !! key = None → OnTryPutCache key StatusOK s = (StatusOK, s, []).
Proof. intros H. unfold OnTryPutCache. rewrite IsError_OK. act_unfold. by rewrite H. Qed.

Lemma OnTryPutCache_error key status s :
  IsError status = true →
  OnTryPutCache key status s = (status, set_ongoing (delete key (ongoing_ s)) s, []).
Proof. intros H. unfold OnTryPutCache. by rewrite H. Qed.

Lemma set_ongoing_set_ongoing o o' s : set_ongoing o (set_ongoing o' s) = set_ongoing o s.
Proof. done. Qed.
Lemma set_ongoing_id s : set_ongoing (ongoing_ s) s = s.
Proof. by destruct s. Qed.
Lemma set_cache_id s : set_cache (cache_ s) s = s.
Proof. by destruct s. Qed.
Lemma set_modRevision_id s : set_modRevision (modRevision_ s) s = s.
Proof. by destruct s. Qed.

Lemma exec_erase_ongoing (deletes : list KeyValue) s :
  exec (for_each deletes (λ kv, modify (W:=Out) (λ s, set_ongoing (delete (kv_key kv) (ongoing_ s)) s))) s =
  set_ongoing (erase_keys (kv_key <$> deletes) (ongoing_ s)) s.
Proof.
  rewrite exec_for_each. revert s.
  induction deletes as [|kv l IH]; intros s; simpl; [by rewrite set_ongoing_id|].
  rewrite IH. done.
Qed.

Lemma exec_erase_cache (deletes : list KeyValue) s :
  exec (for_each deletes (λ kv, modify (W:=Out) (λ s, set_cache (delete (kv_key kv) (cache_ s)) s))) s =
  set_cache (erase_keys (kv_key <$> deletes) (cache_ s)) s.
Proof.
  rewrite exec_for_each. revert s.
  induction deletes as [|kv l IH]; intros s; simpl; [by rewrite set_cache_id|].
  rewrite IH. done.
Qed.

Lemma outs_for_modify {A} (l : list A) (f : A → State → State) s :
  outs (W:=Out) (for_each l (λ a, modify (f a))) s = [].
Proof. revert s. induction l as [|a l IH]; intros s; [done|]. simpl. act_simpl. apply IH. Qed.

Lemma exec_OnTryDeleteRange_ok deletes s :
  exec (OnTryDeleteRange deletes StatusOK) s =
  set_ongoing (erase_keys (kv_key <$> deletes) (ongoing_ s))
    (set_cache (erase_keys (kv_key <$> deletes) (cache_ s)) s).
Proof.
  unfold OnTryDeleteRange. rewrite IsError_OK.
  destruct deletes as [|kv l]; [by destruct s|].
  act_simpl. by rewrite exec_erase_ongoing, exec_erase_cache.
Qed.

Lemma outs_OnTryDeleteRange_ok deletes s :
  outs (OnTryDeleteRange deletes StatusOK) s =
  match deletes with [] => [] | _ => [WatchOnDeleteList deletes] end.
Proof.
  unfold OnTryDeleteRange. rewrite IsError_OK.
  destruct deletes as [|kv l]; [done|].
  act_simpl. by rewrite !outs_for_modify.
Qed.

Lemma exec_OnTryDeleteRange_error deletes status s :
  IsError status = true →
  exec (OnTryDeleteRange deletes status) s =
  set_ongoing (erase_keys (kv_key <$> deletes) (ongoing_ s)) s.
Proof.
  intros H. unfold OnTryDeleteRange. rewrite H. act_simpl. by rewrite exec_erase_ongoing.
Qed.

Lemma outs_OnTryDeleteRange_error deletes status s :
  IsError status = true → outs (OnTryDeleteRange deletes status) s = [].
Proof.
  intros H. unfold OnTryDeleteRange. rewrite H. act_simpl. by rewrite outs_for_modify.
Qed.

(** ** Entries in flight *)
Definition put_entry (p : KeyValue * KeyValue) : OngoingEvent := mkOngoing CasePut p.1 p.2.
Definition delete_entry (kv : KeyValue) : OngoingEvent := mkOngoing CaseDeleteRange kv kv_empty.
Definition txn_entries (txn : TxnResults) : list OngoingEvent :=
  (put_entry <$> txn.1) ++ (delete_entry <$> concat txn.2).
Definition insert_entries (es : list OngoingEvent) (o : gmap string OngoingEvent) :=
  foldl (λ o e, <[kv_key (og_kv e) := e]> o) o es.

Lemma insert_entries_app es es' o :
  insert_entries (es ++ es') o = insert_entries es' (insert_entries es o).
Proof. apply foldl_app. Qed.

(** An entry found after the insertions is the last one inserted under its
    key, or was there before and no entry was inserted under its key. *)
Lemma lookup_insert_entries es o k :
  (∃ e, e ∈ es ∧ kv_key (og_kv e) = k ∧ insert_entries es o !! k = Some e) ∨
  (Forall (λ e, kv_key (og_kv e) ≠ k) es ∧ insert_entries es o !! k = o !! k).
Proof.
  induction es as [|e es IH] using rev_ind; [by right|].
  rewrite insert_entries_app. simpl.
  destruct (decide (kv_key (og_kv e) = k)) as [Hk|Hk].
  { left. exists e. rewrite Hk, lookup_insert_eq. set_solver. }
  rewrite lookup_insert_ne by done.
  destruct IH as [(e' & ? & ? & ?)|[? ?]]; [left; exists e'; set_solver|].
  right. rewrite Forall_app, Forall_singleton. done.
Qed.

Lemma exec_insert_loop {A} (f : A → OngoingEvent) (l : list A) s :
  exec (for_each l (λ a, InsertUniqueOngoing (og_type (f a)) (og_kv (f a)) (og_preKv (f a)))) s =
  set_ongoing (insert_entries (f <$> l) (ongoing_ s)) s.
Proof.
  rewrite exec_for_each. revert s.
  induction l as [|a l IH]; intros s; simpl; [by rewrite set_ongoing_id|].
  rewrite IH, exec_InsertUniqueOngoing. by destruct (f a).
Qed.

Lemma exec_InsertDeleteOngoing deletes s :
  exec (InsertDeleteOngoing deletes) s =
  set_ongoing (insert_entries (delete_entry <$> deletes) (ongoing_ s)) s.
Proof. apply (exec_insert_loop delete_entry). Qed.

Lemma exec_insert_deletes_loop (ls : list (list KeyValue)) s :
  exec (for_each ls (λ deletes,
    for_each deletes (λ kv, InsertUniqueOngoing CaseDeleteRange kv kv_empty))) s =
  set_ongoing (insert_entries (delete_entry <$> concat ls) (ongoing_ s)) s.
Proof.
  revert s. induction ls as [|ds l IH]; intros s; simpl; [by destruct s|].
  act_simpl. rewrite IH, (exec_insert_loop delete_entry).
  by rewrite fmap_app, insert_entries_app.
Qed.

Lemma exec_InsertTxnOngoing txn s :
  exec (InsertTxnOngoing txn) s =
  set_ongoing (insert_entries (txn_entries txn) (ongoing_ s)) s.
Proof.
  unfold InsertTxnOngoing, txn_entries. act_simpl.
  by rewrite (exec_insert_loop put_entry), exec_insert_deletes_loop, insert_entries_app.
Qed.

Lemma outs_insert_loop {A} (l : list A) f g h s :
  outs (for_each l (λ a, InsertUniqueOngoing (f a) (g a) (h a))) s = [].
Proof. revert s. induction l as [|a l IH]; intros s; [done|]. simpl. act_simpl. apply IH. Qed.

Lemma outs_InsertTxnOngoing txn s : outs (InsertTxnOngoing txn) s = [].
Proof.
  unfold InsertTxnOngoing. act_simpl. rewrite outs_insert_loop.
  generalize (exec (for_each txn.1 (λ puts, InsertUniqueOngoing CasePut puts.1 puts.2)) s).
  induction txn.2 as [|ds l IH]; intros s'; [done|]. simpl. act_simpl.
  by rewrite outs_insert_loop, IH.
Qed.

(** ** The first phase of a transaction

    It reads one snapshot of the cache: only the revision moves. *)
Fixpoint txn_put_kvs (c : gmap string KeyValue) (rev : Z) (ops : list RequestOp) : list KeyValue :=
  match ops with
  | [] => []
  | kRequestPut p :: ops =>
      next_kv (default kv_empty (c !! ep_key p)) (put_of p) (rev + 1)
        :: txn_put_kvs c (rev + 1) ops
  | _ :: ops => txn_put_kvs c rev ops
  end.

Definition deletes_of (c : gmap string KeyValue) (d : DeleteRangeRequest) : list KeyValue :=
  if bool_decide (dr_range_end d = "") then
    match c !! dr_key d with Some kv => [kv] | None => [] end
  else
    (filter (λ p, in_range (dr_key d) (dr_range_end d) p.1 = true) (std_map_list c)).*2.

Fixpoint txn_deletes (c : gmap string KeyValue) (ops : list RequestOp) : list (list KeyValue) :=
  match ops with
  | [] => []
  | kRequestDeleteRange d :: ops => deletes_of c d :: txn_deletes c ops
  | _ :: ops => txn_deletes c ops
  end.

Fixpoint txn_attaches (ops : list RequestOp) : list Out :=
  match ops with
  | [] => []
  | kRequestPut p :: ops => LeaseAttach (ep_key p) (ep_lease p) :: txn_attaches ops
  | _ :: ops => txn_attaches ops
  end.

Definition put_count (ops : list RequestOp) : Z :=
  Z.of_nat (length (txn_attaches ops)).

Lemma TxnLoop_effect ops acc s :
  exec (TxnLoop kv_moved ops acc) s = set_modRevision (modRevision_ s + put_count ops) s ∧
  outs (TxnLoop kv_moved ops acc) s = txn_attaches ops ∧
  (val (TxnLoop kv_moved ops acc) s).2.1.*1 =
    acc.2.1.*1 ++ txn_put_kvs (cache_ s) (modRevision_ s) ops ∧
  (val (TxnLoop kv_moved ops acc) s).2.2 = acc.2.2 ++ txn_deletes (cache_ s) ops.
Proof.
  revert acc s. unfold put_count.
  induction ops as [|op ops IH]; intros acc s; simpl.
  { rewrite Z.add_0_r, !app_nil_r. act_simpl. by destruct s. }
  act_simpl.
  destruct op as [r|p|d| |];
    cbn [TxnCommon txn_attaches txn_put_kvs txn_deletes length]; act_simpl;
    edestruct IH as (-> & -> & -> & ->); rewrite ?app_nil_l; try done.
  - rewrite exec_TryPut, outs_TryPut. cbn [fst snd].
    rewrite fmap_app. cbn [fmap list_fmap app]. rewrite val_TryPut_kv.
    split_and!; [|done|by rewrite <- app_assoc|done].
    unfold set_modRevision. simpl. f_equal. lia.
  - cbn [fst snd]. by rewrite <- app_assoc.
Qed.

Definition chosen_ops (s : State) (request : TxnRequest) : list RequestOp :=
  if TxnIf s request then txn_success request else txn_failure request.

Lemma TryTxn_effect request s :
  exec (TryTxn kv_moved request) s =
    set_modRevision (modRevision_ s + put_count (chosen_ops s request)) s ∧
  outs (TryTxn kv_moved request) s = txn_attaches (chosen_ops s request) ∧
  (val (TryTxn kv_moved request) s).1.1.*1 =
    txn_put_kvs (cache_ s) (modRevision_ s) (chosen_ops s request) ∧
  (val (TryTxn kv_moved request) s).1.2 = txn_deletes (cache_ s) (chosen_ops s request).
Proof.
  unfold TryTxn, TxnThen, TxnElse, chosen_ops. act_simpl.
  case_match; act_simpl;
    edestruct TxnLoop_effect as (-> & -> & -> & ->); simpl; by rewrite ?app_nil_r.
Qed.

(** What a delete selects is in the cache. *)
Lemma elem_of_deletes_of c d kv :
  kv ∈ deletes_of c d ↔
  ∃ k, c !! k = Some kv ∧
    if bool_decide (dr_range_end d = "") then k = dr_key d
    else in_range (dr_key d) (dr_range_end d) k = true.
Proof.
  unfold deletes_of. case_bool_decide as He.
  - destruct (c !! dr_key d) as [kv'|] eqn:Hc.
    + rewrite list_elem_of_singleton. split; [intros ->; eauto|].
      intros (k & Hk & ->). congruence.
    + split; [by intros ?%not_elem_of_nil|]. intros (k & Hk & ->). congruence.
  - rewrite list_elem_of_fmap. split.
    + intros ([k kv'] & -> & [Hr Hin]%list_elem_of_filter).
      apply elem_of_std_map_list in Hin. eauto.
    + intros (k & Hk & Hr). exists (k, kv). split; [done|].
      apply list_elem_of_filter. by rewrite elem_of_std_map_list.
Qed.

Lemma TryDeleteRange_deletes s d : (TryDeleteRange s d).1 = deletes_of (cache_ s) d.
Proof. done. Qed.

End effects.

(** ** The actor as a transition system over its three stores

    Every handler is a sequence of the micro steps below.  Writes begin
    together, at fresh revisions, on keys that admit them; each commits,
    aborts or deletes later.  [lease] says whether leases may expire. *)
Definition quiet (o : Out) : Prop :=
  match o with
  | WatchOnPut _ _ | WatchOnDeleteList _ | WatchOnDelete _ => False
  | _ => True
  end.

Definition same_stores (s s' : State) : Prop :=
  modRevision_ s' = modRevision_ s ∧ ongoing_ s' = ongoing_ s ∧ cache_ s' = cache_ s.

(** The entry [e] may begin in [s], with the revisions up to [rev] at hand. *)
Definition entry_begins (s : State) (rev : Z) (e : OngoingEvent) : Prop :=
  let k := kv_key (og_kv e) in
  match og_type e with
  | CasePut =>
      ongoing_ s !! k = None ∧
      ∃ request r, pr_key request = k ∧ modRevision_ s < r ≤ rev ∧
        og_kv e = next_kv (default kv_empty (cache_ s !! k)) request r
  | CaseDeleteRange =>
      cache_ s !! k = Some (og_kv e) ∧
      ∀ e', ongoing_ s !! k = Some e' → og_type e' = CaseDeleteRange
  end.

(** Two puts that begin together have different revisions. *)
Definition fresh_revisions (es : list OngoingEvent) : Prop :=
  ∀ i j e e', es !! i = Some e → es !! j = Some e' →
    og_type e = CasePut → og_type e' = CasePut →
    kv_mod_revision (og_kv e) = kv_mod_revision (og_kv e') → i = j.

Inductive micro (lease : bool) : State → list Out → State → Prop :=
  | micro_begin s rev es os :
      modRevision_ s ≤ rev → Forall (entry_begins s rev) es → fresh_revisions es →
      Forall quiet os →
      micro lease s os (set_ongoing (insert_entries es (ongoing_ s)) (set_modRevision rev s))
  | micro_commit s k e :
      ongoing_ s !! k = Some e →
      micro lease s [WatchOnPut (og_kv e) (og_preKv e)]
        (set_ongoing (delete k (ongoing_ s)) (set_cache (<[k := og_kv e]> (cache_ s)) s))
  | micro_abort s ks :
      micro lease s [] (set_ongoing (erase_keys ks (ongoing_ s)) s)
  | micro_delete s kvs :
      micro lease s [WatchOnDeleteList kvs]
        (set_ongoing (erase_keys (kv_key <$> kvs) (ongoing_ s))
          (set_cache (erase_keys (kv_key <$> kvs) (cache_ s)) s))
  | micro_expire s kvs :
      lease = true → 
      micro lease s [WatchOnDeleteList kvs]
        (set_cache (erase_keys (kv_key <$> kvs) (cache_ s)) s)
  | micro_quiet s s' os :
      same_stores s s' → Forall quiet os → micro lease s os s'.

Inductive micros (lease : bool) : State → list Out → State → Prop :=
  | micros_nil s : micros lease s [] s
  | micros_cons s os s' os' s'' :
      micro lease s os s' → micros lease s' os' s'' → micros lease s (os ++ os') s''.

Section micros.
Context {lease : bool}.

Lemma micros_one s os s' : micro lease s os s' → micros lease s os s'.
Proof.
  intros H. rewrite <- (app_nil_r os). eapply micros_cons; [done|constructor].
Qed.

Lemma micros_app s os s' os' s'' :
  micros lease s os s' → micros lease s' os' s'' → micros lease s (os ++ os') s''.
Proof.
  induction 1; [done|]. intros. rewrite <- app_assoc. eauto using micros_cons.
Qed.

(** [runs m s]: the body [m], started in [s], is such a sequence. *)
Definition runs {A} (m : K A) (s : State) : Prop := micros lease s (outs m s) (exec m s).

Lemma runs_ret {A} (a : A) s : runs (mret a) s.
Proof. constructor. Qed.
Lemma runs_bind {A B} (m : K A) (f : A → K B) s :
  runs m s → runs (f (val m s)) (exec m s) → runs (m ≫= f) s.
Proof. intros. unfold runs. act_simpl. by eapply micros_app. Qed.
Lemma runs_members s : runs members s.
Proof. constructor. Qed.
Lemma runs_post o s : quiet o → runs (post o) s.
Proof. intros. apply micros_one, micro_quiet; [done|by constructor]. Qed.
Lemma runs_when b m s : (b = true → runs m s) → runs (act_when b m) s.
Proof. destruct b; [by auto|]. intros _. apply runs_ret. Qed.
Lemma runs_for_each {A} (l : list A) body s :
  (∀ a s, a ∈ l → runs (body a) s) → runs (for_each l body) s.
Proof.
  revert s. induction l as [|a l IH]; intros s Hb; [apply runs_ret|].
  simpl. apply runs_bind; [apply Hb; left|]. apply IH. set_solver.
Qed.
End micros.

(** ** Every handler runs as micro steps *)
Lemma next_kv_mod kv request r : kv_mod_revision (next_kv kv request r) = r.
Proof. unfold next_kv. by case_match. Qed.

Lemma next_kv_key (c : gmap string KeyValue) rev request r :
  map_Forall (kv_ok rev) c →
  kv_key (next_kv (default kv_empty (c !! pr_key request)) request r) = pr_key request.
Proof.
  intros Hc. unfold next_kv. case_bool_decide as Hk; [done|]. simpl.
  destruct (c !! pr_key request) as [kv|] eqn:E; simpl in *; [|done].
  by apply Hc in E as [? _].
Qed.

Section runs.
Context {PB : Protobuf} (kv_moved : KeyValue → KeyValue).
Context {lease : bool}.
Local Abbreviation runs := (runs (lease:=lease)).

Lemma runs_OnTryPutCache key status s : runs (OnTryPutCache key status) s.
Proof.
  unfold KvInvariant.runs, outs, exec. destruct (IsError status) eqn:He.
  { rewrite OnTryPutCache_error by done. apply micros_one, (micro_abort _ s [key]). }
  unfold OnTryPutCache. rewrite He. act_unfold.
  destruct (ongoing_ s !! key) as [e|] eqn:Ho; [|constructor].
  apply micros_one. exact (micro_commit _ _ _ _ Ho).
Qed.

Lemma runs_OnTryDeleteRange deletes status s : runs (OnTryDeleteRange deletes status) s.
Proof.
  unfold KvInvariant.runs. destruct (IsError status) eqn:He.
  { rewrite exec_OnTryDeleteRange_error, outs_OnTryDeleteRange_error by done.
    apply micros_one, micro_abort. }
  destruct deletes as [|kv l].
  { unfold OnTryDeleteRange. rewrite He. constructor. }
  replace (OnTryDeleteRange (kv :: l) status) with (OnTryDeleteRange (kv :: l) StatusOK)
    by (unfold OnTryDeleteRange; by rewrite He).
  rewrite exec_OnTryDeleteRange_ok, outs_OnTryDeleteRange_ok. apply micros_one, micro_delete.
Qed.

Lemma runs_OnTryTxn txn status s : runs (OnTryTxn txn status) s.
Proof.
  unfold OnTryTxn. case_match.
  { unfold KvInvariant.runs. act_simpl. apply micros_one, micro_abort. }
  apply runs_bind; [apply runs_for_each; intros|apply runs_bind; [apply runs_for_each; intros|apply runs_ret]];
    (apply runs_bind; [apply runs_OnTryPutCache || apply runs_OnTryDeleteRange|apply runs_ret]).
Qed.

Lemma runs_on_backup k status s : runs (on_backup k status) s.
Proof.
  destruct k; apply runs_bind; try apply runs_ret;
    auto using runs_OnTryPutCache, runs_OnTryDeleteRange, runs_OnTryTxn.
Qed.

Lemma runs_answer (o : Out) s :
  quiet o → runs (post o ≫= λ _, mret StatusOK) s.
Proof. intros. apply runs_bind; [by apply runs_post|apply runs_ret]. Qed.

Lemma runs_on_reply r s : runs (on_reply r) s.
Proof. destruct r; by apply runs_answer. Qed.

(** A request that has begun goes on with a commit that has not to wait. *)
Lemma runs_finish {A} (b : bool) (k : BackupKont) (commit : K A) (reply : K Status) s :
  runs commit s → (∀ s, runs reply s) →
  runs (if b then mret (AwaitBackup k)
        else commit ≫= λ _, st ← reply; mret (Ready st)) s.
Proof.
  intros Hc Hr. destruct b; [apply runs_ret|].
  apply runs_bind; [done|]. apply runs_bind; [done|apply runs_ret].
Qed.

(** The opening of a request, two actions of its body, is one micro step. *)
Lemma runs_opening {A B} (m : K A) (g : A → K unit) (f : A → K B) s :
  micro lease s (outs m s ++ outs (g (val m s)) (exec m s)) (exec (g (val m s)) (exec m s)) →
  runs (f (val m s)) (exec (g (val m s)) (exec m s)) →
  runs (m ≫= λ a, g a ≫= λ _, f a) s.
Proof.
  intros H Hf. unfold KvInvariant.runs. act_simpl. rewrite (assoc_L (++)).
  eapply micros_cons; [done|apply Hf].
Qed.

Lemma put_begins s request type_kv :
  kv_wf s → ongoing_ s !! pr_key request = None →
  type_kv = next_kv (default kv_empty (cache_ s !! pr_key request)) request (modRevision_ s + 1) →
  ∀ preKv, entry_begins s (modRevision_ s + 1) (mkOngoing CasePut type_kv preKv).
Proof.
  intros Hwf Ho -> preKv. unfold entry_begins. simpl.
  rewrite (next_kv_key _ (modRevision_ s)) by apply Hwf.
  split; [done|]. exists request, (modRevision_ s + 1). split_and!; (done || lia).
Qed.

Lemma fresh_revisions_singleton e : fresh_revisions [e].
Proof. intros [|i] [|j] e1 e2 ?? _ _ _; by simplify_eq/=. Qed.

Lemma fresh_revisions_deletes l : fresh_revisions (delete_entry <$> l).
Proof.
  intros i j e e' Hi Hj Ht. apply list_lookup_fmap_Some in Hi as (kv & -> & ?). done.
Qed.

Lemma runs_CheckAndCreate s : runs CheckAndCreateWatchServiceActor s.
Proof.
  unfold CheckAndCreateWatchServiceActor. apply runs_bind; [apply runs_members|].
  case_match; [apply runs_ret|].
  apply runs_bind; [by apply runs_post|]. apply micros_one, micro_quiet; [done|constructor].
Qed.

Lemma CheckAndCreate_stores s :
  same_stores s (exec CheckAndCreateWatchServiceActor s).
Proof. unfold CheckAndCreateWatchServiceActor. act_simpl. by case_match. Qed.

Lemma kv_wf_same_stores s s' : same_stores s s' → kv_wf s → kv_wf s'.
Proof. intros (Hr & Ho & Hc) [???]. split; by rewrite ?Hr, ?Ho, ?Hc. Qed.

Lemma runs_Master_AsyncPut from request s :
  kv_wf s → runs (Master_AsyncPut from request) s.
Proof.
  intros Hwf. unfold Master_AsyncPut. apply runs_bind; [apply runs_CheckAndCreate|].
  assert (Hwf' := kv_wf_same_stores _ _ (CheckAndCreate_stores s) Hwf).
  generalize dependent (exec CheckAndCreateWatchServiceActor s). clear s Hwf. intros s Hwf.
  apply runs_bind; [apply runs_members|]. act_simpl.
  destruct (CheckUniqueOngoingValid s (pr_key request)) eqn:Hv; simpl; [|apply runs_ret].
  apply bool_decide_eq_true in Hv.
  apply runs_opening.
  - apply (micro_begin _ s (modRevision_ s + 1) [put_entry (val (TryPutCache request) s).1]).
    + lia.
    + apply Forall_singleton. by apply (put_begins s request).
    + apply fresh_revisions_singleton.
    + by repeat constructor.
  - apply runs_bind; [apply runs_when; intros; by apply runs_post|].
    apply runs_finish; [apply runs_OnTryPutCache|]. intros. by apply runs_answer.
Qed.

Lemma delete_begins s kv rev :
  kv_wf s → (∃ k, cache_ s !! k = Some kv) →
  match ongoing_ s !! kv_key kv with
  | None => true
  | Some e => bool_decide (og_type e = CaseDeleteRange)
  end = true →
  entry_begins s rev (delete_entry kv).
Proof.
  intros Hwf [k Hk] Hv. destruct (wf_cache _ Hwf k kv Hk) as [<- _].
  split; [done|]. intros e' He. simpl in He. rewrite He in Hv. by apply bool_decide_eq_true in Hv.
Qed.

Lemma deletes_begin s c kvs rev :
  kv_wf s → (∀ kv, kv ∈ kvs → ∃ k, cache_ s !! k = Some kv) →
  ongoing_ c = ongoing_ s → CheckDeletesOngoingValid c kvs = true →
  Forall (entry_begins s rev) (delete_entry <$> kvs).
Proof.
  intros Hwf Hin Ho Hv. apply Forall_fmap, Forall_forall. intros kv Hkv.
  apply delete_begins; [done|by apply Hin|].
  unfold CheckDeletesOngoingValid in Hv. rewrite forallb_forall in Hv.
  rewrite <- Ho. apply Hv. by apply list_elem_of_In.
Qed.

Lemma deletes_of_cached c d kv : kv ∈ deletes_of c d → ∃ k, c !! k = Some kv.
Proof. intros (k & ? & _)%elem_of_deletes_of. eauto. Qed.

Lemma micro_begin_same s es :
  Forall (entry_begins s (modRevision_ s)) es → fresh_revisions es →
  micro lease s [] (set_ongoing (insert_entries es (ongoing_ s)) s).
Proof.
  intros Hes Hf. rewrite <- (set_modRevision_id s) at 3.
  apply micro_begin; (done || constructor).
Qed.

Lemma runs_Master_AsyncDelete from request s :
  kv_wf s → runs (Master_AsyncDelete from request) s.
Proof.
  intros Hwf. unfold Master_AsyncDelete. case_match; [|apply runs_ret].
  apply runs_bind; [apply runs_members|]. act_simpl. rewrite TryDeleteRange_deletes.
  destruct (CheckDeletesOngoingValid s _) eqn:Hv; simpl; [|apply runs_ret].
  apply runs_bind.
  - unfold KvInvariant.runs. rewrite exec_InsertDeleteOngoing.
    unfold InsertDeleteOngoing. rewrite outs_insert_loop.
    apply micros_one, micro_begin_same; [|apply fresh_revisions_deletes].
    eapply deletes_begin; [done| |done|done]. apply deletes_of_cached.
  - apply runs_bind; [apply runs_when; intros; by apply runs_post|].
    apply runs_finish; [apply runs_OnTryDeleteRange|]. intros. by apply runs_answer.
Qed.

Lemma txn_put_kvs_lookup c rev ops i kv :
  txn_put_kvs c rev ops !! i = Some kv →
  kv_mod_revision kv = rev + Z.of_nat i + 1 ∧ Z.of_nat i < put_count ops ∧
  ∃ p, kv = next_kv (default kv_empty (c !! ep_key p)) (put_of p) (rev + Z.of_nat i + 1).
Proof.
  revert rev i. unfold put_count.
  induction ops as [|[] ops IH]; intros rev i Hi; simpl in *; try by eauto.
  destruct i as [|i]; simplify_eq/=.
  - rewrite next_kv_mod, Z.add_0_r. split_and!; [lia|lia|eauto].
  - apply IH in Hi as (-> & ? & q & ->).
    split_and!; [lia|lia|]. exists q. f_equal. lia.
Qed.

Lemma txn_deletes_cached c ops kv :
  kv ∈ concat (txn_deletes c ops) → ∃ k, c !! k = Some kv.
Proof.
  induction ops as [|[] ops IH]; simpl; [set_solver|auto..|auto|auto].
  rewrite elem_of_app. intros [?|?]; [by eapply deletes_of_cached|auto].
Qed.

Lemma lookup_put_entries (txn : TxnResults) i e :
  txn_entries txn !! i = Some e → og_type e = CasePut →
  txn.1.*1 !! i = Some (og_kv e).
Proof.
  intros [Hi|[_ Hi]]%lookup_app_Some He.
  - rewrite list_lookup_fmap_Some in Hi. destruct Hi as ([kv prev] & -> & Hi).
    by rewrite list_lookup_fmap, Hi.
  - rewrite list_lookup_fmap_Some in Hi. by destruct Hi as (kv & -> & _).
Qed.

Lemma CheckTxnOngoingValid_spec s txn :
  CheckTxnOngoingValid s txn = true →
  (∀ p, p ∈ txn.1 → ongoing_ s !! kv_key p.1 = None) ∧
  CheckDeletesOngoingValid s (concat txn.2) = true.
Proof.
  unfold CheckTxnOngoingValid. intros [Hp Hd]%andb_true_iff. split.
  - intros p Hin. rewrite forallb_forall in Hp.
    eapply bool_decide_eq_true, Hp. by apply list_elem_of_In.
  - induction txn.2 as [|ds l IH]; [done|]. simpl in *.
    apply andb_true_iff in Hd as [? ?]. unfold CheckDeletesOngoingValid in *.
    rewrite forallb_app. apply andb_true_iff. auto.
Qed.

(** The entries of a transaction whose first phase ran from [s] begin in [s]. *)
Lemma txn_begins s s' ops txn :
  kv_wf s → ongoing_ s' = ongoing_ s →
  txn.1.*1 = txn_put_kvs (cache_ s) (modRevision_ s) ops →
  txn.2 = txn_deletes (cache_ s) ops →
  CheckTxnOngoingValid s' txn = true →
  Forall (entry_begins s (modRevision_ s + put_count ops)) (txn_entries txn) ∧
  fresh_revisions (txn_entries txn).
Proof.
  intros Hwf Ho Hp Hd [Hvp Hvd]%CheckTxnOngoingValid_spec. split.
  - apply Forall_app. split.
    + apply Forall_fmap, Forall_forall. intros p Hin. specialize (Hvp p Hin).
      apply list_elem_of_lookup in Hin as [i Hi].
      assert (Hi' : txn.1.*1 !! i = Some p.1) by by rewrite list_lookup_fmap, Hi.
      rewrite Hp in Hi'. apply txn_put_kvs_lookup in Hi' as (Hm & Hlt & q & Hq).
      assert (Hk : kv_key p.1 = ep_key q).
      { rewrite Hq. change (ep_key q) with (pr_key (put_of q)).
        by rewrite (next_kv_key _ (modRevision_ s)) by apply Hwf. }
      split; [by rewrite <- Ho|]. exists (put_of q), (modRevision_ s + Z.of_nat i + 1).
      cbn [og_kv put_entry]. rewrite Hk. split_and!; (done || lia).
    + eapply deletes_begin; [done| |done|done]. rewrite Hd. apply txn_deletes_cached.
  - intros i j e e' Hi Hj He He' Hm.
    apply lookup_put_entries in Hi, Hj; [|done..].
    rewrite Hp in Hi, Hj. apply txn_put_kvs_lookup in Hi as (? & _), Hj as (? & _). lia.
Qed.

Lemma quiet_attaches ops : Forall quiet (txn_attaches ops).
Proof. induction ops as [|[] ops IH]; simpl; by try constructor. Qed.

Lemma runs_Master_AsyncTxn from request s :
  kv_wf s → runs (Master_AsyncTxn kv_moved from request) s.
Proof.
  intros Hwf. unfold Master_AsyncTxn. case_match; [|apply runs_ret].
  destruct (TryTxn_effect kv_moved t s) as (He & Hout & Hp & Hd).
  set (ops := chosen_ops s t) in *.
  pose proof (quiet_attaches ops) as Hq.
  assert (Hle : modRevision_ s ≤ modRevision_ s + put_count ops) by (unfold put_count; lia).
  unfold KvInvariant.runs. rewrite outs_bind, exec_bind, Hout, He.
  set (s' := set_modRevision (modRevision_ s + put_count ops) s).
  assert (Hs' : set_ongoing (insert_entries [] (ongoing_ s)) s' = s') by done.
  rewrite outs_bind, exec_bind. act_simpl. rewrite app_nil_l.
  destruct (CheckTxnOngoingValid s' _) eqn:Hv; simpl.
  - edestruct (txn_begins s s' ops) as [Hb Hf]; [done|done|done|done|done|].
    rewrite outs_bind, exec_bind, exec_InsertTxnOngoing, outs_InsertTxnOngoing, app_nil_l.
    eapply micros_cons; [apply (micro_begin _ s _ _ _ Hle Hb Hf Hq)|].
    apply runs_bind; [apply runs_when; intros; by apply runs_post|].
    apply runs_finish; [apply runs_OnTryTxn|]. intros. by apply runs_answer.
  - rewrite outs_ret, exec_ret, app_nil_r. rewrite <- Hs'. apply micros_one.
    apply micro_begin; [done|constructor| |done]. by intros [].
Qed.

Lemma runs_by_role m s : runs m s → runs (by_role m) s.
Proof.
  intros Hm. unfold by_role. apply runs_bind; [apply runs_members|]. act_simpl.
  case_match; [done|apply runs_ret].
Qed.

Lemma runs_request m s : client_request kv_moved m → kv_wf s → runs m s.
Proof.
  intros [] Hwf; apply runs_by_role;
    [by apply runs_Master_AsyncPut|by apply runs_Master_AsyncDelete| |by apply runs_Master_AsyncTxn|..];
    unfold Master_AsyncGet, Master_AsyncWatch, Master_AsyncGetAndWatch;
    (case_match; [|apply runs_ret]).
  - apply runs_bind; [apply runs_members|].
    apply runs_bind; [by apply runs_answer|apply runs_ret].
  - apply runs_bind; [apply runs_CheckAndCreate|].
    apply runs_bind; [by apply runs_post|apply runs_ret].
  - apply runs_bind; [apply runs_CheckAndCreate|].
    apply runs_bind; [by apply runs_post|apply runs_ret].
Qed.

(** The loop of [OnRevoke] erases its keys and collects what they held. *)
Lemma RevokeLoop_effect keys deletes s :
  NoDup keys →
  exec (RevokeLoop keys deletes) s = set_cache (erase_keys keys (cache_ s)) s ∧
  outs (RevokeLoop keys deletes) s = [] ∧
  val (RevokeLoop keys deletes) s = deletes ++ omap (λ k, cache_ s !! k) keys.
Proof.
  intros Hnd. revert deletes s.
  induction Hnd as [|k keys Hk Hnd IH]; intros deletes s; cbn [RevokeLoop omap list_omap].
  { act_simpl. rewrite app_nil_r. by destruct s. }
  act_simpl. destruct (cache_ s !! k) as [kv|] eqn:E; act_simpl.
  - edestruct IH as (-> & -> & ->). cbn [cache_ set_cache].
    split_and!; [done|done|]. rewrite <- (assoc_L (++)). do 2 f_equal.
    apply list_omap_ext. apply Forall2_same_length_lookup_2; [done|].
    intros i k1 k2 H1 H2. simplify_eq. apply lookup_delete_ne. intros ->. apply Hk.
    by eapply list_elem_of_lookup_2.
  - edestruct IH as (-> & -> & ->). split_and!; [|done|done].
    unfold erase_keys. cbn [foldl]. by rewrite delete_id.
Qed.

Lemma erase_keys_found (keys : list string) (c : gmap string KeyValue) rev :
  map_Forall (kv_ok rev) c →
  erase_keys keys c = erase_keys (kv_key <$> omap (λ k, c !! k) keys) c.
Proof.
  intros Hc. apply map_eq. intros k. rewrite !lookup_erase_keys.
  destruct (decide (k ∈ keys)) as [Hk|Hk]; case_decide as Hf; [done| |exfalso|done].
  - destruct (c !! k) as [kv|] eqn:E; [|done]. exfalso. apply Hf.
    apply list_elem_of_fmap. exists kv. split; [by destruct (Hc k kv E)|].
    apply list_elem_of_omap. eauto.
  - apply list_elem_of_fmap in Hf as (kv & -> & (k' & ? & E)%list_elem_of_omap).
    destruct (Hc k' kv E) as [? _]. congruence.
Qed.

Lemma NoDup_std_set_list X : NoDup (std_set_list X).
Proof. unfold std_set_list. rewrite merge_sort_Permutation. apply NoDup_elements. Qed.

Lemma runs_OnRevoke keys s : lease = true → kv_wf s → runs (OnRevoke keys) s.
Proof.
  intros Hl Hwf. unfold OnRevoke, KvInvariant.runs.
  destruct (RevokeLoop_effect (std_set_list keys) [] s (NoDup_std_set_list keys)) as (He & Ho & Hv).
  rewrite outs_bind, exec_bind, He, Ho, Hv. rewrite !app_nil_l.
  rewrite (erase_keys_found _ _ _ (wf_cache _ Hwf)).
  set (kvs := omap _ _). act_simpl. rewrite app_nil_l, app_nil_r.
  case_bool_decide as Hkvs; cbn [negb].
  - rewrite Hkvs. cbn [fmap list_fmap]. unfold erase_keys. cbn [foldl].
    rewrite set_cache_id. case_match; [|constructor].
    apply micros_one, micro_quiet; [done|by repeat constructor].
  - eapply micros_cons; [by apply micro_expire|].
    case_match; [|constructor]. apply micros_one, micro_quiet; [done|by repeat constructor].
Qed.
End runs.

(** ** Steps of the actor among its peers *)
Section steps.
Context {PB : Protobuf} (kv_moved : KeyValue → KeyValue).

Lemma client_step_micros lease c c' :
  client_step kv_moved c c' → kv_wf (c_st c) →
  ∃ os, micros lease (c_st c) os (c_st c') ∧ c_outs c' = c_outs c ++ os.
Proof.
  intros [] Hwf; (eexists; split; [|reflexivity]);
    [by eapply runs_request|apply runs_on_backup|apply runs_on_reply].
Qed.

Lemma step_micros c c' :
  step kv_moved c c' → kv_wf (c_st c) →
  ∃ os, micros true (c_st c) os (c_st c') ∧ c_outs c' = c_outs c ++ os.
Proof.
  intros [c1 c2 Hstep|keys c1|from uuid request response c1|curUrl address c1] Hwf;
    [by eapply client_step_micros|..]; (eexists; split; [|reflexivity]).
  - by apply runs_OnRevoke.
  - apply runs_bind; [apply runs_members|]. by apply runs_answer.
  - apply runs_bind; [apply runs_members|]. case_match; [|apply runs_ret].
    apply runs_bind; [|apply runs_ret]. apply micros_one, micro_quiet; [done|constructor].
Qed.
End steps.

(** ** Well-formed revisions *)
Lemma kv_ok_mono rev rev' k kv : rev ≤ rev' → kv_ok rev k kv → kv_ok rev' k kv.
Proof. unfold kv_ok. intros; naive_solver lia. Qed.

Lemma next_kv_ok s k request r rev :
  kv_wf s → pr_key request = k → modRevision_ s < r ≤ rev →
  kv_ok rev k (next_kv (default kv_empty (cache_ s !! k)) request r).
Proof.
  intros [Hr Hc _] <- ?. pose proof (next_kv_key _ _ request r Hc) as Hk.
  unfold kv_ok. rewrite Hk. split; [done|]. revert Hk. unfold next_kv.
  case_bool_decide as He; simpl; intros _; [lia|].
  destruct (cache_ s !! pr_key request) as [kv|] eqn:E; simpl in *; [|done].
  apply Hc in E as (_ & ? & ? & ?). lia.
Qed.

Lemma entry_begins_ok s rev e :
  kv_wf s → modRevision_ s ≤ rev → entry_begins s rev e →
  kv_ok rev (kv_key (og_kv e)) (og_kv e).
Proof.
  intros Hwf Hrev. unfold entry_begins. destruct (og_type e).
  - intros (_ & request & r & Hk & Hr & Hkv). rewrite Hkv at 2. by apply next_kv_ok.
  - intros [Hc _]. eapply kv_ok_mono; [done|]. by apply (wf_cache _ Hwf).
Qed.

Lemma map_Forall_erase_keys {A} (P : string → A → Prop) ks (m : gmap string A) :
  map_Forall P m → map_Forall P (erase_keys ks m).
Proof. intros Hm k a [_ Hk]%lookup_erase_keys_Some. by apply Hm. Qed.

Lemma micro_wf lease s os s' : micro lease s os s' → kv_wf s → kv_wf s'.
Proof.
  destruct 1 as [s rev es os Hrev Hes _ _|s k e He|s ks|s kvs|s kvs|s s' os Hs _]; intros Hwf.
  - split; simpl.
    + destruct Hwf. lia.
    + eapply map_Forall_impl; [apply Hwf|]. intros. by eapply kv_ok_mono.
    + intros k e He. destruct (lookup_insert_entries es (ongoing_ s) k) as [(e' & Hin & <- & He')|[_ Heq]].
      * simplify_eq/=. apply (entry_begins_ok s); [done..|]. by eapply Forall_forall in Hes.
      * eapply kv_ok_mono; [done|]. apply (wf_ongoing _ Hwf k e). congruence.
  - destruct Hwf as [? ? Ho]. split; simpl; [done| |by apply map_Forall_delete].
    apply map_Forall_insert_2; [by apply (Ho k e)|done].
  - destruct Hwf. split; simpl; [done..|by apply map_Forall_erase_keys].
  - destruct Hwf. split; simpl; [done|by apply map_Forall_erase_keys..].
  - destruct Hwf. split; simpl; [done|by apply map_Forall_erase_keys|done].
  - by eapply kv_wf_same_stores.
Qed.

(** Properties of a micro step that hold in well-formed states hold of
    sequences of them. *)
Lemma micros_wf lease s os s' : micros lease s os s' → kv_wf s → kv_wf s'.
Proof. induction 1; eauto using micro_wf. Qed.

Lemma micros_inv lease (P : State → Prop) s os s' :
  (∀ s os s', micro lease s os s' → kv_wf s → P s → P s') →
  micros lease s os s' → kv_wf s → P s → P s'.
Proof. intros HP. induction 1; eauto using micro_wf. Qed.

Lemma kv_wf_init backup explore : kv_wf (init backup explore).
Proof. split; simpl; [lia|apply map_Forall_empty..]. Qed.

(** ** The watch stream as a log of the cache *)
Definition replay1 (c : gmap string KeyValue) (o : Out) : gmap string KeyValue :=
  match o with
  | WatchOnPut kv _ => <[kv_key kv := kv]> c
  | WatchOnDeleteList kvs => erase_keys (kv_key <$> kvs) c
  | WatchOnDelete kv => delete (kv_key kv) c
  | _ => c
  end.
Definition replay (os : list Out) (c : gmap string KeyValue) : gmap string KeyValue :=
  foldl replay1 c os.

Lemma replay_app os os' c : replay (os ++ os') c = replay os' (replay os c).
Proof. apply foldl_app. Qed.

Lemma replay_quiet os c : Forall quiet os → replay os c = c.
Proof. intros H. revert c. induction H as [|o os Ho _ IH]; intros c; [done|]. by destruct o; try apply IH. Qed.

Lemma micro_replay lease s os s' :
  micro lease s os s' → kv_wf s → cache_ s' = replay os (cache_ s).
Proof.
  destruct 1 as [s rev es os _ _ _ Hq|s k e He|s ks|s kvs|s kvs|s s' os Hs Hq]; intros Hwf;
    try done.
  - by rewrite replay_quiet.
  - simpl. by destruct (wf_ongoing _ Hwf k e He) as [-> _].
  - rewrite replay_quiet by done. apply Hs.
Qed.

Lemma micros_replay lease s os s' :
  micros lease s os s' → kv_wf s → cache_ s' = replay os (cache_ s).
Proof.
  induction 1 as [|s os s' os' s'' Hm _ IH]; [done|]. intros Hwf.
  rewrite replay_app, <- (micro_replay lease _ _ _ Hm Hwf). eauto using micro_wf.
Qed.

(** ** Writes in flight *)
Definition in_flight_ok (s : State) : Prop :=
  ∀ k e, ongoing_ s !! k = Some e →
    match og_type e with
    | CasePut =>
        ∃ request r, pr_key request = k ∧
          og_kv e = next_kv (default kv_empty (cache_ s !! k)) request r ∧
          ∀ kv, cache_ s !! k = Some kv → kv_mod_revision kv < r
    | CaseDeleteRange => cache_ s !! k = Some (og_kv e)
    end.

Lemma in_flight_ok_frame s s' :
  (∀ k e, ongoing_ s' !! k = Some e → ongoing_ s !! k = Some e ∧ cache_ s' !! k = cache_ s !! k) →
  in_flight_ok s → in_flight_ok s'.
Proof. intros Hf Hs k e He. destruct (Hf k e He) as [He' ->]. by apply Hs. Qed.

Lemma micro_in_flight s os s' :
  micro false s os s' → kv_wf s → in_flight_ok s → in_flight_ok s'.
Proof.
  destruct 1 as [s rev es os Hrev Hes _ _|s k e He|s ks|s kvs|s kvs|s s' os Hs _]; intros Hwf Hs'.
  - intros k e He. simpl in He.
    destruct (lookup_insert_entries es (ongoing_ s) k) as [(e' & Hin & <- & He')|[_ Heq]].
    + simplify_eq/=. eapply Forall_forall in Hes; [|done]. unfold entry_begins in Hes.
      destruct (og_type e); [|by destruct Hes].
      destruct Hes as (_ & request & r & Hk & Hr & Hkv). exists request, r.
      split_and!; [done|done|]. intros kv Hc. apply (wf_cache _ Hwf) in Hc as (_ & _ & _ & ?). lia.
    + simpl. apply Hs'. congruence.
  - eapply in_flight_ok_frame, Hs'. simpl. intros k' e' [Hne He']%lookup_delete_Some.
    by rewrite lookup_insert_ne.
  - eapply in_flight_ok_frame, Hs'. simpl. intros k e [_ He]%lookup_erase_keys_Some. done.
  - eapply in_flight_ok_frame, Hs'. simpl. intros k e [Hk He]%lookup_erase_keys_Some.
    by rewrite lookup_erase_keys, decide_False by done.
  - done.
  - eapply in_flight_ok_frame, Hs'. intros k e. by destruct Hs as (_ & -> & ->).
Qed.

(** ** Revisions identify writes *)
Definition holds_kv (s : State) (kv : KeyValue) : Prop :=
  (∃ k, cache_ s !! k = Some kv) ∨ (∃ k e, ongoing_ s !! k = Some e ∧ og_kv e = kv).
Definition mod_unique (s : State) : Prop :=
  ∀ kv kv', holds_kv s kv → holds_kv s kv' →
    kv_mod_revision kv = kv_mod_revision kv' → kv_key kv = kv_key kv'.

Lemma mod_unique_subset s s' :
  (∀ kv, holds_kv s' kv → holds_kv s kv) → mod_unique s → mod_unique s'.
Proof. unfold mod_unique. eauto. Qed.

Lemma holds_kv_bound s kv : kv_wf s → holds_kv s kv → kv_mod_revision kv ≤ modRevision_ s.
Proof.
  intros [_ Hc Ho] [[k Hk]|(k & e & Hk & <-)]; [apply Hc in Hk|apply Ho in Hk]; apply Hk.
Qed.

Lemma begin_holds s rev es kv :
  Forall (entry_begins s rev) es →
  holds_kv (set_ongoing (insert_entries es (ongoing_ s)) (set_modRevision rev s)) kv →
  holds_kv s kv ∨
  ∃ i e, es !! i = Some e ∧ og_kv e = kv ∧ og_type e = CasePut ∧ modRevision_ s < kv_mod_revision kv.
Proof.
  intros Hes [[k Hk]|(k & e & He & <-)]; [by left; left; exists k|]. simpl in He.
  destruct (lookup_insert_entries es (ongoing_ s) k) as [(e' & Hin & <- & He')|[_ Heq]].
  - simplify_eq/=. pose proof Hin as [i Hi]%list_elem_of_lookup.
    eapply Forall_forall in Hes; [|done]. unfold entry_begins in Hes.
    destruct (og_type e) eqn:Ht.
    + right. exists i, e. split_and!; [done|done|done|].
      destruct Hes as (_ & request & r & _ & ? & Hkv). rewrite Hkv, next_kv_mod. lia.
    + left; left. destruct Hes. eauto.
  - left; right. exists k, e. split; [congruence|done].
Qed.

Lemma micro_mod_unique lease s os s' :
  micro lease s os s' → kv_wf s → mod_unique s → mod_unique s'.
Proof.
  destruct 1 as [s rev es os Hrev Hes Hf _|s k e He|s ks|s kvs|s kvs|s s' os Hs _]; intros Hwf Hu.
  - intros kv kv' H H' Hm. apply begin_holds in H, H'; [|done..].
    destruct H as [H|(i & e & Hi & <- & Ht & ?)], H' as [H'|(j & e' & Hj & <- & Ht' & ?)].
    + by apply Hu.
    + apply holds_kv_bound in H; [lia|done].
    + apply holds_kv_bound in H'; [lia|done].
    + assert (i = j) as <- by by eapply Hf. by simplify_eq.
  - eapply mod_unique_subset, Hu. intros kv [[k' Hk]|(k' & e' & Hk & <-)]; simpl in *.
    + apply lookup_insert_Some in Hk as [[_ <-]|[_ Hk]]; [right; by exists k, e|left; by exists k'].
    + apply lookup_delete_Some in Hk as [_ Hk]. right. by exists k', e'.
  - eapply mod_unique_subset, Hu. intros kv [[k' Hk]|(k' & e' & Hk & <-)]; simpl in *.
    + left. by exists k'.
    + apply lookup_erase_keys_Some in Hk as [_ Hk]. right. by exists k', e'.
  - eapply mod_unique_subset, Hu. intros kv [[k' Hk]|(k' & e' & Hk & <-)]; simpl in *;
      apply lookup_erase_keys_Some in Hk as [_ Hk]; [left; by exists k'|right; by exists k', e'].
  - eapply mod_unique_subset, Hu. intros kv [[k' Hk]|(k' & e' & Hk & <-)]; simpl in *.
    + apply lookup_erase_keys_Some in Hk as [_ Hk]. left; by exists k'.
    + right; by exists k', e'.
  - eapply mod_unique_subset, Hu. unfold holds_kv. by destruct Hs as (_ & -> & ->).
Qed.
