(* ===== verification/KvProps.v ===== *)
(** * Properties of the key-value actor

    The theorems about reachable configurations: [KvInvariant] has the lemmas
    that each micro step contributes. *)

From S2P Require Import Prelude MetaTypes Leader KvService KvInvariant.
From stdpp Require Import base gmap strings list fin_maps sorting relations.
From Stdlib Require Import ZArith Lia.

Open Scope Z_scope.
Set Default Proof Using "Type".
Import Kv.

(** ** Concrete parameters for the witnesses *)
Definition null_codec (A : Type) : Codec A := {| ser _ := ""; parse _ := None |}.

(** A request message is read as the key it is about, ["txn"] excepted. *)
Definition demo_txn : TxnRequest :=
  mkTxn [mkCompare CMP_EQUAL TGT_VERSION "a" (U_version 0)]
    [kRequestPut (mkEtcdPut "a" "1" 7 true); kRequestPut (mkEtcdPut "b" "2" 0 false)]
    [kRequestDeleteRange (mkDeleteRange "a" "" true)].
Definition demo_pb : Protobuf := {|
  pb_kv := countable_codec KeyValue;
  pb_watch_request := {| ser w := wc_key (wq_create w);
                         parse k := Some (mkWatchRequest (mkWatchCreate k "" false) 0) |};
  pb_delete_request := {| ser := dr_key; parse k := Some (mkDeleteRange k "" false) |};
  pb_range_request := {| ser := rr_key;
                         parse k := Some (mkRange k "" ORDER_NONE SORT_KEY false false) |};
  pb_txn_request := {| ser _ := "txn"; parse _ := Some demo_txn |};
  pb_delete_response := null_codec _;
  pb_range_response := null_codec _;
  pb_txn_response := null_codec _;
  pb_watch_response := null_codec _;
  pb_get_and_watch := null_codec _;
  pb_put_response := {| ser r := pp_errormsg r; parse _ := None |};
  pb_response := {| ser r := mr_errormsg r; parse _ := None |};
|}.
Definition demo_moved (kv : KeyValue) : KeyValue := kv_empty.

Definition demo_put (key value : string) (async : bool) : PutRequest :=
  mkPut "id" key value 0 false async.
Definition demo_del (key : string) : MetaStoreRequest := mkReq "id" key false.

(** A put of ["a"] that waits for the backup. *)
Definition demo_config : Config :=
  run_handler (AsyncPut (PB:=demo_pb) "cli" (demo_put "a" "x" false))
    (initial true false).

Section reachability.
Context {PB : Protobuf} (kv_moved : KeyValue → KeyValue).

Lemma client_reachable_reachable c : client_reachable kv_moved c → reachable kv_moved c.
Proof.
  intros (b & e & H). exists b, e. induction H; econstructor; eauto using step_client.
Qed.

Lemma initial_reachable b e : client_reachable kv_moved (initial b e).
Proof. by exists b, e. Qed.
Lemma request_reachable c m :
  client_request kv_moved m → client_reachable kv_moved c →
  client_reachable kv_moved (run_handler m c).
Proof. intros Hm (b & e & H). exists b, e. eapply rtc_r; [done|by apply step_request]. Qed.

(** Induction over the configurations the actor reaches. *)
Lemma reachable_inv (P : Config → Prop) c :
  (∀ b e, P (initial b e)) →
  (∀ c c' os, kv_wf (c_st c) → micros true (c_st c) os (c_st c') →
     c_outs c' = c_outs c ++ os → P c → P c') →
  reachable kv_moved c → kv_wf (c_st c) ∧ P c.
Proof.
  intros Hinit Hstep (b & e & H). revert H.
  apply (rtc_ind_r (λ c, kv_wf (c_st c) ∧ P c)).
  { split; [apply kv_wf_init|apply Hinit]. }
  intros c1 c2 _ Hs [Hwf HP].
  destruct (step_micros kv_moved _ _ Hs Hwf) as (os & Hm & Ho).
  split; [by eapply micros_wf|by eapply Hstep].
Qed.

Lemma client_reachable_inv (P : State → Prop) c :
  (∀ b e, P (init b e)) →
  (∀ s os s', micro false s os s' → kv_wf s → P s → P s') →
  client_reachable kv_moved c → kv_wf (c_st c) ∧ P (c_st c).
Proof.
  intros Hinit Hstep (b & e & H). revert H.
  apply (rtc_ind_r (λ c, kv_wf (c_st c) ∧ P (c_st c))).
  { split; [apply kv_wf_init|apply Hinit]. }
  intros c1 c2 _ Hs [Hwf HP].
  destruct (client_step_micros kv_moved false _ _ Hs Hwf) as (os & Hm & _).
  split; [by eapply micros_wf|by eapply micros_inv].
Qed.

Lemma client_reachable_wf c : client_reachable kv_moved c → kv_wf (c_st c).
Proof. intros Hc. by apply (client_reachable_inv (λ _, True)) in Hc as [? _]. Qed.

Lemma client_reachable_in_flight c :
  client_reachable kv_moved c → kv_wf (c_st c) ∧ in_flight_ok (c_st c).
Proof.
  apply client_reachable_inv; [|apply micro_in_flight]. intros b e k ev He. done.
Qed.
End reachability.

(** C1: in every configuration the actor reaches - whatever the clients ask,
    whichever order and status the backup answers come in, whenever leases
    expire and the role changes - each cached key-value and each write in
    flight is stored under its own key, with version at least one and
    [1 <= create_revision <= mod_revision <= modRevision_]. *)
Theorem reachable_kv_wf {PB : Protobuf} (kv_moved : KeyValue → KeyValue) (c : Config) :
  reachable kv_moved c → kv_wf (c_st c).
Proof. intros H. by apply (reachable_inv kv_moved (λ _, True)). Qed.

Lemma demo_reachable : client_reachable (PB:=demo_pb) demo_moved demo_config.
Proof.
  exists true, false. apply rtc_once. apply step_request, req_put.
Qed.

Lemma reachable_kv_wf_witness :
  let c := demo_config in
  ongoing_ (c_st c) !! "a" ≠ None ∧ kv_wf (c_st c).
Proof.
  split; [by vm_compute|].
  apply (reachable_kv_wf (PB:=demo_pb) demo_moved).
  apply client_reachable_reachable, demo_reachable.
Defined.





(** The successor of the value [prev] of a key: what etcd calls the next
    version, or the first version of a key that is not there.  (The empty key
    never counts as present.) *)
Definition successor (prev : option KeyValue) (kv : KeyValue) : Prop :=
  match prev with
  | Some p =>
      kv_mod_revision p < kv_mod_revision kv ∧
      (kv_key p ≠ "" →
       kv_version kv = kv_version p + 1 ∧ kv_create_revision kv = kv_create_revision p)
  | None => kv_version kv = 1 ∧ kv_create_revision kv = kv_mod_revision kv
  end.

Lemma next_kv_successor (c : gmap string KeyValue) k request r :
  (∀ kv, c !! k = Some kv → kv_mod_revision kv < r) →
  successor (c !! k) (next_kv (default kv_empty (c !! k)) request r).
Proof.
  intros Hlt. destruct (c !! k) as [p|]; simpl; [|done].
  rewrite next_kv_mod. split; [by apply Hlt|]. intros Hk. unfold next_kv.
  by rewrite bool_decide_false.
Qed.

(** When the backup of a put has succeeded and its entry is still in
    flight, the cache gets exactly the entry's value under the request's key;
    it is the successor of the value it replaces, no other key changes, and
    one watch event is posted. *)
Theorem put_commit {PB : Protobuf} (kv_moved : KeyValue → KeyValue) (c : Config)
    (i : nat) (from : string) (request : PutRequest) (response : PutResponse) (e : OngoingEvent) :
  client_reachable kv_moved c →
  c_backup c !! i = Some (ThenOnTryPutCache from request response) →
  ongoing_ (c_st c) !! pr_key request = Some e →
  og_type e = CasePut →
  let c' := run_backup i (ThenOnTryPutCache from request response) StatusOK c in
  cache_ (c_st c') = <[pr_key request := og_kv e]> (cache_ (c_st c)) ∧
  kv_key (og_kv e) = pr_key request ∧
  successor (cache_ (c_st c) !! pr_key request) (og_kv e) ∧
  c_outs c' = c_outs c ++ [WatchOnPut (og_kv e) (og_preKv e)].
Proof.
  intros Hc Hi He Ht c'. destruct (client_reachable_in_flight kv_moved c Hc) as [Hwf Hf].
  pose proof (OnTryPutCache_ok _ _ _ He) as Hrun.
  unfold c', run_backup, on_backup. cbn [c_st c_outs].
  rewrite exec_bind, outs_bind, exec_ret, outs_ret. unfold exec, outs. rewrite Hrun.
  split_and!; [done|by destruct (wf_ongoing _ Hwf _ _ He)| |done].
  specialize (Hf _ _ He). rewrite Ht in Hf.
  destruct Hf as (request' & r & _ & -> & Hlt). by apply next_kv_successor.
Qed.

Lemma put_commit_witness :
  let k := ThenOnTryPutCache "cli" (demo_put "a" "x" false) (mkPutResp "id" 1 "" 0 "") in
  let e := mkOngoing CasePut (mkKV "a" 1 1 1 "x" 0) kv_empty in
  let c' := run_backup 0 k StatusOK demo_config in
  cache_ (c_st c') = <["a" := og_kv e]> ∅ ∧ successor None (og_kv e).
Proof.
  destruct (put_commit (PB:=demo_pb) demo_moved demo_config 0 "cli" (demo_put "a" "x" false)
    (mkPutResp "id" 1 "" 0 "") (mkOngoing CasePut (mkKV "a" 1 1 1 "x" 0) kv_empty)
    demo_reachable) as (H1 & _ & H2 & _); [by vm_compute..|].
  split; [exact H1|exact H2].
Defined.

(** Revisions identify writes: two keys of the cache never share a
    modification revision. *)
Theorem cached_revisions_distinct {PB : Protobuf} (kv_moved : KeyValue → KeyValue) (c : Config)
    (k k' : string) (kv kv' : KeyValue) :
  reachable kv_moved c →
  cache_ (c_st c) !! k = Some kv → cache_ (c_st c) !! k' = Some kv' →
  kv_mod_revision kv = kv_mod_revision kv' → k = k'.
Proof.
  intros H Hk Hk' Hm.
  destruct (reachable_inv kv_moved (λ c, mod_unique (c_st c)) c) as [Hwf Hu]; [..|done|].
  - intros b e kv1 kv2 [[? ?]|(? & ? & ? & _)]; done.
  - intros c1 c2 os Hwf Hms _. by apply (micros_inv true _ _ _ _ (micro_mod_unique true) Hms).
  - destruct (wf_cache _ Hwf _ _ Hk) as [<- _], (wf_cache _ Hwf _ _ Hk') as [<- _].
    apply Hu; [by left; eauto..|done].
Qed.

Lemma cached_revisions_distinct_witness :
  let c := run_handler (AsyncTxn (PB:=demo_pb) demo_moved "cli" (mkReq "t" "txn" true))
             (initial true false) in
  ∃ kv, cache_ (c_st c) !! "b" = Some kv ∧ kv_mod_revision kv = 2 ∧ "b" = "b".
Proof.
  exists (mkKV "b" 2 2 1 "2" 0). split; [by vm_compute|]. split; [done|].
  apply (cached_revisions_distinct (PB:=demo_pb) demo_moved
    (run_handler (AsyncTxn (PB:=demo_pb) demo_moved "cli" (mkReq "t" "txn" true))
       (initial true false)) "b" "b" (mkKV "b" 2 2 1 "2" 0) (mkKV "b" 2 2 1 "2" 0));
    [|by vm_compute..].
  exists true, false. apply rtc_once. apply step_client, step_request, req_txn.
Defined.

(** The keys a waiting commit has in flight. *)
Definition kont_keys (k : BackupKont) : list string :=
  match k with
  | ThenOnTryPutCache _ request _ => [pr_key request]
  | ThenOnTryDeleteRange deletes _ _ _ => kv_key <$> deletes
  | ThenOnTryTxn txn _ _ _ => (kv_key ∘ fst <$> txn.1) ++ (kv_key <$> concat txn.2)
  end.

(** C6: a failed backup rolls its request back: the cache and the revision
    stay as they are, no watcher hears of it, and exactly the keys the request
    had in flight are released. *)
Theorem failed_backup_rolls_back (i : nat) (k : BackupKont) (status : Status)
    (c : Config) :
  IsError status = true →
  let c' := run_backup i k status c in
  c_st c' = set_ongoing (erase_keys (kont_keys k) (ongoing_ (c_st c))) (c_st c) ∧
  c_outs c' = c_outs c.
Proof.
  intros He c'. unfold c', run_backup. cbn [c_st c_outs].
  destruct k as [from request response|deletes from request response|txn from request response];
    unfold on_backup; rewrite exec_bind, outs_bind, exec_ret, outs_ret, app_nil_r; simpl.
  - unfold exec, outs. by rewrite OnTryPutCache_error, app_nil_r.
  - by rewrite exec_OnTryDeleteRange_error, outs_OnTryDeleteRange_error, app_nil_r.
  - unfold OnTryTxn. rewrite He. act_simpl. by rewrite app_nil_r.
Qed.

Lemma failed_backup_rolls_back_witness :
  let k := ThenOnTryPutCache "cli" (demo_put "a" "x" false) (mkPutResp "id" 1 "" 0 "") in
  let c' := run_backup 0 k (mkStatus FAILED "etcd") demo_config in
  c_st c' = set_ongoing (erase_keys ["a"] (ongoing_ (c_st demo_config))) (c_st demo_config) ∧
  c_outs c' = c_outs demo_config.
Proof.
  apply (failed_backup_rolls_back 0
    (ThenOnTryPutCache "cli" (demo_put "a" "x" false) (mkPutResp "id" 1 "" 0 ""))
    (mkStatus FAILED "etcd") demo_config). by vm_compute.
Defined.
