(* ===== verification/KvRefine.v ===== *)
(** * The key-value actor against its specifications

    Transactions against the sequential semantics of etcd, the backup stream
    against the cache, range queries, recovery from the backup, and the events
    of the storage below. *)

From S2P Require Import Prelude MetaTypes Leader KvService KvInvariant KvProps.
From stdpp Require Import base gmap strings list fin_maps sorting relations.
From Stdlib Require Import ZArith Lia.

Open Scope Z_scope.
Set Default Proof Using "Type".
Import Kv.

(** ** The sequential store

    A store is a revision and a map from keys to key-values.  A put takes the
    next revision; a delete keeps it. *)
Abbreviation store := (Z * gmap string KeyValue)%type (only parsing).

Definition etcd_put (k v : string) (lease : Z) (st : store) : store :=
  let rev := st.1 + 1 in
  let kv :=
    match st.2 !! k with
    | Some p => mkKV k (kv_create_revision p) rev (kv_version p + 1) v lease
    | None => mkKV k rev rev 1 v lease
    end in
  (rev, <[k := kv]> st.2).

Definition selects (d : DeleteRangeRequest) (k : string) : bool :=
  if bool_decide (dr_range_end d = "") then bool_decide (k = dr_key d)
  else in_range (dr_key d) (dr_range_end d) k.

Definition etcd_delete (d : DeleteRangeRequest) (st : store) : store :=
  (st.1, filter (λ p, selects d p.1 = false) st.2).

Definition etcd_op (st : store) (op : RequestOp) : store :=
  match op with
  | kRequestPut p => etcd_put (ep_key p) (ep_value p) (ep_lease p) st
  | kRequestDeleteRange d => etcd_delete d st
  | _ => st
  end.

Definition put_keys (ops : list RequestOp) : list string :=
  omap (λ op, match op with kRequestPut p => Some (ep_key p) | _ => None end) ops.
Definition delete_requests (ops : list RequestOp) : list DeleteRangeRequest :=
  omap (λ op, match op with kRequestDeleteRange d => Some d | _ => None end) ops.

(** No operation of the transaction writes a key another one writes. *)
Definition disjoint_ops (ops : list RequestOp) : Prop :=
  NoDup (put_keys ops) ∧ "" ∉ put_keys ops ∧
  ∀ k d, k ∈ put_keys ops → d ∈ delete_requests ops → selects d k = false.

Definition insert_kvs (kvs : list KeyValue) (c : gmap string KeyValue) : gmap string KeyValue :=
  foldl (λ c kv, <[kv_key kv := kv]> c) c kvs.

(** ** Stores *)
Lemma selects_deletes_of c rev d k :
  map_Forall (kv_ok rev) c →
  k ∈ kv_key <$> deletes_of c d ↔ selects d k = true ∧ is_Some (c !! k).
Proof.
  intros Hc. rewrite list_elem_of_fmap. unfold selects. split.
  - intros (kv & -> & (k' & Hk & Hs)%elem_of_deletes_of).
    destruct (Hc k' kv Hk) as [-> _]. split; [|by eexists].
    case_bool_decide; [|done]. by apply bool_decide_eq_true.
  - intros [Hs [kv Hk]]. exists kv. split; [by destruct (Hc k kv Hk)|].
    apply elem_of_deletes_of. exists k. split; [done|].
    case_bool_decide; [|done]. by apply bool_decide_eq_true in Hs.
Qed.

Lemma lookup_etcd_delete d st k :
  (etcd_delete d st).2 !! k = if selects d k then None else st.2 !! k.
Proof.
  simpl. rewrite map_lookup_filter. destruct (st.2 !! k) as [kv|]; simpl; [|by case_match].
  destruct (selects d k) eqn:E; by rewrite ?option_guard_False, ?option_guard_True by (simpl; congruence).
Qed.

Lemma lookup_insert_kvs_ne kvs c k :
  k ∉ kv_key <$> kvs → insert_kvs kvs c !! k = c !! k.
Proof.
  revert c. induction kvs as [|kv kvs IH]; intros c Hk; [done|].
  unfold insert_kvs in *. cbn [foldl]. rewrite IH by set_solver.
  apply lookup_insert_ne. set_solver.
Qed.

Lemma insert_kvs_proper kvs c c' k :
  (k ∉ kv_key <$> kvs → c !! k = c' !! k) → insert_kvs kvs c !! k = insert_kvs kvs c' !! k.
Proof.
  revert c c'. induction kvs as [|kv kvs IH]; intros c c' H; [apply H; set_solver|].
  unfold insert_kvs in *. cbn [foldl]. apply IH. intros Hk.
  destruct (decide (kv_key kv = k)) as [->|Hne]; [by rewrite !lookup_insert_eq|].
  rewrite !lookup_insert_ne by done. apply H. set_solver.
Qed.

Lemma txn_put_kvs_keys c rev r ops :
  map_Forall (kv_ok rev) c → kv_key <$> txn_put_kvs c r ops = put_keys ops.
Proof.
  intros Hc. revert r. unfold put_keys.
  induction ops as [|[] ops IH]; intros r0; cbn; auto.
  f_equal; [|apply IH]. change (ep_key p) with (pr_key (put_of p)). by eapply next_kv_key.
Qed.

(** The sequential run of disjoint operations, from a store that agrees with
    the snapshot [c0] on what they write, is: all the puts, then all the
    deletes, both computed from the snapshot. *)
Lemma sequential_is_snapshot c0 rev0 ops rev c :
  map_Forall (kv_ok rev0) c0 → disjoint_ops ops →
  (∀ k, k ∈ put_keys ops → c !! k = c0 !! k) →
  (∀ k d, d ∈ delete_requests ops → selects d k = true → c !! k = c0 !! k ∨ c !! k = None) →
  foldl etcd_op (rev, c) ops =
  (rev + put_count ops,
   erase_keys (kv_key <$> concat (txn_deletes c0 ops)) (insert_kvs (txn_put_kvs c0 rev ops) c)).
Proof.
  intros Hc0. unfold disjoint_ops, put_keys, delete_requests, put_count. revert rev c.
  induction ops as [|op ops IH]; intros rev c (Hnd & Hne & Hdis) Hp Hd.
  { simpl. by rewrite Z.add_0_r. }
  destruct op as [r|p|d| |]; cbn [foldl etcd_op omap list_omap txn_attaches txn_deletes txn_put_kvs] in *;
    try (by apply IH).
  - apply NoDup_cons in Hnd as [Hk Hnd]. apply not_elem_of_cons in Hne as [Hne1 Hne].
    assert (Hput : etcd_put (ep_key p) (ep_value p) (ep_lease p) (rev, c) =
      (rev + 1, <[ep_key p := next_kv (default kv_empty (c0 !! ep_key p)) (put_of p) (rev + 1)]> c)).
    { unfold etcd_put, next_kv. cbn [fst snd]. rewrite Hp by left. do 2 f_equal.
      destruct (c0 !! ep_key p) as [kv|] eqn:E; simpl; [|done].
      destruct (Hc0 _ _ E) as [-> _]. by rewrite bool_decide_false by done. }
    rewrite Hput. rewrite IH.
    + f_equal; [simpl; lia|]. unfold insert_kvs at 2. cbn [foldl].
      change (ep_key p) with (pr_key (put_of p)). by rewrite (next_kv_key _ rev0) by done.
    + split_and!; [done|done|]. intros k d ? ?. apply Hdis; [by right|done].
    + intros k Hin. rewrite lookup_insert_ne by (intros <-; done). apply Hp. by right.
    + intros k d Hin Hs. rewrite lookup_insert_ne; [by eapply Hd|].
      intros <-. rewrite (Hdis (ep_key p) d) in Hs by (by left || done). done.
  - change (etcd_delete d (rev, c)) with (rev, (etcd_delete d (rev, c)).2).
    rewrite IH.
    + f_equal. apply map_eq. intros k. cbn [concat]. rewrite fmap_app, !lookup_erase_keys.
      destruct (decide (k ∈ kv_key <$> concat (txn_deletes c0 ops))) as [H1|H1].
      { by rewrite decide_True by set_solver. }
      destruct (decide (k ∈ kv_key <$> deletes_of c0 d)) as [H2|H2].
      { rewrite decide_True by set_solver.
        apply (selects_deletes_of _ rev0) in H2 as [Hs _]; [|done].
        rewrite lookup_insert_kvs_ne; [by rewrite lookup_etcd_delete, Hs|].
        rewrite (txn_put_kvs_keys _ rev0) by done. intros Hin.
        rewrite (Hdis k d Hin ltac:(by left)) in Hs. done. }
      rewrite decide_False by set_solver.
      apply insert_kvs_proper. intros _. rewrite lookup_etcd_delete. cbn [fst snd].
      destruct (selects d k) eqn:Hs; [|done].
      rewrite (selects_deletes_of _ rev0) in H2 by done.
      destruct (c0 !! k) eqn:E; [exfalso; apply H2; by split|].
      destruct (Hd k d ltac:(by left) Hs) as [->| ->]; by rewrite ?E.
    + split_and!; [done|done|]. intros k d' ? ?. apply Hdis; [done|by right].
    + intros k Hin. rewrite lookup_etcd_delete, (Hdis k d) by (done || by left). by apply Hp.
    + intros k d' Hin Hs. rewrite lookup_etcd_delete. case_match; [by right|].
      apply (Hd k d'); [by right|done].
Qed.

(** ** The second phase of a transaction *)
Definition txn_keys (txn : TxnResults) : list string :=
  (kv_key ∘ fst <$> txn.1) ++ (kv_key <$> concat txn.2).

Lemma commit_loop_effect (puts : list (KeyValue * KeyValue)) s :
  ∃ c', exec (for_each puts (λ kv, OnTryPutCache (kv_key kv.1) StatusOK ≫= λ _, mret tt)) s =
    set_ongoing (erase_keys (kv_key ∘ fst <$> puts) (ongoing_ s)) (set_cache c' s) ∧
  ∀ k, c' !! k =
    if decide (k ∈ kv_key ∘ fst <$> puts)
    then match ongoing_ s !! k with Some e => Some (og_kv e) | None => cache_ s !! k end
    else cache_ s !! k.
Proof.
  revert s. induction puts as [|p puts IH]; intros s.
  { exists (cache_ s). split; [by destruct s|]. intros k. by rewrite decide_False by set_solver. }
  cbn [for_each fmap list_fmap]. rewrite exec_bind.
  rewrite exec_bind, exec_ret. set (k0 := kv_key p.1).
  unfold exec at 2. change (kv_key (p.1)) with k0.
  destruct (ongoing_ s !! k0) as [e|] eqn:E.
  - rewrite (OnTryPutCache_ok _ _ _ E). cbn [fst snd].
    destruct (IH (set_ongoing (delete k0 (ongoing_ s)) (set_cache (<[k0:=og_kv e]> (cache_ s)) s)))
      as (c' & -> & Hc'). exists c'. split; [done|]. intros k. rewrite Hc'. cbn [ongoing_ cache_ set_ongoing set_cache].
    destruct (decide (k = k0)) as [->|Hne].
    + rewrite lookup_delete_eq, lookup_insert_eq, E.
      rewrite (decide_True (P:=k0 ∈ _ :: _)) by (unfold k0; simpl; set_solver). by case_decide.
    + rewrite lookup_delete_ne, lookup_insert_ne by done.
      destruct (decide (k ∈ _ <$> puts)) as [Hin|Hin].
      * by rewrite decide_True by (right; done).
      * rewrite decide_False; [done|]. intros [H|H]%elem_of_cons; [by apply Hne|done].
  - rewrite (OnTryPutCache_gone _ _ E). cbn [fst snd].
    destruct (IH s) as (c' & -> & Hc'). exists c'. split.
    + unfold erase_keys. cbn [foldl]. rewrite delete_id; [done|]. exact E.
    + intros k. rewrite Hc'. destruct (decide (k = k0)) as [->|Hne].
      * rewrite E. by repeat case_decide.
      * destruct (decide (k ∈ _ <$> puts)) as [Hin|Hin].
        -- by rewrite decide_True by (right; done).
        -- rewrite decide_False; [done|]. intros [H|H]%elem_of_cons; [by apply Hne|done].
Qed.

Lemma delete_loop_effect (dels : list (list KeyValue)) s :
  exec (for_each dels (λ kvs, OnTryDeleteRange kvs StatusOK ≫= λ _, mret tt)) s =
  set_ongoing (erase_keys (kv_key <$> concat dels) (ongoing_ s))
    (set_cache (erase_keys (kv_key <$> concat dels) (cache_ s)) s).
Proof.
  revert s. induction dels as [|kvs dels IH]; intros s; [by destruct s|].
  cbn [for_each concat]. rewrite !exec_bind, exec_ret, IH, exec_OnTryDeleteRange_ok.
  unfold erase_keys. by rewrite fmap_app, !foldl_app.
Qed.

Lemma erase_keys_app {A} ks ks' (m : gmap string A) :
  erase_keys (ks ++ ks') m = erase_keys ks' (erase_keys ks m).
Proof. apply foldl_app. Qed.

(** The last put of a key wins, both in flight and in the map. *)
Lemma put_entries_kvs (puts : list (KeyValue * KeyValue)) o c k :
  k ∈ kv_key ∘ fst <$> puts →
  ∃ e, insert_entries (put_entry <$> puts) o !! k = Some e ∧
       insert_kvs puts.*1 c !! k = Some (og_kv e).
Proof.
  induction puts as [|p puts IH] using rev_ind; [set_solver|].
  rewrite !fmap_app, insert_entries_app. unfold insert_kvs. rewrite foldl_app. simpl.
  intros Hk. destruct (decide (kv_key p.1 = k)) as [<-|Hne].
  { exists (put_entry p). by rewrite !lookup_insert_eq. }
  rewrite !lookup_insert_ne by done. apply IH. set_solver.
Qed.

(** An accepted transaction, both phases: all its puts, then all its deletes. *)
Lemma txn_commit_effect (txn : TxnResults) s :
  exec (OnTryTxn txn StatusOK)
    (set_ongoing (insert_entries (txn_entries txn) (ongoing_ s)) s) =
  set_ongoing (erase_keys (txn_keys txn) (ongoing_ s))
    (set_cache (erase_keys (kv_key <$> concat txn.2) (insert_kvs txn.1.*1 (cache_ s))) s).
Proof.
  unfold OnTryTxn. rewrite IsError_OK, exec_bind.
  set (s1 := set_ongoing _ s).
  destruct (commit_loop_effect txn.1 s1) as (c' & -> & Hc').
  rewrite exec_bind, exec_ret, delete_loop_effect.
  cbn [ongoing_ cache_ set_ongoing set_cache s1] in *. rewrite <- erase_keys_app.
  change (set_ongoing _ (set_cache ?x (set_ongoing _ (set_cache _ s1)))) with
    (set_ongoing (erase_keys (txn_keys txn) (insert_entries (txn_entries txn) (ongoing_ s)))
      (set_cache x s)).
  f_equal; [|f_equal].
  - apply map_eq. intros k. rewrite !lookup_erase_keys. case_decide as Hk; [done|].
    destruct (lookup_insert_entries (txn_entries txn) (ongoing_ s) k) as [(e & Hin & <- & _)|[_ Heq]];
      [|done]. exfalso. apply Hk. unfold txn_keys, txn_entries in *.
    apply elem_of_app in Hin as [(p & -> & Hp)%list_elem_of_fmap|(kv & -> & Hkv)%list_elem_of_fmap];
      apply elem_of_app; [left|right]; apply list_elem_of_fmap; eauto.
  - apply map_eq. intros k. rewrite !lookup_erase_keys. case_decide as Hk; [done|].
    rewrite Hc'. case_decide as Hp.
    + destruct (put_entries_kvs txn.1 (ongoing_ s) (cache_ s) k Hp) as (e & He & ->).
      unfold s1, txn_entries. cbn [ongoing_ set_ongoing]. rewrite insert_entries_app.
      destruct (lookup_insert_entries (delete_entry <$> concat txn.2)
        (insert_entries (put_entry <$> txn.1) (ongoing_ s)) k) as [(e' & Hin & <- & _)|[_ ->]].
      * exfalso. apply Hk. apply list_elem_of_fmap in Hin as (kv & -> & ?).
        apply list_elem_of_fmap. eauto.
      * by rewrite He.
    + symmetry. apply lookup_insert_kvs_ne. by rewrite <- list_fmap_compose.
Qed.

Lemma CheckTxnOngoingValid_idle s txn : ongoing_ s = ∅ → CheckTxnOngoingValid s txn = true.
Proof.
  intros Ho. unfold CheckTxnOngoingValid, CheckDeletesOngoingValid, CheckUniqueOngoingValid.
  rewrite Ho. apply andb_true_iff.
  split; apply forallb_forall; intros; [done|]. apply forallb_forall. intros. by rewrite lookup_empty.
Qed.

Section txn.
Context {PB : Protobuf} (kv_moved : KeyValue → KeyValue).

(** A transaction on an idle master that does not wait for the backup: what it
    leaves, and what it posts. *)
Lemma Master_AsyncTxn_effect from request payload s :
  kv_wf s → ongoing_ s = ∅ → parse (mq_requestmsg request) = Some payload →
  backupActor_ s && negb (mq_asyncbackup request) = false →
  let ops := chosen_ops s payload in
  let txn := (val (TryTxn kv_moved payload) s).1 in
  exec (Master_AsyncTxn kv_moved from request) s =
    set_cache (erase_keys (kv_key <$> concat (txn_deletes (cache_ s) ops))
                (insert_kvs (txn_put_kvs (cache_ s) (modRevision_ s) ops) (cache_ s)))
      (set_modRevision (modRevision_ s + put_count ops) s) ∧
  val (Master_AsyncTxn kv_moved from request) s = Ready StatusOK ∧
  ∃ os, outs (Master_AsyncTxn kv_moved from request) s =
    txn_attaches ops ++
    (if backupActor_ s then [BackupWriteTxn txn (mq_asyncbackup request)] else []) ++ os ++
    [Send from "OnTxn" (ser (mkResp (mq_requestid request)
       (ser (val (TryTxn kv_moved payload) s).2) 0 ""))] ∧ os = outs (OnTryTxn txn StatusOK)
      (set_ongoing (insert_entries (txn_entries txn) ∅) (set_modRevision (modRevision_ s + put_count ops) s)).
Proof.
  intros Hwf Ho Hparse Hw ops txn.
  destruct (TryTxn_effect kv_moved payload s) as (He & Hout & Hp & Hd).
  change (val (TryTxn kv_moved payload) s).1 with txn in Hp, Hd.
  change (chosen_ops s payload) with ops in He, Hout, Hp, Hd.
  unfold Master_AsyncTxn. rewrite Hparse.
  rewrite exec_bind, val_bind, outs_bind, He, Hout. fold txn.
  set (s1 := set_modRevision _ s).
  rewrite exec_bind, val_bind, outs_bind, val_members, exec_members, outs_members, app_nil_l.
  rewrite (CheckTxnOngoingValid_idle s1) by done. cbn [negb].
  rewrite exec_bind, val_bind, outs_bind, outs_InsertTxnOngoing, exec_InsertTxnOngoing, app_nil_l.
  rewrite exec_bind, val_bind, outs_bind, exec_when, exec_post, outs_when, outs_post.
  assert (Ho1 : ongoing_ s1 = ∅) by done.
  pose proof (txn_commit_effect txn s1) as Hc. rewrite Ho1, erase_keys_empty in Hc.
  change (backupActor_ s1) with (backupActor_ s). rewrite Hw, Ho1.
  set (s2 := set_ongoing (insert_entries _ _) s1) in *.
  replace (if backupActor_ s then s2 else s2) with s2 by by case_match.
  split_and!.
  - act_simpl. rewrite Hc, Hp, Hd. unfold set_ongoing, set_cache. simpl. by rewrite Ho.
  - done.
  - eexists _. split; [|reflexivity]. by do 2 f_equal.
Qed.
End txn.



(** ** The backup stream *)
Definition backup1 (c : gmap string KeyValue) (o : Out) : gmap string KeyValue :=
  match o with
  | BackupWritePut kv _ => <[kv_key kv := kv]> c
  | BackupWriteDeletes kvs _ => erase_keys (kv_key <$> kvs) c
  | BackupWriteTxn txn _ => erase_keys (kv_key <$> concat txn.2) (insert_kvs txn.1.*1 c)
  | _ => c
  end.
Definition backup_log (os : list Out) (c : gmap string KeyValue) : gmap string KeyValue :=
  foldl backup1 c os.

Definition not_backup (o : Out) : Prop :=
  match o with
  | BackupWritePut _ _ | BackupWriteDeletes _ _ | BackupWriteTxn _ _ => False
  | _ => True
  end.

Lemma backup_log_app os os' c : backup_log (os ++ os') c = backup_log os' (backup_log os c).
Proof. apply foldl_app. Qed.
Lemma backup_log_none os c : Forall not_backup os → backup_log os c = c.
Proof. intros H. revert c. induction H as [|o os Ho _ IH]; intros c; [done|]. by destruct o; try apply IH. Qed.

(** A master with a backup, and nothing in flight. *)
Definition settled (s : State) : Prop :=
  kv_wf s ∧ ongoing_ s = ∅ ∧ backupActor_ s = true.

(** A write posted to the backup is not waited for. *)
Definition asks_async (o : Out) : Prop :=
  match o with
  | BackupWritePut _ a | BackupWriteDeletes _ a | BackupWriteTxn _ a => a = true
  | _ => True
  end.
Lemma not_backup_async os : Forall not_backup os → Forall asks_async os.
Proof. intros H. eapply Forall_impl; [exact H|]. by intros []. Qed.

(** The action keeps the actor settled and posts what it did to the backup. *)
Definition logs {A} (m : K A) (s : State) : Prop :=
  ongoing_ (exec m s) = ∅ ∧ backupActor_ (exec m s) = true ∧
  cache_ (exec m s) = backup_log (outs m s) (cache_ s) ∧ Forall asks_async (outs m s).

Section backup.
Context {PB : Protobuf} (kv_moved : KeyValue → KeyValue).

(** Requests that do not wait for the backup. *)
Inductive async_request : K Future → Prop :=
  | areq_put from request :
      pr_asyncbackup request = true → async_request (AsyncPut from request)
  | areq_delete from request :
      mq_asyncbackup request = true → async_request (AsyncDelete from request)
  | areq_txn from request :
      mq_asyncbackup request = true → async_request (AsyncTxn kv_moved from request)
  | areq_get from request : async_request (AsyncGet from request).

Inductive async_step : Config → Config → Prop :=
  | astep_request m c : async_request m → async_step c (run_handler m c)
  | astep_revoke keys c : async_step c (run_act (OnRevoke keys) c).

Lemma logs_neutral {A} (m : K A) s :
  settled s → same_stores s (exec m s) → backupActor_ (exec m s) = true →
  Forall not_backup (outs m s) → logs m s.
Proof.
  intros (_ & Ho & _) (_ & Ho' & Hc) Hb Hq. split_and!; [by rewrite Ho'|done| |by apply not_backup_async].
  by rewrite backup_log_none, Hc.
Qed.

Lemma not_backup_commit key s : Forall not_backup (outs (OnTryPutCache key StatusOK) s).
Proof.
  unfold outs. destruct (ongoing_ s !! key) as [e|] eqn:E.
  - rewrite (OnTryPutCache_ok _ _ _ E). by repeat constructor.
  - rewrite (OnTryPutCache_gone _ _ E). constructor.
Qed.

Lemma not_backup_delete kvs s : Forall not_backup (outs (OnTryDeleteRange kvs StatusOK) s).
Proof. rewrite outs_OnTryDeleteRange_ok. case_match; by repeat constructor. Qed.

Lemma not_backup_OnTryTxn txn s : Forall not_backup (outs (OnTryTxn txn StatusOK) s).
Proof.
  unfold OnTryTxn. rewrite IsError_OK, !outs_bind, outs_ret, app_nil_r.
  apply Forall_app. split; apply for_each_outs; intros a s' _; rewrite outs_bind, outs_ret, app_nil_r;
    [apply not_backup_commit|apply not_backup_delete].
Qed.

Lemma logs_Master_AsyncPut from request s :
  settled s → pr_asyncbackup request = true → logs (Master_AsyncPut from request) s.
Proof.
  intros (Hwf & Ho & Hb) Ha.
  pose proof (CheckAndCreate_stores s) as (Hr1 & Ho1 & Hc1).
  assert (Hb1 : backupActor_ (exec CheckAndCreateWatchServiceActor s) = true).
  { unfold CheckAndCreateWatchServiceActor. act_simpl. by case_match. }
  assert (Hq1 : Forall not_backup (outs CheckAndCreateWatchServiceActor s)).
  { unfold CheckAndCreateWatchServiceActor. act_simpl. case_match; by repeat constructor. }
  unfold logs, Master_AsyncPut. rewrite exec_bind, outs_bind.
  set (s1 := exec CheckAndCreateWatchServiceActor s) in *.
  rewrite exec_bind, outs_bind, val_members, exec_members, outs_members, app_nil_l.
  unfold CheckUniqueOngoingValid. rewrite Ho1, Ho, lookup_empty, bool_decide_true by done.
  cbn [negb]. set (r := val (TryPutCache request) s1).
  rewrite !exec_bind, !outs_bind. fold r.
  rewrite !exec_when, !outs_when, Hb1, exec_post, Ha. cbn [negb andb].
  rewrite exec_InsertUniqueOngoing, exec_TryPutCache.
  set (s2 := set_ongoing _ _).
  assert (Hk : kv_key r.1.1 = pr_key request).
  { unfold r. rewrite val_TryPutCache_kv. cbn [fst].
    by rewrite (next_kv_key _ (modRevision_ s)) by (rewrite Hc1; apply Hwf). }
  assert (E : ongoing_ s2 !! pr_key request = Some (put_entry r.1)).
  { unfold s2. cbn [ongoing_ set_ongoing]. rewrite Hk. apply lookup_insert_eq. }
  clearbody r.
  act_simpl. unfold exec, outs. rewrite (OnTryPutCache_ok _ _ _ E).
  cbn [fst snd put_entry og_kv og_preKv].
  split_and!.
  - cbn. rewrite Hk. by rewrite Ho1, Ho, delete_insert_eq, delete_empty.
  - done.
  - cbn. rewrite !backup_log_app, (backup_log_none (CheckAndCreateWatchServiceActor s).2) by done.
    simpl. by rewrite Hk, Hc1.
  - apply Forall_app. split; [by apply not_backup_async|]. by repeat constructor.
Qed.

Lemma logs_Master_AsyncDelete from request s :
  settled s → mq_asyncbackup request = true → logs (Master_AsyncDelete from request) s.
Proof.
  intros Hs Ha. pose proof Hs as (Hwf & Ho & Hb). unfold Master_AsyncDelete.
  case_match; [|by apply logs_neutral].
  unfold logs. rewrite exec_bind, outs_bind, val_members, exec_members, outs_members, app_nil_l.
  rewrite TryDeleteRange_deletes. set (kvs := deletes_of _ _).
  assert (CheckDeletesOngoingValid s kvs = true) as ->.
  { unfold CheckDeletesOngoingValid. apply forallb_forall. intros. by rewrite Ho, lookup_empty. }
  cbn [negb]. rewrite !exec_bind, !outs_bind, !exec_when, !outs_when, Hb, exec_post, outs_post, Ha.
  cbn [negb andb]. rewrite exec_InsertDeleteOngoing, exec_bind, outs_bind.
  rewrite exec_OnTryDeleteRange_ok. act_simpl. split_and!.
  - simpl. rewrite Ho. apply map_eq. intros k. rewrite lookup_erase_keys, lookup_empty.
    case_decide as Hk; [done|].
    destruct (lookup_insert_entries (delete_entry <$> kvs) ∅ k) as [(e & Hin & <- & _)|[_ ->]]; [|done].
    apply list_elem_of_fmap in Hin as (kv & -> & ?). exfalso. apply Hk, list_elem_of_fmap. eauto.
  - done.
  - rewrite !backup_log_app. rewrite (backup_log_none (outs (OnTryDeleteRange _ _) _))
      by apply not_backup_delete.
    unfold InsertDeleteOngoing. rewrite outs_insert_loop. done.
  - unfold InsertDeleteOngoing. rewrite outs_insert_loop, app_nil_l. constructor; [done|].
    apply Forall_app. split; [apply not_backup_async, not_backup_delete|by repeat constructor].
Qed.

Lemma logs_Master_AsyncTxn from request s :
  settled s → mq_asyncbackup request = true → logs (Master_AsyncTxn kv_moved from request) s.
Proof.
  intros Hs Ha. pose proof Hs as (Hwf & Ho & Hb).
  destruct (parse (A:=TxnRequest) (mq_requestmsg request)) as [payload|] eqn:Hp.
  2: { unfold Master_AsyncTxn. rewrite Hp. by apply logs_neutral. }
  destruct (Master_AsyncTxn_effect kv_moved from request payload s Hwf Ho Hp) as
    (He & _ & os & Hout & Hos); [by rewrite Hb, Ha|].
  assert (Hat : Forall not_backup (txn_attaches (chosen_ops s payload))).
  { generalize (chosen_ops s payload). intros ops. induction ops as [|[] ops IH]; simpl; by try constructor. }
  assert (Hq : Forall not_backup os) by (rewrite Hos; apply not_backup_OnTryTxn).
  unfold logs. rewrite He, Hout, Hb. split_and!; [done|done| |].
  - rewrite !backup_log_app, (backup_log_none _ _ Hat), (backup_log_none _ _ Hq).
    destruct (TryTxn_effect kv_moved payload s) as (_ & _ & Hpu & Hd).
    simpl. by rewrite Hpu, Hd.
  - rewrite !Forall_app. split_and!; [by apply not_backup_async|by constructor|by apply not_backup_async|].
    by constructor.
Qed.

Lemma logs_OnRevoke keys s : settled s → logs (OnRevoke keys) s.
Proof.
  intros (Hwf & Ho & Hb). unfold logs, OnRevoke.
  destruct (RevokeLoop_effect (std_set_list keys) [] s (NoDup_std_set_list keys)) as (He & Hout & Hv).
  rewrite exec_bind, outs_bind, He, Hout, Hv, !app_nil_l.
  act_simpl. rewrite !Tauto.if_same, app_nil_l, app_nil_r.
  cbn [backupActor_ set_cache]. rewrite Hb. split_and!; [done|done| |].
  - rewrite backup_log_app.
    rewrite (backup_log_none (if negb _ then _ else _)) by (case_match; by repeat constructor).
    cbn. by apply (erase_keys_found _ _ (modRevision_ s)), Hwf.
  - apply Forall_app. split; [|by repeat constructor]. case_match; by repeat constructor.
Qed.

Lemma logs_async_request m s : async_request m → settled s → logs m s.
Proof.
  intros Hm Hs. destruct Hm as [from request Ha|from request Ha|from request Ha|from request];
    unfold AsyncPut, AsyncDelete, AsyncTxn, AsyncGet, by_role;
    unfold logs; rewrite exec_bind, outs_bind, val_members, exec_members, outs_members, app_nil_l;
    (destruct (curStatus_ s); [|by apply logs_neutral; try apply Hs]).
  - by apply logs_Master_AsyncPut.
  - by apply logs_Master_AsyncDelete.
  - by apply logs_Master_AsyncTxn.
  - unfold Master_AsyncGet. case_match; apply logs_neutral; try done; try apply Hs.
    by repeat constructor.
Qed.
End backup.

(** What a run of asynchronous requests keeps. *)
Lemma async_run_logs {PB : Protobuf} (kv_moved : KeyValue → KeyValue) needExplore c :
  rtc (async_step kv_moved) (initial true needExplore) c →
  settled (c_st c) ∧ cache_ (c_st c) = backup_log (c_outs c) ∅ ∧ Forall asks_async (c_outs c).
Proof.
  apply (rtc_ind_r (λ c, settled (c_st c) ∧ cache_ (c_st c) = backup_log (c_outs c) ∅ ∧
    Forall asks_async (c_outs c))).
  { split_and!; [split_and!; [apply kv_wf_init|done|done]|done|constructor]. }
  intros c1 c2 _ Hs (Hst & Hc & Ha).
  assert (Hwf2 : kv_wf (c_st c2)).
  { assert (step kv_moved c1 c2) as Hstep.
    { destruct Hs as [m c0 Hm|keys c0]; [|by constructor].
      constructor 1. destruct Hm; apply step_request; constructor. }
    destruct (step_micros kv_moved _ _ Hstep) as (os & Hm & _); [apply Hst|].
    eapply micros_wf; [done|apply Hst]. }
  assert (∃ A (m : K A), logs m (c_st c1) ∧ c_st c2 = exec m (c_st c1) ∧
    c_outs c2 = c_outs c1 ++ outs m (c_st c1)) as (A & m & (Ho & Hb & Hl & Ha') & E & ->).
  { destruct Hs as [m c0 Hm|keys c0]; eexists _, _; (split; [|split; reflexivity]).
    - by eapply logs_async_request.
    - by apply logs_OnRevoke. }
  rewrite E in *. split_and!; [done|by rewrite backup_log_app, Hl, Hc|by apply Forall_app].
Qed.

(** C8: with the asynchronous backup the backup stream is the cache. After any
    sequence of asynchronous puts, deletes, transactions, reads and expiring
    leases, replaying the writes posted to the backup actor, in their order,
    rebuilds the cache. *)
Theorem async_backup_is_cache {PB : Protobuf} (kv_moved : KeyValue → KeyValue)
    (needExplore : bool) (c : Config) :
  rtc (async_step kv_moved) (initial true needExplore) c →
  cache_ (c_st c) = backup_log (c_outs c) ∅.
Proof. intros H. by apply async_run_logs in H as (_ & ? & _). Qed.

Definition demo_async : Config :=
  run_act (OnRevoke {["b"]})
    (run_handler (AsyncTxn (PB:=demo_pb) demo_moved "cli" (mkReq "t" "txn" true))
      (initial true false)).

Lemma async_backup_is_cache_witness :
  cache_ (c_st demo_async) = backup_log (c_outs demo_async) ∅ ∧
  cache_ (c_st demo_async) !! "a" = Some (mkKV "a" 1 1 1 "1" 7).
Proof.
  split; [|by vm_compute].
  apply (async_backup_is_cache (PB:=demo_pb) demo_moved false). unfold demo_async.
  eapply rtc_l; [|eapply rtc_once, astep_revoke].
  apply astep_request. by constructor.
Defined.

(** ** Overlapping deletes

    [CheckDeletesOngoingValid] lets a delete overlap another delete of the same
    key. The second answer of the backup then forgets whatever is in flight
    for the key by that time. *)
Definition backup_answers (c : Config) : Config :=
  match c_backup c !! 0%nat with
  | Some k => run_backup 0 k StatusOK c
  | None => c
  end.
Definition overlap : Config :=
  let put value async := run_handler (AsyncPut (PB:=demo_pb) "cli" (demo_put "a" value async)) in
  let del := run_handler (AsyncDelete (PB:=demo_pb) "cli" (demo_del "a")) in
  backup_answers (backup_answers (put "new" false (backup_answers (del (del
    (put "old" true (initial true false))))))).

Lemma backup_answers_reachable {PB : Protobuf} kv_moved c :
  client_reachable kv_moved c → client_reachable kv_moved (backup_answers c).
Proof.
  intros (b & e & H). unfold backup_answers. case_match; [|by exists b, e].
  exists b, e. eapply rtc_r; [done|by apply step_backup].
Qed.

Lemma overlap_reachable : client_reachable (PB:=demo_pb) demo_moved overlap.
Proof.
  unfold overlap. do 2 apply backup_answers_reachable.
  apply request_reachable; [constructor|]. apply backup_answers_reachable.
  do 3 (apply request_reachable; [constructor|]). by exists true, false.
Qed.

(** A put acknowledged by the backup is lost from the cache, though the backup
    holds it, after two overlapping deletes. *)
Theorem overlapping_deletes_lose_put :
  ∃ c, client_reachable (PB:=demo_pb) demo_moved c ∧
    c_backup c = [] ∧ cache_ (c_st c) !! "a" = None ∧
    kv_value <$> backup_log (c_outs c) ∅ !! "a" = Some "new".
Proof. exists overlap. split; [apply overlap_reachable|by vm_compute]. Qed.
