(* ===== verification/KvQuery.v ===== *)
(** * Range queries, recovery and the storage below

    The reads of the key-value actor, and how its cache follows the storage
    the meta store backs itself up to: [Sync] after a restart, [KvSyncer] after
    a broken watch, and the events in between. *)

From S2P Require Import Prelude MetaTypes Leader KvService KvInvariant KvProps.
From stdpp Require Import base gmap strings list fin_maps sorting relations.
From Stdlib Require Import ZArith Lia.

Open Scope Z_scope.
Set Default Proof Using "Type".
Import Kv.

(** ** Ranges *)

(** The keys a range request asks for. *)
Definition range_selects (request : RangeRequest) (k : string) : bool :=
  if bool_decide (rr_range_end request = "") then bool_decide (k = rr_key request)
  else in_range (rr_key request) (rr_range_end request) k.

Definition range_hits (request : RangeRequest) (c : gmap string KeyValue) : gmap string KeyValue :=
  filter (λ p, range_selects request p.1 = true) c.

Lemma sort_less_total order target : Total (sorts_before (sort_less order target)).
Proof.
  intros a b. unfold sorts_before, sort_less.
  destruct target, order; rewrite ?Z.ltb_ge, ?str_lt_ge;
    first [lia | apply (total String.le) | by left].
Qed.
Lemma sort_less_trans order target : Transitive (sorts_before (sort_less order target)).
Proof.
  intros a b c. unfold sorts_before, sort_less.
  destruct target, order; rewrite ?Z.ltb_ge, ?str_lt_ge;
    first [lia | by intros; etrans | done].
Qed.

Lemma SortTarget_perm request l : SortTarget request l ≡ₚ l.
Proof. unfold SortTarget. destruct (rr_sort_target request); first [done|apply std_sort_perm]. Qed.
Lemma SortTarget_sorted request l :
  StronglySorted (sorts_before (sort_less (rr_sort_order request) (rr_sort_target request)))
    (SortTarget request l).
Proof.
  unfold SortTarget. destruct (rr_sort_target request);
    try (apply std_sort_sorted; [apply sort_less_total|apply sort_less_trans]).
  induction l; constructor; [done|]. by apply Forall_true.
Qed.

Lemma range_hits_list request c :
  (filter (λ p, range_selects request p.1 = true) (std_map_list c)) ≡ₚ
  map_to_list (range_hits request c).
Proof.
  apply NoDup_Permutation.
  - apply NoDup_filter. eapply NoDup_fmap_1, NoDup_std_map_list.
  - apply NoDup_map_to_list.
  - intros [k kv]. rewrite list_elem_of_filter, elem_of_std_map_list, elem_of_map_to_list.
    unfold range_hits. rewrite map_lookup_filter_Some. tauto.
Qed.

Lemma range_hits_point request c :
  rr_range_end request = "" →
  range_hits request c =
    match c !! rr_key request with Some kv => {[rr_key request := kv]} | None => ∅ end.
Proof.
  intros He. apply map_eq. intros k. apply option_eq. intros kv.
  unfold range_hits, range_selects. rewrite map_lookup_filter_Some, (bool_decide_true _ He).
  cbn [fst]. rewrite bool_decide_eq_true.
  destruct (c !! rr_key request) as [kv'|] eqn:E.
  - rewrite lookup_singleton_Some. naive_solver.
  - rewrite lookup_empty. naive_solver.
Qed.


Definition demo_cached : State :=
  c_st (run_handler (AsyncPut (PB:=demo_pb) "cli" (demo_put "b" "2" true))
    (run_handler (AsyncPut (PB:=demo_pb) "cli" (demo_put "a" "1" true)) (initial false false))).

Lemma demo_cached_wf : kv_wf demo_cached.
Proof.
  apply (client_reachable_wf (PB:=demo_pb) demo_moved). unfold demo_cached.
  do 2 (apply request_reachable; [constructor|]). apply initial_reachable.
Qed.


(** ** The contents of the storage below *)

(** The entry the backup actor writes for a key-value: the key with the
    prefix, the serialised key-value as the value. *)
Definition stored_as {PB : Protobuf} (e : KeyValue) (p : string * KeyValue) : Prop :=
  kv_key e = META_STORE_BACKUP_KV_PREFIX +:+ p.1 ∧ kv_value e = ser p.2.

(** [l] lists the entries of the map [m], in some order. *)
Definition lists_store {PB : Protobuf} (l : list KeyValue) (m : gmap string KeyValue) : Prop :=
  ∃ ps, Forall2 stored_as l ps ∧ ps ≡ₚ map_to_list m.

Definition max_revision (r : Z) (kvs : list KeyValue) : Z :=
  foldl Z.max r (kv_mod_revision <$> kvs).

Definition attach_of (kv : KeyValue) : list Out :=
  if bool_decide (kv_lease kv = 0) then [] else [LeaseAttach (kv_key kv) (kv_lease kv)].

Lemma max_revision_le r kvs R :
  r ≤ R → Forall (λ kv, kv_mod_revision kv ≤ R) kvs → max_revision r kvs ≤ R.
Proof.
  intros Hr H. revert r Hr. unfold max_revision.
  induction H as [|kv kvs Hkv _ IH]; intros r Hr; simpl; [done|]. apply IH. lia.
Qed.
Lemma max_revision_ge r kvs : r ≤ max_revision r kvs.
Proof.
  revert r. unfold max_revision. induction kvs as [|kv kvs IH]; intros r; simpl; [done|].
  etrans; [apply Z.le_max_l|apply IH].
Qed.
Lemma max_revision_elem r kvs kv : kv ∈ kvs → kv_mod_revision kv ≤ max_revision r kvs.
Proof.
  revert r. induction kvs as [|kv' kvs IH]; intros r; [by intros ?%elem_of_nil|].
  intros [<-|H]%elem_of_cons; [|by apply (IH (Z.max r _))].
  etrans; [apply (Z.le_max_r r)|apply (max_revision_ge (Z.max r _))].
Qed.

Lemma elem_of_attaches kvs k id :
  LeaseAttach k id ∈ concat (attach_of <$> kvs) ↔
  ∃ kv, kv ∈ kvs ∧ kv_key kv = k ∧ kv_lease kv = id ∧ id ≠ 0.
Proof.
  rewrite list_elem_of_In, in_concat. setoid_rewrite <- list_elem_of_In.
  setoid_rewrite list_elem_of_fmap. split.
  - intros (os & (kv & -> & Hkv) & Hin). exists kv. unfold attach_of in Hin.
    case_bool_decide; set_solver.
  - intros (kv & Hkv & <- & <- & Hne). exists (attach_of kv). split; [by exists kv|].
    unfold attach_of. rewrite bool_decide_false by done. by left.
Qed.

Section storage.
Context {PB : Protobuf} {KVok : CodecOk KeyValue}.

Lemma stored_key e p : stored_as e p → str_drop prefix_len (kv_key e) = p.1.
Proof. intros [-> _]. apply str_drop_app. Qed.
Lemma stored_value e p : stored_as e p → parse (kv_value e) = Some p.2.
Proof using KVok. intros [_ ->]. apply parse_ser. Qed.

Lemma raise_modRevision_max r s :
  exec (raise_modRevision r) s = set_modRevision (Z.max (modRevision_ s) r) s.
Proof.
  unfold raise_modRevision. act_simpl. destruct (Z.ltb_spec (modRevision_ s) r).
  - by rewrite Z.max_r by lia.
  - rewrite Z.max_l by lia. by destruct s.
Qed.

(** What a list of stored entries does to the cache and the revision. *)
Definition absorb (ps : list (string * KeyValue)) (s : State) : State :=
  set_modRevision (max_revision (modRevision_ s) ps.*2)
    (set_cache (insert_pairs ps (cache_ s)) s).

Lemma absorb_cons p ps s :
  absorb (p :: ps) s = absorb ps (set_modRevision (Z.max (modRevision_ s) (kv_mod_revision p.2))
    (set_cache (<[p.1 := p.2]> (cache_ s)) s)).
Proof. done. Qed.
Lemma absorb_nil s : absorb [] s = s.
Proof. by destruct s. Qed.

Lemma Sync_effect gr ps s :
  Forall2 stored_as (gr_kvs gr) ps →
  exec (Sync gr) s = absorb ps s ∧
  outs (Sync gr) s = concat (attach_of <$> ps.*2) ++
    (if needExplore_ s then [BackupWatch META_STORE_BACKUP_KV_PREFIX (gr_revision gr)] else []).
Proof using KVok.
  intros H. unfold Sync. rewrite exec_bind, outs_bind. act_simpl.
  rewrite Tauto.if_same, app_nil_r. set (loop := for_each _ _).
  assert (exec loop s = absorb ps s ∧ outs loop s = concat (attach_of <$> ps.*2)) as [-> ->]; [|done].
  unfold loop. clear loop. revert s.
  induction H as [|e p l ps Hep _ IH]; intros s; [by rewrite absorb_nil|].
  cbn [for_each]. rewrite exec_bind, outs_bind, (stored_value _ _ Hep), (stored_key _ _ Hep).
  rewrite !exec_bind, !outs_bind, raise_modRevision_max. act_simpl.
  rewrite !Tauto.if_same. rewrite absorb_cons. split; [apply IH|].
  rewrite !fmap_cons. cbn [concat]. unfold attach_of at 1.
  rewrite (proj2 (IH _)), app_nil_r. by case_bool_decide.
Qed.

(** ** Events applied by [KvSyncer] *)
Lemma synced_put_event e p r s :
  stored_as e p →
  exec (HandleKvPutEvent (mkWatchEvent EVENT_TYPE_PUT e) true r) s = absorb [p] s ∧
  outs (HandleKvPutEvent (mkWatchEvent EVENT_TYPE_PUT e) true r) s =
    WatchOnPut p.2 (default kv_empty (cache_ s !! p.1)) :: attach_of p.2.
Proof using KVok.
  intros He. unfold HandleKvPutEvent. cbn [we_kv].
  rewrite (stored_value _ _ He), (stored_key _ _ He).
  rewrite exec_bind, outs_bind, val_members, exec_members, outs_members, andb_false_r.
  rewrite !exec_bind, !outs_bind, raise_modRevision_max. act_simpl. rewrite !Tauto.if_same.
  split; [done|]. unfold attach_of. by case_bool_decide.
Qed.

(** The cache is keyed by the keys of its values. *)
Definition keys_ok (c : gmap string KeyValue) : Prop := map_Forall (λ k kv, kv_key kv = k) c.

(** The watch stream of the action is a log of what it does to the cache. *)
Definition mirrors {A} (m : K A) (s : State) : Prop :=
  keys_ok (cache_ (exec m s)) ∧ replay (outs m s) (cache_ s) = cache_ (exec m s).

Lemma mirrors_bind {A B} (m : K A) (f : A → K B) s :
  mirrors m s → mirrors (f (val m s)) (exec m s) → mirrors (m ≫= f) s.
Proof.
  intros [_ Hm] [Hk Hf]. split; rewrite exec_bind; [done|].
  by rewrite outs_bind, replay_app, Hm.
Qed.

Lemma mirrors_put_event e p r s :
  keys_ok (cache_ s) → kv_key p.2 = p.1 → stored_as e p →
  mirrors (HandleKvPutEvent (mkWatchEvent EVENT_TYPE_PUT e) true r) s.
Proof using KVok.
  intros Hk Hp He. destruct (synced_put_event e p r s He) as [E O]. unfold mirrors.
  rewrite E, O. split; [by apply map_Forall_insert_2|].
  cbn. rewrite Hp. apply replay_quiet. unfold attach_of. case_bool_decide; by repeat constructor.
Qed.

Lemma mirrors_delete_event e s kv :
  keys_ok (cache_ s) → cache_ s !! str_drop prefix_len (kv_key e) = Some kv →
  mirrors (HandleKvDeleteEvent (mkWatchEvent EVENT_TYPE_DELETE e)) s.
Proof.
  intros Hk Hkv. unfold mirrors, HandleKvDeleteEvent. act_simpl. cbn [we_kv].
  split; [by apply map_Forall_delete|]. simpl. rewrite Hkv. simpl. by rewrite (Hk _ _ Hkv).
Qed.

Definition event_body (r : Z) (event : WatchEvent) : K unit :=
  match we_type event with
  | EVENT_TYPE_PUT => HandleKvPutEvent event true r
  | EVENT_TYPE_DELETE => HandleKvDeleteEvent event
  end.

Lemma synced_puts l ps r s :
  Forall2 stored_as l ps → keys_ok (cache_ s) → Forall (λ p, kv_key p.2 = p.1) ps →
  let m := for_each (mkWatchEvent EVENT_TYPE_PUT <$> l) (event_body r) in
  exec m s = absorb ps s ∧ mirrors m s.
Proof using KVok.
  intros H. revert s. induction H as [|e p l ps He _ IH]; intros s Hk Hps m; unfold m.
  { by rewrite absorb_nil. }
  inversion_clear Hps as [|? ? Hp Hps'].
  pose proof (mirrors_put_event e p r s Hk Hp He) as Hm.
  destruct (synced_put_event e p r s He) as [E _].
  destruct (IH (absorb [p] s)) as [E' Hm']; [by rewrite <- E; apply Hm|done|].
  cbn [fmap list_fmap for_each event_body we_type]. split.
  - rewrite exec_bind. cbn [event_body we_type]. by rewrite E, E'.
  - apply mirrors_bind; [done|]. cbn [event_body we_type]. by rewrite E.
Qed.

Definition gone_event (p : string * KeyValue) : WatchEvent :=
  mkWatchEvent EVENT_TYPE_DELETE
    (mkKV (META_STORE_BACKUP_KV_PREFIX +:+ p.1) 0 0 0 (ser p.2) 0).

Lemma synced_deletes qs r s :
  NoDup qs.*1 → (∀ k, k ∈ qs.*1 → is_Some (cache_ s !! k)) → keys_ok (cache_ s) →
  let m := for_each (gone_event <$> qs) (event_body r) in
  exec m s = set_cache (erase_keys qs.*1 (cache_ s)) s ∧ mirrors m s.
Proof.
  revert s. induction qs as [|q qs IH]; intros s Hnd Hin Hk m; unfold m; [by destruct s|].
  rewrite fmap_cons in Hnd, Hin. apply NoDup_cons in Hnd as [Hq Hnd].
  destruct (Hin q.1) as [kv Hkv]; [left|].
  assert (Hd : str_drop prefix_len (META_STORE_BACKUP_KV_PREFIX +:+ q.1) = q.1)
    by apply str_drop_app.
  assert (Hm : mirrors (event_body r (gone_event q)) s).
  { eapply mirrors_delete_event; [done|]. cbn [gone_event we_kv kv_key]. by rewrite Hd. }
  assert (E : exec (event_body r (gone_event q)) s = set_cache (delete q.1 (cache_ s)) s).
  { unfold event_body, HandleKvDeleteEvent, gone_event. cbn [we_type we_kv kv_key].
    rewrite Hd. by act_simpl. }
  destruct (IH (set_cache (delete q.1 (cache_ s)) s)) as [E' Hm']; [done| |by rewrite <- E; apply Hm|].
  { intros k Hk'. cbn [cache_ set_cache]. rewrite lookup_delete_ne by (by intros <-). apply Hin. by right. }
  cbn [fmap list_fmap for_each]. split.
  - by rewrite exec_bind, E, E'.
  - apply mirrors_bind; [done|]. by rewrite E.
Qed.
End storage.

(** Forget the order of a listing. *)
Lemma lists_store_Forall {PB : Protobuf} (P : string → KeyValue → Prop) ps m :
  ps ≡ₚ map_to_list m → map_Forall P m → Forall (λ p, P p.1 p.2) ps.
Proof.
  intros Hps Hm. rewrite Hps. apply Forall_forall. intros [k kv] Hin%elem_of_map_to_list.
  by apply Hm.
Qed.

Lemma Sync_restores {PB : Protobuf} {KVok : CodecOk KeyValue} explore gr ps m rev :
  Forall2 stored_as (gr_kvs gr) ps → ps ≡ₚ map_to_list m → 0 ≤ rev → map_Forall (kv_ok rev) m →
  let s' := absorb ps (init true explore) in
  exec (Sync gr) (init true explore) = s' ∧ cache_ s' = m ∧ kv_wf s' ∧ modRevision_ s' ≤ rev.
Proof using All.
  intros Hl Hps Hrev Hm s'. unfold s'. destruct (Sync_effect gr ps (init true explore) Hl) as [-> _].
  pose proof (lists_store_Forall _ _ _ Hps Hm) as Hall.
  assert (Hc : cache_ (absorb ps (init true explore)) = m).
  { cbn. rewrite (insert_pairs_map _ _ _ Hps). by rewrite (right_id_L ∅ (∪)). }
  split_and!; [done|done|split|].
  - apply max_revision_ge.
  - rewrite Hc. intros k kv Hk. destruct (Hm k kv Hk) as (? & ? & [? ?] & _).
    assert (kv ∈ ps.*2) as Hin.
    { rewrite Hps. apply list_elem_of_fmap. exists (k, kv). by rewrite elem_of_map_to_list. }
    pose proof (max_revision_elem 0 _ _ Hin). by split_and!.
  - apply map_Forall_empty.
  - apply max_revision_le; [done|]. apply Forall_fmap. eapply Forall_impl; [done|].
    by intros p (_ & _ & _ & ?).
Qed.

(** C10: recovery restores what was backed up. If the storage lists the
    entries of a well-formed cache [m], [Sync] of a fresh actor ends with the
    cache [m], a revision not above the one it had, every invariant of the
    actor, and one [Attach] for each key with a lease and for no other. *)
Theorem sync_recovers {PB : Protobuf} (needExplore : bool) (gr : GetResponse)
    (m : gmap string KeyValue) (rev : Z) :
  CodecOk KeyValue → lists_store (gr_kvs gr) m → 0 ≤ rev → map_Forall (kv_ok rev) m →
  let s := init true needExplore in
  let s' := exec (Sync gr) s in
  cache_ s' = m ∧ kv_wf s' ∧ modRevision_ s' ≤ rev ∧
  ∀ k id, LeaseAttach k id ∈ outs (Sync gr) s ↔
    ∃ kv, m !! k = Some kv ∧ kv_lease kv = id ∧ id ≠ 0.
Proof.
  intros Hok (ps & Hl & Hps) Hrev Hm s s'. unfold s', s.
  destruct (Sync_restores needExplore gr ps m rev Hl Hps Hrev Hm) as (-> & Hc & Hwf & Hr).
  destruct (Sync_effect gr ps (init true needExplore) Hl) as [_ ->].
  split_and!; [done..|]. intros k id. rewrite elem_of_app, elem_of_attaches. split.
  - intros [(kv & Hkv & Hk & Hid & Hne)|Hin']; [|case_match; set_solver].
    exists kv. split; [|done]. rewrite Hps in Hkv.
    apply list_elem_of_fmap in Hkv as ([k' ?] & -> & Hkv%elem_of_map_to_list).
    destruct (Hm _ _ Hkv) as [E _]. simpl in *. by rewrite E in Hk; subst.
  - intros (kv & Hk & Hid & Hne). left. exists kv. split_and!; try done.
    + rewrite Hps. apply list_elem_of_fmap. exists (k, kv). by rewrite elem_of_map_to_list.
    + by destruct (Hm _ _ Hk).
Qed.

(** The keys of a listing, and the local keys it lacks. *)
Lemma stored_keys {PB : Protobuf} l ps :
  Forall2 stored_as l ps → (λ kv, str_drop prefix_len (kv_key kv)) <$> l = ps.*1.
Proof.
  induction 1 as [|e p l ps He _ IH]; [done|]. by rewrite !fmap_cons, (stored_key _ _ He), IH.
Qed.

Definition local_only (c : gmap string KeyValue) (ks : list string) : list (string * KeyValue) :=
  filter (λ p, p.1 ∉ ks) (std_map_list c).

Lemma elem_of_local_only c ks k :
  k ∈ (local_only c ks).*1 ↔ k ∉ ks ∧ is_Some (c !! k).
Proof.
  unfold local_only. rewrite list_elem_of_fmap. split.
  - intros ([k' kv] & -> & [Hn Hkv%elem_of_std_map_list]%list_elem_of_filter).
    split; [done|by eexists].
  - intros [Hn [kv Hkv]]. exists (k, kv). split; [done|].
    by apply list_elem_of_filter; split; [|apply elem_of_std_map_list].
Qed.
Lemma NoDup_local_only c ks : NoDup (local_only c ks).*1.
Proof.
  apply (sublist_NoDup _ (std_map_list c).*1); [apply NoDup_std_map_list|].
  apply fmap_sublist, sublist_filter.
Qed.

Lemma KvSyncer_effect {PB : Protobuf} {KVok : CodecOk KeyValue} gr ps s :
  Forall2 stored_as (gr_kvs gr) ps → ps ≠ [] → IsError (gr_status gr) = false →
  Forall (λ p, kv_key p.2 = p.1) ps → keys_ok (cache_ s) →
  exec (KvSyncer (Some gr)) s =
    set_cache (erase_keys (local_only (cache_ s) ps.*1).*1 (insert_pairs ps (cache_ s))) (absorb ps s) ∧
  mirrors (KvSyncer (Some gr)) s.
Proof.
  intros Hl Hne Hst Hps Hk. unfold KvSyncer. rewrite Hst.
  destruct (gr_kvs gr) as [|e l] eqn:El; [by apply Forall2_nil_inv_l in Hl|].
  rewrite <- El in *. clear El. rewrite (stored_keys _ _ Hl).
  unfold mirrors. rewrite exec_bind, outs_bind, val_members, exec_members, outs_members, app_nil_l.
  fold (local_only (cache_ s) ps.*1). set (qs := local_only _ _).
  rewrite exec_bind, outs_bind, exec_ret, outs_ret, app_nil_r.
  unfold HandleKvEvents. rewrite exec_bind, outs_bind, val_members, exec_members, outs_members, app_nil_l.
  lazymatch goal with |- context [for_each _ ?b] =>
    change b with (event_body (to_uint32 (modRevision_ s))) end.
  rewrite exec_for_each_app, outs_for_each_app, replay_app.
  destruct (synced_puts _ _ (to_uint32 (modRevision_ s)) s Hl Hk Hps) as [E [Hk' Hr]].
  rewrite Hr. rewrite E in *.
  destruct (synced_deletes qs (to_uint32 (modRevision_ s)) (absorb ps s)) as [E' [Hk'' Hr']];
    [apply NoDup_local_only| |done|].
  - intros k [Hn [kv Hkv]]%elem_of_local_only. exists kv. cbn.
    by rewrite lookup_insert_pairs_ne.
  - exact (conj E' (conj Hk'' Hr')).
Qed.

(** [KvSyncer] makes the cache equal to the storage. Given a successful,
    non-empty listing of [m], the cache becomes [m] whatever it was before and
    whatever is in flight, the local keys the storage lacks included; a
    watcher that follows the stream of events ends with the same map. *)
Theorem kv_syncer_converges {PB : Protobuf} (s : State) (gr : GetResponse)
    (m : gmap string KeyValue) :
  CodecOk KeyValue → lists_store (gr_kvs gr) m → m ≠ ∅ → IsError (gr_status gr) = false →
  keys_ok m → keys_ok (cache_ s) →
  let s' := exec (KvSyncer (Some gr)) s in
  cache_ s' = m ∧ ongoing_ s' = ongoing_ s ∧ modRevision_ s ≤ modRevision_ s' ∧
  replay (outs (KvSyncer (Some gr)) s) (cache_ s) = m.
Proof.
  intros Hok (ps & Hl & Hps) Hne Hst Hkm Hks s'. unfold s'.
  destruct (KvSyncer_effect gr ps s) as [E [_ Hr]]; try done.
  { intros ->. by apply Hne, map_to_list_empty_iff, Permutation_nil. }
  { by apply (lists_store_Forall (λ k kv, kv_key kv = k) ps m). }
  rewrite Hr, E. cbn [cache_ set_cache ongoing_ modRevision_ absorb set_modRevision].
  rewrite (erase_others _ _ _ _ Hps) by apply elem_of_local_only.
  split_and!; [done|done| |done].
  apply max_revision_ge.
Qed.

(** A concrete storage: the entries of a small map. *)
Definition demo_map : gmap string KeyValue :=
  list_to_map [("a", mkKV "a" 1 4 2 "x" 9); ("b", mkKV "b" 2 2 1 "y" 0)].
Definition demo_entry (p : string * KeyValue) : KeyValue :=
  mkKV (META_STORE_BACKUP_KV_PREFIX +:+ p.1) 5 5 1 (ser (Codec:=@pb_kv demo_pb) p.2) 0.
Definition demo_listing : GetResponse :=
  mkGetResp StatusOK 5 (demo_entry <$> map_to_list demo_map).

Lemma demo_codec_ok : CodecOk KeyValue (C:=@pb_kv demo_pb).
Proof. exact (countable_codec_ok KeyValue). Qed.
Lemma demo_lists : lists_store (PB:=demo_pb) (gr_kvs demo_listing) demo_map.
Proof.
  exists (map_to_list demo_map). split; [|done]. apply Forall2_fmap_l.
  by apply Forall_Forall2_diag, Forall_true.
Qed.
Lemma demo_map_ok : map_Forall (kv_ok 4) demo_map.
Proof.
  unfold demo_map. simpl. repeat apply map_Forall_insert_2; [..|apply map_Forall_empty];
    unfold kv_ok; simpl; split_and!; (done || lia).
Qed.

Lemma sync_recovers_witness :
  let s' := exec (Sync (PB:=demo_pb) demo_listing) (init true true) in
  cache_ s' = demo_map ∧ kv_wf s' ∧ modRevision_ s' = 4.
Proof.
  destruct (sync_recovers (PB:=demo_pb) true demo_listing demo_map 4
    demo_codec_ok demo_lists ltac:(lia) demo_map_ok) as (H1 & H2 & _).
  split_and!; [exact H1|exact H2|by vm_compute].
Defined.

(** The local key ["c"] is in the cache and in flight; the storage lacks it. *)
Definition demo_local : State :=
  c_st (run_handler (AsyncPut (PB:=demo_pb) "cli" (demo_put "b" "2" false))
    (run_handler (AsyncPut (PB:=demo_pb) "cli" (demo_put "c" "1" true)) (initial true false))).

Lemma demo_local_wf : kv_wf demo_local.
Proof.
  apply (client_reachable_wf (PB:=demo_pb) demo_moved). unfold demo_local.
  do 2 (apply request_reachable; [constructor|]). apply initial_reachable.
Qed.
Lemma wf_keys_ok rev c : map_Forall (kv_ok rev) c → keys_ok c.
Proof. intros H k kv Hk. by destruct (H k kv Hk). Qed.

Lemma kv_syncer_converges_witness :
  let s' := exec (KvSyncer (PB:=demo_pb) (Some demo_listing)) demo_local in
  cache_ s' = demo_map ∧ is_Some (cache_ demo_local !! "c") ∧ is_Some (ongoing_ demo_local !! "b").
Proof.
  split_and!; [|by vm_compute; eexists..].
  apply (kv_syncer_converges (PB:=demo_pb) demo_local demo_listing demo_map
    demo_codec_ok demo_lists); [by vm_compute|done|..].
  - eapply wf_keys_ok, demo_map_ok.
  - eapply wf_keys_ok, demo_local_wf.
Defined.

(** ** Events that arrive late *)

(** An event of the storage that the master has already overtaken: nothing is
    in flight for its key, and the cache holds the same value, a newer one, or
    none at all although the revision has passed. *)
Definition overtaken {PB : Protobuf} (s : State) (event : WatchEvent) (p : string * KeyValue) : Prop :=
  we_type event = EVENT_TYPE_PUT ∧ stored_as (we_kv event) p ∧
  ongoing_ s !! p.1 = None ∧ kv_mod_revision p.2 ≤ modRevision_ s ∧
  ∀ ckv, cache_ s !! p.1 = Some ckv → ckv = p.2 ∨ kv_mod_revision p.2 < kv_mod_revision ckv.

(** The write that repairs the storage. *)
Definition repair (s : State) (p : string * KeyValue) : list Out :=
  match cache_ s !! p.1 with
  | Some ckv => if bool_decide (ckv = p.2) then [] else [BackupWritePut ckv true]
  | None => [BackupWriteDeletes [p.2] true]
  end.

Lemma overtaken_event {PB : Protobuf} {KVok : CodecOk KeyValue} s event p :
  curStatus_ s = MASTER_BUSINESS → backupActor_ s = true → overtaken s event p →
  exec (HandleKvPutEvent event false (modRevision_ s)) s = s ∧
  outs (HandleKvPutEvent event false (modRevision_ s)) s = repair s p.
Proof.
  intros Hm Hb (_ & Hst & Hidle & Hle & Hc). unfold HandleKvPutEvent, repair.
  rewrite (stored_value _ _ Hst), (stored_key _ _ Hst).
  rewrite exec_bind, outs_bind, val_members, exec_members, outs_members, app_nil_l.
  rewrite (bool_decide_true _ Hm), (bool_decide_true _ Hidle), Hb.
  rewrite (proj2 (Z.leb_le _ _) Hle). cbn [andb negb].
  destruct (cache_ s !! p.1) as [ckv|] eqn:E; [|done].
  destruct (decide (ckv = p.2)) as [->|Hne]; [by rewrite !bool_decide_true|].
  destruct (Hc ckv eq_refl) as [?|Hlt]; [done|].
  assert (Hser : ser ckv ≠ ser p.2) by (intros ?; by apply Hne, (ser_inj (A:=KeyValue))).
  rewrite (bool_decide_false _ Hser), (bool_decide_false _ Hne).
  rewrite andb_true_r, (proj2 (Z.ltb_lt _ _) Hlt). done.
Qed.

(** A master ignores events it has overtaken, as long as its revision
    fits the 32 bits it is passed through: cache, revision and watchers stay
    as they are, and exactly the stale entries are repaired in the storage. *)
Theorem overtaken_events_ignored {PB : Protobuf} (s : State)
    (events : list WatchEvent) (ps : list (string * KeyValue)) :
  CodecOk KeyValue → curStatus_ s = MASTER_BUSINESS → backupActor_ s = true →
  0 ≤ modRevision_ s < 2 ^ 32 → Forall2 (overtaken s) events ps →
  exec (HandleKvEvents events false) s = s ∧
  outs (HandleKvEvents events false) s = concat (repair s <$> ps).
Proof.
  intros Hok Hm Hb Hrev H. unfold HandleKvEvents.
  rewrite exec_bind, outs_bind, val_members, exec_members, outs_members, app_nil_l.
  rewrite to_uint32_small by done.
  induction H as [|event p events ps He _ [IHe IHo]]; [done|].
  destruct (overtaken_event s event p Hm Hb He) as [E O]. destruct He as [Ht _].
  cbn [for_each]. rewrite exec_bind, outs_bind, Ht, E, O, IHe, IHo. done.
Qed.

Definition demo_late (value : string) (rev : Z) : WatchEvent :=
  mkWatchEvent EVENT_TYPE_PUT (demo_entry ("a", mkKV "a" 1 rev 1 value 9)).

Lemma overtaken_events_ignored_witness :
  let s := exec (Sync (PB:=demo_pb) demo_listing) (init true false) in
  exec (HandleKvEvents (PB:=demo_pb) [demo_late "old" 1] false) s = s ∧
  outs (HandleKvEvents (PB:=demo_pb) [demo_late "old" 1] false) s =
    [BackupWritePut (mkKV "a" 1 4 2 "x" 9) true].
Proof.
  apply (overtaken_events_ignored (PB:=demo_pb)
    (exec (Sync (PB:=demo_pb) demo_listing) (init true false)) [demo_late "old" 1]
    [("a", mkKV "a" 1 1 1 "old" 9)] demo_codec_ok); try done.
  constructor; [|constructor]. split; [done|]. split; [done|]. split; [done|].
  split; [by vm_compute|]. intros ckv. vm_compute. intros [= <-]. by right.
Defined.

(** Without the bound the theorem fails: at revision [2^32] the parameter is
    zero, and an event from revision one overwrites the newer value. *)
Theorem late_event_overwrites :
  let kv := mkKV "a" 1 (2 ^ 32) 2 "new" 0 in
  let s := exec (Sync (PB:=demo_pb) (mkGetResp StatusOK 5 [demo_entry ("a", kv)])) (init true false) in
  let s' := exec (HandleKvEvents (PB:=demo_pb) [demo_late "old" 1] false) s in
  kv_value <$> cache_ s !! "a" = Some "new" ∧ kv_value <$> cache_ s' !! "a" = Some "old" ∧
  modRevision_ s' = 2 ^ 32.
Proof. by vm_compute. Qed.
