(* ===== verification/LeaseService.v ===== *)
(** * The lease actor

    [meta_store/server/src/lease_service_actor.cpp]: granting, refreshing,
    revoking and expiring leases, their recovery, and the events of the storage
    below.  A handler that reads the system clock takes the time as [now], in
    milliseconds: the clock stands still while one message is handled. *)

From S2P Require Import Prelude StdStrings MetaTypes Leader.
From stdpp Require Import base gmap strings list fin_maps.
From Stdlib Require Import ZArith Lia.

Open Scope Z_scope.
Set Default Proof Using "Type".

(** The protobuf functions the actor calls.  Where the source ignores the
    result of [ParseFromString], the parameter is what the message holds
    afterwards, whether or not the parse succeeded. *)
Class LeaseProtobuf := {
  lp_lease :: Codec Lease;
  lp_request : string → MetaStoreRequest;
  lp_grant : string → LeaseGrantRequest;
  lp_id : string → LeaseIdRequest;
  lp_response : LeaseResponse → string;
  lp_reply : MetaStoreResponse → string;
}.

Module LeaseSvc.

(** ** Members *)
Record State := mkState {
  leases_ : gmap Z Lease;
  index_ : Z;
  running_ : bool;
  backupActor_ : bool;  (* [backupActor_.OK()] *)
  needExplore_ : bool;
  curStatus_ : Business;
  healthyStatus_ : Status;
}.
Definition set_leases (l : gmap Z Lease) (s : State) : State :=
  mkState l (index_ s) (running_ s) (backupActor_ s) (needExplore_ s) (curStatus_ s)
    (healthyStatus_ s).
Definition set_index (i : Z) (s : State) : State :=
  mkState (leases_ s) i (running_ s) (backupActor_ s) (needExplore_ s) (curStatus_ s)
    (healthyStatus_ s).
Definition set_running (b : bool) (s : State) : State :=
  mkState (leases_ s) (index_ s) b (backupActor_ s) (needExplore_ s) (curStatus_ s)
    (healthyStatus_ s).
Definition set_curStatus (b : Business) (s : State) : State :=
  mkState (leases_ s) (index_ s) (running_ s) (backupActor_ s) (needExplore_ s) b
    (healthyStatus_ s).
Definition set_healthy (st : Status) (s : State) : State :=
  mkState (leases_ s) (index_ s) (running_ s) (backupActor_ s) (needExplore_ s) (curStatus_ s)
    st.

(** The members after construction at [time(nullptr)] and [InitExplorer]. *)
Definition init (time : Z) (backup needExplore : bool) : State :=
  let explore := backup && needExplore in
  mkState ∅ time false backup explore
    (if explore then SLAVE_BUSINESS else MASTER_BUSINESS) StatusOK.

(** ** Messages posted by the handlers *)
Inductive Out :=
  | KvOnRevoke (items : gset string)
  | BackupPut (key value : string)
  | BackupDelete (key : string)
  | BackupGet (prefix : string)
  | BackupWatch (prefix : string) (revision : Z)
  | AsyncCheckpoint                        (* [litebus::Async] to itself *)
  | AfterCheckpoint (milliseconds : Z)     (* [litebus::AsyncAfter] to itself *)
  | Send (to : AID) (name : string) (msg : string).

Abbreviation L := (Act State Out).

(** ** Time *)
Definition LEASE_WAIT_TIME_MS : Z := 500.
Definition MILLISECONDS_PRE_SECOND : Z := 1000.

(** [ttl * MILLISECONDS_PRE_SECOND] on [int64_t]. *)
Definition ttl_ms (ttl : Z) : Z := wrap64 (ttl * MILLISECONDS_PRE_SECOND).
(** The guard in front of every new expiry, and the expiry. *)
Definition out_of_range (now ttl : Z) : bool := INT64_MAX - now <? ttl_ms ttl.
Definition expiry_at (now ttl : Z) : Z := wrap64 (now + ttl_ms ttl).

Definition with_expiry (e : Z) (l : Lease) : Lease := mkLease (ls_id l) (ls_ttl l) e (ls_items l).
(** The branch of [Sync], [HandleLeaseEvents] and [UpdateLeaseExpire]. *)
Definition renew (now : Z) (l : Lease) : Lease :=
  with_expiry (if out_of_range now (ls_ttl l) then 0 else expiry_at now (ls_ttl l)) l.

Definition lease_key (id : Z) : string := META_STORE_BACKUP_LEASE_PREFIX +:+ to_string id.
Definition lease_header : LeaseHeader :=
  mkLeaseHeader META_STORE_CLUSTER_ID META_STORE_MEMBER_ID META_STORE_REVISION META_STORE_RAFT_TERM.

(** The loop over [items] that builds a [std::set]. *)
Definition item_set (l : Lease) : gset string := list_to_set (ls_items l).

Section handlers.
Context {LP : LeaseProtobuf}.

(** ** Expiry *)

(** One iteration of the loop: [leases_] is an unordered map, so the order of
    the iterations is left open; [map_to_list] is one order. *)
Definition CheckpointLease (now : Z) (p : Z * Lease) : L unit :=
  if now <=? ls_expiry p.2 then mret tt
  else
    post (KvOnRevoke (item_set p.2)) ≫= λ _,
    post (BackupDelete (lease_key (ls_id p.2))) ≫= λ _,
    modify (λ s, set_leases (delete p.1 (leases_ s)) s).

Definition CheckpointScheduledLeases (now : Z) : L unit :=
  s ← members;
  if negb (running_ s) then mret tt
  else if bool_decide (curStatus_ s = SLAVE_BUSINESS) then mret tt
  else
    for_each (map_to_list (leases_ s)) (CheckpointLease now) ≫= λ _,
    post (AfterCheckpoint LEASE_WAIT_TIME_MS).

Definition UpdateLeaseExpire (now : Z) : L unit :=
  modify (λ s, set_leases (renew now <$> leases_ s) s).

(** ** Role *)
Definition OnChange (now : Z) (b : Business) : L unit :=
  match b with
  | MASTER_BUSINESS => UpdateLeaseExpire now ≫= λ _, CheckpointScheduledLeases now
  | SLAVE_BUSINESS => mret tt
  end.

Definition UpdateLeaderInfo (now : Z) (curUrl leaderAddress : string) : L bool :=
  s ← members;
  if negb (needExplore_ s) then mret true
  else
    match GetStatus curUrl leaderAddress (curStatus_ s) with
    | None => mret false
    | Some newStatus =>
        modify (set_curStatus newStatus) ≫= λ _,
        OnChange now newStatus ≫= λ _,
        mret true
    end.

(** ** Start and recovery *)
Definition Start : L Status :=
  s ← members;
  if negb (backupActor_ s) then
    modify (set_running true) ≫= λ _,
    post AsyncCheckpoint ≫= λ _,
    mret StatusOK
  else
    post (BackupGet META_STORE_BACKUP_LEASE_PREFIX) ≫= λ _,
    mret StatusOK.

Definition Stop : L Status := modify (set_running false) ≫= λ _, mret StatusOK.

Definition OnHealthyStatus (status : Status) : L unit := modify (set_healthy status).

Definition put_lease (l : Lease) : L unit :=
  modify (λ s, set_leases (<[ls_id l := l]> (leases_ s)) s).

Definition Sync (now : Z) (getResponse : GetResponse) : L bool :=
  for_each (gr_kvs getResponse) (λ item,
    match parse (kv_value item) : option Lease with
    | None => mret tt
    | Some lease => put_lease (renew now lease)
    end) ≫= λ _,
  modify (set_running true) ≫= λ _,
  post AsyncCheckpoint ≫= λ _,
  s ← members;
  act_when (needExplore_ s)
    (post (BackupWatch META_STORE_BACKUP_LEASE_PREFIX (gr_revision getResponse))) ≫= λ _,
  mret true.

(** ** Events of the storage below *)
Definition HandleLeaseEvent (now : Z) (event : WatchEvent) : L unit :=
  match we_type event with
  | EVENT_TYPE_PUT =>
      match parse (kv_value (we_kv event)) : option Lease with
      | None => mret tt
      | Some lease => put_lease (renew now lease)
      end
  | EVENT_TYPE_DELETE =>
      match substr (String.length META_STORE_BACKUP_LEASE_PREFIX) (kv_key (we_kv event)) ≫= stoll with
      | None => mret tt
      | Some leaseID =>
          s ← members;
          if bool_decide (leases_ s !! leaseID = None) then mret tt
          else modify (λ s, set_leases (delete leaseID (leases_ s)) s)
      end
  end.

Definition HandleLeaseEvents (now : Z) (events : list WatchEvent) (synced : bool) : L unit :=
  s ← members;
  if bool_decide (curStatus_ s = MASTER_BUSINESS) && negb synced then mret tt
  else for_each events (HandleLeaseEvent now).

(** [None] is the null response, which the code dereferences. *)
Definition LeaseSyncer (now : Z) (getResponse : option GetResponse) : L (option Status) :=
  match getResponse with
  | None => mret None
  | Some gr =>
      if IsError (gr_status gr) then mret (Some (gr_status gr))
      else match gr_kvs gr with
      | [] => mret (Some StatusOK)
      | kvs =>
          let remoteKeys :=
            (λ kv, str_drop (String.length META_STORE_BACKUP_LEASE_PREFIX) (kv_key kv)) <$> kvs in
          s ← members;
          let local := filter (λ p, to_string p.1 ∉ remoteKeys) (map_to_list (leases_ s)) in
          let events :=
            (mkWatchEvent EVENT_TYPE_PUT <$> kvs) ++
            ((λ p, mkWatchEvent EVENT_TYPE_DELETE
                     (mkKV (lease_key p.1) 0 0 0 (ser p.2) 0)) <$> local) in
          HandleLeaseEvents now events true ≫= λ _,
          mret (Some StatusOK)
      end
  end.

(** ** Attaching keys *)
Definition Attach (item : string) (leaseID : Z) : L Status :=
  s ← members;
  match leases_ s !! leaseID with
  | None => mret (mkStatus FAILED "lease not found")
  | Some l =>
      modify (λ s, set_leases
        (<[leaseID := mkLease (ls_id l) (ls_ttl l) (ls_expiry l) (ls_items l ++ [item])]>
           (leases_ s)) s) ≫= λ _,
      mret StatusOK
  end.

(** ** Requests.  A gRPC status is returned beside the response. *)
Inductive GrpcStatus := GRPC_OK | OUT_OF_RANGE | NOT_FOUND.

Definition LeaseGrant (now : Z) (request : LeaseGrantRequest) : L (GrpcStatus * LeaseResponse) :=
  s ← members;
  (if bool_decide (lg_id request = 0)
   then modify (λ s, set_index (wrap64 (index_ s + 1)) s) else mret tt) ≫= λ _,
  let id := if bool_decide (lg_id request = 0) then index_ s else lg_id request in
  let response := mkLeaseResp lease_header id (lg_ttl request) in
  if out_of_range now (lg_ttl request) then mret (OUT_OF_RANGE, response)
  else
    let lease := mkLease id (lg_ttl request) (expiry_at now (lg_ttl request)) [] in
    post (BackupPut (lease_key id) (ser lease)) ≫= λ _,
    modify (λ s, set_leases (<[id := lease]> (leases_ s)) s) ≫= λ _,
    mret (GRPC_OK, response).

Definition LeaseRevoke (request : LeaseIdRequest) : L (GrpcStatus * LeaseResponse) :=
  s ← members;
  let response := mkLeaseResp lease_header 0 0 in
  match leases_ s !! li_id request with
  | None => mret (NOT_FOUND, response)
  | Some l =>
      post (KvOnRevoke (item_set l)) ≫= λ _,
      post (BackupDelete (lease_key (li_id request))) ≫= λ _,
      modify (λ s, set_leases (delete (li_id request) (leases_ s)) s) ≫= λ _,
      mret (GRPC_OK, response)
  end.

Definition LeaseKeepAlive (now : Z) (request : LeaseIdRequest) : L (GrpcStatus * LeaseResponse) :=
  s ← members;
  match leases_ s !! li_id request with
  | None => mret (GRPC_OK, mkLeaseResp lease_header 0 0)
  | Some l =>
      let response := mkLeaseResp lease_header (li_id request) (ls_ttl l) in
      if out_of_range now (ls_ttl l) then
        modify (λ s, set_leases (<[li_id request := with_expiry 0 l]> (leases_ s)) s) ≫= λ _,
        mret (OUT_OF_RANGE, response)
      else
        modify (λ s, set_leases
          (<[li_id request := with_expiry (expiry_at now (ls_ttl l)) l]> (leases_ s)) s) ≫= λ _,
        mret (GRPC_OK, response)
  end.

(** ** Messages.  The gRPC status is dropped: only the response is sent. *)
Definition reply (from : AID) (name : string) (req : MetaStoreRequest)
    (m : L (GrpcStatus * LeaseResponse)) : L unit :=
  r ← m;
  post (Send from name (lp_reply (mkResp (mq_requestid req) (lp_response r.2) 0 ""))).

(** [business_->Receive...]: a slave ignores the request. *)
Definition by_role (master : L unit) : L unit :=
  s ← members;
  if negb (running_ s) then mret tt
  else match curStatus_ s with
  | MASTER_BUSINESS => master
  | SLAVE_BUSINESS => mret tt
  end.

Definition ReceiveGrant (now : Z) (from : AID) (msg : string) : L unit :=
  let req := lp_request msg in
  by_role (reply from "GrantCallback" req (LeaseGrant now (lp_grant (mq_requestmsg req)))).
Definition ReceiveRevoke (from : AID) (msg : string) : L unit :=
  let req := lp_request msg in
  by_role (reply from "RevokeCallback" req (LeaseRevoke (lp_id (mq_requestmsg req)))).
Definition ReceiveKeepAlive (now : Z) (from : AID) (msg : string) : L unit :=
  let req := lp_request msg in
  by_role (reply from "KeepAliveCallback" req (LeaseKeepAlive now (lp_id (mq_requestmsg req)))).

(** ** The mailbox *)
Inductive Msg :=
  | MGrant (from : AID) (msg : string)
  | MRevoke (from : AID) (msg : string)
  | MKeepAlive (from : AID) (msg : string)
  | MAttach (item : string) (leaseID : Z)
  | MCheckpoint
  | MLeader (curUrl leaderAddress : string)
  | MStart
  | MStop
  | MHealthy (status : Status)
  | MSync (getResponse : GetResponse)
  | MEvents (events : list WatchEvent) (synced : bool)
  | MSyncer (getResponse : option GetResponse).

Definition handle (now : Z) (m : Msg) : L unit :=
  match m with
  | MGrant from msg => ReceiveGrant now from msg
  | MRevoke from msg => ReceiveRevoke from msg
  | MKeepAlive from msg => ReceiveKeepAlive now from msg
  | MAttach item id => Attach item id ≫= λ _, mret tt
  | MCheckpoint => CheckpointScheduledLeases now
  | MLeader cur addr => UpdateLeaderInfo now cur addr ≫= λ _, mret tt
  | MStart => Start ≫= λ _, mret tt
  | MStop => Stop ≫= λ _, mret tt
  | MHealthy st => OnHealthyStatus st
  | MSync gr => Sync now gr ≫= λ _, mret tt
  | MEvents events synced => HandleLeaseEvents now events synced
  | MSyncer gr => LeaseSyncer now gr ≫= λ _, mret tt
  end.

End handlers.
End LeaseSvc.
