(* ===== verification/LeaseProps.v ===== *)
(** * Properties of the lease actor *)

From S2P Require Import Prelude StdStrings MetaTypes Leader LeaseService.
From stdpp Require Import base gmap strings list fin_maps relations.
From Stdlib Require Import ZArith Lia.

Open Scope Z_scope.
Set Default Proof Using "Type".
Import LeaseSvc.

(** ** Expiring leases *)
Definition alive (now : Z) (p : Z * Lease) : Prop := now ≤ ls_expiry p.2.
#[global] Instance alive_dec now p : Decision (alive now p).
Proof. unfold alive. apply _. Defined.

(** What the expiry of a lease tells the other actors. *)
Definition expire_msgs (p : Z * Lease) : list Out :=
  [KvOnRevoke (item_set p.2); BackupDelete (lease_key (ls_id p.2))].

(** Leases are stored under their own id. *)
Definition lease_wf (s : State) : Prop := map_Forall (λ id l, ls_id l = id) (leases_ s).

Lemma exec_CheckpointLease now p s :
  exec (CheckpointLease now p) s =
    (if decide (alive now p) then s else set_leases (delete p.1 (leases_ s)) s).
Proof.
  unfold CheckpointLease, alive. destruct (Z.leb_spec now (ls_expiry p.2)) as [H|H].
  - by rewrite decide_True.
  - by rewrite decide_False by lia.
Qed.
Lemma outs_CheckpointLease now p s :
  outs (CheckpointLease now p) s = if decide (alive now p) then [] else expire_msgs p.
Proof.
  unfold CheckpointLease, alive. destruct (Z.leb_spec now (ls_expiry p.2)) as [H|H].
  - by rewrite decide_True.
  - by rewrite decide_False by lia.
Qed.

Definition dead (now : Z) (ps : list (Z * Lease)) : list (Z * Lease) :=
  filter (λ p, ¬ alive now p) ps.

Lemma checkpoint_loop now ps s :
  exec (for_each ps (CheckpointLease now)) s =
    set_leases (erase_keys (dead now ps).*1 (leases_ s)) s ∧
  outs (for_each ps (CheckpointLease now)) s = concat (expire_msgs <$> dead now ps).
Proof.
  unfold dead. revert s. induction ps as [|p ps IH]; intros s; [by destruct s|].
  cbn [for_each]. rewrite exec_bind, outs_bind, exec_CheckpointLease, outs_CheckpointLease.
  rewrite filter_cons. destruct (decide (alive now p)) as [H|H].
  - rewrite decide_False by tauto. apply IH.
  - rewrite decide_True by done. destruct (IH (set_leases (delete p.1 (leases_ s)) s)) as [-> ->].
    by rewrite !fmap_cons.
Qed.

Lemma delete_dead now (m : gmap Z Lease) :
  erase_keys (dead now (map_to_list m)).*1 m = filter (alive now) m.
Proof.
  apply map_eq. intros id. apply option_eq. intros l.
  rewrite lookup_erase_keys, map_lookup_filter_Some. unfold dead. case_decide as Hd.
  - apply list_elem_of_fmap in Hd as ([id' l'] & -> & [Hn Hl]%list_elem_of_filter).
    apply elem_of_map_to_list in Hl. naive_solver.
  - split; [|naive_solver]. intros Hl. split; [done|].
    destruct (decide (alive now (id, l))) as [|Hn]; [done|]. destruct Hd.
    apply list_elem_of_fmap. exists (id, l). split; [done|].
    apply list_elem_of_filter. by rewrite elem_of_map_to_list.
Qed.

Lemma dead_perm now (m : gmap Z Lease) :
  dead now (map_to_list m) ≡ₚ map_to_list (filter (λ p, ¬ alive now p) m).
Proof.
  unfold dead. apply NoDup_Permutation.
  - apply NoDup_filter, NoDup_map_to_list.
  - apply NoDup_map_to_list.
  - intros [id l]. rewrite list_elem_of_filter, !elem_of_map_to_list, map_lookup_filter_Some. tauto.
Qed.

(** The running master's checkpoint, as a whole. *)
Lemma checkpoint_effect now s :
  running_ s = true → curStatus_ s = MASTER_BUSINESS →
  exec (CheckpointScheduledLeases now) s = set_leases (filter (alive now) (leases_ s)) s ∧
  outs (CheckpointScheduledLeases now) s =
    concat (expire_msgs <$> dead now (map_to_list (leases_ s))) ++ [AfterCheckpoint LEASE_WAIT_TIME_MS].
Proof.
  intros Hr Hm. unfold CheckpointScheduledLeases.
  rewrite exec_bind, outs_bind, val_members, exec_members, outs_members, app_nil_l, Hr, Hm.
  cbn [negb]. rewrite bool_decide_false by done.
  rewrite exec_bind, outs_bind, exec_post, outs_post.
  destruct (checkpoint_loop now (map_to_list (leases_ s)) s) as [-> ->].
  by rewrite delete_dead.
Qed.

(** C13: the periodic checkpoint of a running master removes exactly the
    leases whose expiry has passed. Each of them, once, revokes its keys and
    deletes its backup entry; the others keep everything; the checkpoint
    schedules itself again. *)
Theorem checkpoint_exact {LP : LeaseProtobuf} (now : Z) (s : State) :
  running_ s = true → curStatus_ s = MASTER_BUSINESS →
  let s' := exec (handle now MCheckpoint) s in
  (∀ id l, leases_ s' !! id = Some l ↔ leases_ s !! id = Some l ∧ now ≤ ls_expiry l) ∧
  ∃ expired, outs (handle now MCheckpoint) s =
      concat (expire_msgs <$> expired) ++ [AfterCheckpoint LEASE_WAIT_TIME_MS] ∧
    NoDup expired.*1 ∧
    ∀ id l, (id, l) ∈ expired ↔ leases_ s !! id = Some l ∧ ls_expiry l < now.
Proof.
  intros Hr Hm s'. unfold s', handle.
  destruct (checkpoint_effect now s Hr Hm) as [-> ->]. split.
  - intros id l. simpl. rewrite map_lookup_filter_Some. done.
  - exists (dead now (map_to_list (leases_ s))). split; [done|]. split.
    + rewrite dead_perm. apply NoDup_fst_map_to_list.
    + intros id l. rewrite dead_perm, elem_of_map_to_list, map_lookup_filter_Some.
      unfold alive. simpl. split; intros [? ?]; (split; [done|lia]).
Qed.

(** ** A lease lives until its expiry *)

(** A time to live whose milliseconds can be added to any time up to [hi]. *)
Definition ttl_ok (hi ttl : Z) : Prop :=
  0 ≤ ttl ∧ hi + ttl * MILLISECONDS_PRE_SECOND ≤ INT64_MAX.

Lemma ttl_ms_ok hi ttl : 0 ≤ hi → ttl_ok hi ttl → ttl_ms ttl = ttl * MILLISECONDS_PRE_SECOND.
Proof.
  unfold ttl_ok, ttl_ms, MILLISECONDS_PRE_SECOND, INT64_MAX. intros Hhi [H1 H2].
  apply wrap64_small. unfold INT64_MIN, INT64_MAX. lia.
Qed.
Lemma in_range_ok now hi ttl :
  0 ≤ now ≤ hi → ttl_ok hi ttl →
  out_of_range now ttl = false ∧ expiry_at now ttl = now + ttl * MILLISECONDS_PRE_SECOND.
Proof.
  intros Hn Ht. unfold out_of_range, expiry_at. rewrite (ttl_ms_ok hi ttl) by (lia || done).
  destruct Ht as [H1 H2]. unfold MILLISECONDS_PRE_SECOND in *. split.
  - apply Z.ltb_ge. lia.
  - apply wrap64_small. unfold INT64_MIN, INT64_MAX in *. lia.
Qed.

Section lifetime.
Context {LP : LeaseProtobuf}.

(** The message is not about the existence of lease [id]: it neither revokes
    it, nor grants a lease of the same id, nor comes from the storage below. *)
Definition spares (id : Z) (s : State) (m : Msg) : Prop :=
  match m with
  | MGrant _ msg =>
      let r := lp_grant (mq_requestmsg (lp_request msg)) in
      (if bool_decide (lg_id r = 0) then index_ s else lg_id r) ≠ id
  | MRevoke _ msg => li_id (lp_id (mq_requestmsg (lp_request msg))) ≠ id
  | MSync _ | MEvents _ _ | MSyncer _ => False
  | _ => True
  end.

Definition calm_step (id lo hi : Z) (s s' : State) : Prop :=
  ∃ now m, lo ≤ now ≤ hi ∧ spares id s m ∧ s' = exec (handle now m) s.

(** The lease is at least [l], which was refreshed at [lo]. *)
Definition at_least (l l' : Lease) : Prop :=
  ls_ttl l' = ls_ttl l ∧ ls_expiry l ≤ ls_expiry l' ∧ ls_items l `prefix_of` ls_items l'.
#[global] Instance at_least_preorder : PreOrder at_least.
Proof.
  split.
  - intros l. by split_and!; try lia.
  - intros l1 l2 l3 (E1 & H1 & P1) (E2 & H2 & P2). split_and!; [congruence|lia|by trans (ls_items l2)].
Qed.

Definition holds (id : Z) (l : Lease) (s : State) : Prop :=
  ∃ l', leases_ s !! id = Some l' ∧ at_least l l'.

Lemma holds_insert id l s id' l' ls :
  holds id l s → (id' = id → holds id l s → at_least l l') →
  leases_ ls = <[id' := l']> (leases_ s) → holds id l ls.
Proof.
  intros H Hi E. destruct (decide (id' = id)) as [->|Hne].
  - exists l'. rewrite E, lookup_insert_eq. eauto.
  - destruct H as (l'' & Hl & Ha). exists l''. by rewrite E, lookup_insert_ne.
Qed.
Lemma holds_same id l s s' : holds id l s → leases_ s' = leases_ s → holds id l s'.
Proof. intros (l' & H & Ha) E. exists l'. by rewrite E. Qed.

Lemma renew_at_least now lo hi l l' :
  0 ≤ lo ≤ now → now ≤ hi → ttl_ok hi (ls_ttl l) →
  ls_expiry l = lo + ls_ttl l * MILLISECONDS_PRE_SECOND → at_least l l' →
  at_least l (renew now l').
Proof.
  intros Hlo Hn Ht He (Et & Hexp & Hp). unfold renew. rewrite Et.
  destruct (in_range_ok now hi (ls_ttl l)) as [-> ->]; [lia|done|].
  split_and!; [done| |done]. simpl. lia.
Qed.

Lemma holds_checkpoint id l now s :
  holds id l s → now ≤ ls_expiry l → holds id l (exec (CheckpointScheduledLeases now) s).
Proof.
  intros H Hn. destruct (running_ s) eqn:Hr; [destruct (curStatus_ s) eqn:Hm|].
  - destruct (checkpoint_effect now s Hr Hm) as [-> _].
    destruct H as (l' & Hl & Ha). exists l'. split; [|done]. cbn [leases_ set_leases].
    apply map_lookup_filter_Some. split; [done|]. unfold alive. simpl. destruct Ha as (_ & ? & _). lia.
  - eapply holds_same; [done|]. unfold CheckpointScheduledLeases.
    by rewrite exec_bind, val_members, exec_members, Hr, Hm.
  - eapply holds_same; [done|]. unfold CheckpointScheduledLeases.
    by rewrite exec_bind, val_members, exec_members, Hr.
Qed.

(** Effects of the request handlers on [leases_]. *)
Lemma leases_LeaseGrant now r s :
  let id := if bool_decide (lg_id r = 0) then index_ s else lg_id r in
  leases_ (exec (LeaseGrant now r) s) =
    if out_of_range now (lg_ttl r) then leases_ s
    else <[id := mkLease id (lg_ttl r) (expiry_at now (lg_ttl r)) []]> (leases_ s).
Proof.
  unfold LeaseGrant. act_simpl. case_bool_decide; destruct (out_of_range _ _); by act_simpl.
Qed.
Lemma leases_LeaseRevoke r s :
  leases_ (exec (LeaseRevoke r) s) = delete (li_id r) (leases_ s).
Proof.
  unfold LeaseRevoke. act_simpl. destruct (leases_ s !! li_id r) eqn:E; act_simpl; [done|].
  by rewrite delete_id.
Qed.
Lemma leases_LeaseKeepAlive now r s :
  leases_ (exec (LeaseKeepAlive now r) s) =
    match leases_ s !! li_id r with
    | Some l => <[li_id r := renew now l]> (leases_ s)
    | None => leases_ s
    end.
Proof.
  unfold LeaseKeepAlive, renew. act_simpl. destruct (leases_ s !! li_id r) eqn:E; [|done].
  by destruct (out_of_range _ _).
Qed.
Lemma leases_Attach item id s :
  leases_ (exec (Attach item id) s) =
    match leases_ s !! id with
    | Some l => <[id := mkLease (ls_id l) (ls_ttl l) (ls_expiry l) (ls_items l ++ [item])]> (leases_ s)
    | None => leases_ s
    end.
Proof. unfold Attach. act_simpl. by destruct (leases_ s !! id). Qed.

(** A request changes the leases as its handler does, or not at all. *)
Lemma leases_request {A} (m : L A) (f : A → L unit) s (P : State → Prop) :
  (∀ s1 s2, leases_ s1 = leases_ s2 → P s1 → P s2) →
  (∀ a s, leases_ (exec (f a) s) = leases_ s) →
  P s → P (exec m s) → P (exec (by_role (m ≫= f)) s).
Proof.
  intros HP Hf Hs Hm. unfold by_role. rewrite exec_bind, val_members, exec_members.
  destruct (running_ s); [|done]. destruct (curStatus_ s); [|done].
  simpl. rewrite exec_bind. eapply HP; [symmetry; apply Hf|done].
Qed.

Lemma holds_step id lo hi l s s' :
  0 ≤ lo → ttl_ok hi (ls_ttl l) → hi ≤ ls_expiry l →
  ls_expiry l = lo + ls_ttl l * MILLISECONDS_PRE_SECOND →
  calm_step id lo hi s s' → holds id l s → holds id l s'.
Proof.
  intros Hlo Ht Hhi He (now & m & Hn & Hsp & ->) Hh.
  assert (Hreq : ∀ s1 s2, leases_ s1 = leases_ s2 → holds id l s1 → holds id l s2)
    by (intros; by eapply holds_same).
  destruct m as [from msg|from msg|from msg|item i| |cur addr| | |st| | |]; cbn [handle spares] in *;
    try done; unfold ReceiveGrant, ReceiveRevoke, ReceiveKeepAlive, reply; cbv zeta.
  - apply leases_request; [done|done|done|].
    pose proof (leases_LeaseGrant now (lp_grant (mq_requestmsg (lp_request msg))) s) as E.
    simpl in E. destruct (out_of_range _ _); [by eapply holds_same|].
    by eapply holds_insert; [done| |apply E].
  - apply leases_request; [done|done|done|]. destruct Hh as (l' & Hl & Ha). exists l'.
    by rewrite leases_LeaseRevoke, lookup_delete_ne.
  - apply leases_request; [done|done|done|].
    pose proof (leases_LeaseKeepAlive now (lp_id (mq_requestmsg (lp_request msg))) s) as E.
    destruct (leases_ s !! _) as [l1|] eqn:El; [|by eapply holds_same].
    eapply holds_insert; [done| |apply E]. intros <- (l2 & Hl2 & Ha).
    rewrite El in Hl2. injection Hl2 as ->. by apply (renew_at_least now lo hi); try lia.
  - rewrite exec_bind, exec_ret. pose proof (leases_Attach item i s) as E.
    destruct (leases_ s !! i) as [l1|] eqn:El; [|by eapply holds_same].
    eapply holds_insert; [done| |apply E]. intros -> (l2 & Hl2 & Ha).
    rewrite El in Hl2. injection Hl2 as ->. trans l2; [done|].
    split_and!; [done|simpl; lia|]. by eexists.
  - apply holds_checkpoint; [done|lia].
  - rewrite exec_bind, exec_ret. unfold UpdateLeaderInfo.
    rewrite exec_bind, val_members, exec_members. case_match; [done|].
    destruct (GetStatus _ _ _) as [[]|]; [| |done]; rewrite !exec_bind, exec_ret; cbn [OnChange].
    + rewrite exec_bind. apply holds_checkpoint; [|lia]. destruct Hh as (l' & Hl & Ha).
      exists (renew now l'). split; [|by apply (renew_at_least now lo hi); try lia].
      unfold UpdateLeaseExpire. rewrite !exec_modify. simpl. by rewrite lookup_fmap, Hl.
    + by eapply holds_same.
  - rewrite exec_bind, exec_ret. unfold Start. act_simpl. case_match; by eapply holds_same.
Qed.
End lifetime.

(** C14: a lease outlives every message but its revocation until its time to
    live has passed. From a lease refreshed at [lo], whatever requests,
    attachments, checkpoints, role changes and health changes follow between
    [lo] and its expiry, it is still there, with the same time to live, an
    expiry not earlier and all its items. *)
Theorem lease_survives {LP : LeaseProtobuf} (id lo hi : Z) (l : Lease) (s s' : State) :
  0 ≤ lo → ttl_ok hi (ls_ttl l) → hi ≤ ls_expiry l →
  ls_expiry l = lo + ls_ttl l * MILLISECONDS_PRE_SECOND →
  leases_ s !! id = Some l →
  rtc (calm_step id lo hi) s s' →
  ∃ l', leases_ s' !! id = Some l' ∧ ls_ttl l' = ls_ttl l ∧
    ls_expiry l ≤ ls_expiry l' ∧ ls_items l `prefix_of` ls_items l'.
Proof.
  intros Hlo Ht Hhi He Hl Hr. change (holds id l s').
  assert (Hh : holds id l s) by by exists l.
  clear Hl. induction Hr as [|s1 s2 s3 Hs _ IH]; [done|]. apply IH. by eapply holds_step.
Qed.

(** ** Concrete parameters for the witnesses *)
#[global] Program Instance Lease_countable : Countable Lease :=
  inj_countable' (λ l, (ls_id l, ls_ttl l, ls_expiry l, ls_items l))
    (λ '(i, t, e, x), mkLease i t e x) _.
Next Obligation. by intros []. Qed.

(** Requests are the decimal ids of leases; a grant asks for ten seconds. *)
Definition demo_lp : LeaseProtobuf := {|
  lp_lease := countable_codec Lease;
  lp_request s := mkReq "id" s false;
  lp_grant s := mkGrant (default 0 (stoll s)) 10;
  lp_id s := mkLeaseId (default 0 (stoll s));
  lp_response r := to_string (lr_id r);
  lp_reply r := mr_responsemsg r;
|}.

(** At time 1000, a running master grants the leases 7 and 8; key ["a"] is
    attached to lease 7; lease 8 is refreshed at 6000. *)
Definition demo_state : State :=
  foldl (λ s tm, exec (handle (LP:=demo_lp) tm.1 tm.2) s) (init 100 false false)
    [(1000, MStart); (1000, MGrant "cli" "7"); (1000, MGrant "cli" "8");
     (1000, MAttach "a" 7); (6000, MKeepAlive "cli" "8")].

Lemma checkpoint_exact_witness :
  let s' := exec (handle (LP:=demo_lp) 11001 MCheckpoint) demo_state in
  leases_ s' !! 7 = None ∧ is_Some (leases_ s' !! 8) ∧
  outs (handle (LP:=demo_lp) 11001 MCheckpoint) demo_state =
    [KvOnRevoke {["a"]}; BackupDelete "/metastore/lease/7"; AfterCheckpoint 500].
Proof.
  destruct (checkpoint_exact (LP:=demo_lp) 11001 demo_state) as [H1 _]; [done|done|].
  split_and!; [| |by vm_compute].
  - apply eq_None_ne_Some_2. intros l [Hl Hle]%H1. revert Hl Hle. vm_compute. by intros [= <-].
  - exists (mkLease 8 10 16000 []). apply H1. by vm_compute.
Defined.

Lemma lease_survives_witness :
  let s' := exec (handle (LP:=demo_lp) 11000 MCheckpoint) demo_state in
  ∃ l, leases_ s' !! 7 = Some l ∧ ls_items l = ["a"].
Proof.
  destruct (lease_survives (LP:=demo_lp) 7 1000 11000 (mkLease 7 10 11000 ["a"]) demo_state
    (exec (handle (LP:=demo_lp) 11000 MCheckpoint) demo_state)) as (l & Hl & _).
  - lia.
  - by vm_compute.
  - by vm_compute.
  - by vm_compute.
  - by vm_compute.
  - apply rtc_once. exists 11000, MCheckpoint. split; [lia|]. by split.
  - exists l. split; [exact Hl|]. revert Hl. vm_compute. by intros [= <-].
Defined.

(** ** Granting *)

(** A grant at a running master. For a time to live whose milliseconds
    fit [int64_t], the lease gets the requested id, or the next free index
    when none is asked for; if its expiry fits, the lease is stored and backed
    up with exactly that expiry and no items; otherwise nothing is stored. *)
Theorem grant_branches {LP : LeaseProtobuf} (now : Z) (from : string) (msg : string) (s : State) :
  let req := lp_request msg in
  let r := lp_grant (mq_requestmsg req) in
  let id := if bool_decide (lg_id r = 0) then index_ s else lg_id r in
  let lease := mkLease id (lg_ttl r) (now + lg_ttl r * 1000) [] in
  let answer := Send from "GrantCallback"
    (lp_reply (mkResp (mq_requestid req) (lp_response (mkLeaseResp lease_header id (lg_ttl r))) 0 "")) in
  running_ s = true → curStatus_ s = MASTER_BUSINESS →
  0 ≤ now ≤ INT64_MAX → 0 ≤ lg_ttl r → lg_ttl r * 1000 ≤ INT64_MAX →
  let s' := exec (handle now (MGrant from msg)) s in
  index_ s' = (if bool_decide (lg_id r = 0) then wrap64 (index_ s + 1) else index_ s) ∧
  (now + lg_ttl r * 1000 ≤ INT64_MAX →
     leases_ s' = <[id := lease]> (leases_ s) ∧
     outs (handle now (MGrant from msg)) s = [BackupPut (lease_key id) (ser lease); answer]) ∧
  (INT64_MAX < now + lg_ttl r * 1000 →
     leases_ s' = leases_ s ∧ outs (handle now (MGrant from msg)) s = [answer]).
Proof.
  intros req r id lease answer Hr Hm Hnow Ht Hms s'.
  assert (Hw : ttl_ms (lg_ttl r) = lg_ttl r * 1000).
  { unfold ttl_ms, MILLISECONDS_PRE_SECOND. apply wrap64_small. unfold INT64_MIN. lia. }
  assert (Hi : index_ s' = (if bool_decide (lg_id r = 0) then wrap64 (index_ s + 1) else index_ s) ∧
    ∀ b, out_of_range now (lg_ttl r) = b →
      leases_ s' = (if b then leases_ s else
        <[id := mkLease id (lg_ttl r) (expiry_at now (lg_ttl r)) []]> (leases_ s)) ∧
      outs (handle now (MGrant from msg)) s =
        (if b then [] else [BackupPut (lease_key id)
          (ser (mkLease id (lg_ttl r) (expiry_at now (lg_ttl r)) []))]) ++ [answer]).
  { unfold s'. cbn [handle]. unfold ReceiveGrant, by_role.
    rewrite exec_bind, outs_bind, val_members, exec_members, outs_members, app_nil_l, Hr, Hm.
    cbn [negb]. unfold reply. fold req. fold r.
    rewrite exec_bind, outs_bind, exec_post, outs_post. unfold LeaseGrant. act_simpl.
    split; [by case_bool_decide; case_match|]. intros b ->. unfold answer, id.
    case_bool_decide; by destruct b. }
  destruct Hi as [Hi Hb]. split; [done|].
  destruct (Hb _ eq_refl) as [-> ->]. unfold out_of_range, expiry_at. rewrite Hw.
  split; intros Hle.
  - rewrite (proj2 (Z.ltb_ge _ _)) by lia. unfold lease.
    by rewrite wrap64_small by (unfold INT64_MIN; lia).
  - by rewrite (proj2 (Z.ltb_lt _ _)) by lia.
Qed.

Lemma grant_branches_witness :
  let s' := exec (handle (LP:=demo_lp) 2000 (MGrant "cli" "0")) demo_state in
  leases_ s' = <[100 := mkLease 100 10 12000 []]> (leases_ demo_state) ∧ index_ s' = 101.
Proof.
  destruct (grant_branches (LP:=demo_lp) 2000 "cli" "0" demo_state) as (H1 & H2 & _);
    [by vm_compute..|].
  split; [apply H2; by vm_compute|exact H1].
Defined.

(** The client cannot tell a refused grant: the answer has the id and the time
    to live it asked for. *)
Theorem refused_grant_answers_ok {LP : LeaseProtobuf} (now : Z) (r : LeaseGrantRequest) (s : State) :
  let id := if bool_decide (lg_id r = 0) then index_ s else lg_id r in
  (val (LeaseGrant now r) s).2 = mkLeaseResp lease_header id (lg_ttl r).
Proof. unfold LeaseGrant. act_simpl. case_bool_decide; by case_match. Qed.

(** A time to live of [2^62] seconds wraps to zero milliseconds and passes the
    range check: the lease is expired one millisecond later. *)
Theorem huge_ttl_expires_at_once :
  let s := exec (LeaseGrant (LP:=demo_lp) 1000 (mkGrant 5 (2 ^ 62))) (init 100 false false) in
  leases_ s !! 5 = Some (mkLease 5 (2 ^ 62) 1000 []) ∧
  leases_ (exec (handle (LP:=demo_lp) 1001 MCheckpoint) (exec (handle (LP:=demo_lp) 1000 MStart) s)) = ∅.
Proof. by vm_compute. Qed.

(** ** Following the storage below *)
Definition int64 (z : Z) : Prop := INT64_MIN ≤ z ≤ INT64_MAX.

Section storage.
Context {LP : LeaseProtobuf} {Lok : CodecOk Lease}.

Definition stored_lease (e : KeyValue) (p : Z * Lease) : Prop :=
  kv_key e = lease_key p.1 ∧ kv_value e = ser p.2.
Definition lists_leases (l : list KeyValue) (m : gmap Z Lease) : Prop :=
  ∃ ps, Forall2 stored_lease l ps ∧ ps ≡ₚ map_to_list m.

Definition renew_pair (now : Z) (p : Z * Lease) : Z * Lease := (p.1, renew now p.2).

Lemma put_events now l ps s :
  Forall2 stored_lease l ps → Forall (λ p, ls_id p.2 = p.1) ps →
  exec (for_each (mkWatchEvent EVENT_TYPE_PUT <$> l) (HandleLeaseEvent now)) s =
  set_leases (insert_pairs (renew_pair now <$> ps) (leases_ s)) s.
Proof using Lok.
  intros H. revert s. induction H as [|e p l ps [_ He] _ IH]; intros s Hps; [by destruct s|].
  inversion_clear Hps as [|? ? Hp Hps']. rewrite fmap_cons. cbn [for_each]. rewrite exec_bind.
  unfold HandleLeaseEvent at 2. cbn [we_type we_kv]. rewrite He, parse_ser, IH by done.
  unfold put_lease. rewrite exec_modify. cbn [ls_id renew with_expiry]. by rewrite Hp.
Qed.

Lemma lease_id_of id :
  int64 id →
  substr (String.length META_STORE_BACKUP_LEASE_PREFIX) (lease_key id) ≫= stoll = Some id.
Proof. intros H. unfold lease_key. rewrite substr_app. simpl. by apply stoll_to_string. Qed.

Lemma delete_events now qs s :
  Forall (λ q, int64 q.1) qs →
  exec (for_each ((λ p, mkWatchEvent EVENT_TYPE_DELETE
    (mkKV (lease_key p.1) 0 0 0 (ser p.2) 0)) <$> qs) (HandleLeaseEvent now)) s =
  set_leases (erase_keys qs.*1 (leases_ s)) s.
Proof.
  revert s. induction qs as [|q qs IH]; intros s Hqs; [by destruct s|].
  inversion_clear Hqs as [|? ? Hq Hqs']. rewrite !fmap_cons. cbn [for_each]. rewrite exec_bind.
  unfold HandleLeaseEvent at 2. cbn [we_type we_kv kv_key]. rewrite lease_id_of by done.
  rewrite exec_bind, val_members, exec_members. unfold erase_keys. cbn [foldl].
  case_bool_decide as Hn.
  - rewrite exec_ret, IH by done. unfold erase_keys. by rewrite delete_id.
  - by rewrite exec_modify, IH.
Qed.

Lemma stored_lease_keys l ps :
  Forall2 stored_lease l ps →
  (λ kv, str_drop (String.length META_STORE_BACKUP_LEASE_PREFIX) (kv_key kv)) <$> l =
  to_string <$> ps.*1.
Proof.
  induction 1 as [|e p l ps [Hk _] _ IH]; [done|]. rewrite !fmap_cons, IH, Hk.
  unfold lease_key. by rewrite str_drop_app.
Qed.

Lemma LeaseSyncer_effect now gr ps s :
  Forall2 stored_lease (gr_kvs gr) ps → ps ≠ [] → IsError (gr_status gr) = false →
  Forall (λ p, ls_id p.2 = p.1) ps → map_Forall (λ id _, int64 id) (leases_ s) →
  ∃ ids, (∀ id, id ∈ ids ↔ id ∉ ps.*1 ∧ is_Some (leases_ s !! id)) ∧
  exec (LeaseSyncer now (Some gr)) s =
    set_leases (erase_keys ids (insert_pairs (renew_pair now <$> ps) (leases_ s))) s.
Proof using Lok.
  intros Hl Hne Hst Hps Hid. unfold LeaseSyncer. rewrite Hst.
  destruct (gr_kvs gr) as [|e l] eqn:El; [by apply Forall2_nil_inv_l in Hl|].
  rewrite <- El in *. clear El. rewrite (stored_lease_keys _ _ Hl).
  rewrite exec_bind, val_members, exec_members. set (qs := filter _ _).
  rewrite exec_bind, exec_ret. unfold HandleLeaseEvents.
  rewrite exec_bind, val_members, exec_members, andb_false_r.
  rewrite exec_for_each_app, (put_events _ _ _ _ Hl Hps), delete_events.
  - exists qs.*1. split; [|done]. intros id. unfold qs. rewrite list_elem_of_fmap. split.
    + intros ([id' q] & -> & [Hn Hq%elem_of_map_to_list]%list_elem_of_filter). split; [|by eexists].
      intros Hin. apply Hn. by apply list_elem_of_fmap_2.
    + intros [Hn [q Hq]]. exists (id, q). split; [done|]. apply list_elem_of_filter.
      rewrite elem_of_map_to_list. split; [|done]. cbn [fst].
      by intros (id' & ->%to_string_inj & Hin)%list_elem_of_fmap.
  - apply Forall_forall. intros [id q] [_ Hq%elem_of_map_to_list]%list_elem_of_filter.
    by apply (Hid id q).
Qed.
End storage.

(** [LeaseSyncer] makes the leases equal to the storage. Given a
    successful, non-empty listing of [m], every lease of [m] is there with its
    time to live restarted, and no other lease is left, the decimal keys being
    read back exactly. *)
Theorem lease_syncer_converges {LP : LeaseProtobuf} (now : Z) (gr : GetResponse)
    (m : gmap Z Lease) (s : State) :
  CodecOk Lease → lists_leases (gr_kvs gr) m → m ≠ ∅ → IsError (gr_status gr) = false →
  map_Forall (λ id l, ls_id l = id) m → map_Forall (λ id _, int64 id) (leases_ s) →
  leases_ (exec (handle now (MSyncer (Some gr))) s) = renew now <$> m.
Proof.
  intros Hok (ps & Hl & Hps) Hne Hst Hm Hid. cbn [handle]. rewrite exec_bind, exec_ret.
  destruct (LeaseSyncer_effect now gr ps s) as (ids & Hids & ->); try done.
  { intros ->. by apply Hne, map_to_list_empty_iff, Permutation_nil. }
  { rewrite Hps. apply Forall_forall. intros [id l] H%elem_of_map_to_list. by apply Hm. }
  apply erase_others.
  - rewrite map_to_list_fmap, Hps. apply reflexive_eq, list_fmap_ext. by intros ? [].
  - intros id. by rewrite Hids, <- list_fmap_compose.
Qed.

(** The storage after the grants of [demo_state]: the entry of lease 7 as
    [LeaseGrant] backed it up, lease 8 gone. *)
Definition demo_backup : gmap Z Lease := {[7 := mkLease 7 10 11000 []]}.
Definition demo_listing : GetResponse :=
  mkGetResp StatusOK 3
    [mkKV (lease_key 7) 1 1 1 (ser (Codec:=@lp_lease demo_lp) (mkLease 7 10 11000 [])) 0].
Lemma demo_leases_listed : lists_leases (LP:=demo_lp) (gr_kvs demo_listing) demo_backup.
Proof. exists [(7, mkLease 7 10 11000 [])]. split; [|done]. by repeat constructor. Qed.

Lemma lease_syncer_converges_witness :
  let s' := exec (handle (LP:=demo_lp) 9000 (MSyncer (Some demo_listing))) demo_state in
  leases_ s' = renew 9000 <$> demo_backup ∧ is_Some (leases_ demo_state !! 8) ∧
  leases_ s' !! 8 = None.
Proof.
  assert (H : leases_ (exec (handle (LP:=demo_lp) 9000 (MSyncer (Some demo_listing))) demo_state)
    = renew 9000 <$> demo_backup).
  { apply (lease_syncer_converges (LP:=demo_lp) 9000 demo_listing demo_backup demo_state).
    - exact (countable_codec_ok Lease).
    - exact demo_leases_listed.
    - done.
    - done.
    - by apply map_Forall_singleton.
    - replace (leases_ demo_state) with
        (<[7 := mkLease 7 10 11000 ["a"]]> {[8 := mkLease 8 10 16000 []]} : gmap Z Lease)
        by by vm_compute.
      apply map_Forall_insert_2; [by vm_compute|]. by apply map_Forall_singleton. }
  split_and!; [exact H|by vm_compute; eexists|by rewrite H].
Defined.

(** The entry in the storage is written by the grant only, before any key is
    attached. A synchronisation therefore drops the items of every lease, and
    when the lease expires its keys are not revoked. *)
Theorem resync_drops_items :
  let s' := exec (handle (LP:=demo_lp) 9000 (MSyncer (Some demo_listing))) demo_state in
  ls_items <$> leases_ demo_state !! 7 = Some ["a"] ∧ ls_items <$> leases_ s' !! 7 = Some [] ∧
  outs (handle (LP:=demo_lp) 30000 MCheckpoint) s' =
    [KvOnRevoke ∅; BackupDelete "/metastore/lease/7"; AfterCheckpoint 500].
Proof. by vm_compute. Qed.
