(* ===== verification/WatchService.v ===== *)
(** * The watch actor

    [meta_store/server/src/watch_service_actor.cpp] keeps the observers of keys
    and key prefixes and finds those an event is for.  [StringPlusOne] of the
    client library bounds a prefix. *)

From S2P Require Import Prelude StdStrings MetaTypes.
From stdpp Require Import base gmap strings list fin_maps.
From Stdlib Require Import Ascii ZArith Lia.

Open Scope Z_scope.
Set Default Proof Using "Type".

(** ** [StringPlusOne]

    The loop runs down from [i]: the last character below [0xff] is
    incremented and what follows it is cut off. *)
Definition byte_of (c : ascii) : Z := Z.of_N (N_of_ascii c).
Definition char_plus_one (c : ascii) : ascii := ascii_of_N (N_of_ascii c + 1).

Fixpoint StringPlusOne_from (value : string) (i : nat) : string :=
  match i with
  | O => ""
  | S index =>
      match String.get index value with
      | Some c =>
          if byte_of c <? 255
          then String.substring 0 index value +:+ String (char_plus_one c) ""
          else StringPlusOne_from value index
      | None => ""
      end
  end.
Definition StringPlusOne (value : string) : string :=
  StringPlusOne_from value (String.length value).

(** ** The observers *)
Module Watch.

Record Observer := mkObserver { ob_client : AID; ob_id : Z; ob_request : WatchCreateRequest }.

(** The clients of one key prefix, with their watch ids. *)
Record RangeObserverCache := mkRangeCache {
  rc_keyPrefix : string; rc_keyPrefixEnd : string;
  rc_to : list (AID * Z); rc_toWithPrevKv : list (AID * Z) }.
Definition new_range_cache (prefix : string) : RangeObserverCache :=
  mkRangeCache prefix (StringPlusOne prefix) [] [].

(** An event with its receivers. *)
Record UnsyncedEvents := mkUnsynced {
  ue_to : list (AID * Z); ue_event : Event;
  ue_toWithPrevKv : list (AID * Z); ue_eventWithPrevKv : Event }.

Record State := mkState {
  strictObserversById_ : gmap Z Observer;
  strictObserversByKey_ : gmap string (list Observer);
  rangeObserverCaches_ : gmap string RangeObserverCache;
  watchKeyCount_ : gmap string Z;
  index_ : Z;
}.
Definition init : State := mkState ∅ ∅ ∅ ∅ 0.

Definition set_strict (m : gmap Z Observer) (k : gmap string (list Observer)) (s : State) : State :=
  mkState m k (rangeObserverCaches_ s) (watchKeyCount_ s) (index_ s).
Definition set_ranges (r : gmap string RangeObserverCache) (s : State) : State :=
  mkState (strictObserversById_ s) (strictObserversByKey_ s) r (watchKeyCount_ s) (index_ s).
Definition set_count (c : gmap string Z) (s : State) : State :=
  mkState (strictObserversById_ s) (strictObserversByKey_ s) (rangeObserverCaches_ s) c (index_ s).
Definition set_index (i : Z) (s : State) : State :=
  mkState (strictObserversById_ s) (strictObserversByKey_ s) (rangeObserverCaches_ s)
    (watchKeyCount_ s) i.

(** ** Messages posted by the handlers *)
Inductive Out :=
  | Link (client : AID)
  | SelfCancel (client : AID) (watchId : Z) (reason : string)
  | SelfSend (to : AID) (method : string) (response : MetaStoreResponse)
  | PushAdd (events : UnsyncedEvents)
  | PushThenSend (to : AID) (method : string) (response : MetaStoreResponse)
  | Send (to : AID) (name : string) (msg : string).

Abbreviation W := (Act State Out).

(** [std::swap] with the last element, then [pop_back]. *)
Definition swap_pop {A} (i : nat) (l : list A) : list A :=
  match last l with
  | Some b => take (length l - 1) (<[i := b]> l)
  | None => l
  end.

(** [std::find_if]: the index and the element. *)
Fixpoint find_if {A} (f : A → bool) (l : list A) : option (nat * A) :=
  match l with
  | [] => None
  | a :: l => if f a then Some (0%nat, a) else prod_map S id <$> find_if f l
  end.

Section handlers.
Context {PB : Protobuf}.
Context (cancel_request : string → WatchRequest).  (* both [ParseFromString]s of [ReceiveCancel] *)

Definition SendResponse (from : AID) (method : string) (resp : MetaStoreResponse) : W unit :=
  post (Send from method (ser resp)).

(** ** Creating *)
Definition IsRangeObserver (request : WatchCreateRequest) : bool :=
  negb (bool_decide (wc_range_end request = "")).

Definition AddObserver (o : Observer) (c : RangeObserverCache) : RangeObserverCache :=
  if wc_prev_kv (ob_request o)
  then mkRangeCache (rc_keyPrefix c) (rc_keyPrefixEnd c) (rc_to c)
         (rc_toWithPrevKv c ++ [(ob_client o, ob_id o)])
  else mkRangeCache (rc_keyPrefix c) (rc_keyPrefixEnd c) (rc_to c ++ [(ob_client o, ob_id o)])
         (rc_toWithPrevKv c).

Definition CreateInternal (from : AID) (request : WatchCreateRequest) : W WatchResponse :=
  s ← members;
  let observer := mkObserver from (index_ s) request in
  let key := wc_key request in
  (if IsRangeObserver request then
     modify (λ s, set_ranges
       (<[key := AddObserver observer
                   (default (new_range_cache key) (rangeObserverCaches_ s !! key))]>
          (rangeObserverCaches_ s)) s)
   else
     modify (λ s, set_strict
       (if bool_decide (strictObserversById_ s !! index_ s = None)
        then <[index_ s := observer]> (strictObserversById_ s) else strictObserversById_ s)
       (<[key := default [] (strictObserversByKey_ s !! key) ++ [observer]]>
          (strictObserversByKey_ s)) s)) ≫= λ _,
  let response := mkWatchResp (mkHeader 0 0) (index_ s) true false "" [] in
  modify (λ s, set_index (index_ s + 1) s) ≫= λ _,
  act_when (bool_decide (watchKeyCount_ s !! from = None)) (post (Link from)) ≫= λ _,
  modify (λ s, set_count (<[from := default 0 (watchKeyCount_ s !! from) + 1]> (watchKeyCount_ s)) s)
    ≫= λ _,
  mret response.

Definition CreateWatch (from : AID) (request : WatchCreateRequest) : W WatchResponse :=
  CreateInternal from request.

Definition Create (from : AID) (uuid : string) (request : WatchCreateRequest) : W Status :=
  response ← CreateWatch from request;
  post (SelfSend from "OnWatch" (mkResp uuid (ser response) 0 "")) ≫= λ _,
  mret StatusOK.

(** ** Removing *)
Definition RemoveStrictObserverById (key : string) (watchId : Z) (s : State) : State :=
  match strictObserversByKey_ s !! key with
  | None => s
  | Some vec =>
      let vec' := match find_if (λ obs, bool_decide (ob_id obs = watchId)) vec with
                  | Some (i, _) => swap_pop i vec
                  | None => vec
                  end in
      set_strict (strictObserversById_ s)
        (if bool_decide (vec' = []) then delete key (strictObserversByKey_ s)
         else <[key := vec']> (strictObserversByKey_ s)) s
  end.

(** The removed client, empty when nothing was removed, and the vector. *)
Definition RemoveRangeObserverById (watchId : Z) (vec : list (AID * Z)) (from : AID)
    : AID * list (AID * Z) :=
  match find_if (λ ci, bool_decide (watchId = ci.2)) vec with
  | Some (i, (aid, _)) =>
      if aid_ok from && negb (bool_decide (aid = from)) then ("", vec)
      else (aid, swap_pop i vec)
  | None => ("", vec)
  end.

(** The removed watch id, [-1] when nothing was removed, and the vector. *)
Definition RemoveRangeObserverByAid (aid : AID) (vec : list (AID * Z)) : Z * list (AID * Z) :=
  match find_if (λ ci, bool_decide (aid = ci.1)) vec with
  | Some (i, (_, watchId)) => (watchId, swap_pop i vec)
  | None => (-1, vec)
  end.

Definition set_to (v : list (AID * Z)) (c : RangeObserverCache) : RangeObserverCache :=
  mkRangeCache (rc_keyPrefix c) (rc_keyPrefixEnd c) v (rc_toWithPrevKv c).
Definition set_toWithPrevKv (v : list (AID * Z)) (c : RangeObserverCache) : RangeObserverCache :=
  mkRangeCache (rc_keyPrefix c) (rc_keyPrefixEnd c) (rc_to c) v.
Definition put_range (key : string) (c : RangeObserverCache) : W unit :=
  modify (λ s, set_ranges (<[key := c]> (rangeObserverCaches_ s)) s).

(** The loop over the prefixes, in the order of an unordered map. *)
Fixpoint RemoveRangeLoop (watchId : Z) (from : AID) (ps : list (string * RangeObserverCache))
    : W bool :=
  match ps with
  | [] => mret false
  | (key, c) :: ps =>
      let r := RemoveRangeObserverById watchId (rc_to c) from in
      put_range key (set_to r.2 c) ≫= λ _,
      if aid_ok r.1 then mret true
      else
        let c := set_to r.2 c in
        let r := RemoveRangeObserverById watchId (rc_toWithPrevKv c) from in
        put_range key (set_toWithPrevKv r.2 c) ≫= λ _,
        if aid_ok r.1 then mret true else RemoveRangeLoop watchId from ps
  end.

Definition RemoveObserverById (watchId : Z) (from : AID) : W bool :=
  s ← members;
  match strictObserversById_ s !! watchId with
  | Some observer =>
      if aid_ok from && negb (bool_decide (from = ob_client observer)) then mret false
      else
        modify (RemoveStrictObserverById (wc_key (ob_request observer)) (ob_id observer)) ≫= λ _,
        modify (λ s, set_strict (delete watchId (strictObserversById_ s)) (strictObserversByKey_ s) s)
          ≫= λ _,
        mret true
  | None => RemoveRangeLoop watchId from (map_to_list (rangeObserverCaches_ s))
  end.

Definition Cancel (from : AID) (watchId : Z) (msg : string) : W bool :=
  let response := mkWatchResp (mkHeader 0 0) watchId false true msg [] in
  post (PushThenSend from "OnWatch" (mkResp "" (ser response) 0 "")) ≫= λ _,
  s ← members;
  match watchKeyCount_ s !! from with
  | None => mret true
  | Some n =>
      modify (set_count (if bool_decide (n - 1 = 0) then delete from (watchKeyCount_ s)
                         else <[from := n - 1]> (watchKeyCount_ s))) ≫= λ _,
      mret true
  end.

Definition ReceiveCancel (from : AID) (msg : string) : W unit :=
  let watchId := wq_cancel_watch_id (cancel_request msg) in
  RemoveObserverById watchId from ≫= λ removed : bool,
  if removed then Cancel from watchId "by user" ≫= λ _, mret tt else mret tt.

Definition ExitedStrict (aid : AID) (p : Z * Observer) : W unit :=
  let observer := p.2 in
  act_when (bool_decide (ob_client observer = aid))
    (modify (RemoveStrictObserverById (wc_key (ob_request observer)) (ob_id observer)) ≫= λ _,
     post (SelfCancel aid (ob_id observer) "client disconnected") ≫= λ _,
     modify (λ s, set_strict (delete p.1 (strictObserversById_ s)) (strictObserversByKey_ s) s)).

Definition ExitedRange (aid : AID) (p : string * RangeObserverCache) : W unit :=
  let r := RemoveRangeObserverByAid aid (rc_to p.2) in
  let r' := RemoveRangeObserverByAid aid (rc_toWithPrevKv p.2) in
  act_when (negb (bool_decide (r.1 = -1))) (post (SelfCancel aid r.1 "client disconnected")) ≫= λ _,
  act_when (negb (bool_decide (r'.1 = -1))) (post (SelfCancel aid r'.1 "client disconnected")) ≫= λ _,
  put_range p.1 (set_toWithPrevKv r'.2 (set_to r.2 p.2)).

Definition Exited (aid : AID) : W unit :=
  s ← members;
  for_each (map_to_list (strictObserversById_ s)) (ExitedStrict aid) ≫= λ _,
  s ← members;
  for_each (map_to_list (rangeObserverCaches_ s)) (ExitedRange aid).

(** ** Events *)
Definition IsPrefix (key : string) (c : RangeObserverCache) : bool :=
  negb (str_lt key (rc_keyPrefix c)) && str_lt key (rc_keyPrefixEnd c).

Definition SetPrevKv (prevKv : KeyValue) (event : Event) : Event :=
  mkEvent (ev_type event) (ev_kv event) (Some prevKv).

Definition BuildUnsyncedEventsForPut (kv prevKv : KeyValue) : UnsyncedEvents :=
  let event := mkEvent EVENT_PUT kv None in
  mkUnsynced [] event [] (SetPrevKv prevKv event).

Definition BuildUnsyncedEventsForDelete (prevKv : KeyValue) : UnsyncedEvents :=
  mkUnsynced [] (mkEvent EVENT_DELETE (mkKV (kv_key prevKv) 0 (kv_mod_revision prevKv + 1) 0 "" 0) None)
    [] (SetPrevKv prevKv (mkEvent EVENT_DELETE (mkKV (kv_key prevKv) 0 0 0 "" 0) None)).

Definition UpdateResponseWithCache (c : RangeObserverCache) (r : UnsyncedEvents) : UnsyncedEvents :=
  mkUnsynced (ue_to r ++ rc_to c) (ue_event r) (ue_toWithPrevKv r ++ rc_toWithPrevKv c)
    (ue_eventWithPrevKv r).

Definition CheckIfValidRangeCacheAndUpdateResponse (s : State) (kv : KeyValue) (r : UnsyncedEvents)
    : UnsyncedEvents :=
  foldl (λ r p, if IsPrefix (kv_key kv) p.2 then UpdateResponseWithCache p.2 r else r)
    r (map_to_list (rangeObserverCaches_ s)).

Definition AddObserverToResponse (r : UnsyncedEvents) (o : Observer) : UnsyncedEvents :=
  if wc_prev_kv (ob_request o)
  then mkUnsynced (ue_to r) (ue_event r) (ue_toWithPrevKv r ++ [(ob_client o, ob_id o)])
         (ue_eventWithPrevKv r)
  else mkUnsynced (ue_to r ++ [(ob_client o, ob_id o)]) (ue_event r) (ue_toWithPrevKv r)
         (ue_eventWithPrevKv r).

Definition AddToUnsyncedEvents (r : UnsyncedEvents) : W unit :=
  if bool_decide (ue_to r = []) && bool_decide (ue_toWithPrevKv r = []) then mret tt
  else post (PushAdd r).

(** The common tail of [OnPut] and [OnDelete]. *)
Definition notify (s : State) (kv : KeyValue) (r : UnsyncedEvents) : UnsyncedEvents :=
  foldl AddObserverToResponse (CheckIfValidRangeCacheAndUpdateResponse s kv r)
    (default [] (strictObserversByKey_ s !! kv_key kv)).

Definition OnPut (kv prevKv : KeyValue) : W unit :=
  s ← members;
  AddToUnsyncedEvents (notify s kv (BuildUnsyncedEventsForPut kv prevKv)).

Definition OnDelete (prevKv : KeyValue) : W unit :=
  s ← members;
  AddToUnsyncedEvents (notify s prevKv (BuildUnsyncedEventsForDelete prevKv)).

Definition OnDeleteList (kvs : list KeyValue) : W unit := for_each kvs OnDelete.

(** ** The mailbox *)
Inductive Msg :=
  | MCreate (from : AID) (uuid : string) (request : WatchCreateRequest)
  | MReceiveCancel (from : AID) (msg : string)
  | MCancel (from : AID) (watchId : Z) (reason : string)
  | MExited (aid : AID)
  | MOnPut (kv prevKv : KeyValue)
  | MOnDelete (prevKv : KeyValue)
  | MOnDeleteList (kvs : list KeyValue)
  | MSendResponse (from : AID) (method : string) (resp : MetaStoreResponse).

Definition handle (m : Msg) : W unit :=
  match m with
  | MCreate from uuid request => Create from uuid request ≫= λ _, mret tt
  | MReceiveCancel from msg => ReceiveCancel from msg
  | MCancel from watchId reason => Cancel from watchId reason ≫= λ _, mret tt
  | MExited aid => Exited aid
  | MOnPut kv prevKv => OnPut kv prevKv
  | MOnDelete prevKv => OnDelete prevKv
  | MOnDeleteList kvs => OnDeleteList kvs
  | MSendResponse from method resp => SendResponse from method resp
  end.
End handlers.
End Watch.
