(* ===== verification/WatchProps.v ===== *)
(** * Properties of the watch actors

    The key range of a prefix, the registry of observers as an implementation
    of a set of live watches, the receivers of an event, and the events a
    watcher receives. *)

From S2P Require Import Prelude StdStrings MetaTypes WatchService.
From stdpp Require Import base gmap strings list fin_maps relations.
From Stdlib Require Import Ascii ZArith Lia.

Open Scope Z_scope.
Set Default Proof Using "Type".

(** ** The range of a prefix *)

(** [StringPlusOne] by structural recursion. *)
Fixpoint bump (s : string) : string :=
  match s with
  | "" => ""
  | String c s' =>
      match bump s' with
      | "" => if byte_of c <? 255 then String (char_plus_one c) "" else ""
      | t => String c t
      end
  end.

Lemma StringPlusOne_from_cons c s n :
  (n ≤ String.length s)%nat →
  StringPlusOne_from (String c s) (S n) =
    match StringPlusOne_from s n with
    | "" => if byte_of c <? 255 then String (char_plus_one c) "" else ""
    | t => String c t
    end.
Proof.
  induction n as [|n IH]; intros Hn; [done|].
  change (StringPlusOne_from (String c s) (S (S n))) with
    (match String.get n s with
     | Some d => if byte_of d <? 255
         then String c (String.substring 0 n s +:+ String (char_plus_one d) "")
         else StringPlusOne_from (String c s) (S n)
     | None => ""
     end).
  cbn [StringPlusOne_from]. destruct (String.get n s) as [d|] eqn:E.
  - destruct (byte_of d <? 255); [|apply IH; lia].
    by destruct (String.substring 0 n s).
  - exfalso. clear IH. revert n Hn E.
    induction s as [|d s IHs]; intros n Hn E; simpl in Hn; [lia|].
    destruct n as [|n]; [done|]. simpl in E. apply (IHs n); [lia|done].
Qed.

Lemma StringPlusOne_bump s : StringPlusOne s = bump s.
Proof.
  unfold StringPlusOne. induction s as [|c s IH]; [done|].
  cbn [String.length]. rewrite StringPlusOne_from_cons by lia. by rewrite IH.
Qed.

(** Comparing strings character by character. *)
Lemma str_lt_cons c s d t :
  str_lt (String c s) (String d t) =
    if byte_of c <? byte_of d then true else if byte_of d <? byte_of c then false else str_lt s t.
Proof.
  unfold str_lt, String.ltb, byte_of. cbn [String.compare]. unfold Ascii.compare.
  destruct (N.compare_spec (N_of_ascii c) (N_of_ascii d)) as [E|E|E].
  - rewrite E, Z.ltb_irrefl. done.
  - by rewrite (proj2 (Z.ltb_lt _ _)) by lia.
  - by rewrite (proj2 (Z.ltb_ge _ _)), (proj2 (Z.ltb_lt _ _)) by lia.
Qed.
Lemma str_lt_nil_r s : str_lt s "" = false.
Proof. by destruct s. Qed.
Lemma str_lt_nil_l c s : str_lt "" (String c s) = true.
Proof. done. Qed.

Lemma byte_of_inj c d : byte_of c = byte_of d → c = d.
Proof.
  unfold byte_of. intros H%N2Z.inj.
  by rewrite <- (ascii_N_embedding c), H, ascii_N_embedding.
Qed.
Lemma byte_of_bounds c : 0 ≤ byte_of c < 256.
Proof. unfold byte_of. pose proof (N_ascii_bounded c). lia. Qed.
Lemma byte_of_plus_one c : byte_of c < 255 → byte_of (char_plus_one c) = byte_of c + 1.
Proof.
  unfold byte_of, char_plus_one. intros H. rewrite N_ascii_embedding by lia. lia.
Qed.

Lemma prefix_cons c s d t :
  String.prefix (String c s) (String d t) = bool_decide (c = d) && String.prefix s t.
Proof. cbn [String.prefix]. by destruct (ascii_dec c d); case_bool_decide. Qed.

(** A string of [0xff] is the largest of its extensions' order. *)
Lemma bump_nil_max s k :
  bump s = "" → negb (str_lt k s) = String.prefix s k.
Proof.
  revert k. induction s as [|c s IH]; intros k Hb.
  { rewrite str_lt_nil_r. by destruct k. }
  cbn [bump] in Hb. destruct (bump s) eqn:Es; [|done].
  destruct (Z.ltb_spec (byte_of c) 255) as [|Hc]; [done|].
  pose proof (byte_of_bounds c). destruct k as [|d k]; [done|].
  rewrite str_lt_cons, prefix_cons. pose proof (byte_of_bounds d).
  case_bool_decide as Hcd; [subst; by rewrite Z.ltb_irrefl, IH|].
  assert (byte_of c ≠ byte_of d) by (intros E; by apply Hcd, byte_of_inj).
  by rewrite (proj2 (Z.ltb_lt _ _)) by lia.
Qed.

Lemma bump_range s k :
  bump s ≠ "" → in_range s (bump s) k = String.prefix s k.
Proof.
  unfold in_range. revert k. induction s as [|c s IH]; intros k Hb; [done|].
  cbn [bump] in *. destruct k as [|d k].
  { rewrite str_lt_nil_l. done. }
  rewrite str_lt_cons, prefix_cons.
  assert (Hcd : c ≠ d → byte_of c ≠ byte_of d) by (intros Hne E; by apply Hne, byte_of_inj).
  destruct (bump s) as [|e t] eqn:Es.
  - destruct (Z.ltb_spec (byte_of c) 255) as [Hc|]; [|done].
    rewrite str_lt_cons, str_lt_nil_r, byte_of_plus_one by done.
    case_bool_decide as H; [subst|specialize (Hcd H)].
    + rewrite Z.ltb_irrefl, (proj2 (Z.ltb_lt _ _)) by lia. cbn [negb andb].
      rewrite andb_true_r. by apply bump_nil_max.
    + destruct (Z.ltb_spec (byte_of d) (byte_of c)); [done|].
      rewrite (proj2 (Z.ltb_lt (byte_of c) (byte_of d))) by lia.
      rewrite (proj2 (Z.ltb_ge (byte_of d) (byte_of c + 1))) by lia.
      by destruct (byte_of c + 1 <? byte_of d).
  - rewrite str_lt_cons. case_bool_decide as H; [subst; rewrite !Z.ltb_irrefl; by apply IH|].
    specialize (Hcd H). destruct (Z.ltb_spec (byte_of d) (byte_of c)); [done|].
    by rewrite (proj2 (Z.ltb_lt (byte_of c) (byte_of d))) by lia.
Qed.

Import Watch.


(** ** The registry as a set of live watches *)
Definition ci (o : Observer) : AID * Z := (ob_client o, ob_id o).

Definition is_strict (o : Observer) : bool := negb (IsRangeObserver (ob_request o)).
Definition strict_at (key : string) (o : Observer) : bool :=
  is_strict o && bool_decide (wc_key (ob_request o) = key).
Definition range_at (key : string) (prev : bool) (o : Observer) : bool :=
  IsRangeObserver (ob_request o) && bool_decide (wc_key (ob_request o) = key)
  && Bool.eqb (wc_prev_kv (ob_request o)) prev.

(** The live watches that satisfy [f]. *)
Definition sel (f : Observer → bool) (live : gmap Z Observer) : list Observer :=
  (map_to_list (filter (λ p, f p.2 = true) live)).*2.

Lemma elem_of_sel f live o : o ∈ sel f live ↔ ∃ id, live !! id = Some o ∧ f o = true.
Proof.
  unfold sel. rewrite list_elem_of_fmap. split.
  - intros ([id o'] & -> & H%elem_of_map_to_list). apply map_lookup_filter_Some in H. by exists id.
  - intros (id & Hl & Hf). exists (id, o). split; [done|].
    by apply elem_of_map_to_list, map_lookup_filter_Some.
Qed.

Lemma sel_insert f live id o :
  live !! id = None →
  sel f (<[id := o]> live) ≡ₚ if f o then o :: sel f live else sel f live.
Proof.
  intros Hn. unfold sel. destruct (f o) eqn:Hf.
  - rewrite map_filter_insert_True by done. rewrite map_to_list_insert; [done|].
    apply map_lookup_filter_None. by left.
  - rewrite map_filter_insert_False by (simpl; congruence). by rewrite delete_id.
Qed.

Lemma sel_delete f live id o :
  live !! id = Some o →
  sel f live ≡ₚ if f o then o :: sel f (delete id live) else sel f (delete id live).
Proof.
  intros Hl. rewrite <- (insert_delete_id live id o Hl) at 1.
  rewrite sel_insert by apply lookup_delete_eq. done.
Qed.

Record rep (s : State) (live : gmap Z Observer) : Prop := {
  rep_id : ∀ id o, live !! id = Some o →
    ob_id o = id ∧ 0 ≤ id < index_ s ∧ aid_ok (ob_client o) = true;
  rep_by_id : strictObserversById_ s = filter (λ p, is_strict p.2 = true) live;
  rep_by_key : ∀ key, default [] (strictObserversByKey_ s !! key) ≡ₚ sel (strict_at key) live ∧
    strictObserversByKey_ s !! key ≠ Some [];
  rep_range : ∀ key, let c := default (new_range_cache key) (rangeObserverCaches_ s !! key) in
    rc_keyPrefix c = key ∧ rc_keyPrefixEnd c = StringPlusOne key ∧
    rc_to c ≡ₚ ci <$> sel (range_at key false) live ∧
    rc_toWithPrevKv c ≡ₚ ci <$> sel (range_at key true) live;
  rep_index : 0 ≤ index_ s;
}.

Lemma rep_init : rep init ∅.
Proof.
  split.
  - intros id o. by rewrite lookup_empty.
  - by rewrite map_filter_empty.
  - intros key. split; [|done]. by unfold sel; rewrite map_filter_empty, map_to_list_empty.
  - intros key. simpl. split_and!; [done|done|..]; by unfold sel; rewrite map_filter_empty, map_to_list_empty.
  - done.
Qed.

Lemma rep_fresh s live : rep s live → live !! index_ s = None.
Proof.
  intros Hr. destruct (live !! index_ s) as [o|] eqn:E; [|done].
  destruct (rep_id _ _ Hr _ _ E) as (_ & ? & _). lia.
Qed.

(** The observer a request registers. *)
Definition created (from : AID) (request : WatchCreateRequest) (s : State) : Observer :=
  mkObserver from (index_ s) request.

(** Only the members [rep] is about matter. *)
Lemma rep_same s s' live :
  strictObserversById_ s' = strictObserversById_ s →
  strictObserversByKey_ s' = strictObserversByKey_ s →
  rangeObserverCaches_ s' = rangeObserverCaches_ s → index_ s' = index_ s →
  rep s live → rep s' live.
Proof. intros E1 E2 E3 E4 []. split; by rewrite ?E1, ?E2, ?E3, ?E4. Qed.

Lemma strict_at_range key o : IsRangeObserver (ob_request o) = true → strict_at key o = false.
Proof. unfold strict_at, is_strict. by intros ->. Qed.
Lemma range_at_strict key prev o : IsRangeObserver (ob_request o) = false → range_at key prev o = false.
Proof. unfold range_at. by intros ->. Qed.
Lemma strict_at_key key o :
  IsRangeObserver (ob_request o) = false → strict_at key o = bool_decide (wc_key (ob_request o) = key).
Proof. unfold strict_at, is_strict. by intros ->. Qed.
Lemma range_at_key key prev o :
  IsRangeObserver (ob_request o) = true →
  range_at key prev o = bool_decide (wc_key (ob_request o) = key) && Bool.eqb (wc_prev_kv (ob_request o)) prev.
Proof. unfold range_at. by intros ->. Qed.

Lemma rep_create_strict s live o :
  rep s live → aid_ok (ob_client o) = true → ob_id o = index_ s → IsRangeObserver (ob_request o) = false →
  let key := wc_key (ob_request o) in
  rep (set_index (index_ s + 1) (set_strict (<[index_ s := o]> (strictObserversById_ s))
        (<[key := default [] (strictObserversByKey_ s !! key) ++ [o]]> (strictObserversByKey_ s)) s))
      (<[index_ s := o]> live).
Proof.
  intros Hr Hok Hid Hs key. pose proof (rep_fresh _ _ Hr) as Hf. pose proof (rep_index _ _ Hr) as Hi.
  split; simpl.
  - intros id o' [[<- <-]|[Hne Hl]]%lookup_insert_Some; [split_and!; [done|lia|lia|done]|].
    destruct (rep_id _ _ Hr _ _ Hl) as (? & ? & ?). split_and!; (done || lia).
  - rewrite (rep_by_id _ _ Hr), map_filter_insert_True; [done|]. simpl. unfold is_strict. by rewrite Hs.
  - intros k. rewrite sel_insert, (strict_at_key _ _ Hs) by done. fold key.
    destruct (rep_by_key _ _ Hr k) as [Hp Hn].
    case_bool_decide as Hk.
    + subst k. rewrite lookup_insert_eq. split; [|by intros [= [_ [=]]%app_eq_nil]].
      simpl. rewrite Hp. by rewrite Permutation_app_comm.
    + by rewrite lookup_insert_ne.
  - intros k. rewrite !sel_insert, !range_at_strict by done. apply (rep_range _ _ Hr k).
  - lia.
Qed.

Lemma AddObserver_fields o c :
  rc_keyPrefix (AddObserver o c) = rc_keyPrefix c ∧
  rc_keyPrefixEnd (AddObserver o c) = rc_keyPrefixEnd c ∧
  rc_to (AddObserver o c) = rc_to c ++ (if wc_prev_kv (ob_request o) then [] else [ci o]) ∧
  rc_toWithPrevKv (AddObserver o c) =
    rc_toWithPrevKv c ++ (if wc_prev_kv (ob_request o) then [ci o] else []).
Proof. unfold AddObserver. case_match; simpl; by rewrite app_nil_r. Qed.

Lemma rep_create_range s live o :
  rep s live → aid_ok (ob_client o) = true → ob_id o = index_ s → IsRangeObserver (ob_request o) = true →
  let key := wc_key (ob_request o) in
  rep (set_index (index_ s + 1) (set_ranges
        (<[key := AddObserver o (default (new_range_cache key) (rangeObserverCaches_ s !! key))]>
           (rangeObserverCaches_ s)) s))
      (<[index_ s := o]> live).
Proof.
  intros Hr Hok Hid Hs key. pose proof (rep_fresh _ _ Hr) as Hf. pose proof (rep_index _ _ Hr) as Hi.
  split; simpl.
  - intros id o' [[<- <-]|[Hne Hl]]%lookup_insert_Some; [split_and!; [done|lia|lia|done]|].
    destruct (rep_id _ _ Hr _ _ Hl) as (? & ? & ?). split_and!; (done || lia).
  - rewrite (rep_by_id _ _ Hr), map_filter_insert_False, delete_id; [done|done|].
    simpl. unfold is_strict. by rewrite Hs.
  - intros k. rewrite sel_insert, strict_at_range by done. apply (rep_by_key _ _ Hr k).
  - intros k. rewrite !sel_insert, !range_at_key by done. fold key.
    destruct (rep_range _ _ Hr k) as (H1 & H2 & H3 & H4).
    case_bool_decide as Hk; [|by rewrite lookup_insert_ne].
    subst k. rewrite lookup_insert_eq. cbn [default from_option id].
    destruct (AddObserver_fields o (default (new_range_cache key) (rangeObserverCaches_ s !! key)))
      as (-> & -> & -> & ->).
    rewrite H1, H2, H3, H4. destruct (wc_prev_kv (ob_request o)); simpl; rewrite ?app_nil_r;
      split_and!; try done; by rewrite Permutation_app_comm.
  - lia.
Qed.

(** ** Removing by swapping with the last element *)
Lemma find_if_Some {A} (f : A → bool) l i a :
  find_if f l = Some (i, a) → l !! i = Some a ∧ f a = true.
Proof.
  revert i. induction l as [|b l IH]; intros i; simpl; [done|].
  destruct (f b) eqn:E; [by intros [= <- <-]|].
  destruct (find_if f l) as [[j c]|]; simpl; [|done]. intros [= <- <-]. by apply IH.
Qed.
Lemma find_if_None {A} (f : A → bool) l a : find_if f l = None → a ∈ l → f a = false.
Proof.
  induction l as [|b l IH]; simpl; [by intros _ ?%elem_of_nil|].
  destruct (f b) eqn:E; [done|]. intros H [<-|Ha]%elem_of_cons; [done|].
  apply IH; [|done]. by destruct (find_if f l) as [[]|].
Qed.

Lemma swap_pop_perm {A} i (l : list A) a : l !! i = Some a → l ≡ₚ a :: swap_pop i l.
Proof.
  intros Hi. unfold swap_pop. destruct l as [|b l] using rev_ind; [done|]. clear IHl.
  rewrite last_snoc, length_app. cbn [length].
  replace (length l + 1 - 1)%nat with (length l) by lia.
  destruct (decide (i < length l)%nat) as [Hlt|Hge].
  - rewrite insert_app_l, take_app_length' by (rewrite ?length_insert; lia).
    rewrite lookup_app_l in Hi by done.
    rewrite <- (list_insert_id _ _ _ Hi) at 1. rewrite !insert_take_drop by done.
    by solve_Permutation.
  - rewrite lookup_app_r in Hi by lia. destruct (i - length l)%nat as [|n] eqn:E; [|by destruct n].
    injection Hi as ->. replace i with (length l + 0)%nat by lia.
    rewrite insert_app_r, take_app_length. by rewrite Permutation_app_comm.
Qed.

(** Deleting the watch the find was for. *)
Lemma remove_perm {A} (f : A → bool) (l l' : list A) i a :
  find_if f l = Some (i, a) → l ≡ₚ a :: l' → swap_pop i l ≡ₚ l'.
Proof.
  intros [Hi _]%find_if_Some Hp. apply (Permutation_cons_inv (a:=a)).
  by rewrite <- swap_pop_perm.
Qed.

(** Live watches have different ids. *)
Lemma live_same s live id1 id2 o1 o2 :
  rep s live → live !! id1 = Some o1 → live !! id2 = Some o2 → ob_id o1 = ob_id o2 → o1 = o2.
Proof.
  intros Hr H1 H2 E. destruct (rep_id _ _ Hr _ _ H1) as [<- _].
  destruct (rep_id _ _ Hr _ _ H2) as [<- _]. congruence.
Qed.

Lemma rep_delete_index s live id id' o :
  rep s live → delete id live !! id' = Some o →
  ob_id o = id' ∧ 0 ≤ id' < index_ s ∧ aid_ok (ob_client o) = true.
Proof. intros Hr [_ H]%lookup_delete_Some. by apply (rep_id _ _ Hr). Qed.

(** [strictObserversByKey_] loses the observer. *)
Lemma rep_remove_strict s live id o :
  rep s live → live !! id = Some o → is_strict o = true →
  let s1 := RemoveStrictObserverById (wc_key (ob_request o)) (ob_id o) s in
  rep (set_strict (delete id (strictObserversById_ s1)) (strictObserversByKey_ s1) s1) (delete id live).
Proof.
  intros Hr Hl Hs s1. set (key := wc_key (ob_request o)) in *.
  assert (Hns : IsRangeObserver (ob_request o) = false) by (unfold is_strict in Hs; by destruct IsRangeObserver).
  destruct (rep_by_key _ _ Hr key) as [Hp Hne].
  assert (Hin : o ∈ sel (strict_at key) live).
  { apply elem_of_sel. exists id. split; [done|]. rewrite strict_at_key by done. by apply bool_decide_true. }
  destruct (strictObserversByKey_ s !! key) as [vec|] eqn:Ev; [|rewrite <- Hp in Hin; by apply elem_of_nil in Hin].
  simpl in Hp.
  destruct (find_if (λ obs, bool_decide (ob_id obs = ob_id o)) vec) as [[i o']|] eqn:Ef.
  2: { rewrite <- Hp in Hin. pose proof (find_if_None _ _ _ Ef Hin) as H. simpl in H. by rewrite bool_decide_true in H. }
  assert (o' = o) as ->.
  { destruct (find_if_Some _ _ _ _ Ef) as [Hi Hid%bool_decide_eq_true].
    assert (o' ∈ sel (strict_at key) live) as (id' & Hl' & _)%elem_of_sel
      by (rewrite <- Hp; by eapply list_elem_of_lookup_2).
    by eapply live_same. }
  assert (Hv : swap_pop i vec ≡ₚ sel (strict_at key) (delete id live)).
  { eapply remove_perm; [done|]. rewrite Hp, (sel_delete _ _ _ _ Hl), strict_at_key by done.
    by rewrite bool_decide_true. }
  assert (Es1 : s1 = set_strict (strictObserversById_ s)
    (if bool_decide (swap_pop i vec = []) then delete key (strictObserversByKey_ s)
     else <[key := swap_pop i vec]> (strictObserversByKey_ s)) s).
  { unfold s1, RemoveStrictObserverById. by rewrite Ev, Ef. }
  rewrite Es1. split; simpl.
  - intros id' o'. by apply rep_delete_index.
  - by rewrite (rep_by_id _ _ Hr), map_filter_delete.
  - intros k. destruct (rep_by_key _ _ Hr k) as [Hpk Hnk].
    rewrite (sel_delete _ _ _ _ Hl), strict_at_key in Hpk by done. fold key in Hpk.
    case_bool_decide as Hk.
    + subst k. case_bool_decide as Hnil.
      * rewrite lookup_delete_eq. split; [|done]. by rewrite <- Hv, Hnil.
      * rewrite lookup_insert_eq. split; [done|]. by intros [= ?].
    + case_bool_decide; by rewrite ?lookup_delete_ne, ?lookup_insert_ne.
  - intros k. pose proof (rep_range _ _ Hr k) as Hrk. cbv zeta in Hrk.
    by rewrite !(sel_delete _ _ _ _ Hl), !range_at_strict in Hrk.
  - apply (rep_index _ _ Hr).
Qed.

(** The vector a range watch is in, for its [prev_kv] flag. *)
Definition range_vec (prev : bool) (c : RangeObserverCache) : list (AID * Z) :=
  if prev then rc_toWithPrevKv c else rc_to c.
Definition set_range_vec (prev : bool) (v : list (AID * Z)) (c : RangeObserverCache) : RangeObserverCache :=
  if prev then set_toWithPrevKv v c else set_to v c.

Lemma range_vec_perm s live key prev :
  rep s live →
  range_vec prev (default (new_range_cache key) (rangeObserverCaches_ s !! key)) ≡ₚ
  ci <$> sel (range_at key prev) live.
Proof. intros Hr. destruct (rep_range _ _ Hr key) as (_ & _ & ? & ?). by destruct prev. Qed.

Lemma rep_remove_range s live id o c i :
  rep s live → live !! id = Some o → IsRangeObserver (ob_request o) = true →
  let key := wc_key (ob_request o) in
  let prev := wc_prev_kv (ob_request o) in
  rangeObserverCaches_ s !! key = Some c →
  find_if (λ x, bool_decide (id = x.2)) (range_vec prev c) = Some (i, ci o) →
  rep (set_ranges (<[key := set_range_vec prev (swap_pop i (range_vec prev c)) c]>
        (rangeObserverCaches_ s)) s) (delete id live).
Proof.
  intros Hr Hl Hrange key prev Hc Hf.
  pose proof (range_vec_perm _ _ key prev Hr) as Hp. rewrite Hc in Hp. cbn [default from_option] in Hp.
  rewrite (sel_delete _ _ _ _ Hl), range_at_key in Hp by done.
  rewrite bool_decide_true, eqb_reflx in Hp by done. cbn [andb] in Hp. rewrite fmap_cons in Hp.
  pose proof (remove_perm _ _ _ _ _ Hf Hp) as Hv.
  split; simpl.
  - intros id' o'. by apply rep_delete_index.
  - rewrite (rep_by_id _ _ Hr), map_filter_delete, delete_id; [done|].
    apply map_lookup_filter_None. right. intros o' Ho'. rewrite Ho' in Hl. injection Hl as ->.
    simpl. unfold is_strict. by rewrite Hrange.
  - intros k. destruct (rep_by_key _ _ Hr k) as [Hpk Hnk].
    by rewrite (sel_delete _ _ _ _ Hl), strict_at_range in Hpk by done.
  - intros k. pose proof (rep_range _ _ Hr k) as (H1 & H2 & H3 & H4).
    rewrite (sel_delete _ _ _ _ Hl), range_at_key in H3 by done.
    rewrite (sel_delete _ _ _ _ Hl), range_at_key in H4 by done. fold key prev in H3, H4.
    case_bool_decide as Hk.
    2: { rewrite lookup_insert_ne by done. by split_and!. }
    subst k. rewrite lookup_insert_eq. rewrite Hc in H1, H2, H3, H4.
    destruct prev; simpl in *; by split_and!.
  - apply (rep_index _ _ Hr).
Qed.

(** A client may cancel its own watches only. *)
Definition allowed (from : AID) (o : Observer) : bool :=
  negb (aid_ok from && negb (bool_decide (ob_client o = from))).

Lemma range_at_true key prev o :
  range_at key prev o = true ↔
  IsRangeObserver (ob_request o) = true ∧ wc_key (ob_request o) = key ∧ wc_prev_kv (ob_request o) = prev.
Proof.
  unfold range_at. rewrite !andb_true_iff, bool_decide_eq_true, eqb_true_iff. tauto.
Qed.

Lemma find_range_hit s live id o key c prev :
  rep s live → rangeObserverCaches_ s !! key = Some c →
  live !! id = Some o → range_at key prev o = true →
  ∃ i, find_if (λ x, bool_decide (id = x.2)) (range_vec prev c) = Some (i, ci o).
Proof.
  intros Hr Hc Hl Ha. pose proof (range_vec_perm _ _ key prev Hr) as Hp. rewrite Hc in Hp. simpl in Hp.
  assert (Hin : ci o ∈ range_vec prev c).
  { rewrite Hp. apply list_elem_of_fmap_2, elem_of_sel. eauto. }
  destruct (rep_id _ _ Hr _ _ Hl) as [Hid _].
  destruct (find_if _ _) as [[i x]|] eqn:E.
  - exists i. destruct (find_if_Some _ _ _ _ E) as [Hi%list_elem_of_lookup_2 Hx%bool_decide_eq_true].
    rewrite Hp in Hi. apply list_elem_of_fmap in Hi as (o' & -> & (id' & Hl' & _)%elem_of_sel).
    simpl in Hx. by rewrite (live_same _ _ _ _ _ _ Hr Hl Hl') by congruence.
  - pose proof (find_if_None _ _ _ E Hin) as H. simpl in H. by rewrite bool_decide_true in H.
Qed.

Lemma find_range_miss s live id key c prev :
  rep s live → rangeObserverCaches_ s !! key = Some c →
  (∀ o, live !! id = Some o → range_at key prev o = false) →
  find_if (λ x, bool_decide (id = x.2)) (range_vec prev c) = None.
Proof.
  intros Hr Hc Hm. pose proof (range_vec_perm _ _ key prev Hr) as Hp. rewrite Hc in Hp. simpl in Hp.
  destruct (find_if _ _) as [[i x]|] eqn:E; [|done].
  destruct (find_if_Some _ _ _ _ E) as [Hi%list_elem_of_lookup_2 Hx%bool_decide_eq_true].
  rewrite Hp in Hi. apply list_elem_of_fmap in Hi as (o & -> & (id' & Hl & Ha)%elem_of_sel).
  destruct (rep_id _ _ Hr _ _ Hl) as [Hid _]. simpl in Hx. rewrite Hx, Hid in Hm.
  by rewrite (Hm _ Hl) in Ha.
Qed.

(** The watch is in this vector of this prefix and [from] may cancel it. *)
Definition hit_at (live : gmap Z Observer) (id : Z) (from : AID) (prev : bool) (key : string) : bool :=
  match live !! id with
  | Some o => range_at key prev o && allowed from o
  | None => false
  end.

Lemma RemoveRangeObserverById_hit s live id from key c prev :
  rep s live → rangeObserverCaches_ s !! key = Some c → hit_at live id from prev key = true →
  let r := RemoveRangeObserverById id (range_vec prev c) from in
  aid_ok r.1 = true ∧
  rep (set_ranges (<[key := set_range_vec prev r.2 c]> (rangeObserverCaches_ s)) s) (delete id live).
Proof.
  intros Hr Hc Hh r. unfold hit_at in Hh. destruct (live !! id) as [o|] eqn:Hl; [|done].
  apply andb_true_iff in Hh as [Ha Hal].
  destruct (find_range_hit _ _ _ _ _ _ _ Hr Hc Hl Ha) as [i E].
  assert (Er : r = (ob_client o, swap_pop i (range_vec prev c))).
  { unfold r, RemoveRangeObserverById. rewrite E. unfold allowed in Hal. simpl.
    by rewrite (proj1 (negb_true_iff _) Hal). }
  rewrite Er. apply range_at_true in Ha as (H1 & <- & <-). split; [by apply (rep_id _ _ Hr id)|].
  by apply rep_remove_range.
Qed.

Lemma RemoveRangeObserverById_miss s live id from key c prev :
  rep s live → rangeObserverCaches_ s !! key = Some c → hit_at live id from prev key = false →
  RemoveRangeObserverById id (range_vec prev c) from = ("", range_vec prev c).
Proof.
  intros Hr Hc Hm. unfold RemoveRangeObserverById. unfold hit_at in Hm.
  destruct (live !! id) as [o|] eqn:Hl.
  - destruct (range_at key prev o) eqn:Ha.
    + destruct (find_range_hit _ _ _ _ _ _ _ Hr Hc Hl Ha) as [i ->]. simpl in *.
      unfold allowed in Hm. by rewrite (proj1 (negb_false_iff _) Hm).
    + by rewrite (find_range_miss _ _ _ _ _ _ Hr Hc) by (intros o' Ho'; congruence).
  - by rewrite (find_range_miss _ _ _ _ _ _ Hr Hc) by (intros o' Ho'; congruence).
Qed.

Lemma put_range_id key c s :
  rangeObserverCaches_ s !! key = Some c → exec (put_range key c) s = s.
Proof. intros Hc. unfold put_range. rewrite exec_modify, insert_id by done. by destruct s. Qed.
Lemma set_to_id c : set_to (rc_to c) c = c.
Proof. by destruct c. Qed.
Lemma set_toWithPrevKv_id c : set_toWithPrevKv (rc_toWithPrevKv c) c = c.
Proof. by destruct c. Qed.

Definition range_hit (live : gmap Z Observer) (id : Z) (from : AID) (keys : list string) : bool :=
  existsb (λ key, hit_at live id from false key || hit_at live id from true key) keys.

Lemma RemoveRangeLoop_spec s live id from ps :
  rep s live → Forall (λ p, rangeObserverCaches_ s !! p.1 = Some p.2) ps →
  let m := RemoveRangeLoop id from ps in
  val m s = range_hit live id from ps.*1 ∧
  rep (exec m s) (if range_hit live id from ps.*1 then delete id live else live) ∧
  watchKeyCount_ (exec m s) = watchKeyCount_ s.
Proof.
  intros Hr. induction ps as [|[key c] ps IH]; intros Hps m; [done|].
  inversion_clear Hps as [|? ? Hc Hps']. cbn [fst snd] in Hc. specialize (IH Hps').
  unfold m. cbn [RemoveRangeLoop]. rewrite fmap_cons. cbn [range_hit existsb fst]. clear m.
  destruct (hit_at live id from false key) eqn:Hf.
  { destruct (RemoveRangeObserverById_hit _ _ id from _ _ false Hr Hc Hf) as [Hok Hrep].
    cbn [range_vec set_range_vec orb] in *. by rewrite val_bind, exec_bind, Hok. }
  pose proof (RemoveRangeObserverById_miss _ _ id from _ _ false Hr Hc Hf) as Em.
  cbn [range_vec] in Em. rewrite Em. cbn [fst snd orb]. rewrite set_to_id.
  rewrite val_bind, exec_bind, put_range_id by done. cbn [aid_ok].
  change (aid_ok "") with false. cbv iota.
  destruct (hit_at live id from true key) eqn:Ht.
  { destruct (RemoveRangeObserverById_hit _ _ id from _ _ true Hr Hc Ht) as [Hok Hrep].
    cbn [range_vec set_range_vec orb] in *. by rewrite val_bind, exec_bind, Hok. }
  pose proof (RemoveRangeObserverById_miss _ _ id from _ _ true Hr Hc Ht) as Em'.
  cbn [range_vec] in Em'. rewrite Em'. cbn [fst snd orb]. rewrite set_toWithPrevKv_id.
  rewrite val_bind, exec_bind, put_range_id by done. apply IH.
Qed.

(** The watch exists and [from] may cancel it. *)
Definition cancels (live : gmap Z Observer) (id : Z) (from : AID) : bool :=
  match live !! id with Some o => allowed from o | None => false end.

Lemma range_hit_all s live id from :
  rep s live → strictObserversById_ s !! id = None →
  range_hit live id from (map_to_list (rangeObserverCaches_ s)).*1 = cancels live id from.
Proof.
  intros Hr Hs. apply eq_true_iff_eq. unfold range_hit, cancels, hit_at.
  rewrite existsb_exists. destruct (live !! id) as [o|] eqn:Hl; [|by split; [intros (? & _ & ?)|]].
  assert (Hrange : IsRangeObserver (ob_request o) = true).
  { destruct (IsRangeObserver (ob_request o)) eqn:E; [done|].
    rewrite (rep_by_id _ _ Hr) in Hs. apply map_lookup_filter_None in Hs as [?|Hs]; [congruence|].
    destruct (Hs o Hl). simpl. unfold is_strict. by rewrite E. }
  split.
  - intros (key & _ & H). apply orb_true_iff in H as [H|H]; by apply andb_true_iff in H as [_ ?].
  - intros Hal. exists (wc_key (ob_request o)). split.
    + apply list_elem_of_In, list_elem_of_fmap.
      pose proof (range_vec_perm _ _ (wc_key (ob_request o)) (wc_prev_kv (ob_request o)) Hr) as Hp.
      destruct (rangeObserverCaches_ s !! wc_key (ob_request o)) as [c|] eqn:Ec.
      * exists (wc_key (ob_request o), c). by rewrite elem_of_map_to_list.
      * exfalso. assert (Hin : ci o ∈ ci <$> sel (range_at (wc_key (ob_request o)) (wc_prev_kv (ob_request o))) live).
        { apply list_elem_of_fmap_2, elem_of_sel. exists id. by rewrite range_at_true. }
        rewrite <- Hp in Hin. simpl in Hin. by destruct (wc_prev_kv (ob_request o)); apply elem_of_nil in Hin.
    + rewrite Hal, !andb_true_r. apply orb_true_iff. rewrite !range_at_true.
      destruct (wc_prev_kv (ob_request o)); [by right|by left].
Qed.

Lemma RemoveObserverById_spec s live id from :
  rep s live →
  let m := RemoveObserverById id from in
  val m s = cancels live id from ∧
  rep (exec m s) (if cancels live id from then delete id live else live) ∧
  watchKeyCount_ (exec m s) = watchKeyCount_ s.
Proof.
  intros Hr m. unfold m, RemoveObserverById.
  rewrite val_bind, exec_bind, val_members, exec_members.
  destruct (strictObserversById_ s !! id) as [o|] eqn:Hs.
  - pose proof Hs as Hl. rewrite (rep_by_id _ _ Hr) in Hl.
    apply map_lookup_filter_Some in Hl as [Hl Hstrict]. unfold cancels. rewrite Hl.
    unfold allowed. destruct (decide (ob_client o = from)) as [->|Hne].
    + rewrite !bool_decide_true, andb_false_r by done. cbn [negb].
      rewrite !val_bind, !exec_bind, !exec_modify. split_and!; [done| |].
      * by apply rep_remove_strict.
      * unfold RemoveStrictObserverById. by destruct (strictObserversByKey_ s !! _).
    + rewrite !bool_decide_false by done. cbn [negb]. rewrite andb_true_r.
      destruct (aid_ok from); cbn [negb]; [done|].
      rewrite !val_bind, !exec_bind, !exec_modify. split_and!; [done| |].
      * by apply rep_remove_strict.
      * unfold RemoveStrictObserverById. by destruct (strictObserversByKey_ s !! _).
  - rewrite <- (range_hit_all s) by done. apply RemoveRangeLoop_spec; [done|].
    apply Forall_forall. intros [key c] H%elem_of_map_to_list. done.
Qed.

(** [watchKeyCount_] counts the live watches of each client. *)
Definition of_client (a : AID) (o : Observer) : bool := bool_decide (ob_client o = a).
Definition counted (s : State) (live : gmap Z Observer) : Prop :=
  ∀ a, watchKeyCount_ s !! a =
    let n := length (sel (of_client a) live) in
    if bool_decide (n = 0%nat) then None else Some (Z.of_nat n).

Lemma counted_create s live id o s' :
  counted s live → live !! id = None →
  watchKeyCount_ s' =
    <[ob_client o := default 0 (watchKeyCount_ s !! ob_client o) + 1]> (watchKeyCount_ s) →
  counted s' (<[id := o]> live).
Proof.
  intros Hc Hn E a. rewrite E.
  assert (Hsel : length (sel (of_client a) (<[id := o]> live)) =
    ((if bool_decide (ob_client o = a) then 1 else 0) + length (sel (of_client a) live))%nat).
  { rewrite sel_insert by done. unfold of_client at 1. by case_bool_decide. }
  rewrite Hsel. case_bool_decide as Ha; [subst a|by rewrite lookup_insert_ne].
  rewrite lookup_insert_eq, (Hc (ob_client o)). cbv zeta.
  set (n := length (sel _ live)). rewrite (bool_decide_false (1 + n = 0)%nat) by lia.
  f_equal. destruct n; simpl; lia.
Qed.

Lemma counted_delete s live id o s' :
  counted s live → live !! id = Some o →
  watchKeyCount_ s' =
    match watchKeyCount_ s !! ob_client o with
    | None => watchKeyCount_ s
    | Some n => if bool_decide (n - 1 = 0) then delete (ob_client o) (watchKeyCount_ s)
                else <[ob_client o := n - 1]> (watchKeyCount_ s)
    end →
  counted s' (delete id live).
Proof.
  intros Hc Hl E a. rewrite E. pose proof (Hc (ob_client o)) as Ho.
  assert (Hsel : ∀ a, length (sel (of_client a) live) =
    ((if bool_decide (ob_client o = a) then 1 else 0) + length (sel (of_client a) (delete id live)))%nat).
  { intros b. rewrite (sel_delete _ _ _ _ Hl). unfold of_client at 1. by case_bool_decide. }
  rewrite Hsel, bool_decide_true in Ho by done. cbv zeta in Ho. rewrite bool_decide_false in Ho by lia.
  rewrite Ho. specialize (Hc a). rewrite Hsel in Hc. cbv zeta in *.
  destruct (decide (ob_client o = a)) as [<-|Hne].
  - set (n := length (sel _ (delete id live))). destruct (decide (n = 0%nat)) as [Hn|Hn].
    + rewrite !bool_decide_true by lia. apply lookup_delete_eq.
    + rewrite !bool_decide_false, lookup_insert_eq by lia. f_equal. lia.
  - rewrite (bool_decide_false (ob_client o = a)) in Hc by done.
    destruct (bool_decide (_ - 1 = 0)); by rewrite ?lookup_delete_ne, ?lookup_insert_ne by done.
Qed.

Section registry.
Context {PB : Protobuf} (cancel_request : string → WatchRequest).

(** What a message means for the set of live watches. *)
Definition live_after (s : State) (m : Msg) (live : gmap Z Observer) : gmap Z Observer :=
  match m with
  | MCreate from _ request => <[index_ s := mkObserver from (index_ s) request]> live
  | MReceiveCancel from msg =>
      let id := wq_cancel_watch_id (cancel_request msg) in
      if cancels live id from then delete id live else live
  | _ => live
  end.

(** Messages of clients, and events. *)
Definition ordinary (m : Msg) : Prop :=
  match m with
  | MCreate from _ _ | MReceiveCancel from _ => aid_ok from = true
  | MExited _ | MCancel _ _ _ => False
  | _ => True
  end.

Lemma create_refines from uuid request s live :
  rep s live → counted s live → aid_ok from = true →
  let s' := exec (Create from uuid request) s in
  rep s' (<[index_ s := mkObserver from (index_ s) request]> live) ∧
  counted s' (<[index_ s := mkObserver from (index_ s) request]> live).
Proof.
  intros Hr Hc Hok s'. set (o := mkObserver from (index_ s) request).
  assert (Hnone : strictObserversById_ s !! index_ s = None).
  { rewrite (rep_by_id _ _ Hr). apply map_lookup_filter_None. left. by apply rep_fresh. }
  unfold s', Create, CreateWatch, CreateInternal. act_simpl. rewrite Tauto.if_same.
  destruct (IsRangeObserver request) eqn:Hrange; rewrite exec_modify.
  - split.
    + eapply rep_same; [..|by apply (rep_create_range s live o)]; reflexivity.
    + by eapply counted_create; [|apply rep_fresh|].
  - rewrite bool_decide_true by done. split.
    + eapply rep_same; [..|by apply (rep_create_strict s live o)]; reflexivity.
    + by eapply counted_create; [|apply rep_fresh|].
Qed.

Lemma cancel_refines from msg s live :
  rep s live → counted s live → aid_ok from = true →
  let id := wq_cancel_watch_id (cancel_request msg) in
  let s' := exec (ReceiveCancel cancel_request from msg) s in
  let live' := if cancels live id from then delete id live else live in
  rep s' live' ∧ counted s' live'.
Proof.
  intros Hr Hc Hok id s' live'. unfold s', ReceiveCancel. fold id. rewrite exec_bind.
  destruct (RemoveObserverById_spec s live id from Hr) as (-> & Hrep & Hcnt). fold live' in Hrep.
  set (s1 := exec (RemoveObserverById id from) s) in *.
  unfold live' in *. destruct (cancels live id from) eqn:Hcan.
  2: { split; [done|]. intros a. rewrite exec_ret, Hcnt. apply Hc. }
  unfold cancels in Hcan. destruct (live !! id) as [o|] eqn:Hl; [|done].
  assert (ob_client o = from) as Ho.
  { unfold allowed in Hcan. rewrite Hok in Hcan. simpl in Hcan. by case_bool_decide. }
  rewrite exec_bind, exec_ret. unfold Cancel. rewrite !exec_bind, exec_post, val_members, exec_members.
  rewrite Hcnt. split.
  - destruct (watchKeyCount_ s !! from); rewrite ?exec_bind, ?exec_modify, ?exec_ret; [|done].
    eapply rep_same; [..|done]; reflexivity.
  - eapply (counted_delete s live id o); [done|done|]. rewrite Ho.
    destruct (watchKeyCount_ s !! from); rewrite ?exec_bind, ?exec_modify, ?exec_ret, ?Hcnt; done.
Qed.

Lemma exec_event_silent r s : exec (AddToUnsyncedEvents r) s = s.
Proof. unfold AddToUnsyncedEvents. by case_match. Qed.
Lemma exec_OnDelete kv s : exec (OnDelete kv) s = s.
Proof. unfold OnDelete. rewrite exec_bind, exec_members. apply exec_event_silent. Qed.
Lemma exec_OnPut kv prevKv s : exec (OnPut kv prevKv) s = s.
Proof. unfold OnPut. rewrite exec_bind, exec_members. apply exec_event_silent. Qed.
Lemma exec_OnDeleteList kvs s : exec (OnDeleteList kvs) s = s.
Proof. apply (for_each_inv (λ s', s' = s)); [|done]. intros kv s' _ ->. apply exec_OnDelete. Qed.
End registry.

Lemma ordinary_refines {PB : Protobuf} (cancel_request : string → WatchRequest) m s live :
  rep s live → counted s live → ordinary m →
  let s' := exec (handle cancel_request m) s in
  let live' := live_after cancel_request s m live in
  rep s' live' ∧ counted s' live'.
Proof.
  intros Hr Hc Hm s' live'. unfold s', live'.
  destruct m as [from uuid request|from msg| |aid|kv prevKv|kv|kvs|from meth resp]; cbn [handle live_after ordinary] in *;
    try done.
  - rewrite exec_bind, exec_ret. by apply create_refines.
  - by apply cancel_refines.
  - by rewrite exec_OnPut.
  - by rewrite exec_OnDelete.
  - by rewrite exec_OnDeleteList.
Qed.

(** The actor and the set of live watches, message by message. *)
Fixpoint run {PB : Protobuf} (cancel_request : string → WatchRequest) (ms : list Msg)
    (s : State) (live : gmap Z Observer) : State * gmap Z Observer :=
  match ms with
  | [] => (s, live)
  | m :: ms => run cancel_request ms (exec (handle cancel_request m) s) (live_after cancel_request s m live)
  end.

Lemma run_refines {PB : Protobuf} (cancel_request : string → WatchRequest) ms s live :
  Forall ordinary ms → rep s live → counted s live →
  let r := run cancel_request ms s live in rep r.1 r.2 ∧ counted r.1 r.2.
Proof.
  intros H. revert s live. induction H as [|m ms Hm _ IH]; intros s live Hr Hc; [done|].
  destruct (ordinary_refines cancel_request m s live Hr Hc Hm). by apply IH.
Qed.

Lemma counted_init : counted init ∅.
Proof. intros a. unfold sel. by rewrite map_filter_empty, map_to_list_empty. Qed.


(** ** The receivers of an event *)
Definition wants (key : string) (prev : bool) (o : Observer) : bool :=
  Bool.eqb (wc_prev_kv (ob_request o)) prev &&
  (if IsRangeObserver (ob_request o) then IsPrefix key (new_range_cache (wc_key (ob_request o)))
   else bool_decide (wc_key (ob_request o) = key)).

Definition receivers (s : State) (key : string) (prev : bool) : list (AID * Z) :=
  (map_to_list (rangeObserverCaches_ s) ≫= λ p, if IsPrefix key p.2 then range_vec prev p.2 else []) ++
  (ci <$> filter (λ o, wc_prev_kv (ob_request o) = prev) (default [] (strictObserversByKey_ s !! key))).

Lemma notify_receivers s kv r :
  ue_to r = [] → ue_toWithPrevKv r = [] →
  let r' := notify s kv r in
  ue_to r' = receivers s (kv_key kv) false ∧ ue_toWithPrevKv r' = receivers s (kv_key kv) true ∧
  ue_event r' = ue_event r ∧ ue_eventWithPrevKv r' = ue_eventWithPrevKv r.
Proof.
  intros H1 H2 r'. unfold r', notify, CheckIfValidRangeCacheAndUpdateResponse, receivers.
  assert (Hrange : ∀ ps r, let r' := foldl (λ r p, if IsPrefix (kv_key kv) p.2
      then UpdateResponseWithCache p.2 r else r) r ps in
    ue_to r' = ue_to r ++ (ps ≫= λ p : string * _, if IsPrefix (kv_key kv) p.2 then range_vec false p.2 else []) ∧
    ue_toWithPrevKv r' = ue_toWithPrevKv r ++ (ps ≫= λ p : string * _, if IsPrefix (kv_key kv) p.2 then range_vec true p.2 else []) ∧
    ue_event r' = ue_event r ∧ ue_eventWithPrevKv r' = ue_eventWithPrevKv r).
  { induction ps as [|p ps IH]; intros r0; simpl; [by rewrite !app_nil_r|].
    destruct (IH (if IsPrefix (kv_key kv) p.2 then UpdateResponseWithCache p.2 r0 else r0))
      as (-> & -> & -> & ->).
    destruct (IsPrefix (kv_key kv) p.2); simpl; by rewrite ?app_assoc. }
  assert (Hstrict : ∀ vec r, let r' := foldl AddObserverToResponse r vec in
    ue_to r' = ue_to r ++ (ci <$> filter (λ o, wc_prev_kv (ob_request o) = false) vec) ∧
    ue_toWithPrevKv r' = ue_toWithPrevKv r ++ (ci <$> filter (λ o, wc_prev_kv (ob_request o) = true) vec) ∧
    ue_event r' = ue_event r ∧ ue_eventWithPrevKv r' = ue_eventWithPrevKv r).
  { induction vec as [|o vec IH]; intros r0; simpl; [by rewrite !app_nil_r|].
    destruct (IH (AddObserverToResponse r0 o)) as (-> & -> & -> & ->).
    unfold AddObserverToResponse. rewrite !filter_cons.
    destruct (wc_prev_kv (ob_request o)) eqn:E; simpl; by rewrite <- ?app_assoc. }
  pose proof (Hrange (map_to_list (rangeObserverCaches_ s)) r) as Hr1. cbv zeta in Hr1.
  set (r1 := foldl _ r (map_to_list _)) in *. destruct Hr1 as (E1 & E2 & E3 & E4).
  destruct (Hstrict (default [] (strictObserversByKey_ s !! kv_key kv)) r1) as (-> & -> & -> & ->).
  by rewrite E1, E2, E3, E4, H1, H2.
Qed.

Section receivers.
Context (s : State) (live : gmap Z Observer) (Hr : rep s live).

Lemma NoDup_ci_sel f : NoDup (ci <$> sel f live).
Proof using Hr.
  unfold sel. rewrite <- list_fmap_compose. apply NoDup_fmap_2_strong; [|apply NoDup_map_to_list].
  intros [i1 o1] [i2 o2] H1%elem_of_map_to_list H2%elem_of_map_to_list [= _ E].
  apply map_lookup_filter_Some in H1 as [H1 _], H2 as [H2 _]. simpl in E.
  destruct (rep_id _ _ Hr _ _ H1) as [<- _], (rep_id _ _ Hr _ _ H2) as [<- _].
  simpl in *. rewrite E in *. congruence.
Qed.

Lemma cached_vec key c prev :
  rangeObserverCaches_ s !! key = Some c → range_vec prev c ≡ₚ ci <$> sel (range_at key prev) live.
Proof using Hr. intros Hc. pose proof (range_vec_perm _ _ key prev Hr) as Hp. by rewrite Hc in Hp. Qed.
Lemma cached_prefix key c k :
  rangeObserverCaches_ s !! key = Some c → IsPrefix k c = IsPrefix k (new_range_cache key).
Proof using Hr.
  intros Hc. destruct (rep_range _ _ Hr key) as (H1 & H2 & _). rewrite Hc in H1, H2. simpl in *.
  unfold IsPrefix. by rewrite H1, H2.
Qed.

Lemma elem_of_receivers key prev x :
  x ∈ receivers s key prev ↔ x ∈ ci <$> sel (wants key prev) live.
Proof using Hr.
  unfold receivers. rewrite elem_of_app, list_elem_of_bind. split.
  - intros [([k c] & Hx & Hc%elem_of_map_to_list)|Hx]; cbn [snd] in *.
    + destruct (IsPrefix key c) eqn:Hp; [|by apply elem_of_nil in Hx].
      rewrite (cached_vec _ _ _ Hc) in Hx. apply list_elem_of_fmap in Hx as (o & -> & (id & Hl & Ha)%elem_of_sel).
      apply range_at_true in Ha as (H1 & <- & <-). apply list_elem_of_fmap_2, elem_of_sel.
      exists id. split; [done|]. unfold wants. by rewrite eqb_reflx, H1, <- (cached_prefix _ _ _ Hc), Hp.
    + apply list_elem_of_fmap in Hx as (o & -> & [Hprev Ho]%list_elem_of_filter).
      rewrite (proj1 (rep_by_key _ _ Hr key)) in Ho. apply elem_of_sel in Ho as (id & Hl & Ha).
      apply list_elem_of_fmap_2, elem_of_sel. exists id. split; [done|].
      unfold strict_at, is_strict in Ha. apply andb_true_iff in Ha as [Hs Hk].
      apply negb_true_iff in Hs. unfold wants. by rewrite Hs, Hk, Hprev, eqb_reflx.
  - intros (o & -> & (id & Hl & Hw)%elem_of_sel)%list_elem_of_fmap. unfold wants in Hw.
    apply andb_true_iff in Hw as [Hprev%eqb_prop Hw].
    destruct (IsRangeObserver (ob_request o)) eqn:Hrange.
    + left. assert (Hin : ci o ∈ ci <$> sel (range_at (wc_key (ob_request o)) prev) live).
      { apply list_elem_of_fmap_2, elem_of_sel. exists id. by rewrite range_at_true. }
      rewrite <- (range_vec_perm _ _ _ _ Hr) in Hin.
      destruct (rangeObserverCaches_ s !! wc_key (ob_request o)) as [c|] eqn:Hc.
      2: { simpl in Hin. by destruct prev; apply elem_of_nil in Hin. }
      exists (wc_key (ob_request o), c). rewrite elem_of_map_to_list. split; [|done].
      cbn [snd]. by rewrite (cached_prefix _ _ _ Hc), Hw.
    + right. apply list_elem_of_fmap_2, list_elem_of_filter. split; [done|].
      rewrite (proj1 (rep_by_key _ _ Hr key)). apply elem_of_sel. exists id. split; [done|].
      unfold strict_at, is_strict. by rewrite Hrange, Hw.
Qed.

Lemma NoDup_receivers key prev : NoDup (receivers s key prev).
Proof using Hr.
  apply NoDup_app. split_and!.
  - apply NoDup_bind; [| |apply NoDup_map_to_list].
    + intros [k1 c1] [k2 c2] x Hc1%elem_of_map_to_list Hc2%elem_of_map_to_list Hx1 Hx2. cbn [snd] in *.
      destruct (IsPrefix key c1); [|by apply elem_of_nil in Hx1].
      destruct (IsPrefix key c2); [|by apply elem_of_nil in Hx2].
      rewrite (cached_vec _ _ _ Hc1) in Hx1. rewrite (cached_vec _ _ _ Hc2) in Hx2.
      apply list_elem_of_fmap in Hx1 as (o1 & -> & (i1 & Hl1 & (_ & <- & _)%range_at_true)%elem_of_sel).
      apply list_elem_of_fmap in Hx2 as (o2 & E & (i2 & Hl2 & (_ & <- & _)%range_at_true)%elem_of_sel).
      injection E as _ E. rewrite (live_same _ _ _ _ _ _ Hr Hl1 Hl2 E) in *. congruence.
    + intros [k c] Hc%elem_of_map_to_list. cbn [snd]. destruct (IsPrefix key c); [|constructor].
      rewrite (cached_vec _ _ _ Hc). apply NoDup_ci_sel.
  - intros x Hx Hy. apply list_elem_of_bind in Hx as ([k c] & Hx & Hc%elem_of_map_to_list). cbn [snd] in *.
    destruct (IsPrefix key c); [|by apply elem_of_nil in Hx].
    rewrite (cached_vec _ _ _ Hc) in Hx.
    apply list_elem_of_fmap in Hx as (o1 & -> & (i1 & Hl1 & (Ho1 & _)%range_at_true)%elem_of_sel).
    apply list_elem_of_fmap in Hy as (o2 & E & [_ Ho]%list_elem_of_filter).
    rewrite (proj1 (rep_by_key _ _ Hr key)) in Ho. apply elem_of_sel in Ho as (i2 & Hl2 & Ha).
    injection E as _ E. rewrite (live_same _ _ _ _ _ _ Hr Hl1 Hl2 E) in *.
    by rewrite strict_at_range in Ha.
  - apply (NoDup_fmap_2_strong ci).
    + intros o1 o2 [_ H1]%list_elem_of_filter [_ H2]%list_elem_of_filter [= _ E].
      rewrite (proj1 (rep_by_key _ _ Hr key)) in H1, H2.
      apply elem_of_sel in H1 as (? & H1 & _), H2 as (? & H2 & _). by eapply live_same.
    + apply NoDup_filter. rewrite (proj1 (rep_by_key _ _ Hr key)).
      eapply NoDup_fmap_1, NoDup_ci_sel.
Qed.

Lemma receivers_perm key prev : receivers s key prev ≡ₚ ci <$> sel (wants key prev) live.
Proof using Hr.
  apply NoDup_Permutation; [apply NoDup_receivers|apply NoDup_ci_sel|apply elem_of_receivers].
Qed.
End receivers.

(** An event goes to the watches that want it, each once, in the form it asked
    for; nothing is posted when nobody wants it. *)
Definition delivers (live : gmap Z Observer) (os : list Out) (key : string) (e e' : Event) : Prop :=
  ∃ to to', to ≡ₚ ci <$> sel (wants key false) live ∧ to' ≡ₚ ci <$> sel (wants key true) live ∧
    os = if bool_decide (to = []) && bool_decide (to' = []) then [] else [PushAdd (mkUnsynced to e to' e')].

Lemma delivers_notify s live kv r :
  rep s live → ue_to r = [] → ue_toWithPrevKv r = [] →
  delivers live (outs (AddToUnsyncedEvents (notify s kv r)) s) (kv_key kv) (ue_event r) (ue_eventWithPrevKv r).
Proof.
  intros Hr H1 H2. destruct (notify_receivers s kv r H1 H2) as (E1 & E2 & E3 & E4).
  exists (receivers s (kv_key kv) false), (receivers s (kv_key kv) true).
  split_and!; [by apply receivers_perm..|]. unfold AddToUnsyncedEvents.
  destruct (notify s kv r) as [to e to' e']. cbn in *. subst. by destruct (_ && _).
Qed.

(** C19: an event reaches exactly the live watches whose key or prefix covers
    its key, each once; the watches that asked for the previous value get it,
    the others get the event without it. *)
Theorem event_receivers_exact {PB : Protobuf} (cancel_request : string → WatchRequest)
    (s : State) (live : gmap Z Observer) (kv prevKv : KeyValue) :
  rep s live →
  delivers live (outs (handle cancel_request (MOnPut kv prevKv)) s) (kv_key kv)
    (mkEvent EVENT_PUT kv None) (mkEvent EVENT_PUT kv (Some prevKv)) ∧
  delivers live (outs (handle cancel_request (MOnDelete prevKv)) s) (kv_key prevKv)
    (mkEvent EVENT_DELETE (mkKV (kv_key prevKv) 0 (kv_mod_revision prevKv + 1) 0 "" 0) None)
    (mkEvent EVENT_DELETE (mkKV (kv_key prevKv) 0 0 0 "" 0) (Some prevKv)).
Proof.
  intros Hr. cbn [handle]. unfold OnPut, OnDelete.
  rewrite !outs_bind, !val_members, !exec_members, !outs_members, !app_nil_l.
  split; by apply delivers_notify.
Qed.

(** ** A concrete registry *)
Definition null_pb : Protobuf.
Proof. split; split; first [exact (λ _, "")|exact (λ _, None)]. Defined.
Definition demo_cancel (s : string) : WatchRequest :=
  mkWatchRequest (mkWatchCreate "" "" false) (default (-1) (stoll s)).

(** Client ["c"] watches the key ["/a/x"] and the prefix ["/a/"], ["d"] watches
    the prefix ["/b/"] with the previous values; ["d"] tries to cancel a watch
    of ["c"]. *)
Definition demo_msgs : list Msg :=
  [MCreate "c" "u" (mkWatchCreate "/a/x" "" false);
   MCreate "c" "u" (mkWatchCreate "/a/" "/a0" false);
   MCreate "d" "u" (mkWatchCreate "/b/" "/b0" true);
   MReceiveCancel "d" "0"].
Definition demo_watch : State * gmap Z Observer := run (PB:=null_pb) demo_cancel demo_msgs init ∅.


Lemma demo_watch_rep : rep demo_watch.1 demo_watch.2.
Proof. apply run_refines; [by repeat constructor|apply rep_init|apply counted_init]. Qed.

Lemma event_receivers_exact_witness :
  let kv := mkKV "/a/x" 1 2 1 "v" 0 in
  delivers demo_watch.2 (outs (handle (PB:=null_pb) demo_cancel (MOnPut kv kv_empty)) demo_watch.1)
    "/a/x" (mkEvent EVENT_PUT kv None) (mkEvent EVENT_PUT kv (Some kv_empty)) ∧
  outs (handle (PB:=null_pb) demo_cancel (MOnPut kv kv_empty)) demo_watch.1 =
    [PushAdd (mkUnsynced [("c", 1); ("c", 0)] (mkEvent EVENT_PUT kv None)
                [] (mkEvent EVENT_PUT kv (Some kv_empty)))].
Proof.
  split; [|by vm_compute].
  apply (event_receivers_exact (PB:=null_pb) demo_cancel demo_watch.1 demo_watch.2
    (mkKV "/a/x" 1 2 1 "v" 0) kv_empty demo_watch_rep).
Defined.

(** When a client disconnects only its first watch in each vector of a prefix
    is removed: the second one stays, and keeps receiving events. *)
Theorem exit_keeps_range_watch :
  let s := (run (PB:=null_pb) demo_cancel
    [MCreate "c" "u" (mkWatchCreate "/a/" "/a0" false); MCreate "c" "v" (mkWatchCreate "/a/" "/a0" false);
     MExited "c"] init ∅).1 in
  let kv := mkKV "/a/x" 1 2 1 "v" 0 in
  outs (handle (PB:=null_pb) demo_cancel (MOnPut kv kv_empty)) s =
    [PushAdd (mkUnsynced [("c", 1)] (mkEvent EVENT_PUT kv None) [] (mkEvent EVENT_PUT kv (Some kv_empty)))].
Proof. by vm_compute. Qed.

(** A range watch fires for the keys with its prefix, whatever its
    [range_end]: a watch of the range from ["/a/b"] to ["/a/d"] misses ["/a/c"]. *)
Theorem range_end_is_ignored :
  let s := (run (PB:=null_pb) demo_cancel [MCreate "c" "u" (mkWatchCreate "/a/b" "/a/d" false)] init ∅).1 in
  in_range "/a/b" "/a/d" "/a/c" = true ∧
  outs (handle (PB:=null_pb) demo_cancel (MOnPut (mkKV "/a/c" 1 2 1 "v" 0) kv_empty)) s = [].
Proof. by vm_compute. Qed.
