(* ===== verification/PushService.v ===== *)
(** * The push actor

    [meta_store/server/src/watch_service_async_push_actor.cpp] groups the
    events of a watcher, drops those overtaken by a later event of their key,
    and sends the rest. *)

From S2P Require Import Prelude MetaTypes WatchService.
From stdpp Require Import base gmap strings list fin_maps.
From Stdlib Require Import ZArith Lia.

Open Scope Z_scope.
Set Default Proof Using "Type".

Module Push.
Import Watch.

Record State := mkState {
  unsyncedEvents_ : gmap Z (AID * list Event);
  aboutToPush_ : bool;
  pushEventCount_ : Z;
  maxEventCount_ : nat;
}.
Definition init : State := mkState ∅ false 0 0.
Definition pushEventThreshold_ : nat := 200.

Inductive Out :=
  | SelfPush                                   (* [litebus::Async] to itself *)
  | Send (to : AID) (name : string) (msg : string).
Abbreviation P := (Act State Out).

Section handlers.
Context {PB : Protobuf}.

Definition AddEventsForWatchId (client : AID) (watchId : Z) (event : Event) (s : State) : State :=
  let entry := default (client, []) (unsyncedEvents_ s !! watchId) in
  let dst := entry.2 ++ [event] in
  mkState (<[watchId := (entry.1, dst)]> (unsyncedEvents_ s)) (aboutToPush_ s) (pushEventCount_ s)
    (Nat.max (maxEventCount_ s) (length dst)).

(** The loop from the back: an event of a key seen before becomes null. *)
Fixpoint RemoveStaleEventsForSameKey (events : list Event) : list (option Event) * gset string :=
  match events with
  | [] => ([], ∅)
  | e :: events =>
      let r := RemoveStaleEventsForSameKey events in
      let key := kv_key (ev_kv e) in
      ((if bool_decide (key ∈ r.2) then None else Some e) :: r.1, {[key]} ∪ r.2)
  end.

Definition fresh_events (events : list Event) : list Event :=
  omap id (RemoveStaleEventsForSameKey events).1.

Definition LogPushedEventCount : P unit :=
  modify (λ s, mkState (unsyncedEvents_ s) (aboutToPush_ s) (pushEventCount_ s + 1) (maxEventCount_ s)).

Definition CheckAndSendEventResponse (client : AID) (watchId : Z) (events : list Event) : P unit :=
  let sent := fresh_events events in
  let currentRevision := foldl (λ r e, Z.max (kv_mod_revision (ev_kv e)) r) 0 sent in
  if bool_decide (sent = []) then mret tt
  else
    let response :=
      mkWatchResp (mkHeader META_STORE_CLUSTER_ID currentRevision) watchId false false "" sent in
    post (Send client "OnWatch" (ser (mkResp "" (ser response) 0 ""))) ≫= λ _,
    LogPushedEventCount.

Definition PushGroupedEvents : P bool :=
  s ← members;
  if negb (aboutToPush_ s) then mret false
  else
    for_each (map_to_list (unsyncedEvents_ s)) (λ p, CheckAndSendEventResponse p.2.1 p.1 p.2.2) ≫= λ _,
    modify (λ s, mkState ∅ false (pushEventCount_ s) 0) ≫= λ _,
    mret true.

Definition set_aboutToPush (b : bool) (s : State) : State :=
  mkState (unsyncedEvents_ s) b (pushEventCount_ s) (maxEventCount_ s).

Definition AddToUnsyncedEvents (r : UnsyncedEvents) : P bool :=
  modify (λ s, foldl (λ s ci, AddEventsForWatchId ci.1 ci.2 (ue_event r) s) s (ue_to r)) ≫= λ _,
  modify (λ s, foldl (λ s ci, AddEventsForWatchId ci.1 ci.2 (ue_eventWithPrevKv r) s) s
                 (ue_toWithPrevKv r)) ≫= λ _,
  s ← members;
  if (pushEventThreshold_ <? maxEventCount_ s)%nat then
    let backup := aboutToPush_ s in
    modify (set_aboutToPush true) ≫= λ _,
    PushGroupedEvents ≫= λ _,
    modify (set_aboutToPush backup) ≫= λ _,
    mret true
  else if negb (aboutToPush_ s) then
    modify (set_aboutToPush true) ≫= λ _,
    post SelfPush ≫= λ _,
    mret true
  else mret true.
End handlers.
End Push.
