(* ===== verification/PushProps.v ===== *)
(** * Properties of the push actor

    What a watcher decodes from the messages it is sent, against the events
    the watch actor handed over for it. *)

From S2P Require Import Prelude MetaTypes WatchService PushService.
From stdpp Require Import base gmap strings list fin_maps relations.
From Stdlib Require Import ZArith Lia.

Open Scope Z_scope.
Set Default Proof Using "Type".
Import Watch Push.

(** ** Events as updates *)
Definition event_key (e : Event) : string := kv_key (ev_kv e).
Definition apply_event (c : gmap string KeyValue) (e : Event) : gmap string KeyValue :=
  match ev_type e with
  | EVENT_PUT => <[event_key e := ev_kv e]> c
  | EVENT_DELETE => delete (event_key e) c
  end.
Definition replay_events (c : gmap string KeyValue) (es : list Event) : gmap string KeyValue :=
  foldl apply_event c es.

Lemma replay_events_app c es es' : replay_events c (es ++ es') = replay_events (replay_events c es) es'.
Proof. apply foldl_app. Qed.

(** Two updates of one key: the later one wins; of two keys: they commute. *)
Lemma apply_event_same c e e' :
  event_key e = event_key e' → apply_event (apply_event c e) e' = apply_event c e'.
Proof.
  intros E. unfold apply_event. rewrite E.
  destruct (ev_type e), (ev_type e');
    by rewrite ?insert_insert_eq, ?insert_delete_eq, ?delete_insert_eq, ?delete_delete_eq.
Qed.
Lemma apply_event_comm c e e' :
  event_key e ≠ event_key e' → apply_event (apply_event c e) e' = apply_event (apply_event c e') e.
Proof.
  intros Hne. unfold apply_event. destruct (ev_type e), (ev_type e').
  - by rewrite insert_insert_ne.
  - by rewrite delete_insert_ne.
  - by rewrite delete_insert_ne.
  - by rewrite delete_delete.
Qed.
Lemma replay_overwritten c e es :
  event_key e ∈ event_key <$> es → replay_events (apply_event c e) es = replay_events c es.
Proof.
  revert c. induction es as [|e' es IH]; intros c; [by intros ?%elem_of_nil|].
  rewrite fmap_cons, elem_of_cons. cbn [replay_events foldl]. intros H.
  destruct (decide (event_key e = event_key e')) as [E|Hne].
  - by rewrite apply_event_same.
  - destruct H as [?|H]; [done|]. rewrite apply_event_comm by done. by apply IH.
Qed.

(** ** Dropping stale events *)
Lemma stale_keys es k : k ∈ (RemoveStaleEventsForSameKey es).2 ↔ k ∈ event_key <$> es.
Proof.
  induction es as [|e es IH]; [set_solver|]. cbn [RemoveStaleEventsForSameKey snd].
  rewrite fmap_cons, elem_of_cons, elem_of_union, elem_of_singleton, IH. done.
Qed.
Lemma fresh_events_cons e es :
  fresh_events (e :: es) =
    if bool_decide (event_key e ∈ event_key <$> es) then fresh_events es else e :: fresh_events es.
Proof.
  unfold fresh_events. cbn [RemoveStaleEventsForSameKey fst]. fold (event_key e).
  rewrite (bool_decide_ext _ _ (stale_keys es (event_key e))). by case_bool_decide.
Qed.
Lemma replay_fresh es c : replay_events c (fresh_events es) = replay_events c es.
Proof.
  revert c. induction es as [|e es IH]; intros c; [done|]. rewrite fresh_events_cons.
  case_bool_decide as H.
  - rewrite IH. cbn [replay_events foldl]. by rewrite <- (replay_overwritten c e es H).
  - cbn [replay_events foldl]. apply IH.
Qed.
Lemma fresh_events_sublist es : fresh_events es `sublist_of` es.
Proof.
  induction es as [|e es IH]; [constructor|]. rewrite fresh_events_cons.
  case_bool_decide; by constructor.
Qed.
Lemma NoDup_fresh_events es : NoDup (event_key <$> fresh_events es).
Proof.
  induction es as [|e es IH]; [constructor|]. rewrite fresh_events_cons.
  case_bool_decide as H; [done|]. rewrite fmap_cons. apply NoDup_cons. split; [|done].
  intros Hin. apply H. eapply elem_of_sublist; [exact Hin|].
  by apply fmap_sublist, fresh_events_sublist.
Qed.
Lemma fresh_events_nil es : fresh_events es = [] ↔ es = [].
Proof.
  split; [|by intros ->]. induction es as [|e es IH]; [done|]. rewrite fresh_events_cons.
  case_bool_decide as H; [|done]. intros E. rewrite (IH E) in H. by apply elem_of_nil in H.
Qed.

(** ** The mailbox *)
Inductive PMsg := PAdd (r : UnsyncedEvents) | PPush.

Section push.
Context {PB : Protobuf}.

Definition phandle (m : PMsg) : P unit :=
  match m with
  | PAdd r => AddToUnsyncedEvents r ≫= λ _, mret tt
  | PPush => PushGroupedEvents ≫= λ _, mret tt
  end.

(** The events queued for a watch. *)
Definition pending (s : State) (id : Z) : list Event := (default ("", []) (unsyncedEvents_ s !! id)).2.

(** The events a message carries for a watch. *)
Definition added1 (id : Z) (m : PMsg) : list Event :=
  match m with
  | PAdd r => ((λ _, ue_event r) <$> filter (λ ci, ci.2 = id) (ue_to r)) ++
              ((λ _, ue_eventWithPrevKv r) <$> filter (λ ci, ci.2 = id) (ue_toWithPrevKv r))
  | PPush => []
  end.

(** What the client of a watch decodes. *)
Definition received1 (id : Z) (o : Out) : list Event :=
  match o with
  | Send _ _ msg =>
      match parse msg : option MetaStoreResponse with
      | Some res =>
          match parse (mr_responsemsg res) : option WatchResponse with
          | Some w => if bool_decide (wr_watch_id w = id) then wr_events w else []
          | None => []
          end
      | None => []
      end
  | SelfPush => []
  end.
Definition received (id : Z) (os : list Out) : list Event := os ≫= received1 id.

Lemma received_app id os os' : received id (os ++ os') = received id os ++ received id os'.
Proof. apply bind_app. Qed.

Lemma pending_add client i e s id :
  pending (AddEventsForWatchId client i e s) id = pending s id ++ (if decide (i = id) then [e] else []).
Proof.
  unfold pending, AddEventsForWatchId. cbn [unsyncedEvents_]. case_decide as H.
  - subst. rewrite lookup_insert_eq. simpl. f_equal. by destruct (unsyncedEvents_ s !! id).
  - by rewrite lookup_insert_ne, app_nil_r.
Qed.

Lemma pending_adds e cis s id :
  pending (foldl (λ s ci, AddEventsForWatchId ci.1 ci.2 e s) s cis) id =
  pending s id ++ ((λ _, e) <$> filter (λ ci, ci.2 = id) cis).
Proof.
  revert s. induction cis as [|[a i] cis IH]; intros s; [by rewrite app_nil_r|].
  cbn [foldl]. rewrite IH, pending_add, filter_cons. cbn [fst snd].
  case_decide; [by rewrite <- app_assoc|by rewrite app_nil_r].
Qed.
End push.

Section delivery.
Context {PB : Protobuf} {Wok : CodecOk WatchResponse} {Rok : CodecOk MetaStoreResponse}.

Lemma received_send id client i es s :
  received id (outs (CheckAndSendEventResponse client i es) s) =
    if decide (i = id) then fresh_events es else [].
Proof using Wok Rok.
  unfold CheckAndSendEventResponse. case_bool_decide as H.
  { rewrite outs_ret, H. by case_decide. }
  rewrite outs_bind, outs_post. unfold LogPushedEventCount. rewrite outs_modify, app_nil_r.
  unfold received. cbn [mbind list_bind received1]. rewrite !parse_ser. cbn [mr_responsemsg].
  rewrite parse_ser. cbn [wr_watch_id wr_events]. rewrite app_nil_r.
  case_bool_decide; by case_decide.
Qed.

Lemma exec_send client i es s :
  unsyncedEvents_ (exec (CheckAndSendEventResponse client i es) s) = unsyncedEvents_ s.
Proof. unfold CheckAndSendEventResponse. by case_bool_decide. Qed.

Lemma received_loop id ps s :
  NoDup ps.*1 →
  received id (outs (for_each ps (λ p, CheckAndSendEventResponse p.2.1 p.1 p.2.2)) s) =
    fresh_events (default ("", []) ((list_to_map ps : gmap Z (AID * list Event)) !! id)).2.
Proof using Wok Rok.
  revert s. induction ps as [|[i [a es]] ps IH]; intros s Hnd; [done|].
  rewrite fmap_cons, NoDup_cons in Hnd. destruct Hnd as [Hi Hnd].
  cbn [for_each]. rewrite outs_bind, received_app, received_send, IH by done. cbn [fst snd] in *.
  rewrite list_to_map_cons. case_decide as H.
  - subst. rewrite lookup_insert_eq, (not_elem_of_list_to_map_1 ps id) by done. simpl.
    by rewrite app_nil_r.
  - by rewrite lookup_insert_ne.
Qed.

Lemma push_state s :
  aboutToPush_ s = true →
  let s' := exec PushGroupedEvents s in
  unsyncedEvents_ s' = ∅ ∧ aboutToPush_ s' = false ∧ maxEventCount_ s' = 0%nat ∧
  SelfPush ∉ outs PushGroupedEvents s.
Proof.
  intros Ha s'. unfold s', PushGroupedEvents.
  rewrite exec_bind, outs_bind, val_members, exec_members, outs_members, app_nil_l, Ha. cbn [negb].
  rewrite !exec_bind, !outs_bind, exec_modify, exec_ret, outs_modify, outs_ret, !app_nil_r.
  split_and!; try done. set (os := outs _ s). assert (Hf : Forall (λ o, o ≠ SelfPush) os).
  { apply for_each_outs. intros p s0 _. unfold CheckAndSendEventResponse.
    case_bool_decide; by repeat constructor. }
  rewrite Forall_forall in Hf. intros H. by apply (Hf _ H).
Qed.

Lemma push_received s id :
  aboutToPush_ s = true → received id (outs PushGroupedEvents s) = fresh_events (pending s id).
Proof using Wok Rok.
  intros Ha. unfold PushGroupedEvents.
  rewrite outs_bind, val_members, exec_members, outs_members, app_nil_l, Ha. cbn [negb].
  rewrite !outs_bind, outs_modify, outs_ret, !app_nil_r.
  rewrite received_loop by apply NoDup_fst_map_to_list. by rewrite list_to_map_to_list.
Qed.

(** The state after the two loops of [AddToUnsyncedEvents]. *)
Definition enqueue (r : UnsyncedEvents) (s : State) : State :=
  foldl (λ s ci, AddEventsForWatchId ci.1 ci.2 (ue_eventWithPrevKv r) s)
    (foldl (λ s ci, AddEventsForWatchId ci.1 ci.2 (ue_event r) s) s (ue_to r)) (ue_toWithPrevKv r).

Lemma pending_enqueue r s id : pending (enqueue r s) id = pending s id ++ added1 id (PAdd r).
Proof. unfold enqueue. by rewrite !pending_adds, <- app_assoc. Qed.

Lemma aboutToPush_enqueue r s : aboutToPush_ (enqueue r s) = aboutToPush_ s.
Proof.
  assert (H : ∀ e cis s, aboutToPush_ (foldl (λ s ci, AddEventsForWatchId ci.1 ci.2 e s) s cis) = aboutToPush_ s).
  { intros e cis. induction cis as [|ci cis IH]; intros s0; [done|]. simpl. by rewrite IH. }
  unfold enqueue. by rewrite !H.
Qed.

(** Either everything queued is sent at once, or a push is on its way. *)
Lemma add_effect r s :
  let s1 := enqueue r s in
  let s' := exec (AddToUnsyncedEvents r) s in
  let os := outs (AddToUnsyncedEvents r) s in
  if (pushEventThreshold_ <? maxEventCount_ s1)%nat then
    unsyncedEvents_ s' = ∅ ∧ aboutToPush_ s' = aboutToPush_ s ∧ maxEventCount_ s' = 0%nat ∧
    SelfPush ∉ os ∧ os = outs PushGroupedEvents (set_aboutToPush true s1)
  else
    unsyncedEvents_ s' = unsyncedEvents_ s1 ∧ aboutToPush_ s' = true ∧
    maxEventCount_ s' = maxEventCount_ s1 ∧ os = if aboutToPush_ s then [] else [SelfPush].
Proof.
  intros s1 s' os. unfold s', os, AddToUnsyncedEvents.
  rewrite !exec_bind, !outs_bind, !exec_modify, !outs_modify, val_members, exec_members, outs_members, !app_nil_l.
  fold (enqueue r s). fold s1. pose proof (aboutToPush_enqueue r s) as Ha. fold s1 in Ha.
  destruct (pushEventThreshold_ <? maxEventCount_ s1)%nat.
  - destruct (push_state (set_aboutToPush true s1) eq_refl) as (H1 & H2 & H3 & H4).
    rewrite !exec_bind, !outs_bind, !exec_modify, !outs_modify, exec_ret, outs_ret, app_nil_l, !app_nil_r.
    by rewrite Ha.
  - rewrite Ha. destruct (aboutToPush_ s) eqn:E; cbn [negb].
    + rewrite exec_ret, outs_ret, Ha. done.
    + by act_simpl.
Qed.

(** What has been received and what is still queued make up what was added. *)
Lemma phandle_balance m s id c :
  replay_events (replay_events c (received id (outs (phandle m) s))) (pending (exec (phandle m) s) id) =
  replay_events c (pending s id ++ added1 id m).
Proof using Wok Rok.
  destruct m as [r|]; cbn [phandle]; rewrite exec_bind, outs_bind, exec_ret, outs_ret, app_nil_r.
  - pose proof (add_effect r s) as H. cbv zeta in H.
    rewrite <- pending_enqueue. destruct (_ <? _)%nat.
    + destruct H as (E & _ & _ & _ & ->). unfold pending at 1. rewrite E, lookup_empty. simpl.
      rewrite push_received by done. by rewrite replay_fresh.
    + destruct H as (E & _ & _ & ->). unfold pending at 1. rewrite E.
      by destruct (aboutToPush_ s).
  - cbn [added1]. rewrite app_nil_r. destruct (aboutToPush_ s) eqn:Ha.
    + destruct (push_state s Ha) as (E & _). rewrite push_received by done. unfold pending at 2.
      rewrite E, lookup_empty. simpl. by rewrite replay_fresh.
    + unfold PushGroupedEvents. rewrite exec_bind, outs_bind, val_members, exec_members, outs_members, Ha.
      done.
Qed.
End delivery.

(** The actor and everything it has sent, message by message. *)
Fixpoint prun {PB : Protobuf} (ms : list PMsg) (s : State) (os : list Out) : State * list Out :=
  match ms with
  | [] => (s, os)
  | m :: ms => prun ms (exec (phandle m) s) (os ++ outs (phandle m) s)
  end.


(** ** Nothing stays queued *)
Section mailbox.
Context {PB : Protobuf}.

(** The actor with the number of [PushGroupedEvents] it has posted to itself
    and not handled yet; [Cancel] posts further ones. *)
Definition self_pushes (os : list Out) : nat :=
  length (List.filter (λ o, match o with SelfPush => true | Send _ _ _ => false end) os).
Inductive mail_step : State * nat → State * nat → Prop :=
  | mail_add r s n :
      mail_step (s, n) (exec (phandle (PAdd r)) s, (n + self_pushes (outs (phandle (PAdd r)) s))%nat)
  | mail_self s n : mail_step (s, S n) (exec (phandle PPush) s, n)
  | mail_cancel s n : mail_step (s, n) (exec (phandle PPush) s, n).

Definition mail_ok (p : State * nat) : Prop :=
  (∀ id, length (pending p.1 id) ≤ maxEventCount_ p.1)%nat ∧
  (maxEventCount_ p.1 ≤ pushEventThreshold_)%nat ∧
  (unsyncedEvents_ p.1 ≠ ∅ → aboutToPush_ p.1 = true) ∧
  (aboutToPush_ p.1 = true → 0 < p.2)%nat.

Lemma pending_le_enqueue r s :
  (∀ id, length (pending s id) ≤ maxEventCount_ s)%nat →
  (∀ id, length (pending (enqueue r s) id) ≤ maxEventCount_ (enqueue r s))%nat.
Proof.
  assert (H : ∀ e cis s, (∀ id, length (pending s id) ≤ maxEventCount_ s)%nat →
    let s' := foldl (λ s ci, AddEventsForWatchId ci.1 ci.2 e s) s cis in
    (∀ id, length (pending s' id) ≤ maxEventCount_ s')%nat).
  { intros e cis. induction cis as [|[a i] cis IH]; intros s0 Hs; [done|]. apply IH.
    intros id. rewrite pending_add. cbn [AddEventsForWatchId maxEventCount_ fst snd].
    specialize (Hs id). case_decide as Hi; [subst|rewrite app_nil_r; lia].
    unfold pending in *. destruct (unsyncedEvents_ s0 !! id); simpl in *; rewrite ?length_app; simpl; lia. }
  intros Hs. unfold enqueue. by apply H, H.
Qed.

Lemma mail_push_ok s n n' :
  mail_ok (s, n) → (n' = n ∨ n = S n')%nat → mail_ok (exec (phandle PPush) s, n').
Proof.
  intros (H1 & H2 & H3 & H4) Hn. unfold mail_ok in *. cbn [fst snd phandle] in *. rewrite exec_bind, exec_ret.
  destruct (aboutToPush_ s) eqn:Ha.
  - destruct (push_state s Ha) as (E1 & E2 & E3 & _). unfold pending. rewrite E1, E2, E3.
    split_and!; try done; lia.
  - unfold PushGroupedEvents. rewrite exec_bind, val_members, exec_members, Ha. cbn [negb].
    rewrite exec_ret, Ha. by split_and!.
Qed.

Lemma mail_step_ok p p' : mail_step p p' → mail_ok p → mail_ok p'.
Proof.
  intros [r s n|s n|s n] Hok; [|by eapply mail_push_ok; [|right]|by eapply mail_push_ok; [|left]].
  destruct Hok as (H1 & H2 & H3 & H4). unfold mail_ok in *. cbn [fst snd phandle] in *.
  rewrite exec_bind, outs_bind, exec_ret, outs_ret, app_nil_r.
  pose proof (add_effect r s) as H. cbv zeta in H.
  destruct (Nat.ltb_spec pushEventThreshold_ (maxEventCount_ (enqueue r s))) as [Hlt|Hge].
  - destruct H as (E1 & E2 & E3 & _). unfold pending. rewrite E1, E2, E3. split_and!; try done; try lia.
    intros Ha%H4. lia.
  - destruct H as (E1 & E2 & E3 & E4). unfold pending. rewrite E1, E2, E3, E4. split_and!; try done.
    + intros id. by apply pending_le_enqueue.
    + intros _. destruct (aboutToPush_ s); [specialize (H4 eq_refl)|]; unfold self_pushes; simpl; lia.
Qed.
End mailbox.

(** C21: no event stays queued. Whatever sequence of additions, pushes and
    cancellations is handled, at most 200 events wait for a watcher, and
    whenever some wait a push is in the mailbox; handling a push then empties
    the queues. *)
Theorem no_event_stuck {PB : Protobuf} (s : State) (n : nat) :
  rtc mail_step (init, 0%nat) (s, n) →
  (∀ id, length (pending s id) ≤ 200)%nat ∧
  (unsyncedEvents_ s ≠ ∅ → (0 < n)%nat ∧ unsyncedEvents_ (exec (phandle PPush) s) = ∅).
Proof.
  intros H. assert (mail_ok (s, n)) as (H1 & H2 & H3 & H4).
  { revert H. apply (rtc_ind_r mail_ok); [|intros; by eapply mail_step_ok].
    split; [done|]. split; [apply Nat.le_0_l|done]. }
  cbn [fst snd] in *. unfold pushEventThreshold_ in H2. split.
  - intros id. specialize (H1 id). lia.
  - intros Hne. specialize (H3 Hne). split; [by apply H4|].
    cbn [phandle]. rewrite exec_bind, exec_ret. by apply push_state.
Qed.

(** ** Concrete parameters for the witnesses *)
Definition demo_pb : Protobuf.
Proof.
  split; first [exact (countable_codec WatchResponse) | exact (countable_codec MetaStoreResponse)
    | split; first [exact (λ _, "")|exact (λ _, None)]].
Defined.

(** Two puts of a key and one of another for watch 1 of client ["c"]. *)
Definition demo_event (key value : string) (rev : Z) : UnsyncedEvents :=
  let e := mkEvent EVENT_PUT (mkKV key rev rev 1 value 0) None in
  mkUnsynced [("c", 1)] e [] e.
Definition demo_put (key value : string) (rev : Z) : PMsg := PAdd (demo_event key value rev).
Definition demo_msgs : list PMsg :=
  [demo_put "a" "1" 1; demo_put "b" "2" 2; demo_put "a" "3" 3; PPush; demo_put "b" "4" 4].


Definition demo_queued : State := exec (phandle (PB:=demo_pb) (demo_put "a" "1" 1)) init.

Lemma no_event_stuck_witness :
  unsyncedEvents_ demo_queued ≠ ∅ ∧ unsyncedEvents_ (exec (phandle (PB:=demo_pb) PPush) demo_queued) = ∅.
Proof.
  assert (H : unsyncedEvents_ demo_queued ≠ ∅) by by vm_compute.
  split; [exact H|].
  destruct (no_event_stuck (PB:=demo_pb) demo_queued 1) as [_ H2]; [|by apply H2].
  apply rtc_once, (mail_add (PB:=demo_pb) (demo_event "a" "1" 1) init 0).
Defined.
