(* ===== verification/Backup.v ===== *)
(** * The backup actor

    [meta_store/server/src/backup_actor.cpp]: the writes of the key-value actor
    are collected in maps, the maps are queued, and queued maps are merged into
    transactions on the storage below, separately for writes that wait for the
    answer and for writes that do not. *)

From S2P Require Import Prelude MetaTypes.
From stdpp Require Import base gmap strings list fin_maps.
From Stdlib Require Import ZArith Lia.

Open Scope Z_scope.
Set Default Proof Using "Type".

Module Backup.

(** What to do with a key: [None] deletes it. *)
Abbreviation Batch := (gmap string (option KeyValue)) (only parsing).

Definition ETCD_BODY_LIMIT : Z := 1 * 1024 * 1024.
Definition CHECK_ASYNC_BACKUP_INTERVAL : Z := 2 * 60 * 1000.

Record Options := mkOptions {
  enableSyncSysFunc_ : bool;
  metaStoreMaxFlushConcurrency_ : Z;
  metaStoreMaxFlushBatchSize_ : Z;
}.

(** A promise is a number; [nextPromise_] names the next one. *)
Record State := mkState {
  toBackup_ : Batch;
  toBackupSize_ : Z;
  promises_ : list nat;
  toFlush_ : list (Batch * Z);
  toFlushPromises_ : list (list nat);
  toBackupAsync_ : Batch;
  toBackupAsyncSize_ : Z;
  toFlushAsync_ : list (Batch * Z);
  currentFlushThreshold_ : Z;
  inFlushing_ : Z;
  inFlushingAsync_ : bool;
  nextPromise_ : nat;
}.
Definition init (o : Options) : State :=
  mkState ∅ 0 [] [] [] ∅ 0 [] (metaStoreMaxFlushConcurrency_ o) 0 false 0.

(** Replacing the members of the waiting and of the other side. *)
Definition set_collect (b : Batch) (n : Z) (p : list nat) (s : State) : State :=
  mkState b n p (toFlush_ s) (toFlushPromises_ s) (toBackupAsync_ s) (toBackupAsyncSize_ s)
    (toFlushAsync_ s) (currentFlushThreshold_ s) (inFlushing_ s) (inFlushingAsync_ s) (nextPromise_ s).
Definition set_queue (q : list (Batch * Z)) (p : list (list nat)) (s : State) : State :=
  mkState (toBackup_ s) (toBackupSize_ s) (promises_ s) q p (toBackupAsync_ s) (toBackupAsyncSize_ s)
    (toFlushAsync_ s) (currentFlushThreshold_ s) (inFlushing_ s) (inFlushingAsync_ s) (nextPromise_ s).
Definition set_collectAsync (b : Batch) (n : Z) (s : State) : State :=
  mkState (toBackup_ s) (toBackupSize_ s) (promises_ s) (toFlush_ s) (toFlushPromises_ s) b n
    (toFlushAsync_ s) (currentFlushThreshold_ s) (inFlushing_ s) (inFlushingAsync_ s) (nextPromise_ s).
Definition set_queueAsync (q : list (Batch * Z)) (s : State) : State :=
  mkState (toBackup_ s) (toBackupSize_ s) (promises_ s) (toFlush_ s) (toFlushPromises_ s)
    (toBackupAsync_ s) (toBackupAsyncSize_ s) q (currentFlushThreshold_ s) (inFlushing_ s)
    (inFlushingAsync_ s) (nextPromise_ s).
Definition set_flow (threshold inFlushing : Z) (inAsync : bool) (s : State) : State :=
  mkState (toBackup_ s) (toBackupSize_ s) (promises_ s) (toFlush_ s) (toFlushPromises_ s)
    (toBackupAsync_ s) (toBackupAsyncSize_ s) (toFlushAsync_ s) threshold inFlushing inAsync (nextPromise_ s).
Definition set_nextPromise (n : nat) (s : State) : State :=
  mkState (toBackup_ s) (toBackupSize_ s) (promises_ s) (toFlush_ s) (toFlushPromises_ s)
    (toBackupAsync_ s) (toBackupAsyncSize_ s) (toFlushAsync_ s) (currentFlushThreshold_ s)
    (inFlushing_ s) (inFlushingAsync_ s) n.

(** An operation of the transaction sent to the storage. *)
Inductive TxnOperation := OpPut (key value : string) | OpDelete (key : string).

(** ** Messages posted by the handlers *)
Inductive Out :=
  | AsyncFlush | AsyncDoFlush | AsyncFlushAsync | AsyncDoFlushForAsync
  | AfterTrigger (milliseconds : Z)
  | Commit (thenOps : list TxnOperation) (batch : Batch) (promises : list nat)
  | SetValue (promise : nat) (status : Status)
  | PersistorPut (key value : string) | PersistorDelete (key : string)
  | PersistorGet (key : string) | PersistorWatch (key : string).

Abbreviation B := (Act State Out).

(** The returned [Future<Status>]: there, or a promise. *)
Inductive FutureStatus := Done (status : Status) | Promise (p : nat).

Section handlers.
Context {KVC : Codec KeyValue} (ByteSizeLong : KeyValue → Z) (o : Options).

(** ** Committing *)
Definition SYSTEM_FUNC_SYMBOL : list string :=
  ["0-system-faascontroller"; "0-system-faasfrontend"; "0-system-faasmanager"; "0-system-faasscheduler"].
Definition IsSystemFuncInstanceInfo (key : string) : bool :=
  existsb (λ it, bool_decide (String.index 0 it key ≠ None)) SYSTEM_FUNC_SYMBOL.

Definition commit_ops (p : string * option KeyValue) : list TxnOperation :=
  let sys := enableSyncSysFunc_ o && IsSystemFuncInstanceInfo p.1 in
  match p.2 with
  | None => OpDelete (META_STORE_BACKUP_KV_PREFIX +:+ p.1) ::
            (if sys then [OpDelete p.1] else [])
  | Some val => OpPut (META_STORE_BACKUP_KV_PREFIX +:+ p.1) (ser val) ::
                (if sys then [OpPut p.1 (kv_value val)] else [])
  end.

Definition CommitBackup (toBackup : Batch) (promises : list nat) : B unit :=
  post (Commit (map_to_list toBackup ≫= commit_ops) toBackup promises).

(** ** Flushing *)

(** [for (...) toBackup[it->first] = ...]: the later map wins. *)
Definition merge_into (toBackup frontend : Batch) : Batch := frontend ∪ toBackup.

(** The loop of [DoFlush]: the merged map, the promises, and what is left of
    both queues. *)
Fixpoint DoFlushLoop (q : list (Batch * Z)) (ps : list (list nat)) (toBackup : Batch)
    (promises : list nat) (bodySize : Z) : Batch * list nat * list (Batch * Z) * list (list nat) :=
  match q, ps with
  | (frontend, backupSize) :: q', p :: ps' =>
      if Z.of_nat (size toBackup) <=? metaStoreMaxFlushBatchSize_ o then
        if ETCD_BODY_LIMIT <=? bodySize + backupSize then (toBackup, promises, q, ps)
        else DoFlushLoop q' ps' (merge_into toBackup frontend) (promises ++ p) (bodySize + backupSize)
      else (toBackup, promises, q, ps)
  | _, _ => (toBackup, promises, q, ps)
  end.

Definition DoFlush : B unit :=
  s ← members;
  if bool_decide (toFlush_ s = []) then mret tt
  else if currentFlushThreshold_ s <=? inFlushing_ s then mret tt
  else
    let r := DoFlushLoop (toFlush_ s) (toFlushPromises_ s) ∅ [] 0 in
    modify (set_queue r.1.2 r.2) ≫= λ _,
    if bool_decide (r.1.1.1 = ∅) then mret tt
    else
      modify (λ s, set_flow (currentFlushThreshold_ s) (inFlushing_ s + 1) (inFlushingAsync_ s) s) ≫= λ _,
      CommitBackup r.1.1.1 r.1.1.2.

Fixpoint DoFlushForAsyncLoop (q : list (Batch * Z)) (toBackup : Batch) (bodySize : Z)
    : Batch * list (Batch * Z) :=
  match q with
  | (frontend, backupSize) :: q' =>
      if Z.of_nat (size toBackup) <=? metaStoreMaxFlushBatchSize_ o then
        if ETCD_BODY_LIMIT <=? bodySize + backupSize then (toBackup, q)
        else DoFlushForAsyncLoop q' (merge_into toBackup frontend) (bodySize + backupSize)
      else (toBackup, q)
  | [] => (toBackup, q)
  end.

Definition DoFlushForAsync : B unit :=
  s ← members;
  if bool_decide (toFlushAsync_ s = []) then mret tt
  else if inFlushingAsync_ s then mret tt
  else
    let r := DoFlushForAsyncLoop (toFlushAsync_ s) ∅ 0 in
    modify (set_queueAsync r.2) ≫= λ _,
    if bool_decide (r.1 = ∅) then mret tt
    else
      modify (λ s, set_flow (currentFlushThreshold_ s) (inFlushing_ s) true s) ≫= λ _,
      CommitBackup r.1 [].

Definition Flush : B unit :=
  s ← members;
  if bool_decide (toBackup_ s = ∅) then mret tt
  else
    modify (set_queue (toFlush_ s ++ [(toBackup_ s, toBackupSize_ s)])
              (toFlushPromises_ s ++ [promises_ s])) ≫= λ _,
    modify (set_collect ∅ 0 []) ≫= λ _,
    if metaStoreMaxFlushBatchSize_ o <=? Z.of_nat (size (toBackup_ s)) then DoFlush
    else post AsyncDoFlush.

Definition FlushAsync : B unit :=
  s ← members;
  if bool_decide (toBackupAsync_ s = ∅) then mret tt
  else
    modify (set_queueAsync (toFlushAsync_ s ++ [(toBackupAsync_ s, toBackupAsyncSize_ s)])) ≫= λ _,
    modify (set_collectAsync ∅ 0) ≫= λ _,
    if metaStoreMaxFlushBatchSize_ o <=? Z.of_nat (size (toBackupAsync_ s)) then DoFlushForAsync
    else post AsyncDoFlushForAsync.

(** ** Answers of the storage *)
Definition SetPromises (status : Status) (committedPromises : list nat) : B bool :=
  if bool_decide (committedPromises = []) then
    modify (λ s, set_flow (currentFlushThreshold_ s) (inFlushing_ s) false s) ≫= λ _,
    s ← members;
    (if negb (bool_decide (toFlushAsync_ s = [])) && negb (bool_decide (toBackupAsync_ s = ∅))
     then post AsyncFlushAsync else post AsyncDoFlushForAsync) ≫= λ _,
    mret true
  else
    modify (λ s, set_flow (currentFlushThreshold_ s) ((inFlushing_ s - 1) mod 2 ^ 32) (inFlushingAsync_ s) s)
      ≫= λ _,
    for_each committedPromises (λ p, post (SetValue p status)) ≫= λ _,
    modify (λ s,
      let t := currentFlushThreshold_ s in
      let t' := if IsOk status then (if t <? metaStoreMaxFlushConcurrency_ o then t + 1 else t)
                else (if 1 <? t then t - 1 else t) in
      set_flow t' (inFlushing_ s) (inFlushingAsync_ s) s) ≫= λ _,
    s ← members;
    act_when (bool_decide (inFlushing_ s = 0)) (post AsyncDoFlush) ≫= λ _,
    mret true.

(** ** Writing *)
Definition CheckFlush (asyncBackup : bool) : B FutureStatus :=
  s ← members;
  if asyncBackup then
    (if metaStoreMaxFlushBatchSize_ o <=? Z.of_nat (size (toBackupAsync_ s)) then FlushAsync else mret tt)
      ≫= λ _,
    mret (Done StatusOK)
  else
    let promise := nextPromise_ s in
    modify (set_nextPromise (S promise)) ≫= λ _,
    modify (λ s, set_collect (toBackup_ s) (toBackupSize_ s) (promises_ s ++ [promise]) s) ≫= λ _,
    (if metaStoreMaxFlushBatchSize_ o <=? Z.of_nat (size (toBackup_ s)) then Flush else post AsyncFlush)
      ≫= λ _,
    mret (Promise promise).

Definition WritePutInternal (kv : KeyValue) (asyncBackup : bool) : B bool :=
  let kvSize := ByteSizeLong kv in
  s ← members;
  (if asyncBackup then
     (if ETCD_BODY_LIMIT <=? kvSize + toBackupAsyncSize_ s then FlushAsync else mret tt) ≫= λ _,
     modify (λ s, set_collectAsync (<[kv_key kv := Some kv]> (toBackupAsync_ s))
                    (toBackupAsyncSize_ s + kvSize) s)
   else
     (if ETCD_BODY_LIMIT <=? kvSize + toBackupSize_ s then Flush else mret tt) ≫= λ _,
     modify (λ s, set_collect (<[kv_key kv := Some kv]> (toBackup_ s)) (toBackupSize_ s + kvSize)
                    (promises_ s) s)) ≫= λ _,
  mret true.

(** [None] is the null pointer. *)
Definition WriteDeletesInternal (kvs : option (list KeyValue)) (asyncBackup : bool) : B bool :=
  match kvs with
  | None => mret false
  | Some kvs =>
      for_each kvs (λ kv,
        modify (λ s,
          if asyncBackup
          then set_collectAsync (<[kv_key kv := None]> (toBackupAsync_ s)) (toBackupAsyncSize_ s) s
          else set_collect (<[kv_key kv := None]> (toBackup_ s)) (toBackupSize_ s) (promises_ s) s))
        ≫= λ _,
      mret true
  end.

Definition WritePut (kv : KeyValue) (asyncBackup : bool) : B FutureStatus :=
  WritePutInternal kv asyncBackup ≫= λ _, CheckFlush asyncBackup.

Definition WriteDeletes (kvs : option (list KeyValue)) (asyncBackup : bool) : B FutureStatus :=
  WriteDeletesInternal kvs asyncBackup ≫= λ _, CheckFlush asyncBackup.

Definition txn_writes (txn : list (KeyValue * KeyValue) * list (option (list KeyValue))) : nat :=
  (length txn.1 + sum_list (from_option length 0%nat <$> txn.2))%nat.

Definition WriteTxn (txn : list (KeyValue * KeyValue) * list (option (list KeyValue)))
    (asyncBackup : bool) : B FutureStatus :=
  for_each txn.1 (λ puts, WritePutInternal puts.1 asyncBackup ≫= λ _, mret tt) ≫= λ _,
  for_each txn.2 (λ kvs, WriteDeletesInternal kvs asyncBackup ≫= λ _, mret tt) ≫= λ _,
  if bool_decide (txn_writes txn = 0%nat) then mret (Done StatusOK)
  else CheckFlush asyncBackup.

(** ** Timer and the calls that are passed on *)
Definition Init : B unit := post (AfterTrigger CHECK_ASYNC_BACKUP_INTERVAL).
Definition TriggerAsyncBackup : B unit :=
  FlushAsync ≫= λ _, post (AfterTrigger CHECK_ASYNC_BACKUP_INTERVAL).
Definition Delete (key : string) : B unit := post (PersistorDelete key).
Definition Get (key : string) : B unit := post (PersistorGet key).
Definition Put (key value : string) : B unit := post (PersistorPut key value).
Definition Watch (key : string) : B unit := post (PersistorWatch key).

(** ** The mailbox *)
Inductive Msg :=
  | MWritePut (kv : KeyValue) (asyncBackup : bool)
  | MWriteDeletes (kvs : option (list KeyValue)) (asyncBackup : bool)
  | MWriteTxn (txn : list (KeyValue * KeyValue) * list (option (list KeyValue))) (asyncBackup : bool)
  | MFlush | MDoFlush | MFlushAsync | MDoFlushForAsync | MTrigger
  | MSetPromises (status : Status) (committedPromises : list nat).

Definition handle (m : Msg) : B unit :=
  match m with
  | MWritePut kv a => WritePut kv a ≫= λ _, mret tt
  | MWriteDeletes kvs a => WriteDeletes kvs a ≫= λ _, mret tt
  | MWriteTxn txn a => WriteTxn txn a ≫= λ _, mret tt
  | MFlush => Flush
  | MDoFlush => DoFlush
  | MFlushAsync => FlushAsync
  | MDoFlushForAsync => DoFlushForAsync
  | MTrigger => TriggerAsyncBackup
  | MSetPromises st ps => SetPromises st ps ≫= λ _, mret tt
  end.
End handlers.
End Backup.
