(* ===== verification/BackupProps.v ===== *)
(** * Properties of the backup actor

    Batches as updates of a store, the order of the committed batches, the
    fate of every promise, and the progress of the queues. *)

From S2P Require Import Prelude MetaTypes Backup.
From stdpp Require Import base gmap strings list fin_maps relations.
From Stdlib Require Import ZArith Lia.

Open Scope Z_scope.
Set Default Proof Using "Type".
Import Backup.

(** ** Batches as updates *)
Definition apply_batch (b : Batch) (c : gmap string KeyValue) : gmap string KeyValue :=
  omap Datatypes.id b ∪ filter (λ p, b !! p.1 = None) c.

Lemma lookup_apply_batch b c k :
  apply_batch b c !! k = match b !! k with Some v => v | None => c !! k end.
Proof.
  unfold apply_batch. rewrite lookup_union, lookup_omap. destruct (b !! k) as [[v|]|] eqn:E; simpl.
  - by destruct (filter _ c !! k).
  - rewrite (left_id_L None (∪)). apply map_lookup_filter_None. right. intros kv _. simpl. by rewrite E.
  - rewrite (left_id_L None (∪)). destruct (c !! k) as [kv|] eqn:Ec.
    + by apply map_lookup_filter_Some.
    + apply map_lookup_filter_None. by left.
Qed.

Lemma apply_batch_empty c : apply_batch ∅ c = c.
Proof. apply map_eq. intros k. by rewrite lookup_apply_batch, lookup_empty. Qed.

Lemma apply_merge a f c : apply_batch (merge_into a f) c = apply_batch f (apply_batch a c).
Proof.
  apply map_eq. intros k. rewrite !lookup_apply_batch. unfold merge_into. rewrite lookup_union.
  destruct (f !! k), (a !! k); done.
Qed.

(** One write. *)
Definition apply_op (k : string) (v : option KeyValue) (c : gmap string KeyValue) : gmap string KeyValue :=
  match v with Some kv => <[k := kv]> c | None => delete k c end.

Lemma apply_insert k v b c : apply_batch (<[k := v]> b) c = apply_op k v (apply_batch b c).
Proof.
  apply map_eq. intros k'. rewrite lookup_apply_batch. unfold apply_op.
  destruct (decide (k = k')) as [->|Hne].
  - rewrite lookup_insert_eq. destruct v; [by rewrite lookup_insert_eq|by rewrite lookup_delete_eq].
  - rewrite lookup_insert_ne by done. destruct v;
      rewrite ?lookup_insert_ne, ?lookup_delete_ne, lookup_apply_batch by done; done.
Qed.

Definition apply_queue (q : list (Batch * Z)) (c : gmap string KeyValue) : gmap string KeyValue :=
  foldl (λ c e, apply_batch e.1 c) c q.

Lemma apply_queue_app q q' c : apply_queue (q ++ q') c = apply_queue q' (apply_queue q c).
Proof. apply foldl_app. Qed.

Arguments apply_batch : simpl never.
Arguments apply_queue : simpl never.

(** ** The loops merge a prefix of the queue *)
Section loops.
Context (o : Options).

Lemma DoFlushForAsyncLoop_spec q b n c :
  let r := DoFlushForAsyncLoop o q b n in
  apply_queue r.2 (apply_batch r.1 c) = apply_queue q (apply_batch b c) ∧ r.2 `suffix_of` q.
Proof.
  revert b n. induction q as [|[f sz] q IH]; intros b n; cbn [DoFlushForAsyncLoop]; [done|].
  repeat case_match; try done.
  destruct (IH (merge_into b f) (n + sz)) as [-> Hs]. rewrite apply_merge.
  split; [done|]. by apply suffix_cons_r.
Qed.

Lemma DoFlushLoop_spec q ps b pr n c :
  let r := DoFlushLoop o q ps b pr n in
  apply_queue r.1.2 (apply_batch r.1.1.1 c) = apply_queue q (apply_batch b c) ∧
  r.1.1.2 ++ concat r.2 = pr ++ concat ps ∧ r.1.2 `suffix_of` q ∧
  (length q = length ps → length r.1.2 = length r.2).
Proof.
  revert ps b pr n. induction q as [|[f sz] q IH]; intros ps b pr n; cbn [DoFlushLoop].
  { by destruct ps. }
  destruct ps as [|p ps]; [done|]. repeat case_match; try done.
  destruct (IH ps (merge_into b f) (pr ++ p) (n + sz)) as (-> & E & Hs & Hlen). rewrite apply_merge.
  split_and!; [done| |by apply suffix_cons_r|].
  - rewrite E. simpl. by rewrite <- app_assoc.
  - intros [= ?]. by apply Hlen.
Qed.
End loops.

(** ** What is queued, and what is committed *)

(** The two sides of the actor: [true] for the writes nobody waits for. *)
Definition collecting (a : bool) (s : State) : Batch := if a then toBackupAsync_ s else toBackup_ s.
Definition queued (a : bool) (s : State) : list (Batch * Z) := if a then toFlushAsync_ s else toFlush_ s.

(** The store [c] once everything queued on a side has been written to it. *)
Definition view (a : bool) (s : State) (c : gmap string KeyValue) : gmap string KeyValue :=
  apply_batch (collecting a s) (apply_queue (queued a s) c).

(** The store once the posted transactions have been executed in order. *)
Definition commit1 (c : gmap string KeyValue) (x : Out) : gmap string KeyValue :=
  match x with Commit _ b _ => apply_batch b c | _ => c end.
Definition committed (os : list Out) (c : gmap string KeyValue) : gmap string KeyValue :=
  foldl commit1 c os.

Lemma committed_app os os' c : committed (os ++ os') c = committed os' (committed os c).
Proof. apply foldl_app. Qed.

(** The action moves writes towards the storage and adds the writes [w]. *)
Definition bal {A} (a : bool) (m : B A) (s : State) (w : gmap string KeyValue → gmap string KeyValue) : Prop :=
  ∀ c, view a (exec m s) (committed (outs m s) c) = w (view a s c).

Lemma bal_bind {A A'} a (m : B A) (f : A → B A') s w w' :
  bal a m s w → bal a (f (val m s)) (exec m s) w' → bal a (m ≫= f) s (λ c, w' (w c)).
Proof. intros Hm Hf c. rewrite exec_bind, outs_bind, committed_app, Hf, Hm. done. Qed.
Lemma bal_bind_l {A A'} a (m : B A) (f : A → B A') s w :
  bal a m s w → bal a (f (val m s)) (exec m s) Datatypes.id → bal a (m ≫= f) s w.
Proof. intros Hm Hf. by apply (bal_bind a m f s w Datatypes.id). Qed.
Lemma bal_bind_r {A A'} a (m : B A) (f : A → B A') s w :
  bal a m s Datatypes.id → bal a (f (val m s)) (exec m s) w → bal a (m ≫= f) s w.
Proof. intros Hm Hf. by apply (bal_bind a m f s Datatypes.id w). Qed.
Lemma bal_ret {A} a (x : A) s : bal a (mret x) s Datatypes.id.
Proof. done. Qed.
Lemma bal_members a s : bal a members s Datatypes.id.
Proof. done. Qed.
Lemma bal_post a x s : (∀ c, commit1 c x = c) → bal a (post x) s Datatypes.id.
Proof. intros H c. rewrite exec_post, outs_post. unfold committed. simpl. by rewrite H. Qed.
Lemma bal_modify a f s w :
  (∀ c, view a (f s) c = w (view a s c)) → bal a (modify f) s w.
Proof. intros H c. by rewrite exec_modify, outs_modify, <- H. Qed.
Create HintDb bal.
#[export] Hint Resolve bal_ret bal_members : bal.
#[export] Hint Extern 5 (bal _ (post _) _ _) => (apply bal_post; done) : bal.

Section handlers.
Context {KVC : Codec KeyValue} (ByteSizeLong : KeyValue → Z) (o : Options).

Lemma bal_DoFlushForAsync s : bal true (DoFlushForAsync o) s Datatypes.id.
Proof.
  intros c. unfold DoFlushForAsync.
  rewrite exec_bind, outs_bind, val_members, exec_members, outs_members, app_nil_l.
  case_bool_decide; [done|]. destruct (inFlushingAsync_ s); [done|].
  destruct (DoFlushForAsyncLoop_spec o (toFlushAsync_ s) ∅ 0 c) as [Hq _].
  destruct (DoFlushForAsyncLoop o (toFlushAsync_ s) ∅ 0) as [b q]. cbn [fst snd] in *.
  rewrite apply_batch_empty in Hq.
  rewrite exec_bind, outs_bind, exec_modify, outs_modify, app_nil_l. case_bool_decide as Hb.
  - rewrite Hb, apply_batch_empty in Hq. rewrite exec_ret, outs_ret. unfold view. cbn. by rewrite Hq.
  - unfold CommitBackup. rewrite exec_bind, outs_bind, exec_modify, outs_modify, exec_post, outs_post.
    unfold view. cbn. by rewrite Hq.
Qed.

Lemma bal_DoFlush s : bal false (DoFlush o) s Datatypes.id.
Proof.
  intros c. unfold DoFlush.
  rewrite exec_bind, outs_bind, val_members, exec_members, outs_members, app_nil_l.
  case_bool_decide; [done|]. case_match; [done|].
  destruct (DoFlushLoop_spec o (toFlush_ s) (toFlushPromises_ s) ∅ [] 0 c) as [Hq _].
  destruct (DoFlushLoop o (toFlush_ s) (toFlushPromises_ s) ∅ [] 0) as [[[b pr] q] ps]. cbn [fst snd] in *.
  rewrite apply_batch_empty in Hq.
  rewrite exec_bind, outs_bind, exec_modify, outs_modify, app_nil_l. case_bool_decide as Hb.
  - rewrite Hb, apply_batch_empty in Hq. rewrite exec_ret, outs_ret. unfold view. cbn. by rewrite Hq.
  - unfold CommitBackup. rewrite exec_bind, outs_bind, exec_modify, outs_modify, exec_post, outs_post.
    unfold view. cbn. by rewrite Hq.
Qed.

Lemma bal_FlushAsync s : bal true (FlushAsync o) s Datatypes.id.
Proof.
  unfold FlushAsync. apply bal_bind_r; [auto with bal|]. rewrite val_members, exec_members.
  case_bool_decide; [auto with bal|]. intros c. rewrite exec_bind, outs_bind, exec_modify, outs_modify, app_nil_l.
  rewrite exec_bind, outs_bind, exec_modify, outs_modify, app_nil_l. set (s1 := set_collectAsync _ _ _).
  assert (Hv : ∀ c, view true s1 c = view true s c).
  { intros c'. unfold s1, view. cbn. by rewrite apply_batch_empty, apply_queue_app. }
  case_match; [rewrite bal_DoFlushForAsync; apply Hv|]. rewrite exec_post, outs_post. apply Hv.
Qed.
Lemma bal_Flush s : bal false (Flush o) s Datatypes.id.
Proof.
  unfold Flush. apply bal_bind_r; [auto with bal|]. rewrite val_members, exec_members.
  case_bool_decide; [auto with bal|]. intros c. rewrite exec_bind, outs_bind, exec_modify, outs_modify, app_nil_l.
  rewrite exec_bind, outs_bind, exec_modify, outs_modify, app_nil_l. set (s1 := set_collect _ _ _ _).
  assert (Hv : ∀ c, view false s1 c = view false s c).
  { intros c'. unfold s1, view. cbn. by rewrite apply_batch_empty, apply_queue_app. }
  case_match; [rewrite bal_DoFlush; apply Hv|]. rewrite exec_post, outs_post. apply Hv.
Qed.

Lemma bal_CheckFlush a s : bal a (CheckFlush o a) s Datatypes.id.
Proof.
  unfold CheckFlush. apply bal_bind_r; [auto with bal|]. rewrite val_members, exec_members.
  destruct a.
  - apply bal_bind_r; [|auto with bal]. case_match; [apply bal_FlushAsync|auto with bal].
  - apply bal_bind_r; [by apply bal_modify|]. apply bal_bind_r; [by apply bal_modify|].
    apply bal_bind_r; [|auto with bal]. case_match; [apply bal_Flush|auto with bal].
Qed.

Lemma bal_WritePutInternal a kv s :
  bal a (WritePutInternal ByteSizeLong o kv a) s (apply_op (kv_key kv) (Some kv)).
Proof.
  unfold WritePutInternal. apply bal_bind_r; [auto with bal|]. rewrite val_members, exec_members.
  apply bal_bind_l; [|auto with bal]. destruct a; (apply bal_bind_r;
    [case_match; [first [apply bal_FlushAsync|apply bal_Flush]|auto with bal]|]);
    apply bal_modify; intros c; unfold view; cbn; by rewrite apply_insert.
Qed.

Definition delete_kvs (kvs : list KeyValue) (c : gmap string KeyValue) : gmap string KeyValue :=
  foldl (λ c kv, apply_op (kv_key kv) None c) c kvs.

Lemma bal_WriteDeletesInternal a kvs s :
  bal a (WriteDeletesInternal kvs a) s (delete_kvs (default [] kvs)).
Proof.
  destruct kvs as [kvs|]; [|apply bal_ret]. unfold WriteDeletesInternal.
  apply bal_bind_l; [|auto with bal]. cbn [default from_option]. revert s.
  induction kvs as [|kv kvs IH]; intros s; [apply bal_ret|]. cbn [for_each].
  apply (bal_bind a _ _ _ (apply_op (kv_key kv) None) (delete_kvs kvs)); [|apply IH].
  apply bal_modify. intros c. destruct a; unfold view; cbn; by rewrite apply_insert.
Qed.
End handlers.

Section runs.
Context {KVC : Codec KeyValue} (ByteSizeLong : KeyValue → Z) (o : Options).

(** The writes a message carries, as an update of the store. *)
Definition writes (m : Msg) (c : gmap string KeyValue) : gmap string KeyValue :=
  match m with
  | MWritePut kv _ => apply_op (kv_key kv) (Some kv) c
  | MWriteDeletes kvs _ => delete_kvs (default [] kvs) c
  | MWriteTxn txn _ =>
      foldl (λ c kvs, delete_kvs (default [] kvs) c)
        (foldl (λ c p, apply_op (kv_key p.1) (Some p.1) c) c txn.1) txn.2
  | _ => c
  end.

(** The message belongs to a side, or to none. *)
Definition on_side (a : bool) (m : Msg) : Prop :=
  match m with
  | MWritePut _ b | MWriteDeletes _ b | MWriteTxn _ b => b = a
  | MFlush | MDoFlush => a = false
  | MFlushAsync | MDoFlushForAsync | MTrigger => a = true
  | MSetPromises _ _ => True
  end.

Lemma bal_for_each {X} a (l : list X) body s (w : X → gmap string KeyValue → gmap string KeyValue) :
  (∀ x s, bal a (body x) s (w x)) →
  bal a (for_each l body) s (λ c, foldl (λ c x, w x c) c l).
Proof.
  intros H. revert s. induction l as [|x l IH]; intros s; [apply bal_ret|]. cbn [for_each].
  apply (bal_bind a _ _ _ (w x) (λ c, foldl (λ c x, w x c) c l)); [apply H|apply IH].
Qed.

Lemma bal_SetPromises a st ps s : bal a (SetPromises o st ps) s Datatypes.id.
Proof.
  unfold SetPromises. case_bool_decide.
  - apply bal_bind_r; [apply bal_modify; by destruct a|]. apply bal_bind_r; [auto with bal|].
    apply bal_bind_r; [|auto with bal]. case_match; auto with bal.
  - apply bal_bind_r; [apply bal_modify; by destruct a|]. apply bal_bind_r.
    { clear. revert s. generalize ps. intros l. intros s.
      induction l as [|p l IH] in s |- *; [apply bal_ret|]. cbn [for_each].
      apply bal_bind_r; [auto with bal|apply IH]. }
    apply bal_bind_r; [apply bal_modify; by destruct a|]. apply bal_bind_r; [auto with bal|].
    apply bal_bind_r; [|auto with bal]. unfold act_when. case_match; auto with bal.
Qed.

Lemma bal_handle a m s : on_side a m → bal a (handle ByteSizeLong o m) s (writes m).
Proof.
  destruct m as [kv b|kvs b|txn b| | | | | |st ps]; cbn [on_side handle]; try (intros ->).
  - apply bal_bind_l; [|auto with bal]. apply bal_bind_l; [apply bal_WritePutInternal|apply bal_CheckFlush].
  - apply bal_bind_l; [|auto with bal]. apply bal_bind_l; [apply bal_WriteDeletesInternal|apply bal_CheckFlush].
  - apply bal_bind_l; [|auto with bal]. unfold WriteTxn.
    apply (bal_bind a _ _ _ (λ c, foldl (λ c p, apply_op (kv_key p.1) (Some p.1) c) c txn.1)
      (λ c, foldl (λ c kvs, delete_kvs (default [] kvs) c) c txn.2)).
    + apply bal_for_each. intros p s0. apply bal_bind_l; [apply bal_WritePutInternal|auto with bal].
    + apply bal_bind_l.
      * apply bal_for_each. intros kvs s0. apply bal_bind_l; [apply bal_WriteDeletesInternal|auto with bal].
      * case_bool_decide; [auto with bal|apply bal_CheckFlush].
  - apply bal_Flush.
  - apply bal_DoFlush.
  - apply bal_FlushAsync.
  - apply bal_DoFlushForAsync.
  - apply bal_bind_l; [apply bal_FlushAsync|auto with bal].
  - intros _. apply bal_bind_l; [apply bal_SetPromises|auto with bal].
Qed.

(** The actor and everything it has posted, message by message. *)
Fixpoint brun (ms : list Msg) (s : State) (os : list Out) : State * list Out :=
  match ms with
  | [] => (s, os)
  | m :: ms => brun ms (exec (handle ByteSizeLong o m) s) (os ++ outs (handle ByteSizeLong o m) s)
  end.
End runs.

Lemma brun_balance {KVC : Codec KeyValue} ByteSizeLong o a ms c s os :
  Forall (on_side a) ms →
  let r := brun ByteSizeLong o ms s os in
  view a r.1 (committed r.2 c) = foldl (λ c m, writes m c) (view a s (committed os c)) ms.
Proof.
  intros H. revert s os. induction H as [|m ms Hm _ IH]; intros s os; [done|]. cbn [brun foldl].
  rewrite IH, committed_app. by rewrite (bal_handle ByteSizeLong o a m s Hm).
Qed.


(** ** The fate of promises *)
Definition waiting (s : State) : list nat := promises_ s ++ concat (toFlushPromises_ s).
Definition commit_promises (os : list Out) : list (list nat) :=
  omap (λ x, match x with Commit _ _ ps => Some ps | _ => None end) os.
Definition resolved (os : list Out) : list nat :=
  omap (λ x, match x with SetValue p _ => Some p | _ => None end) os.

Lemma commit_promises_app os os' : commit_promises (os ++ os') = commit_promises os ++ commit_promises os'.
Proof. apply omap_app. Qed.
Lemma resolved_app os os' : resolved (os ++ os') = resolved os ++ resolved os'.
Proof. apply omap_app. Qed.

(** Only non-empty batches are queued. *)
Definition nonempty (s : State) : Prop := Forall (λ e, e.1 ≠ ∅) (toFlush_ s).

(** The action hands promises on to commits, makes new ones, resolves none. *)
Definition keeps {A} (m : B A) (s : State) : Prop :=
  nonempty s →
  nonempty (exec m s) ∧ (nextPromise_ s ≤ nextPromise_ (exec m s))%nat ∧
  waiting (exec m s) ++ concat (commit_promises (outs m s)) ≡ₚ
    waiting s ++ seq (nextPromise_ s) (nextPromise_ (exec m s) - nextPromise_ s) ∧
  resolved (outs m s) = [].

Lemma keeps_bind {A A'} (m : B A) (f : A → B A') s :
  keeps m s → keeps (f (val m s)) (exec m s) → keeps (m ≫= f) s.
Proof.
  intros Hm Hf Hne. destruct (Hm Hne) as (Hne1 & H1 & H2 & H3).
  destruct (Hf Hne1) as (Hne2 & H1' & H2' & H3'). unfold keeps. rewrite exec_bind, outs_bind.
  set (s1 := exec m s) in *. set (s2 := exec (f (val m s)) s1) in *.
  rewrite commit_promises_app, concat_app, resolved_app, H3, H3'. split_and!; [done|lia| |done].
  rewrite (Permutation_app_comm (concat (commit_promises (outs m s)))), app_assoc, H2'.
  rewrite <- app_assoc, (Permutation_app_comm (seq _ _)), app_assoc, H2, <- app_assoc.
  apply Permutation_app_head.
  replace (nextPromise_ s2 - nextPromise_ s)%nat with
    ((nextPromise_ s1 - nextPromise_ s) + (nextPromise_ s2 - nextPromise_ s1))%nat by lia.
  rewrite seq_app. by replace (nextPromise_ s + (nextPromise_ s1 - nextPromise_ s))%nat with (nextPromise_ s1) by lia.
Qed.
Lemma keeps_quiet {A} (m : B A) s :
  toFlush_ (exec m s) = toFlush_ s → waiting (exec m s) = waiting s →
  nextPromise_ (exec m s) = nextPromise_ s →
  concat (commit_promises (outs m s)) = [] → resolved (outs m s) = [] → keeps m s.
Proof.
  intros E0 E1 E2 E3 E4 Hne. unfold nonempty. rewrite E0, E1, E2, E3, E4, Nat.sub_diag. done.
Qed.
Create HintDb keeps.
#[export] Hint Extern 5 (keeps (mret _) _) => (by apply keeps_quiet) : keeps.
#[export] Hint Extern 5 (keeps (post _) _) => (by apply keeps_quiet) : keeps.
#[export] Hint Extern 5 (keeps members _) => (by apply keeps_quiet) : keeps.
#[export] Hint Extern 5 (keeps (modify _) _) => (by apply keeps_quiet) : keeps.

Lemma DoFlushLoop_empty o q ps b pr n :
  Forall (λ e : Batch * Z, e.1 ≠ ∅) q → (b = ∅ → pr = []) →
  let r := DoFlushLoop o q ps b pr n in r.1.1.1 = ∅ → r.1.1.2 = [].
Proof.
  intros Hq. revert ps b pr n. induction Hq as [|[f sz] q Hf _ IH]; intros ps b pr n Hb; cbn [DoFlushLoop].
  { by destruct ps. }
  destruct ps as [|p ps]; [done|]. repeat case_match; try done. apply IH.
  intros E. destruct Hf. cbn [fst]. unfold merge_into in E. apply map_eq. intros k.
  apply (f_equal (lookup k)) in E. rewrite lookup_union, lookup_empty in E.
  by destruct (f !! k), (b !! k).
Qed.

Section promises.
Context {KVC : Codec KeyValue} (ByteSizeLong : KeyValue → Z) (o : Options).

Lemma keeps_DoFlush s : keeps (DoFlush o) s.
Proof.
  unfold DoFlush. apply keeps_bind; [auto with keeps|]. rewrite val_members, exec_members.
  case_bool_decide; [auto with keeps|]. case_match; [auto with keeps|]. intros Hne.
  destruct (DoFlushLoop_spec o (toFlush_ s) (toFlushPromises_ s) ∅ [] 0 ∅) as (_ & Hp & Hsuf & _).
  pose proof (DoFlushLoop_empty o (toFlush_ s) (toFlushPromises_ s) ∅ [] 0 Hne (λ _, eq_refl)) as He.
  destruct (DoFlushLoop o (toFlush_ s) (toFlushPromises_ s) ∅ [] 0) as [[[b pr] q] ps] eqn:El.
  cbn [fst snd] in *. rewrite app_nil_l in Hp.
  assert (Hne' : Forall (λ e : Batch * Z, e.1 ≠ ∅) q).
  { destruct Hsuf as [q' Hq]. unfold nonempty in Hne. rewrite Hq, Forall_app in Hne. by destruct Hne. }
  unfold keeps. rewrite exec_bind, outs_bind, exec_modify, outs_modify, app_nil_l.
  case_bool_decide as Hb.
  - rewrite exec_ret, outs_ret. unfold waiting. cbn. rewrite Nat.sub_diag, <- Hp, (He Hb).
    split_and!; done.
  - unfold CommitBackup. rewrite exec_bind, outs_bind, exec_modify, outs_modify, exec_post, outs_post.
    unfold waiting. cbn. rewrite Nat.sub_diag, <- Hp. split_and!; try done.
    by rewrite !app_nil_r, <- app_assoc, (Permutation_app_comm (concat ps)).
Qed.

Lemma keeps_DoFlushForAsync s : keeps (DoFlushForAsync o) s.
Proof.
  unfold DoFlushForAsync. apply keeps_bind; [auto with keeps|]. rewrite val_members, exec_members.
  case_bool_decide; [auto with keeps|]. case_match; [auto with keeps|].
  apply keeps_bind; [auto with keeps|]. case_bool_decide; [auto with keeps|].
  apply keeps_bind; [auto with keeps|]. by apply keeps_quiet.
Qed.

Lemma keeps_FlushAsync s : keeps (FlushAsync o) s.
Proof.
  unfold FlushAsync. apply keeps_bind; [auto with keeps|]. rewrite val_members, exec_members.
  case_bool_decide; [auto with keeps|]. apply keeps_bind; [auto with keeps|].
  apply keeps_bind; [auto with keeps|]. case_match; [apply keeps_DoFlushForAsync|auto with keeps].
Qed.

Lemma keeps_Flush s : keeps (Flush o) s.
Proof.
  unfold Flush. apply keeps_bind; [auto with keeps|]. rewrite val_members, exec_members.
  case_bool_decide as Hb; [auto with keeps|].
  set (f := λ s0, set_collect ∅ 0 [] (set_queue (toFlush_ s ++ [(toBackup_ s, toBackupSize_ s)])
                    (toFlushPromises_ s ++ [promises_ s]) s0)).
  assert (keeps (modify f ≫= λ _,
    if metaStoreMaxFlushBatchSize_ o <=? Z.of_nat (size (toBackup_ s)) then DoFlush o
    else post AsyncDoFlush) s) as H.
  { apply keeps_bind; [|case_match; [apply keeps_DoFlush|auto with keeps]].
    intros Hne. rewrite exec_modify, outs_modify. unfold waiting, nonempty. cbn.
    rewrite Nat.sub_diag, !app_nil_r, concat_app. cbn. rewrite app_nil_r. split_and!; [|done| |done].
    - apply Forall_app. split; [done|]. by constructor.
    - by rewrite Permutation_app_comm. }
  intros Hne. apply (H Hne).
Qed.

Lemma keeps_new_promise s :
  keeps (modify (λ s0 : State, set_collect (toBackup_ s0) (toBackupSize_ s0)
    (promises_ s0 ++ [nextPromise_ s]) (set_nextPromise (S (nextPromise_ s)) s0))) s.
Proof.
  intros Hne. rewrite exec_modify, outs_modify. unfold waiting. cbn.
  replace (S (nextPromise_ s) - nextPromise_ s)%nat with 1%nat by lia. cbn.
  split_and!; [done|lia| |done]. rewrite app_nil_r, <- !app_assoc.
  by rewrite (Permutation_app_comm [nextPromise_ s]).
Qed.

Lemma keeps_CheckFlush a s : keeps (CheckFlush o a) s.
Proof.
  unfold CheckFlush. apply keeps_bind; [auto with keeps|]. rewrite val_members, exec_members. destruct a.
  - apply keeps_bind; [|auto with keeps]. case_match; [apply keeps_FlushAsync|auto with keeps].
  - set (m := λ s0 : State, set_collect (toBackup_ s0) (toBackupSize_ s0)
      (promises_ s0 ++ [nextPromise_ s]) (set_nextPromise (S (nextPromise_ s)) s0)).
    set (k := (if metaStoreMaxFlushBatchSize_ o <=? Z.of_nat (size (toBackup_ s)) then Flush o
               else post AsyncFlush) ≫= λ _, mret (Promise (nextPromise_ s))).
    assert (keeps (modify m ≫= λ _, k) s) as H.
    { apply keeps_bind; [apply keeps_new_promise|].
      apply keeps_bind; [|auto with keeps]. case_match; [apply keeps_Flush|auto with keeps]. }
    intros Hne. apply (H Hne).
Qed.

Lemma keeps_WritePutInternal kv a s : keeps (WritePutInternal ByteSizeLong o kv a) s.
Proof.
  unfold WritePutInternal. apply keeps_bind; [auto with keeps|]. rewrite val_members, exec_members.
  apply keeps_bind; [|auto with keeps]. destruct a; (apply keeps_bind; [case_match|]);
    auto with keeps; [apply keeps_FlushAsync|apply keeps_Flush].
Qed.

Lemma keeps_for_each {X} (l : list X) body s :
  (∀ x s, keeps (body x) s) → keeps (for_each l body) s.
Proof.
  intros H. revert s. induction l as [|x l IH]; intros s; cbn [for_each]; [auto with keeps|].
  apply keeps_bind; [apply H|apply IH].
Qed.

Lemma keeps_WriteDeletesInternal kvs a s : keeps (WriteDeletesInternal kvs a) s.
Proof.
  destruct kvs as [kvs|]; cbn [WriteDeletesInternal]; [|auto with keeps].
  apply keeps_bind; [|auto with keeps]. apply keeps_for_each. intros kv s0.
  destruct a; auto with keeps.
Qed.

(** Everything but the answers of the storage. *)
Definition is_answer (m : Msg) : bool := match m with MSetPromises _ _ => true | _ => false end.

Lemma keeps_handle m s : is_answer m = false → keeps (handle ByteSizeLong o m) s.
Proof.
  destruct m as [kv a|kvs a|txn a| | | | | |st ps]; cbn [handle is_answer]; intros H; try done.
  - repeat (apply keeps_bind; [|auto with keeps; apply keeps_CheckFlush]). apply keeps_WritePutInternal.
  - repeat (apply keeps_bind; [|auto with keeps; apply keeps_CheckFlush]). apply keeps_WriteDeletesInternal.
  - apply keeps_bind; [|auto with keeps]. unfold WriteTxn.
    apply keeps_bind.
    { apply keeps_for_each. intros p s0. apply keeps_bind; [apply keeps_WritePutInternal|auto with keeps]. }
    apply keeps_bind.
    { apply keeps_for_each. intros p s0. apply keeps_bind; [apply keeps_WriteDeletesInternal|auto with keeps]. }
    case_bool_decide; [auto with keeps|apply keeps_CheckFlush].
  - apply keeps_Flush.
  - apply keeps_DoFlush.
  - apply keeps_FlushAsync.
  - apply keeps_DoFlushForAsync.
  - apply keeps_bind; [apply keeps_FlushAsync|auto with keeps].
Qed.

Lemma answer_resolves st ps s :
  let m := handle ByteSizeLong o (MSetPromises st ps) in
  toFlush_ (exec m s) = toFlush_ s ∧ waiting (exec m s) = waiting s ∧
  nextPromise_ (exec m s) = nextPromise_ s ∧
  commit_promises (outs m s) = [] ∧ resolved (outs m s) = ps.
Proof.
  assert (Hloop : ∀ s : State, exec (for_each ps (λ p, post (SetValue p st))) s = s ∧
    outs (for_each ps (λ p, post (SetValue p st))) s = (λ p, SetValue p st) <$> ps).
  { induction ps as [|p ps IH]; intros s0; [done|]. cbn [for_each].
    rewrite exec_bind, outs_bind, exec_post, outs_post. destruct (IH s0) as [-> ->]. done. }
  assert (Hres : resolved ((λ p, SetValue p st) <$> ps) = ps ∧ commit_promises ((λ p, SetValue p st) <$> ps) = []).
  { clear. induction ps as [|p ps [IH1 IH2]]; [done|]. rewrite fmap_cons. split; [|done].
    change (p :: resolved ((λ p, SetValue p st) <$> ps) = p :: ps). by rewrite IH1. }
  intros m. unfold m. cbn [handle]. unfold SetPromises.
  case_bool_decide as Hps.
  - subst ps. act_simpl. destruct (_ && _); by act_simpl.
  - act_simpl. rewrite !(proj1 (Hloop _)), !(proj2 (Hloop _)).
    rewrite !commit_promises_app, !resolved_app, (proj1 Hres), (proj2 Hres).
    case_bool_decide; (split_and!; try done); cbn; by rewrite ?app_nil_r.
Qed.

(** The actor, the promises of the transactions the storage has not answered
    yet, and the promises resolved so far. *)
Inductive flow_step : State * list (list nat) * list nat → State * list (list nat) * list nat → Prop :=
  | flow_message m s fl res :
      is_answer m = false →
      flow_step (s, fl, res)
        (exec (handle ByteSizeLong o m) s, fl ++ commit_promises (outs (handle ByteSizeLong o m) s),
         res ++ resolved (outs (handle ByteSizeLong o m) s))
  | flow_answer i ps st s fl res :
      fl !! i = Some ps →
      flow_step (s, fl, res)
        (exec (handle ByteSizeLong o (MSetPromises st ps)) s,
         delete i fl ++ commit_promises (outs (handle ByteSizeLong o (MSetPromises st ps)) s),
         res ++ resolved (outs (handle ByteSizeLong o (MSetPromises st ps)) s)).

Definition conserved (x : State * list (list nat) * list nat) : Prop :=
  nonempty x.1.1 ∧
  waiting x.1.1 ++ concat x.1.2 ++ x.2 ≡ₚ seq 0 (nextPromise_ x.1.1).

Lemma concat_delete {X} (ll : list (list X)) i l :
  ll !! i = Some l → concat ll ≡ₚ l ++ concat (delete i ll).
Proof. intros H. rewrite (delete_Permutation ll i l H) at 1. done. Qed.

Lemma flow_step_conserved x y : flow_step x y → conserved x → conserved y.
Proof.
  intros [m s fl res Hm|i ps st s fl res Hi] [Hne Hp]; unfold conserved in *; cbn [fst snd] in *.
  - destruct (keeps_handle m s Hm Hne) as (Hne' & Hle & Hk & ->). split; [done|].
    rewrite app_nil_r, concat_app.
    set (s' := exec (handle ByteSizeLong o m) s) in *.
    replace (nextPromise_ s') with (nextPromise_ s + (nextPromise_ s' - nextPromise_ s))%nat by lia.
    rewrite seq_app, <- Hp. cbn [Nat.add].
    rewrite (Permutation_app_comm (concat fl)), <- app_assoc, app_assoc, Hk.
    rewrite <- !app_assoc. apply Permutation_app_head. rewrite (Permutation_app_comm (seq _ _)).
    by rewrite app_assoc.
  - destruct (answer_resolves st ps s) as (E1 & E2 & E3 & E4 & E5).
    unfold nonempty. rewrite E1, E2, E3, E4, E5, app_nil_r. split; [done|].
    rewrite <- Hp, (concat_delete fl i ps Hi). apply Permutation_app_head.
    rewrite (Permutation_app_comm res), !app_assoc. apply Permutation_app_tail, Permutation_app_comm.
Qed.
End promises.

(** C23: every promise is accounted for, and none is resolved twice. At any
    time, the promises still collected, those queued, those of transactions
    the storage has not answered, and those already resolved are together
    exactly the promises handed out, each once. *)
Theorem promises_conserved {KVC : Codec KeyValue} (ByteSizeLong : KeyValue → Z) (o : Options)
    (s : State) (inflight : list (list nat)) (res : list nat) :
  rtc (flow_step ByteSizeLong o) (init o, [], []) (s, inflight, res) →
  promises_ s ++ concat (toFlushPromises_ s) ++ concat inflight ++ res ≡ₚ seq 0 (nextPromise_ s) ∧
  NoDup res.
Proof.
  intros H. assert (conserved (s, inflight, res)) as [_ Hp].
  { revert H. apply (rtc_ind_r conserved); [|intros; by eapply flow_step_conserved].
    split; [constructor|done]. }
  cbn [fst snd] in Hp. unfold waiting in Hp. rewrite <- app_assoc in Hp. split; [done|].
  assert (Hnd : NoDup (promises_ s ++ concat (toFlushPromises_ s) ++ concat inflight ++ res)).
  { rewrite Hp. apply NoDup_seq. }
  rewrite !app_assoc in Hnd. by apply NoDup_app in Hnd as (_ & _ & ?).
Qed.

(** ** Progress *)
Section progress.
Context {KVC : Codec KeyValue} (ByteSizeLong : KeyValue → Z) (o : Options).

(** A queue that can be flushed: every batch below the size limit, non-empty
    and with at least one promise. *)
Record flushable (s : State) : Prop := {
  fl_length : length (toFlush_ s) = length (toFlushPromises_ s);
  fl_batches : Forall (λ e : Batch * Z, e.1 ≠ ∅ ∧ e.2 < ETCD_BODY_LIMIT) (toFlush_ s);
  fl_promises : Forall (λ ps, ps ≠ []) (toFlushPromises_ s);
  fl_threshold : 1 ≤ currentFlushThreshold_ s;
  fl_idle : inFlushing_ s = 0;
}.

Lemma merge_nonempty (b f : Batch) : f ≠ ∅ → merge_into b f ≠ ∅.
Proof.
  intros Hf E. apply Hf. unfold merge_into in E. apply map_eq. intros k.
  apply (f_equal (lookup k)) in E. rewrite lookup_union, lookup_empty in E.
  by destruct (f !! k), (b !! k).
Qed.

Lemma DoFlushLoop_grows q ps b pr n :
  Forall (λ e : Batch * Z, e.1 ≠ ∅ ∧ e.2 < ETCD_BODY_LIMIT) q → b ≠ ∅ → pr ≠ [] →
  let r := DoFlushLoop o q ps b pr n in r.1.1.1 ≠ ∅ ∧ r.1.1.2 ≠ [] ∧ r.2 `suffix_of` ps.
Proof.
  intros Hq. revert ps b pr n. induction Hq as [|[f sz] q [Hf _] _ IH]; intros ps b pr n Hb Hp; cbn [DoFlushLoop].
  { by destruct ps. }
  destruct ps as [|p ps]; [done|]. repeat case_match; try done.
  destruct (IH ps (merge_into b f) (pr ++ p) (n + sz)) as (? & ? & ?).
  - by apply merge_nonempty.
  - by intros [? _]%app_eq_nil.
  - split_and!; [done|done|by apply suffix_cons_r].
Qed.

(** [DoFlush], and the answer of the storage to the transaction it posts. *)
Definition round (s : State) : State * list Out :=
  let s1 := exec (DoFlush o) s in
  let os := outs (DoFlush o) s in
  match commit_promises os with
  | ps :: _ =>
      let m := handle ByteSizeLong o (MSetPromises StatusOK ps) in (exec m s1, os ++ outs m s1)
  | [] => (s1, os)
  end.
Fixpoint drain (n : nat) (s : State) : State * list Out :=
  match n with
  | O => (s, [])
  | S n => let r := round s in let r' := drain n r.1 in (r'.1, r.2 ++ r'.2)
  end.

Lemma answer_flow ps s :
  ps ≠ [] → inFlushing_ s = 1 →
  let s' := exec (handle ByteSizeLong o (MSetPromises StatusOK ps)) s in
  toFlush_ s' = toFlush_ s ∧ toFlushPromises_ s' = toFlushPromises_ s ∧ inFlushing_ s' = 0 ∧
  (1 ≤ currentFlushThreshold_ s → 1 ≤ currentFlushThreshold_ s').
Proof.
  intros Hps Hin s'. unfold s'. cbn [handle]. unfold SetPromises. rewrite bool_decide_false by done.
  assert (Hloop : ∀ s : State, exec (for_each ps (λ p, post (SetValue p StatusOK))) s = s).
  { clear. induction ps as [|p ps IH]; intros s0; [done|]. cbn [for_each]. rewrite exec_bind. apply IH. }
  act_simpl. rewrite !Hloop, Tauto.if_same. cbn. rewrite Hin. split_and!; try done.
  change (IsOk StatusOK) with true. cbn iota. intros Ht. destruct (_ <? _); lia.
Qed.

Lemma round_flushes s :
  flushable s → 0 ≤ metaStoreMaxFlushBatchSize_ o → toFlush_ s ≠ [] →
  let r := round s in
  flushable r.1 ∧ (length (toFlush_ r.1) < length (toFlush_ s))%nat ∧
  resolved r.2 ++ concat (toFlushPromises_ r.1) = concat (toFlushPromises_ s).
Proof.
  intros [Hlen Hb Hp Ht Hi] Hbs Hq r. unfold r, round.
  destruct (toFlush_ s) as [|[f sz] q] eqn:Eq; [done|].
  destruct (toFlushPromises_ s) as [|p ps] eqn:Ep; [done|].
  assert (El : DoFlushLoop o (toFlush_ s) (toFlushPromises_ s) ∅ [] 0 =
    DoFlushLoop o q ps (merge_into ∅ f) p sz).
  { rewrite Eq, Ep. cbn [DoFlushLoop]. rewrite map_size_empty.
    inversion_clear Hb as [|? ? [_ Hsz] _]. cbn [snd] in Hsz.
    rewrite (proj2 (Z.leb_le _ _)) by lia. rewrite (proj2 (Z.leb_gt _ _)) by lia. done. }
  inversion_clear Hb as [|? ? [Hf Hsz] Hb']. inversion_clear Hp as [|? ? Hp1 Hp']. cbn [fst] in Hf.
  destruct (DoFlushLoop_grows q ps (merge_into ∅ f) p sz Hb' (merge_nonempty ∅ f Hf) Hp1) as (Hbne & Hpne & Hsufp).
  destruct (DoFlushLoop_spec o q ps (merge_into ∅ f) p sz ∅) as (_ & Hpr & Hsufq & Hl).
  rewrite <- El in *. destruct (DoFlushLoop o (toFlush_ s) (toFlushPromises_ s) ∅ [] 0) as [[[b pr] q'] ps'] eqn:Er.
  cbn [fst snd] in *.
  assert (Ed : exec (DoFlush o) s = set_flow (currentFlushThreshold_ s) 1 (inFlushingAsync_ s) (set_queue q' ps' s) ∧
    commit_promises (outs (DoFlush o) s) = [pr] ∧ resolved (outs (DoFlush o) s) = []).
  { unfold DoFlush. rewrite exec_bind, outs_bind, val_members, exec_members, outs_members, app_nil_l.
    rewrite bool_decide_false by (by rewrite Eq). rewrite (proj2 (Z.leb_gt _ _)) by lia.
    rewrite Er. cbn [fst snd]. rewrite (bool_decide_false _ Hbne).
    unfold CommitBackup. act_simpl. cbn. by rewrite Hi. }
  destruct Ed as (-> & -> & Hres). set (s1 := set_flow _ _ _ _).
  destruct (answer_flow pr s1 Hpne eq_refl) as (E1 & E2 & E3 & E4).
  destruct (answer_resolves ByteSizeLong o StatusOK pr s1) as (_ & _ & _ & _ & E5).
  cbn [fst snd]. rewrite resolved_app, Hres, E5, app_nil_l, E1, E2. cbn [s1 toFlush_ toFlushPromises_ set_flow set_queue].
  split_and!.
  - split; rewrite ?E1, ?E2; cbn [s1 toFlush_ toFlushPromises_ set_flow set_queue]; [..|by apply E4|done].
    + apply Hl. by injection Hlen.
    + destruct Hsufq as [q0 Hq0]. rewrite Hq0, Forall_app in Hb'. by destruct Hb'.
    + destruct Hsufp as [p0 Hp0]. rewrite Hp0, Forall_app in Hp'. by destruct Hp'.
  - apply suffix_length in Hsufq. simpl. lia.
  - done.
Qed.
End progress.


(** ** Examples *)
Definition demo_size (kv : KeyValue) : Z := Z.of_nat (String.length (kv_value kv)).
Definition demo_options : Options := mkOptions false 2 1.
Definition demo_kv (k v : string) : KeyValue := mkKV k 1 1 1 v 0.
Definition demo_writes : list Msg :=
  [MWritePut (demo_kv "a" "1") false; MWritePut (demo_kv "a" "2") false;
   MWriteDeletes (Some [demo_kv "b" "0"]) false; MFlush; MSetPromises StatusOK [0%nat]; MDoFlush].


(** One write handled: with a batch size of 1 it is committed at once. *)
Definition demo_flow : State * list (list nat) * list nat :=
  let m := handle (KVC := countable_codec KeyValue) demo_size demo_options (MWritePut (demo_kv "a" "1") false) in
  let s := init demo_options in (exec m s, [] ++ commit_promises (outs m s), [] ++ resolved (outs m s)).

Lemma promises_conserved_witness :
  demo_flow.1.2 = [[0%nat]] ∧
  promises_ demo_flow.1.1 ++ concat (toFlushPromises_ demo_flow.1.1) ++ concat demo_flow.1.2 ++ demo_flow.2
    ≡ₚ seq 0 (nextPromise_ demo_flow.1.1) ∧ NoDup demo_flow.2.
Proof.
  split; [vm_compute; reflexivity|].
  apply (promises_conserved (KVC := countable_codec KeyValue) demo_size demo_options
    demo_flow.1.1 demo_flow.1.2 demo_flow.2).
  unfold demo_flow. cbn [fst snd]. apply rtc_once. apply (flow_message demo_size demo_options (MWritePut (demo_kv "a" "1") false)). reflexivity.
Defined.

(** Two queued batches, the second too large to travel with the first. *)
Definition demo_queue : State :=
  set_queue [({[ "a" := Some (demo_kv "a" "1") ]}, 600000); ({[ "b" := None ]}, 600000)]
    [[0%nat]; [1%nat; 2%nat]] (init demo_options).


(** ** Where the backup does not make progress *)

(** A synchronous deletion that matches no key gets a promise, but nothing is
    collected, so no flush hands the promise on. *)
Theorem empty_delete_not_answered {KVC : Codec KeyValue} (ByteSizeLong : KeyValue → Z) :
  let r := brun ByteSizeLong (mkOptions false 2 10)
    [MWriteDeletes (Some []) false; MFlush; MDoFlush; MFlush; MTrigger]
    (init (mkOptions false 2 10)) [] in
  promises_ r.1 = [0%nat] ∧ commit_promises r.2 = [] ∧ resolved r.2 = [].
Proof. split_and!; vm_compute; reflexivity. Qed.

Definition demo_txn : list (KeyValue * KeyValue) * list (option (list KeyValue)) :=
  ([(demo_kv "a" "1", kv_empty); (demo_kv "b" "1", kv_empty)], []).

(** A transaction of two large values is split, and the first part is
    committed without promises; its answer is taken for one of the other side,
    [inFlushing_] is not reduced, and with a concurrency of 1 the second part
    waits although nothing is in flight. *)
Theorem split_transaction_stalls :
  let o := mkOptions false 1 1 in
  let r := brun (KVC := countable_codec KeyValue) (λ _, 600000) o
    [MWriteTxn demo_txn false; MSetPromises StatusOK []; MFlush; MDoFlush] (init o) [] in
  commit_promises r.2 = [[]] ∧ inFlushing_ r.1 = 1 ∧ toFlushPromises_ r.1 = [[0%nat]] ∧
  exec (DoFlush (KVC := countable_codec KeyValue) o) r.1 = r.1.
Proof. split_and!; vm_compute; reflexivity. Qed.

(** A value of the size limit is queued and never committed, and everything
    behind it waits. *)
Theorem large_value_blocks {KVC : Codec KeyValue} (o : Options) b sz q s :
  ETCD_BODY_LIMIT ≤ sz → 0 ≤ metaStoreMaxFlushBatchSize_ o → toFlush_ s = (b, sz) :: q →
  exec (DoFlush o) s = s ∧ outs (DoFlush o) s = [].
Proof.
  intros Hsz Hb Hq. unfold DoFlush.
  rewrite exec_bind, outs_bind, val_members, exec_members, outs_members, app_nil_l.
  case_bool_decide; [done|]. case_match; [done|].
  assert (DoFlushLoop o (toFlush_ s) (toFlushPromises_ s) ∅ [] 0 = (∅, [], toFlush_ s, toFlushPromises_ s)) as ->.
  { rewrite Hq. destruct (toFlushPromises_ s) as [|p ps]; [done|]. cbn [DoFlushLoop]. rewrite map_size_empty.
    rewrite (proj2 (Z.leb_le _ _)) by lia. rewrite (proj2 (Z.leb_le ETCD_BODY_LIMIT _)) by lia. done. }
  cbn [fst snd]. rewrite bool_decide_true by done. act_simpl. clear. destruct s; split; reflexivity.
Qed.
