(* ===== verification/KvAccessor.v ===== *)
(** * The accessor of the key-value actor

    [meta_store/server/src/kv_service_accessor_actor.cpp] receives the client
    requests: it drops a request whose id is being handled, holds requests back
    until the key-value actor has recovered, and passes them on. *)

From S2P Require Import Prelude MetaTypes.
From stdpp Require Import base gmap strings list fin_maps relations.
From Stdlib Require Import ZArith Lia.

Set Default Proof Using "Type".

Module Accessor.

(** The call of the key-value actor a request is passed on as. *)
Inductive Call :=
  | CallPut (request : PutRequest)
  | CallDelete (request : MetaStoreRequest)
  | CallGet (request : MetaStoreRequest)
  | CallTxn (request : MetaStoreRequest)
  | CallWatch (request : MetaStoreRequest)
  | CallGetAndWatch (request : MetaStoreRequest).

Definition requestid (c : Call) : string :=
  match c with
  | CallPut r => pr_requestid r
  | CallDelete r | CallGet r | CallTxn r | CallWatch r | CallGetAndWatch r => mq_requestid r
  end.

(** The future of [KvServiceActor::Recover]. *)
Inductive Recovery := KINIT | KOK | KERROR.
#[global] Instance Recovery_eq_dec : EqDecision Recovery.
Proof. solve_decision. Defined.

(** [onReady_] are the callbacks registered on [isRecoverReady_] by [Then]. *)
Record State := mkState {
  requestSet_ : gset string;
  isRecoverReady_ : Recovery;
  onReady_ : list (AID * Call);
}.
Definition init : State := mkState ∅ KINIT [].

(** [Forward] is a message to the key-value actor whose answer completes with
    [RemoveRequestSet]; [SelfRemove] is that message to the accessor. *)
Inductive Out :=
  | KvRecover
  | Forward (from : AID) (c : Call)
  | SelfRemove (id : string).
Abbreviation X := (Act State Out).

Definition Init : X unit := post KvRecover.

Definition InsertRequestSet (id : string) : X bool :=
  s ← members;
  let success := bool_decide (id ∉ requestSet_ s) in
  modify (λ s, mkState ({[id]} ∪ requestSet_ s) (isRecoverReady_ s) (onReady_ s)) ≫= λ _,
  mret success.

Definition RemoveRequestSet (id : string) : X unit :=
  modify (λ s, mkState (requestSet_ s ∖ {[id]}) (isRecoverReady_ s) (onReady_ s)).

(** What the six handlers do once the message is parsed. *)
Definition accept (from : AID) (c : Call) : X unit :=
  ok ← InsertRequestSet (requestid c);
  if negb ok then mret tt
  else
    s ← members;
    match isRecoverReady_ s with
    | KINIT => modify (λ s, mkState (requestSet_ s) (isRecoverReady_ s) (onReady_ s ++ [(from, c)]))
    | _ => post (Forward from c)
    end.

Section handlers.
Context {PC : Codec PutRequest} {MC : Codec MetaStoreRequest}.

Definition receive {A} `{Codec A} (call : A → Call) (from : AID) (msg : string) : X unit :=
  match parse msg with None => mret tt | Some req => accept from (call req) end.

Definition AsyncPut : AID → string → X unit := receive CallPut.
Definition AsyncDelete : AID → string → X unit := receive CallDelete.
Definition AsyncGet : AID → string → X unit := receive CallGet.
Definition AsyncTxn : AID → string → X unit := receive CallTxn.
Definition AsyncWatch : AID → string → X unit := receive CallWatch.
Definition AsyncGetAndWatch : AID → string → X unit := receive CallGetAndWatch.

(** [isRecoverReady_] completes: its callbacks run in their order; after an
    error they only complete the futures that wait for them. *)
Definition recovered (ok : bool) : X unit :=
  s ← members;
  for_each (onReady_ s) (λ p,
    if ok then post (Forward p.1 p.2) else post (SelfRemove (requestid p.2))) ≫= λ _,
  modify (λ s, mkState (requestSet_ s) (if ok then KOK else KERROR) []).

Inductive Msg :=
  | MPut (from : AID) (msg : string) | MDelete (from : AID) (msg : string)
  | MGet (from : AID) (msg : string) | MTxn (from : AID) (msg : string)
  | MWatch (from : AID) (msg : string) | MGetAndWatch (from : AID) (msg : string).
Definition handle (m : Msg) : X unit :=
  match m with
  | MPut f m => AsyncPut f m
  | MDelete f m => AsyncDelete f m
  | MGet f m => AsyncGet f m
  | MTxn f m => AsyncTxn f m
  | MWatch f m => AsyncWatch f m
  | MGetAndWatch f m => AsyncGetAndWatch f m
  end.
End handlers.
End Accessor.
