(* ===== verification/AccessorProps.v ===== *)
(** * Properties of the accessor

    No request is handled twice at the same time, none is lost or reordered,
    and none reaches the key-value actor before it has recovered. *)

From S2P Require Import Prelude MetaTypes KvAccessor.
From stdpp Require Import base gmap strings list fin_maps relations.
From Stdlib Require Import ZArith Lia.

Set Default Proof Using "Type".
Import Accessor.

Definition forwards (os : list Out) : list (AID * Call) :=
  omap (λ o, match o with Forward from c => Some (from, c) | _ => None end) os.
Definition removals (os : list Out) : list string :=
  omap (λ o, match o with SelfRemove id => Some id | _ => None end) os.

Lemma forwards_app os os' : forwards (os ++ os') = forwards os ++ forwards os'.
Proof. apply omap_app. Qed.
Lemma removals_app os os' : removals (os ++ os') = removals os ++ removals os'.
Proof. apply omap_app. Qed.

(** The accessor and what surrounds it: the ids of the calls the key-value
    actor has not completed, the [RemoveRequestSet] messages on their way, and
    two logs - the requests taken in and the calls passed on. *)
Record Sys := mkSys {
  y_st : State;
  y_running : list string;
  y_mail : list string;
  y_taken : list (AID * Call);
  y_passed : list (AID * Call);
}.
Definition start : Sys := mkSys init [] [] [] [].

(** The request a message holds, unless it is malformed or in progress. *)
Section system.
Context {PC : Codec PutRequest} {MC : Codec MetaStoreRequest}.

Definition parsed (m : Msg) : option (AID * Call) :=
  match m with
  | MPut from msg => (from,.) ∘ CallPut <$> parse msg
  | MDelete from msg => (from,.) ∘ CallDelete <$> parse msg
  | MGet from msg => (from,.) ∘ CallGet <$> parse msg
  | MTxn from msg => (from,.) ∘ CallTxn <$> parse msg
  | MWatch from msg => (from,.) ∘ CallWatch <$> parse msg
  | MGetAndWatch from msg => (from,.) ∘ CallGetAndWatch <$> parse msg
  end.
Definition taken (m : Msg) (s : State) : list (AID * Call) :=
  match parsed m with
  | Some p => if bool_decide (requestid p.2 ∈ requestSet_ s) then [] else [p]
  | None => []
  end.

(** Running a handler: its calls are running, its own messages are in the
    mailbox. *)
Definition run (m : X unit) (new : list (AID * Call)) (y : Sys) : Sys :=
  let os := outs m (y_st y) in
  mkSys (exec m (y_st y)) (y_running y ++ (requestid ∘ snd <$> forwards os))
    (y_mail y ++ removals os) (y_taken y ++ new) (y_passed y ++ forwards os).

Inductive sys_step : Sys → Sys → Prop :=
  | sys_message m y : sys_step y (run (handle m) (taken m (y_st y)) y)
  | sys_recovered ok y :
      isRecoverReady_ (y_st y) = KINIT → sys_step y (run (recovered ok) [] y)
  | sys_complete i id y :
      y_running y !! i = Some id →
      sys_step y (mkSys (y_st y) (delete i (y_running y)) (y_mail y ++ [id]) (y_taken y) (y_passed y))
  | sys_remove id mail y :
      y_mail y = id :: mail →
      sys_step y (run (RemoveRequestSet id) []
        (mkSys (y_st y) (y_running y) mail (y_taken y) (y_passed y))).

(** The ids the accessor knows of, wherever they are. *)
Definition known (y : Sys) : list string :=
  (requestid ∘ snd <$> onReady_ (y_st y)) ++ y_running y ++ y_mail y.

Record sys_ok (y : Sys) : Prop := {
  ok_ids : NoDup (known y);
  ok_set : ∀ id, id ∈ requestSet_ (y_st y) ↔ id ∈ known y;
  ok_log : isRecoverReady_ (y_st y) ≠ KERROR → y_taken y = y_passed y ++ onReady_ (y_st y);
  ok_gate : isRecoverReady_ (y_st y) = KINIT → y_passed y = [];
  ok_ready : isRecoverReady_ (y_st y) ≠ KINIT → onReady_ (y_st y) = [];
}.
End system.

(** ** The handlers *)
Lemma accept_duplicate from c s :
  requestid c ∈ requestSet_ s → exec (accept from c) s = s ∧ outs (accept from c) s = [].
Proof.
  intros H. unfold accept, InsertRequestSet. act_simpl. rewrite bool_decide_false by (intros ?; done).
  cbn [negb]. act_simpl. split; [|done]. destruct s as [R r q]. simpl in *.
  by rewrite (subseteq_union_1_L {[requestid c]} R) by (by apply singleton_subseteq_l).
Qed.

(** A new request waits for the recovery, or is passed on. *)
Definition enrolled (from : AID) (c : Call) (s : State) : State :=
  mkState ({[requestid c]} ∪ requestSet_ s) (isRecoverReady_ s)
    (if bool_decide (isRecoverReady_ s = KINIT) then onReady_ s ++ [(from, c)] else onReady_ s).
Lemma accept_new from c s :
  requestid c ∉ requestSet_ s →
  exec (accept from c) s = enrolled from c s ∧
  outs (accept from c) s = if bool_decide (isRecoverReady_ s = KINIT) then [] else [Forward from c].
Proof.
  intros H. unfold accept, InsertRequestSet, enrolled. act_simpl. rewrite bool_decide_true by done.
  cbn [negb]. act_simpl. cbn. destruct (isRecoverReady_ s) eqn:E; by act_simpl.
Qed.

Lemma recovered_effect ok s :
  exec (recovered ok) s = mkState (requestSet_ s) (if ok then KOK else KERROR) [] ∧
  forwards (outs (recovered ok) s) = (if ok then onReady_ s else []) ∧
  removals (outs (recovered ok) s) = (if ok then [] else requestid ∘ snd <$> onReady_ s).
Proof.
  unfold recovered. act_simpl. rewrite forwards_app, removals_app. cbn [forwards removals omap list_omap].
  rewrite !app_nil_r. set (loop := for_each _ _).
  assert (∀ s0 : State, exec loop s0 = s0 ∧ forwards (outs loop s0) = (if ok then onReady_ s else []) ∧
    removals (outs loop s0) = (if ok then [] else requestid ∘ snd <$> onReady_ s)) as Hloop.
  { unfold loop. clear. induction (onReady_ s) as [|[f c] l IH]; intros s0; [by destruct ok|].
    cbn [for_each]. rewrite exec_bind, outs_bind, forwards_app, removals_app. cbn [fst snd].
    destruct (IH s0) as (E & F & R).
    destruct ok; rewrite exec_post, outs_post, E, F, R; done. }
  destruct (Hloop s) as (-> & -> & ->). done.
Qed.

Section invariant.
Context {PC : Codec PutRequest} {MC : Codec MetaStoreRequest}.

Lemma handle_parsed m s :
  match parsed m with
  | Some p => exec (handle m) s = exec (accept p.1 p.2) s ∧ outs (handle m) s = outs (accept p.1 p.2) s
  | None => exec (handle m) s = s ∧ outs (handle m) s = []
  end.
Proof.
  destruct m; cbn [parsed handle];
    unfold AsyncPut, AsyncDelete, AsyncGet, AsyncTxn, AsyncWatch, AsyncGetAndWatch, receive;
    by destruct (parse _).
Qed.

Lemma run_quiet m y :
  exec m (y_st y) = y_st y → outs m (y_st y) = [] → run m [] y = y.
Proof. intros E O. unfold run. rewrite E, O. destruct y. cbn. by rewrite !app_nil_r. Qed.

Lemma sys_ok_accept from c y :
  sys_ok y → requestid c ∉ requestSet_ (y_st y) → sys_ok (run (accept from c) [(from, c)] y).
Proof.
  intros [Hnd Hset Hlog Hgate Hready] Hnew. destruct (accept_new from c (y_st y) Hnew) as [E O].
  assert (Hfresh : requestid c ∉ known y) by (by rewrite <- Hset).
  assert (Hk : known (run (accept from c) [(from, c)] y) ≡ₚ requestid c :: known y).
  { unfold known, run. cbn. rewrite E, O. unfold enrolled. cbn. case_bool_decide; cbn.
    - rewrite fmap_app, !app_nil_r, <- app_assoc. symmetry. apply Permutation_middle.
    - rewrite app_nil_r, <- (app_assoc (y_running y)), !(app_assoc (_ <$> _)). symmetry.
      apply Permutation_middle. }
  unfold run in *. cbn in *. rewrite E, O in *. unfold enrolled in *. split; cbn in *.
  - rewrite Hk. by constructor.
  - intros id. rewrite Hk, elem_of_cons, <- Hset, elem_of_union, elem_of_singleton. done.
  - intros Hr. rewrite (Hlog Hr). case_bool_decide; cbn; [by rewrite app_nil_r, app_assoc|].
    by rewrite (Hready H), !app_nil_r.
  - intros Hr. rewrite bool_decide_true by done. cbn. rewrite app_nil_r. by apply Hgate.
  - intros Hr. rewrite bool_decide_false by done. by apply Hready.
Qed.

Lemma sys_step_ok y y' : sys_step y y' → sys_ok y → sys_ok y'.
Proof.
  intros [m y0|ok y0 Hr|i id y0 Hi|id mail y0 Hm] Hok.
  - pose proof (handle_parsed m (y_st y0)) as Hh. unfold taken. destruct (parsed m) as [p|].
    + destruct Hh as [Eh Oh]. replace (run (handle m)) with (run (handle m)) by done.
      assert (∀ new, run (handle m) new y0 = run (accept p.1 p.2) new y0) as ->.
      { intros new. unfold run. by rewrite Eh, Oh. }
      case_bool_decide as Hin.
      * destruct (accept_duplicate p.1 p.2 (y_st y0) Hin). by rewrite run_quiet.
      * destruct p. by apply sys_ok_accept.
    + destruct Hh. by rewrite run_quiet.
  - destruct (recovered_effect ok (y_st y0)) as (E & F & R). destruct Hok as [Hnd Hset Hlog Hgate Hready].
    assert (Hk : known (run (recovered ok) [] y0) ≡ₚ known y0).
    { unfold known, run. cbn. rewrite E, F, R. cbn. destruct ok; cbn; rewrite ?app_nil_r.
      - by rewrite <- app_assoc, Permutation_app_swap_app.
      - by rewrite app_assoc, Permutation_app_comm. }
    split; [by rewrite Hk|intros id; rewrite Hk; unfold run; cbn; rewrite E; apply Hset|..];
      unfold run; cbn; rewrite ?E, ?F.
    + destruct ok; [|done]. intros _. cbn. rewrite !app_nil_r, Hgate by done.
      rewrite Hlog by (by rewrite Hr). by rewrite (Hgate Hr).
    + by destruct ok.
    + done.
  - destruct Hok as [Hnd Hset Hlog Hgate Hready].
    set (y1 := mkSys _ _ _ _ _).
    assert (Hk : known y1 ≡ₚ known y0).
    { unfold known, y1. cbn. apply Permutation_app_head. rewrite (delete_Permutation _ _ _ Hi) at 2.
      rewrite app_assoc. by rewrite Permutation_app_comm. }
    split; cbn; try done; [by rewrite Hk|]. intros id'. by rewrite Hk.
  - destruct Hok as [Hnd Hset Hlog Hgate Hready].
    assert (Hk : known y0 ≡ₚ id :: known (run (RemoveRequestSet id) []
      (mkSys (y_st y0) (y_running y0) mail (y_taken y0) (y_passed y0)))).
    { unfold known, run, RemoveRequestSet. act_simpl. cbn. rewrite Hm, !app_nil_r.
      by rewrite !app_assoc, <- Permutation_middle. }
    rewrite Hk in Hnd. apply NoDup_cons in Hnd as [Hid Hnd].
    split; [done| |unfold run; cbn; rewrite ?app_nil_r; done..].
    intros id'. specialize (Hset id'). rewrite Hk, elem_of_cons in Hset.
    unfold run, RemoveRequestSet at 1. act_simpl. cbn. rewrite elem_of_difference, elem_of_singleton, Hset.
    split; [by intros [[->|?] ?]|]. intros Hin. split; [by right|]. by intros ->.
Qed.
End invariant.

(** C25: the accessor passes every request on exactly once, in order, and
    only after the recovery. At any time the requests waiting for the
    recovery, the calls running in the key-value actor and the ids about to be
    released are disjoint, carry distinct ids, and are exactly [requestSet_];
    unless the recovery failed, the calls passed on followed by the waiting
    ones are the requests taken in; and before the recovery nothing is passed
    on. *)
Theorem accessor_exactly_once {PC : Codec PutRequest} {MC : Codec MetaStoreRequest} (y : Sys) :
  rtc sys_step start y →
  NoDup (known y) ∧ (∀ id, id ∈ requestSet_ (y_st y) ↔ id ∈ known y) ∧
  (isRecoverReady_ (y_st y) ≠ KERROR → y_taken y = y_passed y ++ onReady_ (y_st y)) ∧
  (isRecoverReady_ (y_st y) = KINIT → y_passed y = []) ∧
  (isRecoverReady_ (y_st y) = KOK → y_taken y = y_passed y).
Proof.
  intros H. assert (sys_ok y) as [Hnd Hset Hlog Hgate Hready].
  { revert H. apply (rtc_ind_r sys_ok); [|intros; by eapply sys_step_ok].
    split; cbn; [apply NoDup_nil_2| |done..]. intros id. by rewrite elem_of_empty, elem_of_nil. }
  split_and!; try done. intros Hr. rewrite Hlog, Hready by (by rewrite Hr). apply app_nil_r.
Qed.

(** A request, its duplicate, and the recovery. *)
Definition demo_put_codec : Codec PutRequest := {| ser r := pr_requestid r; parse _ := None |}.
Definition demo_req_codec : Codec MetaStoreRequest :=
  {| ser r := mq_requestid r; parse id := Some (mkReq id "" true) |}.
Definition demo_get : Msg := MGet "cli" "r1".
Definition demo_sys1 : Sys :=
  let m := handle (PC := demo_put_codec) (MC := demo_req_codec) demo_get in
  let new := taken (PC := demo_put_codec) (MC := demo_req_codec) demo_get in
  let y := run m (new (y_st start)) start in run m (new (y_st y)) y.
Definition demo_sys : Sys := run (recovered true) [] demo_sys1.

Lemma accessor_exactly_once_witness :
  y_passed demo_sys = [("cli", CallGet (mkReq "r1" "" true))] ∧ y_passed demo_sys1 = [] ∧
  NoDup (known demo_sys) ∧ y_taken demo_sys = y_passed demo_sys.
Proof.
  split; [by vm_compute|]. split; [by vm_compute|].
  destruct (accessor_exactly_once (PC := demo_put_codec) (MC := demo_req_codec) demo_sys)
    as (Hnd & _ & _ & _ & Hl).
  - unfold demo_sys. eapply rtc_r; [|apply sys_recovered; by vm_compute].
    unfold demo_sys1. eapply rtc_r; [apply rtc_once|]; apply (sys_message demo_get).
  - split; [exact Hnd|]. apply Hl. by vm_compute.
Defined.
