(* ===== verification/Durability.v ===== *)
(** * Durability: key-value actor, backup actor and storage together

    The writes the key-value actor posts go through the backup actor into the
    storage, and a restarted actor reads them back. *)

From S2P Require Import Prelude MetaTypes KvService KvInvariant KvProps KvRefine KvQuery Backup BackupProps.
From stdpp Require Import base gmap strings list fin_maps relations.
From Stdlib Require Import ZArith Lia.

Open Scope Z_scope.
Set Default Proof Using "Type".
Import Backup.

(** ** The storage *)
Abbreviation Storage := (gmap string string) (only parsing).

Definition store_op (st : Storage) (op : TxnOperation) : Storage :=
  match op with OpPut k v => <[k := v]> st | OpDelete k => delete k st end.
Definition store_commit (st : Storage) (x : Out) : Storage :=
  match x with Commit ops _ _ => foldl store_op st ops | _ => st end.
Definition stored (os : list Out) (st : Storage) : Storage := foldl store_commit st os.

Section storage.
Context {KVC : Codec KeyValue} (o : Options).

(** The part of the storage below the backup prefix holds the map. *)
Definition represents (st : Storage) (c : gmap string KeyValue) : Prop :=
  ∀ k, st !! (META_STORE_BACKUP_KV_PREFIX +:+ k) = ser <$> c !! k.

(** The copies kept for system functions stay out of the backup area. *)
Definition plain (k : string) : Prop :=
  enableSyncSysFunc_ o = true → ∀ k', k ≠ META_STORE_BACKUP_KV_PREFIX +:+ k'.

Lemma prefix_inj k k' :
  META_STORE_BACKUP_KV_PREFIX +:+ k = META_STORE_BACKUP_KV_PREFIX +:+ k' → k = k'.
Proof. intros E. by apply (inj (String.app META_STORE_BACKUP_KV_PREFIX)) in E. Qed.

Lemma represents_entry st c k v :
  plain k → represents st c → represents (foldl store_op st (commit_ops o (k, v))) (apply_op k v c).
Proof.
  intros Hp Hr k'. unfold commit_ops. cbn [fst snd].
  assert (Hsys : (enableSyncSysFunc_ o && IsSystemFuncInstanceInfo k) = true →
    k ≠ META_STORE_BACKUP_KV_PREFIX +:+ k').
  { intros [H _]%andb_true_iff. by apply Hp. }
  destruct v as [kv|]; destruct (enableSyncSysFunc_ o && _); cbn [foldl store_op apply_op];
    rewrite ?lookup_insert_ne, ?lookup_delete_ne by (by apply Hsys);
    (destruct (decide (k = k')) as [->|Hne];
     [rewrite ?lookup_insert_eq, ?lookup_delete_eq; done|]);
    rewrite ?lookup_insert_ne, ?lookup_delete_ne by (by intros ?%prefix_inj || done); apply Hr.
Qed.

Lemma represents_batch st c b :
  (∀ k, is_Some (b !! k) → plain k) → represents st c →
  represents (foldl store_op st (map_to_list b ≫= commit_ops o)) (apply_batch b c).
Proof.
  revert st c. induction b as [|k v b Hk Hfirst IH] using map_first_key_ind; intros st c Hp Hr.
  { by rewrite map_to_list_empty, apply_batch_empty. }
  rewrite map_to_list_insert_first_key by done. rewrite bind_cons, foldl_app.
  assert (Hb : apply_batch (<[k:=v]> b) c = apply_batch b (apply_op k v c)).
  { apply map_eq. intros k'. rewrite !lookup_apply_batch. unfold apply_op.
    destruct (decide (k = k')) as [->|Hne].
    - rewrite lookup_insert_eq, Hk. destruct v; by rewrite ?lookup_insert_eq, ?lookup_delete_eq.
    - rewrite lookup_insert_ne by done. destruct v; by rewrite ?lookup_insert_ne, ?lookup_delete_ne. }
  rewrite Hb. apply IH.
  - intros k' Hk'. apply Hp. rewrite lookup_insert_is_Some. destruct (decide (k = k')); eauto.
  - apply represents_entry; [|done]. apply Hp. rewrite lookup_insert_eq. eauto.
Qed.
End storage.

(** ** What the backup actor commits *)
Section commits.
Context {KVC : Codec KeyValue} (ByteSizeLong : KeyValue → Z) (o : Options).

Definition plain_batch (b : Batch) : Prop := ∀ k, is_Some (b !! k) → plain o k.
Record plain_state (s : State) : Prop := {
  ps_collect : plain_batch (toBackup_ s);
  ps_queue : Forall (λ e : Batch * Z, plain_batch e.1) (toFlush_ s);
  ps_collectAsync : plain_batch (toBackupAsync_ s);
  ps_queueAsync : Forall (λ e : Batch * Z, plain_batch e.1) (toFlushAsync_ s);
}.

(** The operations of a commit are those of its batch. *)
Definition commit_ok (x : Out) : Prop :=
  match x with
  | Commit ops b _ => ops = map_to_list b ≫= commit_ops o ∧ plain_batch b
  | _ => True
  end.
Definition tidy {A} (m : B A) (s : State) : Prop :=
  plain_state s → plain_state (exec m s) ∧ Forall commit_ok (outs m s).

Lemma tidy_bind {A A'} (m : B A) (f : A → B A') s :
  tidy m s → tidy (f (val m s)) (exec m s) → tidy (m ≫= f) s.
Proof.
  intros Hm Hf Hs. destruct (Hm Hs) as [H1 H2]. destruct (Hf H1) as [H3 H4].
  rewrite exec_bind, outs_bind. split; [done|]. by apply Forall_app.
Qed.
Lemma tidy_ret {A} (a : A) s : tidy (mret a) s.
Proof. intros Hs. split; [done|constructor]. Qed.
Lemma tidy_members s : tidy members s.
Proof. intros Hs. split; [done|constructor]. Qed.
Lemma tidy_post x s : commit_ok x → tidy (post x) s.
Proof. intros Hx Hs. split; [done|by repeat constructor]. Qed.
Lemma tidy_modify f s : (plain_state s → plain_state (f s)) → tidy (modify f) s.
Proof. intros Hf Hs. rewrite exec_modify, outs_modify. split; [by apply Hf|constructor]. Qed.
Lemma tidy_for_each {X} (l : list X) body s :
  (∀ x s, x ∈ l → tidy (body x) s) → tidy (for_each l body) s.
Proof.
  revert s. induction l as [|x l IH]; intros s H; cbn [for_each]; [apply tidy_ret|].
  apply tidy_bind; [apply H; left|]. apply IH. intros. apply H. by right.
Qed.

Lemma plain_empty : plain_batch ∅.
Proof. intros k. rewrite lookup_empty. by intros []. Qed.
Lemma plain_insert k v b : plain o k → plain_batch b → plain_batch (<[k := v]> b).
Proof. intros Hk Hb k'. rewrite lookup_insert_is_Some'. intros [<-|H]; [done|by apply Hb]. Qed.
Lemma plain_merge b f : plain_batch b → plain_batch f → plain_batch (merge_into b f).
Proof.
  intros Hb Hf k. unfold merge_into. rewrite lookup_union.
  intros [v [H|[_ H]]%union_Some]; [apply Hf|apply Hb]; eauto.
Qed.

Lemma plain_DoFlushLoop q ps b pr n :
  Forall (λ e : Batch * Z, plain_batch e.1) q → plain_batch b →
  let r := DoFlushLoop o q ps b pr n in
  plain_batch r.1.1.1 ∧ Forall (λ e : Batch * Z, plain_batch e.1) r.1.2.
Proof.
  intros Hq. revert ps b pr n. induction Hq as [|[f sz] q Hf Hq IH]; intros ps b pr n Hb; cbn [DoFlushLoop].
  { destruct ps; split; done || constructor. }
  destruct ps as [|p ps]; [split; [done|by constructor]|].
  repeat case_match; try (split; [done|by constructor]). by apply IH, plain_merge.
Qed.
Lemma plain_DoFlushForAsyncLoop q b n :
  Forall (λ e : Batch * Z, plain_batch e.1) q → plain_batch b →
  let r := DoFlushForAsyncLoop o q b n in
  plain_batch r.1 ∧ Forall (λ e : Batch * Z, plain_batch e.1) r.2.
Proof.
  intros Hq. revert b n. induction Hq as [|[f sz] q Hf Hq IH]; intros b n Hb; cbn [DoFlushForAsyncLoop].
  { split; [done|constructor]. }
  repeat case_match; try (split; [done|by constructor]). by apply IH, plain_merge.
Qed.

Lemma tidy_DoFlush s : tidy (DoFlush o) s.
Proof.
  unfold DoFlush. apply tidy_bind; [apply tidy_members|]. rewrite val_members, exec_members.
  case_bool_decide; [apply tidy_ret|]. case_match; [apply tidy_ret|]. intros Hs.
  destruct (plain_DoFlushLoop (toFlush_ s) (toFlushPromises_ s) ∅ [] 0 (ps_queue _ Hs) plain_empty) as [Hb Hq].
  destruct (DoFlushLoop o (toFlush_ s) (toFlushPromises_ s) ∅ [] 0) as [[[b pr] q] ps]. cbn [fst snd] in *.
  revert Hs. apply tidy_bind; [apply tidy_modify; by intros []|].
  case_bool_decide; [apply tidy_ret|]. apply tidy_bind; [apply tidy_modify; by intros []|].
  by apply tidy_post.
Qed.
Lemma tidy_DoFlushForAsync s : tidy (DoFlushForAsync o) s.
Proof.
  unfold DoFlushForAsync. apply tidy_bind; [apply tidy_members|]. rewrite val_members, exec_members.
  case_bool_decide; [apply tidy_ret|]. case_match; [apply tidy_ret|]. intros Hs.
  destruct (plain_DoFlushForAsyncLoop (toFlushAsync_ s) ∅ 0 (ps_queueAsync _ Hs) plain_empty) as [Hb Hq].
  destruct (DoFlushForAsyncLoop o (toFlushAsync_ s) ∅ 0) as [b q]. cbn [fst snd] in *.
  revert Hs. apply tidy_bind; [apply tidy_modify; by intros []|].
  case_bool_decide; [apply tidy_ret|]. apply tidy_bind; [apply tidy_modify; by intros []|].
  by apply tidy_post.
Qed.
Lemma tidy_Flush s : tidy (Flush o) s.
Proof.
  unfold Flush. apply tidy_bind; [apply tidy_members|]. rewrite val_members, exec_members.
  case_bool_decide; [apply tidy_ret|]. intros Hs. pose proof Hs as [Hc Hq Hca Hqa]. revert Hs.
  apply tidy_bind; [apply tidy_modify; intros _; split; try done; apply Forall_app; split; [done|by constructor]|].
  apply tidy_bind; [apply tidy_modify; intros []; split; done || apply plain_empty|].
  case_match; [apply tidy_DoFlush|by apply tidy_post].
Qed.
Lemma tidy_FlushAsync s : tidy (FlushAsync o) s.
Proof.
  unfold FlushAsync. apply tidy_bind; [apply tidy_members|]. rewrite val_members, exec_members.
  case_bool_decide; [apply tidy_ret|]. intros Hs. pose proof Hs as [Hc Hq Hca Hqa]. revert Hs.
  apply tidy_bind; [apply tidy_modify; intros _; split; try done; apply Forall_app; split; [done|by constructor]|].
  apply tidy_bind; [apply tidy_modify; intros []; split; done || apply plain_empty|].
  case_match; [apply tidy_DoFlushForAsync|by apply tidy_post].
Qed.
Lemma tidy_CheckFlush a s : tidy (CheckFlush o a) s.
Proof.
  unfold CheckFlush. apply tidy_bind; [apply tidy_members|]. rewrite val_members, exec_members. destruct a.
  - apply tidy_bind; [|apply tidy_ret]. case_match; [apply tidy_FlushAsync|apply tidy_ret].
  - do 2 (apply tidy_bind; [apply tidy_modify; by intros []|]).
    apply tidy_bind; [|apply tidy_ret]. case_match; [apply tidy_Flush|by apply tidy_post].
Qed.

Lemma tidy_WritePutInternal kv a s : plain o (kv_key kv) → tidy (WritePutInternal ByteSizeLong o kv a) s.
Proof.
  intros Hk. unfold WritePutInternal. apply tidy_bind; [apply tidy_members|].
  apply tidy_bind; [|apply tidy_ret]. rewrite val_members, exec_members.
  destruct a; (apply tidy_bind; [case_match; [first [apply tidy_FlushAsync|apply tidy_Flush]|apply tidy_ret]|]);
    apply tidy_modify; intros []; split; try done; by apply plain_insert.
Qed.
Lemma tidy_WriteDeletesInternal kvs a s :
  Forall (λ kv, plain o (kv_key kv)) (default [] kvs) → tidy (WriteDeletesInternal kvs a) s.
Proof.
  intros Hk. destruct kvs as [kvs|]; cbn [WriteDeletesInternal]; [|apply tidy_ret].
  apply tidy_bind; [|apply tidy_ret]. apply tidy_for_each. intros kv s0 Hin.
  cbn in Hk. rewrite Forall_forall in Hk. apply tidy_modify. intros [].
  destruct a; split; try done; apply plain_insert; auto.
Qed.

(** The keys a message writes. *)
Definition plain_message (m : Msg) : Prop :=
  match m with
  | MWritePut kv _ => plain o (kv_key kv)
  | MWriteDeletes kvs _ => Forall (λ kv, plain o (kv_key kv)) (default [] kvs)
  | MWriteTxn txn _ =>
      Forall (λ p : KeyValue * KeyValue, plain o (kv_key p.1)) txn.1 ∧
      Forall (λ kvs, Forall (λ kv, plain o (kv_key kv)) (default [] kvs)) txn.2
  | _ => True
  end.

Lemma tidy_SetPromises st ps s : tidy (SetPromises o st ps) s.
Proof.
  unfold SetPromises. case_bool_decide.
  - apply tidy_bind; [apply tidy_modify; by intros []|]. apply tidy_bind; [apply tidy_members|].
    apply tidy_bind; [|apply tidy_ret]. case_match; by apply tidy_post.
  - apply tidy_bind; [apply tidy_modify; by intros []|].
    apply tidy_bind; [apply tidy_for_each; intros; by apply tidy_post|].
    apply tidy_bind; [apply tidy_modify; by intros []|]. apply tidy_bind; [apply tidy_members|].
    apply tidy_bind; [|apply tidy_ret]. unfold act_when. case_match; [by apply tidy_post|apply tidy_ret].
Qed.

Lemma tidy_handle m s : plain_message m → tidy (handle ByteSizeLong o m) s.
Proof.
  destruct m as [kv a|kvs a|txn a| | | | | |st ps]; cbn [handle plain_message]; intros Hk.
  - apply tidy_bind; [|apply tidy_ret]. apply tidy_bind; [by apply tidy_WritePutInternal|apply tidy_CheckFlush].
  - apply tidy_bind; [|apply tidy_ret]. apply tidy_bind; [by apply tidy_WriteDeletesInternal|apply tidy_CheckFlush].
  - apply tidy_bind; [|apply tidy_ret]. destruct Hk as [Hp Hd].
    pose proof (proj1 (Forall_forall _ _) Hp) as Hp'. pose proof (proj1 (Forall_forall _ _) Hd) as Hd'.
    apply tidy_bind.
    { apply tidy_for_each. intros p s0 Hin. apply tidy_bind; [by apply tidy_WritePutInternal, Hp'|apply tidy_ret]. }
    apply tidy_bind.
    { apply tidy_for_each. intros d s0 Hin. apply tidy_bind; [by apply tidy_WriteDeletesInternal, Hd'|apply tidy_ret]. }
    case_bool_decide; [apply tidy_ret|apply tidy_CheckFlush].
  - apply tidy_Flush.
  - apply tidy_DoFlush.
  - apply tidy_FlushAsync.
  - apply tidy_DoFlushForAsync.
  - apply tidy_bind; [apply tidy_FlushAsync|by apply tidy_post].
  - apply tidy_bind; [apply tidy_SetPromises|apply tidy_ret].
Qed.

Lemma represents_commits os st c :
  Forall commit_ok os → represents st c → represents (stored os st) (committed os c).
Proof.
  intros H. revert st c. induction H as [|x os Hx _ IH]; intros st c Hr; [done|].
  apply IH. destruct x; try done. destruct Hx as [-> Hb]. by apply represents_batch.
Qed.

(** The storage holds what was committed. *)
Lemma brun_represents ms s os st c :
  Forall plain_message ms → plain_state s → Forall commit_ok os → represents st c →
  let r := brun ByteSizeLong o ms s os in represents (stored r.2 st) (committed r.2 c).
Proof.
  intros H. revert s os. induction H as [|m ms Hm _ IH]; intros s os Hs Hos Hr; cbn [brun].
  { by apply represents_commits. }
  destruct (tidy_handle m s Hm Hs). apply IH; [done|by apply Forall_app|done].
Qed.
End commits.

(** ** Reading the storage back *)
Lemma prefix_app p s : String.prefix p (p +:+ s) = true.
Proof. induction p as [|a p IH]; simpl; [by destruct s|]. by destruct (Ascii.ascii_dec a a). Qed.
Lemma prefix_inv p s : String.prefix p s = true → ∃ s', s = p +:+ s'.
Proof.
  revert s. induction p as [|a p IH]; intros s; [intros _; by exists s|].
  destruct s as [|b s]; [done|]. simpl. destruct (Ascii.ascii_dec a b) as [->|]; [|done].
  intros [s' ->]%IH. by exists s'.
Qed.

Section reading.
Context {PB : Protobuf}.

(** [gr] is an answer to a prefix read of the storage, in any order. *)
Definition answers_get (gr : GetResponse) (st : Storage) : Prop :=
  ∃ es, Forall2 (λ e p, kv_key e = p.1 ∧ kv_value e = p.2) (gr_kvs gr) es ∧
    es ≡ₚ map_to_list (filter (λ p, String.prefix META_STORE_BACKUP_KV_PREFIX p.1 = true) st).

Definition entry_of (p : string * KeyValue) : string * string :=
  (META_STORE_BACKUP_KV_PREFIX +:+ p.1, ser p.2).

Lemma represented_entries st c :
  represents st c →
  map_to_list (filter (λ p, String.prefix META_STORE_BACKUP_KV_PREFIX p.1 = true) st) ≡ₚ
    entry_of <$> map_to_list c.
Proof.
  intros Hr. apply NoDup_Permutation.
  - apply NoDup_map_to_list.
  - apply (NoDup_fmap_1 fst). rewrite <- list_fmap_compose.
    apply (NoDup_fmap_2_strong (λ p : string * KeyValue, META_STORE_BACKUP_KV_PREFIX +:+ p.1)).
    + intros [k v] [k' v'] H H' E%prefix_inj. simpl in E. subst k'.
      apply elem_of_map_to_list in H, H'. by simplify_eq.
    + apply NoDup_map_to_list.
  - intros [k v]. rewrite elem_of_map_to_list, map_lookup_filter_Some, list_elem_of_fmap. simpl. split.
    + intros [Hk (k' & ->)%prefix_inv]. rewrite Hr in Hk. apply fmap_Some in Hk as (kv & Hkv & ->).
      exists (k', kv). by rewrite elem_of_map_to_list.
    + intros ([k' kv] & [= -> ->] & Hkv%elem_of_map_to_list). split; [|apply prefix_app].
      rewrite Hr, Hkv. done.
Qed.

Lemma answers_lists gr st c : answers_get gr st → represents st c → lists_store (gr_kvs gr) c.
Proof.
  intros (es & Hes & Hperm) Hr. rewrite (represented_entries st c Hr) in Hperm.
  apply Permutation_map_inv in Hperm as (ps & -> & Hps). exists ps. split; [|done].
  apply Forall2_fmap_r in Hes. eapply Forall2_impl; [exact Hes|]. intros e p [H1 H2]. by split.
Qed.
End reading.

(** ** From the key-value actor to the backup actor *)
Definition to_backup (x : Kv.Out) : option Msg :=
  match x with
  | Kv.BackupWritePut kv a => Some (MWritePut kv a)
  | Kv.BackupWriteDeletes kvs a => Some (MWriteDeletes (Some kvs) a)
  | Kv.BackupWriteTxn txn a => Some (MWriteTxn (txn.1, Some <$> txn.2) a)
  | _ => None
  end.
Definition is_write (m : Msg) : bool :=
  match m with MWritePut _ _ | MWriteDeletes _ _ | MWriteTxn _ _ => true | _ => false end.

Lemma delete_kvs_erase kvs c : delete_kvs kvs c = erase_keys (kv_key <$> kvs) c.
Proof. unfold delete_kvs, erase_keys. by rewrite foldl_fmap. Qed.

Lemma delete_lists (deletes : list (list KeyValue)) c :
  foldl (λ c kvs, delete_kvs (default [] kvs) c) c (Some <$> deletes) =
  erase_keys (kv_key <$> concat deletes) c.
Proof.
  revert c. induction deletes as [|d deletes IH]; intros c; [done|]. cbn [concat fmap list_fmap foldl].
  rewrite IH, fmap_app, erase_keys_app. f_equal. apply delete_kvs_erase.
Qed.

Lemma to_backup_writes x c :
  backup1 c x = match to_backup x with Some m => writes m c | None => c end.
Proof.
  destruct x as [| | | | | | | |kv a|kvs a|[puts deletes] a| | |]; try done; cbn [backup1 to_backup writes].
  - cbn [default from_option]. symmetry. apply delete_kvs_erase.
  - cbn [fst snd]. rewrite delete_lists. unfold insert_kvs. by rewrite foldl_fmap.
Qed.

Lemma backup_log_writes os c :
  backup_log os c = foldl (λ c m, writes m c) c (omap to_backup os).
Proof.
  revert c. induction os as [|x os IH]; intros c; [done|]. unfold backup_log in *. cbn [foldl].
  rewrite to_backup_writes, IH. cbn [omap list_omap]. by destruct (to_backup x).
Qed.
Lemma foldl_writes ms c :
  foldl (λ c m, writes m c) c ms = foldl (λ c m, writes m c) c (filter (λ m, is_write m = true) ms).
Proof.
  revert c. induction ms as [|m ms IH]; intros c; [done|]. rewrite filter_cons. cbn [foldl].
  case_decide; [cbn [foldl]; apply IH|]. rewrite <- IH. by destruct m.
Qed.

Lemma writes_on_side os ms :
  Forall asks_async os →
  Forall (λ m, match m with MFlush | MDoFlush => False | _ => True end) ms →
  filter (λ m, is_write m = true) ms = omap to_backup os → Forall (on_side true) ms.
Proof.
  intros Ha Hns Hms. apply Forall_forall. intros m Hm.
  pose proof (proj1 (Forall_forall _ _) Hns m Hm) as Hn. cbn beta in Hn. destruct (is_write m) eqn:Hw; [|by destruct m].
  assert (m ∈ omap to_backup os) as (x & Hx & Hto)%list_elem_of_omap.
  { rewrite <- Hms. by apply list_elem_of_filter. }
  pose proof (proj1 (Forall_forall _ _) Ha x Hx) as Hax. destruct x; simplify_eq/=; done.
Qed.

(** C26: what a master has acknowledged and the backup has flushed survives a
    restart. Take any run of asynchronous requests and expiring leases; let
    the backup actor receive the writes posted by it, in order, mixed with any
    timers, flushes and answers; when nothing is left collected or queued, a
    fresh actor that reads the storage holding the committed transactions has
    the cache of the old one, its invariant, and a revision not above. *)
Theorem backup_survives_restart {PB : Protobuf} (kv_moved : KeyValue → KeyValue)
    (ByteSizeLong : KeyValue → Z) (o : Options) (explore explore' : bool)
    (c : Kv.Config) (ms : list Msg) (gr : GetResponse) :
  CodecOk KeyValue →
  rtc (async_step kv_moved) (Kv.initial true explore) c →
  Forall (λ m, match m with MFlush | MDoFlush => False | _ => True end) ms →
  filter (λ m, is_write m = true) ms = omap to_backup (Kv.c_outs c) →
  Forall (plain_message o) ms →
  let r := brun ByteSizeLong o ms (init o) [] in
  toBackupAsync_ r.1 = ∅ → toFlushAsync_ r.1 = [] →
  answers_get gr (stored r.2 ∅) →
  let s' := exec (Kv.Sync gr) (Kv.init true explore') in
  Kv.cache_ s' = Kv.cache_ (Kv.c_st c) ∧ kv_wf s' ∧
  Kv.modRevision_ s' ≤ Kv.modRevision_ (Kv.c_st c).
Proof.
  intros Hok Hrun Hns Hms Hplain r Hc Hq Hget s'.
  destruct (async_run_logs kv_moved explore c Hrun) as ((Hwf & _) & Hcache & Hasync).
  assert (Hside : Forall (on_side true) ms).
  { by apply (writes_on_side (Kv.c_outs c)). }
  pose proof (brun_balance ByteSizeLong o true ms ∅ (init o) [] Hside) as Hb. fold r in Hb.
  assert (Hcommitted : committed r.2 ∅ = Kv.cache_ (Kv.c_st c)).
  { rewrite Hcache, backup_log_writes, <- Hms, <- foldl_writes.
    unfold view, collecting, queued in Hb. rewrite Hc, Hq in Hb. cbn in Hb.
    by rewrite !apply_batch_empty in Hb. }
  assert (Hrep : represents (stored r.2 ∅) (Kv.cache_ (Kv.c_st c))).
  { rewrite <- Hcommitted. apply brun_represents; [done| |done|].
    - split; try apply plain_empty; constructor.
    - intros k. by rewrite !lookup_empty. }
  destruct (answers_lists gr _ _ Hget Hrep) as (ps & Hl & Hps).
  unfold s'. destruct (Sync_restores explore' gr ps _ (Kv.modRevision_ (Kv.c_st c)) Hl Hps)
    as (-> & H1 & H2 & H3); [apply Hwf|apply Hwf|]. done.
Qed.

(** A transaction and an expired lease, backed up and read again. *)
Definition demo_mail : list Msg :=
  omap to_backup (Kv.c_outs demo_async) ≫= λ m, [m; MFlushAsync; MSetPromises StatusOK []; MDoFlushForAsync].
Definition demo_backup : State * list Out :=
  brun (KVC := @pb_kv demo_pb) demo_size demo_options
    (demo_mail ++ [MSetPromises StatusOK []; MTrigger; MDoFlushForAsync]) (init demo_options) [].
Definition demo_answer : GetResponse :=
  mkGetResp StatusOK 9 ((λ p, mkKV p.1 1 1 1 p.2 0) <$>
    map_to_list (filter (λ p, String.prefix META_STORE_BACKUP_KV_PREFIX p.1 = true) (stored demo_backup.2 ∅))).

Lemma backup_survives_restart_witness :
  let s' := exec (Kv.Sync (PB := demo_pb) demo_answer) (Kv.init true true) in
  Kv.cache_ s' = Kv.cache_ (Kv.c_st demo_async) ∧
  Kv.cache_ s' !! "a" = Some (mkKV "a" 1 1 1 "1" 7) ∧ Kv.cache_ s' !! "b" = None.
Proof.
  destruct (backup_survives_restart (PB := demo_pb) demo_moved demo_size demo_options false true demo_async
    (demo_mail ++ [MSetPromises StatusOK []; MTrigger; MDoFlushForAsync]) demo_answer) as (H1 & _).
  - exact demo_codec_ok.
  - unfold demo_async. eapply rtc_l; [|eapply rtc_once, astep_revoke]. apply astep_request. by constructor.
  - vm_compute. repeat constructor.
  - vm_compute. reflexivity.
  - unfold plain_message, plain. vm_compute. repeat (constructor || done).
  - vm_compute. reflexivity.
  - vm_compute. reflexivity.
  - eexists. split; [|reflexivity]. apply Forall2_fmap_l, Forall_Forall2_diag. by apply Forall_true.
  - split; [exact H1|]. rewrite H1. split; vm_compute; reflexivity.
Defined.
