(* ===== verification/Expiry.v ===== *)
(** * Expiring leases: lease actor and key-value actor together

    The lease actor tells the key-value actor which keys to delete, and the
    key-value actor tells the lease actor which keys are attached. *)

From S2P Require Import Prelude StdStrings MetaTypes Leader KvService KvInvariant KvProps LeaseService LeaseProps.
From stdpp Require Import base gmap strings list fin_maps relations.
From Stdlib Require Import ZArith Lia.

Open Scope Z_scope.
Set Default Proof Using "Type".
Import LeaseSvc.

(** The messages of one actor, handled by the other in their order. *)
Definition to_kv (x : Out) : Kv.K unit :=
  match x with KvOnRevoke items => Kv.OnRevoke items ≫= λ _, mret tt | _ => mret tt end.
Definition to_lease (x : Kv.Out) : L unit :=
  match x with Kv.LeaseAttach item id => Attach item id ≫= λ _, mret tt | _ => mret tt end.

(** The key is an item of a lease that expired before [now]. *)
Definition expired_item (now : Z) (s : State) (k : string) : Prop :=
  ∃ id l, leases_ s !! id = Some l ∧ ls_expiry l < now ∧ k ∈ ls_items l.

Lemma OnRevoke_effect keys (s : Kv.State) :
  kv_wf s →
  Kv.cache_ (exec (Kv.OnRevoke keys) s) = erase_keys (std_set_list keys) (Kv.cache_ s) ∧
  Kv.ongoing_ (exec (Kv.OnRevoke keys) s) = Kv.ongoing_ s ∧ kv_wf (exec (Kv.OnRevoke keys) s) ∧
  replay (outs (Kv.OnRevoke keys) s) (Kv.cache_ s) = Kv.cache_ (exec (Kv.OnRevoke keys) s).
Proof.
  intros Hwf. pose proof (runs_OnRevoke (lease := true) keys s eq_refl Hwf) as Hr.
  split_and!; [| |by eapply micros_wf|symmetry; by eapply micros_replay];
    unfold Kv.OnRevoke;
    destruct (RevokeLoop_effect (std_set_list keys) [] s (NoDup_std_set_list keys)) as (He & _);
    rewrite exec_bind, He; act_simpl; by rewrite !Tauto.if_same.
Qed.

(** Delivering the messages of a checkpoint. *)
Lemma deliver_revokes (ps : list (Z * Lease)) (s : Kv.State) :
  kv_wf s →
  let m := for_each (concat (expire_msgs <$> ps)) to_kv in
  kv_wf (exec m s) ∧ Kv.ongoing_ (exec m s) = Kv.ongoing_ s ∧
  replay (outs m s) (Kv.cache_ s) = Kv.cache_ (exec m s) ∧
  ∀ k kv, Kv.cache_ (exec m s) !! k = Some kv ↔
    Kv.cache_ s !! k = Some kv ∧ ∀ p, p ∈ ps → k ∉ ls_items p.2.
Proof.
  revert s. induction ps as [|p ps IH]; intros s Hwf m; unfold m.
  { split_and!; [done..|]. intros k kv. split; [|by intros []]. intros H. split; [done|].
    by intros p ?%elem_of_nil. }
  destruct (OnRevoke_effect (item_set p.2) s Hwf) as (Hc & Ho & Hwf' & Hr).
  cbn [fmap list_fmap concat expire_msgs app for_each to_kv].
  rewrite !exec_bind, !outs_bind, !exec_ret, !outs_ret, app_nil_r, app_nil_l.
  destruct (IH (exec (Kv.OnRevoke (item_set p.2)) s) Hwf') as (H1 & H2 & H3 & H4).
  split_and!; [done|by rewrite H2|rewrite replay_app, Hr; exact H3|].
  intros k kv. rewrite H4, Hc, lookup_erase_keys_Some, elem_of_std_set_list. unfold item_set.
  rewrite elem_of_list_to_set. setoid_rewrite elem_of_cons. split.
  - intros [[? ?] Hps]. split; [done|]. intros q [->|Hq]; [done|by apply Hps].
  - intros [? Hq]. split; [split; [apply Hq; by left|done]|]. intros. apply Hq. by right.
Qed.

(** C27: when leases expire, exactly their keys disappear. A checkpoint of a
    running master at time [now], followed by the key-value actor handling
    the messages it posted, removes from the cache exactly the keys attached
    to a lease that has expired, keeps everything else, keeps the invariant of
    the key-value actor and what is in flight, and tells the watchers of
    exactly these deletions. *)
Theorem expiry_removes_keys {LP : LeaseProtobuf} (now : Z) (ls : State) (s : Kv.State) :
  running_ ls = true → curStatus_ ls = MASTER_BUSINESS → kv_wf s →
  let m := for_each (outs (handle now MCheckpoint) ls) to_kv in
  let s' := exec m s in
  (∀ k kv, Kv.cache_ s' !! k = Some kv ↔ Kv.cache_ s !! k = Some kv ∧ ¬ expired_item now ls k) ∧
  Kv.ongoing_ s' = Kv.ongoing_ s ∧ kv_wf s' ∧
  replay (outs m s) (Kv.cache_ s) = Kv.cache_ s'.
Proof.
  intros Hr Hm Hwf m s'. unfold s', m. cbn [handle]. destruct (checkpoint_effect now ls Hr Hm) as [_ ->].
  rewrite exec_for_each_app, outs_for_each_app. cbn [for_each to_kv].
  rewrite exec_bind, outs_bind, !exec_ret, !outs_ret, !app_nil_r.
  destruct (deliver_revokes (dead now (map_to_list (leases_ ls))) s Hwf) as (H1 & H2 & H3 & H4).
  split_and!; try done. intros k kv. rewrite H4. apply and_iff_compat_l. unfold expired_item.
  setoid_rewrite dead_perm. split.
  - intros H (id & l & Hl & He & Hk). apply (H (id, l)); [|done].
    rewrite elem_of_map_to_list, map_lookup_filter_Some. split; [done|]. unfold alive. simpl. lia.
  - intros H [id l] Hin Hk. rewrite elem_of_map_to_list, map_lookup_filter_Some in Hin.
    destruct Hin as [Hl Ha]. apply H. exists id, l. unfold alive in Ha. simpl in *. split_and!; [done|lia|done].
Qed.

(** ** A key put twice, with two leases *)
Definition demo_kv_puts : Kv.Config :=
  Kv.run_handler (Kv.AsyncPut (PB := demo_pb) "cli" (mkPut "p2" "k" "new" 2 false true))
    (Kv.run_handler (Kv.AsyncPut (PB := demo_pb) "cli" (mkPut "p1" "k" "old" 1 false true))
      (Kv.initial false false)).
(** Lease 1 lives until 10000, lease 2 until 100000; both have the key. *)
Definition demo_two_leases : State :=
  let s := set_leases {[ 1 := mkLease 1 10 10000 []; 2 := mkLease 2 100 100000 [] ]}
    (set_running true (init 0 false false)) in
  exec (for_each (Kv.c_outs demo_kv_puts) to_lease) s.

Lemma demo_kv_puts_wf : kv_wf (Kv.c_st demo_kv_puts).
Proof.
  apply (client_reachable_wf (PB := demo_pb) demo_moved). unfold demo_kv_puts.
  do 2 (apply request_reachable; [constructor|]). apply initial_reachable.
Qed.

Lemma expiry_removes_keys_witness :
  let s' := exec (for_each (outs (handle (LP := demo_lp) 200000 MCheckpoint) demo_two_leases) to_kv)
    (Kv.c_st demo_kv_puts) in
  Kv.cache_ (Kv.c_st demo_kv_puts) !! "k" = Some (mkKV "k" 1 2 2 "new" 2) ∧
  Kv.cache_ s' !! "k" = None ∧ kv_wf s'.
Proof.
  destruct (expiry_removes_keys (LP := demo_lp) 200000 demo_two_leases (Kv.c_st demo_kv_puts))
    as (H1 & _ & H2 & _); [by vm_compute|by vm_compute|exact demo_kv_puts_wf|].
  split_and!; [by vm_compute| |exact H2]. apply eq_None_not_Some. intros [kv Hk].
  apply H1 in Hk as [_ Hk]. apply Hk. exists 1, (mkLease 1 10 10000 ["k"]). vm_compute.
  split_and!; [reflexivity|reflexivity|constructor].
Defined.

(** The key is deleted when its former lease expires, although it was put
    again with a lease that is still alive. *)
Theorem former_lease_deletes_key :
  let s := Kv.c_st demo_kv_puts in
  let s' := exec (for_each (outs (handle (LP := demo_lp) 20000 MCheckpoint) demo_two_leases) to_kv) s in
  Kv.cache_ s !! "k" = Some (mkKV "k" 1 2 2 "new" 2) ∧
  is_Some (leases_ (exec (handle (LP := demo_lp) 20000 MCheckpoint) demo_two_leases) !! 2) ∧
  Kv.cache_ s' !! "k" = None.
Proof. vm_compute. split_and!; [reflexivity|by eexists|reflexivity]. Qed.
