(* ===== verification/SchedItems.v ===== *)
(** * Scheduling requests and queue items

    [common/schedule_decision/queue/queue_item.h] with the parts of
    [ScheduleRequest] it reads, and
    [common/create_agent_decision/create_agent_decision.h]. *)

From S2P Require Import Prelude StdStrings.
From stdpp Require Import base gmap strings list fin_maps.
From Stdlib Require Import ZArith Lia.

Open Scope Z_scope.
Set Default Proof Using "Type".

(** ** Status codes ([common/status/status.h]) *)
Definition RESOURCE_NOT_ENOUGH : Z := 6.
Definition INSTANCE_ALLOCATED : Z := 8.
Definition AFFINITY_SCHEDULE_FAILED : Z := 208.
Definition ERR_PARAM_INVALID : Z := 1001.
Definition ERR_RESOURCE_NOT_ENOUGH : Z := 1002.
Definition ERR_SCHEDULE_CANCELED : Z := 1017.

(** ** Messages.  A [Selector] is its serialized form; a scalar resource enters
    the code below only through [operator<<], and is what that prints. *)
Record ResourceAffinity := mkResourceAffinity {
  ra_preferredAffinity : option string;
  ra_preferredAntiAffinity : option string;
  ra_requiredAffinity : option string;
  ra_requiredAntiAffinity : option string;
}.
#[global] Instance ResourceAffinity_eq_dec : EqDecision ResourceAffinity.
Proof. solve_decision. Defined.

Record ScheduleOption := mkScheduleOption {
  so_schedPolicyName : string;
  so_priority : Z;
  so_instanceAffinity : list string;       (* keys of [affinity.instanceAffinity] *)
  so_resource : option ResourceAffinity;   (* [affinity.resource] *)
  so_pending : list ResourceAffinity;      (* [affinity.inner.pending.resources] *)
  so_scheduleTimeoutMs : Z;
}.
Definition so_default : ScheduleOption := mkScheduleOption "" 0 [] None [] 0.

Record InstanceInfo := mkInstanceInfo {
  ii_instanceID : string;
  ii_requestID : string;
  ii_resources : option (gmap string string);
  ii_scheduleOption : option ScheduleOption;
  ii_createOptions : gmap string string;
  ii_extensions : gmap string string;
}.
Definition ii_default : InstanceInfo := mkInstanceInfo "" "" None None ∅ ∅.

Record ScheduleRequest := mkScheduleRequest {
  sr_instance : option InstanceInfo;
  sr_requestID : string;
}.

(** Reading an absent sub-message gives the default one. *)
Definition scheduleoption (info : InstanceInfo) : ScheduleOption :=
  default so_default (ii_scheduleOption info).
Definition instance (req : ScheduleRequest) : InstanceInfo := default ii_default (sr_instance req).

(** ** Items.  A promise and a cancel future are named by numbers; [None] is
    the null pointer. *)
Definition RECEIVED_TIMESTAMP : string := "receivedTimestamp".

(** [std::stoll] throws on malformed and out-of-range input. *)
Definition InstanceCreatedTimeStamp (info : InstanceInfo) : Z :=
  match ii_extensions info !! RECEIVED_TIMESTAMP with
  | None => 0
  | Some s => default 0 (stoll s)
  end.

Record InstanceItem := mkInstanceItem {
  in_scheduleReq : option ScheduleRequest;
  in_schedulePromise : nat;
  in_cancelTag : nat;
  in_hasFailed : bool;
}.
Record RangeOpt := mkRangeOpt { ro_isRange : bool; ro_min : Z; ro_max : Z; ro_step : Z }.
Record GroupItem := mkGroupItem {
  gr_groupReqs : list InstanceItem;
  gr_groupPromise : nat;
  gr_groupReqID : string;
  gr_cancelTag : nat;
  gr_opt : RangeOpt;
  gr_timeout : Z;
  gr_hasFailed : bool;
}.

(** [uint16_t] *)
Definition to_uint16 (z : Z) : Z := z mod 2 ^ 16.

Definition instance_request_id (i : InstanceItem) : string :=
  match in_scheduleReq i with None => "" | Some req => sr_requestID req end.
Definition request_option (req : option ScheduleRequest) : option ScheduleOption :=
  r ← req; info ← sr_instance r; ii_scheduleOption info.
Definition request_priority (req : option ScheduleRequest) : Z :=
  match request_option req with None => 0 | Some o => to_uint16 (so_priority o) end.
Definition instance_priority (i : InstanceItem) : Z := request_priority (in_scheduleReq i).
Definition instance_created (i : InstanceItem) : Z :=
  match in_scheduleReq i ≫= sr_instance with None => 0 | Some info => InstanceCreatedTimeStamp info end.

(** [None]: [front()] of an empty vector or a null request is dereferenced.
    The actor answers empty groups without queueing them; [CreatedTimestamp]
    below is 0 there. *)
Definition group_priority (g : GroupItem) : Z :=
  match gr_groupReqs g with [] => 0 | i :: _ => request_priority (in_scheduleReq i) end.
Definition group_created (g : GroupItem) : option Z :=
  match gr_groupReqs g with
  | [] => None
  | i :: _ => req ← in_scheduleReq i; Some (InstanceCreatedTimeStamp (instance req))
  end.

(** An aggregated item is an object shared by several containers: a name for
    it here, its requests in a heap. *)
Inductive QueueItem :=
  | InstanceItem_ (i : InstanceItem)
  | GroupItem_ (g : GroupItem)
  | AggregatedItem_ (ref : nat).

Record AggregatedItem := mkAggregatedItem {
  ag_aggregatedKey : string;
  ag_reqQueue : list InstanceItem;
}.
Abbreviation Heap := (gmap nat AggregatedItem) (only parsing).

Section items.
Context (h : Heap).

Definition front_request (ref : nat) : option InstanceItem :=
  a ← h !! ref; head (ag_reqQueue a).
Definition GetRequestId (q : QueueItem) : string :=
  match q with
  | InstanceItem_ i => instance_request_id i
  | GroupItem_ g => gr_groupReqID g
  | AggregatedItem_ r => from_option instance_request_id "" (front_request r)
  end.
Definition GetPriority (q : QueueItem) : Z :=
  match q with
  | InstanceItem_ i => instance_priority i
  | GroupItem_ g => group_priority g
  | AggregatedItem_ r => from_option instance_priority 0 (front_request r)
  end.
Definition CreatedTimestamp (q : QueueItem) : Z :=
  match q with
  | InstanceItem_ i => instance_created i
  | GroupItem_ g => default 0 (group_created g)
  | AggregatedItem_ r => from_option instance_created 0 (front_request r)
  end.
End items.

Definition TagFailure (q : QueueItem) : QueueItem :=
  match q with
  | InstanceItem_ i =>
      InstanceItem_ (mkInstanceItem (in_scheduleReq i) (in_schedulePromise i) (in_cancelTag i) true)
  | GroupItem_ g =>
      GroupItem_ (mkGroupItem (gr_groupReqs g) (gr_groupPromise g) (gr_groupReqID g) (gr_cancelTag g)
                    (gr_opt g) (gr_timeout g) true)
  | AggregatedItem_ r => AggregatedItem_ r
  end.
Definition HasFailed (q : QueueItem) : bool :=
  match q with
  | InstanceItem_ i => in_hasFailed i
  | GroupItem_ g => gr_hasFailed g
  | AggregatedItem_ _ => false
  end.

Lemma instance_priority_bounds i : 0 ≤ instance_priority i < 2 ^ 16.
Proof.
  unfold instance_priority, request_priority, to_uint16. case_match; [|lia]. apply Z.mod_pos_bound. lia.
Qed.
Lemma GetPriority_bounds h q : 0 ≤ GetPriority h q < 2 ^ 16.
Proof.
  destruct q as [i|g|r]; cbn [GetPriority].
  - apply instance_priority_bounds.
  - unfold group_priority. destruct (gr_groupReqs g) as [|i ?]; [lia|]. apply (instance_priority_bounds i).
  - destruct (front_request h r); simpl; [apply instance_priority_bounds|lia].
Qed.

(** ** Deciding whether an agent is created in the domain *)
Definition AFFINITY_POOL_ID : string := "AFFINITY_POOL_ID".
Definition MONOPOLY_SCHEDULE : string := "monopoly".
Definition RESOURCE_OWNER_KEY : string := "resource.owner".
Definition SYSTEM_OWNER_VALUE : string := "system".
Definition STATIC_FUNCTION_OWNER_VALUE : string := "static_function".
Definition DELEGATE_CONTAINER : string := "DELEGATE_CONTAINER".
Definition ENABLE_HORIZONTAL_SCALE_KEY : string := "ENABLE_HORIZONTAL_SCALE".
Definition CPU_RESOURCE_NAME : string := "CPU".
Definition MEMORY_RESOURCE_NAME : string := "Memory".
Definition POOLABLE_RESOURCES_KEYS : list string := [CPU_RESOURCE_NAME; MEMORY_RESOURCE_NAME].

Definition NeedCreateAgentByPoolID (info : InstanceInfo) : bool :=
  match ii_createOptions info !! AFFINITY_POOL_ID with
  | Some v => negb (bool_decide (v = ""))
  | None => false
  end.

Definition NeedCreateAgent (info : InstanceInfo) : bool :=
  if negb (bool_decide (so_schedPolicyName (scheduleoption info) = MONOPOLY_SCHEDULE)) then false
  else if bool_decide (ii_createOptions info !! RESOURCE_OWNER_KEY = Some STATIC_FUNCTION_OWNER_VALUE) then false
  else if bool_decide (is_Some (ii_createOptions info !! DELEGATE_CONTAINER)) then true
  else if bool_decide (ii_createOptions info !! RESOURCE_OWNER_KEY = Some SYSTEM_OWNER_VALUE) then true
  else (length POOLABLE_RESOURCES_KEYS <? size (default ∅ (ii_resources info)))%nat.

Definition NeedCreateAgentInDomain (info : InstanceInfo) (scheduleRespCode : Z) : bool :=
  if NeedCreateAgentByPoolID info then true
  else if bool_decide (scheduleRespCode = AFFINITY_SCHEDULE_FAILED) then false
  else if negb (bool_decide (so_instanceAffinity (scheduleoption info) = [])) then true
  else if bool_decide (ii_createOptions info !! ENABLE_HORIZONTAL_SCALE_KEY = Some "true") &&
          (bool_decide (scheduleRespCode = RESOURCE_NOT_ENOUGH) ||
           bool_decide (scheduleRespCode = ERR_RESOURCE_NOT_ENOUGH)) then true
  else NeedCreateAgent info.
