(* ===== verification/BaseQueue.v ===== *)
(** * The base class of the scheduling queues

    [common/schedule_decision/queue/schedule_queue.cpp]: per priority, a deque
    served first in, first out. *)

From S2P Require Import Prelude StdStrings SchedItems.
From stdpp Require Import base gmap strings list fin_maps sorting.
From Stdlib Require Import ZArith Lia.

Open Scope Z_scope.
Set Default Proof Using "Type".

(** [for (int i = maxPriority_; i >= 0; i--)]: the first non-empty queue. *)
Fixpoint scan (n : nat) (m : gmap Z (list QueueItem)) : option (Z * QueueItem * list QueueItem) :=
  match n with
  | O => None
  | S k =>
      match m !! Z.of_nat k with
      | Some (x :: q) => Some (Z.of_nat k, x, q)
      | _ => scan k m
      end
  end.
Definition levels (maxPriority : Z) : nat := Z.to_nat (maxPriority + 1).

Module BaseQ.
Record ScheduleQueue := mk {
  queueMap_ : gmap Z (list QueueItem);
  reqIndex_ : gset string;
  maxPriority_ : Z;
}.
Definition make (maxPriority : Z) : ScheduleQueue := mk ∅ ∅ maxPriority.

Section ops.
Context (h : Heap).

Definition Enqueue (queueItem : option QueueItem) (q : ScheduleQueue) : Status * ScheduleQueue :=
  match queueItem with
  | None => (mkStatus FAILED "queueItem is null", q)
  | Some x =>
      if bool_decide (GetRequestId h x = "")
      then (mkStatus ERR_PARAM_INVALID "get instance requestId failed", q)
      else
        let priority := GetPriority h x in
        if maxPriority_ q <? priority
        then (mkStatus ERR_PARAM_INVALID "instance priority is greater than maxPriority", q)
        else
          (StatusOK,
           mk (<[priority := default [] (queueMap_ q !! priority) ++ [x]]> (queueMap_ q))
             ({[GetRequestId h x]} ∪ reqIndex_ q) (maxPriority_ q))
  end.

Definition CheckIsQueueEmpty (q : ScheduleQueue) : bool := bool_decide (reqIndex_ q = ∅).
Definition Size (q : ScheduleQueue) : nat := size (reqIndex_ q).

Definition Dequeue (q : ScheduleQueue) : Status * ScheduleQueue :=
  if CheckIsQueueEmpty q then (mkStatus FAILED "queue is empty", q)
  else
    match scan (levels (maxPriority_ q)) (queueMap_ q) with
    | None => (StatusOK, q)
    | Some (i, item, rest) =>
        (StatusOK, mk (<[i := rest]> (queueMap_ q)) (reqIndex_ q ∖ {[GetRequestId h item]}) (maxPriority_ q))
    end.

Definition Front (q : ScheduleQueue) : option QueueItem :=
  if CheckIsQueueEmpty q then None
  else (λ r, r.1.2) <$> scan (levels (maxPriority_ q)) (queueMap_ q).

(** [Swap] exchanges the deques of the priorities up to [maxPriority_]. *)
Definition swap_level (i : Z) (p : gmap Z (list QueueItem) * gmap Z (list QueueItem))
    : gmap Z (list QueueItem) * gmap Z (list QueueItem) :=
  match p.1 !! i, p.2 !! i with
  | None, None => p
  | a, b => (<[i := default [] b]> p.1, <[i := default [] a]> p.2)
  end.
Fixpoint swap_levels (n : nat) (p : gmap Z (list QueueItem) * gmap Z (list QueueItem))
    : gmap Z (list QueueItem) * gmap Z (list QueueItem) :=
  match n with O => p | S k => swap_levels k (swap_level (Z.of_nat k) p) end.
Definition Swap (q target : ScheduleQueue) : ScheduleQueue * ScheduleQueue :=
  let p := swap_levels (levels (maxPriority_ q)) (queueMap_ q, queueMap_ target) in
  (mk p.1 (reqIndex_ target) (maxPriority_ q), mk p.2 (reqIndex_ q) (maxPriority_ target)).

(** [Extend] copies: the target keeps its elements. *)
Definition extend_level (target : ScheduleQueue) (i : Z) (q : ScheduleQueue) : ScheduleQueue :=
  match queueMap_ target !! i with
  | None => q
  | Some items =>
      mk (<[i := default [] (queueMap_ q !! i) ++ items]> (queueMap_ q))
        (list_to_set (GetRequestId h <$> items) ∪ reqIndex_ q) (maxPriority_ q)
  end.
Fixpoint extend_levels (target : ScheduleQueue) (n : nat) (q : ScheduleQueue) : ScheduleQueue :=
  match n with O => q | S k => extend_levels target k (extend_level target (Z.of_nat k) q) end.
Definition Extend (q : ScheduleQueue) (target : option ScheduleQueue) : ScheduleQueue :=
  match target with
  | None => q
  | Some t => extend_levels t (levels (maxPriority_ q)) q
  end.
End ops.
End BaseQ.
