(* ===== verification/TimeQueue.v ===== *)
(** * The time-sorted queue

    [common/schedule_decision/queue/time_sorted_queue.cpp]: per priority, a
    heap ordered by creation time and request id. *)

From S2P Require Import Prelude StdStrings SchedItems BaseQueue.
From stdpp Require Import base gmap strings list fin_maps sorting.
From Stdlib Require Import ZArith Lia.

Open Scope Z_scope.
Set Default Proof Using "Type".

(** ** [operator>] on items *)
Section order.
Context (h : Heap).

Definition item_gt (r l : QueueItem) : bool :=
  let rt := CreatedTimestamp h r in
  let lt := CreatedTimestamp h l in
  if bool_decide (rt = lt) then str_lt (GetRequestId h l) (GetRequestId h r)
  else lt <? rt.

(** [std::priority_queue] with [std::greater]: [top] is an element no other
    element is before.  The elements are kept sorted; the order of items with
    the same time and id is open. *)
Fixpoint heap_push (x : QueueItem) (q : list QueueItem) : list QueueItem :=
  match q with
  | [] => [x]
  | y :: q' => if item_gt y x then x :: y :: q' else y :: heap_push x q'
  end.
End order.

Module TimeQ.
Record TimeSortedQueue := mk {
  maxPriority_ : Z;
  reqIndex_ : gset string;
  queueMap_ : gmap Z (list QueueItem);
}.
Definition make (maxPriority : Z) : TimeSortedQueue := mk maxPriority ∅ ∅.

Section ops.
Context (h : Heap).

Definition Enqueue (queueItem : option QueueItem) (q : TimeSortedQueue) : Status * TimeSortedQueue :=
  match queueItem with
  | None => (mkStatus FAILED "queue is nullptr", q)
  | Some x =>
      if bool_decide (GetRequestId h x = "")
      then (mkStatus ERR_PARAM_INVALID "invalid request without id", q)
      else
        let priority := GetPriority h x in
        if maxPriority_ q <? priority
        then (mkStatus ERR_PARAM_INVALID "priority of request is greater than maxPriority", q)
        else
          (StatusOK,
           mk (maxPriority_ q) ({[GetRequestId h x]} ∪ reqIndex_ q)
             (<[priority := heap_push h x (default [] (queueMap_ q !! priority))]> (queueMap_ q)))
  end.

Definition Front (q : TimeSortedQueue) : option QueueItem :=
  (λ r, r.1.2) <$> scan (levels (maxPriority_ q)) (queueMap_ q).

Definition Dequeue (q : TimeSortedQueue) : Status * TimeSortedQueue :=
  match scan (levels (maxPriority_ q)) (queueMap_ q) with
  | None => (StatusOK, q)
  | Some (i, item, rest) =>
      (StatusOK,
       mk (maxPriority_ q) (reqIndex_ q ∖ {[GetRequestId h item]}) (<[i := rest]> (queueMap_ q)))
  end.

(** Both queues change: the priority bound of the target does not. *)
Definition Swap (q target : TimeSortedQueue) : TimeSortedQueue * TimeSortedQueue :=
  (mk (maxPriority_ target) (reqIndex_ target) (queueMap_ target),
   mk (maxPriority_ target) (reqIndex_ q) (queueMap_ q)).

(** One priority of [Extend]: the elements of the target are moved here, and
    its index keeps their ids. *)
Definition extend_level (i : Z) (p : TimeSortedQueue * TimeSortedQueue) : TimeSortedQueue * TimeSortedQueue :=
  let '(q, target) := p in
  match queueMap_ target !! i with
  | None => (q, target)
  | Some cur =>
      (mk (maxPriority_ q) (list_to_set (GetRequestId h <$> cur) ∪ reqIndex_ q)
         (<[i := foldl (λ l x, heap_push h x l) (default [] (queueMap_ q !! i)) cur]> (queueMap_ q)),
       mk (maxPriority_ target) (reqIndex_ target) (<[i := []]> (queueMap_ target)))
  end.
Fixpoint extend_levels (n : nat) (p : TimeSortedQueue * TimeSortedQueue) : TimeSortedQueue * TimeSortedQueue :=
  match n with
  | O => p
  | S k => extend_levels k (extend_level (Z.of_nat k) p)
  end.
Definition Extend (q target : TimeSortedQueue) : TimeSortedQueue * TimeSortedQueue :=
  extend_levels (levels (maxPriority_ q)) (q, target).

Definition CheckIsQueueEmpty (q : TimeSortedQueue) : bool := bool_decide (reqIndex_ q = ∅).
Definition Size (q : TimeSortedQueue) : nat := size (reqIndex_ q).
End ops.
End TimeQ.
