(* ===== verification/QueueProps.v ===== *)
(** * Properties of the scheduling queues

    The time-sorted queue is a priority queue; what it reports about itself is
    true as long as request ids are distinct. *)

From S2P Require Import Prelude StdStrings SchedItems BaseQueue TimeQueue.
From stdpp Require Import base gmap strings list fin_maps sorting.
From Stdlib Require Import ZArith Lia.

Open Scope Z_scope.
Set Default Proof Using "Type".

(** The items of the scanned priorities, in the order they are served. *)
Fixpoint level_items (n : nat) (m : gmap Z (list QueueItem)) : list QueueItem :=
  match n with
  | O => []
  | S k => default [] (m !! Z.of_nat k) ++ level_items k m
  end.

Lemma level_items_same n m m' :
  (∀ i, 0 ≤ i < Z.of_nat n → default [] (m !! i) = default [] (m' !! i)) →
  level_items n m = level_items n m'.
Proof.
  induction n as [|k IH]; intros H; [done|]. cbn [level_items]. rewrite H by lia.
  rewrite IH; [done|]. intros i Hi. apply H. lia.
Qed.
Lemma level_items_insert_above n m i l :
  Z.of_nat n ≤ i → level_items n (<[i := l]> m) = level_items n m.
Proof. intros H. apply level_items_same. intros j Hj. by rewrite lookup_insert_ne by lia. Qed.

Lemma scan_None n m : scan n m = None ↔ level_items n m = [].
Proof.
  induction n as [|k IH]; [done|]. cbn [scan level_items].
  destruct (m !! Z.of_nat k) as [[|x q]|]; done.
Qed.
Lemma scan_Some n m i x rest :
  scan n m = Some (i, x, rest) →
  0 ≤ i < Z.of_nat n ∧ m !! i = Some (x :: rest) ∧
  level_items n m = x :: level_items n (<[i := rest]> m).
Proof.
  induction n as [|k IH]; [done|]. cbn [scan level_items].
  destruct (m !! Z.of_nat k) as [[|y q]|] eqn:E.
  - intros H. destruct (IH H) as (Hi & Hm & Hl). split_and!; [lia..|done|].
    by rewrite lookup_insert_ne, E by lia.
  - intros [= <- <- <-]. split_and!; [lia..|done|].
    rewrite lookup_insert_eq, (level_items_insert_above k) by lia. done.
  - intros H. destruct (IH H) as (Hi & Hm & Hl). split_and!; [lia..|done|].
    by rewrite lookup_insert_ne, E by lia.
Qed.

(** Changing one level by a permutation with something added. *)
Lemma level_items_update n m i l add :
  0 ≤ i < Z.of_nat n → l ≡ₚ add ++ default [] (m !! i) →
  level_items n (<[i := l]> m) ≡ₚ add ++ level_items n m.
Proof.
  intros Hi Hl. induction n as [|k IH]; [lia|]. cbn [level_items].
  destruct (decide (i = Z.of_nat k)) as [->|Hne].
  - rewrite lookup_insert_eq. cbn [default from_option]. rewrite level_items_insert_above by lia.
    unfold Datatypes.id. by rewrite Hl, <- app_assoc.
  - rewrite lookup_insert_ne by done. rewrite IH by lia.
    by rewrite Permutation_app_swap_app.
Qed.

Section order.
Context (h : Heap).

(** [item_gt] compares creation time and request id lexicographically. *)
Lemma item_gt_false x y :
  item_gt h x y = false ↔
  CreatedTimestamp h x < CreatedTimestamp h y ∨
  (CreatedTimestamp h x = CreatedTimestamp h y ∧ String.le (GetRequestId h x) (GetRequestId h y)).
Proof.
  unfold item_gt. case_bool_decide as E.
  - rewrite str_lt_ge. split; [by right|]. intros [?|[_ ?]]; [lia|done].
  - rewrite Z.ltb_ge. split; [left; lia|]. intros [?|[? _]]; [lia|done].
Qed.
Lemma item_gt_total x y : item_gt h x y = true → item_gt h y x = false.
Proof.
  intros H. apply item_gt_false. destruct (item_gt h y x) eqn:E; [|by apply item_gt_false].
  exfalso. rewrite <- not_false_iff_true, item_gt_false in H, E.
  destruct (Z.lt_trichotomy (CreatedTimestamp h x) (CreatedTimestamp h y)) as [?|[Ht|?]];
    [by apply H; left| |by apply E; left].
  destruct (String.le_total (GetRequestId h x) (GetRequestId h y)); [apply H|apply E]; by right.
Qed.
Lemma item_gt_trans x y z : item_gt h x y = false → item_gt h y z = false → item_gt h x z = false.
Proof.
  rewrite !item_gt_false. intros [?|[Ht ?]] [?|[Ht' ?]]; [left; lia..|].
  right. rewrite Ht, Ht'. split; [done|]. by etrans.
Qed.

(** [x] is served no later than [y]. *)
Definition no_later (x y : QueueItem) : Prop :=
  GetPriority h y < GetPriority h x ∨
  (GetPriority h x = GetPriority h y ∧ item_gt h x y = false).

Lemma heap_push_perm x l : heap_push h x l ≡ₚ x :: l.
Proof.
  induction l as [|y l IH]; [done|]. cbn [heap_push]. case_match; [done|].
  rewrite IH. apply Permutation_swap.
Qed.
Lemma heap_push_sorted x l :
  StronglySorted (λ x y, item_gt h x y = false) l →
  StronglySorted (λ x y, item_gt h x y = false) (heap_push h x l).
Proof.
  induction 1 as [|y l Hl IH Hy]; cbn [heap_push]; [by repeat constructor|].
  destruct (item_gt h y x) eqn:E; constructor.
  - by constructor.
  - constructor; [by apply item_gt_total|]. eapply Forall_impl; [exact Hy|].
    intros z Hz. eapply item_gt_trans; [by apply item_gt_total|done].
  - done.
  - rewrite heap_push_perm. by constructor.
Qed.
End order.

(** ** The time-sorted queue *)
Import TimeQ.

Definition items (q : TimeSortedQueue) : list QueueItem :=
  level_items (levels (maxPriority_ q)) (queueMap_ q).

Section time_queue.
Context (h : Heap).

Definition levels_sorted (m : gmap Z (list QueueItem)) : Prop :=
  map_Forall (λ i l, StronglySorted (λ x y, item_gt h x y = false) l ∧
    Forall (λ x, GetPriority h x = i) l) m.
Definition ids (q : TimeSortedQueue) : list string := GetRequestId h <$> items q.

(** The invariant; [reqIndex_] is exact when the ids are distinct. *)
Record queue_ok (q : TimeSortedQueue) : Prop := {
  qo_sorted : levels_sorted (queueMap_ q);
  qo_ids : NoDup (ids q);
  qo_index : reqIndex_ q = list_to_set (ids q);
}.

Lemma level_items_sorted n m : levels_sorted m → StronglySorted (no_later h) (level_items n m) ∧
  Forall (λ x, GetPriority h x < Z.of_nat n) (level_items n m).
Proof.
  intros Hm. induction n as [|k [IH Hlt]]; [split; constructor|]. cbn [level_items].
  assert (∃ l, default [] (m !! Z.of_nat k) = l ∧ StronglySorted (λ x y, item_gt h x y = false) l ∧
    Forall (λ x, GetPriority h x = Z.of_nat k) l) as (l & -> & Hs & Hp).
  { destruct (m !! Z.of_nat k) as [l|] eqn:E; [|exists []; split_and!; [done|constructor..]].
    exists l. split; [done|]. by apply Hm. }
  split.
  - induction Hs as [|x l Hs IHs Hx]; [done|]. inversion_clear Hp as [|? ? Hpx Hpl].
    constructor; [by apply IHs|]. apply Forall_app. split.
    + apply Forall_forall. intros y Hy. right. split.
      * by rewrite Hpx, (proj1 (Forall_forall _ _) Hpl y Hy).
      * by apply (proj1 (Forall_forall _ _) Hx).
    + eapply Forall_impl; [exact Hlt|]. intros y Hy. left. cbn beta in Hy. lia.
  - apply Forall_app. split; [eapply Forall_impl; [exact Hp|]; intros y ->; lia|].
    eapply Forall_impl; [exact Hlt|]. cbn beta. lia.
Qed.

Lemma make_ok maxPriority : queue_ok (make maxPriority).
Proof.
  assert (items (make maxPriority) = []) as E.
  { unfold items, make. cbn. induction (levels maxPriority) as [|k IH]; [done|]. cbn. by rewrite IH. }
  split; unfold ids; rewrite ?E; [apply map_Forall_empty|constructor|done].
Qed.

Lemma Enqueue_ok x q :
  queue_ok q → GetRequestId h x ≠ "" → GetPriority h x ≤ maxPriority_ q → GetRequestId h x ∉ ids q →
  let r := Enqueue h (Some x) q in
  r.1 = StatusOK ∧ queue_ok r.2 ∧ items r.2 ≡ₚ x :: items q.
Proof.
  intros [Hs Hnd Hix] Hid Hp Hnew. cbn [Enqueue]. rewrite bool_decide_false by done.
  rewrite (proj2 (Z.ltb_ge _ _)) by lia. cbn [fst snd].
  pose proof (GetPriority_bounds h x) as Hb.
  assert (Hperm : items (mk (maxPriority_ q) ({[GetRequestId h x]} ∪ reqIndex_ q)
    (<[GetPriority h x := heap_push h x (default [] (queueMap_ q !! GetPriority h x))]> (queueMap_ q)))
    ≡ₚ x :: items q).
  { unfold items. cbn. apply (level_items_update _ _ _ _ [x]); [unfold levels; lia|].
    by rewrite heap_push_perm. }
  split_and!; [done| |done]. split.
  - cbn. apply map_Forall_insert_2; [|done].
    assert (∃ l, default [] (queueMap_ q !! GetPriority h x) = l ∧
      StronglySorted (λ x y, item_gt h x y = false) l ∧ Forall (λ y, GetPriority h y = GetPriority h x) l)
      as (l & -> & Hl & Hpl).
    { destruct (queueMap_ q !! GetPriority h x) as [l|] eqn:E; [|exists []; split_and!; [done|constructor..]].
      exists l. split; [done|]. by apply Hs. }
    split; [by apply heap_push_sorted|]. rewrite heap_push_perm. by constructor.
  - unfold ids. rewrite Hperm. by constructor.
  - cbn [reqIndex_]. apply leibniz_equiv. unfold ids. rewrite Hperm. cbn. by rewrite Hix.
Qed.

Lemma Dequeue_ok q :
  queue_ok q →
  let q' := (Dequeue h q).2 in
  queue_ok q' ∧ Front q = head (items q) ∧ items q' = tail (items q) ∧
  maxPriority_ q' = maxPriority_ q.
Proof.
  intros [Hs Hnd Hix]. unfold Dequeue, Front. destruct (scan _ _) as [[[i x] rest]|] eqn:E; cbn [fst snd fmap option_fmap option_map].
  - destruct (scan_Some _ _ _ _ _ E) as (Hi & Hm & Hl). unfold ids, items in *. cbn in *.
    rewrite Hl in *. cbn in *. apply NoDup_cons in Hnd as [Hx Hnd]. split_and!; try done. split.
    + apply map_Forall_insert_2; [|done]. destruct (Hs _ _ Hm) as [H1 H2].
      inversion H1; inversion H2; done.
    + done.
    + cbn. rewrite Hix. apply set_eq. intros id. rewrite elem_of_difference, elem_of_union, elem_of_singleton.
      rewrite !elem_of_list_to_set. split; [by intros [[->|?] ?]|]. intros Hin. split; [by right|]. by intros ->.
  - apply scan_None in E. split; [by constructor|]. unfold items. by rewrite E.
Qed.

Lemma foldl_push_perm cur l : foldl (λ l x, heap_push h x l) l cur ≡ₚ cur ++ l.
Proof.
  revert l. induction cur as [|x cur IH]; intros l; [done|]. cbn [foldl]. rewrite IH, heap_push_perm.
  by rewrite <- Permutation_middle.
Qed.
Lemma foldl_push_sorted cur l :
  StronglySorted (λ x y, item_gt h x y = false) l →
  StronglySorted (λ x y, item_gt h x y = false) (foldl (λ l x, heap_push h x l) l cur).
Proof. revert l. induction cur as [|x cur IH]; intros l Hl; [done|]. by apply IH, heap_push_sorted. Qed.

Lemma extend_levels_spec n q t :
  (n ≤ levels (maxPriority_ q))%nat → levels_sorted (queueMap_ q) → levels_sorted (queueMap_ t) →
  let q' := (extend_levels h n (q, t)).1 in
  maxPriority_ q' = maxPriority_ q ∧ levels_sorted (queueMap_ q') ∧
  items q' ≡ₚ level_items n (queueMap_ t) ++ items q ∧
  reqIndex_ q' = list_to_set (GetRequestId h <$> level_items n (queueMap_ t)) ∪ reqIndex_ q.
Proof.
  revert q t. induction n as [|k IH]; intros q t Hn Hq Ht.
  { cbn. split_and!; [done..|]. by rewrite (left_id_L ∅ (∪)). }
  cbn [extend_levels extend_level level_items]. destruct (queueMap_ t !! Z.of_nat k) as [cur|] eqn:E.
  2: { apply IH; [lia|done|done]. }
  set (q1 := mk _ _ _). set (t1 := mk _ _ _).
  destruct (Ht _ _ E) as [_ Hpc].
  assert (Hl : ∃ l, default [] (queueMap_ q !! Z.of_nat k) = l ∧
    StronglySorted (λ x y, item_gt h x y = false) l ∧ Forall (λ y, GetPriority h y = Z.of_nat k) l).
  { destruct (queueMap_ q !! Z.of_nat k) as [l|] eqn:E'; [|exists []; split_and!; [done|constructor..]].
    exists l. split; [done|]. by apply Hq. }
  destruct (IH q1 t1) as (H1 & H2 & H3 & H4); [cbn; lia| | |].
  - apply map_Forall_insert_2; [|done]. destruct Hl as (l & -> & Hl & Hpl).
    split; [by apply foldl_push_sorted|]. rewrite foldl_push_perm. by apply Forall_app.
  - apply map_Forall_insert_2; [|done]. split; constructor.
  - assert (Ht1 : level_items k (queueMap_ t1) = level_items k (queueMap_ t)).
    { apply level_items_insert_above. lia. }
    rewrite Ht1 in H3, H4. split_and!; [done|done| |].
    + rewrite H3. unfold items at 1, q1. cbn [queueMap_ maxPriority_ default from_option].
      rewrite (level_items_update _ _ _ _ cur) by (lia || apply foldl_push_perm).
      unfold Datatypes.id. fold (items q). by rewrite <- app_assoc, Permutation_app_swap_app.
    + rewrite H4. unfold q1. cbn [reqIndex_ default from_option]. unfold Datatypes.id.
      rewrite fmap_app, list_to_set_app_L. by rewrite (assoc_L (∪)), (comm_L (∪) (list_to_set (GetRequestId h <$> cur))).
Qed.

Lemma Extend_ok q t :
  queue_ok q → queue_ok t → maxPriority_ t = maxPriority_ q → ids q ## ids t →
  let q' := (Extend h q t).1 in
  queue_ok q' ∧ items q' ≡ₚ items t ++ items q ∧ maxPriority_ q' = maxPriority_ q.
Proof.
  intros [Hq Hqn Hqi] [Ht Htn Hti] Hmax Hdis. unfold Extend.
  destruct (extend_levels_spec (levels (maxPriority_ q)) q t) as (H1 & H2 & H3 & H4); [done..|].
  assert (E : level_items (levels (maxPriority_ q)) (queueMap_ t) = items t).
  { unfold items. by rewrite Hmax. }
  rewrite E in H3, H4. split_and!; [|done|done]. split.
  - done.
  - unfold ids. rewrite H3, fmap_app. apply NoDup_app. split_and!; [done| |done].
    intros id Hid Hid'. by apply (Hdis id).
  - rewrite H4. apply leibniz_equiv. unfold ids. rewrite H3, fmap_app, list_to_set_app. by rewrite Hqi.
Qed.
End time_queue.

(** What the queue reports about itself. *)
Lemma queue_reports h q :
  queue_ok h q → (CheckIsQueueEmpty q = true ↔ items q = []) ∧ Size q = length (items q).
Proof.
  intros [_ Hnd Hix]. unfold CheckIsQueueEmpty, Size. rewrite bool_decide_eq_true, Hix. split.
  - unfold ids. destruct (items q) as [|x l]; [done|]. split; [|done]. intros E. exfalso.
    apply (not_elem_of_empty (C := gset string) (GetRequestId h x)). rewrite <- E.
    apply elem_of_list_to_set. left.
  - rewrite size_list_to_set by done. unfold ids. apply length_fmap.
Qed.

Lemma items_sorted h q : queue_ok h q → StronglySorted (no_later h) (items q).
Proof. intros [Hs _ _]. by apply level_items_sorted. Qed.

(** C28: the time-sorted queue is a priority queue. In every queue with
    distinct request ids: an accepted item is added and nothing else changes;
    [Front] is an item no other item of the queue may be served before - the
    highest priority, then the earliest creation time, then the least request
    id - and [Dequeue] removes exactly it; emptiness and size are reported as
    they are; and all this holds again afterwards. *)
Theorem time_queue_refines (h : Heap) (q : TimeSortedQueue) :
  queue_ok h q →
  (∀ x, GetRequestId h x ≠ "" → GetPriority h x ≤ maxPriority_ q → GetRequestId h x ∉ ids h q →
     let r := Enqueue h (Some x) q in
     r.1 = StatusOK ∧ queue_ok h r.2 ∧ items r.2 ≡ₚ x :: items q) ∧
  (queue_ok h (Dequeue h q).2 ∧
   match Front q with
   | None => items q = []
   | Some x => items q = x :: items (Dequeue h q).2 ∧ Forall (no_later h x) (items (Dequeue h q).2)
   end) ∧
  (CheckIsQueueEmpty q = true ↔ items q = []) ∧ Size q = length (items q).
Proof.
  intros Hq. destruct (Dequeue_ok h q Hq) as (Hd & Hf & Ht & _). destruct (queue_reports h q Hq) as [He Hs].
  pose proof (items_sorted h q Hq) as Hsort.
  split_and!; [by intros; apply Enqueue_ok|done| |done|done..].
  rewrite Hf, Ht. destruct (items q) as [|x l]; [done|]. cbn. split; [done|]. by inversion Hsort.
Qed.

(** Three requests: the one of higher priority first, then by time. *)
Definition demo_item (id time : string) (priority : Z) : QueueItem :=
  InstanceItem_ (mkInstanceItem (Some (mkScheduleRequest
    (Some (mkInstanceInfo "" id None (Some (mkScheduleOption "" priority [] None [] 1000)) ∅
      {[ RECEIVED_TIMESTAMP := time ]})) id)) 0 0 false).
Definition demo_queue : TimeSortedQueue :=
  foldl (λ q x, (Enqueue ∅ (Some x) q).2) (make 3)
    [demo_item "b" "200" 0; demo_item "c" "100" 0; demo_item "a" "900" 2].

Lemma demo_queue_ok : queue_ok ∅ demo_queue.
Proof.
  unfold demo_queue. cbn [foldl].
  do 3 (apply Enqueue_ok; [|by vm_compute|by vm_compute|apply (bool_decide_unpack _); by vm_compute]).
  apply make_ok.
Qed.

Lemma time_queue_refines_witness :
  Front demo_queue = Some (demo_item "a" "900" 2) ∧
  items (Dequeue ∅ demo_queue).2 = [demo_item "c" "100" 0; demo_item "b" "200" 0] ∧
  Forall (no_later ∅ (demo_item "a" "900" 2)) (items (Dequeue ∅ demo_queue).2).
Proof.
  destruct (time_queue_refines ∅ demo_queue demo_queue_ok) as (_ & (_ & H) & _).
  split; [by vm_compute|]. split; [by vm_compute|]. apply H.
Defined.

(** Two requests with one id: after one is served, the queue reports itself
    empty although the other is still in it. *)
Theorem duplicate_id_hides_item :
  let q := foldl (λ q x, (Enqueue ∅ (Some x) q).2) (make 3)
    [demo_item "a" "100" 0; demo_item "a" "200" 0] in
  let q' := (Dequeue ∅ q).2 in
  CheckIsQueueEmpty q' = true ∧ Front q' = Some (demo_item "a" "200" 0).
Proof. by vm_compute. Qed.
