(* ===== verification/AggQueue.v ===== *)
(** * The aggregated queue

    [common/schedule_decision/queue/aggregated_queue.cpp]: requests for the
    same resources are kept together in an aggregated item.  Aggregated items
    are shared objects (the deque, the index and [frontItem_] point to them):
    they live in the heap, and the queue holds their names.  [None] as the
    result of an operation is a dereferenced null pointer or end iterator. *)

From S2P Require Import Prelude StdStrings SchedItems.
From stdpp Require Import base gmap strings list fin_maps.
From Stdlib Require Import ZArith Lia.

Open Scope Z_scope.
Set Default Proof Using "Type".

Definition NO_AGGREGATE_STRATEGY : string := "no_aggregate".
Definition STRICTLY_AGGREGATE_STRATEGY : string := "strictly".
Definition RELAXED_AGGREGATE_STRATEGY : string := "relaxed".

Module AggQ.
Record AggregatedQueue := mk {
  queueSize_ : Z;
  strategy_ : string;
  maxPriority_ : Z;
  frontItem_ : option QueueItem;
  frontPriority_ : Z;
  aggregatedReqs : gmap Z (list QueueItem);
  aggregatedItemIndex : gmap string nat;
}.
Definition make (maxPriority : Z) (strategy : string) : AggregatedQueue :=
  mk 0 strategy maxPriority None 0 ∅ ∅.

Definition set_reqs (n : Z) (m : gmap Z (list QueueItem)) (q : AggregatedQueue) : AggregatedQueue :=
  mk n (strategy_ q) (maxPriority_ q) (frontItem_ q) (frontPriority_ q) m (aggregatedItemIndex q).
Definition set_front (x : option QueueItem) (p : Z) (q : AggregatedQueue) : AggregatedQueue :=
  mk (queueSize_ q) (strategy_ q) (maxPriority_ q) x p (aggregatedReqs q) (aggregatedItemIndex q).
Definition set_itemIndex (ix : gmap string nat) (q : AggregatedQueue) : AggregatedQueue :=
  mk (queueSize_ q) (strategy_ q) (maxPriority_ q) (frontItem_ q) (frontPriority_ q) (aggregatedReqs q) ix.

Definition GenerateAggregatedKey (i : InstanceItem) : option string :=
  match (r ← in_scheduleReq i; info ← sr_instance r; ii_resources info) with
  | None => Some ""
  | Some resources =>
      if bool_decide (resources = ∅) then Some ""
      else
        cpuMnt ← resources !! CPU_RESOURCE_NAME;
        memoryMnt ← resources !! MEMORY_RESOURCE_NAME;
        Some ("priority:" +:+ to_string (instance_priority i) +:+ "_" +:+
              "CPU:" +:+ cpuMnt +:+ "_" +:+ "Memory:" +:+ memoryMnt)
  end.

Definition IsItemNeedAggregate (x : QueueItem) : option bool :=
  match x with
  | GroupItem_ _ => Some false
  | InstanceItem_ i => req ← in_scheduleReq i; Some (negb (NeedCreateAgentInDomain (instance req) 0))
  | AggregatedItem_ _ => None
  end.

Definition CheckIsQueueEmpty (q : AggregatedQueue) : bool := queueSize_ q =? 0.
Definition Size (q : AggregatedQueue) : Z := queueSize_ q.

Definition CheckItemValid (h : Heap) (queueItem : option QueueItem) (q : AggregatedQueue) : Status :=
  match queueItem with
  | None => mkStatus FAILED "queueItem is null"
  | Some x =>
      if bool_decide (GetRequestId h x = "") then mkStatus ERR_PARAM_INVALID "get instance requestId failed"
      else if maxPriority_ q <? GetPriority h x
      then mkStatus ERR_PARAM_INVALID "instance priority is greater than maxPriority"
      else StatusOK
  end.

(** [aggregatedReqs[p].push_back(x); queueSize_++] *)
Definition push_back (p : Z) (x : QueueItem) (q : AggregatedQueue) : AggregatedQueue :=
  set_reqs (queueSize_ q + 1) (<[p := default [] (aggregatedReqs q !! p) ++ [x]]> (aggregatedReqs q)) q.

(** [std::make_shared<AggregatedItem>(keyStr, instance)] *)
Definition new_item (h : Heap) (keyStr : string) (i : InstanceItem) : nat * Heap :=
  let ref := fresh (dom h) in (ref, <[ref := mkAggregatedItem keyStr [i]]> h).

(** [reqQueue->emplace_back(instance)] *)
Definition append_request (ref : nat) (i : InstanceItem) (h : Heap) : Heap :=
  alter (λ a, mkAggregatedItem (ag_aggregatedKey a) (ag_reqQueue a ++ [i])) ref h.

(** The two strategies; any other strategy keeps nothing. *)
Definition aggregate (keyStr : string) (i : InstanceItem) (h : Heap) (q : AggregatedQueue)
    : Heap * AggregatedQueue :=
  let p := instance_priority i in
  let fresh_item := new_item h keyStr i in
  if bool_decide (strategy_ q = STRICTLY_AGGREGATE_STRATEGY) then
    match (l ← aggregatedReqs q !! p; last l) with
    | Some (AggregatedItem_ ref) =>
        if bool_decide (ag_aggregatedKey <$> h !! ref = Some keyStr)
        then (append_request ref i h, q)
        else (fresh_item.2, push_back p (AggregatedItem_ fresh_item.1) q)
    | _ => (fresh_item.2, push_back p (AggregatedItem_ fresh_item.1) q)
    end
  else if bool_decide (strategy_ q = RELAXED_AGGREGATE_STRATEGY) then
    match aggregatedItemIndex q !! keyStr with
    | Some ref => (append_request ref i h, q)
    | None =>
        (fresh_item.2,
         set_itemIndex (<[keyStr := fresh_item.1]> (aggregatedItemIndex q))
           (push_back p (AggregatedItem_ fresh_item.1) q))
    end
  else (h, q).

Definition Enqueue (queueItem : option QueueItem) (h : Heap) (q : AggregatedQueue)
    : option (Status * Heap * AggregatedQueue) :=
  let checkResult := CheckItemValid h queueItem q in
  match queueItem with
  | None => Some (checkResult, h, q)
  | Some x =>
      if IsError checkResult then Some (checkResult, h, q)
      else
        need ← IsItemNeedAggregate x;
        match x with
        | InstanceItem_ i =>
            if need : bool then
              keyStr ← GenerateAggregatedKey i;
              if bool_decide (keyStr = "") then Some (mkStatus FAILED "queueItem is invalid", h, q)
              else let r := aggregate keyStr i h q in Some (StatusOK, r.1, r.2)
            else Some (StatusOK, h, push_back (GetPriority h x) x q)
        | _ => Some (StatusOK, h, push_back (GetPriority h x) x q)
        end
  end.

(** The first priority with an entry; [front()] of an empty deque is [None]. *)
Fixpoint find_front (n : nat) (m : gmap Z (list QueueItem)) : option (Z * option QueueItem) :=
  match n with
  | O => None
  | S k =>
      match m !! Z.of_nat k with
      | Some l => Some (Z.of_nat k, head l)
      | None => find_front k m
      end
  end.
Definition levels (q : AggregatedQueue) : nat := Z.to_nat (maxPriority_ q + 1).

Definition Front (q : AggregatedQueue) : option QueueItem * AggregatedQueue :=
  if CheckIsQueueEmpty q then (None, q)
  else
    match find_front (levels q) (aggregatedReqs q) with
    | None => (None, q)
    | Some (i, x) => (x, set_front x i q)
    end.

Definition pop_front (h : Heap) (q : AggregatedQueue) : Status * AggregatedQueue :=
  let rest := tail (default [] (aggregatedReqs q !! frontPriority_ q)) in
  let reqs := if bool_decide (rest = []) then delete (frontPriority_ q) (aggregatedReqs q)
              else <[frontPriority_ q := rest]> (aggregatedReqs q) in
  (StatusOK, set_front None (-1) (set_reqs (queueSize_ q - 1) reqs q)).

Definition Dequeue (h : Heap) (q : AggregatedQueue) : option (Status * AggregatedQueue) :=
  if CheckIsQueueEmpty q then Some (mkStatus FAILED "queue is empty", q)
  else
    let q := match frontItem_ q, find_front (levels q) (aggregatedReqs q) with
             | None, Some (i, x) => set_front x i q
             | _, _ => q
             end in
    x ← frontItem_ q;
    match x with
    | AggregatedItem_ ref =>
        a ← h !! ref;
        if negb (bool_decide (ag_reqQueue a = []))
        then Some (mkStatus FAILED "aggregateItem.reqQueue is not empty", q)
        else
          let q := if bool_decide (strategy_ q = RELAXED_AGGREGATE_STRATEGY)
                   then set_itemIndex (delete (ag_aggregatedKey a) (aggregatedItemIndex q)) q else q in
          Some (pop_front h q)
    | _ => Some (pop_front h q)
    end.

(** [frontItem_] and [frontPriority_] stay where they are. *)
Definition Swap (q : AggregatedQueue) (target : option AggregatedQueue)
    : AggregatedQueue * option AggregatedQueue :=
  match target with
  | None => (q, None)
  | Some t =>
      let index := bool_decide (strategy_ q = RELAXED_AGGREGATE_STRATEGY) in
      (set_itemIndex (aggregatedItemIndex (if index then t else q))
         (set_reqs (queueSize_ t) (aggregatedReqs t) q),
       Some (set_itemIndex (aggregatedItemIndex (if index then q else t))
         (set_reqs (queueSize_ q) (aggregatedReqs q) t)))
  end.

(** [Extend]: the statuses of the calls of [Enqueue] are ignored. *)
Fixpoint enqueue_all (xs : list QueueItem) (h : Heap) (q : AggregatedQueue)
    : option (Heap * AggregatedQueue) :=
  match xs with
  | [] => Some (h, q)
  | x :: xs => r ← Enqueue (Some x) h q; enqueue_all xs r.1.2 r.2
  end.
Definition unpack (h : Heap) (x : QueueItem) : option (list QueueItem) :=
  match x with
  | AggregatedItem_ ref => a ← h !! ref; Some (InstanceItem_ <$> ag_reqQueue a)
  | _ => Some [x]
  end.
Fixpoint extend_items (xs : list QueueItem) (h : Heap) (q : AggregatedQueue)
    : option (Heap * AggregatedQueue) :=
  match xs with
  | [] => Some (h, q)
  | x :: xs => ys ← unpack h x; r ← enqueue_all ys h q; extend_items xs r.1 r.2
  end.
Fixpoint extend_levels (n : nat) (m : gmap Z (list QueueItem)) (h : Heap) (q : AggregatedQueue)
    : option (Heap * AggregatedQueue) :=
  match n with
  | O => Some (h, q)
  | S k => r ← extend_items (default [] (m !! Z.of_nat k)) h q; extend_levels k m r.1 r.2
  end.
Definition Extend (target : AggregatedQueue) (h : Heap) (q : AggregatedQueue)
    : option (Heap * AggregatedQueue) :=
  extend_levels (levels q) (aggregatedReqs target) h q.
End AggQ.
