(* ===== verification/SchedPolicy.v ===== *)
(** * The priority policies

    [common/schedule_decision/scheduler/priority_policy]: the first-come
    first-served policy, and the fairness policy, which holds a request back
    while a pending request of at least its priority competes for the same
    resources. *)

From S2P Require Import Prelude StdStrings SchedItems.
From stdpp Require Import base gmap strings list fin_maps.
From Stdlib Require Import ZArith Lia.

Open Scope Z_scope.
Set Default Proof Using "Type".

(** [ResourceAffinity::SerializeAsString] *)
Class AffinityCodec := affinity_string : ResourceAffinity → string.

Definition EMPTY_PENDING_AFFINITY_STRING : string := "empty".

(** [pendingReqAffinityCountMap_] and [pendingReqAffinityMap_], by priority. *)
Record Fairness := mkFairness {
  pendingReqAffinityCountMap_ : gmap Z (gmap string Z);
  pendingReqAffinityMap_ : gmap Z (list ResourceAffinity);
}.
Definition fairness_init : Fairness := mkFairness ∅ ∅.

Inductive Policy := FifoPolicy | FairnessPolicy (f : Fairness).

Definition NeedSuspend (resCode timeout : Z) : bool :=
  if negb (bool_decide (resCode = RESOURCE_NOT_ENOUGH)) && negb (bool_decide (resCode = AFFINITY_SCHEDULE_FAILED))
  then false
  else negb (bool_decide (timeout = 0)).

(** The instance of an item; a null request is dereferenced by the code. *)
Definition item_info (i : InstanceItem) : InstanceInfo :=
  from_option instance ii_default (in_scheduleReq i).

Definition has_required (ra : ResourceAffinity) : bool :=
  bool_decide (is_Some (ra_requiredAffinity ra)) || bool_decide (is_Some (ra_requiredAntiAffinity ra)).
(** [clear_preferredaffinity] and [clear_preferredantiaffinity] *)
Definition required_part (ra : ResourceAffinity) : ResourceAffinity :=
  mkResourceAffinity None None (ra_requiredAffinity ra) (ra_requiredAntiAffinity ra).

Section fairness.
Context {AC : AffinityCodec}.

(** The required affinity of the instance, if it has one. *)
Definition required_affinity (i : InstanceItem) : option ResourceAffinity :=
  match so_resource (scheduleoption (item_info i)) with
  | Some ra => if has_required ra then Some (required_part ra) else None
  | None => None
  end.
Definition resourceAffinityString (i : InstanceItem) : string :=
  from_option affinity_string EMPTY_PENDING_AFFINITY_STRING (required_affinity i).

Definition count_up (priority : Z) (key : string) (m : gmap Z (gmap string Z)) : gmap Z (gmap string Z) :=
  let c := default ∅ (m !! priority) in
  <[priority := <[key := default 0 (c !! key) + 1]> c]> m.

Definition StorePendingAffinity (i : InstanceItem) (f : Fairness) : Fairness :=
  let priority := instance_priority i in
  match required_affinity i with
  | None =>
      mkFairness (count_up priority EMPTY_PENDING_AFFINITY_STRING (pendingReqAffinityCountMap_ f))
        (pendingReqAffinityMap_ f)
  | Some ra =>
      let key := affinity_string ra in
      let known := default ∅ (pendingReqAffinityCountMap_ f !! priority) !! key in
      mkFairness (count_up priority key (pendingReqAffinityCountMap_ f))
        (match known with
         | None => <[priority := default [] (pendingReqAffinityMap_ f !! priority) ++ [ra]]>
                     (pendingReqAffinityMap_ f)
         | Some _ => pendingReqAffinityMap_ f
         end)
  end.
Definition StorePendingAffinityGroup (g : GroupItem) (f : Fairness) : Fairness :=
  match gr_groupReqs g with
  | [] => f
  | first :: _ =>
      if ro_isRange (gr_opt g) then StorePendingAffinity first f
      else foldl (λ f i, StorePendingAffinity i f) f (gr_groupReqs g)
  end.

(** Some pending request of at least the priority has the affinity. *)
Definition pending_with (priority : Z) (key : string) (f : Fairness) : bool :=
  existsb (λ p, negb (p.1 <? priority) && (0 <? default 0 (p.2 !! key)))
    (map_to_list (pendingReqAffinityCountMap_ f)).
Definition ExistNonAffinityPendingInstances (priority : Z) (f : Fairness) : bool :=
  pending_with priority EMPTY_PENDING_AFFINITY_STRING f.

Definition HasSimilarResourceDemand (i : InstanceItem) (f : Fairness) : bool :=
  let priority := instance_priority i in
  if ExistNonAffinityPendingInstances priority f then true
  else pending_with priority (resourceAffinityString i) f.

Definition HasSimilarPendingRequest (x : QueueItem) (f : Fairness) : bool :=
  match x with
  | InstanceItem_ i => HasSimilarResourceDemand i f
  | GroupItem_ g =>
      match gr_groupReqs g with
      | [] => false
      | first :: _ =>
          if ro_isRange (gr_opt g) then HasSimilarResourceDemand first f
          else existsb (λ i, HasSimilarResourceDemand i f) (gr_groupReqs g)
      end
  | AggregatedItem_ _ => false
  end.

(** [mutable_instance()->mutable_scheduleoption()->...->mutable_pending()]:
    absent messages on the way are created. *)
Definition set_pending (pending : list ResourceAffinity) (i : InstanceItem) : InstanceItem :=
  match in_scheduleReq i with
  | None => i
  | Some req =>
      let info := instance req in
      let o := scheduleoption info in
      mkInstanceItem
        (Some (mkScheduleRequest
          (Some (mkInstanceInfo (ii_instanceID info) (ii_requestID info) (ii_resources info)
            (Some (mkScheduleOption (so_schedPolicyName o) (so_priority o) (so_instanceAffinity o)
               (so_resource o) pending (so_scheduleTimeoutMs o)))
            (ii_createOptions info) (ii_extensions info)))
          (sr_requestID req)))
        (in_schedulePromise i) (in_cancelTag i) (in_hasFailed i)
  end.
(** The order of the priorities in the unordered map is left open. *)
Definition AddPendingAffinityToInstance (f : Fairness) (i : InstanceItem) : InstanceItem :=
  let priority := instance_priority i in
  set_pending (concat (filter (λ p, ¬ p.1 < priority) (map_to_list (pendingReqAffinityMap_ f))).*2) i.
Definition AddPendingAffinityToGroup (f : Fairness) (g : GroupItem) : GroupItem :=
  mkGroupItem (AddPendingAffinityToInstance f <$> gr_groupReqs g) (gr_groupPromise g) (gr_groupReqID g)
    (gr_cancelTag g) (gr_opt g) (gr_timeout g) (gr_hasFailed g).

(** ** The interface of a policy *)
Definition CanSchedule (p : Policy) (x : QueueItem) : bool :=
  match p with FifoPolicy => true | FairnessPolicy f => negb (HasSimilarPendingRequest x f) end.
Definition PrepareForScheduling (p : Policy) (x : QueueItem) : QueueItem :=
  match p, x with
  | FairnessPolicy f, InstanceItem_ i => InstanceItem_ (AddPendingAffinityToInstance f i)
  | FairnessPolicy f, GroupItem_ g => GroupItem_ (AddPendingAffinityToGroup f g)
  | _, _ => x
  end.
Definition StorePendingInfo (p : Policy) (x : QueueItem) : Policy :=
  match p, x with
  | FairnessPolicy f, InstanceItem_ i => FairnessPolicy (StorePendingAffinity i f)
  | FairnessPolicy f, GroupItem_ g => FairnessPolicy (StorePendingAffinityGroup g f)
  | _, _ => p
  end.
Definition ClearPendingInfos (p : Policy) : Policy :=
  match p with FifoPolicy => FifoPolicy | FairnessPolicy _ => FairnessPolicy fairness_init end.
End fairness.
