(* ===== verification/FairnessProps.v ===== *)
(** * Properties of the fairness policy

    The two tables of the policy represent the list of stored requests: a
    request is held back exactly when a stored one of at least its priority
    asks for no particular node or for the same ones, and the affinities
    attached to a request are those of the stored ones it must not delay. *)

From S2P Require Import Prelude StdStrings SchedItems SchedPolicy.
From stdpp Require Import base gmap strings list fin_maps.
From Stdlib Require Import ZArith Lia.

Open Scope Z_scope.
Set Default Proof Using "Type".

(** Protobuf serialization of an affinity distinguishes affinities, and is
    not the text [empty], whose first byte is no field tag of the message. *)
Class AffinityCodecOk (AC : AffinityCodec) : Prop := {
  affinity_string_inj : ∀ a b, affinity_string a = affinity_string b → a = b;
  affinity_string_text : ∀ a, affinity_string a ≠ EMPTY_PENDING_AFFINITY_STRING;
}.

(** The instances of an item the policy looks at. *)
Definition demands (x : QueueItem) : list InstanceItem :=
  match x with
  | InstanceItem_ i => [i]
  | GroupItem_ g => if ro_isRange (gr_opt g) then take 1 (gr_groupReqs g) else gr_groupReqs g
  | AggregatedItem_ _ => []
  end.

Section fairness_rep.
Context {AC : AffinityCodec} {ACok : AffinityCodecOk AC}.

Definition pending_count (f : Fairness) (priority : Z) (key : string) : option Z :=
  default ∅ (pendingReqAffinityCountMap_ f !! priority) !! key.

(** The tables represent the stored instances [D]. *)
Record stores (f : Fairness) (D : list InstanceItem) : Prop := {
  st_count : ∀ priority key, is_Some (pending_count f priority key) ↔
    ∃ k, k ∈ D ∧ instance_priority k = priority ∧ resourceAffinityString k = key;
  st_positive : ∀ priority key n, pending_count f priority key = Some n → 0 < n;
  st_affinity : ∀ priority ra, ra ∈ default [] (pendingReqAffinityMap_ f !! priority) ↔
    ∃ k, k ∈ D ∧ instance_priority k = priority ∧ required_affinity k = Some ra;
}.

Lemma affinity_string_required i k :
  resourceAffinityString i = resourceAffinityString k ↔ required_affinity i = required_affinity k.
Proof using ACok.
  unfold resourceAffinityString. split; [|by intros ->].
  destruct (required_affinity i) as [a|], (required_affinity k) as [b|]; cbn; intros E; [|exfalso..|done].
  - by rewrite (affinity_string_inj a b E).
  - by apply (affinity_string_text a).
  - by apply (affinity_string_text b).
Qed.
Lemma affinity_string_none k :
  resourceAffinityString k = EMPTY_PENDING_AFFINITY_STRING ↔ required_affinity k = None.
Proof using ACok.
  unfold resourceAffinityString. destruct (required_affinity k) as [b|]; cbn; [|done].
  split; [|done]. intros E. by apply (affinity_string_text b) in E.
Qed.

Lemma pending_count_up f priority key m priority' key' :
  pending_count (mkFairness (count_up priority key (pendingReqAffinityCountMap_ f)) m) priority' key' =
  if decide (priority' = priority ∧ key' = key)
  then Some (default 0 (pending_count f priority key) + 1) else pending_count f priority' key'.
Proof.
  unfold pending_count, count_up. cbn.
  destruct (decide (priority = priority')) as [->|Hne].
  - rewrite lookup_insert_eq. cbn. destruct (decide (key = key')) as [->|Hne].
    + by rewrite lookup_insert_eq, decide_True.
    + rewrite lookup_insert_ne by done. rewrite decide_False; [done|]. intros [_ ?]. congruence.
  - rewrite lookup_insert_ne by done. rewrite decide_False; [done|]. intros [? _]. congruence.
Qed.

Lemma stores_init : stores fairness_init [].
Proof.
  clear ACok. split; cbn.
  - intros pr key. unfold pending_count. cbn. rewrite lookup_empty. cbn. rewrite lookup_empty.
    split; [by intros []|set_solver].
  - intros pr key n. unfold pending_count. cbn. rewrite lookup_empty. cbn. by rewrite lookup_empty.
  - intros pr ra. rewrite lookup_empty. cbn. set_solver.
Qed.

Lemma StorePendingAffinity_eq i f :
  StorePendingAffinity i f =
  mkFairness (count_up (instance_priority i) (resourceAffinityString i) (pendingReqAffinityCountMap_ f))
    (match required_affinity i, pending_count f (instance_priority i) (resourceAffinityString i) with
     | Some ra, None => <[instance_priority i := default [] (pendingReqAffinityMap_ f !! instance_priority i) ++ [ra]]>
                          (pendingReqAffinityMap_ f)
     | _, _ => pendingReqAffinityMap_ f
     end).
Proof.
  unfold StorePendingAffinity, resourceAffinityString, pending_count.
  destruct (required_affinity i) as [ra|]; cbn; [|done]. by case_match.
Qed.

Lemma stores_one i f D : stores f D → stores (StorePendingAffinity i f) (D ++ [i]).
Proof using ACok.
  intros [H1 H2 H3]. rewrite StorePendingAffinity_eq. split.
  - intros pr key. rewrite pending_count_up. case_decide as Hd.
    + destruct Hd as [-> ->]. split; [|by eexists]. intros _. exists i. set_solver.
    + rewrite H1. split.
      * intros (k & Hk & ?). exists k. set_solver.
      * intros (k & [Hk| ->%list_elem_of_singleton]%elem_of_app & Hp & Hs); [by exists k|]. by destruct Hd.
  - intros pr key n. rewrite pending_count_up. case_decide; [|apply H2].
    intros [= <-]. destruct (pending_count f _ _) as [m|] eqn:E; cbn; [|lia]. apply H2 in E. lia.
  - intros pr ra. cbn.
    assert (Hsplit : (∃ k, k ∈ D ++ [i] ∧ instance_priority k = pr ∧ required_affinity k = Some ra) ↔
      ra ∈ default [] (pendingReqAffinityMap_ f !! pr) ∨ (instance_priority i = pr ∧ required_affinity i = Some ra)).
    { rewrite H3. split.
      - intros (k & [Hk| ->%list_elem_of_singleton]%elem_of_app & ?); [left; by exists k|by right].
      - intros [(k & Hk & ?)|?]; [exists k|exists i]; set_solver. }
    rewrite Hsplit. destruct (required_affinity i) as [ra'|] eqn:Er; [|naive_solver].
    destruct (pending_count f _ _) as [n|] eqn:Ec.
    + split; [by left|]. intros [?|[<- [= <-]]]; [done|]. apply H3.
      destruct (proj1 (H1 (instance_priority i) (resourceAffinityString i))) as (k & Hk & Hp & Hs); [by eexists|].
      exists k. split_and!; [done..|]. apply affinity_string_required in Hs. congruence.
    + destruct (decide (pr = instance_priority i)) as [->|Hne].
      * rewrite lookup_insert_eq. cbn. unfold Datatypes.id. rewrite elem_of_app, list_elem_of_singleton. naive_solver.
      * rewrite lookup_insert_ne by done. naive_solver.
Qed.

Lemma stores_many l f D : stores f D → stores (foldl (λ f i, StorePendingAffinity i f) f l) (D ++ l).
Proof using ACok.
  revert f D. induction l as [|i l IH]; intros f D H; cbn [foldl]; [by rewrite app_nil_r|].
  rewrite cons_middle, app_assoc. by apply IH, stores_one.
Qed.

Lemma stores_item x f D :
  stores f D → ∃ f', StorePendingInfo (FairnessPolicy f) x = FairnessPolicy f' ∧ stores f' (D ++ demands x).
Proof using ACok.
  intros H. destruct x as [i|g|r]; cbn; eexists; (split; [done|]).
  - by apply stores_one.
  - unfold StorePendingAffinityGroup. destruct (gr_groupReqs g) as [|i l]; cbn.
    + by destruct (ro_isRange _); rewrite app_nil_r.
    + destruct (ro_isRange _); [by apply stores_one|]. by apply (stores_many (i :: l)).
  - by rewrite app_nil_r.
Qed.

Lemma stores_items L f D :
  stores f D → ∃ f', foldl StorePendingInfo (FairnessPolicy f) L = FairnessPolicy f' ∧ stores f' (D ++ (L ≫= demands)).
Proof using ACok.
  revert f D. induction L as [|x L IH]; intros f D H; cbn [foldl].
  { exists f. by rewrite app_nil_r. }
  destruct (stores_item x f D H) as (f1 & -> & H1). destruct (IH _ _ H1) as (f2 & -> & H2).
  exists f2. split; [done|]. cbn. by rewrite app_assoc.
Qed.

(** ** Reading the tables *)
Lemma pending_with_stores f D priority key :
  stores f D →
  pending_with priority key f = true ↔
  ∃ k, k ∈ D ∧ priority ≤ instance_priority k ∧ resourceAffinityString k = key.
Proof.
  clear ACok. intros [H1 H2 _]. unfold pending_with. rewrite existsb_exists. split.
  - intros ([pr c] & Hin & [Hle Hpos]%andb_true_iff). cbn in *.
    apply list_elem_of_In, elem_of_map_to_list in Hin.
    assert (is_Some (pending_count f pr key)) as (k & Hk & Hp & Hs)%H1.
    { unfold pending_count. rewrite Hin. cbn. unfold Datatypes.id. destruct (c !! key); [by eexists|done]. }
    exists k. split_and!; [done| |done]. apply negb_true_iff, Z.ltb_ge in Hle. lia.
  - intros (k & Hk & Hp & Hs).
    destruct (proj2 (H1 (instance_priority k) key)) as [n Hn]; [by exists k|].
    pose proof (H2 _ _ _ Hn) as Hpos. unfold pending_count in Hn.
    destruct (pendingReqAffinityCountMap_ f !! instance_priority k) as [c|] eqn:E;
      cbn in Hn; [|by rewrite lookup_empty in Hn]. unfold Datatypes.id in Hn.
    exists (instance_priority k, c). split; [by apply list_elem_of_In, elem_of_map_to_list|]. cbn. rewrite Hn. cbn.
    apply andb_true_iff. rewrite negb_true_iff, Z.ltb_ge, Z.ltb_lt. lia.
Qed.

(** [k] competes with [i]. *)
Definition competes (i k : InstanceItem) : Prop :=
  instance_priority i ≤ instance_priority k ∧
  (required_affinity k = None ∨ required_affinity k = required_affinity i).

Lemma similar_demand f D i :
  stores f D → HasSimilarResourceDemand i f = true ↔ ∃ k, k ∈ D ∧ competes i k.
Proof using ACok.
  intros H. unfold HasSimilarResourceDemand, ExistNonAffinityPendingInstances.
  pose proof (pending_with_stores f D (instance_priority i) EMPTY_PENDING_AFFINITY_STRING H) as HE.
  pose proof (pending_with_stores f D (instance_priority i) (resourceAffinityString i) H) as HS.
  setoid_rewrite affinity_string_none in HE. setoid_rewrite affinity_string_required in HS.
  unfold competes. destruct (pending_with _ EMPTY_PENDING_AFFINITY_STRING f).
  - split; [|done]. intros _. destruct (proj1 HE eq_refl) as (k & ? & ? & ?). exists k. auto.
  - rewrite HS. split.
    + intros (k & ? & ? & ?). exists k. auto.
    + intros (k & Hk & Hp & [Hn|Hs]); [|by exists k]. assert (false = true) by (apply HE; by exists k). done.
Qed.

Lemma similar_request f D x :
  stores f D → HasSimilarPendingRequest x f = true ↔ ∃ i k, i ∈ demands x ∧ k ∈ D ∧ competes i k.
Proof using ACok.
  intros H. destruct x as [i|g|r]; cbn; [| |set_solver].
  - rewrite (similar_demand f D i H). set_solver.
  - destruct (gr_groupReqs g) as [|i l]; cbn; [destruct (ro_isRange _); set_solver|].
    destruct (ro_isRange _).
    + rewrite (similar_demand f D i H). set_solver.
    + change (HasSimilarResourceDemand i f || existsb (λ i, HasSimilarResourceDemand i f) l)
        with (existsb (λ i, HasSimilarResourceDemand i f) (i :: l)).
      rewrite existsb_exists. setoid_rewrite (similar_demand f D _ H). setoid_rewrite <- list_elem_of_In. set_solver.
Qed.

Lemma attached_affinities f D i ra :
  stores f D → is_Some (in_scheduleReq i) →
  ra ∈ so_pending (scheduleoption (item_info (AddPendingAffinityToInstance f i))) ↔
  ∃ k, k ∈ D ∧ instance_priority i ≤ instance_priority k ∧ required_affinity k = Some ra.
Proof.
  clear ACok. intros [_ _ H3] [req Hreq]. unfold AddPendingAffinityToInstance, set_pending. rewrite Hreq.
  unfold item_info. cbn. rewrite list_elem_of_In, in_concat. split.
  - intros (l & Hl & Hin). apply list_elem_of_In, list_elem_of_fmap in Hl as ([pr l'] & -> & Hl).
    apply list_elem_of_filter in Hl as [Hge Hl]. cbn in *. apply elem_of_map_to_list in Hl.
    assert (ra ∈ default [] (pendingReqAffinityMap_ f !! pr)) as (k & Hk & Hp & Hr)%H3.
    { rewrite Hl. by apply list_elem_of_In. }
    exists k. split_and!; [done|lia|done].
  - intros (k & Hk & Hp & Hr).
    destruct (pendingReqAffinityMap_ f !! instance_priority k) as [l|] eqn:E.
    + exists l. split.
      * apply list_elem_of_In, list_elem_of_fmap. exists (instance_priority k, l). split; [done|].
        apply list_elem_of_filter. cbn. split; [lia|]. by apply elem_of_map_to_list.
      * apply list_elem_of_In. specialize (H3 (instance_priority k) ra). rewrite E in H3. cbn in H3.
        apply H3. by exists k.
    + specialize (H3 (instance_priority k) ra). rewrite E in H3. cbn in H3.
      exfalso. eapply not_elem_of_nil, H3. by exists k.
Qed.

(** C30: After storing the requests [L], the fairness policy holds a request
    back exactly when some instance it asks for competes with a stored one of
    at least its priority (one without required affinity, or with the same
    required affinity); and a request prepared for scheduling carries exactly
    the required affinities of the stored instances of at least its
    priority. *)
Theorem fairness_exact (L : list QueueItem) (x : QueueItem) :
  let policy := foldl StorePendingInfo (FairnessPolicy fairness_init) L in
  (CanSchedule policy x = false ↔ ∃ i k, i ∈ demands x ∧ k ∈ (L ≫= demands) ∧ competes i k) ∧
  (∀ i, x = InstanceItem_ i → is_Some (in_scheduleReq i) →
   ∃ i', PrepareForScheduling policy x = InstanceItem_ i' ∧
   ∀ ra, ra ∈ so_pending (scheduleoption (item_info i')) ↔
     ∃ k, k ∈ (L ≫= demands) ∧ instance_priority i ≤ instance_priority k ∧ required_affinity k = Some ra).
Proof using ACok.
  destruct (stores_items L _ _ stores_init) as (f & -> & Hf). split.
  - cbn. rewrite negb_false_iff. by apply similar_request.
  - intros i -> Hi. eexists. split; [done|]. intros ra. by apply attached_affinities.
Qed.
End fairness_rep.

(** ** Concrete requests *)
Definition demo_affinity (ra : ResourceAffinity) : string :=
  "A" +:+ pos_digits (encode ((ra_preferredAffinity ra, ra_preferredAntiAffinity ra),
                               (ra_requiredAffinity ra, ra_requiredAntiAffinity ra))).
#[local] Instance demo_affinity_codec : AffinityCodec := demo_affinity.
Lemma demo_affinity_ok : AffinityCodecOk demo_affinity_codec.
Proof.
  split.
  - intros [a1 a2 a3 a4] [b1 b2 b3 b4] E. unfold affinity_string, demo_affinity_codec, demo_affinity in E.
    cbn [ra_preferredAffinity ra_preferredAntiAffinity ra_requiredAffinity ra_requiredAntiAffinity] in E.
    apply (f_equal (λ s, match s with String _ t => digits_pos t | _ => xH end)) in E.
    change (digits_pos (pos_digits (encode (a1, a2, (a3, a4)))) =
            digits_pos (pos_digits (encode (b1, b2, (b3, b4))))) in E.
    rewrite !digits_pos_digits in E.
    apply (inj encode) in E. congruence.
  - intros a. discriminate.
Qed.

Definition demo_request (id : string) (priority : Z) (required : option string) : ScheduleRequest :=
  mkScheduleRequest
    (Some (mkInstanceInfo id id None
       (Some (mkScheduleOption "" priority []
          (Some (mkResourceAffinity None None required None)) [] 1)) ∅ ∅)) id.
Definition demo_item (id : string) (priority : Z) (required : option string) : InstanceItem :=
  mkInstanceItem (Some (demo_request id priority required)) 0 0 false.

(** A pending request for nodes labelled [gpu] holds back one that asks for
    them too, and not one that asks for other nodes. *)
Lemma fairness_exact_witness :
  (∃ i k, i ∈ demands (InstanceItem_ (demo_item "b" 1 (Some "gpu"))) ∧
     k ∈ ([InstanceItem_ (demo_item "a" 2 (Some "gpu"))] ≫= demands) ∧ competes i k) ∧
  ¬ (∃ i k, i ∈ demands (InstanceItem_ (demo_item "c" 1 (Some "cpu"))) ∧
     k ∈ ([InstanceItem_ (demo_item "a" 2 (Some "gpu"))] ≫= demands) ∧ competes i k).
Proof.
  pose proof demo_affinity_ok as Hok. split.
  - apply (fairness_exact [InstanceItem_ (demo_item "a" 2 (Some "gpu"))] (InstanceItem_ (demo_item "b" 1 (Some "gpu")))).
    vm_compute. reflexivity.
  - rewrite <- (proj1 (fairness_exact [InstanceItem_ (demo_item "a" 2 (Some "gpu"))]
      (InstanceItem_ (demo_item "c" 1 (Some "cpu"))))).
    vm_compute. discriminate.
Defined.
