(* ===== verification/PriorityScheduler.v ===== *)
(** * The priority scheduler

    [common/schedule_decision/scheduler/priority_scheduler.cpp]: the running
    and the pending queue, and how a request is taken from the one, scheduled,
    and answered or put into the other.

    The performers choose nodes; their results, and the state of a cancel
    future whenever it is read (other threads complete it at any time), are
    arguments, numbered by the reads made so far. *)

From S2P Require Import Prelude StdStrings SchedItems BaseQueue TimeQueue AggQueue SchedPolicy.
From stdpp Require Import base gmap strings list fin_maps.
From Stdlib Require Import ZArith Lia.

Open Scope Z_scope.
Set Default Proof Using "Type".

Record ScheduleResult := mkResult { sc_id : string; sc_code : Z; sc_reason : string }.
Record GroupScheduleResult := mkGroupResult { gs_code : Z; gs_reason : string; gs_results : list ScheduleResult }.

(** A cancel future. *)
Inductive CancelTag := CancelInit | CancelOK (reason : string) | CancelError.

Class Environment := {
  read_cancel : nat → nat → CancelTag;
  instance_result : nat → InstanceItem → ScheduleResult;
  group_result : nat → GroupItem → GroupScheduleResult;
  aggregated_results : nat → list InstanceItem → list ScheduleResult;
}.

Module Scheduler.

(** [std::shared_ptr<ScheduleQueue>]: the derived class decides. *)
Inductive AnyQueue := QTime (q : TimeQ.TimeSortedQueue) | QAgg (q : AggQ.AggregatedQueue).

Definition q_CheckIsQueueEmpty (q : AnyQueue) : bool :=
  match q with QTime q => TimeQ.CheckIsQueueEmpty q | QAgg q => AggQ.CheckIsQueueEmpty q end.
Definition q_Enqueue (x : QueueItem) (h : Heap) (q : AnyQueue) : option (Status * Heap * AnyQueue) :=
  match q with
  | QTime q => let r := TimeQ.Enqueue h (Some x) q in Some (r.1, h, QTime r.2)
  | QAgg q => r ← AggQ.Enqueue (Some x) h q; Some (r.1, QAgg r.2)
  end.
Definition q_Front (q : AnyQueue) : option QueueItem * AnyQueue :=
  match q with
  | QTime q => (TimeQ.Front q, QTime q)
  | QAgg q => let r := AggQ.Front q in (r.1, QAgg r.2)
  end.
Definition q_Dequeue (h : Heap) (q : AnyQueue) : option AnyQueue :=
  match q with
  | QTime q => Some (QTime (TimeQ.Dequeue h q).2)
  | QAgg q => r ← AggQ.Dequeue h q; Some (QAgg r.2)
  end.
(** [std::dynamic_pointer_cast] to the class of the extended queue: the
    time-sorted queue returns on a null result, the aggregated one uses it. *)
Definition q_Extend (q target : AnyQueue) (h : Heap) : option (Heap * AnyQueue) :=
  match q, target with
  | QTime q, QTime t => Some (h, QTime (TimeQ.Extend h q t).1)
  | QTime q, QAgg _ => Some (h, QTime q)
  | QAgg q, QAgg t => r ← AggQ.Extend t h q; Some (r.1, QAgg r.2)
  | QAgg _, QTime _ => None
  end.

(** The number of requests in a queue. *)
Fixpoint level_load (size : QueueItem → nat) (n : nat) (m : gmap Z (list QueueItem)) : nat :=
  match n with
  | O => O
  | S k => sum_list (size <$> default [] (m !! Z.of_nat k)) + level_load size k m
  end.
Definition load (h : Heap) (q : AnyQueue) : nat :=
  match q with
  | QTime q => level_load (λ _, 1%nat) (levels (TimeQ.maxPriority_ q)) (TimeQ.queueMap_ q)
  | QAgg q => level_load (λ x, S (from_option length 0%nat (AggQ.unpack h x)))
                (AggQ.levels q) (AggQ.aggregatedReqs q)
  end.

Record State := mkState {
  runningQueue_ : AnyQueue;
  pendingQueue_ : AnyQueue;
  priorityPolicy_ : Policy;
  heap_ : Heap;
  reads_ : nat;
}.
Definition set_running (q : AnyQueue) (s : State) : State :=
  mkState q (pendingQueue_ s) (priorityPolicy_ s) (heap_ s) (reads_ s).
Definition set_pending (q : AnyQueue) (s : State) : State :=
  mkState (runningQueue_ s) q (priorityPolicy_ s) (heap_ s) (reads_ s).
Definition set_policy (p : Policy) (s : State) : State :=
  mkState (runningQueue_ s) (pendingQueue_ s) p (heap_ s) (reads_ s).
Definition set_heap (h : Heap) (s : State) : State :=
  mkState (runningQueue_ s) (pendingQueue_ s) (priorityPolicy_ s) h (reads_ s).
Definition next_read (s : State) : State :=
  mkState (runningQueue_ s) (pendingQueue_ s) (priorityPolicy_ s) (heap_ s) (S (reads_ s)).

Inductive Out :=
  | AssociateInstance (promise : nat) (result : ScheduleResult)
  | AssociateGroup (promise : nat) (result : GroupScheduleResult)
  | RecordScheduleErr (requestID : string) (status : Status)
  | EraseScheduleErr (requestID : string)
  | RollBackInstance (i : InstanceItem) (result : ScheduleResult)
  | RollBackGroup (g : GroupItem) (result : GroupScheduleResult)
  | Crash.                                    (* a null pointer is dereferenced *)
Abbreviation Sch := (Act State Out).

(** [RegistPriorityPolicy] and the constructor. *)
Inductive PriorityPolicyType := FIFO | FAIRNESS.
Definition RegistPriorityPolicy (t : PriorityPolicyType) : Policy :=
  match t with FIFO => FifoPolicy | FAIRNESS => FairnessPolicy fairness_init end.
Definition make (maxPriority : Z) (policy : PriorityPolicyType) (aggregatedStrategy : string) : State :=
  let queue := if bool_decide (aggregatedStrategy = NO_AGGREGATE_STRATEGY)
               then QTime (TimeQ.make maxPriority)
               else QAgg (AggQ.make maxPriority aggregatedStrategy) in
  mkState queue queue (RegistPriorityPolicy policy) ∅ 0.

Section handlers.
Context {AC : AffinityCodec} {Env : Environment} (recorder : bool) (maxPriority_ : Z).

Definition undefined {A} (a : A) : Sch A := post Crash ≫= λ _, mret a.

Definition read_tag (tag : nat) : Sch CancelTag :=
  s ← members; modify next_read ≫= λ _, mret (read_cancel (reads_ s) tag).

Definition pending_Enqueue (x : QueueItem) : Sch Status :=
  s ← members;
  match q_Enqueue x (heap_ s) (pendingQueue_ s) with
  | None => undefined (mkStatus FAILED "")
  | Some (st, h, q) => modify (λ s, set_heap h (set_pending q s)) ≫= λ _, mret st
  end.
Definition running_Enqueue (x : QueueItem) : Sch Status :=
  s ← members;
  match q_Enqueue x (heap_ s) (runningQueue_ s) with
  | None => undefined (mkStatus FAILED "")
  | Some (st, h, q) => modify (λ s, set_heap h (set_running q s)) ≫= λ _, mret st
  end.
Definition running_Front : Sch (option QueueItem) :=
  s ← members;
  let r := q_Front (runningQueue_ s) in
  modify (set_running r.2) ≫= λ _, mret r.1.
Definition running_Dequeue : Sch unit :=
  s ← members;
  match q_Dequeue (heap_ s) (runningQueue_ s) with
  | None => undefined tt
  | Some q => modify (set_running q)
  end.

Definition Enqueue (item : QueueItem) : Sch Status :=
  s ← members;
  if negb (CanSchedule (priorityPolicy_ s) item) then pending_Enqueue item else running_Enqueue item.

Definition ActivatePendingRequests : Sch unit :=
  s ← members;
  if q_CheckIsQueueEmpty (pendingQueue_ s) then mret tt
  else
    match q_Extend (pendingQueue_ s) (runningQueue_ s) (heap_ s) with
    | None => undefined tt
    | Some (h, q) =>
        modify (λ s, set_heap h (set_running q (set_pending (QTime (TimeQ.make maxPriority_)) s))) ≫= λ _,
        modify (λ s, set_policy (ClearPendingInfos (priorityPolicy_ s)) s)
    end.

Definition EraseRecord (h : Heap) (item : QueueItem) : Sch unit :=
  act_when (recorder && HasFailed item) (post (EraseScheduleErr (GetRequestId h item))).

(** The reason used for a request that is cancelled or whose future failed. *)
Definition cancel_reason (t : CancelTag) : string :=
  match t with CancelOK reason => reason | _ => "timeout" end.
Definition is_init (t : CancelTag) : bool := match t with CancelInit => true | _ => false end.

Definition timeout_of (i : InstanceItem) : Z := so_scheduleTimeoutMs (scheduleoption (item_info i)).

Definition OnScheduleDoneInstance (result : ScheduleResult) (i : InstanceItem) : Sch unit :=
  let item := InstanceItem_ i in
  tag ← read_tag (in_cancelTag i);
  s ← members;
  if negb (is_init tag) then
    post (AssociateInstance (in_schedulePromise i) (mkResult "" ERR_SCHEDULE_CANCELED (cancel_reason tag))) ≫= λ _,
    post (RollBackInstance i result) ≫= λ _,
    EraseRecord (heap_ s) item
  else if NeedSuspend (sc_code result) (timeout_of i) &&
          negb (NeedCreateAgentInDomain (item_info i) (sc_code result)) && recorder then
    post (RecordScheduleErr (GetRequestId (heap_ s) item) (mkStatus (sc_code result) (sc_reason result))) ≫= λ _,
    pending_Enqueue (TagFailure item) ≫= λ _,
    modify (λ s, set_policy (StorePendingInfo (priorityPolicy_ s) (TagFailure item)) s)
  else
    EraseRecord (heap_ s) item ≫= λ _,
    post (AssociateInstance (in_schedulePromise i) result).

Definition OnScheduleDoneGroup (result : GroupScheduleResult) (g : GroupItem) : Sch unit :=
  let item := GroupItem_ g in
  tag ← read_tag (gr_cancelTag g);
  s ← members;
  if negb (is_init tag) then
    post (AssociateGroup (gr_groupPromise g) (mkGroupResult ERR_SCHEDULE_CANCELED (cancel_reason tag) [])) ≫= λ _,
    post (RollBackGroup g result) ≫= λ _,
    EraseRecord (heap_ s) item
  else if NeedSuspend (gs_code result) (gr_timeout g) && recorder then
    post (RollBackGroup g result) ≫= λ _,
    post (RecordScheduleErr (GetRequestId (heap_ s) item) (mkStatus (gs_code result) (gs_reason result))) ≫= λ _,
    pending_Enqueue (TagFailure item) ≫= λ _,
    modify (λ s, set_policy (StorePendingInfo (priorityPolicy_ s) (TagFailure item)) s)
  else
    EraseRecord (heap_ s) item ≫= λ _,
    post (AssociateGroup (gr_groupPromise g) result) ≫= λ _,
    act_when (negb (bool_decide (gs_code result = SUCCESS))) (post (RollBackGroup g result)).

(** [AssociateFailure] of an item: an aggregated item has no promise. *)
Definition AssociateFailure (code : Z) (reason : string) (item : QueueItem) : Sch unit :=
  match item with
  | InstanceItem_ i => post (AssociateInstance (in_schedulePromise i) (mkResult "" code reason))
  | GroupItem_ g => post (AssociateGroup (gr_groupPromise g) (mkGroupResult code reason []))
  | AggregatedItem_ _ => mret tt
  end.
(** The cancel future of an aggregated item is never completed. *)
Definition item_tag (item : QueueItem) : Sch CancelTag :=
  match item with
  | InstanceItem_ i => read_tag (in_cancelTag i)
  | GroupItem_ g => read_tag (gr_cancelTag g)
  | AggregatedItem_ _ => mret CancelInit
  end.

(** ** Aggregated items *)
Definition set_reqQueue (ref : nat) (l : list InstanceItem) : Sch unit :=
  modify (λ s, set_heap (alter (λ a, mkAggregatedItem (ag_aggregatedKey a) l) ref (heap_ s)) s).

(** The loop over cancelled requests: [None] when none is left. *)
Fixpoint skip_cancelled (ref : nat) (l : list InstanceItem) : Sch (option (list InstanceItem)) :=
  match l with
  | [] => mret (Some [])
  | i :: l' =>
      tag ← read_tag (in_cancelTag i);
      match tag with
      | CancelOK _ =>
          set_reqQueue ref l' ≫= λ _,
          (if bool_decide (l' = []) then mret None else skip_cancelled ref l')
      | _ => mret (Some l)
      end
  end.
Fixpoint answer_aggregated (ref : nat) (results : list ScheduleResult) (l : list InstanceItem)
    : Sch (list InstanceItem) :=
  match results, l with
  | [], _ => mret l
  | r :: results, i :: l =>
      OnScheduleDoneInstance r i ≫= λ _,
      set_reqQueue ref l ≫= λ _,
      answer_aggregated ref results l
  | _ :: _, [] => undefined []
  end.

Definition consume_aggregated (ref : nat) : Sch unit :=
  s ← members;
  match heap_ s !! ref with
  | None => undefined tt
  | Some a =>
      left ← skip_cancelled ref (ag_reqQueue a);
      match left with
      | None => running_Dequeue
      | Some [] => undefined tt
      | Some (i :: l) =>
          s ← members;
          let i' := match PrepareForScheduling (priorityPolicy_ s) (InstanceItem_ i) with
                    | InstanceItem_ i' => i' | _ => i end in
          set_reqQueue ref (i' :: l) ≫= λ _,
          modify next_read ≫= λ _,
          rest ← answer_aggregated ref (aggregated_results (reads_ s) (i' :: l)) (i' :: l);
          if bool_decide (rest = []) then running_Dequeue else mret tt
      end
  end.

(** ** Consuming *)
Definition DoConsume : Sch unit :=
  front ← running_Front;
  match front with
  | None => mret tt
  | Some item =>
      tag ← item_tag item;
      match tag with
      | CancelOK reason =>
          AssociateFailure ERR_SCHEDULE_CANCELED reason item ≫= λ _, running_Dequeue
      | _ =>
          s ← members;
          if negb (CanSchedule (priorityPolicy_ s) item) then
            pending_Enqueue item ≫= λ _, running_Dequeue
          else
            match item with
            | InstanceItem_ _ =>
                match PrepareForScheduling (priorityPolicy_ s) item with
                | InstanceItem_ i =>
                    modify next_read ≫= λ _,
                    OnScheduleDoneInstance (instance_result (reads_ s) i) i ≫= λ _,
                    running_Dequeue
                | _ => mret tt
                end
            | GroupItem_ g0 =>
                if bool_decide (gr_groupReqs g0 = []) then
                  post (AssociateGroup (gr_groupPromise g0) (mkGroupResult 0 "" [])) ≫= λ _,
                  running_Dequeue
                else
                  match PrepareForScheduling (priorityPolicy_ s) item with
                  | GroupItem_ g =>
                      modify next_read ≫= λ _,
                      OnScheduleDoneGroup (group_result (reads_ s) g) g ≫= λ _,
                      running_Dequeue
                  | _ => mret tt
                  end
            | AggregatedItem_ ref => consume_aggregated ref
            end
      end
  end.

(** [while (!runningQueue_->CheckIsQueueEmpty()) DoConsume();]: a round takes
    a request from the running queue, so their number bounds the rounds. *)
Fixpoint consume (fuel : nat) : Sch unit :=
  s ← members;
  if q_CheckIsQueueEmpty (runningQueue_ s) then mret tt
  else match fuel with O => mret tt | S n => DoConsume ≫= λ _, consume n end.
Definition ConsumeRunningQueue : Sch unit := s ← members; consume (load (heap_ s) (runningQueue_ s)).

Definition CheckIsRunningQueueEmpty (s : State) : bool := q_CheckIsQueueEmpty (runningQueue_ s).
Definition CheckIsPendingQueueEmpty (s : State) : bool := q_CheckIsQueueEmpty (pendingQueue_ s).
End handlers.
End Scheduler.
