(* ===== verification/QueueActor.v ===== *)
(** * The schedule queue actor

    [common/schedule_decision/schedule_queue_actor.cpp]: takes requests in,
    drives the scheduler by messages to itself, and reacts to resource
    updates. *)

From S2P Require Import Prelude StdStrings SchedItems BaseQueue TimeQueue AggQueue SchedPolicy PriorityScheduler.
From stdpp Require Import base gmap strings list fin_maps.
From Stdlib Require Import ZArith Lia.

Open Scope Z_scope.
Set Default Proof Using "Type".

Definition SCHEDULE_CONFLICTED : Z := 7.

Module QActor.
Inductive QueueStatus := WAITING | RUNNING | PENDING.
#[global] Instance QueueStatus_eq_dec : EqDecision QueueStatus.
Proof. solve_decision. Defined.
Inductive AllocateType := PRE_ALLOCATION | ALLOCATION.
#[global] Instance AllocateType_eq_dec : EqDecision AllocateType.
Proof. solve_decision. Defined.

Definition RESOURCE_IDLE_TIME : Z := 30000.

(** [isRunningQueueEmpty], [isPendingQueueEmpty], [newStatus],
    [needRequestConsumer] *)
Definition STATE_TRANSITIONS_MAP : list (bool * bool * QueueStatus * bool) :=
  [(true, true, WAITING, false); (true, false, PENDING, false);
   (false, false, RUNNING, true); (false, true, RUNNING, true)].

(** [nextPromise_] names the promises the actor makes. *)
Record State := mkState {
  scheduler_ : Scheduler.State;
  isNewResourceAvailable_ : bool;
  status_ : QueueStatus;
  nextPromise_ : nat;
}.
Definition set_scheduler (x : Scheduler.State) (s : State) : State :=
  mkState x (isNewResourceAvailable_ s) (status_ s) (nextPromise_ s).
Definition set_available (b : bool) (s : State) : State :=
  mkState (scheduler_ s) b (status_ s) (nextPromise_ s).
Definition set_status (x : QueueStatus) (s : State) : State :=
  mkState (scheduler_ s) (isNewResourceAvailable_ s) x (nextPromise_ s).
Definition init (sch : Scheduler.State) : State := mkState sch true WAITING 0.

Inductive Out :=
  | FromScheduler (x : Scheduler.Out)
  | AsyncRequestConsumer
  | AsyncDoConsumeWithCurrentInfo
  | GetResourceInfo                                 (* answered by [DoConsumeWithLatestInfo] *)
  | CancelIdleTimer
  | AfterResourceUpdate (milliseconds : Z)
  | OnCancel (tag : nat) (promise : nat) (group : bool)   (* [cancelTag.OnComplete] *)
  | DeleteInstances (instanceID : string).
Abbreviation Q := (Act State Out).

(** A call of the scheduler. *)
Definition lift {A} (m : Act Scheduler.State Scheduler.Out A) : Q A := λ s,
  (val m (scheduler_ s), set_scheduler (exec m (scheduler_ s)) s, FromScheduler <$> outs m (scheduler_ s)).

(** The answer of a decision: at once, or through a promise. *)
Inductive Answer (R : Type) := AtOnce (r : R) | Later (promise : nat).
Arguments AtOnce {R} r.
Arguments Later {R} promise.

Record GroupSpec := mkGroupSpec {
  sp_requests : list ScheduleRequest;
  sp_groupReqId : string;
  sp_cancelTag : nat;
  sp_rangeOpt : RangeOpt;
  sp_timeout : Z;
}.

Section handlers.
Context {AC : AffinityCodec} {Env : Environment} (recorder : bool) (maxPriority_ : Z) (type_ : AllocateType).

Definition TransitionSchedulerQueueState : Q unit :=
  s ← members;
  let isRunningQueueEmpty := Scheduler.CheckIsRunningQueueEmpty (scheduler_ s) in
  let isPendingQueueEmpty := Scheduler.CheckIsPendingQueueEmpty (scheduler_ s) in
  let transition := default (true, true, WAITING, false)
    (list_find (λ t, t.1.1.1 = isRunningQueueEmpty ∧ t.1.1.2 = isPendingQueueEmpty) STATE_TRANSITIONS_MAP
       ≫= λ p, Some p.2) in
  if bool_decide (status_ s = transition.1.2) then mret tt
  else
    modify (set_status transition.1.2) ≫= λ _,
    act_when transition.2 (post AsyncRequestConsumer).

Definition HandlePendingRequests : Q unit :=
  s ← members;
  if bool_decide (status_ s = PENDING) && isNewResourceAvailable_ s then
    lift (Scheduler.ActivatePendingRequests maxPriority_) ≫= λ _,
    TransitionSchedulerQueueState
  else mret tt.

Definition ScheduleOnResourceUpdate : Q unit :=
  post CancelIdleTimer ≫= λ _,
  modify (set_available true) ≫= λ _,
  HandlePendingRequests ≫= λ _,
  post (AfterResourceUpdate RESOURCE_IDLE_TIME).

(** [ok]: whether the resource future has a value; the value goes into
    [resourceInfo_] and [preContext_], which only the performers read. *)
Definition UpdateResourceInfo (ok : bool) : Q unit :=
  if negb ok then mret tt else modify (set_available false).

(** [std::make_shared<litebus::Promise<...>>()] *)
Definition new_promise : Q nat :=
  s ← members;
  modify (λ s, mkState (scheduler_ s) (isNewResourceAvailable_ s) (status_ s) (S (nextPromise_ s))) ≫= λ _,
  mret (nextPromise_ s).

Definition ScheduleDecision (req : option ScheduleRequest) (cancelTag : nat) : Q (Answer ScheduleResult) :=
  promise ← new_promise;
  res ← lift (Scheduler.Enqueue (InstanceItem_ (mkInstanceItem req promise cancelTag false)));
  if IsError res then mret (AtOnce (mkResult "" (st_code res) (st_msg res)))
  else
    TransitionSchedulerQueueState ≫= λ _,
    post (OnCancel cancelTag promise false) ≫= λ _,
    mret (Later promise).

Definition GroupScheduleDecision (spec : GroupSpec) : Q (Answer GroupScheduleResult) :=
  if bool_decide (sp_requests spec = nil) then mret (AtOnce (mkGroupResult 0 "" []))
  else
    promise ← new_promise;
    instanceItems ← for_collect (sp_requests spec) (λ request,
      instancePromise ← new_promise;
      mret (mkInstanceItem (Some request) instancePromise (sp_cancelTag spec) false));
    let item := mkGroupItem instanceItems promise (sp_groupReqId spec) (sp_cancelTag spec)
                  (sp_rangeOpt spec) (sp_timeout spec) false in
    res ← lift (Scheduler.Enqueue (GroupItem_ item));
    if IsError res then mret (AtOnce (mkGroupResult FAILED (st_msg res) []))
    else
      TransitionSchedulerQueueState ≫= λ _,
      post (OnCancel (sp_cancelTag spec) promise true) ≫= λ _,
      mret (Later promise).

(** A future that failed cancels nothing. *)
Definition OnCancelInstanceSchedule (cancelReason : CancelTag) (promise : nat) : Q unit :=
  match cancelReason with
  | CancelOK reason =>
      post (FromScheduler (Scheduler.AssociateInstance promise (mkResult "" ERR_SCHEDULE_CANCELED reason)))
  | _ => mret tt
  end.
Definition OnCancelGroupSchedule (cancelReason : CancelTag) (promise : nat) : Q unit :=
  match cancelReason with
  | CancelOK reason =>
      post (FromScheduler (Scheduler.AssociateGroup promise (mkGroupResult ERR_SCHEDULE_CANCELED reason [])))
  | _ => mret tt
  end.

Definition DoConsumeWithCurrentInfo : Q unit :=
  s ← members;
  if Scheduler.CheckIsRunningQueueEmpty (scheduler_ s) then
    TransitionSchedulerQueueState ≫= λ _, HandlePendingRequests
  else
    lift (Scheduler.ConsumeRunningQueue recorder) ≫= λ _,
    post AsyncDoConsumeWithCurrentInfo.

Definition DoConsumeWithLatestInfo (ok : bool) : Q unit :=
  UpdateResourceInfo ok ≫= λ _,
  lift (Scheduler.ConsumeRunningQueue recorder) ≫= λ _,
  post AsyncDoConsumeWithCurrentInfo.

Definition RequestConsumer : Q unit :=
  s ← members;
  if negb (isNewResourceAvailable_ s) && bool_decide (type_ = PRE_ALLOCATION)
  then DoConsumeWithCurrentInfo
  else post GetResourceInfo.

(** The code of the response after the call, and the deletion. *)
Definition ScheduleConfirm (rsp : option Z) (instanceID : string) : Q (Status * option Z) :=
  match rsp with
  | None => mret (mkStatus FAILED "null schedule response", None)
  | Some code =>
      let code := if bool_decide (code = RESOURCE_NOT_ENOUGH) || bool_decide (code = ERR_RESOURCE_NOT_ENOUGH)
                  then SCHEDULE_CONFLICTED else code in
      act_when (bool_decide (type_ = ALLOCATION) && negb (bool_decide (code = SUCCESS)))
        (post (DeleteInstances instanceID)) ≫= λ _,
      mret (StatusOK, Some code)
  end.

(** ** The mailbox *)
Inductive Msg :=
  | MSchedule (req : option ScheduleRequest) (cancelTag : nat)
  | MGroupSchedule (spec : GroupSpec)
  | MResourceUpdate
  | MCancelInstance (reason : CancelTag) (promise : nat)
  | MCancelGroup (reason : CancelTag) (promise : nat)
  | MConfirm (rsp : option Z) (instanceID : string)
  | MRequestConsumer
  | MLatestInfo (ok : bool)
  | MCurrentInfo.
Definition handle (m : Msg) : Q unit :=
  match m with
  | MSchedule req tag => ScheduleDecision req tag ≫= λ _, mret tt
  | MGroupSchedule spec => GroupScheduleDecision spec ≫= λ _, mret tt
  | MResourceUpdate => ScheduleOnResourceUpdate
  | MCancelInstance r p => OnCancelInstanceSchedule r p
  | MCancelGroup r p => OnCancelGroupSchedule r p
  | MConfirm rsp id => ScheduleConfirm rsp id ≫= λ _, mret tt
  | MRequestConsumer => RequestConsumer
  | MLatestInfo ok => DoConsumeWithLatestInfo ok
  | MCurrentInfo => DoConsumeWithCurrentInfo
  end.
End handlers.
End QActor.
