(* ===== verification/SchedProps.v ===== *)
(** * Properties of the priority scheduler

    With time-sorted queues, consuming the running queue terminates, empties
    it, and answers or suspends every request in it exactly once; activating
    the pending requests moves all of them back.  The fairness policy holds a
    request back exactly when a stored one competes with it. *)

From S2P Require Import Prelude StdStrings SchedItems BaseQueue TimeQueue QueueProps AggQueue SchedPolicy PriorityScheduler.
From stdpp Require Import base gmap strings list fin_maps sorting.
From Stdlib Require Import ZArith Lia.
Import Scheduler.

Open Scope Z_scope.
Set Default Proof Using "Type".

Create HintDb sched.

(** ** Items *)
(** The promise an item is answered through. *)
Definition item_promise (x : QueueItem) : list nat :=
  match x with
  | InstanceItem_ i => [in_schedulePromise i]
  | GroupItem_ g => [gr_groupPromise g]
  | AggregatedItem_ _ => []
  end.
Definition answered (o : list Out) : list nat :=
  omap (λ w, match w with
             | AssociateInstance p _ => Some p
             | AssociateGroup p _ => Some p
             | _ => None
             end) o.
Definition is_crash (w : Out) : bool := match w with Crash => true | _ => false end.

(** A request of its own, not an aggregation of requests. *)
Definition single (x : QueueItem) : Prop := match x with AggregatedItem_ _ => False | _ => True end.

(** Two states of the same request: scheduling marks it and attaches the
    pending affinities, and leaves what the queues look at. *)
Record same_request (h : Heap) (x y : QueueItem) : Prop := {
  sr_id : GetRequestId h y = GetRequestId h x;
  sr_priority : GetPriority h y = GetPriority h x;
  sr_promise : item_promise y = item_promise x;
  sr_single : single x → single y;
}.

Lemma same_request_refl h x : same_request h x x.
Proof. by split. Qed.
Lemma same_request_trans h x y z : same_request h x y → same_request h y z → same_request h x z.
Proof. intros [] []. split; [congruence..|auto]. Qed.
Lemma TagFailure_same h x : same_request h x (TagFailure x).
Proof. by destruct x. Qed.
#[export] Hint Resolve same_request_refl same_request_trans TagFailure_same : sched.

Section prepare.
Context {AC : AffinityCodec}.
Lemma set_pending_priority pending i : instance_priority (SchedPolicy.set_pending pending i) = instance_priority i.
Proof.
  unfold SchedPolicy.set_pending, instance_priority. destruct (in_scheduleReq i) as [req|] eqn:E; [|by rewrite E].
  cbn. unfold request_priority, request_option, instance, scheduleoption. cbn.
  destruct (sr_instance req) as [info|]; [|done]. cbn. by destruct (ii_scheduleOption info).
Qed.
Lemma set_pending_request_id pending i : instance_request_id (SchedPolicy.set_pending pending i) = instance_request_id i.
Proof. unfold SchedPolicy.set_pending, instance_request_id. destruct (in_scheduleReq i) eqn:E; cbn; by rewrite ?E. Qed.
Lemma set_pending_promise pending i : in_schedulePromise (SchedPolicy.set_pending pending i) = in_schedulePromise i.
Proof. unfold SchedPolicy.set_pending. by destruct (in_scheduleReq i). Qed.

Lemma prepare_instance_same h f i :
  same_request h (InstanceItem_ i) (InstanceItem_ (AddPendingAffinityToInstance f i)).
Proof.
  unfold AddPendingAffinityToInstance. split; cbn.
  - apply set_pending_request_id.
  - apply set_pending_priority.
  - by rewrite set_pending_promise.
  - done.
Qed.
Lemma prepare_group_same h f g :
  same_request h (GroupItem_ g) (GroupItem_ (AddPendingAffinityToGroup f g)).
Proof.
  split; cbn; [done| |done..]. unfold group_priority. cbn. destruct (gr_groupReqs g) as [|i l]; [done|].
  apply (set_pending_priority _ i).
Qed.
Lemma prepare_instance h pol i : ∃ i', PrepareForScheduling pol (InstanceItem_ i) = InstanceItem_ i' ∧
  same_request h (InstanceItem_ i) (InstanceItem_ i').
Proof. destruct pol; eexists; (split; [done|]); [apply same_request_refl|apply prepare_instance_same]. Qed.
Lemma prepare_group h pol g : ∃ g', PrepareForScheduling pol (GroupItem_ g) = GroupItem_ g' ∧
  same_request h (GroupItem_ g) (GroupItem_ g').
Proof. destruct pol; eexists; (split; [done|]); [apply same_request_refl|apply prepare_group_same]. Qed.
End prepare.
#[export] Hint Resolve prepare_instance_same prepare_group_same : sched.

(** ** One round *)
Section round.
Context {AC : AffinityCodec} {Env : Environment} (recorder : bool).

(** [m] disposes of the request [x]: it is answered, or it is put into the
    pending queue. *)
Definition settles {A} (x : QueueItem) (m : Sch A) : Prop := ∀ s p,
  pendingQueue_ s = QTime p →
  heap_ (exec m s) = heap_ s ∧ runningQueue_ (exec m s) = runningQueue_ s ∧
  Forall (λ w, is_crash w = false) (outs m s) ∧
  ((pendingQueue_ (exec m s) = QTime p ∧ answered (outs m s) = item_promise x) ∨
   (∃ y, same_request (heap_ s) x y ∧ answered (outs m s) = [] ∧
         pendingQueue_ (exec m s) = QTime (TimeQ.Enqueue (heap_ s) (Some y) p).2)).

Lemma EraseRecord_spec h x s :
  exec (EraseRecord recorder h x) s = s ∧ answered (outs (EraseRecord recorder h x) s) = [] ∧
  Forall (λ w, is_crash w = false) (outs (EraseRecord recorder h x) s).
Proof. unfold EraseRecord. act_simpl. destruct (_ && _); split_and!; repeat constructor. Qed.

Lemma pending_Enqueue_spec y s p :
  pendingQueue_ s = QTime p →
  outs (pending_Enqueue y) s = [] ∧
  exec (pending_Enqueue y) s =
    mkState (runningQueue_ s) (QTime (TimeQ.Enqueue (heap_ s) (Some y) p).2) (priorityPolicy_ s) (heap_ s) (reads_ s).
Proof. intros Hp. unfold pending_Enqueue. act_simpl. rewrite Hp. cbn [q_Enqueue]. act_simpl. by split. Qed.

Lemma answered_app o o' : answered (o ++ o') = answered o ++ answered o'.
Proof. apply omap_app. Qed.

Lemma done_instance_settles result i : settles (InstanceItem_ i) (OnScheduleDoneInstance recorder result i).
Proof.
  intros s p Hp. unfold OnScheduleDoneInstance, read_tag. act_simpl.
  set (s1 := next_read s). set (tag := read_cancel _ _).
  assert (H1 : pendingQueue_ s1 = QTime p) by done.
  destruct (negb (is_init tag)); [|destruct (_ && _)].
  - act_simpl. destruct (EraseRecord_spec (heap_ s1) (InstanceItem_ i) s1) as (E & Ea & Ec). rewrite E.
    split_and!; [done..|by repeat constructor|]. left. split; [done|].
    by rewrite !answered_app, Ea.
  - act_simpl. destruct (pending_Enqueue_spec (TagFailure (InstanceItem_ i)) s1 p H1) as [Eo Ee].
    rewrite Eo, Ee. split_and!; [done..|by repeat constructor|].
    right. exists (TagFailure (InstanceItem_ i)). split_and!; [apply TagFailure_same|done..].
  - act_simpl. destruct (EraseRecord_spec (heap_ s1) (InstanceItem_ i) s1) as (E & Ea & Ec). rewrite E.
    split_and!; [done..|rewrite !Forall_app; split_and!; by repeat constructor|]. left. split; [done|].
    by rewrite !answered_app, Ea.
Qed.

Lemma done_group_settles result g : settles (GroupItem_ g) (OnScheduleDoneGroup recorder result g).
Proof.
  intros s p Hp. unfold OnScheduleDoneGroup, read_tag. act_simpl.
  set (s1 := next_read s). set (tag := read_cancel _ _).
  assert (H1 : pendingQueue_ s1 = QTime p) by done.
  destruct (negb (is_init tag)); [|destruct (_ && _)].
  - act_simpl. destruct (EraseRecord_spec (heap_ s1) (GroupItem_ g) s1) as (E & Ea & Ec). rewrite E.
    split_and!; [done..|by repeat constructor|]. left. split; [done|].
    by rewrite !answered_app, Ea.
  - act_simpl. destruct (pending_Enqueue_spec (TagFailure (GroupItem_ g)) s1 p H1) as [Eo Ee].
    rewrite Eo, Ee. split_and!; [done..|by repeat constructor|].
    right. exists (TagFailure (GroupItem_ g)). split_and!; [apply TagFailure_same|done..].
  - act_simpl. destruct (EraseRecord_spec (heap_ s1) (GroupItem_ g) s1) as (E & Ea & Ec). rewrite E.
    assert (∃ b : bool, negb (bool_decide (gs_code result = SUCCESS)) = b) as [b ->] by eauto.
    split_and!; [by destruct b..| |].
    + rewrite !Forall_app. split_and!; [by repeat constructor..|]. destruct b; by repeat constructor.
    + left. split; [by destruct b|]. rewrite !answered_app, Ea. by destruct b.
Qed.
End round.

(** ** The invariant *)
(** Both queues are time-sorted and hold distinct, valid requests. *)
Record sched_ok (s : State) (r p : TimeQ.TimeSortedQueue) : Prop := {
  so_running : runningQueue_ s = QTime r;
  so_pending : pendingQueue_ s = QTime p;
  so_r_ok : queue_ok (heap_ s) r;
  so_p_ok : queue_ok (heap_ s) p;
  so_max : TimeQ.maxPriority_ p = TimeQ.maxPriority_ r;
  so_disjoint : ids (heap_ s) r ## ids (heap_ s) p;
  so_valid : Forall (λ x, single x ∧ GetRequestId (heap_ s) x ≠ "") (items r ++ items p);
}.
Definition promises (q : TimeQ.TimeSortedQueue) : list nat := items q ≫= item_promise.

Lemma items_priority h q x :
  queue_ok h q → x ∈ items q → GetPriority h x ≤ TimeQ.maxPriority_ q.
Proof.
  intros [Hs _ _] Hx. destruct (level_items_sorted h (levels (TimeQ.maxPriority_ q)) _ Hs) as [_ Hlt].
  pose proof (proj1 (Forall_forall _ _) Hlt x Hx) as Hp. cbn beta in Hp.
  pose proof (GetPriority_bounds h x). unfold levels in Hp. lia.
Qed.

(** Putting a request that is in neither queue into the pending queue. *)
Lemma suspend_ok s r p y :
  sched_ok s r p → single y → GetRequestId (heap_ s) y ≠ "" →
  GetPriority (heap_ s) y ≤ TimeQ.maxPriority_ p →
  GetRequestId (heap_ s) y ∉ ids (heap_ s) r → GetRequestId (heap_ s) y ∉ ids (heap_ s) p →
  let p' := (TimeQ.Enqueue (heap_ s) (Some y) p).2 in
  ∀ s', runningQueue_ s' = QTime r → heap_ s' = heap_ s → pendingQueue_ s' = QTime p' →
  sched_ok s' r p' ∧ promises p' ≡ₚ item_promise y ++ promises p.
Proof.
  intros [H1 H2 H3 H4 H5 H6 H7] Hs Hid Hp Hr Hpn p' s' Hr' Hh Hp'.
  destruct (Enqueue_ok (heap_ s) y p H4 Hid Hp Hpn) as (_ & Hok & Hit). fold p' in Hok, Hit.
  assert (Hmax : TimeQ.maxPriority_ p' = TimeQ.maxPriority_ p).
  { unfold p'. cbn [TimeQ.Enqueue]. by repeat case_match. }
  split.
  - split; [done|done|by rewrite Hh|by rewrite Hh|by rewrite Hmax| |].
    + rewrite Hh. intros id Hin. unfold ids at 1. rewrite Hit, fmap_cons, elem_of_cons. intros [->|Hin']; [done|].
      by apply (H6 id).
    + rewrite Hh, Hit. apply Forall_app in H7 as [? ?]. apply Forall_app. split; [done|]. by constructor.
  - unfold promises. by rewrite Hit.
Qed.

(** Taking the front of the running queue. *)
Lemma drop_front_ok s r p x rest :
  sched_ok s r p → items r = x :: rest →
  let r' := (TimeQ.Dequeue (heap_ s) r).2 in
  sched_ok (set_running (QTime r') s) r' p ∧ items r' = rest ∧
  GetRequestId (heap_ s) x ∉ ids (heap_ s) r' ∧ GetRequestId (heap_ s) x ∉ ids (heap_ s) p.
Proof.
  intros [H1 H2 H3 H4 H5 H6 H7] Hx r'. destruct (Dequeue_ok _ _ H3) as (Hok & _ & Hit & Hmax).
  fold r' in Hok, Hit, Hmax. rewrite Hx in Hit. cbn in Hit.
  assert (Hids : ids (heap_ s) r = GetRequestId (heap_ s) x :: ids (heap_ s) r').
  { unfold ids. by rewrite Hx, Hit. }
  pose proof (qo_ids _ _ H3) as Hnd. rewrite Hids in Hnd, H6. apply NoDup_cons in Hnd as [Hn _].
  rewrite Hx in H7. inversion_clear H7 as [|? ? _ H7'].
  split_and!; [|done|done|].
  - split; cbn; [done|done|done|done|congruence| |by rewrite Hit].
    intros id Hin. apply H6. by right.
  - intros Hin. by apply (H6 (GetRequestId (heap_ s) x)); [left|].
Qed.

(** What a handler that takes [x] off the running queue achieves. *)
Record consumed (x : QueueItem) (rest : list QueueItem) (r p : TimeQ.TimeSortedQueue) (s' : State) (o : list Out) : Prop := {
  co_ok : ∃ r' p', sched_ok s' r' p' ∧ items r' = rest ∧ TimeQ.maxPriority_ r' = TimeQ.maxPriority_ r ∧
            item_promise x ++ promises p ≡ₚ promises p' ++ answered o;
  co_answer : answered o = item_promise x ∨ answered o = [];
  co_safe : Forall (λ w, is_crash w = false) o;
}.

Section consume.
Context {AC : AffinityCodec} {Env : Environment} (recorder : bool).

Lemma running_Dequeue_spec s r :
  runningQueue_ s = QTime r →
  outs running_Dequeue s = [] ∧ exec running_Dequeue s = set_running (QTime (TimeQ.Dequeue (heap_ s) r).2) s.
Proof. intros Hr. unfold running_Dequeue. act_simpl. rewrite Hr. cbn [q_Dequeue]. by act_simpl. Qed.

Lemma settles_consumed {A} x (m : Sch A) s r p rest y :
  sched_ok s r p → items r = x :: rest → same_request (heap_ s) x y → settles y m →
  consumed x rest r p (exec (m ≫= λ _, running_Dequeue) s) (outs (m ≫= λ _, running_Dequeue) s).
Proof.
  intros Hok Hx Hxy Hm. destruct (Hm s p (so_pending _ _ _ Hok)) as (Hh & Hr & Hsafe & Hcase).
  rewrite (so_running _ _ _ Hok) in Hr. destruct (running_Dequeue_spec _ _ Hr) as [Eo Ee].
  destruct (drop_front_ok _ _ _ _ _ Hok Hx) as (Hok' & Hit & Hn1 & Hn2).
  destruct (Dequeue_ok _ _ (so_r_ok _ _ _ Hok)) as (_ & _ & _ & Hmax).
  rewrite exec_bind, outs_bind, Eo, Ee, (right_id_L [] (++)).
  split; [|destruct Hcase as [[_ ->]|(z & _ & -> & _)]; [left; apply Hxy|by right]|done]. rewrite Hh.
  set (r' := (TimeQ.Dequeue (heap_ s) r).2) in *.
  destruct Hcase as [[Hp Ha]|(z & Hz & Ha & Hp)].
  - exists r', p. split_and!; [|done|done|].
    + destruct Hok'. split; cbn in *; rewrite ?Hh; done.
    + rewrite Ha, (sr_promise _ _ _ Hxy). apply Permutation_app_comm.
  - assert (Hxz : same_request (heap_ s) x z) by eauto with sched. clear Hz.
    assert (Hv : single x ∧ GetRequestId (heap_ s) x ≠ "").
    { pose proof (so_valid _ _ _ Hok) as Hv. rewrite Hx in Hv. by inversion_clear Hv. }
    destruct Hv as [Hsx Hid].
    assert (Hpx : GetPriority (heap_ s) x ≤ TimeQ.maxPriority_ p).
    { rewrite (so_max _ _ _ Hok). apply items_priority; [apply Hok|]. rewrite Hx. left. }
    destruct Hxz as [Ei Epr Epm Esi].
    pose proof (suspend_ok _ _ _ z Hok' (Esi Hsx)) as Hsus. cbn [heap_ set_running] in Hsus.
    rewrite Ei, Epr in Hsus.
    destruct (Hsus Hid Hpx Hn1 Hn2 (set_running (QTime r') (exec m s)) eq_refl Hh Hp) as [Hok2 Hperm].
    eexists r', _. split_and!; [exact Hok2|done|done|].
    rewrite Hperm, Ha, Epm, (right_id_L [] (++)). done.
Qed.

Lemma answered_now x (m : Sch unit) :
  (∀ s, exec m s = s ∧ answered (outs m s) = item_promise x ∧ Forall (λ w, is_crash w = false) (outs m s)) →
  settles x m.
Proof. intros Hm s p Hp. destruct (Hm s) as (-> & Ha & Hs). split_and!; [done..|by left]. Qed.
Lemma failure_settles code reason x : single x → settles x (AssociateFailure code reason x).
Proof. intros Hx. apply answered_now. intros s. destruct x; [..|done]; by repeat constructor. Qed.
Lemma suspend_settles x : settles x (pending_Enqueue x).
Proof.
  intros s p Hp. destruct (pending_Enqueue_spec x s p Hp) as [-> ->].
  split_and!; [done..|constructor|]. right. exists x. by split_and!; auto with sched.
Qed.

Lemma sched_ok_next s r p : sched_ok s r p → sched_ok (next_read s) r p.
Proof. by intros []. Qed.
Lemma item_tag_spec x s :
  single x → exec (item_tag x) s = next_read s ∧ outs (item_tag x) s = [].
Proof. destruct x; [..|done]; intros _; cbn [item_tag]; unfold read_tag; by act_simpl. Qed.

(** The front of the running queue is disposed of and dequeued. *)
Lemma DoConsume_ok s r p x rest :
  sched_ok s r p → items r = x :: rest →
  consumed x rest r p (exec (DoConsume recorder) s) (outs (DoConsume recorder) s).
Proof.
  intros Hok Hx. pose proof (so_running _ _ _ Hok) as Hr.
  destruct (Dequeue_ok _ _ (so_r_ok _ _ _ Hok)) as (_ & Hfront & _ & _). rewrite Hx in Hfront. cbn in Hfront.
  assert (Hsx : single x).
  { pose proof (so_valid _ _ _ Hok) as Hv. rewrite Hx in Hv. inversion_clear Hv. naive_solver. }
  unfold DoConsume, running_Front. rewrite !exec_bind, !outs_bind. act_simpl. rewrite Hr. cbn [q_Front fst snd].
  rewrite Hfront.
  replace (set_running (QTime r) s) with s by (destruct s; cbn in *; by subst).
  rewrite exec_bind, outs_bind. destruct (item_tag_spec x s Hsx) as [-> ->]. rewrite !app_nil_l. apply sched_ok_next in Hok.
  generalize (val (item_tag x) s). revert Hok. generalize (next_read s). clear s Hr. intros s Hok tag.
  assert (Hgo : consumed x rest r p
    (exec (AssociateFailure ERR_SCHEDULE_CANCELED (cancel_reason tag) x ≫= λ _, running_Dequeue) s)
    (outs (AssociateFailure ERR_SCHEDULE_CANCELED (cancel_reason tag) x ≫= λ _, running_Dequeue) s)).
  { apply (settles_consumed x _ s r p rest x); auto using failure_settles with sched. }
  destruct tag; [|exact Hgo|]; clear Hgo;
    (rewrite exec_bind, outs_bind, val_members, exec_members, outs_members, app_nil_l;
     destruct (negb _); [apply (settles_consumed x _ s r p rest x); auto using suspend_settles with sched|]).
  all: destruct x as [i|g|]; [| |done].
  1, 3: destruct (prepare_instance (heap_ s) (priorityPolicy_ s) i) as (i' & -> & Hi);
    rewrite exec_bind, outs_bind, exec_modify, outs_modify, app_nil_l;
    apply sched_ok_next in Hok;
    exact (settles_consumed _ _ _ _ _ _ _ Hok Hx Hi (done_instance_settles recorder _ _)).
  all: case_bool_decide; [apply (settles_consumed _ _ s r p rest (GroupItem_ g)); auto with sched;
      by apply answered_now; intros; repeat constructor|].
  all: destruct (prepare_group (heap_ s) (priorityPolicy_ s) g) as (g' & -> & Hg);
    rewrite exec_bind, outs_bind, exec_modify, outs_modify, app_nil_l;
    apply sched_ok_next in Hok;
    exact (settles_consumed _ _ _ _ _ _ _ Hok Hx Hg (done_group_settles recorder _ _)).
Qed.

(** A subsequence of the promises is the promises of a subsequence. *)
Lemma sublist_promises l k :
  Forall single l → k `sublist_of` (l ≫= item_promise) →
  ∃ l', l' `sublist_of` l ∧ k = l' ≫= item_promise.
Proof.
  intros Hl. revert k. induction Hl as [|x l Hx Hl IH]; intros k Hk.
  { exists []. split; [done|]. by apply sublist_nil_r in Hk. }
  assert (∃ n, item_promise x = [n]) as [n En] by (destruct x; [..|done]; by eexists).
  cbn in Hk. rewrite En in Hk. cbn in Hk. apply sublist_cons_r in Hk as [Hk|(k' & -> & Hk)].
  - destruct (IH k Hk) as (l' & ? & ->). exists l'. split; [by apply sublist_cons|done].
  - destruct (IH k' Hk) as (l' & ? & ->). exists (x :: l'). split; [by apply sublist_skip|]. cbn. by rewrite En.
Qed.

(** ** The loop *)
Lemma load_items h q : load h (QTime q) = length (items q).
Proof.
  unfold load, items. induction (levels _) as [|k IH]; [done|]. cbn [level_load level_items].
  rewrite length_app, IH. f_equal. generalize (default [] (TimeQ.queueMap_ q !! Z.of_nat k)). clear.
  induction l as [|x l IH]; [done|]. cbn. by rewrite IH.
Qed.

Lemma consume_ok n s r p :
  sched_ok s r p → (length (items r) ≤ n)%nat →
  let s' := exec (consume recorder n) s in
  let o := outs (consume recorder n) s in
  ∃ r' p', sched_ok s' r' p' ∧ items r' = [] ∧ TimeQ.maxPriority_ r' = TimeQ.maxPriority_ r ∧
    promises r ++ promises p ≡ₚ promises p' ++ answered o ∧ answered o `sublist_of` promises r ∧
    Forall (λ w, is_crash w = false) o.
Proof.
  revert s r p. induction n as [|n IH]; intros s r p Hok Hn; cbn [consume];
    rewrite exec_bind, outs_bind, val_members, exec_members, outs_members, app_nil_l;
    rewrite (so_running _ _ _ Hok); cbn [q_CheckIsQueueEmpty];
    destruct (queue_reports _ _ (so_r_ok _ _ _ Hok)) as [Hemp _];
    destruct (items r) as [|x rest] eqn:Hx.
  1, 3: rewrite (proj2 Hemp eq_refl), exec_ret, outs_ret; exists r, p;
    split_and!; [done|done|done| |by apply sublist_nil_l|by apply Forall_nil];
    unfold promises; rewrite Hx; cbn; by rewrite (right_id_L [] (++)).
  { cbn in Hn. lia. }
  destruct (TimeQ.CheckIsQueueEmpty r) eqn:E; [by apply proj1 in Hemp; specialize (Hemp eq_refl)|].
  rewrite exec_bind, outs_bind.
  destruct (DoConsume_ok _ _ _ _ _ Hok Hx) as [(r1 & p1 & Hok1 & Hit & Hmax & Hp1) Ha1 Hs1].
  assert (length (items r1) ≤ n)%nat as Hn1 by (rewrite Hit; cbn in Hn; lia).
  destruct (IH _ _ _ Hok1 Hn1) as (r2 & p2 & Hok2 & He & Hmax2 & Hp2 & Ha2 & Hs2).
  assert (Hpr : promises r = item_promise x ++ promises r1) by (unfold promises; by rewrite Hx, Hit).
  exists r2, p2. rewrite answered_app, Hpr. split_and!; [done|done|congruence| | |by apply Forall_app].
  2: { apply sublist_app; [|done]. destruct Ha1 as [->| ->]; [done|apply sublist_nil_l]. }
  rewrite <- app_assoc, Permutation_app_swap_app, Hp1.
  rewrite app_assoc, Hp2. rewrite <- !app_assoc. apply Permutation_app_head, Permutation_app_comm.
Qed.

Lemma ConsumeRunningQueue_ok s r p :
  sched_ok s r p →
  let s' := exec (ConsumeRunningQueue recorder) s in
  let o := outs (ConsumeRunningQueue recorder) s in
  ∃ r' p', sched_ok s' r' p' ∧ items r' = [] ∧ TimeQ.maxPriority_ r' = TimeQ.maxPriority_ r ∧
    promises r ++ promises p ≡ₚ promises p' ++ answered o ∧ answered o `sublist_of` promises r ∧
    Forall (λ w, is_crash w = false) o.
Proof.
  intros Hok. unfold ConsumeRunningQueue.
  rewrite exec_bind, outs_bind, val_members, exec_members, outs_members, app_nil_l.
  apply consume_ok; [done|]. by rewrite (so_running _ _ _ Hok), load_items.
Qed.

(** ** Entering the queues *)
Lemma q_empty_iff s r p :
  sched_ok s r p →
  (CheckIsRunningQueueEmpty s = true ↔ items r = []) ∧ (CheckIsPendingQueueEmpty s = true ↔ items p = []).
Proof.
  intros [H1 H2 H3 H4 _ _ _]. unfold CheckIsRunningQueueEmpty, CheckIsPendingQueueEmpty. rewrite H1, H2.
  split; by eapply queue_reports.
Qed.

Lemma promises_nil q : Forall single (items q) → promises q = [] ↔ items q = [].
Proof.
  unfold promises. destruct (items q) as [|x l]; [done|]. intros Hs. split; [|done].
  inversion Hs as [|? ? Hx]. by destruct x.
Qed.

Lemma time_Enqueue_cases h x q :
  (∃ st, TimeQ.Enqueue h (Some x) q = (st, q) ∧ IsError st = true) ∨
  (GetRequestId h x ≠ "" ∧ GetPriority h x ≤ TimeQ.maxPriority_ q ∧
   (TimeQ.Enqueue h (Some x) q).1 = StatusOK).
Proof.
  cbn [TimeQ.Enqueue]. case_bool_decide as Hid; [left; by eexists|].
  destruct (Z.ltb_spec (TimeQ.maxPriority_ q) (GetPriority h x)); [left; by eexists|right]. split_and!; [done|lia|done].
Qed.

(** A new request goes into one of the queues, or is refused. *)
Lemma sched_Enqueue_ok s r p x :
  sched_ok s r p → single x → GetRequestId (heap_ s) x ∉ ids (heap_ s) r → GetRequestId (heap_ s) x ∉ ids (heap_ s) p →
  let s' := exec (Enqueue x) s in
  outs (Enqueue x) s = [] ∧
  ((IsError (val (Enqueue x) s) = true ∧ sched_ok s' r p) ∨
   (IsError (val (Enqueue x) s) = false ∧ ∃ r' p', sched_ok s' r' p' ∧
      TimeQ.maxPriority_ r' = TimeQ.maxPriority_ r ∧
      promises r' ++ promises p' ≡ₚ item_promise x ++ promises r ++ promises p)).
Proof.
  intros Hok Hsx Hr Hp. unfold Enqueue. rewrite !exec_bind, outs_bind, !val_bind, !val_members, exec_members, outs_members, app_nil_l.
  pose proof Hok as [H1 H2 H3 H4 H5 H6 H7].
  destruct (negb _); unfold pending_Enqueue, running_Enqueue; act_simpl; rewrite ?H1, ?H2; cbn [q_Enqueue]; act_simpl.
  - split; [done|]. destruct (time_Enqueue_cases (heap_ s) x p) as [(st & -> & Hst)|(Hid & Hpr & ->)].
    { left. split; [done|]. split; cbn; done. }
    right. split; [done|]. exists r. eexists.
    edestruct (suspend_ok _ _ _ x Hok Hsx Hid Hpr Hr Hp (set_heap (heap_ s) (set_pending (QTime (TimeQ.Enqueue (heap_ s) (Some x) p).2) s)))
      as [Hok' Hperm]; [done..|]. split_and!; [exact Hok'|done|].
    rewrite Hperm. by rewrite Permutation_app_swap_app.
  - split; [done|]. destruct (time_Enqueue_cases (heap_ s) x r) as [(st & -> & Hst)|(Hid & Hpr & ->)].
    { left. split; [done|]. split; cbn; done. }
    right. split; [done|]. exists (TimeQ.Enqueue (heap_ s) (Some x) r).2, p.
    destruct (Enqueue_ok (heap_ s) x r H3 Hid Hpr Hr) as (_ & Hok' & Hit).
    set (r' := (TimeQ.Enqueue (heap_ s) (Some x) r).2) in *.
    assert (Hmax : TimeQ.maxPriority_ r' = TimeQ.maxPriority_ r).
    { unfold r'. cbn [TimeQ.Enqueue]. by repeat case_match. }
    split_and!; [|done|].
    + split; cbn; [done..|congruence| |].
      * intros id. unfold ids at 1. rewrite Hit, fmap_cons, elem_of_cons. intros [->|Hin]; [done|by apply H6].
      * rewrite Hit. cbn. by constructor.
    + unfold promises at 1. rewrite Hit. cbn. by rewrite <- app_assoc.
Qed.

(** Activation moves every pending request to the running queue. *)
Lemma Activate_ok s r p :
  sched_ok s r p → items p ≠ [] →
  let m := ActivatePendingRequests (TimeQ.maxPriority_ r) in
  outs m s = [] ∧ ∃ r' p', sched_ok (exec m s) r' p' ∧ TimeQ.maxPriority_ r' = TimeQ.maxPriority_ r ∧
    items r' ≡ₚ items r ++ items p ∧ items p' = [].
Proof.
  intros Hok Hne. destruct (q_empty_iff _ _ _ Hok) as [_ Hemp]. pose proof Hok as [H1 H2 H3 H4 H5 H6 H7].
  cbn beta zeta. unfold ActivatePendingRequests.
  rewrite exec_bind, outs_bind, val_members, exec_members, outs_members, app_nil_l.
  assert (E : q_CheckIsQueueEmpty (pendingQueue_ s) = false).
  { destruct (q_CheckIsQueueEmpty (pendingQueue_ s)) eqn:E; [|done]. by apply Hemp in E. }
  rewrite E, H1, H2. cbn [q_Extend]. act_simpl. split; [done|].
  destruct (Extend_ok (heap_ s) p r H4 H3) as (Hok' & Hit & Hmax); [done|set_solver|].
  set (r' := (TimeQ.Extend (heap_ s) p r).1) in *.
  pose proof (make_ok (heap_ s) (TimeQ.maxPriority_ r)) as Hmk.
  assert (Hmi : items (TimeQ.make (TimeQ.maxPriority_ r)) = []).
  { eapply queue_reports; [exact Hmk|]. done. }
  exists r', (TimeQ.make (TimeQ.maxPriority_ r)).
  split_and!; [|by rewrite Hmax|done|done].
  split; cbn; [done|done|done|done|by rewrite Hmax| |].
  - unfold ids at 2. rewrite Hmi. set_solver.
  - rewrite Hmi, app_nil_r, Hit. done.
Qed.

End consume.

Lemma make_sched_ok maxPriority policy :
  sched_ok (make maxPriority policy NO_AGGREGATE_STRATEGY) (TimeQ.make maxPriority) (TimeQ.make maxPriority).
Proof.
  pose proof (make_ok ∅ maxPriority) as Hmk.
  assert (Hmi : items (TimeQ.make maxPriority) = []) by (eapply queue_reports; [exact Hmk|done]).
  split; cbn; [done..| |]; unfold ids; rewrite Hmi; [set_solver|constructor].
Qed.

(** ** A concrete run: the request of the higher priority does not fit and is
    suspended, the other one is placed. *)
Definition demo_environment : Environment := {|
  read_cancel _ _ := CancelInit;
  instance_result _ i :=
    if bool_decide (instance_request_id i = "b") then mkResult "" RESOURCE_NOT_ENOUGH "no node"
    else mkResult "node" SUCCESS "";
  group_result _ _ := mkGroupResult SUCCESS "" [];
  aggregated_results _ _ := [];
|}.
Definition demo_instance (id : string) (priority : Z) (promise : nat) : QueueItem :=
  InstanceItem_ (mkInstanceItem (Some (mkScheduleRequest
    (Some (mkInstanceInfo id id None (Some (mkScheduleOption "" priority [] None [] 1)) ∅ ∅)) id)) promise 0 false).
Definition demo_running : TimeQ.TimeSortedQueue :=
  (TimeQ.Enqueue ∅ (Some (demo_instance "b" 2 1))
    (TimeQ.Enqueue ∅ (Some (demo_instance "a" 1 0)) (TimeQ.make 3)).2).2.
Definition demo_state : State :=
  mkState (QTime demo_running) (QTime (TimeQ.make 3)) FifoPolicy ∅ 0.
Lemma demo_state_ok : sched_ok demo_state demo_running (TimeQ.make 3).
Proof.
  destruct (Enqueue_ok ∅ (demo_instance "a" 1 0) (TimeQ.make 3)) as (_ & H1 & _);
    [apply make_ok|done|vm_compute; discriminate|vm_compute; set_solver|].
  destruct (Enqueue_ok ∅ (demo_instance "b" 2 1) _ H1) as (_ & H2 & _);
    [done|vm_compute; discriminate| |].
  { replace (ids _ _) with ["a"%string] by (vm_compute; reflexivity).
    replace (GetRequestId _ _) with "b"%string by (vm_compute; reflexivity). set_solver. }
  split; cbn [heap_ demo_state]; [done|done|exact H2|apply make_ok|done| |].
  - replace (ids ∅ (TimeQ.make 3)) with (@nil string) by (vm_compute; reflexivity). set_solver.
  - replace (items demo_running ++ items (TimeQ.make 3)) with [demo_instance "b" 2 1; demo_instance "a" 1 0]
      by (vm_compute; reflexivity).
    repeat constructor; discriminate.
Qed.


(** Activation replaces the pending queue by a time-sorted one whatever the
    configured strategy is: aggregation ends with the second activation. *)
Theorem activation_forgets_strategy maxPriority s :
  q_CheckIsQueueEmpty (pendingQueue_ s) = false →
  Forall (λ w, is_crash w = false) (outs (ActivatePendingRequests maxPriority) s) →
  pendingQueue_ (exec (ActivatePendingRequests maxPriority) s) = QTime (TimeQ.make maxPriority).
Proof.
  intros He. unfold ActivatePendingRequests.
  rewrite exec_bind, outs_bind, val_members, exec_members, outs_members, app_nil_l, He.
  destruct (q_Extend _ _ _) as [[h q]|]; [by act_simpl|]. intros H. by inversion H.
Qed.
