(* ===== verification/QueueActorProps.v ===== *)
(** * Properties of the schedule queue actor

    The actor drives the scheduler by messages to itself.  With time-sorted
    queues, a request that waits to be scheduled always has such a message on
    its way, every accepted request is queued or has been answered, and left
    alone the actor comes to rest with nothing waiting to be scheduled. *)

From S2P Require Import Prelude StdStrings SchedItems BaseQueue TimeQueue QueueProps AggQueue SchedPolicy PriorityScheduler SchedProps QueueActor.
From stdpp Require Import base gmap strings list fin_maps relations.
From Stdlib Require Import ZArith Lia.
Import QActor.

Open Scope Z_scope.
Set Default Proof Using "Type".

(** ** The system: the actor and its messages to itself *)
Inductive token := TRequest | TInfo | TCurrent.

Definition tokens_of (o : list Out) : list token :=
  omap (λ w, match w with
             | AsyncRequestConsumer => Some TRequest
             | GetResourceInfo => Some TInfo
             | AsyncDoConsumeWithCurrentInfo => Some TCurrent
             | _ => None
             end) o.
Definition accepted_of (o : list Out) : list nat :=
  omap (λ w, match w with OnCancel _ promise _ => Some promise | _ => None end) o.
Definition answers_of (o : list Out) : list nat :=
  omap (λ w, match w with
             | FromScheduler (Scheduler.AssociateInstance p _) => Some p
             | FromScheduler (Scheduler.AssociateGroup p _) => Some p
             | _ => None
             end) o.

(** [ok]: whether the resource view could be read. *)
Definition token_msg (t : token) (ok : bool) : Msg :=
  match t with TRequest => MRequestConsumer | TInfo => MLatestInfo ok | TCurrent => MCurrentInfo end.

Record config := mkConfig {
  cf_actor : State;
  cf_tokens : list token;
  cf_accepted : list nat;       (* promises handed out *)
  cf_answered : list nat;       (* promises the scheduler answered *)
}.

(** A client's request carries an id that is not queued. *)
Definition queued_ids (s : Scheduler.State) : list string :=
  match Scheduler.runningQueue_ s, Scheduler.pendingQueue_ s with
  | Scheduler.QTime r, Scheduler.QTime p => ids (Scheduler.heap_ s) r ++ ids (Scheduler.heap_ s) p
  | _, _ => []
  end.
Definition admissible (m : Msg) (a : State) : Prop :=
  match m with
  | MSchedule req _ => from_option sr_requestID "" req ∉ queued_ids (scheduler_ a)
  | MGroupSchedule spec => sp_groupReqId spec ∉ queued_ids (scheduler_ a)
  | MResourceUpdate | MConfirm _ _ => True
  | _ => False
  end.

Section system.
Context {AC : AffinityCodec} {Env : Environment} (recorder : bool) (maxPriority_ : Z) (type_ : AllocateType).

Abbreviation run m := (handle recorder maxPriority_ type_ m).

Definition deliver (m : Msg) (toks : list token) (c : config) : config :=
  let o := outs (run m) (cf_actor c) in
  mkConfig (exec (run m) (cf_actor c)) (toks ++ tokens_of o)
    (cf_accepted c ++ accepted_of o) (cf_answered c ++ answers_of o).

Inductive token_step (ok : bool) (c : config) : config → Prop :=
  | TokenStep l1 t l2 :
      cf_tokens c = l1 ++ t :: l2 → token_step ok c (deliver (token_msg t ok) (l1 ++ l2) c).
Inductive step (c : config) : config → Prop :=
  | ClientStep m : admissible m (cf_actor c) → step c (deliver m (cf_tokens c) c)
  | SelfStep ok c' : token_step ok c c' → step c c'.

Definition start (policy : Scheduler.PriorityPolicyType) : config :=
  mkConfig (init (Scheduler.make maxPriority_ policy NO_AGGREGATE_STRATEGY)) [] [] [].

(** ** The invariant of the actor *)
Record actor_ok (a : State) (r p : TimeQ.TimeSortedQueue) : Prop := {
  ao_sched : sched_ok (scheduler_ a) r p;
  ao_max : TimeQ.maxPriority_ r = maxPriority_;
  ao_running : items r ≠ [] → status_ a = RUNNING;
  ao_waiting : status_ a = WAITING → items r = [] ∧ items p = [];
  ao_pending : status_ a = PENDING → items r = [] ∧ items p ≠ [];
}.

(** The status the queues call for. *)
Definition target (r p : TimeQ.TimeSortedQueue) : QueueStatus :=
  match items r, items p with [], [] => WAITING | [], _ :: _ => PENDING | _ :: _, _ => RUNNING end.

Lemma transition_table b b' :
  default (true, true, WAITING, false)
    (list_find (λ t, t.1.1.1 = b ∧ t.1.1.2 = b') STATE_TRANSITIONS_MAP ≫= λ q, Some q.2) =
  (b, b', if b then if b' then WAITING else PENDING else RUNNING, negb b).
Proof. by destruct b, b'. Qed.

Lemma set_status_id a : set_status (status_ a) a = a.
Proof. by destruct a. Qed.

Lemma Transition_spec a r p :
  sched_ok (scheduler_ a) r p →
  exec TransitionSchedulerQueueState a = set_status (target r p) a ∧
  outs TransitionSchedulerQueueState a =
    (if bool_decide (status_ a = target r p) then [] else
     if bool_decide (target r p = RUNNING) then [AsyncRequestConsumer] else []).
Proof.
  intros Hok. destruct (q_empty_iff _ _ _ Hok) as [Hr Hp]. unfold TransitionSchedulerQueueState.
  rewrite exec_bind, outs_bind, val_members, exec_members, outs_members, app_nil_l.
  assert (Er : Scheduler.CheckIsRunningQueueEmpty (scheduler_ a) = bool_decide (items r = [])).
  { apply eq_bool_prop_intro. rewrite bool_decide_spec, <- Hr. by destruct (Scheduler.CheckIsRunningQueueEmpty _). }
  assert (Ep : Scheduler.CheckIsPendingQueueEmpty (scheduler_ a) = bool_decide (items p = [])).
  { apply eq_bool_prop_intro. rewrite bool_decide_spec, <- Hp. by destruct (Scheduler.CheckIsPendingQueueEmpty _). }
  assert (Et : target r p = if bool_decide (items r = []) then if bool_decide (items p = []) then WAITING else PENDING
    else RUNNING) by (unfold target; by destruct (items r), (items p)).
  assert (En : negb (bool_decide (items r = [])) = bool_decide (target r p = RUNNING)).
  { rewrite Et. by destruct (bool_decide (items r = [])), (bool_decide (items p = [])). }
  rewrite Er, Ep, transition_table. cbn [fst snd]. rewrite En, <- Et.
  destruct (bool_decide_reflect (status_ a = target r p)) as [E|E].
  - by rewrite exec_ret, outs_ret, <- E, set_status_id.
  - act_simpl. by destruct (bool_decide (target r p = RUNNING)).
Qed.

Lemma Transition_ok a r p :
  sched_ok (scheduler_ a) r p → TimeQ.maxPriority_ r = maxPriority_ →
  actor_ok (exec TransitionSchedulerQueueState a) r p ∧
  (status_ (exec TransitionSchedulerQueueState a) = RUNNING →
   status_ a = RUNNING ∨ tokens_of (outs TransitionSchedulerQueueState a) ≠ []).
Proof.
  intros Hok Hmax. destruct (Transition_spec a r p Hok) as [-> ->]. split.
  - split; cbn; [done|done|..]; unfold target; by destruct (items r), (items p).
  - cbn. intros ->. case_bool_decide; [by left|right]. by rewrite bool_decide_true.
Qed.

(** ** The handlers *)
Lemma val_lift {A} (m : Act Scheduler.State Scheduler.Out A) a : val (lift m) a = val m (scheduler_ a).
Proof. done. Qed.
Lemma exec_lift {A} (m : Act Scheduler.State Scheduler.Out A) a :
  exec (lift m) a = set_scheduler (exec m (scheduler_ a)) a.
Proof. done. Qed.
Lemma outs_lift {A} (m : Act Scheduler.State Scheduler.Out A) a :
  outs (lift m) a = FromScheduler <$> outs m (scheduler_ a).
Proof. done. Qed.

Lemma tokens_of_app o o' : tokens_of (o ++ o') = tokens_of o ++ tokens_of o'.
Proof. apply omap_app. Qed.
Lemma accepted_of_app o o' : accepted_of (o ++ o') = accepted_of o ++ accepted_of o'.
Proof. apply omap_app. Qed.
Lemma answers_of_app o o' : answers_of (o ++ o') = answers_of o ++ answers_of o'.
Proof. apply omap_app. Qed.
Lemma tokens_of_scheduler l : tokens_of (FromScheduler <$> l) = [].
Proof. by induction l. Qed.
Lemma accepted_of_scheduler l : accepted_of (FromScheduler <$> l) = [].
Proof. by induction l. Qed.
Lemma answers_of_scheduler l : answers_of (FromScheduler <$> l) = answered l.
Proof.
  unfold answers_of, answered. induction l as [|w l IH]; [done|]. rewrite fmap_cons.
  destruct w; cbn [omap list_omap]; rewrite ?IH; done.
Qed.

Lemma Transition_silent a r p :
  sched_ok (scheduler_ a) r p →
  accepted_of (outs TransitionSchedulerQueueState a) = [] ∧
  answers_of (outs TransitionSchedulerQueueState a) = [] ∧
  nextPromise_ (exec TransitionSchedulerQueueState a) = nextPromise_ a ∧
  isNewResourceAvailable_ (exec TransitionSchedulerQueueState a) = isNewResourceAvailable_ a.
Proof. intros Hok. destruct (Transition_spec a r p Hok) as [-> ->]. by repeat case_bool_decide. Qed.

(** What handling a message does to the queues [r] and [p]. *)
Record handled (a : State) (r p : TimeQ.TimeSortedQueue) (a' : State) (o : list Out) (r' p' : TimeQ.TimeSortedQueue)
    : Prop := {
  ha_ok : actor_ok a' r' p';
  ha_conserved : promises r' ++ promises p' ++ answers_of o ≡ₚ promises r ++ promises p ++ accepted_of o;
  ha_next : (nextPromise_ a ≤ nextPromise_ a')%nat;
  ha_accepted : accepted_of o = [] ∨ ∃ n, accepted_of o = [n] ∧ (nextPromise_ a ≤ n < nextPromise_ a')%nat;
}.

(** Entering a request that was given the promise [n]. *)
Lemma enter_ok {R} a r p x n tag g (err : Status → R) (fin : R) :
  actor_ok a r p → single x → GetRequestId (Scheduler.heap_ (scheduler_ a)) x ∉ queued_ids (scheduler_ a) →
  item_promise x = [n] →
  let m := lift (Scheduler.Enqueue x) ≫= λ res,
    if IsError res then mret (err res)
    else TransitionSchedulerQueueState ≫= λ _, post (OnCancel tag n g) ≫= λ _, mret fin in
  let o := outs m a in
  ∃ r' p', actor_ok (exec m a) r' p' ∧
    promises r' ++ promises p' ++ answers_of o ≡ₚ promises r ++ promises p ++ accepted_of o ∧
    nextPromise_ (exec m a) = nextPromise_ a ∧ (accepted_of o = [] ∨ accepted_of o = [n]) ∧
    (status_ (exec m a) = RUNNING → status_ a = RUNNING ∨ tokens_of o ≠ []).
Proof.
  intros [Hs Hmax H1 H2 H3] Hx Hid Hn m o. subst m o. rewrite exec_bind, outs_bind, val_lift, exec_lift, outs_lift.
  unfold queued_ids in Hid. rewrite (so_running _ _ _ Hs), (so_pending _ _ _ Hs), elem_of_app in Hid.
  destruct (sched_Enqueue_ok _ _ _ x Hs Hx) as (Ho & Hcase); [tauto..|]. rewrite Ho. cbn [fmap list_fmap].
  rewrite !app_nil_l.
  destruct Hcase as [[-> Hs']|(-> & r' & p' & Hs' & Hmax' & Hp)].
  - rewrite exec_ret, outs_ret. exists r, p. split_and!; [by split|done|done|by left|by left].
  - set (a1 := set_scheduler _ a). assert (Hs1 : sched_ok (scheduler_ a1) r' p') by done.
    destruct (Transition_ok a1 r' p' Hs1) as [Hok Ht]; [congruence|].
    destruct (Transition_silent a1 r' p' Hs1) as (Ea & Ean & Enp & _).
    act_simpl. exists r', p'. rewrite tokens_of_app, accepted_of_app, answers_of_app, Ea, Ean.
    split_and!; [done| |done|by right|].
    + cbn. rewrite Hn in Hp. rewrite app_nil_r, Hp. cbn. rewrite app_assoc. by rewrite <- Permutation_cons_append.
    + intros E. destruct (Ht E) as [?|Ht']; [by left|right]. by destruct (tokens_of _).
Qed.

Definition bump (k : nat) (a : State) : State :=
  mkState (scheduler_ a) (isNewResourceAvailable_ a) (status_ a) (k + nextPromise_ a).
Lemma bump_ok k a r p : actor_ok a r p → actor_ok (bump k a) r p.
Proof. by intros []. Qed.
Lemma new_promise_spec a :
  val new_promise a = nextPromise_ a ∧ exec new_promise a = bump 1 a ∧ outs new_promise a = [].
Proof. by unfold new_promise; act_simpl. Qed.

Lemma collect_items (l : list ScheduleRequest) (tag : nat) a :
  let m := for_collect l (λ request, instancePromise ← new_promise;
             mret (mkInstanceItem (Some request) instancePromise tag false)) in
  exec m a = bump (length l) a ∧ outs m a = [].
Proof.
  revert a. induction l as [|req l IH]; intros a; cbn [for_collect]; [by destruct a|].
  rewrite !exec_bind, !outs_bind. destruct (new_promise_spec a) as (-> & -> & ->). act_simpl.
  destruct (IH (bump 1 a)) as [He Ho]. split.
  - rewrite He. unfold bump. cbn. f_equal. lia.
  - rewrite !app_nil_r. exact Ho.
Qed.

Lemma handled_after k a r p a' o :
  (∃ r' p', actor_ok a' r' p' ∧
    promises r' ++ promises p' ++ answers_of o ≡ₚ promises r ++ promises p ++ accepted_of o ∧
    nextPromise_ a' = nextPromise_ (bump k a) ∧ (accepted_of o = [] ∨ accepted_of o = [nextPromise_ a]) ∧
    (status_ a' = RUNNING → status_ a = RUNNING ∨ tokens_of o ≠ [])) →
  (0 < k)%nat →
  ∃ r' p', handled a r p a' o r' p' ∧ (status_ a' = RUNNING → status_ a = RUNNING ∨ tokens_of o ≠ []).
Proof.
  intros (r' & p' & Hok & Hp & Hn & Ha & Ht) Hk. exists r', p'. split; [|done]. cbn in Hn.
  split; [done|done|lia|]. destruct Ha as [?|?]; [by left|right]. exists (nextPromise_ a). split; [done|lia].
Qed.

Lemma HandlePending_ok a r p :
  actor_ok a r p →
  let m := HandlePendingRequests maxPriority_ in
  (exec m a = a ∧ outs m a = [] ∧ (status_ a = PENDING → isNewResourceAvailable_ a = false)) ∨
  (isNewResourceAvailable_ a = true ∧
   ∃ r' p', actor_ok (exec m a) r' p' ∧ promises r' ++ promises p' ≡ₚ promises r ++ promises p ∧
     accepted_of (outs m a) = [] ∧ answers_of (outs m a) = [] ∧ tokens_of (outs m a) = [TRequest] ∧
     nextPromise_ (exec m a) = nextPromise_ a ∧ isNewResourceAvailable_ (exec m a) = true).
Proof.
  intros Hok. cbn zeta. unfold HandlePendingRequests.
  rewrite exec_bind, outs_bind, val_members, exec_members, outs_members, app_nil_l.
  destruct (bool_decide_reflect (status_ a = PENDING)) as [Hst|Hst]; cbn [andb]; [|left; by rewrite exec_ret, outs_ret].
  destruct (isNewResourceAvailable_ a) eqn:Hav; [right; split; [done|]|left; by rewrite exec_ret, outs_ret].
  destruct (ao_pending _ _ _ Hok Hst) as [Hr Hp].
  destruct (Activate_ok _ _ _ (ao_sched _ _ _ Hok) Hp) as (Ho & r' & p' & Hs & Hmax & Hit & Hpn).
  rewrite (ao_max _ _ _ Hok) in Ho, Hs. rewrite exec_bind, outs_bind, exec_lift, outs_lift, Ho.
  cbn [fmap list_fmap]. rewrite app_nil_l. set (a1 := set_scheduler _ a).
  assert (Hs1 : sched_ok (scheduler_ a1) r' p') by done.
  destruct (Transition_ok a1 r' p' Hs1) as [Hok' _]; [by rewrite Hmax, (ao_max _ _ _ Hok)|].
  destruct (Transition_silent a1 r' p' Hs1) as (Ea & Ean & Enp & Eav).
  exists r', p'. split_and!; [done| |done|done| |done|by rewrite Eav].
  - unfold promises. by rewrite Hit, Hpn, app_nil_r, bind_app.
  - destruct (Transition_spec a1 r' p' Hs1) as [_ ->]. unfold target.
    destruct (items r') as [|x l]; [|cbn; by rewrite bool_decide_false by (rewrite Hst; done)].
    exfalso. rewrite Hr in Hit. cbn in Hit. by apply Permutation_nil_l in Hit.
Qed.

(** A client's message. *)
Lemma client_handled m a r p :
  actor_ok a r p → admissible m a →
  ∃ r' p', handled a r p (exec (run m) a) (outs (run m) a) r' p' ∧
    (status_ (exec (run m) a) = RUNNING → status_ a = RUNNING ∨ tokens_of (outs (run m) a) ≠ []).
Proof.
  intros Hok Hadm. destruct m as [req tag|spec| | | |rsp id| | |]; try done; cbn [handle].
  - rewrite exec_bind, outs_bind, exec_ret, outs_ret, app_nil_r. apply (handled_after 1); [|lia]. unfold ScheduleDecision.
    rewrite exec_bind, outs_bind. destruct (new_promise_spec a) as (-> & -> & ->). rewrite app_nil_l.
    apply (enter_ok (bump 1 a) r p (InstanceItem_ (mkInstanceItem req (nextPromise_ a) tag false)) (nextPromise_ a) tag false
      (λ res, AtOnce (mkResult "" (st_code res) (st_msg res)))); [by apply bump_ok|done| |done]. by destruct req.
  - rewrite exec_bind, outs_bind, exec_ret, outs_ret, app_nil_r. unfold GroupScheduleDecision. case_bool_decide.
    { rewrite exec_ret, outs_ret. exists r, p. split; [|by left]. split; [done|done|done|by left]. }
    apply (handled_after (length (sp_requests spec) + 1)); [|lia].
    rewrite exec_bind, outs_bind. destruct (new_promise_spec a) as (-> & -> & ->). rewrite app_nil_l, exec_bind, outs_bind.
    destruct (collect_items (sp_requests spec) (sp_cancelTag spec) (bump 1 a)) as [-> ->]. rewrite app_nil_l.
    replace (bump (length (sp_requests spec)) (bump 1 a)) with (bump (length (sp_requests spec) + 1) a)
      by (unfold bump; cbn; f_equal; lia).
    match goal with |- context [val ?m (bump 1 a)] => generalize (val m (bump 1 a)) end. intros items.
    apply (enter_ok (bump (length (sp_requests spec) + 1) a) r p (GroupItem_ (mkGroupItem items (nextPromise_ a) (sp_groupReqId spec) (sp_cancelTag spec)
      (sp_rangeOpt spec) (sp_timeout spec) false)) (nextPromise_ a) _ true
      (λ res, AtOnce (mkGroupResult FAILED (st_msg res) []))); [by apply bump_ok|done..].
  - unfold ScheduleOnResourceUpdate. act_simpl.
    set (a1 := set_available true a). assert (Hok1 : actor_ok a1 r p) by (by destruct Hok).
    destruct (HandlePending_ok a1 r p Hok1) as [(He & Ho & _)|(_ & r' & p' & Hok' & Hp & E1 & E2 & E3 & E4 & _)].
    + rewrite He, Ho. exists r, p. split; [|by left]. split; [done|done|done|by left].
    + exists r', p'. rewrite !tokens_of_app, E3. split; [|intros _; right; done].
      split; rewrite ?accepted_of_app, ?answers_of_app, ?E1, ?E2; cbn; [done|by rewrite app_nil_r, Hp, app_nil_r| |by left].
      by rewrite E4.
  - exists r, p. unfold ScheduleConfirm. rewrite exec_bind, outs_bind, exec_ret, outs_ret, app_nil_r.
    destruct rsp as [code|]; [|rewrite exec_ret, outs_ret; split; [split; [done|done|done|by left]|by left]].
    act_simpl. destruct (_ && _); (split; [split; [done|done|done|by left]|by left]).
Qed.

(** ** Coming to rest *)
(** A round costs more while a resource update is waiting to be looked at. *)
Definition weight (available : bool) (t : token) : nat :=
  match t with TRequest => 3 | TInfo => 2 | TCurrent => if available then 10 else 1 end.
Definition cost (a : State) (toks : list token) (r : TimeQ.TimeSortedQueue) : nat :=
  sum_list (weight (isNewResourceAvailable_ a) <$> toks) + (if decide (items r = []) then 0 else 1).

Lemma valid_single s r p : sched_ok s r p → Forall single (items r) ∧ Forall single (items p).
Proof.
  intros Hs. pose proof (so_valid _ _ _ Hs) as [H1 H2]%Forall_app.
  split; eapply Forall_impl; [exact H1|by intros ? []|exact H2|by intros ? []].
Qed.

Lemma consume_handled a r p :
  actor_ok a r p →
  let m := lift (Scheduler.ConsumeRunningQueue recorder) ≫= λ _, post AsyncDoConsumeWithCurrentInfo in
  ∃ r' p', handled a r p (exec m a) (outs m a) r' p' ∧ items r' = [] ∧ tokens_of (outs m a) = [TCurrent] ∧
    isNewResourceAvailable_ (exec m a) = isNewResourceAvailable_ a.
Proof.
  intros [Hs Hmax H1 H2 H3] m. subst m. rewrite exec_bind, outs_bind, exec_lift, outs_lift, exec_post, outs_post.
  destruct (ConsumeRunningQueue_ok recorder _ _ _ Hs) as (r' & p' & Hs' & He & Hmax' & Hperm & Hsub & _).
  set (o := outs _ _) in *. exists r', p'.
  assert (Hpr : items r = [] → promises p' ≡ₚ promises p).
  { intros Hr. assert (promises r = []) as E by (unfold promises; by rewrite Hr).
    rewrite E in Hperm, Hsub. apply sublist_nil_r in Hsub. rewrite Hsub, app_nil_r in Hperm. by rewrite Hperm. }
  destruct (valid_single _ _ _ Hs) as [_ Hsp]. destruct (valid_single _ _ _ Hs') as [_ Hsp'].
  split_and!; [|done|by rewrite tokens_of_app, tokens_of_scheduler|done]. split.
  - split; cbn; [done|congruence|done|..].
    + intros Hw. destruct (H2 Hw) as [Hr Hp]. split; [done|]. apply promises_nil; [done|].
      apply Permutation_nil_r. rewrite (Hpr Hr). by rewrite (proj2 (promises_nil p Hsp) Hp).
    + intros Hw. destruct (H3 Hw) as [Hr Hp]. split; [done|]. intros Hn. apply Hp, promises_nil; [done|].
      apply Permutation_nil_r. rewrite <- (Hpr Hr). by rewrite (proj2 (promises_nil p' Hsp') Hn).
  - rewrite answers_of_app, accepted_of_app, answers_of_scheduler, accepted_of_scheduler. cbn.
    rewrite !app_nil_r, Hperm. unfold promises at 1. by rewrite He.
  - done.
  - left. by rewrite accepted_of_app, accepted_of_scheduler.
Qed.

Lemma current_handled a r p :
  actor_ok a r p →
  let m := DoConsumeWithCurrentInfo recorder maxPriority_ in
  ∃ r' p', handled a r p (exec m a) (outs m a) r' p' ∧
    (status_ (exec m a) = RUNNING → tokens_of (outs m a) ≠ []) ∧
    (isNewResourceAvailable_ (exec m a) = isNewResourceAvailable_ a) ∧
    (cost (exec m a) (tokens_of (outs m a)) r' < cost a [TCurrent] r)%nat.
Proof.
  intros Hok m. subst m. unfold DoConsumeWithCurrentInfo.
  rewrite exec_bind, outs_bind, val_members, exec_members, outs_members, app_nil_l.
  destruct (q_empty_iff _ _ _ (ao_sched _ _ _ Hok)) as [Hemp _].
  destruct (Scheduler.CheckIsRunningQueueEmpty (scheduler_ a)).
  - specialize (proj1 Hemp eq_refl) as Hr. pose proof (ao_sched _ _ _ Hok) as Hs.
    rewrite exec_bind, outs_bind.
    destruct (Transition_ok a r p Hs (ao_max _ _ _ Hok)) as [Hok1 _].
    destruct (Transition_spec a r p Hs) as [Et Eo]. destruct (Transition_silent a r p Hs) as (T1 & T2 & T3 & T4).
    set (a1 := exec TransitionSchedulerQueueState a) in *.
    assert (Hst : status_ a1 ≠ RUNNING).
    { rewrite Et. cbn. unfold target. rewrite Hr. by destruct (items p). }
    assert (Htk : tokens_of (outs TransitionSchedulerQueueState a) = []).
    { rewrite Eo. unfold target. rewrite Hr. destruct (items p); by repeat case_bool_decide. }
    destruct (HandlePending_ok a1 r p Hok1) as [(He & Ho & _)|(Hav & r' & p' & Hok' & Hp & E1 & E2 & E3 & E4 & E5)].
    + rewrite He, Ho, app_nil_r, Htk. exists r, p. split_and!; [|done|done|].
      * split; [done|by rewrite T1, T2|by rewrite T3|by left].
      * unfold cost. rewrite T4, decide_True by done. cbn. destruct (isNewResourceAvailable_ a); lia.
    + exists r', p'. rewrite tokens_of_app, Htk, E3. split_and!; [|done|by rewrite E5, <- T4, Hav|].
      * split; rewrite ?answers_of_app, ?accepted_of_app, ?T1, ?T2, ?E1, ?E2; [done| |by rewrite E4, T3|by left].
        cbn. by rewrite !app_nil_r, Hp.
      * unfold cost. rewrite E5, <- T4, Hav, (decide_True (P := items r = [])) by done. cbn. destruct (decide (items r' = [])); lia.
  - destruct (consume_handled a r p Hok) as (r' & p' & Hh & He & Ht & Hav).
    exists r', p'. split_and!; [done|by rewrite Ht|done|].
    unfold cost. rewrite Ht, Hav. cbn. rewrite decide_True by done. rewrite decide_False; [destruct (isNewResourceAvailable_ a); lia|].
    intros E. apply Hemp in E. done.
Qed.

Lemma token_handled t ok a r p :
  actor_ok a r p →
  let m := run (token_msg t ok) in
  ∃ r' p', handled a r p (exec m a) (outs m a) r' p' ∧
    (status_ (exec m a) = RUNNING → tokens_of (outs m a) ≠ []) ∧
    (isNewResourceAvailable_ (exec m a) = true → isNewResourceAvailable_ a = true) ∧
    (ok = true → (cost (exec m a) (tokens_of (outs m a)) r' < cost a [t] r)%nat).
Proof.
  intros Hok m. subst m. destruct t; cbn [token_msg handle].
  - unfold RequestConsumer. rewrite exec_bind, outs_bind, val_members, exec_members, outs_members, app_nil_l.
    destruct (negb (isNewResourceAvailable_ a) && bool_decide (type_ = PRE_ALLOCATION)) eqn:E.
    + destruct (current_handled a r p Hok) as (r' & p' & Hh & Ht & Hav & Hc). exists r', p'.
      split_and!; [done|done|by rewrite Hav|]. intros _. etrans; [exact Hc|].
      apply andb_true_iff in E as [E _]. apply negb_true_iff in E. unfold cost. rewrite E. cbn. lia.
    + exists r, p. act_simpl. split_and!; [split; [done|done|done|by left]|done|done|]. intros _. unfold cost. cbn. lia.
  - unfold DoConsumeWithLatestInfo. rewrite exec_bind, outs_bind.
    assert (∃ a1, exec (UpdateResourceInfo ok) a = a1 ∧ outs (UpdateResourceInfo ok) a = [] ∧
      a1 = (if ok then set_available false a else a)) as (a1 & -> & -> & Ha1).
    { unfold UpdateResourceInfo. destruct ok; by eexists. }
    assert (Hok1 : actor_ok a1 r p) by (subst a1; destruct ok; by destruct Hok).
    rewrite app_nil_l. destruct (consume_handled a1 r p Hok1) as (r' & p' & [X1 X2 X3 X4] & He & Ht & Hav).
    assert (En : nextPromise_ a1 = nextPromise_ a) by (subst a1; by destruct ok).
    exists r', p'. split_and!.
    + split; [done|done|by rewrite <- En|by rewrite <- En].
    + by rewrite Ht.
    + rewrite Hav. subst a1. by destruct ok.
    + intros ->. unfold cost. rewrite Ht, Hav, Ha1. cbn. rewrite decide_True by done. destruct (decide (items r = [])); lia.
  - destruct (current_handled a r p Hok) as (r' & p' & Hh & Ht & Hav & Hc). exists r', p'. rewrite Hav. by split_and!.
Qed.

(** ** Runs of the system *)
Record config_ok (c : config) (r p : TimeQ.TimeSortedQueue) : Prop := {
  cg_actor : actor_ok (cf_actor c) r p;
  cg_tokens : status_ (cf_actor c) = RUNNING → cf_tokens c ≠ [];
  cg_conserved : cf_accepted c ≡ₚ promises r ++ promises p ++ cf_answered c;
  cg_distinct : NoDup (cf_accepted c);
  cg_named : Forall (λ n, (n < nextPromise_ (cf_actor c))%nat) (cf_accepted c);
}.

Lemma deliver_ok m toks c r p r' p' :
  config_ok c r p →
  handled (cf_actor c) r p (exec (run m) (cf_actor c)) (outs (run m) (cf_actor c)) r' p' →
  (status_ (exec (run m) (cf_actor c)) = RUNNING → toks ++ tokens_of (outs (run m) (cf_actor c)) ≠ []) →
  config_ok (deliver m toks c) r' p'.
Proof.
  intros [G1 G2 G3 G4 G5] [H1 H2 H3 H4] Ht. split; cbn; [done|done|..].
  - rewrite (assoc_L (++) (promises r') (promises p')), (Permutation_app_comm (cf_answered c)), (assoc_L (++) _ _ (cf_answered c)).
    rewrite <- (assoc_L (++) (promises r')), H2, G3. rewrite <- !(assoc_L (++)).
    do 2 apply Permutation_app_head. apply Permutation_app_comm.
  - destruct H4 as [->|(n & -> & Hn)]; [by rewrite app_nil_r|]. apply NoDup_app. split_and!; [done| |apply NoDup_singleton].
    intros k Hk Hk'. apply list_elem_of_singleton in Hk' as ->.
    pose proof (proj1 (Forall_forall _ _) G5 n Hk). cbn in *. lia.
  - apply Forall_app. split; [eapply Forall_impl; [exact G5|]; cbn; lia|].
    destruct H4 as [->|(n & -> & Hn)]; [constructor|]. repeat constructor. lia.
Qed.

Lemma sum_weight_app b l l' :
  sum_list (weight b <$> l ++ l') = (sum_list (weight b <$> l) + sum_list (weight b <$> l'))%nat.
Proof. by rewrite fmap_app, sum_list_with_app || (induction l; cbn; lia). Qed.
Lemma sum_weight_mono b b' l :
  (b' = true → b = true) → (sum_list (weight b' <$> l) ≤ sum_list (weight b <$> l))%nat.
Proof.
  intros Hb. induction l as [|t l IH]; [done|]. cbn.
  assert (weight b' t ≤ weight b t)%nat by (destruct t, b, b'; cbn; try lia; by specialize (Hb eq_refl)). lia.
Qed.

Lemma token_step_ok ok c c' r p :
  config_ok c r p → token_step ok c c' →
  ∃ r' p', config_ok c' r' p' ∧
    (ok = true → (cost (cf_actor c') (cf_tokens c') r' < cost (cf_actor c) (cf_tokens c) r)%nat).
Proof.
  intros Hc Hs. destruct Hs as [l1 t l2 Htk].
  destruct (token_handled t ok _ r p (cg_actor _ _ _ Hc)) as (r' & p' & Hh & Hst & Hav & Hcost).
  exists r', p'. split.
  - eapply deliver_ok; [done..|]. intros E. specialize (Hst E). by destruct (l1 ++ l2).
  - intros Hk. specialize (Hcost Hk). unfold cost in *. cbn in *. rewrite Htk, !sum_weight_app.
    cbn. pose proof (sum_weight_mono _ _ (l1 ++ l2) Hav) as Hm. rewrite !sum_weight_app in Hm. cbn in Hm. lia.
Qed.

Lemma step_ok c c' r p : config_ok c r p → step c c' → ∃ r' p', config_ok c' r' p'.
Proof.
  intros Hc [m Hadm|ok c2 Ht].
  - destruct (client_handled m _ r p (cg_actor _ _ _ Hc) Hadm) as (r' & p' & Hh & Hst). exists r', p'.
    eapply deliver_ok; [done..|]. intros E. destruct (Hst E) as [E'|Hne].
    + pose proof (cg_tokens _ _ _ Hc E'). by destruct (cf_tokens c).
    + by destruct (cf_tokens c).
  - destruct (token_step_ok _ _ _ _ _ Hc Ht) as (r' & p' & ? & _). by exists r', p'.
Qed.

Lemma start_ok policy : config_ok (start policy) (TimeQ.make maxPriority_) (TimeQ.make maxPriority_).
Proof.
  pose proof (make_sched_ok maxPriority_ policy) as Hs.
  assert (Hi : items (TimeQ.make maxPriority_) = []).
  { eapply queue_reports; [apply (so_r_ok _ _ _ Hs)|done]. }
  split; [|done| |constructor..].
  - by split.
  - cbn. unfold promises. by rewrite Hi.
Qed.

Lemma reachable_ok policy c : rtc step (start policy) c → ∃ r p, config_ok c r p.
Proof.
  revert c. apply (rtc_ind_r (λ c, ∃ r p, config_ok c r p) (start policy)).
  - eexists _, _. apply start_ok.
  - intros y z _ Hyz (r & p & Hy). by eapply step_ok.
Qed.


Lemma comes_to_rest c r p :
  config_ok c r p →
  ∃ c' r' p', rtc (token_step true) c c' ∧ config_ok c' r' p' ∧ cf_tokens c' = [].
Proof.
  remember (cost (cf_actor c) (cf_tokens c) r) as n eqn:En. revert c r p En.
  induction (lt_wf n) as [n _ IH]. intros c r p En Hc.
  destruct (cf_tokens c) as [|t l] eqn:Et; [by exists c, r, p|].
  assert (Hs : token_step true c (deliver (token_msg t true) ([] ++ l) c)) by by constructor.
  destruct (token_step_ok _ _ _ _ _ Hc Hs) as (r1 & p1 & Hc1 & Hlt). specialize (Hlt eq_refl).
  rewrite Et, <- En in Hlt. destruct (IH _ Hlt _ _ _ eq_refl Hc1) as (c' & r' & p' & Hrun & ? & ?).
  exists c', r', p'. split_and!; [|done|done]. by eapply rtc_l.
Qed.

Lemma cost_bound a toks r : (cost a toks r ≤ 10 * length toks + 1)%nat.
Proof.
  unfold cost. assert (sum_list (weight (isNewResourceAvailable_ a) <$> toks) ≤ 10 * length toks)%nat.
  { induction toks as [|t toks IH]; cbn; [lia|]. destruct t; cbn; destruct (isNewResourceAvailable_ a); lia. }
  case_match; lia.
Qed.

End system.

(** ** A concrete run: one request arrives and is placed. *)
Definition demo_codec : AffinityCodec := λ _, "".
Definition demo_schedule (id : string) : Msg :=
  MSchedule (Some (mkScheduleRequest
    (Some (mkInstanceInfo id id None (Some (mkScheduleOption "" 1 [] None [] 1)) ∅ ∅)) id)) 0.
Definition demo_arrived : config :=
  deliver (AC := demo_codec) (Env := demo_environment) true 3 PRE_ALLOCATION (demo_schedule "a")
    [] (start 3 Scheduler.FIFO).
Lemma demo_arrived_reachable :
  rtc (step (AC := demo_codec) (Env := demo_environment) true 3 PRE_ALLOCATION) (start 3 Scheduler.FIFO) demo_arrived.
Proof.
  apply rtc_once. unfold demo_arrived. constructor.
  cbn [admissible demo_schedule from_option sr_requestID start cf_actor].
  replace (queued_ids _) with (@nil string) by (vm_compute; reflexivity). set_solver.
Qed.


