(* ===== verification/AggProps.v ===== *)
(** * Properties of the aggregated queue

    Aggregation does not lose, double or (with the strict strategy) reorder
    requests: seen through the aggregated items, the queue is a sequence of
    requests per priority. *)

From S2P Require Import Prelude StdStrings SchedItems BaseQueue QueueProps AggQueue.
From stdpp Require Import base gmap strings list fin_maps pretty.
From Stdlib Require Import ZArith Lia.
Import AggQ.

Open Scope Z_scope.
Set Default Proof Using "Type".

(** ** The key determines the priority *)
Definition key_priority (key : string) : Z := default 0 ((λ s, scan_digits s 0) <$> substr 9 key).

Lemma pretty_go_app x s t : pretty_N_go x s +:+ t = pretty_N_go x (s +:+ t).
Proof.
  revert s. induction (N.lt_wf_0 x) as [x _ IH]. intros s.
  destruct (decide (x = 0)%N) as [->|Hx]; [by rewrite !pretty_N_go_0|].
  rewrite !(pretty_N_go_step x) by lia. rewrite IH by (apply N.div_lt; lia). done.
Qed.
Lemma scan_to_string z t : 0 ≤ z → scan_digits (to_string z +:+ ("_" +:+ t)) 0 = z.
Proof.
  intros Hz. unfold to_string. destruct z as [|p|p]; [done| |lia].
  change (pretty (Z.pos p)) with (pretty p). unfold pretty, pretty_positive, pretty, pretty_N.
  rewrite decide_False by done. rewrite pretty_go_app, scan_pretty_go. done.
Qed.
Lemma key_has_priority i key :
  GenerateAggregatedKey i = Some key → key ≠ "" → key_priority key = instance_priority i.
Proof.
  unfold GenerateAggregatedKey. destruct (in_scheduleReq i ≫= _) as [res|]; [|by intros [= <-]].
  case_bool_decide; [by intros [= <-]|].
  destruct (res !! CPU_RESOURCE_NAME) as [c|]; [|done]. destruct (res !! MEMORY_RESOURCE_NAME) as [m|]; [|done].
  cbn [mbind option_bind]. intros [= <-] _. unfold key_priority.
  change 9%nat with (String.length "priority:"). rewrite substr_app. cbn [fmap option_fmap option_map default from_option].
  apply scan_to_string. apply instance_priority_bounds.
Qed.

(** ** The requests of a deque *)
Definition expand (h : Heap) (x : QueueItem) : list QueueItem :=
  match x with
  | AggregatedItem_ ref => InstanceItem_ <$> from_option ag_reqQueue [] (h !! ref)
  | _ => [x]
  end.
Definition requests (h : Heap) (l : list QueueItem) : list QueueItem := l ≫= expand h.
Definition requests_at (h : Heap) (q : AggregatedQueue) (p : Z) : list QueueItem :=
  requests h (default [] (aggregatedReqs q !! p)).

Definition refs (l : list QueueItem) : list nat :=
  omap (λ x, match x with AggregatedItem_ ref => Some ref | _ => None end) l.

Lemma refs_app l k : refs (l ++ k) = refs l ++ refs k.
Proof. apply omap_app. Qed.
Lemma elem_of_refs ref l : ref ∈ refs l ↔ AggregatedItem_ ref ∈ l.
Proof.
  unfold refs. rewrite list_elem_of_omap. split.
  - intros (x & Hx & E). destruct x; naive_solver.
  - intros H. by eexists.
Qed.

(** Heaps that agree on the objects of a deque give it the same requests. *)
Lemma requests_agree h h' l :
  (∀ ref, ref ∈ refs l → h !! ref = h' !! ref) → requests h l = requests h' l.
Proof.
  induction l as [|x l IH]; intros H; [done|]. unfold requests in *. cbn. f_equal.
  - destruct x as [| |ref]; cbn; [done..|]. rewrite H; [done|]. apply elem_of_refs. left.
  - apply IH. intros ref Hr. apply H. apply elem_of_refs. right. by apply elem_of_refs.
Qed.

(** ** The invariant *)
Definition item_fits (h : Heap) (p : Z) (x : QueueItem) : Prop :=
  match x with
  | AggregatedItem_ ref => ∃ a, h !! ref = Some a ∧ key_priority (ag_aggregatedKey a) = p
  | _ => GetPriority h x = p
  end.
Record agg_ok (h : Heap) (q : AggregatedQueue) : Prop := {
  aq_levels : ∀ p l, aggregatedReqs q !! p = Some l → l ≠ [] ∧ 0 ≤ p ≤ maxPriority_ q ∧ Forall (item_fits h p) l;
  aq_nodup : ∀ p l, aggregatedReqs q !! p = Some l → NoDup (refs l);
  aq_apart : ∀ p p' l l', aggregatedReqs q !! p = Some l → aggregatedReqs q !! p' = Some l' → p ≠ p' →
    refs l ## refs l';
  aq_size : queueSize_ q = Z.of_nat (length (level_items (BaseQueue.levels (maxPriority_ q)) (aggregatedReqs q)));
  aq_index : ∀ key ref, aggregatedItemIndex q !! key = Some ref →
    ∃ p l a, aggregatedReqs q !! p = Some l ∧ AggregatedItem_ ref ∈ l ∧ h !! ref = Some a ∧ ag_aggregatedKey a = key;
  aq_front : ∀ x, frontItem_ q = Some x → ∃ l, aggregatedReqs q !! frontPriority_ q = Some (x :: l);
  aq_plain : strategy_ q ≠ RELAXED_AGGREGATE_STRATEGY → aggregatedItemIndex q = ∅;
}.

Lemma item_fits_mono h h' p x :
  (∀ ref a, h !! ref = Some a → ∃ a', h' !! ref = Some a' ∧ ag_aggregatedKey a' = ag_aggregatedKey a) →
  item_fits h p x → item_fits h' p x.
Proof.
  intros Hh. destruct x as [| |ref]; cbn; [done..|]. intros (a & Ha & Hk).
  destruct (Hh ref a Ha) as (a' & Ha' & Ek). exists a'. by rewrite Ek.
Qed.

Lemma refs_in_heap h q p l ref :
  agg_ok h q → aggregatedReqs q !! p = Some l → ref ∈ refs l → is_Some (h !! ref).
Proof.
  intros Hok Hl Hr. apply elem_of_refs in Hr. destruct (aq_levels _ _ Hok _ _ Hl) as (_ & _ & Hf).
  destruct (proj1 (Forall_forall _ _) Hf _ Hr) as (a & Ha & _). by eexists.
Qed.

(** A heap with more objects, or with more requests in them. *)
Definition extends (h h' : Heap) : Prop :=
  ∀ ref a, h !! ref = Some a → ∃ a', h' !! ref = Some a' ∧ ag_aggregatedKey a' = ag_aggregatedKey a.

Lemma extends_sub h h' : h ⊆ h' → extends h h'.
Proof. intros Hs ref a Ha. exists a. split; [|done]. by eapply lookup_weaken. Qed.
Lemma extends_append ref i h : extends h (append_request ref i h).
Proof.
  intros ref' a Ha. unfold append_request. destruct (decide (ref' = ref)) as [->|Hne].
  - rewrite lookup_alter_eq, Ha. by eexists.
  - rewrite lookup_alter_ne by done. by exists a.
Qed.

Lemma fits_extends h h' p l : extends h h' → Forall (item_fits h p) l → Forall (item_fits h' p) l.
Proof. intros Hh Hl. eapply Forall_impl; [exact Hl|]. intros x. by apply item_fits_mono. Qed.

(** The invariant does not look at the requests inside the objects. *)
Lemma agg_ok_extends h h' q : extends h h' → agg_ok h q → agg_ok h' q.
Proof.
  intros Hh [H1 H2 H3 H4 H5 H6 H7]. split; [|done|done|done| |done|done].
  - intros p l Hl. destruct (H1 _ _ Hl) as (? & ? & ?). split_and!; [done|lia|lia|]. by eapply fits_extends.
  - intros key ref Hix. destruct (H5 _ _ Hix) as (p & l & a & ? & ? & Ha & <-).
    destruct (Hh _ _ Ha) as (a' & ? & ?). by exists p, l, a'.
Qed.

(** The deque of a priority, also when it has no entry. *)
Definition deque (q : AggregatedQueue) (p : Z) : list QueueItem := default [] (aggregatedReqs q !! p).

Lemma deque_ok h q p :
  agg_ok h q →
  Forall (item_fits h p) (deque q p) ∧ NoDup (refs (deque q p)) ∧
  (∀ ref, ref ∈ refs (deque q p) → is_Some (h !! ref)) ∧
  (∀ p', p' ≠ p → refs (deque q p) ## refs (deque q p')).
Proof.
  intros Hok. pose proof Hok as [H1 H2 H3 _ _ _ _]. unfold deque. destruct (aggregatedReqs q !! p) as [l|] eqn:El; cbn.
  - unfold Datatypes.id. split_and!.
    + by destruct (H1 _ _ El) as (_ & _ & Hf).
    + by eapply H2.
    + intros ref. by eapply refs_in_heap.
    + intros p' Hne. destruct (aggregatedReqs q !! p') as [l'|] eqn:El'; cbn; [by eapply H3|].
      by intros ref _ ?%not_elem_of_nil.
  - split_and!; [constructor|constructor|by intros ref ?%not_elem_of_nil|]. by intros p' _ ref ?%not_elem_of_nil.
Qed.

Lemma deque_push q p x p' :
  deque (push_back p x q) p' = deque q p' ++ (if decide (p' = p) then [x] else []).
Proof.
  unfold deque. cbn. case_decide as E; [subst p'; by rewrite lookup_insert_eq|].
  by rewrite lookup_insert_ne, app_nil_r by done.
Qed.

(** Adding an item whose object, if it has one, is new. *)
Lemma push_ok h q p x :
  agg_ok h q → 0 ≤ p ≤ maxPriority_ q → item_fits h p x →
  (∀ ref p', x = AggregatedItem_ ref → ref ∉ refs (deque q p')) →
  agg_ok h (push_back p x q).
Proof.
  intros Hok Hp Hx Hfresh. pose proof Hok as [H1 H2 H3 H4 H5 H6 H7]. destruct (deque_ok h q p Hok) as (F1 & F2 & F3 & F4).
  assert (Hrx : ∀ ref p', ref ∈ refs [x] → ref ∉ refs (deque q p')).
  { intros ref p' Hr. apply elem_of_refs, list_elem_of_singleton in Hr. by apply Hfresh. }
  assert (Hap : ∀ p' l', aggregatedReqs q !! p' = Some l' → p' ≠ p → refs (deque q p ++ [x]) ## refs l').
  { intros p' l' Hl' Hne ref. assert (l' = deque q p') as -> by (unfold deque; by rewrite Hl').
    rewrite refs_app, elem_of_app. intros [Hr|Hr]; [by apply F4|by apply Hrx]. }
  split; cbn; fold (deque q p).
  - intros p' l. destruct (decide (p' = p)) as [->|Hne]; [rewrite lookup_insert_eq|rewrite lookup_insert_ne by done; apply H1].
    intros [= <-]. split_and!; [by destruct (deque q p)|lia|lia|]. apply Forall_app. split; [done|by constructor].
  - intros p' l. destruct (decide (p' = p)) as [->|Hne]; [rewrite lookup_insert_eq|rewrite lookup_insert_ne by done; apply H2].
    intros [= <-]. rewrite refs_app. apply NoDup_app. split_and!; [done|by intros ref Hr Hr'%(Hrx ref p)|].
    destruct x; cbn; [constructor..|apply NoDup_singleton].
  - intros p1 p2 l1 l2. destruct (decide (p1 = p)) as [->|Hn1], (decide (p2 = p)) as [->|Hn2];
      rewrite ?lookup_insert_eq, ?lookup_insert_ne by done; [done|..|by apply H3].
    + intros [= <-] Hl2 _. by eapply Hap.
    + intros Hl1 [= <-] _ ref Hr Hr'. by apply (Hap _ _ Hl1 Hn1 ref).
  - rewrite (level_items_update _ _ _ _ [x]); [cbn; lia|unfold BaseQueue.levels; lia|]. by rewrite Permutation_app_comm.
  - intros key ref Hix. destruct (H5 _ _ Hix) as (p' & l & a & Hl & Hin & Ha & Hk).
    destruct (decide (p' = p)) as [->|Hne]; [|exists p', l, a; by rewrite lookup_insert_ne].
    exists p, (deque q p ++ [x]), a. rewrite lookup_insert_eq. split_and!; [done| |done|done].
    apply elem_of_app. left. unfold deque. by rewrite Hl.
  - intros y Hy. destruct (H6 y Hy) as (l & Hl). destruct (decide (frontPriority_ q = p)) as [E|Hne].
    + rewrite E, lookup_insert_eq. exists (l ++ [x]). unfold deque. by rewrite <- E, Hl.
    + exists l. by rewrite lookup_insert_ne.
  - done.
Qed.

(** ** Requests under the changes of the heap *)
Lemma requests_app h l k : requests h (l ++ k) = requests h l ++ requests h k.
Proof. apply bind_app. Qed.

Lemma requests_append_other h ref i l : ref ∉ refs l → requests (append_request ref i h) l = requests h l.
Proof.
  intros Hn. apply requests_agree. intros ref' Hr. unfold append_request. rewrite lookup_alter_ne; [done|].
  by intros ->.
Qed.
Lemma expand_append h ref i a :
  h !! ref = Some a → expand (append_request ref i h) (AggregatedItem_ ref) = expand h (AggregatedItem_ ref) ++ [InstanceItem_ i].
Proof. intros Ha. cbn. unfold append_request. rewrite lookup_alter_eq, Ha. cbn. by rewrite fmap_app. Qed.

Lemma requests_append h ref i a l1 l2 :
  h !! ref = Some a → NoDup (refs (l1 ++ AggregatedItem_ ref :: l2)) →
  requests (append_request ref i h) (l1 ++ AggregatedItem_ ref :: l2) =
  requests h (l1 ++ [AggregatedItem_ ref]) ++ InstanceItem_ i :: requests h l2.
Proof.
  intros Ha Hnd. rewrite refs_app in Hnd. apply NoDup_app in Hnd as (_ & Hd & Hnd2). cbn in Hd, Hnd2.
  apply NoDup_cons in Hnd2 as [Hn2 _]. rewrite !requests_app. cbn [requests mbind list_bind].
  change (requests (append_request ref i h) l1 ++ expand (append_request ref i h) (AggregatedItem_ ref) ++
    requests (append_request ref i h) l2 = (requests h l1 ++ expand h (AggregatedItem_ ref) ++ []) ++
    InstanceItem_ i :: requests h l2).
  rewrite (expand_append h ref i a Ha), !requests_append_other; [|done|].
  - rewrite app_nil_r, <- !app_assoc. done.
  - intros Hr. apply (Hd ref Hr). left.
Qed.

(** ** Entering requests *)
(** [(h', q')] holds one request more than [(h, q)], at the back of the
    priority [p] when [exact], and somewhere in it otherwise. *)
Record entered (exact : bool) (x : QueueItem) (p : Z) (h : Heap) (q : AggregatedQueue) (h' : Heap) (q' : AggregatedQueue)
    : Prop := {
  en_ok : agg_ok h' q';
  en_perm : ∀ p', requests_at h' q' p' ≡ₚ requests_at h q p' ++ (if decide (p' = p) then [x] else []);
  en_order : exact = true → ∀ p', requests_at h' q' p' = requests_at h q p' ++ (if decide (p' = p) then [x] else []);
  en_same : maxPriority_ q' = maxPriority_ q ∧ strategy_ q' = strategy_ q;
}.

Lemma entered_exact exact x p h q h' q' :
  agg_ok h' q' → (∀ p', requests_at h' q' p' = requests_at h q p' ++ (if decide (p' = p) then [x] else [])) →
  maxPriority_ q' = maxPriority_ q → strategy_ q' = strategy_ q → entered exact x p h q h' q'.
Proof. intros H1 H2 H3 H4. split; [done|intros p'; by rewrite H2|done|done]. Qed.

(** A request that is not aggregated. *)
Lemma push_single exact h q x p :
  agg_ok h q → 0 ≤ p ≤ maxPriority_ q → item_fits h p x → (∀ ref, x ≠ AggregatedItem_ ref) →
  entered exact x p h q h (push_back p x q).
Proof.
  intros Hok Hp Hx Hs. apply entered_exact; [|intros p'|done..].
  - apply push_ok; [done..|]. intros ref p' E. by apply Hs in E.
  - unfold requests_at. fold (deque (push_back p x q) p') (deque q p'). rewrite deque_push, requests_app. f_equal.
    case_decide; [|done]. destruct x; [done..|]. by destruct (Hs ref).
Qed.

(** A request in an aggregated item of its own. *)
Lemma push_new exact h q key i p :
  agg_ok h q → 0 ≤ p ≤ maxPriority_ q → key_priority key = p →
  let r := new_item h key i in
  entered exact (InstanceItem_ i) p h q r.2 (push_back p (AggregatedItem_ r.1) q) ∧
  r.2 !! r.1 = Some (mkAggregatedItem key [i]).
Proof.
  intros Hok Hp Hk r. assert (Hr : h !! r.1 = None) by (apply not_elem_of_dom; apply is_fresh).
  assert (Hl : r.2 !! r.1 = Some (mkAggregatedItem key [i])) by apply lookup_insert_eq.
  assert (Hsub : h ⊆ r.2) by by apply insert_subseteq.
  assert (Hnot : ∀ p', r.1 ∉ refs (deque q p')).
  { intros p' Hin. destruct (deque_ok h q p' Hok) as (_ & _ & Hdom & _). destruct (Hdom _ Hin). congruence. }
  clearbody r. split; [|done]. apply entered_exact; [|intros p'|done..].
  - apply push_ok; [by eapply agg_ok_extends; [apply extends_sub|]|done|by eexists|]. intros ref p' [= <-]. apply Hnot.
  - unfold requests_at. fold (deque (push_back p (AggregatedItem_ r.1) q) p') (deque q p'). rewrite deque_push, requests_app. f_equal.
    + apply requests_agree. intros ref Hin. destruct (deque_ok h q p' Hok) as (_ & _ & Hdom & _).
      destruct (Hdom ref Hin) as [a Ha]. rewrite Ha. by eapply lookup_weaken.
    + case_decide; [|done]. unfold requests. cbn. by rewrite Hl.
Qed.

(** A request put into an existing item. *)
Lemma append_entered exact h q ref a i p l1 l2 :
  agg_ok h q → deque q p = l1 ++ AggregatedItem_ ref :: l2 → h !! ref = Some a →
  (exact = true → l2 = []) →
  entered exact (InstanceItem_ i) p h q (append_request ref i h) q.
Proof.
  intros Hok Hd Ha Hex. destruct (deque_ok h q p Hok) as (_ & Hnd & _ & Hap). rewrite Hd in Hnd.
  assert (Hoth : ∀ p', p' ≠ p → requests_at (append_request ref i h) q p' = requests_at h q p').
  { intros p' Hne. unfold requests_at. fold (deque q p'). apply requests_append_other. intros Hr.
    apply (Hap p' Hne ref); [|done]. rewrite Hd. apply elem_of_refs. set_solver. }
  assert (Hhere : requests_at (append_request ref i h) q p =
    requests h (l1 ++ [AggregatedItem_ ref]) ++ InstanceItem_ i :: requests h l2).
  { unfold requests_at. fold (deque q p). rewrite Hd. by apply (requests_append h ref i a). }
  assert (Horig : requests_at h q p = requests h (l1 ++ [AggregatedItem_ ref]) ++ requests h l2).
  { unfold requests_at. fold (deque q p). by rewrite Hd, cons_middle, app_assoc, requests_app. }
  split; [by eapply agg_ok_extends; [apply extends_append|]| | |done].
  - intros p'. case_decide as E; [subst p'|by rewrite Hoth, app_nil_r]. rewrite Hhere, Horig.
    rewrite <- app_assoc. apply Permutation_app_head, Permutation_cons_append.
  - intros He p'. case_decide as E; [subst p'|by rewrite Hoth, app_nil_r]. rewrite Hhere, Horig, (Hex He). cbn.
    by rewrite app_nil_r.
Qed.

(** [aggregatedItemIndex] may get the new object. *)
Lemma entered_index exact x p h q h' q' key ref a :
  entered exact x p h q h' q' → strategy_ q' = RELAXED_AGGREGATE_STRATEGY → AggregatedItem_ ref ∈ deque q' p → h' !! ref = Some a → ag_aggregatedKey a = key →
  entered exact x p h q h' (set_itemIndex (<[key := ref]> (aggregatedItemIndex q')) q').
Proof.
  intros [[H1 H2 H3 H4 H5 H6 H7] Hp Ho Hs] Hst Hin Ha Hk. split; [|done..]. split; [done|done|done|done| |done|done].
  intros key' ref'. cbn. destruct (decide (key' = key)) as [->|Hne].
  - rewrite lookup_insert_eq. intros [= <-]. unfold deque in Hin.
    destruct (aggregatedReqs q' !! p) as [l|] eqn:El; [|by apply not_elem_of_nil in Hin]. by exists p, l, a.
  - rewrite lookup_insert_ne by done. apply H5.
Qed.

Lemma aggregate_ok key i h q :
  agg_ok h q → strategy_ q = STRICTLY_AGGREGATE_STRATEGY ∨ strategy_ q = RELAXED_AGGREGATE_STRATEGY →
  GenerateAggregatedKey i = Some key → key ≠ "" → instance_priority i ≤ maxPriority_ q →
  let r := aggregate key i h q in
  entered (bool_decide (strategy_ q = STRICTLY_AGGREGATE_STRATEGY)) (InstanceItem_ i) (instance_priority i) h q r.1 r.2.
Proof.
  intros Hok Hst Hkey Hne Hmax r. subst r. pose proof (key_has_priority i key Hkey Hne) as Hkp.
  pose proof (instance_priority_bounds i) as Hb. unfold aggregate.
  destruct (push_new (bool_decide (strategy_ q = STRICTLY_AGGREGATE_STRATEGY)) h q key i (instance_priority i) Hok)
    as [Hnew Hlook]; [lia|done|]. set (fr := new_item h key i) in *.
  case_bool_decide as Hs.
  - destruct (aggregatedReqs q !! instance_priority i ≫= (λ l, last l)) as [x|] eqn:El; [|exact Hnew].
    destruct x as [| |ref]; [exact Hnew..|]. case_bool_decide as Hk; [|exact Hnew].
    apply fmap_Some in Hk as (a & Ha & _). destruct (aggregatedReqs q !! instance_priority i) as [l|] eqn:Ell; [|done].
    cbn in El. apply last_Some in El as [l1 ->].
    eapply (append_entered _ h q ref a i _ l1 []); [done| |done|done]. unfold deque. by rewrite Ell.
  - destruct Hst as [?|Hst]; [done|]. rewrite bool_decide_true by done.
    destruct (aggregatedItemIndex q !! key) as [ref|] eqn:Eix.
    + destruct (aq_index _ _ Hok _ _ Eix) as (p & l & a & Hl & Hin & Ha & Hka).
      destruct (aq_levels _ _ Hok _ _ Hl) as (_ & _ & Hf).
      destruct (proj1 (Forall_forall _ _) Hf _ Hin) as (a' & Ha' & Hp).
      assert (p = instance_priority i) as -> by congruence.
      apply list_elem_of_split in Hin as (l1 & l2 & ->).
      eapply (append_entered _ h q ref a i _ l1 l2); [done| |done|done]. unfold deque. by rewrite Hl.
    + cbn [fst snd]. eapply (entered_index _ _ _ _ _ _ (push_back _ _ q)); [exact Hnew|done| |exact Hlook|done].
      rewrite deque_push, decide_True by done. set_solver.
Qed.

(** ** Taking requests *)
Lemma find_front_spec n m :
  (∀ p l, m !! p = Some l → l ≠ []) →
  match find_front n m with
  | None => level_items n m = []
  | Some (p, x) => ∃ y l, x = Some y ∧ m !! p = Some (y :: l) ∧ 0 ≤ p < Z.of_nat n ∧
                   ∀ p', p < p' < Z.of_nat n → m !! p' = None
  end.
Proof.
  intros Hm. induction n as [|k IH]; [done|]. cbn [find_front level_items].
  destruct (m !! Z.of_nat k) as [[|y l]|] eqn:E; [by apply Hm in E| |].
  - exists y, l. split_and!; [done|done|lia|lia|]. intros p' Hp'. lia.
  - destruct (find_front k m) as [[p x]|]; [|done]. destruct IH as (y & l & ? & ? & ? & Hnone).
    exists y, l. split_and!; [done|done|lia|lia|]. intros p' Hp'.
    destruct (decide (p' = Z.of_nat k)) as [->|]; [done|]. apply Hnone. lia.
Qed.

Lemma Front_ok h q :
  agg_ok h q → CheckIsQueueEmpty q = false →
  ∃ x p l, Front q = (Some x, set_front (Some x) p q) ∧ aggregatedReqs q !! p = Some (x :: l) ∧
    (∀ p', p < p' → requests_at h q p' = []) ∧ agg_ok h (set_front (Some x) p q).
Proof.
  intros Hok He. pose proof Hok as [H1 H2 H3 H4 H5 H6 H7]. unfold Front. rewrite He.
  pose proof (find_front_spec (levels q) (aggregatedReqs q)) as Hf. unfold levels in *.
  destruct (find_front _ _) as [[p y]|].
  - destruct Hf as (x & l & -> & Hl & Hp & Hnone); [intros p' l' Hl'; by destruct (H1 _ _ Hl')|].
    exists x, p, l. split_and!; [done|done| |].
    + intros p' Hp'. unfold requests_at. destruct (aggregatedReqs q !! p') as [l'|] eqn:E; [|done].
      destruct (H1 _ _ E) as (_ & Hb & _). rewrite Hnone in E; [done|]. lia.
    + split; cbn; [done..| |done]. intros x' [= <-]. by exists l.
  - exfalso. unfold CheckIsQueueEmpty in He. apply Z.eqb_neq in He. rewrite H4 in He. unfold BaseQueue.levels in He.
    rewrite Hf in He; [done|]. intros p' l' Hl'. by destruct (H1 _ _ Hl').
Qed.

Lemma refs_cons_sub x l : refs l ⊆ refs (x :: l).
Proof. intros ref. rewrite !elem_of_refs. by right. Qed.

(** Removing the front item, which the index does not name any more. *)
Lemma pop_front_ok h q x l :
  agg_ok h q → aggregatedReqs q !! frontPriority_ q = Some (x :: l) →
  (∀ key ref, x = AggregatedItem_ ref → aggregatedItemIndex q !! key ≠ Some ref) →
  let q' := (pop_front h q).2 in
  agg_ok h q' ∧
  ∀ p, requests_at h q p = (if decide (p = frontPriority_ q) then expand h x else []) ++ requests_at h q' p.
Proof.
  intros [H1 H2 H3 H4 H5 H6 H7] Hl Hix q'. set (fp := frontPriority_ q) in *.
  assert (Hq' : ∀ p, aggregatedReqs q' !! p =
    if decide (p = fp) then (if decide (l = []) then None else Some l) else aggregatedReqs q !! p).
  { intros p. unfold q', pop_front. cbn. fold fp. rewrite Hl. cbn [default from_option tail]. unfold Datatypes.id. cbn [tail].
    case_bool_decide as E; case_decide as Ep; subst; rewrite ?lookup_delete_eq, ?lookup_delete_ne, ?lookup_insert_eq, ?lookup_insert_ne by done;
      by rewrite ?decide_True, ?decide_False by done. }
  assert (Hcase : ∀ p k, aggregatedReqs q' !! p = Some k →
    (p = fp ∧ k = l ∧ l ≠ []) ∨ (p ≠ fp ∧ aggregatedReqs q !! p = Some k)).
  { intros p k. rewrite Hq'. repeat case_decide; naive_solver. }
  destruct (H1 _ _ Hl) as (_ & Hb & Hfit). inversion Hfit as [|? ? Hfx Hfl]; subst.
  split; [split; cbn|].
  - intros p k [(-> & -> & ?)|[? Hk]]%Hcase; [split_and!; [done|lia|lia|done]|by apply H1].
  - intros p k [(-> & -> & ?)|[? Hk]]%Hcase; [|by eapply H2]. specialize (H2 _ _ Hl).
    destruct x; [exact H2..|]. cbn in H2. by apply NoDup_cons in H2 as [_ ?].
  - intros p p' k k' [(-> & -> & ?)|[? Hk]]%Hcase [(-> & -> & ?)|[? Hk']]%Hcase Hne; [done|..|by eapply H3].
    + intros ref Hr Hr'. apply (H3 _ _ _ _ Hl Hk' Hne ref); [by apply refs_cons_sub|done].
    + intros ref Hr Hr'. apply (H3 _ _ _ _ Hk Hl Hne ref); [done|by apply refs_cons_sub].
  - rewrite H4. assert (level_items (BaseQueue.levels (maxPriority_ q)) (aggregatedReqs q) ≡ₚ
      [x] ++ level_items (BaseQueue.levels (maxPriority_ q)) (aggregatedReqs q')) as ->; [|rewrite length_app; cbn; lia].
    rewrite <- (level_items_update _ (aggregatedReqs q') fp (x :: l)).
    + by rewrite (level_items_same _ (aggregatedReqs q) (<[fp := x :: l]> (aggregatedReqs q'))) by
        (intros p _; destruct (decide (p = fp)) as [->|]; [by rewrite lookup_insert_eq, Hl|
         rewrite lookup_insert_ne by done; by rewrite Hq', decide_False]).
    + unfold BaseQueue.levels. lia.
    + rewrite Hq', decide_True by done. by case_decide as E; [rewrite E|].
  - intros key ref Hk. destruct (H5 _ _ Hk) as (p & k & a & Hp & Hin & Ha & Hka).
    destruct (decide (p = fp)) as [->|Hne].
    + rewrite Hl in Hp. injection Hp as <-. apply elem_of_cons in Hin as [E|Hin]; [by destruct (Hix key ref (eq_sym E))|].
      exists fp, l, a. rewrite Hq', decide_True by done. rewrite decide_False; [done|]. by intros ->; apply not_elem_of_nil in Hin.
    + exists p, k, a. by rewrite Hq', decide_False.
  - done.
  - done.
  - intros p. unfold requests_at. rewrite Hq'. destruct (decide (p = fp)) as [->|E]; [|done]. rewrite Hl.
    change (expand h x ++ requests h l =
      expand h x ++ requests h (default [] (if decide (l = []) then None else Some l))). by destruct l.
Qed.

Lemma set_index_ok h q ix :
  agg_ok h q → ix ⊆ aggregatedItemIndex q → strategy_ q = RELAXED_AGGREGATE_STRATEGY → agg_ok h (set_itemIndex ix q).
Proof.
  intros [H1 H2 H3 H4 H5 H6 H7] Hs Hst. split; cbn; [done..| |done|done].
  intros key ref Hk. apply H5. by eapply lookup_weaken.
Qed.

(** Dequeueing the item [Front] showed. *)
Lemma agg_Dequeue_ok h q x :
  agg_ok h q → CheckIsQueueEmpty q = false → frontItem_ q = Some x →
  (∃ ref a, x = AggregatedItem_ ref ∧ h !! ref = Some a ∧ ag_reqQueue a ≠ [] ∧
     Dequeue h q = Some (mkStatus FAILED "aggregateItem.reqQueue is not empty", q)) ∨
  (∃ q', Dequeue h q = Some (StatusOK, q') ∧ agg_ok h q' ∧
     (∀ ref, x = AggregatedItem_ ref → expand h x = []) ∧
     ∀ p, requests_at h q p = (if decide (p = frontPriority_ q) then expand h x else []) ++ requests_at h q' p).
Proof.
  intros Hok He Hx. destruct (aq_front _ _ Hok _ Hx) as [l Hl]. unfold Dequeue. rewrite He, Hx.
  cbn beta iota zeta. rewrite ?Hx. cbn [mbind option_bind].
  assert (Hsingle : (∀ ref, x ≠ AggregatedItem_ ref) → ∃ q', Some (pop_front h q) = Some (StatusOK, q') ∧ agg_ok h q' ∧
    (∀ ref, x = AggregatedItem_ ref → expand h x = []) ∧
    ∀ p, requests_at h q p = (if decide (p = frontPriority_ q) then expand h x else []) ++ requests_at h q' p).
  { intros Hs. destruct (pop_front_ok h q x l Hok Hl) as [H1 H2]; [by intros key ref E%Hs|].
    eexists. split_and!; [done|exact H1| |exact H2]. by intros ref E%Hs. }
  destruct x as [i|g|ref]; [right; by apply Hsingle..|]. clear Hsingle.
  destruct (aq_levels _ _ Hok _ _ Hl) as (_ & _ & Hf). inversion Hf as [|? ? Hfx _]; subst.
  destruct Hfx as (a & Ha & _). rewrite Ha. cbn [mbind option_bind]. case_bool_decide as Er; cbn [negb].
  2: { left. by exists ref, a. }
  right. set (q1 := if bool_decide _ then _ else q).
  assert (Hq1 : agg_ok h q1 ∧ aggregatedReqs q1 = aggregatedReqs q ∧ frontPriority_ q1 = frontPriority_ q ∧
    ∀ key, aggregatedItemIndex q1 !! key ≠ Some ref).
  { unfold q1. case_bool_decide as Hst.
    - split_and!; [apply set_index_ok; [done|apply delete_subseteq|done]|done|done|]. cbn. intros key Hk.
      apply lookup_delete_Some in Hk as [Hne Hk]. destruct (aq_index _ _ Hok _ _ Hk) as (? & ? & a' & _ & _ & Ha' & Hk').
      congruence.
    - split_and!; [done..|]. intros key. by rewrite (aq_plain _ _ Hok Hst). }
  destruct Hq1 as (Hok1 & Er1 & Ef1 & Hix). rewrite <- Ef1, <- Er1 in Hl.
  destruct (pop_front_ok h q1 _ l Hok1 Hl) as [H1 H2]; [intros key r [= ->]; apply Hix|].
  eexists. split_and!; [done|exact H1|intros _ _; cbn; by rewrite Ha; cbn; rewrite Er|].
  intros p. specialize (H2 p). rewrite Ef1 in H2. unfold requests_at at 1. rewrite <- Er1. exact H2.
Qed.

(** A request the queue can take: a valid id and priority, and resources if it
    is to be aggregated. *)
Definition acceptable (h : Heap) (q : AggregatedQueue) (x : QueueItem) : Prop :=
  IsError (CheckItemValid h (Some x) q) = false ∧
  match x with
  | InstanceItem_ i => is_Some (in_scheduleReq i) ∧
      (IsItemNeedAggregate x = Some true → ∃ key, GenerateAggregatedKey i = Some key ∧ key ≠ "")
  | GroupItem_ _ => True
  | AggregatedItem_ _ => False
  end.

Lemma agg_Enqueue_ok h q x :
  agg_ok h q → strategy_ q = STRICTLY_AGGREGATE_STRATEGY ∨ strategy_ q = RELAXED_AGGREGATE_STRATEGY →
  acceptable h q x →
  ∃ h' q', Enqueue (Some x) h q = Some (StatusOK, h', q') ∧
    entered (bool_decide (strategy_ q = STRICTLY_AGGREGATE_STRATEGY)) x (GetPriority h x) h q h' q'.
Proof.
  intros Hok Hst [Hv Hx]. unfold Enqueue. rewrite Hv.
  assert (Hp : 0 ≤ GetPriority h x ≤ maxPriority_ q).
  { pose proof (GetPriority_bounds h x). unfold CheckItemValid in Hv. case_bool_decide; [done|].
    destruct (Z.ltb_spec (maxPriority_ q) (GetPriority h x)); [done|lia]. }
  destruct x as [i|g|]; [| |done].
  - destruct Hx as [[req Hreq] Hkey]. cbn [IsItemNeedAggregate] in *. rewrite Hreq in *. cbn [mbind option_bind] in *.
    destruct (negb (NeedCreateAgentInDomain (instance req) 0)).
    + destruct (Hkey eq_refl) as (key & Hk & Hne). rewrite Hk. cbn [mbind option_bind]. rewrite bool_decide_false by done.
      eexists _, _. split; [done|]. apply aggregate_ok; [done..|]. cbn in Hp. lia.
    + eexists _, _. split; [done|]. by apply push_single.
  - eexists _, _. split; [done|]. by apply push_single.
Qed.


Lemma make_agg_ok maxPriority strategy : agg_ok ∅ (make maxPriority strategy).
Proof.
  split; cbn; [by intros p l ?%lookup_empty_Some|by intros p l ?%lookup_empty_Some|by intros p p' l l' ?%lookup_empty_Some|
    |by intros ? ? ?%lookup_empty_Some|done|done].
  induction (BaseQueue.levels maxPriority) as [|k IH]; [done|]. cbn. by rewrite lookup_empty.
Qed.

Definition demo_aggregated (id : string) : QueueItem :=
  InstanceItem_ (mkInstanceItem (Some (mkScheduleRequest
    (Some (mkInstanceInfo id id (Some {[CPU_RESOURCE_NAME := "500"; MEMORY_RESOURCE_NAME := "512"]})
       (Some (mkScheduleOption "" 1 [] None [] 1)) ∅ ∅)) id)) 0 0 false).


(** With any other strategy a request that would be aggregated is dropped,
    and the caller is told that it was queued. *)
Theorem unknown_strategy_drops h q i req key :
  strategy_ q ≠ STRICTLY_AGGREGATE_STRATEGY → strategy_ q ≠ RELAXED_AGGREGATE_STRATEGY →
  IsError (CheckItemValid h (Some (InstanceItem_ i)) q) = false → in_scheduleReq i = Some req →
  NeedCreateAgentInDomain (instance req) 0 = false → GenerateAggregatedKey i = Some key → key ≠ "" →
  Enqueue (Some (InstanceItem_ i)) h q = Some (StatusOK, h, q).
Proof.
  intros H1 H2 Hv Hr Hn Hk Hne. unfold Enqueue. rewrite Hv. cbn [IsItemNeedAggregate]. rewrite Hr. cbn [mbind option_bind].
  rewrite Hn. cbn [negb]. rewrite Hk. cbn [mbind option_bind]. rewrite bool_decide_false by done.
  unfold aggregate. by rewrite !bool_decide_false.
Qed.

(** A request without CPU or memory among its resources makes the code read
    through the end iterator. *)
Theorem missing_cpu_undefined h q i req info res :
  IsError (CheckItemValid h (Some (InstanceItem_ i)) q) = false →
  in_scheduleReq i = Some req → sr_instance req = Some info → ii_resources info = Some res → res ≠ ∅ →
  res !! CPU_RESOURCE_NAME = None → NeedCreateAgentInDomain info 0 = false →
  Enqueue (Some (InstanceItem_ i)) h q = None.
Proof.
  intros Hv Hr Hi Hres Hne Hc Hn. unfold Enqueue. rewrite Hv. cbn [IsItemNeedAggregate]. rewrite Hr. cbn [mbind option_bind].
  unfold instance. rewrite Hi. cbn [default from_option]. unfold Datatypes.id. rewrite Hn. cbn [negb].
  unfold GenerateAggregatedKey. rewrite Hr. cbn [mbind option_bind]. rewrite Hi. cbn [mbind option_bind]. rewrite Hres.
  rewrite bool_decide_false by done. by rewrite Hc.
Qed.
