(* ===== verification/Lru.v ===== *)
(** * The least-recently-used cache

    [common/lru/lru_cache.h]: a linked list of entries, most recent first,
    and an index of list iterators.  The reference is a list of bindings; the
    cache behaves like it in every sequence of operations.
    [common/lru/thread_safe_lru_cache.h] holds a mutex during each of these
    operations, so its runs are sequences of them. *)

From S2P Require Import Prelude.
From stdpp Require Import base gmap list fin_maps strings.
From Stdlib Require Import ZArith Lia.

Set Default Proof Using "Type".
Open Scope nat_scope.

Module Lru.
Section lru.
Context {K V : Type} `{Countable K}.

(** A node of the list keeps its identity, which is what an iterator names. *)
Record State := mkState {
  member_capacity : nat;
  member_list : list (nat * (K * V));
  member_map : gmap K nat;
  nextNode_ : nat;
}.
Definition set_list (l : list (nat * (K * V))) (s : State) : State :=
  mkState (member_capacity s) l (member_map s) (nextNode_ s).

(** The constructor throws [std::invalid_argument] on a capacity of zero. *)
Definition make (capacity : nat) : option State :=
  if capacity =? 0 then None else Some (mkState capacity [] ∅ 0).

(** An eviction is reported to [member_onEvict], if there is one; what the
    callback throws is swallowed.  The callback is taken not to call the cache
    back, which would deadlock on the mutex of the thread-safe cache. *)
Inductive Out := OnEvict (key : K) (value : V).
Abbreviation C := (Act State Out).

(** [*it] *)
Definition deref (it : nat) (l : list (nat * (K * V))) : option V :=
  (λ n, n.2.2) <$> head (filter (λ n, n.1 = it) l).
(** [list.splice(list.begin(), list, it)] *)
Definition splice_front (it : nat) (l : list (nat * (K * V))) : list (nat * (K * V)) :=
  filter (λ n, n.1 = it) l ++ filter (λ n, n.1 ≠ it) l.
(** [it->second = value] *)
Definition assign (it : nat) (v : V) (l : list (nat * (K * V))) : list (nat * (K * V)) :=
  (λ n, if decide (n.1 = it) then (n.1, (n.2.1, v)) else n) <$> l.

(** [back()] of an empty list is undefined; it is reached with a full cache
    only, and the capacity is positive. *)
Definition EvictLru : C unit :=
  s ← members;
  match last (member_list s) with
  | None => mret tt
  | Some (_, (evictedKey, evictedValue)) =>
      modify (λ s, mkState (member_capacity s) (removelast (member_list s)) (delete evictedKey (member_map s)) (nextNode_ s)) ≫= λ _,
      post (OnEvict evictedKey evictedValue)
  end.

Definition Put (key : K) (value : V) : C bool :=
  s ← members;
  match member_map s !! key with
  | Some it =>
      modify (λ s, set_list (splice_front it (assign it value (member_list s))) s) ≫= λ _, mret false
  | None =>
      act_when (member_capacity s <=? length (member_list s)) EvictLru ≫= λ _,
      modify (λ s, mkState (member_capacity s) ((nextNode_ s, (key, value)) :: member_list s)
                     (<[key := nextNode_ s]> (member_map s)) (S (nextNode_ s))) ≫= λ _,
      mret true
  end.

Definition Get (key : K) : C (option V) :=
  s ← members;
  match member_map s !! key with
  | None => mret None
  | Some it =>
      modify (λ s, set_list (splice_front it (member_list s)) s) ≫= λ _,
      mret (deref it (member_list s))
  end.

Definition Contains (key : K) : C bool :=
  s ← members; mret (bool_decide (is_Some (member_map s !! key))).

Definition Peek (key : K) : C (option V) :=
  s ← members; mret (it ← member_map s !! key; deref it (member_list s)).

Definition Remove (key : K) : C bool :=
  s ← members;
  match member_map s !! key with
  | None => mret false
  | Some it =>
      modify (λ s, mkState (member_capacity s) (filter (λ n, n.1 ≠ it) (member_list s))
                     (delete key (member_map s)) (nextNode_ s)) ≫= λ _,
      mret true
  end.

Definition Clear : C unit := modify (λ s, mkState (member_capacity s) [] ∅ (nextNode_ s)).
Definition Size : C nat := s ← members; mret (size (member_map s)).
Definition Capacity : C nat := s ← members; mret (member_capacity s).

(** ** Operations and their results *)
Inductive Op :=
  | OpPut (k : K) (v : V) | OpGet (k : K) | OpContains (k : K) | OpPeek (k : K)
  | OpRemove (k : K) | OpClear | OpSize | OpCapacity.
Inductive Result := RBool (b : bool) | RValue (v : option V) | RNat (n : nat) | RUnit.

Definition handle (op : Op) : C Result :=
  match op with
  | OpPut k v => b ← Put k v; mret (RBool b)
  | OpGet k => v ← Get k; mret (RValue v)
  | OpContains k => b ← Contains k; mret (RBool b)
  | OpPeek k => v ← Peek k; mret (RValue v)
  | OpRemove k => b ← Remove k; mret (RBool b)
  | OpClear => Clear ≫= λ _, mret RUnit
  | OpSize => n ← Size; mret (RNat n)
  | OpCapacity => n ← Capacity; mret (RNat n)
  end.

(** ** The reference: bindings, most recently used first *)
Definition without (k : K) (l : list (K * V)) : list (K * V) := filter (λ p, p.1 ≠ k) l.
Definition find (k : K) (l : list (K * V)) : option V := snd <$> head (filter (λ p, p.1 = k) l).

Definition spec (capacity : nat) (op : Op) (l : list (K * V)) : Result * list (K * V) * list Out :=
  match op with
  | OpPut k v =>
      if decide (is_Some (find k l)) then (RBool false, (k, v) :: without k l, [])
      else if capacity <=? length l
      then (RBool true, (k, v) :: removelast l, (λ p, OnEvict p.1 p.2) <$> option_list (last l))
      else (RBool true, (k, v) :: l, [])
  | OpGet k =>
      match find k l with
      | Some v => (RValue (Some v), (k, v) :: without k l, [])
      | None => (RValue None, l, [])
      end
  | OpContains k => (RBool (bool_decide (is_Some (find k l))), l, [])
  | OpPeek k => (RValue (find k l), l, [])
  | OpRemove k => (RBool (bool_decide (is_Some (find k l))), without k l, [])
  | OpClear => (RUnit, [], [])
  | OpSize => (RNat (length l), l, [])
  | OpCapacity => (RNat capacity, l, [])
  end.
End lru.
Arguments State K V {_ _}.
Arguments Op K V : clear implicits.
Arguments Out K V : clear implicits.
Arguments Result V : clear implicits.
End Lru.
