(* ===== verification/LruProps.v ===== *)
(** * The cache behaves like its reference *)

From S2P Require Import Prelude Lru.
From stdpp Require Import base gmap list fin_maps strings.
From Stdlib Require Import ZArith Lia.
Import Lru.

Set Default Proof Using "Type".
Open Scope nat_scope.

Section lru.
Context {K V : Type} `{Countable K}.
Implicit Types (s : State K V) (l : list (K * V)) (k : K) (v : V).

(** [s] holds the bindings [l], most recent first. *)
Record rep s l : Prop := {
  re_list : (member_list s).*2 = l;
  re_nodes : NoDup (member_list s).*1;
  re_keys : NoDup l.*1;
  re_map : ∀ k it, member_map s !! k = Some it ↔ ∃ v, (it, (k, v)) ∈ member_list s;
  re_next : Forall (λ n, n.1 < nextNode_ s) (member_list s);
  re_bound : length l ≤ member_capacity s;
  re_positive : 0 < member_capacity s;
}.

(** ** Filters around one node *)
Lemma filter_split {A B} `{EqDecision B} (f : A → B) (l1 l2 : list A) x :
  NoDup (f <$> l1 ++ x :: l2) →
  filter (λ y, f y = f x) (l1 ++ x :: l2) = [x] ∧ filter (λ y, f y ≠ f x) (l1 ++ x :: l2) = l1 ++ l2.
Proof.
  rewrite fmap_app, fmap_cons, NoDup_app, NoDup_cons. intros (_ & Hd & Hx & _).
  assert (H1 : Forall (λ y, f y ≠ f x) l1).
  { apply Forall_forall. intros y Hy E. apply (Hd (f y)); [by apply list_elem_of_fmap_2|]. rewrite E. left. }
  assert (H2 : Forall (λ y, f y ≠ f x) l2).
  { apply Forall_forall. intros y Hy E. apply Hx. rewrite <- E. by apply list_elem_of_fmap_2. }
  rewrite !filter_app. split.
  - rewrite (filter_other _ l1) by done. rewrite filter_cons_True by done. by rewrite filter_other.
  - rewrite (filter_all _ l1) by done. rewrite filter_cons_False by (intros E; by apply E). by rewrite filter_all.
Qed.

(** ** Finding a key *)
Lemma hit s l k (it : nat) :
  rep s l → member_map s !! k = Some it →
  ∃ n1 n2 v, member_list s = n1 ++ (it, (k, v)) :: n2 ∧ find k l = Some v ∧ without k l = n1.*2 ++ n2.*2 ∧
    filter (λ n, n.1 = it) (member_list s) = [(it, (k, v))] ∧ filter (λ n, n.1 ≠ it) (member_list s) = n1 ++ n2.
Proof.
  intros [Hl Hn Hk Hm _ _ _] Hit. apply Hm in Hit as [v Hin]. apply list_elem_of_split in Hin as (n1 & n2 & E).
  exists n1, n2, v. rewrite E in *. rewrite fmap_app, fmap_cons in Hl. cbn in Hl.
  destruct (filter_split fst n1 n2 (it, (k, v)) Hn) as [F1 F2]. rewrite <- Hl in Hk.
  destruct (filter_split fst n1.*2 n2.*2 (k, v) Hk) as [F3 F4]. cbn in *.
  split_and!; [done| | |done|done].
  - unfold find. rewrite <- Hl, F3. done.
  - unfold without. by rewrite <- Hl, F4.
Qed.

Lemma miss s l k : rep s l → member_map s !! k = None → find k l = None ∧ without k l = l ∧ k ∉ l.*1.
Proof.
  intros [Hl Hn Hk Hm _ _ _] Hnone.
  assert (Hni : k ∉ l.*1).
  { intros ([k' v] & -> & Hin)%list_elem_of_fmap. rewrite <- Hl in Hin.
    apply list_elem_of_fmap in Hin as ([it p] & E & Hin). cbn in E. subst p.
    assert (member_map s !! k' = Some it) by (apply Hm; by exists v). cbn in *. congruence. }
  assert (Hf : Forall (λ p : K * V, p.1 ≠ k) l).
  { apply Forall_forall. intros p Hp <-. apply Hni. by apply list_elem_of_fmap_2. }
  split_and!; [|by apply filter_all|done]. unfold find. rewrite filter_other; done.
Qed.

Lemma find_map s l k : rep s l → is_Some (find k l) ↔ is_Some (member_map s !! k).
Proof.
  intros Hr. destruct (member_map s !! k) as [it|] eqn:E.
  - destruct (hit _ _ _ _ Hr E) as (? & ? & v & _ & -> & _). split; by eexists.
  - destruct (miss _ _ _ Hr E) as (-> & _). done.
Qed.

Lemma size_map s l : rep s l → size (member_map s) = length l.
Proof.
  intros Hr. rewrite <- (length_fmap fst l), <- (size_list_to_set (C := gset K)) by apply Hr.
  rewrite <- size_dom. f_equal. apply set_eq. intros k. rewrite elem_of_dom, elem_of_list_to_set, <- (find_map _ _ _ Hr).
  unfold find. split.
  - intros [v Hv]. destruct (filter (λ p, p.1 = k) l) as [|[k' v'] fl] eqn:E; [done|].
    assert (Hin : (k', v') ∈ filter (λ p, p.1 = k) l) by (rewrite E; left).
    apply list_elem_of_filter in Hin as [<- Hin]. by apply (list_elem_of_fmap_2 fst) in Hin.
  - intros ([k' v] & -> & Hin)%list_elem_of_fmap. cbn [fst].
    assert (Hf : (k', v) ∈ filter (λ p, p.1 = k') l) by by apply list_elem_of_filter.
    destruct (filter (λ p, p.1 = k') l); [by apply not_elem_of_nil in Hf|by eexists].
Qed.

(** ** The operations *)
Lemma rep_move s l k it n1 n2 v v' :
  rep s l → member_list s = n1 ++ (it, (k, v)) :: n2 →
  rep (set_list ((it, (k, v')) :: n1 ++ n2) s) ((k, v') :: n1.*2 ++ n2.*2).
Proof.
  intros [Hl Hn Hk Hm Hx Hb Hp] E. rewrite E in *.
  assert (Hperm : (it, (k, v')) :: n1 ++ n2 ≡ₚ n1 ++ (it, (k, v')) :: n2) by apply Permutation_middle.
  assert (Hlen : length l = S (length (n1.*2 ++ n2.*2))).
  { rewrite <- Hl, !length_app, !length_fmap, !length_app. cbn. lia. }
  split; cbn.
  - by rewrite fmap_app.
  - change (NoDup ((it, (k, v')) :: n1 ++ n2).*1). rewrite Hperm. rewrite fmap_app in *. exact Hn.
  - rewrite <- Hl in Hk. rewrite !fmap_app in Hk. cbn in Hk. rewrite fmap_app. rewrite <- Permutation_middle in Hk. exact Hk.
  - intros k' it'. rewrite Hm. setoid_rewrite Hperm. rewrite fmap_app, fmap_cons in Hn.
    apply NoDup_app in Hn as (_ & Hd & Hn2). cbn in Hd, Hn2. apply NoDup_cons in Hn2 as [Hni _].
    setoid_rewrite elem_of_app. setoid_rewrite elem_of_cons. split.
    + intros (w & [Hw|[[= -> -> ->]|Hw]]); [exists w; auto|exists v'; auto|exists w; auto].
    + intros (w & [Hw|[[= -> -> ->]|Hw]]); [exists w; auto|exists v; auto|exists w; auto].
  - change (Forall (λ n, n.1 < nextNode_ s) ((it, (k, v')) :: n1 ++ n2)). rewrite Hperm.
    apply Forall_app in Hx as [? Hx]. inversion Hx. apply Forall_app. split; [done|]. by constructor.
  - lia.
  - done.
Qed.

Lemma rep_drop s l k it n1 n2 v :
  rep s l → member_list s = n1 ++ (it, (k, v)) :: n2 →
  rep (mkState (member_capacity s) (n1 ++ n2) (delete k (member_map s)) (nextNode_ s)) (n1.*2 ++ n2.*2).
Proof.
  intros [Hl Hn Hk Hm Hx Hb Hp] E. rewrite E in *.
  assert (Hlen : length l = S (length (n1.*2 ++ n2.*2))).
  { rewrite <- Hl, !length_app, !length_fmap, !length_app. cbn. lia. }
  rewrite fmap_app, fmap_cons in Hl. cbn in Hl.
  assert (Hkn : k ∉ (n1.*2 ++ n2.*2).*1).
  { rewrite <- Hl, fmap_app, fmap_cons in Hk. rewrite <- Permutation_middle in Hk. cbn in Hk.
    apply NoDup_cons in Hk as [Hk _]. by rewrite fmap_app. }
  split; cbn.
  - by rewrite fmap_app.
  - rewrite fmap_app, fmap_cons in Hn. rewrite <- Permutation_middle in Hn. apply NoDup_cons in Hn as [_ Hn].
    by rewrite fmap_app.
  - rewrite <- Hl, fmap_app, fmap_cons in Hk. rewrite <- Permutation_middle in Hk.
    apply NoDup_cons in Hk as [_ Hk]. by rewrite fmap_app.
  - intros k' it'. rewrite lookup_delete_Some, Hm. setoid_rewrite elem_of_app. setoid_rewrite elem_of_cons. split.
    + intros (Hne & w & Hw). exists w. naive_solver.
    + intros (w & Hw). split; [|exists w; naive_solver]. intros <-. apply Hkn. apply list_elem_of_fmap. exists (k, w).
      split; [done|]. rewrite <- fmap_app. apply list_elem_of_fmap. exists (it', (k, w)). split; [done|]. by apply elem_of_app.
  - apply Forall_app in Hx as [? Hx]. inversion Hx. by apply Forall_app.
  - lia.
  - done.
Qed.

Lemma rep_insert s l k v :
  rep s l → member_map s !! k = None → length l < member_capacity s →
  rep (mkState (member_capacity s) ((nextNode_ s, (k, v)) :: member_list s) (<[k := nextNode_ s]> (member_map s)) (S (nextNode_ s)))
    ((k, v) :: l).
Proof.
  intros Hr Hnone Hlt. destruct (miss _ _ _ Hr Hnone) as (_ & _ & Hni). destruct Hr as [Hl Hn Hk Hm Hx Hb Hp].
  assert (Hnew : nextNode_ s ∉ (member_list s).*1).
  { intros (n & E & Hin)%list_elem_of_fmap. pose proof (proj1 (Forall_forall _ _) Hx n Hin). cbn in *. lia. }
  split; cbn.
  - by rewrite Hl.
  - by constructor.
  - by constructor.
  - intros k' it'. destruct (decide (k' = k)) as [->|Hne].
    + rewrite lookup_insert_eq. split; [intros [= <-]; exists v; left|]. intros (w & [[= -> ->]|Hw]%elem_of_cons); [done|].
      assert (member_map s !! k = Some it') by (apply Hm; by exists w). congruence.
    + rewrite lookup_insert_ne by done. rewrite Hm. setoid_rewrite elem_of_cons. naive_solver.
  - constructor; [cbn; lia|]. eapply Forall_impl; [exact Hx|]. cbn. lia.
  - lia.
  - done.
Qed.

Lemma removelast_snoc {A} (l : list A) x : removelast (l ++ [x]) = l.
Proof. by rewrite removelast_app, app_nil_r by done. Qed.

Lemma evict_rep s l :
  rep s l → length l = member_capacity s →
  let m := EvictLru in
  rep (exec m s) (removelast l) ∧ member_capacity (exec m s) = member_capacity s ∧
  outs m s = (λ p, OnEvict p.1 p.2) <$> option_list (last l).
Proof.
  intros Hr Hfull. pose proof Hr as [Hl Hn Hk Hm Hx Hb Hp]. cbn zeta. unfold EvictLru.
  rewrite exec_bind, outs_bind, val_members, exec_members, outs_members, app_nil_l.
  destruct (last (member_list s)) as [[it [k v]]|] eqn:El.
  - apply last_Some in El as [n1 E]. act_simpl. rewrite E, removelast_snoc.
    pose proof (rep_drop s l k it n1 [] v Hr E) as Hd. cbn in Hd. rewrite !app_nil_r in Hd.
    rewrite <- Hl, E, fmap_app. cbn. rewrite removelast_snoc, last_snoc. done.
  - apply last_None in El. rewrite El in Hl. cbn in Hl. subst l. cbn in Hfull. lia.
Qed.

Lemma assign_node it v (n1 n2 : list (nat * (K * V))) p :
  NoDup (n1 ++ (it, p) :: n2).*1 →
  assign it v (n1 ++ (it, p) :: n2) = n1 ++ (it, (p.1, v)) :: n2.
Proof.
  rewrite fmap_app, fmap_cons, NoDup_app, NoDup_cons. cbn. intros (_ & Hd & Hx & _). unfold assign.
  rewrite fmap_app, fmap_cons. cbn. rewrite decide_True by done.
  assert (Hid : ∀ n : list (nat * (K * V)), it ∉ n.*1 →
    (λ n, if decide (n.1 = it) then (n.1, (n.2.1, v)) else n) <$> n = n).
  { induction n as [|[i q] n IH]; [done|]. cbn. rewrite not_elem_of_cons. intros [Hne Hni].
    rewrite decide_False by done. by rewrite IH. }
  rewrite !Hid; [done|done|]. intros Hin. apply (Hd it); [done|left].
Qed.

(** The step of the cache agrees with the step of the reference. *)
Definition answers (op : Op K V) s l : Prop :=
  let r := spec (member_capacity s) op l in
  val (handle op) s = r.1.1 ∧ rep (exec (handle op) s) r.1.2 ∧ outs (handle op) s = r.2 ∧
  member_capacity (exec (handle op) s) = member_capacity s.

Ltac op_start := unfold answers; cbn [handle spec];
  unfold Put, Get, Contains, Peek, Remove, Clear, Size, Capacity; rewrite ?val_bind, ?exec_bind, ?outs_bind;
  rewrite ?val_members, ?exec_members, ?outs_members, ?app_nil_l.

Lemma put_hit s l k v (it : nat) : rep s l → member_map s !! k = Some it → answers (OpPut k v) s l.
Proof.
  intros Hr E. op_start. rewrite E.
  destruct (hit _ _ _ _ Hr E) as (n1 & n2 & w & El & -> & -> & _ & _). rewrite decide_True by by eexists.
  act_simpl. split_and!; [done| |done|done].
  unfold splice_front. rewrite El, assign_node by (rewrite <- El; apply Hr).
  assert (Hnd : NoDup (n1 ++ (it, ((k, w).1, v)) :: n2).*1).
  { pose proof (re_nodes _ _ Hr) as Hnd. rewrite El, fmap_app in Hnd. by rewrite fmap_app. }
  destruct (filter_split fst _ _ _ Hnd) as [F1 F2]. cbn in F1, F2 |- *. rewrite F1, F2.
  by apply (rep_move s l k it n1 n2 w v).
Qed.

Lemma rep_length s l : rep s l → length (member_list s) = length l.
Proof. intros Hr. by rewrite <- (re_list _ _ Hr), length_fmap. Qed.

Lemma not_in_map s l k : rep s l → k ∉ l.*1 → member_map s !! k = None.
Proof.
  intros Hr Hni. destruct (member_map s !! k) as [it|] eqn:Em; [exfalso|done]. apply Hni.
  destruct (hit _ _ _ _ Hr Em) as (n1 & n2 & w & El & _).
  rewrite <- (re_list _ _ Hr), El, fmap_app, fmap_app. apply elem_of_app. right. left.
Qed.

Lemma put_full s l k v :
  rep s l → member_map s !! k = None → length l = member_capacity s → answers (OpPut k v) s l.
Proof.
  intros Hr E Hfull. op_start. rewrite E, (rep_length _ _ Hr).
  destruct (miss _ _ _ Hr E) as (-> & _ & Hni). rewrite decide_False by by intros [].
  destruct (evict_rep s l Hr Hfull) as (Hr' & Hcap & Ho).
  rewrite (proj2 (Nat.leb_le _ _)) by lia. act_simpl. rewrite Ho. cbn [app].
  split_and!; [done| |by rewrite ?app_nil_r|exact Hcap]. cbn.
  destruct l as [|p l' _] using rev_ind; [pose proof (re_positive _ _ Hr); cbn in *; lia|].
  rewrite removelast_snoc in *. rewrite length_app in Hfull. cbn in Hfull.
  apply rep_insert; [done| |rewrite Hcap; lia]. apply (not_in_map _ l'); [done|].
  intros Hin. apply Hni. rewrite fmap_app. apply elem_of_app. by left.
Qed.

Lemma put_room s l k v :
  rep s l → member_map s !! k = None → length l < member_capacity s → answers (OpPut k v) s l.
Proof.
  intros Hr E Hlt. op_start. rewrite E, (rep_length _ _ Hr).
  destruct (miss _ _ _ Hr E) as (-> & _ & Hni). rewrite decide_False by by intros [].
  rewrite (proj2 (Nat.leb_gt _ _)) by lia. act_simpl. split_and!; [done|by apply rep_insert|done|done].
Qed.

Lemma get_rep s l k : rep s l → answers (OpGet k) s l.
Proof.
  intros Hr. op_start. destruct (member_map s !! k) as [it|] eqn:E.
  - destruct (hit _ _ _ _ Hr E) as (n1 & n2 & w & El & -> & -> & F1 & F2). act_simpl.
    split_and!; [unfold deref; by rewrite F1| |done|done]. unfold splice_front. rewrite F1, F2. cbn.
    by apply (rep_move s l k it n1 n2 w w).
  - destruct (miss _ _ _ Hr E) as (-> & _ & _). by act_simpl.
Qed.

Lemma remove_rep s l k : rep s l → answers (OpRemove k) s l.
Proof.
  intros Hr. op_start. destruct (member_map s !! k) as [it|] eqn:E.
  - destruct (hit _ _ _ _ Hr E) as (n1 & n2 & w & El & -> & -> & F1 & F2). act_simpl.
    split_and!; [by rewrite bool_decide_true by by eexists| |done|done]. rewrite F2. by eapply rep_drop.
  - destruct (miss _ _ _ Hr E) as (-> & -> & _). act_simpl. split_and!; done.
Qed.

Lemma rep_empty (c n : nat) : 0 < c → rep (mkState c [] ∅ n) [].
Proof.
  intros Hc. split; cbn; [done|constructor|constructor| |constructor|lia|done].
  intros k it. rewrite lookup_empty. set_solver.
Qed.

Lemma handle_rep op s l : rep s l → answers op s l.
Proof.
  intros Hr. destruct op as [k v|k|k|k|k| | |].
  - destruct (member_map s !! k) as [it|] eqn:E; [by eapply put_hit|].
    pose proof (re_bound _ _ Hr). destruct (decide (length l = member_capacity s)); [by apply put_full|].
    apply put_room; [done..|lia].
  - by apply get_rep.
  - op_start. act_simpl. split_and!; [|done..]. f_equal. apply bool_decide_ext. by rewrite (find_map _ _ _ Hr).
  - op_start. act_simpl. split_and!; [|done..]. f_equal. destruct (member_map s !! k) as [it|] eqn:E; cbn.
    + destruct (hit _ _ _ _ Hr E) as (n1 & n2 & w & _ & -> & _ & F1 & _). unfold deref. by rewrite F1.
    + by destruct (miss _ _ _ Hr E) as (-> & _ & _).
  - by apply remove_rep.
  - op_start. act_simpl. split_and!; [done| |done|done]. apply rep_empty, Hr.
  - op_start. act_simpl. split_and!; [|done..]. f_equal. by apply size_map.
  - op_start. by act_simpl.
Qed.

(** Runs of the cache and of the reference. *)
Fixpoint run (ops : list (Op K V)) s : list (Result V) * State K V * list (Out K V) :=
  match ops with
  | [] => ([], s, [])
  | op :: ops => let r := run ops (exec (handle op) s) in
                 (val (handle op) s :: r.1.1, r.1.2, outs (handle op) s ++ r.2)
  end.
Fixpoint spec_run (capacity : nat) (ops : list (Op K V)) l : list (Result V) * list (K * V) * list (Out K V) :=
  match ops with
  | [] => ([], l, [])
  | op :: ops => let r := spec capacity op l in
                 let r' := spec_run capacity ops r.1.2 in
                 (r.1.1 :: r'.1.1, r'.1.2, r.2 ++ r'.2)
  end.

Lemma run_rep ops s l :
  rep s l →
  let r := run ops s in let r' := spec_run (member_capacity s) ops l in
  r.1.1 = r'.1.1 ∧ rep r.1.2 r'.1.2 ∧ r.2 = r'.2 ∧ member_capacity r.1.2 = member_capacity s.
Proof.
  revert s l. induction ops as [|op ops IH]; intros s l Hr; cbn [run spec_run]; [done|].
  destruct (handle_rep op s l Hr) as (-> & Hr' & -> & Hc).
  destruct (IH _ _ Hr') as (H1 & H2 & H3 & H4). rewrite Hc in *. cbn. by rewrite H1, H3.
Qed.

(** C34: From a new cache of a positive capacity, every sequence of
    operations answers, reports evictions and ends exactly as the reference
    does, which keeps the bindings most recently used first and drops the
    last one when it is full; the cache never holds more than its capacity
    and never two bindings of a key.  A capacity of zero is refused. *)
Theorem lru_equals_reference (capacity : nat) (ops : list (Op K V)) :
  make (K := K) (V := V) 0 = None ∧
  (0 < capacity → ∃ s, make capacity = Some s ∧
   let r := run ops s in let r' := spec_run capacity ops [] in
   r.1.1 = r'.1.1 ∧ r.2 = r'.2 ∧ (member_list r.1.2).*2 = r'.1.2 ∧
   length r'.1.2 ≤ capacity ∧ NoDup r'.1.2.*1).
Proof.
  split; [done|]. intros Hc. eexists. split; [unfold make; by rewrite (proj2 (Nat.eqb_neq _ _)) by lia|].
  destruct (run_rep ops (mkState capacity [] ∅ 0) []) as (H1 & H2 & H3 & H4).
  { by apply rep_empty. }
  cbn in *. split_and!; [done|done|apply H2| |apply H2]. pose proof (re_bound _ _ H2). lia.
Qed.
End lru.

Lemma lru_equals_reference_witness :
  ∃ s, make (K := string) (V := nat) 2 = Some s ∧
    (run [OpPut "a" 1; OpPut "b" 2; OpGet "a"; OpPut "c" 3; OpPeek "b"] s).2 = [OnEvict "b" 2].
Proof.
  destruct (proj2 (lru_equals_reference (K := string) (V := nat) 2
    [OpPut "a" 1; OpPut "b" 2; OpGet "a"; OpPut "c" 3; OpPeek "b"])) as (s & Hs & _ & Ho & _); [lia|].
  exists s. split; [done|]. rewrite Ho. vm_compute. reflexivity.
Defined.
