(* ===== verification/SchedTree.v ===== *)
(** * The tree of schedulers

    [common/scheduler_topology]: the global scheduler keeps the local
    schedulers (level 0) and the domain schedulers (level 1 and up) in a tree.
    Nodes are shared objects: a node owns its children, points back to its
    parent weakly, and the tree owns every node once more through
    [levelNodes_].  They live in a heap here and a [TreeNode] is the name of
    one; a node leaves the heap when nothing owns it any more, which is when a
    weak pointer to it expires.

    The iteration order of a [std::unordered_map] is unspecified: every
    operation that iterates takes the order as an argument. *)

From S2P Require Import Prelude.
From stdpp Require Import base gmap strings list fin_maps.
From Stdlib Require Import ZArith Lia.

Open Scope Z_scope.
Set Default Proof Using "Type".

Definition GS_SCHED_TOPOLOGY_BROKEN : Z := 40002.
Definition MIN_TREE_LEVEL : nat := 2.

(** [static_cast<unsigned short>] of an [int]. *)
Definition to_uint16 (z : Z) : nat := Z.to_nat (z mod 2 ^ 16).

Module Topo.
Inductive NodeState := CONNECTED | BROKEN.
#[global] Instance NodeState_eq_dec : EqDecision NodeState.
Proof. solve_decision. Defined.

Record NodeInfo := mkInfo { ni_name : string; ni_address : string }.
#[global] Instance NodeInfo_eq_dec : EqDecision NodeInfo.
Proof. solve_decision. Defined.

Abbreviation TreeNode := nat (only parsing).
Abbreviation ChildNodes := (gmap string nat) (only parsing).

Record SchedNode := mkNode {
  children_ : ChildNodes;
  parent_ : option TreeNode;
  nodeInfo_ : NodeInfo;
  nodeState_ : NodeState;
  level_ : Z;
}.
Definition make_node (nodeInfo : NodeInfo) (level : Z) : SchedNode := mkNode ∅ None nodeInfo CONNECTED level.

Definition set_children (c : ChildNodes) (n : SchedNode) : SchedNode :=
  mkNode c (parent_ n) (nodeInfo_ n) (nodeState_ n) (level_ n).
Definition set_parent (p : option TreeNode) (n : SchedNode) : SchedNode :=
  mkNode (children_ n) p (nodeInfo_ n) (nodeState_ n) (level_ n).
Definition set_nodeInfo (i : NodeInfo) (n : SchedNode) : SchedNode :=
  mkNode (children_ n) (parent_ n) i (nodeState_ n) (level_ n).
Definition set_nodeState (st : NodeState) (n : SchedNode) : SchedNode :=
  mkNode (children_ n) (parent_ n) (nodeInfo_ n) st (level_ n).

(** The members of [SchedTree], the heap and the next free name in it. *)
Record Tree := mkTree {
  levelNodes_ : list (gmap string TreeNode);
  nextParent_ : option TreeNode;
  maxLocalSchedPerDomainNode_ : nat;
  maxDomainSchedPerDomainNode_ : nat;
  heap_ : gmap nat SchedNode;
  fresh_ : nat;
}.
Definition make (maxLocal maxDomain : nat) : Tree := mkTree [] None maxLocal maxDomain ∅ 0.

Definition set_levels (l : list (gmap string TreeNode)) (t : Tree) : Tree :=
  mkTree l (nextParent_ t) (maxLocalSchedPerDomainNode_ t) (maxDomainSchedPerDomainNode_ t) (heap_ t) (fresh_ t).
Definition set_nextParent (p : option TreeNode) (t : Tree) : Tree :=
  mkTree (levelNodes_ t) p (maxLocalSchedPerDomainNode_ t) (maxDomainSchedPerDomainNode_ t) (heap_ t) (fresh_ t).
Definition set_heap (h : gmap nat SchedNode) (t : Tree) : Tree :=
  mkTree (levelNodes_ t) (nextParent_ t) (maxLocalSchedPerDomainNode_ t) (maxDomainSchedPerDomainNode_ t) h (fresh_ t).

(** [p->m]: what is owned is in the heap. *)
Definition at_node (t : Tree) (r : TreeNode) : SchedNode :=
  default (make_node (mkInfo "" "") 0) (heap_ t !! r).
Definition on_node (r : TreeNode) (f : SchedNode → SchedNode) (t : Tree) : Tree := set_heap (alter f r (heap_ t)) t.

(** [std::make_shared<SchedNode>(nodeInfo, level)] *)
Definition make_shared (nodeInfo : NodeInfo) (level : Z) (t : Tree) : TreeNode * Tree :=
  (fresh_ t, mkTree (levelNodes_ t) (nextParent_ t) (maxLocalSchedPerDomainNode_ t) (maxDomainSchedPerDomainNode_ t)
    (<[fresh_ t := make_node nodeInfo level]> (heap_ t)) (S (fresh_ t))).

(** What the tree owns directly, and what a set of nodes owns. *)
Definition owned (t : Tree) : gset nat :=
  ⋃ ((λ m, map_img m) <$> levelNodes_ t) ∪ from_option singleton ∅ (nextParent_ t).
Definition own_more (t : Tree) (X : gset nat) : gset nat :=
  X ∪ ⋃ ((λ r, map_img (children_ (at_node t r))) <$> elements X).
(** The end of the life of the nodes nothing owns. *)
Definition release (t : Tree) : Tree :=
  let live := Nat.iter (size (heap_ t)) (own_more t) (owned t) in
  set_heap (filter (λ p, p.1 ∈ live) (heap_ t)) t.

(** ** A node *)
Definition GetParent (t : Tree) (r : TreeNode) : option TreeNode :=
  p ← parent_ (at_node t r); if decide (is_Some (heap_ t !! p)) then Some p else None.
Definition IsLeaf (t : Tree) (r : TreeNode) : bool := level_ (at_node t r) =? 0.
Definition SetParent (r : TreeNode) (p : option TreeNode) : Tree → Tree := on_node r (set_parent p).
Definition AddChild (r node : TreeNode) (t : Tree) : Tree :=
  let name := ni_name (nodeInfo_ (at_node t node)) in
  SetParent node (Some r) (on_node r (λ n, set_children (<[name := node]> (children_ n)) n) t).
Definition RemoveChild (r : TreeNode) (name : string) : Tree → Tree :=
  on_node r (λ n, set_children (delete name (children_ n)) n).
Definition SetNodeInfo (r : TreeNode) (i : NodeInfo) : Tree → Tree := on_node r (set_nodeInfo i).
Definition SetState (r : TreeNode) (st : NodeState) : Tree → Tree := on_node r (set_nodeState st).
Definition CheckAddNonLeafNode (t : Tree) (r : TreeNode) (maxChildrenNum : nat) : bool :=
  (1 <? level_ (at_node t r)) && (size (children_ (at_node t r)) <? maxChildrenNum)%nat.
Definition CheckAddLeafNode (t : Tree) (r : TreeNode) (maxChildrenNum : nat) : bool :=
  (level_ (at_node t r) =? 1) && (size (children_ (at_node t r)) <? maxChildrenNum)%nat.

(** [messages::ScheduleTopology] *)
Record ScheduleTopology := mkTopology { leader : option NodeInfo; topo_members : list NodeInfo }.

(** [messages::SchedulerNode] *)
Inductive SchedulerNode := mkProto (name address : string) (level : Z) (children : list SchedulerNode).
Definition p_name (p : SchedulerNode) : string := let 'mkProto n _ _ _ := p in n.
Definition p_address (p : SchedulerNode) : string := let 'mkProto _ a _ _ := p in a.
Definition p_level (p : SchedulerNode) : Z := let 'mkProto _ _ l _ := p in l.
Definition p_children (p : SchedulerNode) : list SchedulerNode := let 'mkProto _ _ _ c := p in c.

(** ** The tree *)
Definition FindNodes (t : Tree) (level : nat) : gmap string TreeNode := default ∅ (levelNodes_ t !! level).

(** [levelNodes_[level][name] = node] *)
Definition put_level (level : nat) (name : string) (node : TreeNode) (t : Tree) : Tree :=
  set_levels (alter <[name := node]> level (levelNodes_ t)) t.
(** [levelNodes_.resize(n)] of a shorter vector *)
Definition resize (n : nat) (t : Tree) : Tree :=
  set_levels (levelNodes_ t ++ replicate (n - length (levelNodes_ t)) ∅) t.

(** [make_shared] throws when there is no memory: the node is never null. *)
Definition AddNode (nodeInfo : NodeInfo) (level : nat) (t : Tree) : TreeNode * Tree :=
  let '(node, t) := make_shared nodeInfo (Z.of_nat level) t in
  let t := if (length (levelNodes_ t) <? level + 1)%nat then resize (level + 1) t else t in
  (node, put_level level (ni_name nodeInfo) node t).

(** The levels from the top one down to 1. *)
Definition non_leaf_levels (t : Tree) : list nat := reverse (seq 1 (length (levelNodes_ t) - 1)).
Definition FindNonLeafNode (t : Tree) (name : string) : option TreeNode :=
  head (omap (λ level, FindNodes t level !! name) (non_leaf_levels t)).
Definition FindLeafNode (t : Tree) (name : string) : option TreeNode := FindNodes t 0 !! name.

Definition RemoveLeafNode (name : string) (t : Tree) : option TreeNode * Tree :=
  match levelNodes_ t with
  | [] => (None, t)
  | localNodes :: _ =>
      match localNodes !! name with
      | None => (None, t)
      | Some node =>
          match GetParent t node with
          | None => (None, t)
          | Some parent =>
              let t := RemoveChild parent name t in
              (Some parent, release (set_levels (alter (delete name) 0%nat (levelNodes_ t)) t))
          end
      end
  end.

Definition ReplaceNonLeafNode (replacedNode : string) (nodeInfo : NodeInfo) (t : Tree) : option TreeNode * Tree :=
  if (length (levelNodes_ t) <? MIN_TREE_LEVEL)%nat then (None, t)
  else
    match FindNonLeafNode t replacedNode with
    | None => (None, t)
    | Some replaced =>
        if negb (bool_decide (nodeState_ (at_node t replaced) = BROKEN)) then (None, t)
        else (Some replaced, SetState replaced CONNECTED (SetNodeInfo replaced nodeInfo t))
    end.

Section ordered.
Context (order : gmap string nat → list (string * nat)).

Definition GetTopologyView (t : Tree) (r : TreeNode) : ScheduleTopology :=
  mkTopology ((λ p, nodeInfo_ (at_node t p)) <$> GetParent t r)
    ((λ child, nodeInfo_ (at_node t child.2)) <$> order (children_ (at_node t r))).

(** [begin()] of an empty map is undefined; the top level of a tree is never
    empty. *)
Definition GetRootNode (t : Tree) : option TreeNode :=
  if (length (levelNodes_ t) <? MIN_TREE_LEVEL)%nat then None
  else top ← last (levelNodes_ t); snd <$> head (order top).

Definition AddLeafNode (nodeInfo : NodeInfo) (t : Tree) : option TreeNode * Tree :=
  if (length (levelNodes_ t) <? MIN_TREE_LEVEL)%nat then (None, t)
  else
    match FindNodes t 0 !! ni_name nodeInfo with
    | Some node => (Some node, SetNodeInfo node nodeInfo t)
    | None =>
        match head (filter (λ it, CheckAddLeafNode t it.2 (maxLocalSchedPerDomainNode_ t) = true)
                           (order (FindNodes t 1))) with
        | None => (None, t)
        | Some (_, domainNode) =>
            let '(localNode, t) := AddNode nodeInfo 0 t in
            (Some localNode, release (AddChild domainNode localNode t))
        end
    end.

(** [while (!next->CheckAddNonLeafNode(..) && next->GetParent() != nullptr)];
    every turn climbs a level. *)
Fixpoint climb (fuel : nat) (t : Tree) (next : TreeNode) : TreeNode :=
  match fuel with
  | O => next
  | S fuel =>
      if CheckAddNonLeafNode t next (maxDomainSchedPerDomainNode_ t) then next
      else match GetParent t next with None => next | Some p => climb fuel t p end
  end.

Definition AddNonLeafNode (nodeInfo : NodeInfo) (t : Tree) : option TreeNode * Tree :=
  match FindNonLeafNode t (ni_name nodeInfo) with
  | Some node => (Some node, t)
  | None =>
      match nextParent_ t with
      | None =>
          let '(node, t) := AddNode nodeInfo 1 t in
          (Some node, set_nextParent (Some node) t)
      | Some next =>
          let next := climb (S (size (heap_ t))) t next in
          let t := release (set_nextParent (Some next) t) in
          if CheckAddNonLeafNode t next (maxDomainSchedPerDomainNode_ t)
          then
            let childLevel := level_ (at_node t next) - 1 in
            let '(node, t) := AddNode nodeInfo (to_uint16 childLevel) t in
            let t := release (AddChild next node t) in
            (Some node, if CheckAddNonLeafNode t node (maxDomainSchedPerDomainNode_ t)
                        then release (set_nextParent (Some node) t) else t)
          else
            let newParentLevel := level_ (at_node t next) + 1 in
            let '(node, t) := AddNode nodeInfo (to_uint16 newParentLevel) t in
            (Some node, release (set_nextParent (Some node) (AddChild node next t)))
      end
  end.

(** The recursion follows the children of distinct nodes. *)
Fixpoint GetChildrenProto (fuel : nat) (t : Tree) (childNodes : gmap string nat) : list SchedulerNode :=
  match fuel with
  | O => []
  | S fuel =>
      (λ child, let n := at_node t child.2 in
                mkProto (ni_name (nodeInfo_ n)) (ni_address (nodeInfo_ n)) (level_ n)
                  (GetChildrenProto fuel t (children_ n))) <$> order childNodes
  end.
Definition depth (t : Tree) : nat := size (heap_ t) + length (levelNodes_ t).

Definition root_proto (t : Tree) : option SchedulerNode :=
  (λ r, let n := at_node t r in
        mkProto (ni_name (nodeInfo_ n)) (ni_address (nodeInfo_ n)) (level_ n)
          (GetChildrenProto (depth t) t (children_ n))) <$> GetRootNode t.
Definition SerializeAsString {PC : Codec SchedulerNode} (t : Tree) : string :=
  match root_proto t with None => "" | Some root => ser root end.
End ordered.

(** [None] is a write beyond the end of [levelNodes_]. *)
Fixpoint AddChildFromProto (node : TreeNode) (proto : SchedulerNode) (t : Tree) : option Tree :=
  (fix each (children : list SchedulerNode) (t : Tree) : option Tree :=
     match children with
     | [] => Some t
     | child :: children =>
         if p_level child <? 0 then each children t
         else
           let level := to_uint16 (p_level child) in
           let '(childNode, t) := make_shared (mkInfo (p_name child) (p_address child)) (Z.of_nat level) t in
           if (length (levelNodes_ t) <=? level)%nat then None
           else
             let t := AddChild node childNode (put_level level (p_name child) childNode t) in
             t ← AddChildFromProto childNode child t; each children t
     end) (p_children proto) t.

(** [nextParent_] is left as it was. *)
Definition RecoverFromString {PC : Codec SchedulerNode} (topologyInfo : string) (t : Tree) : option (Status * Tree) :=
  match parse topologyInfo with
  | None => Some (mkStatus GS_SCHED_TOPOLOGY_BROKEN "", t)
  | Some root =>
      if p_level root <? 0 then Some (mkStatus FAILED "", t)
      else
        let level := to_uint16 (p_level root) in
        let '(rootNode, t) := make_shared (mkInfo (p_name root) (p_address root)) (Z.of_nat level) t in
        let t := set_levels (replicate (level + 1) ∅) t in
        let t := put_level level (p_name root) rootNode t in
        let t := release t in
        (λ t, (StatusOK, release t)) <$> AddChildFromProto rootNode root t
  end.
End Topo.
