(* ===== verification/SchedTreeProps.v ===== *)
(** * The tree of schedulers stays a tree

    The links of the nodes, the levels and the pointer to the next parent stay
    consistent whatever is added, removed, broken and replaced. *)

From S2P Require Import Prelude SchedTree.
From stdpp Require Import base gmap strings list fin_maps fin_sets relations.
From Stdlib Require Import ZArith Lia.
Import Topo.

Open Scope Z_scope.
Set Default Proof Using "Type".

(** Node [r] is at level [l] under the key [k]. *)
Definition held (t : Tree) (l : nat) (k : string) (r : nat) : Prop := FindNodes t l !! k = Some r.
Definition inside (t : Tree) (r : nat) : Prop := ∃ l k, held t l k r.

Record linked (t : Tree) : Prop := {
  li_node : ∀ l k r, held t l k r → ∃ n, heap_ t !! r = Some n ∧ level_ n = Z.of_nat l;
  li_inj : ∀ l k k' r, held t l k r → held t l k' r → k = k';
  li_child : ∀ l k r n c r', held t l k r → heap_ t !! r = Some n → children_ n !! c = Some r' →
    ∃ l' k' n', l = S l' ∧ held t l' k' r' ∧ heap_ t !! r' = Some n' ∧ parent_ n' = Some r;
  li_child_inj : ∀ l k r n c c' r', held t l k r → heap_ t !! r = Some n →
    children_ n !! c = Some r' → children_ n !! c' = Some r' → c = c';
  li_parent : ∀ l k r n p, held t l k r → heap_ t !! r = Some n → parent_ n = Some p →
    ∃ k' n' c, held t (S l) k' p ∧ heap_ t !! p = Some n' ∧ children_ n' !! c = Some r;
  li_leaf : ∀ k r n, held t 0 k r → heap_ t !! r = Some n → ni_name (nodeInfo_ n) = k ∧
    ∀ p n' c, heap_ t !! p = Some n' → parent_ n = Some p → children_ n' !! c = Some r → c = k;
  li_top : ∀ m, last (levelNodes_ t) = Some m → ∃ k r n, m = {[k := r]} ∧ heap_ t !! r = Some n ∧ parent_ n = None;
  li_rooted : ∀ l k r n, held t l k r → (S l < length (levelNodes_ t))%nat → heap_ t !! r = Some n → is_Some (parent_ n);
  li_fresh : ∀ r, is_Some (heap_ t !! r) → (r < fresh_ t)%nat;
}.

(** ** Heap and levels under the elementary changes *)
Lemma held_length t l k r : held t l k r → (l < length (levelNodes_ t))%nat.
Proof.
  unfold held, FindNodes. destruct (levelNodes_ t !! l) eqn:E; cbn; [by apply lookup_lt_Some in E|done].
Qed.
Lemma held_fun t l k r r' : held t l k r → held t l k r' → r = r'.
Proof. unfold held. congruence. Qed.

Lemma held_level t l l' k k' r : linked t → held t l k r → held t l' k' r → l = l' ∧ k = k'.
Proof.
  intros Hl H1 H2. destruct (li_node _ Hl _ _ _ H1) as (n & E & L). destruct (li_node _ Hl _ _ _ H2) as (n' & E' & L').
  assert (l = l') as -> by (simplify_eq; lia). split; [done|]. by eapply li_inj.
Qed.

Lemma held_owned t l k r : held t l k r → r ∈ owned t.
Proof.
  unfold held, FindNodes, owned. intros H. apply elem_of_union_l.
  destruct (levelNodes_ t !! l) as [m|] eqn:E; [|done]. apply elem_of_union_list. exists (map_img m). split.
  - apply list_elem_of_fmap. exists m. split; [done|]. by eapply list_elem_of_lookup_2.
  - by eapply elem_of_map_img_2.
Qed.

Lemma owned_live t n r : r ∈ owned t → r ∈ Nat.iter n (own_more t) (owned t).
Proof. intros H. induction n as [|n IH]; [done|]. cbn. unfold own_more at 1. set_solver. Qed.

Lemma release_heap t r : r ∈ owned t → heap_ (release t) !! r = heap_ t !! r.
Proof.
  intros H. unfold release. cbn. destruct (heap_ t !! r) as [n|] eqn:E.
  - apply map_lookup_filter_Some. split; [done|]. by apply owned_live.
  - apply map_lookup_filter_None. by left.
Qed.
Lemma release_heap_Some t r n : heap_ (release t) !! r = Some n → heap_ t !! r = Some n.
Proof. unfold release. cbn. intros [H _]%map_lookup_filter_Some. done. Qed.

Lemma release_linked t : linked t → linked (release t).
Proof.
  intros H. assert (Hh : ∀ l k r, held (release t) l k r ↔ held t l k r) by done.
  split.
  - intros l k r Hr. rewrite release_heap by by eapply held_owned. by apply (li_node _ H _ k).
  - apply (li_inj _ H).
  - intros l k r n c r' Hr En%release_heap_Some Ec.
    destruct (li_child _ H _ _ _ _ _ _ Hr En Ec) as (l' & k' & n' & -> & Hr' & En' & Hp).
    exists l', k', n'. rewrite release_heap by by eapply held_owned. done.
  - intros l k r n c c' r' Hr En%release_heap_Some. by eapply (li_child_inj _ H).
  - intros l k r n p Hr En%release_heap_Some Ep.
    destruct (li_parent _ H _ _ _ _ _ Hr En Ep) as (k' & n' & c & Hp & En' & Ec).
    exists k', n', c. rewrite release_heap by by eapply held_owned. done.
  - intros k r n Hr En%release_heap_Some. destruct (li_leaf _ H _ _ _ Hr En) as [Hn Hc]. split; [done|].
    intros p n' c En'%release_heap_Some. by apply Hc.
  - intros m Hm. destruct (li_top _ H _ Hm) as (k & r & n & -> & En & Hp). exists k, r, n.
    split; [done|]. split; [|done]. rewrite release_heap; [done|]. apply (held_owned t (length (levelNodes_ t) - 1) k).
    unfold held, FindNodes. change (levelNodes_ (release t)) with (levelNodes_ t) in Hm. rewrite last_lookup in Hm.
    replace (length (levelNodes_ t) - 1)%nat with (Init.Nat.pred (length (levelNodes_ t))) by lia. rewrite Hm. cbn.
    by rewrite lookup_singleton_eq.
  - intros l k r n Hr Hl En%release_heap_Some. by eapply (li_rooted _ H).
  - intros r [n En%release_heap_Some]. apply (li_fresh _ H). by eexists.
Qed.

(** Changing what a node says of itself keeps the links. *)
Definition links (n : SchedNode) : gmap string nat * option nat * Z := (children_ n, parent_ n, level_ n).

Lemma same_links t t' :
  levelNodes_ t' = levelNodes_ t → fresh_ t' = fresh_ t →
  (∀ r, links <$> heap_ t' !! r = links <$> heap_ t !! r) →
  (∀ k r n, held t 0 k r → heap_ t' !! r = Some n → ni_name (nodeInfo_ n) = k) →
  linked t → linked t'.
Proof.
  intros El Ef Eh Hname H. assert (Hh : ∀ l k r, held t' l k r ↔ held t l k r).
  { intros. unfold held, FindNodes. by rewrite El. }
  assert (Hto : ∀ r n', heap_ t' !! r = Some n' → ∃ n, heap_ t !! r = Some n ∧ links n = links n').
  { intros r n' E. specialize (Eh r). rewrite E in Eh. destruct (heap_ t !! r) as [n|]; cbn in Eh; [|done]. exists n. split; [done|congruence]. }
  assert (Hfrom : ∀ r n, heap_ t !! r = Some n → ∃ n', heap_ t' !! r = Some n' ∧ links n = links n').
  { intros r n E. specialize (Eh r). rewrite E in Eh. destruct (heap_ t' !! r) as [n'|]; cbn in Eh; [|done]. exists n'. split; [done|congruence]. }
  unfold links in *. split; try setoid_rewrite Hh.
  - intros l k r Hr. destruct (li_node _ H _ _ _ Hr) as (n & E & L). destruct (Hfrom _ _ E) as (n' & E' & [=]).
    exists n'. split; [done|congruence].
  - apply (li_inj _ H).
  - intros l k r n' c r' Hr E' Ec. destruct (Hto _ _ E') as (n & E & [=]).
    destruct (li_child _ H l k r n c r') as (l1 & k1 & n1 & -> & Hr1 & E1 & P1); [done..|congruence|].
    destruct (Hfrom _ _ E1) as (n2 & E2 & [=]). exists l1, k1, n2. split_and!; [done..|congruence].
  - intros l k r n' c c' r' Hr E' Ec Ec'. destruct (Hto _ _ E') as (n & E & [=]).
    apply (li_child_inj _ H l k r n c c' r'); congruence.
  - intros l k r n' p Hr E' Ep. destruct (Hto _ _ E') as (n & E & [=]).
    destruct (li_parent _ H l k r n p) as (k1 & n1 & c & Hr1 & E1 & C1); [done..|congruence|].
    destruct (Hfrom _ _ E1) as (n2 & E2 & [=]). exists k1, n2, c. split_and!; [done..|congruence].
  - intros k r n' Hr E'. split; [by eapply Hname|]. intros p np' c Ep' Ep Ec. destruct (Hto _ _ E') as (n & E & [=]).
    destruct (Hto _ _ Ep') as (np & Enp & [=]). apply (proj2 (li_leaf _ H k r n Hr E) p np c); congruence.
  - rewrite El. intros m Hm. destruct (li_top _ H _ Hm) as (k & r & n & -> & E & P).
    destruct (Hfrom _ _ E) as (n' & E' & [=]). exists k, r, n'. split_and!; [done..|congruence].
  - rewrite El. intros l k r n' Hr Hl E'. destruct (Hto _ _ E') as (n & E & [=]).
    replace (parent_ n') with (parent_ n) by congruence. by eapply (li_rooted _ H).
  - rewrite Ef. intros r [n' E']. destruct (Hto _ _ E') as (n & E & _). apply (li_fresh _ H). by eexists.
Qed.

(** ** Hanging a new node below a node of the level above *)
Definition graft (p : nat) (info : NodeInfo) (l : nat) (t : Tree) : nat * Tree :=
  let r := make_shared info (Z.of_nat l) t in
  (r.1, AddChild p r.1 (put_level l (ni_name info) r.1 r.2)).

Definition new_child (p : nat) (info : NodeInfo) (l : nat) : SchedNode := mkNode ∅ (Some p) info CONNECTED (Z.of_nat l).
Definition with_child (name : string) (r : nat) (n : SchedNode) : SchedNode := set_children (<[name := r]> (children_ n)) n.

Lemma graft_levels p info l t :
  levelNodes_ (graft p info l t).2 = alter <[ni_name info := fresh_ t]> l (levelNodes_ t).
Proof. done. Qed.

Lemma graft_held p info l t l' k' r' :
  (l < length (levelNodes_ t))%nat →
  held (graft p info l t).2 l' k' r' ↔
    (l' = l ∧ k' = ni_name info ∧ r' = fresh_ t) ∨ (¬ (l' = l ∧ k' = ni_name info) ∧ held t l' k' r').
Proof.
  intros Hl. unfold held, FindNodes. rewrite graft_levels. destruct (decide (l' = l)) as [->|Hne].
  - rewrite list_lookup_alter_eq. destruct (lookup_lt_is_Some_2 _ _ Hl) as [m Em]. rewrite Em. cbn.
    destruct (decide (k' = ni_name info)) as [->|Hk]; [rewrite lookup_insert_eq|rewrite lookup_insert_ne by done]; naive_solver.
  - rewrite list_lookup_alter_ne by done. naive_solver.
Qed.

Lemma graft_heap p info l t :
  p ≠ fresh_ t →
  heap_ (graft p info l t).2 =
  <[fresh_ t := new_child p info l]> (alter (with_child (ni_name info) (fresh_ t)) p (heap_ t)).
Proof.
  intros Hne. unfold graft, AddChild, SetParent, on_node, at_node. cbn. rewrite lookup_insert_eq. cbn.
  rewrite alter_insert_ne by done. by rewrite alter_insert_eq.
Qed.

Section graft.
Context (t : Tree) (p : nat) (info : NodeInfo) (l : nat) (kp : string) (np : SchedNode).
Context (H : linked t) (Hp : held t (S l) kp p) (Enp : heap_ t !! p = Some np).
Context (Hfree : FindNodes t l !! ni_name info = None) (Hcfree : children_ np !! ni_name info = None).
Abbreviation t' := (graft p info l t).2.
Abbreviation r0 := (fresh_ t).

Lemma graft_ne : p ≠ r0.
Proof using H Enp. assert (p < r0)%nat by (apply (li_fresh _ H); by eexists). lia. Qed.
Lemma graft_lt : (l < length (levelNodes_ t))%nat.
Proof using Hp. apply held_length in Hp. lia. Qed.

Lemma graft_old r n : heap_ t !! r = Some n → r ≠ r0.
Proof using H. intros E. assert (r < r0)%nat by (apply (li_fresh _ H); by eexists). lia. Qed.

Lemma graft_lookup r n' :
  heap_ t' !! r = Some n' ↔
  (r = r0 ∧ n' = new_child p info l) ∨ (r = p ∧ n' = with_child (ni_name info) r0 np) ∨
  (r ≠ r0 ∧ r ≠ p ∧ heap_ t !! r = Some n').
Proof using H Enp.
  rewrite graft_heap by apply graft_ne. pose proof graft_ne as Hne. destruct (decide (r = r0)) as [->|Hr].
  - rewrite lookup_insert_eq. naive_solver.
  - rewrite lookup_insert_ne by done. destruct (decide (r = p)) as [->|Hrp].
    + rewrite lookup_alter_eq, Enp. cbn. naive_solver.
    + rewrite lookup_alter_ne by done. naive_solver.
Qed.

(** An old node keeps all but the children of [p]. *)
Lemma graft_keeps r n :
  heap_ t !! r = Some n →
  ∃ n', heap_ t' !! r = Some n' ∧ parent_ n' = parent_ n ∧ level_ n' = level_ n ∧ nodeInfo_ n' = nodeInfo_ n ∧
    ∀ c x, children_ n' !! c = Some x ↔ (r = p ∧ c = ni_name info ∧ x = r0) ∨ children_ n !! c = Some x.
Proof using H Enp Hcfree.
  intros E. destruct (decide (r = p)) as [->|Hrp].
  - simplify_eq. exists (with_child (ni_name info) r0 np). split; [apply graft_lookup; auto|]. split_and!; [done..|].
    intros c x. cbn. destruct (decide (c = ni_name info)) as [->|Hc].
    + rewrite lookup_insert_eq. naive_solver.
    + rewrite lookup_insert_ne by done. naive_solver.
  - exists n. split; [apply graft_lookup; right; right; split_and!; [by eapply graft_old|done..]|]. split_and!; [done..|].
    naive_solver.
Qed.

Lemma graft_from r n' :
  heap_ t' !! r = Some n' → (r = r0 ∧ n' = new_child p info l) ∨
  ∃ n, r ≠ r0 ∧ heap_ t !! r = Some n ∧ parent_ n' = parent_ n ∧ level_ n' = level_ n ∧ nodeInfo_ n' = nodeInfo_ n ∧
    ∀ c x, children_ n' !! c = Some x ↔ (r = p ∧ c = ni_name info ∧ x = r0) ∨ children_ n !! c = Some x.
Proof using H Enp Hcfree.
  intros E. destruct (decide (r = r0)) as [->|Hr].
  - left. apply graft_lookup in E as [[_ ->]|[[E _]|(E & _)]]; [done| |done]. exfalso. by apply graft_ne.
  - right. assert (∃ n, heap_ t !! r = Some n) as [n En].
    { apply graft_lookup in E as [[? _]|[[-> _]|(_ & _ & E)]]; [done| |]; by eexists. }
    destruct (graft_keeps r n En) as (n1 & E1 & P). assert (n1 = n') as -> by congruence. exists n. naive_solver.
Qed.

Lemma graft_held_iff l' k' r' :
  held t' l' k' r' ↔ (l' = l ∧ k' = ni_name info ∧ r' = r0) ∨ held t l' k' r'.
Proof using Hp Hfree.
  rewrite graft_held by apply graft_lt. split; [naive_solver|]. intros [?|Hh]; [by left|]. right. split; [|done].
  intros [-> ->]. unfold held in Hh. by rewrite Hfree in Hh.
Qed.

Lemma graft_held_old l' k' r' : held t' l' k' r' → r' ≠ r0 → held t l' k' r'.
Proof using Hp Hfree. rewrite graft_held_iff. naive_solver. Qed.
Lemma held_not_new l' k' : ¬ held t l' k' r0.
Proof using H. intros Hh. destruct (li_node _ H _ _ _ Hh) as (n & E & _). by apply graft_old in E. Qed.

(** A node of the new tree is the new node or an old one. *)
Lemma graft_cases l' k r n' :
  held t' l' k r → heap_ t' !! r = Some n' →
  (l' = l ∧ k = ni_name info ∧ r = r0 ∧ n' = new_child p info l) ∨
  ∃ n, r ≠ r0 ∧ held t l' k r ∧ heap_ t !! r = Some n ∧ parent_ n' = parent_ n ∧ nodeInfo_ n' = nodeInfo_ n ∧
    ∀ c x, children_ n' !! c = Some x ↔ (r = p ∧ c = ni_name info ∧ x = r0) ∨ children_ n !! c = Some x.
Proof using H Hp Enp Hfree Hcfree.
  intros Hh [[Er ->]|(n & Hne & E & EP & EL & EI & EC)]%graft_from.
  - left. apply graft_held_iff in Hh as [(-> & -> & _)|Hh]; [done|]. rewrite Er in Hh. by apply held_not_new in Hh.
  - right. exists n. split_and!; [done|by apply graft_held_old|done..].
Qed.

Lemma graft_old_held l' k r : held t l' k r → held t' l' k r.
Proof using Hp Hfree. rewrite graft_held_iff. auto. Qed.
Lemma graft_new_held : held t' l (ni_name info) r0.
Proof using Hp Hfree. rewrite graft_held_iff. auto. Qed.
Lemma graft_new_heap : heap_ t' !! r0 = Some (new_child p info l).
Proof using H Enp. rewrite graft_lookup. auto. Qed.

Lemma graft_top m : last (levelNodes_ t') = Some m → last (levelNodes_ t) = Some m.
Proof using Hp.
  rewrite graft_levels, !last_lookup, length_alter, list_lookup_alter_ne; [done|]. apply held_length in Hp. lia.
Qed.

Lemma graft_child l' k r n' c r' :
  held t' l' k r → heap_ t' !! r = Some n' → children_ n' !! c = Some r' →
  ∃ l1 k1 n1, l' = S l1 ∧ held t' l1 k1 r' ∧ heap_ t' !! r' = Some n1 ∧ parent_ n1 = Some r.
Proof using H Hp Enp Hfree Hcfree.
  intros Hr En Ec. destruct (graft_cases _ _ _ _ Hr En) as [(_ & _ & _ & ->)|(n & _ & Hr' & E & _ & _ & EC)]; [done|].
  destruct (proj1 (EC _ _) Ec) as [(-> & _ & ->)|Ec'].
  - destruct (held_level _ _ _ _ _ _ H Hp Hr') as [<- _]. exists l, (ni_name info), (new_child p info l).
    split_and!; [done|apply graft_new_held|apply graft_new_heap|done].
  - destruct (li_child _ H _ _ _ _ _ _ Hr' E Ec') as (l1 & k1 & n1 & -> & Hr1 & E1 & P1).
    destruct (graft_keeps _ _ E1) as (n2 & E2 & P2 & _). exists l1, k1, n2.
    split_and!; [done|by apply graft_old_held|done|congruence].
Qed.

Lemma old_child_not_new l' k r n c : held t l' k r → heap_ t !! r = Some n → children_ n !! c ≠ Some r0.
Proof using H.
  intros Hr E Ec. destruct (li_child _ H _ _ _ _ _ _ Hr E Ec) as (? & ? & ? & _ & Hr1 & _). by apply held_not_new in Hr1.
Qed.

Lemma graft_child_inj l' k r n' c c' r' :
  held t' l' k r → heap_ t' !! r = Some n' → children_ n' !! c = Some r' → children_ n' !! c' = Some r' → c = c'.
Proof using H Hp Enp Hfree Hcfree.
  intros Hr En. destruct (graft_cases _ _ _ _ Hr En) as [(_ & _ & _ & ->)|(n & _ & Hr' & E & _ & _ & EC)]; [done|].
  rewrite !EC. intros [(_ & -> & ->)|Ec] [(_ & -> & Er)|Ec']; [done| | |].
  - by apply (old_child_not_new _ _ _ _ _ Hr' E) in Ec'.
  - rewrite Er in Ec. by apply (old_child_not_new _ _ _ _ _ Hr' E) in Ec.
  - by eapply (li_child_inj _ H).
Qed.

Lemma graft_parent l' k r n' q :
  held t' l' k r → heap_ t' !! r = Some n' → parent_ n' = Some q →
  ∃ k1 n1 c, held t' (S l') k1 q ∧ heap_ t' !! q = Some n1 ∧ children_ n1 !! c = Some r.
Proof using H Hp Enp Hfree Hcfree.
  intros Hr En Eq. destruct (graft_cases _ _ _ _ Hr En) as [(-> & -> & -> & ->)|(n & _ & Hr' & E & EP & _ & EC)].
  - injection Eq as <-. destruct (graft_keeps _ _ Enp) as (n2 & E2 & _ & _ & _ & C2). exists kp, n2, (ni_name info).
    split_and!; [by apply graft_old_held|done|]. apply C2. by left.
  - rewrite EP in Eq. destruct (li_parent _ H _ _ _ _ _ Hr' E Eq) as (k1 & n1 & c & Hr1 & E1 & C1).
    destruct (graft_keeps _ _ E1) as (n2 & E2 & _ & _ & _ & C2). exists k1, n2, c.
    split_and!; [by apply graft_old_held|done|]. apply C2. by right.
Qed.

Lemma graft_leaf k r n' :
  held t' 0 k r → heap_ t' !! r = Some n' → ni_name (nodeInfo_ n') = k ∧
  ∀ q nq c, heap_ t' !! q = Some nq → parent_ n' = Some q → children_ nq !! c = Some r → c = k.
Proof using H Hp Enp Hfree Hcfree.
  intros Hr En. destruct (graft_cases _ _ _ _ Hr En) as [(_ & -> & -> & ->)|(n & Hne & Hr' & E & EP & EI & EC)].
  - split; [done|]. intros q nq c [[-> ->]|(n & _ & E & _ & _ & _ & EC)]%graft_from [= <-]; [done|].
    rewrite EC. intros [(_ & -> & _)|Ec]; [done|]. by apply (old_child_not_new _ _ _ _ _ Hp E) in Ec.
  - rewrite EI, EP. destruct (li_leaf _ H _ _ _ Hr' E) as [Hn Hc]. split; [done|].
    intros q nq c [[-> ->]|(n1 & _ & E1 & _ & _ & _ & EC1)]%graft_from Eq; [done|].
    rewrite EC1. intros [(_ & _ & Er)|Ec]; [done|]. by eapply Hc.
Qed.

Lemma graft_linked : linked t'.
Proof using H Hp Enp Hfree Hcfree.
  split.
  - intros l' k r [(-> & -> & ->)|Hr]%graft_held_iff; [eexists; split; [apply graft_new_heap|done]|].
    destruct (li_node _ H _ _ _ Hr) as (n & E & L). destruct (graft_keeps _ _ E) as (n' & E' & _ & L' & _).
    exists n'. by rewrite L'.
  - intros l' k k' r [(_ & -> & ->)|Hr]%graft_held_iff [(_ & -> & Er)|Hr']%graft_held_iff; [done| | |].
    + by apply held_not_new in Hr'.
    + rewrite Er in Hr. by apply held_not_new in Hr.
    + by eapply (li_inj _ H).
  - apply graft_child.
  - apply graft_child_inj.
  - apply graft_parent.
  - apply graft_leaf.
  - intros m Hm%graft_top. destruct (li_top _ H _ Hm) as (k & r & n & -> & E & P).
    destruct (graft_keeps _ _ E) as (n2 & E2 & P2 & _). exists k, r, n2. split_and!; [done..|congruence].
  - rewrite graft_levels, length_alter. intros l' k r n' Hr Hl En.
    destruct (graft_cases _ _ _ _ Hr En) as [(_ & _ & _ & ->)|(n & _ & Hr' & E & EP & _)]; [by eexists|].
    rewrite EP. by eapply (li_rooted _ H).
  - intros r [n' [[-> _]|(n & _ & E & _)]%graft_from]; cbn; [lia|].
    assert (r < r0)%nat by (apply (li_fresh _ H); by eexists). lia.
Qed.
End graft.

Lemma AddNode_fst info l t : (AddNode info l t).1 = fresh_ t.
Proof. done. Qed.
Lemma AddNode_fresh info l t : fresh_ (AddNode info l t).2 = S (fresh_ t).
Proof. unfold AddNode. cbn -[Nat.ltb Nat.add]. by destruct (_ <? _)%nat. Qed.
Lemma AddNode_heap info l t :
  heap_ (AddNode info l t).2 = <[fresh_ t := make_node info (Z.of_nat l)]> (heap_ t).
Proof. unfold AddNode. cbn -[Nat.ltb Nat.add]. by destruct (_ <? _)%nat. Qed.
Lemma AddNode_low info l t :
  (l < length (levelNodes_ t))%nat → (AddNode info l t).2 = put_level l (ni_name info) (fresh_ t) (make_shared info (Z.of_nat l) t).2.
Proof. intros Hl. unfold AddNode. cbn -[Nat.ltb Nat.add]. by rewrite (proj2 (Nat.ltb_ge _ _)) by lia. Qed.

(** ** A new root above the old one *)
Definition crown (next : nat) (info : NodeInfo) (t : Tree) : nat * Tree :=
  let r := AddNode info (length (levelNodes_ t)) t in
  (r.1, AddChild r.1 next r.2).

Definition new_root (name : string) (next : nat) (info : NodeInfo) (l : nat) : SchedNode :=
  mkNode {[name := next]} None info CONNECTED (Z.of_nat l).

Lemma alter_last {A} (f : A → A) (l : list A) x : alter f (length l) (l ++ [x]) = l ++ [f x].
Proof. replace (length l) with (length l + 0)%nat by lia. by rewrite alter_app_r. Qed.

Lemma crown_levels next info t :
  levelNodes_ (crown next info t).2 = levelNodes_ t ++ [{[ni_name info := fresh_ t]}].
Proof.
  unfold crown, AddNode. cbn -[Nat.ltb Nat.add]. rewrite (proj2 (Nat.ltb_lt _ _)) by lia. cbn -[Nat.sub Nat.add].
  replace (length (levelNodes_ t) + 1 - length (levelNodes_ t))%nat with 1%nat by lia. cbn.
  by rewrite alter_last, insert_empty.
Qed.

Section crown.
Context (t : Tree) (next : nat) (info : NodeInfo) (k0 : string) (n0 : SchedNode).
Context (H : linked t) (Htop : last (levelNodes_ t) = Some {[k0 := next]}) (En0 : heap_ t !! next = Some n0).
Abbreviation t' := (crown next info t).2.
Abbreviation r0 := (fresh_ t).
Abbreviation L := (length (levelNodes_ t)).

Lemma crown_old r n : heap_ t !! r = Some n → r ≠ r0.
Proof using H. intros E. assert (r < r0)%nat by (apply (li_fresh _ H); by eexists). lia. Qed.

Lemma crown_heap :
  heap_ t' = <[r0 := new_root (ni_name (nodeInfo_ n0)) next info L]> (alter (set_parent (Some r0)) next (heap_ t)).
Proof using H En0.
  unfold crown, AddChild, SetParent, on_node, at_node. cbn -[AddNode]. rewrite AddNode_heap, AddNode_fst.
  pose proof (crown_old _ _ En0).
  rewrite lookup_insert_ne by done. rewrite En0, alter_insert_eq, alter_insert_ne by done. done.
Qed.

Lemma crown_keeps r n :
  heap_ t !! r = Some n →
  ∃ n', heap_ t' !! r = Some n' ∧ children_ n' = children_ n ∧ level_ n' = level_ n ∧ nodeInfo_ n' = nodeInfo_ n ∧
    parent_ n' = if decide (r = next) then Some r0 else parent_ n.
Proof using H En0.
  intros E. rewrite crown_heap, lookup_insert_ne by by eapply not_eq_sym, crown_old.
  destruct (decide (r = next)) as [->|Hne].
  - rewrite lookup_alter_eq, E. cbn. eexists. done.
  - rewrite lookup_alter_ne by done. by exists n.
Qed.

Lemma crown_from r n' :
  heap_ t' !! r = Some n' → (r = r0 ∧ n' = new_root (ni_name (nodeInfo_ n0)) next info L) ∨
  ∃ n, r ≠ r0 ∧ heap_ t !! r = Some n ∧ children_ n' = children_ n ∧ nodeInfo_ n' = nodeInfo_ n ∧
    parent_ n' = if decide (r = next) then Some r0 else parent_ n.
Proof using H En0.
  intros E. destruct (decide (r = r0)) as [->|Hr].
  - left. rewrite crown_heap, lookup_insert_eq in E. naive_solver.
  - right. assert (∃ n, heap_ t !! r = Some n) as [n En].
    { rewrite crown_heap, lookup_insert_ne in E by done. destruct (decide (r = next)) as [->|]; [by eexists|].
      rewrite lookup_alter_ne in E by done. by eexists. }
    destruct (crown_keeps r n En) as (n1 & E1 & P). assert (n1 = n') as -> by congruence. exists n. naive_solver.
Qed.

Lemma crown_held l k r : held t' l k r ↔ (l = L ∧ k = ni_name info ∧ r = r0) ∨ held t l k r.
Proof.
  unfold held, FindNodes. rewrite crown_levels. destruct (decide (l < L)%nat) as [Hl|Hl].
  - rewrite lookup_app_l by done. split; [by right|]. intros [(-> & _)|?]; [lia|done].
  - rewrite lookup_app_r by lia. destruct (decide (l = L)) as [->|Hne].
    + rewrite Nat.sub_diag. cbn. rewrite lookup_singleton_Some.
      rewrite (lookup_ge_None_2 (levelNodes_ t) L) by lia. cbn. rewrite lookup_empty. naive_solver.
    + rewrite !lookup_ge_None_2 by (cbn; lia). cbn. rewrite lookup_empty. naive_solver.
Qed.

Lemma crown_cases l k r n' :
  held t' l k r → heap_ t' !! r = Some n' →
  (l = L ∧ k = ni_name info ∧ r = r0 ∧ n' = new_root (ni_name (nodeInfo_ n0)) next info L) ∨
  ∃ n, held t l k r ∧ heap_ t !! r = Some n ∧ children_ n' = children_ n ∧ nodeInfo_ n' = nodeInfo_ n ∧
    parent_ n' = if decide (r = next) then Some r0 else parent_ n.
Proof using H En0.
  intros [(-> & -> & ->)|Hr]%crown_held E; (destruct (crown_from _ _ E) as [[Er ->]|(n & Hne & En & P)]; [|try done]).
  - by left.
  - destruct (li_node _ H _ _ _ Hr) as (n & En & _). by apply crown_old in En.
  - right. exists n. done.
Qed.

Lemma crown_next : ∃ l, L = S l ∧ held t l k0 next.
Proof using Htop.
  rewrite last_lookup in Htop. destruct L as [|l] eqn:EL; [by apply nil_length_inv in EL; rewrite EL in Htop|].
  exists l. split; [done|]. cbn in Htop. unfold held, FindNodes. rewrite Htop. cbn. by rewrite lookup_singleton_eq.
Qed.
Lemma crown_next_parent : parent_ n0 = None.
Proof using H Htop En0.
  destruct (li_top _ H _ Htop) as (k & r & n & E & En & P).
  assert (next = r) as -> by (apply (f_equal (.!! k)) in E; rewrite lookup_singleton_eq in E;
    apply lookup_singleton_Some in E as [_ ->]; done). congruence.
Qed.
Lemma crown_new_heap : heap_ t' !! r0 = Some (new_root (ni_name (nodeInfo_ n0)) next info L).
Proof using H En0. by rewrite crown_heap, lookup_insert_eq. Qed.
Lemma crown_not_new l k : ¬ held t l k r0.
Proof using H. intros Hh. destruct (li_node _ H _ _ _ Hh) as (n & E & _). by apply crown_old in E. Qed.

Lemma crown_parent l k r n' q :
  held t' l k r → heap_ t' !! r = Some n' → parent_ n' = Some q →
  ∃ k1 n1 c, held t' (S l) k1 q ∧ heap_ t' !! q = Some n1 ∧ children_ n1 !! c = Some r.
Proof using H Htop En0.
  intros Hr E Eq. destruct (crown_cases _ _ _ _ Hr E) as [(_ & _ & _ & ->)|(n & Hr' & En & _ & _ & EP)]; [done|].
  rewrite EP in Eq. destruct (decide (r = next)) as [->|Hne].
  - injection Eq as <-. destruct crown_next as (l0 & EL & Hn). destruct (held_level _ _ _ _ _ _ H Hr' Hn) as [-> ->].
    exists (ni_name info). eexists _, _. rewrite <- EL. split_and!; [apply crown_held; auto|apply crown_new_heap|].
    cbn. apply lookup_singleton_eq.
  - destruct (li_parent _ H _ _ _ _ _ Hr' En Eq) as (k1 & n1 & c & Hq & E1 & C1).
    destruct (crown_keeps _ _ E1) as (n2 & E2 & C2 & _). exists k1, n2, c.
    split_and!; [apply crown_held; by right|done|by rewrite C2].
Qed.

Lemma crown_child l k r n' c r' :
  held t' l k r → heap_ t' !! r = Some n' → children_ n' !! c = Some r' →
  ∃ l1 k1 n1, l = S l1 ∧ held t' l1 k1 r' ∧ heap_ t' !! r' = Some n1 ∧ parent_ n1 = Some r.
Proof using H Htop En0.
  intros Hr E Ec. destruct (crown_cases _ _ _ _ Hr E) as [(-> & -> & -> & ->)|(n & Hr' & En & EC & _ & _)].
  - cbn in Ec. apply lookup_singleton_Some in Ec as [_ <-]. destruct crown_next as (l0 & EL & Hn).
    destruct (crown_keeps _ _ En0) as (n2 & E2 & _ & _ & _ & P2). exists l0, k0, n2.
    split_and!; [done|apply crown_held; by right|done|]. by rewrite decide_True in P2.
  - rewrite EC in Ec. destruct (li_child _ H _ _ _ _ _ _ Hr' En Ec) as (l1 & k1 & n1 & -> & Hr1 & E1 & P1).
    destruct (crown_keeps _ _ E1) as (n2 & E2 & _ & _ & _ & P2). exists l1, k1, n2.
    split_and!; [done|apply crown_held; by right|done|]. rewrite P2, decide_False; [done|]. intros ->.
    assert (n1 = n0) as -> by congruence. pose proof crown_next_parent. congruence.
Qed.

Lemma crown_linked : (2 ≤ L)%nat → linked t'.
Proof using H Htop En0.
  intros HL. split.
  - intros l k r [(-> & -> & ->)|Hr]%crown_held; [eexists; split; [apply crown_new_heap|done]|].
    destruct (li_node _ H _ _ _ Hr) as (n & E & EL). destruct (crown_keeps _ _ E) as (n' & E' & _ & L' & _).
    exists n'. by rewrite L'.
  - intros l k k' r [(_ & -> & ->)|Hr]%crown_held [(_ & -> & Er)|Hr']%crown_held; [done| | |].
    + by apply crown_not_new in Hr'.
    + rewrite Er in Hr. by apply crown_not_new in Hr.
    + by eapply (li_inj _ H).
  - apply crown_child.
  - intros l k r n' c c' r' Hr E. destruct (crown_cases _ _ _ _ Hr E) as [(_ & _ & _ & ->)|(n & Hr' & En & -> & _)].
    + cbn. rewrite !lookup_singleton_Some. naive_solver.
    + by eapply (li_child_inj _ H).
  - apply crown_parent.
  - intros k r n' Hr E. destruct (crown_cases _ _ _ _ Hr E) as [(EL & _)|(n & Hr' & En & _ & -> & EP)]; [lia|].
    rewrite EP. rewrite decide_False.
    + destruct (li_leaf _ H _ _ _ Hr' En) as [Hn Hc]. split; [done|].
      intros q nq c [[-> ->]|(n1 & _ & E1 & C1 & _)]%crown_from Eq; [|rewrite C1; by eapply Hc].
      destruct (li_parent _ H _ _ _ _ _ Hr' En Eq) as (k1 & n1 & _ & Hq & _). by apply crown_not_new in Hq.
    + intros ->. destruct crown_next as (l0 & EL & Hn). destruct (held_level _ _ _ _ _ _ H Hr' Hn) as [? _]. lia.
  - rewrite crown_levels, last_snoc. intros m [= <-]. eexists _, _, _. split_and!; [done|apply crown_new_heap|done].
  - rewrite crown_levels, length_app. cbn. intros l k r n' Hr Hl E.
    destruct (crown_cases _ _ _ _ Hr E) as [(EL & _)|(n & Hr' & En & _ & _ & ->)]; [lia|].
    destruct (decide (r = next)) as [->|Hne]; [by eexists|].
    destruct (decide (S l < L)%nat) as [Hl'|Hl']; [by eapply (li_rooted _ H)|]. exfalso. apply Hne.
    rewrite last_lookup in Htop. replace (Init.Nat.pred L) with l in Htop by lia.
    unfold held, FindNodes in Hr'. rewrite Htop in Hr'. cbn in Hr'. by apply lookup_singleton_Some in Hr' as [_ ->].
  - intros r Hr. change (fresh_ t') with (fresh_ (AddNode info L t).2). rewrite AddNode_fresh.
    destruct Hr as [n' [[-> _]|(n & _ & E & _)]%crown_from]; [lia|].
    assert (r < r0)%nat by (apply (li_fresh _ H); by eexists). lia.
Qed.
End crown.

(** ** The first domain node *)
Lemma first_levels (info : NodeInfo) t :
  levelNodes_ t = [] → levelNodes_ (AddNode info 1 t).2 = [∅; {[ni_name info := fresh_ t]}].
Proof. intros El. unfold AddNode. cbn. by rewrite El. Qed.
Lemma first_held (info : NodeInfo) t l k r :
  levelNodes_ t = [] → held (AddNode info 1 t).2 l k r ↔ l = 1%nat ∧ k = ni_name info ∧ r = fresh_ t.
Proof.
  intros El. unfold held, FindNodes. rewrite first_levels by done. destruct l as [|[|l]]; cbn; [naive_solver| |naive_solver].
  rewrite lookup_singleton_Some. naive_solver.
Qed.
Lemma first_linked (info : NodeInfo) t :
  levelNodes_ t = [] → (∀ r, is_Some (heap_ t !! r) → (r < fresh_ t)%nat) → linked (AddNode info 1 t).2.
Proof.
  intros El Hf. pose proof (first_levels info t El) as Elv. pose proof (AddNode_heap info 1 t) as Eh. pose proof (AddNode_fresh info 1 t) as Ef.
  assert (Hh : ∀ l k r, held (AddNode info 1 t).2 l k r → l = 1%nat ∧ k = ni_name info ∧ r = fresh_ t).
  { intros l k r. by apply first_held. }
  split.
  - intros l k r (-> & -> & ->)%Hh. rewrite Eh, lookup_insert_eq. by eexists.
  - intros l k k' r (_ & -> & _)%Hh (_ & -> & _)%Hh. done.
  - intros l k r n c r' (-> & -> & ->)%Hh. rewrite Eh, lookup_insert_eq. intros [= <-]. done.
  - intros l k r n c c' r' (-> & -> & ->)%Hh. rewrite Eh, lookup_insert_eq. intros [= <-]. done.
  - intros l k r n p (-> & -> & ->)%Hh. rewrite Eh, lookup_insert_eq. intros [= <-]. done.
  - intros k r n (? & _)%Hh. done.
  - rewrite Elv. intros m [= <-]. eexists _, _, _. rewrite Eh, lookup_insert_eq. done.
  - rewrite Elv. intros l k r n (-> & _)%Hh Hl. cbn in Hl. lia.
  - rewrite Eh, Ef. intros r. rewrite lookup_insert_is_Some. intros [<-|[_ Hr]]; [lia|]. specialize (Hf r Hr). lia.
Qed.

(** ** Removing a leaf *)
Section prune.
Context (t : Tree) (name : string) (leaf p : nat) (nl : SchedNode).
Context (H : linked t) (Hleaf : held t 0 name leaf) (Enl : heap_ t !! leaf = Some nl) (Hpar : parent_ nl = Some p).
Abbreviation t1 := (RemoveChild p name t).
Abbreviation t' := (set_levels (alter (delete name) 0%nat (levelNodes_ t)) t1).
Abbreviation without_child := (λ n : SchedNode, set_children (delete name (children_ n)) n).

Lemma prune_held l k r : held t' l k r ↔ ¬ (l = 0%nat ∧ k = name) ∧ held t l k r.
Proof using Type.
  clear H Hleaf Enl Hpar.
  unfold held, FindNodes. cbn. destruct l as [|l].
  - rewrite list_lookup_alter_eq. destruct (levelNodes_ t !! 0%nat) as [m|]; cbn.
    + rewrite lookup_delete_Some. naive_solver.
    + rewrite lookup_empty. naive_solver.
  - rewrite list_lookup_alter_ne by done. naive_solver.
Qed.

Lemma prune_heap r n' :
  heap_ t' !! r = Some n' ↔ ∃ n, heap_ t !! r = Some n ∧ n' = if decide (r = p) then without_child n else n.
Proof using Type.
  clear H Hleaf Enl Hpar.
  cbn. destruct (decide (r = p)) as [->|Hne].
  - rewrite lookup_alter_eq, fmap_Some. naive_solver.
  - rewrite lookup_alter_ne by done. naive_solver.
Qed.

(** What remains is a node with the same parent, level and information. *)
Lemma prune_keeps r n :
  heap_ t !! r = Some n →
  ∃ n', heap_ t' !! r = Some n' ∧ parent_ n' = parent_ n ∧ level_ n' = level_ n ∧ nodeInfo_ n' = nodeInfo_ n ∧
    ∀ c x, children_ n' !! c = Some x ↔ ¬ (r = p ∧ c = name) ∧ children_ n !! c = Some x.
Proof using Type.
  clear H Hleaf Enl Hpar.
  intros E. eexists. split; [apply prune_heap; by exists n|]. destruct (decide (r = p)) as [->|Hne]; cbn.
  - split_and!; [done..|]. intros c x. rewrite lookup_delete_Some. naive_solver.
  - split_and!; [done..|]. naive_solver.
Qed.
Lemma prune_from r n' :
  heap_ t' !! r = Some n' →
  ∃ n, heap_ t !! r = Some n ∧ parent_ n' = parent_ n ∧ level_ n' = level_ n ∧ nodeInfo_ n' = nodeInfo_ n ∧
    ∀ c x, children_ n' !! c = Some x ↔ ¬ (r = p ∧ c = name) ∧ children_ n !! c = Some x.
Proof using Type.
  clear H Hleaf Enl Hpar.
  intros E. destruct (proj1 (prune_heap _ _) E) as (n & En & _). destruct (prune_keeps r n En) as (n1 & E1 & P).
  assert (n1 = n') as -> by congruence. exists n. naive_solver.
Qed.

(** The removed leaf is a child of [p] under its name, and of nothing else. *)
Lemma prune_only r n c l k : held t l k r → heap_ t !! r = Some n → children_ n !! c = Some leaf → r = p ∧ c = name.
Proof using H Hleaf Enl Hpar.
  intros Hr En Ec. destruct (li_child _ H _ _ _ _ _ _ Hr En Ec) as (l1 & k1 & n1 & _ & _ & E1 & P1).
  assert (r = p) as -> by congruence. split; [done|].
  exact (proj2 (li_leaf _ H _ _ _ Hleaf Enl) p n c En Hpar Ec).
Qed.

Lemma prune_linked : linked t'.
Proof using H Hleaf Enl Hpar.
  split.
  - intros l k r [_ Hr]%prune_held. destruct (li_node _ H _ _ _ Hr) as (n & E & L).
    destruct (prune_keeps _ _ E) as (n' & E' & _ & L' & _). exists n'. by rewrite L'.
  - intros l k k' r [_ Hr]%prune_held [_ Hr']%prune_held. by eapply (li_inj _ H).
  - intros l k r n' c r' [_ Hr]%prune_held (n & En & _ & _ & _ & EC)%prune_from [Hne Ec]%EC.
    destruct (li_child _ H _ _ _ _ _ _ Hr En Ec) as (l1 & k1 & n1 & -> & Hr1 & E1 & P1).
    destruct (prune_keeps _ _ E1) as (n2 & E2 & P2 & _). exists l1, k1, n2. split_and!; [done| |done|congruence].
    apply prune_held. split; [|done]. intros [-> ->]. assert (r' = leaf) as -> by (eapply held_fun; eauto).
    by destruct (prune_only _ _ _ _ _ Hr En Ec) as [-> ->]; apply Hne.
  - intros l k r n' c c' r' [_ Hr]%prune_held (n & En & _ & _ & _ & EC)%prune_from [_ Ec]%EC [_ Ec']%EC.
    by eapply (li_child_inj _ H).
  - intros l k r n' q [Hnl Hr]%prune_held (n & En & EP & _ & _ & EC)%prune_from Eq. rewrite EP in Eq.
    destruct (li_parent _ H _ _ _ _ _ Hr En Eq) as (k1 & n1 & c & Hq & E1 & C1).
    destruct (prune_keeps _ _ E1) as (n2 & E2 & _ & _ & _ & C2). exists k1, n2, c.
    split_and!; [apply prune_held; split; [by intros [? _]|done]|done|]. apply C2. split; [|done]. intros [-> ->].
    destruct (li_parent _ H _ _ _ _ _ Hleaf Enl Hpar) as (k3 & n3 & c3 & _ & E3 & C3).
    assert (c3 = name) as -> by exact (proj2 (li_leaf _ H _ _ _ Hleaf Enl) p n3 c3 E3 Hpar C3).
    assert (r = leaf) as -> by congruence. destruct (held_level _ _ _ _ _ _ H Hr Hleaf) as [-> ->]. by apply Hnl.
  - intros k r n' [_ Hr]%prune_held (n & En & EP & _ & EI & _)%prune_from. rewrite EI, EP.
    destruct (li_leaf _ H _ _ _ Hr En) as [Hn Hc]. split; [done|].
    intros q nq c (n1 & E1 & _ & _ & _ & C1)%prune_from Eq [_ Ec]%C1. by eapply Hc.
  - destruct (li_parent _ H _ _ _ _ _ Hleaf Enl Hpar) as (k3 & n3 & c3 & Hp%held_length & _).
    cbn. rewrite last_lookup, length_alter, list_lookup_alter_ne by lia. rewrite <- last_lookup.
    intros m Hm. destruct (li_top _ H _ Hm) as (k & r & n & -> & E & P).
    destruct (prune_keeps _ _ E) as (n2 & E2 & P2 & _). exists k, r, n2. split_and!; [done..|congruence].
  - cbn. rewrite length_alter. intros l k r n' [_ Hr]%prune_held Hl (n & En & EP & _)%prune_from.
    rewrite EP. by eapply (li_rooted _ H).
  - intros r [n' (n & E & _)%prune_from]. apply (li_fresh _ H). by eexists.
Qed.
End prune.

(** ** What is released *)
Lemma elem_of_owned t r : r ∈ owned t ↔ inside t r ∨ nextParent_ t = Some r.
Proof.
  split.
  - unfold owned. intros [(X & (m & -> & Hm)%list_elem_of_fmap & Hr)%elem_of_union_list|Hr]%elem_of_union.
    + left. apply elem_of_map_img in Hr as [k Hk]. apply list_elem_of_lookup in Hm as [l Hl]. exists l, k.
      unfold held, FindNodes. by rewrite Hl.
    + right. destruct (nextParent_ t); set_solver.
  - intros [(l & k & Hh)|Hn]; [by eapply held_owned|]. unfold owned. rewrite Hn. set_solver.
Qed.

Definition next_inside (t : Tree) : Prop := ∀ p, nextParent_ t = Some p → inside t p.

Lemma owned_closed t n : linked t → next_inside t → Nat.iter n (own_more t) (owned t) = owned t.
Proof.
  intros H Hn. induction n as [|n IH]; [done|]. rewrite Nat.iter_succ, IH. unfold own_more. apply set_eq. intros r.
  rewrite elem_of_union. split; [|by left]. intros [?|Hr]; [done|].
  apply elem_of_union_list in Hr as (X & (q & -> & Hq)%list_elem_of_fmap & Hr). apply elem_of_elements in Hq.
  assert (inside t q) as (l & k & Hh) by (apply elem_of_owned in Hq as [?|?%Hn]; done).
  apply elem_of_map_img in Hr as [c Hc]. destruct (li_node _ H _ _ _ Hh) as (nq & Eq & _).
  unfold at_node in Hc. rewrite Eq in Hc. destruct (li_child _ H _ _ _ _ _ _ Hh Eq Hc) as (l' & k' & _ & _ & Hr' & _).
  apply elem_of_owned. left. by exists l', k'.
Qed.

Lemma release_inside t r : linked t → next_inside t → is_Some (heap_ (release t) !! r) → inside t r.
Proof.
  intros H Hn [n E]. unfold release in E. cbn in E. apply map_lookup_filter_Some in E as [_ Hr]. cbn in Hr.
  rewrite owned_closed in Hr by done. apply elem_of_owned in Hr as [?|?%Hn]; done.
Qed.

(** ** The invariant *)
Definition capacity (t : Tree) (l : nat) : nat :=
  match l with
  | 0%nat => 0
  | 1%nat => maxLocalSchedPerDomainNode_ t
  | _ => 1 `max` maxDomainSchedPerDomainNode_ t
  end%nat.

(** The invariant up to nodes that wait for their release, and the invariant. *)
Record shaped (t : Tree) : Prop := {
  wf_linked : linked t;
  wf_height : levelNodes_ t = [] ∨ (2 ≤ length (levelNodes_ t))%nat;
  wf_keys : ∀ l l' k r r', held t (S l) k r → held t (S l') k r' → l = l';
  wf_bound : ∀ l k r n, held t l k r → heap_ t !! r = Some n → (size (children_ n) ≤ capacity t l)%nat;
  wf_next : match nextParent_ t with None => levelNodes_ t = [] | Some p => ∃ l k, held t (S l) k p end;
}.
Record well_formed (t : Tree) : Prop := {
  wf_shaped :: shaped t;
  wf_heap : ∀ r, is_Some (heap_ t !! r) → inside t r;
}.

Lemma next_in t : shaped t → next_inside t.
Proof. intros W p E. pose proof (wf_next _ W) as H. rewrite E in H. destruct H as (l & k & H). by exists (S l), k. Qed.

Lemma release_wf t : shaped t → well_formed (release t).
Proof.
  intros W. split; [split|].
  - apply release_linked, W.
  - apply W.
  - apply W.
  - intros l k r n Hr E%release_heap_Some. by apply (wf_bound _ W l k r).
  - apply W.
  - intros r Hr. apply (release_inside t); [apply W|by apply next_in|done].
Qed.

Lemma make_wf a b : well_formed (make a b).
Proof.
  assert (Hh : ∀ l k r, ¬ held (make a b) l k r) by (intros l k r Hh%held_length; cbn in Hh; lia).
  split; [split; [split| | | |]|]; try (intros; match goal with Hr : held _ _ _ _ |- _ => by apply Hh in Hr end).
  - intros m Hm. done.
  - intros r [n Hr]. done.
  - by left.
  - done.
  - intros r [n Hr]. done.
Qed.

Lemma at_node_eq t r n : heap_ t !! r = Some n → at_node t r = n.
Proof. unfold at_node. by intros ->. Qed.

(** A node at the top is the root; any other has a parent. *)
Lemma GetParent_spec t l k r n :
  linked t → held t l k r → heap_ t !! r = Some n →
  GetParent t r = parent_ n ∧ ((S l < length (levelNodes_ t))%nat ↔ is_Some (parent_ n)).
Proof.
  intros H Hr E. unfold GetParent. rewrite (at_node_eq _ _ _ E). destruct (parent_ n) as [q|] eqn:Eq; cbn.
  - destruct (li_parent _ H _ _ _ _ _ Hr E Eq) as (k' & n' & _ & Hq & E' & _).
    rewrite decide_True by by eexists. split; [done|]. apply held_length in Hq. split; [by eexists|done].
  - split; [done|]. split; [|by intros []]. intros Hl. rewrite <- Eq. by eapply (li_rooted _ H).
Qed.

Lemma graft_shaped t p info l kp np :
  shaped t → held t (S l) kp p → heap_ t !! p = Some np →
  FindNodes t l !! ni_name info = None → children_ np !! ni_name info = None →
  (size (children_ np) < capacity t (S l))%nat → (l ≠ 0%nat → ∀ l' r, ¬ held t (S l') (ni_name info) r) →
  shaped (graft p info l t).2.
Proof.
  intros W Hp Enp Hfree Hcfree Hroom Hkey. pose proof (wf_linked _ W) as H.
  pose proof (graft_held_iff t p info l kp Hp Hfree) as Hh. split.
  - by eapply graft_linked.
  - right. rewrite graft_levels, length_alter. destruct (wf_height _ W) as [E|?]; [|done].
    apply held_length in Hp. rewrite E in Hp. cbn in Hp. lia.
  - intros l1 l2 k r1 r2 [(E1 & -> & ->)|H1]%Hh [(E2 & Ek & ->)|H2]%Hh; [lia| | |].
    + destruct l; [done|]. by apply Hkey in H2.
    + subst k. destruct l; [done|]. by apply Hkey in H1.
    + by eapply (wf_keys _ W).
  - intros l' k r n' Hr En. change (capacity (graft p info l t).2 l') with (capacity t l').
    destruct (graft_cases t p info l kp np H Hp Enp Hfree Hcfree _ _ _ _ Hr En) as [(_ & _ & _ & ->)|(n & Hne & Hr' & E & _)].
    + cbn [children_ new_child]. rewrite map_size_empty. lia.
    + apply (graft_lookup t p info l np H Enp) in En as [[? _]|[[-> ->]|(_ & _ & En)]]; [done| |by eapply (wf_bound _ W)].
      destruct (held_level _ _ _ _ _ _ H Hp Hr') as [<- _]. cbn [children_ with_child set_children].
      rewrite map_size_insert_None by done. lia.
  - pose proof (wf_next _ W) as Hn. change (nextParent_ (graft p info l t).2) with (nextParent_ t).
    destruct (nextParent_ t) as [q|]; [destruct Hn as (lq & kq & Hq); exists lq, kq; apply Hh; by right|].
    apply held_length in Hp. rewrite Hn in Hp. cbn in Hp. lia.
Qed.

Lemma crown_shaped t next info k0 n0 :
  shaped t → last (levelNodes_ t) = Some {[k0 := next]} → heap_ t !! next = Some n0 →
  (∀ l r, ¬ held t (S l) (ni_name info) r) → shaped (set_nextParent (Some (fresh_ t)) (crown next info t).2).
Proof.
  intros W Htop En0 Hkey. pose proof (wf_linked _ W) as H.
  assert (HL : (2 ≤ length (levelNodes_ t))%nat) by (destruct (wf_height _ W) as [E|?]; [by rewrite E in Htop|done]).
  pose proof (crown_linked t next info k0 n0 H Htop En0 HL) as Hl.
  pose proof (crown_held t next info) as Hh. pose proof (crown_cases t next info n0 H En0) as Hc.
  assert (Hsame : ∀ l k r, held (set_nextParent (Some (fresh_ t)) (crown next info t).2) l k r ↔ held (crown next info t).2 l k r) by done.
  split.
  - apply (same_links (crown next info t).2); [done..| |done]. intros k r n Hr En. by apply (li_leaf _ Hl _ r).
  - right. change (2 ≤ length (levelNodes_ (crown next info t).2))%nat. rewrite crown_levels, length_app. lia.
  - intros l1 l2 k r1 r2 [(E1 & -> & ->)|H1]%Hsame%Hh [(E2 & Ek & ->)|H2]%Hsame%Hh; [lia| | |].
    + by apply Hkey in H2.
    + subst k. by apply Hkey in H1.
    + by eapply (wf_keys _ W).
  - intros l k r n' Hr En. destruct (Hc _ _ _ _ Hr En) as [(-> & _ & _ & ->)|(n & Hr' & E & EC & _)].
    + cbn. rewrite map_size_singleton. destruct (length (levelNodes_ t)) as [|[|?]]; cbn; lia.
    + rewrite EC. assert (capacity (set_nextParent (Some (fresh_ t)) (crown next info t).2) l = capacity t l) as ->.
      { unfold capacity, crown, AddNode. cbn -[Nat.ltb Nat.add]. by destruct (_ <? _)%nat. }
      by eapply (wf_bound _ W).
  - cbn [nextParent_ set_nextParent]. destruct (length (levelNodes_ t)) as [|l] eqn:EL; [lia|].
    exists l, (ni_name info). apply Hsame, Hh. by left.
Qed.

(** ** Searching and climbing *)
Lemma FindNonLeafNode_Some t name r : FindNonLeafNode t name = Some r → ∃ l, held t (S l) name r.
Proof.
  unfold FindNonLeafNode. intros E%head_Some_elem_of. apply list_elem_of_omap in E as (l & Hl & E).
  unfold non_leaf_levels in Hl. rewrite elem_of_reverse, elem_of_seq in Hl. destruct l; [lia|]. by exists l.
Qed.
Lemma FindNonLeafNode_None t name : FindNonLeafNode t name = None → ∀ l r, ¬ held t (S l) name r.
Proof.
  unfold FindNonLeafNode. intros E l r Hh.
  assert (Hin : r ∈ omap (λ level, FindNodes t level !! name) (non_leaf_levels t)).
  { apply list_elem_of_omap. exists (S l). split; [|done]. unfold non_leaf_levels. rewrite elem_of_reverse, elem_of_seq.
    apply held_length in Hh. lia. }
  destruct (omap _ _); [by apply not_elem_of_nil in Hin|done].
Qed.

(** The nodes on the way to the root are distinct. *)
Lemma height_heap t l k r :
  linked t → held t l k r → (length (levelNodes_ t) ≤ l + size (heap_ t))%nat.
Proof.
  intros H. assert (Hx : ∀ d l k r, held t l k r → (l + S d = length (levelNodes_ t))%nat →
    ∃ X, X ⊆ dom (heap_ t) ∧ size X = S d ∧ ∀ x, x ∈ X → ∃ l' k', held t l' k' x ∧ (l ≤ l')%nat).
  { clear l k r. induction d as [|d IH]; intros l k r Hr Hl; destruct (li_node _ H _ _ _ Hr) as (n & E & _).
    - exists {[r]}. split_and!; [|apply size_singleton|].
      + intros x ->%elem_of_singleton. apply elem_of_dom. by eexists.
      + intros x ->%elem_of_singleton. by exists l, k.
    - destruct (li_rooted _ H l k r n Hr) as [p Ep]; [lia|done|].
      destruct (li_parent _ H _ _ _ _ _ Hr E Ep) as (k' & n' & c & Hp & _).
      destruct (IH (S l) k' p Hp) as (X & HX & Hs & Hin); [lia|]. exists ({[r]} ∪ X).
      assert (Hni : r ∉ X). { intros (l' & k2 & Hr' & ?)%Hin. destruct (held_level _ _ _ _ _ _ H Hr Hr'). lia. }
      split_and!; [|rewrite size_union by set_solver; by rewrite size_singleton, Hs|].
      + apply union_subseteq. split; [|done]. intros x ->%elem_of_singleton. apply elem_of_dom. by eexists.
      + intros x [->%elem_of_singleton|(l' & k2 & ? & ?)%Hin]%elem_of_union; [by exists l, k|]. exists l', k2. split; [done|lia]. }
  intros Hr. pose proof (held_length _ _ _ _ Hr). destruct (Hx (length (levelNodes_ t) - 1 - l)%nat l k r Hr) as (X & HX & Hs & _); [lia|].
  apply subseteq_size in HX. rewrite size_dom in HX. lia.
Qed.

Lemma climb_spec t fuel l k r :
  linked t → held t (S l) k r → (length (levelNodes_ t) ≤ l + fuel)%nat →
  ∃ l' k', held t (S l') k' (climb fuel t r) ∧
    (CheckAddNonLeafNode t (climb fuel t r) (maxDomainSchedPerDomainNode_ t) = true ∨ S (S l') = length (levelNodes_ t)).
Proof.
  intros H. revert l k r. induction fuel as [|fuel IH]; intros l k r Hr Hf.
  { apply held_length in Hr. lia. }
  cbn [climb]. destruct (CheckAddNonLeafNode t r (maxDomainSchedPerDomainNode_ t)) eqn:Ec.
  { exists l, k. split; [done|by left]. }
  destruct (li_node _ H _ _ _ Hr) as (n & E & _). destruct (GetParent_spec _ _ _ _ _ H Hr E) as [-> Htop].
  destruct (parent_ n) as [q|] eqn:Eq.
  - destruct (li_parent _ H _ _ _ _ _ Hr E Eq) as (k' & n' & c & Hq & _). apply (IH (S l) k' q Hq). lia.
  - exists l, k. split; [done|]. right. apply held_length in Hr. destruct (decide (S (S l) < length (levelNodes_ t))%nat) as [Hlt|]; [|lia].
    apply Htop in Hlt as []. done.
Qed.

Lemma release_at t r : r ∈ owned t → at_node (release t) r = at_node t r.
Proof. intros Hr. unfold at_node. by rewrite release_heap. Qed.

Lemma to_uint16_small l : Z.of_nat l < 2 ^ 16 → to_uint16 (Z.of_nat l) = l.
Proof. intros Hl. unfold to_uint16. rewrite Z.mod_small; lia. Qed.

(** [name] is not the key of a domain node below another one. *)
Definition unused (t : Tree) (name : string) : Prop :=
  ∀ l k r n, held t (S (S l)) k r → heap_ t !! r = Some n → children_ n !! name = None.
