(* ===== verification/SchedTreeOps.v ===== *)
(** * The operations of the scheduler tree

    What every operation does to a well-formed tree, and the invariant of
    all runs. *)

From S2P Require Import Prelude SchedTree SchedTreeProps.
From stdpp Require Import base gmap strings list fin_maps fin_sets relations.
From Stdlib Require Import ZArith Lia.
Import Topo.

Open Scope Z_scope.
Set Default Proof Using "Type".

(** The iteration orders a [std::unordered_map] may have. *)
Definition lawful (order : gmap string nat → list (string * nat)) : Prop := ∀ m, order m ≡ₚ map_to_list m.

Lemma map_to_list_lawful : lawful map_to_list.
Proof. intros m. reflexivity. Qed.
Lemma lawful_elem order m k r : lawful order → (k, r) ∈ order m ↔ m !! k = Some r.
Proof. intros Ho. by rewrite (Ho m), elem_of_map_to_list. Qed.

(** What a node is seen as from outside: its level, information, state and
    parent.  The children of a node are the nodes it is the parent of. *)
Definition seen (n : SchedNode) : Z * NodeInfo * NodeState * option nat :=
  (level_ n, nodeInfo_ n, nodeState_ n, parent_ n).
Definition view (t : Tree) : gmap nat (Z * NodeInfo * NodeState * option nat) := seen <$> heap_ t.

(** ** Changes of one node *)
Lemma same_wf t t' :
  levelNodes_ t' = levelNodes_ t → fresh_ t' = fresh_ t → nextParent_ t' = nextParent_ t →
  (∀ l, capacity t' l = capacity t l) →
  (∀ r, links <$> heap_ t' !! r = links <$> heap_ t !! r) →
  (∀ k r n, held t 0 k r → heap_ t' !! r = Some n → ni_name (nodeInfo_ n) = k) →
  well_formed t → well_formed t'.
Proof.
  intros El Ef En Ec Eh Hname W. assert (Hh : ∀ l k r, held t' l k r ↔ held t l k r).
  { intros. unfold held, FindNodes. by rewrite El. }
  assert (Hto : ∀ r n', heap_ t' !! r = Some n' → ∃ n, heap_ t !! r = Some n ∧ children_ n' = children_ n).
  { intros r n' E. specialize (Eh r). rewrite E in Eh. destruct (heap_ t !! r) as [n|]; [|done]. exists n.
    split; [done|]. unfold links in Eh. cbn in Eh. congruence. }
  split; [split|].
  - apply (same_links t); [done..|apply W].
  - rewrite El. apply W.
  - intros l l' k r r' H1%Hh H2%Hh. by eapply (wf_keys _ (wf_shaped _ W)).
  - intros l k r n' Hr%Hh E. rewrite Ec. destruct (Hto _ _ E) as (n & E' & ->). by eapply (wf_bound _ (wf_shaped _ W)).
  - rewrite En, El. pose proof (wf_next _ (wf_shaped _ W)) as Hn. destruct (nextParent_ t); [|done].
    destruct Hn as (l & k & Hn). exists l, k. by apply Hh.
  - intros r [n' E]. destruct (Hto _ _ E) as (n & E' & _). destruct (wf_heap _ W r) as (l & k & Hr); [by eexists|].
    exists l, k. by apply Hh.
Qed.

Lemma on_node_links r f t x :
  (∀ n, links (f n) = links n) → links <$> heap_ (on_node r f t) !! x = links <$> heap_ t !! x.
Proof.
  intros Hf. cbn. destruct (decide (x = r)) as [->|Hne].
  - rewrite lookup_alter_eq. destruct (heap_ t !! r); cbn; [by rewrite Hf|done].
  - by rewrite lookup_alter_ne.
Qed.

Lemma SetState_wf r st t : well_formed t → well_formed (SetState r st t).
Proof.
  intros W. apply (same_wf t); [done..| | |done]; [intros; by apply on_node_links|].
  intros k x n Hx E. cbn in E. destruct (decide (x = r)) as [->|Hne].
  - rewrite lookup_alter_eq in E. destruct (heap_ t !! r) as [n0|] eqn:E0; cbn in E; [|done]. injection E as <-.
    by apply (li_leaf _ (wf_linked _ (wf_shaped _ W)) _ _ _ Hx E0).
  - rewrite lookup_alter_ne in E by done. by apply (li_leaf _ (wf_linked _ (wf_shaped _ W)) _ _ _ Hx E).
Qed.

Lemma SetNodeInfo_wf r i t :
  well_formed t → (∀ k, held t 0 k r → ni_name i = k) → well_formed (SetNodeInfo r i t).
Proof.
  intros W Hi. apply (same_wf t); [done..| | |done]; [intros; by apply on_node_links|].
  intros k x n Hx E. cbn in E. destruct (decide (x = r)) as [->|Hne].
  - rewrite lookup_alter_eq in E. destruct (heap_ t !! r) as [n0|] eqn:E0; cbn in E; [|done]. injection E as <-. cbn. by apply Hi.
  - rewrite lookup_alter_ne in E by done. by apply (li_leaf _ (wf_linked _ (wf_shaped _ W)) _ _ _ Hx E).
Qed.

(** Nothing is released while every node is in the tree. *)
Lemma release_id t : well_formed t → release t = t.
Proof.
  intros W. assert (E : heap_ (release t) = heap_ t).
  { apply map_eq. intros r. destruct (heap_ t !! r) as [n|] eqn:E.
    - destruct (wf_heap _ W r) as (l & k & Hr); [by eexists|]. by rewrite release_heap by by eapply held_owned.
    - destruct (heap_ (release t) !! r) as [n|] eqn:E'; [|done]. apply release_heap_Some in E'. congruence. }
  unfold release in *. cbn in E. rewrite E. by destruct t.
Qed.

Lemma graft_wf t p info l kp np :
  well_formed t → held t (S l) kp p → heap_ t !! p = Some np →
  FindNodes t l !! ni_name info = None → children_ np !! ni_name info = None →
  (size (children_ np) < capacity t (S l))%nat → (l ≠ 0%nat → ∀ l' r, ¬ held t (S l') (ni_name info) r) →
  well_formed (graft p info l t).2.
Proof.
  intros W Hp E Hfree Hc Hs Hk. split; [eapply graft_shaped; eauto; apply W|]. intros r [n' En].
  pose proof (wf_linked _ (wf_shaped _ W)) as H. pose proof (graft_held_iff t p info l kp Hp Hfree) as Hh.
  destruct (graft_from t p info l np H E Hc _ _ En) as [[-> _]|(n & _ & En0 & _)].
  - exists l, (ni_name info). apply Hh. by left.
  - destruct (wf_heap _ W r) as (l' & k & Hr); [by eexists|]. exists l', k. apply Hh. by right.
Qed.

Lemma graft_view t p info l : is_Some (heap_ t !! p) → p ≠ fresh_ t →
  view (graft p info l t).2 = <[fresh_ t := (Z.of_nat l, info, CONNECTED, Some p)]> (view t).
Proof.
  intros [n E] Hne. unfold view. rewrite graft_heap by done. rewrite fmap_insert. cbn. f_equal.
  apply map_eq. intros r. rewrite !lookup_fmap. destruct (decide (r = p)) as [->|Hr].
  - by rewrite lookup_alter_eq, E.
  - by rewrite lookup_alter_ne.
Qed.

(** ** Adding a leaf *)
Lemma add_leaf_graft (info : NodeInfo) d t :
  (0 < length (levelNodes_ t))%nat →
  AddChild d (AddNode info 0 t).1 (AddNode info 0 t).2 = (graft d info 0 t).2.
Proof. intros Hl. by rewrite AddNode_fst, AddNode_low. Qed.

Lemma leaf_child_free t l k d nd name :
  linked t → held t l k d → (l ≤ 1)%nat → heap_ t !! d = Some nd → FindNodes t 0 !! name = None → children_ nd !! name = None.
Proof.
  intros H Hd Hl E Hfree. destruct (children_ nd !! name) as [r|] eqn:Ec; [|done].
  destruct (li_child _ H _ _ _ _ _ _ Hd E Ec) as (l' & k' & n' & -> & Hr & E' & P).
  assert (l' = 0%nat) as -> by lia. destruct (li_leaf _ H _ _ _ Hr E') as [_ Hc].
  pose proof (Hc d nd name E P Ec) as <-. unfold held in Hr. congruence.
Qed.

(** The branches of [AddLeafNode]. *)
Inductive leaf_added (t : Tree) (info : NodeInfo) : option nat → Tree → Prop :=
  | leaf_low : (length (levelNodes_ t) < 2)%nat → leaf_added t info None t
  | leaf_known r : held t 0 (ni_name info) r → leaf_added t info (Some r) (SetNodeInfo r info t)
  | leaf_full : (2 ≤ length (levelNodes_ t))%nat → (∀ r, ¬ held t 0 (ni_name info) r) →
      (∀ k d n, held t 1 k d → heap_ t !! d = Some n → (maxLocalSchedPerDomainNode_ t ≤ size (children_ n))%nat) →
      leaf_added t info None t
  | leaf_new k d n t' : (∀ r, ¬ held t 0 (ni_name info) r) → held t 1 k d → heap_ t !! d = Some n →
      (size (children_ n) < maxLocalSchedPerDomainNode_ t)%nat →
      view t' = <[fresh_ t := (0, info, CONNECTED, Some d)]> (view t) → held t' 0 (ni_name info) (fresh_ t) →
      leaf_added t info (Some (fresh_ t)) t'.

Lemma AddLeafNode_spec order info t :
  lawful order → well_formed t →
  well_formed (AddLeafNode order info t).2 ∧
  leaf_added t info (AddLeafNode order info t).1 (AddLeafNode order info t).2.
Proof.
  intros Ho W. unfold AddLeafNode. pose proof (wf_linked _ (wf_shaped _ W)) as H.
  destruct (Nat.ltb_spec (length (levelNodes_ t)) MIN_TREE_LEVEL) as [|Hl]; [by split; [|constructor 1]|].
  unfold MIN_TREE_LEVEL in Hl. destruct (FindNodes t 0 !! ni_name info) as [r|] eqn:Ef.
  { split; [|by constructor 2]. apply SetNodeInfo_wf; [done|]. intros k Hk. by eapply (li_inj _ H 0). }
  assert (Hno : ∀ r, ¬ held t 0 (ni_name info) r) by (unfold held; congruence).
  destruct (head _) as [[kd d]|] eqn:Eh.
  - apply head_Some_elem_of, list_elem_of_filter in Eh as [Hc Hd]. apply (lawful_elem _ _ _ _ Ho) in Hd.
    destruct (li_node _ H _ _ _ Hd) as (nd & End & Ld).
    cbn in Hc. unfold CheckAddLeafNode in Hc. rewrite (at_node_eq _ _ _ End) in Hc.
    apply andb_true_iff in Hc as [_ Hs%Nat.ltb_lt].
    rewrite surjective_pairing with (p := AddNode info 0 t). cbn [snd fst]. rewrite add_leaf_graft, AddNode_fst by lia.
    assert (W' : well_formed (graft d info 0 t).2).
    { eapply graft_wf; [done|exact Hd|done|done|by eapply leaf_child_free|exact Hs|done]. }
    rewrite release_id by done. split; [done|]. eapply leaf_new; [done|exact Hd|done|done| |].
    + apply (graft_view t d info 0); [by eexists|]. by eapply graft_ne.
    + by eapply (graft_held_iff t d info 0 kd Hd Ef), or_introl.
  - split; [done|]. cbn [fst snd]. constructor 3; [done..|]. intros k d n Hd End. apply Nat.le_ngt. intros Hlt.
    destruct (filter _ _) as [|x xs] eqn:Efl; [|done].
    assert (Hin : (k, d) ∈ filter (λ it, CheckAddLeafNode t it.2 (maxLocalSchedPerDomainNode_ t) = true) (order (FindNodes t 1))).
    { apply list_elem_of_filter. split; [|by apply (lawful_elem _ _ _ _ Ho)]. cbn. unfold CheckAddLeafNode.
      rewrite (at_node_eq _ _ _ End). destruct (li_node _ H _ _ _ Hd) as (n' & E' & L). assert (n' = n) as -> by congruence.
      rewrite L. apply andb_true_iff. split; [done|]. by apply Nat.ltb_lt. }
    rewrite Efl in Hin. by apply not_elem_of_nil in Hin.
Qed.

(** ** Removing a leaf *)
Inductive leaf_removed (t : Tree) (name : string) : option nat → Tree → Prop :=
  | removed_none : (∀ r, ¬ held t 0 name r) → leaf_removed t name None t
  | removed_leaf r n p t' : held t 0 name r → heap_ t !! r = Some n → parent_ n = Some p →
      view t' = delete r (view t) → (∀ r', ¬ held t' 0 name r') → leaf_removed t name (Some p) t'.

Lemma prune_shaped t name leaf p nl :
  shaped t → held t 0 name leaf → heap_ t !! leaf = Some nl → parent_ nl = Some p →
  shaped (set_levels (alter (delete name) 0%nat (levelNodes_ t)) (RemoveChild p name t)).
Proof.
  intros W Hleaf Enl Hpar. split.
  - by eapply prune_linked; [apply W|..].
  - right. cbn. rewrite length_alter. destruct (wf_height _ W) as [E|?]; [|done].
    apply held_length in Hleaf. rewrite E in Hleaf. cbn in Hleaf. lia.
  - intros l l' k r r' [_ H1]%prune_held [_ H2]%prune_held. by eapply (wf_keys _ W).
  - intros l k r n' [_ Hr]%prune_held (n & En & ->)%prune_heap. trans (size (children_ n)); [|by eapply (wf_bound _ W)].
    destruct (decide (r = p)); [|done]. cbn [children_ set_children]. by apply map_subseteq_size, delete_subseteq.
  - pose proof (wf_next _ W) as Hn. cbn [nextParent_ set_levels RemoveChild on_node set_heap].
    destruct (nextParent_ t) as [q|]; [|cbn; by rewrite Hn]. destruct Hn as (l & k & Hq). exists l, k.
    apply prune_held. split; [by intros [? _]|done].
Qed.

Lemma prune_seen t name p r :
  seen <$> heap_ (set_levels (alter (delete name) 0%nat (levelNodes_ t)) (RemoveChild p name t)) !! r = seen <$> heap_ t !! r.
Proof.
  cbn. destruct (decide (r = p)) as [->|Hne]; [rewrite lookup_alter_eq|by rewrite lookup_alter_ne].
  by destruct (heap_ t !! p).
Qed.

Lemma RemoveLeafNode_spec name t :
  well_formed t →
  well_formed (RemoveLeafNode name t).2 ∧ leaf_removed t name (RemoveLeafNode name t).1 (RemoveLeafNode name t).2.
Proof.
  intros W. pose proof (wf_linked _ (wf_shaped _ W)) as H. unfold RemoveLeafNode.
  destruct (levelNodes_ t) as [|localNodes levels] eqn:El.
  { split; [done|]. cbn [fst snd]. constructor. intros r Hr%held_length. rewrite El in Hr. cbn in Hr. lia. }
  assert (E0 : FindNodes t 0 = localNodes) by (unfold FindNodes; by rewrite El).
  destruct (localNodes !! name) as [leaf|] eqn:Ef; rewrite <- E0 in Ef.
  2:{ split; [done|]. cbn [fst snd]. constructor. unfold held. congruence. }
  destruct (li_node _ H _ _ _ Ef) as (n & E & L). destruct (GetParent_spec _ _ _ _ _ H Ef E) as [-> Htop].
  destruct (parent_ n) as [p|] eqn:Ep.
  2:{ exfalso. destruct (wf_height _ (wf_shaped _ W)) as [Hl|Hl]; [by rewrite El in Hl|]. by destruct (proj1 Htop Hl). }
  pose proof (prune_shaped _ _ _ _ _ (wf_shaped _ W) Ef E Ep) as Ws.
  cbn [fst snd]. change (levelNodes_ (RemoveChild p name t)) with (levelNodes_ t).
  split; [by apply release_wf|]. eapply removed_leaf; [exact Ef|exact E|exact Ep| |].
  - apply map_eq. intros r. unfold view. destruct (decide (r = leaf)) as [->|Hne].
    + rewrite lookup_delete_eq, lookup_fmap, fmap_None. apply eq_None_not_Some. intros Hs.
      apply release_inside in Hs as (l & k & [Hnl Hr]%prune_held); [|apply Ws|by apply next_in].
      destruct (held_level _ _ _ _ _ _ H Hr Ef) as [-> ->]. by apply Hnl.
    + rewrite lookup_delete_ne, !lookup_fmap by done. destruct (heap_ t !! r) as [nr|] eqn:Er.
      * destruct (wf_heap _ W r) as (l & k & Hr); [by eexists|]. rewrite release_heap.
        -- by rewrite prune_seen, Er.
        -- apply (held_owned _ l k), prune_held. split; [|done]. intros [-> ->]. apply Hne. by eapply held_fun.
      * apply fmap_None, eq_None_not_Some. intros [n' (n0 & E1 & _)%release_heap_Some%prune_heap]. congruence.
  - intros r' Hr'. destruct (proj1 (prune_held t name p 0 name r') Hr') as [Hn _]. by apply Hn.
Qed.

(** ** Replacing a broken domain node *)
Inductive replaced (t : Tree) (name : string) (info : NodeInfo) : option nat → Tree → Prop :=
  | replaced_none : (∀ l r n, held t (S l) name r → heap_ t !! r = Some n → nodeState_ n = CONNECTED) →
      replaced t name info None t
  | replaced_node l r n t' : held t (S l) name r → heap_ t !! r = Some n → nodeState_ n = BROKEN →
      view t' = <[r := (level_ n, info, CONNECTED, parent_ n)]> (view t) → levelNodes_ t' = levelNodes_ t →
      replaced t name info (Some r) t'.

Lemma ReplaceNonLeafNode_spec name info t :
  well_formed t →
  well_formed (ReplaceNonLeafNode name info t).2 ∧
  replaced t name info (ReplaceNonLeafNode name info t).1 (ReplaceNonLeafNode name info t).2.
Proof.
  intros W. pose proof (wf_linked _ (wf_shaped _ W)) as H. unfold ReplaceNonLeafNode.
  destruct (Nat.ltb_spec (length (levelNodes_ t)) MIN_TREE_LEVEL) as [Hl|Hl]; cbn [fst snd].
  { split; [done|]. constructor. intros l r n Hr%held_length. unfold MIN_TREE_LEVEL in Hl. lia. }
  destruct (FindNonLeafNode t name) as [r|] eqn:Ef; cbn [fst snd].
  2:{ split; [done|]. constructor. intros l r n Hr. by apply (FindNonLeafNode_None _ _ Ef) in Hr. }
  apply FindNonLeafNode_Some in Ef as [l Hr]. destruct (li_node _ H _ _ _ Hr) as (n & E & _).
  rewrite (at_node_eq _ _ _ E). case_bool_decide as Hb; cbn [fst snd negb].
  - split.
    + apply SetState_wf, SetNodeInfo_wf; [done|]. intros k Hk. by destruct (held_level _ _ _ _ _ _ H Hr Hk).
    + eapply replaced_node; [exact Hr|exact E|done| |done]. apply map_eq. intros x. unfold view. cbn.
      destruct (decide (x = r)) as [->|Hne].
      * by rewrite lookup_insert_eq, lookup_fmap, !lookup_alter_eq, E.
      * by rewrite lookup_insert_ne, !lookup_fmap, !lookup_alter_ne.
  - split; [done|]. constructor. intros l' r' n' Hr' E'.
    assert (l' = l) as -> by by eapply (wf_keys _ (wf_shaped _ W)).
    assert (r' = r) as -> by by eapply held_fun. assert (n' = n) as -> by congruence. by destruct (nodeState_ n).
Qed.

(** ** Adding a domain node *)
Inductive domain_added (t : Tree) (info : NodeInfo) : option nat → Tree → Prop :=
  | domain_known l r : held t (S l) (ni_name info) r → domain_added t info (Some r) t
  | domain_first t' : levelNodes_ t = [] → view t' = {[fresh_ t := (1, info, CONNECTED, None)]} →
      held t' 1 (ni_name info) (fresh_ t) → domain_added t info (Some (fresh_ t)) t'
  | domain_below l k p n t' : (∀ l r, ¬ held t (S l) (ni_name info) r) →
      held t (S (S l)) k p → heap_ t !! p = Some n → (size (children_ n) < maxDomainSchedPerDomainNode_ t)%nat →
      view t' = <[fresh_ t := (Z.of_nat (S l), info, CONNECTED, Some p)]> (view t) →
      held t' (S l) (ni_name info) (fresh_ t) → domain_added t info (Some (fresh_ t)) t'
  | domain_above l k r n t' : (∀ l r, ¬ held t (S l) (ni_name info) r) →
      length (levelNodes_ t) = S (S l) → held t (S l) k r → heap_ t !! r = Some n →
      (l = 0%nat ∨ maxDomainSchedPerDomainNode_ t ≤ size (children_ n))%nat →
      view t' = <[fresh_ t := (Z.of_nat (S (S l)), info, CONNECTED, None)]>
                  (<[r := (level_ n, nodeInfo_ n, nodeState_ n, Some (fresh_ t))]> (view t)) →
      held t' (S (S l)) (ni_name info) (fresh_ t) → domain_added t info (Some (fresh_ t)) t'.

Lemma set_nextParent_wf t l k p : well_formed t → held t (S l) k p → well_formed (set_nextParent (Some p) t).
Proof.
  intros W Hp. pose proof (wf_shaped _ W) as Ws. split; [split|].
  - apply (same_links t); [done..| |apply W]. intros k' r n Hr E. by apply (li_leaf _ (wf_linked _ Ws) _ _ _ Hr E).
  - apply Ws.
  - apply Ws.
  - apply Ws.
  - by exists l, k.
  - apply W.
Qed.

Lemma first_wf info t :
  well_formed t → levelNodes_ t = [] →
  let t' := set_nextParent (Some (fresh_ t)) (AddNode info 1 t).2 in
  well_formed t' ∧ view t' = {[fresh_ t := (1, info, CONNECTED, None)]} ∧ held t' 1 (ni_name info) (fresh_ t).
Proof.
  intros W El. cbn zeta. assert (Eh : heap_ t = ∅).
  { apply map_eq. intros r. rewrite lookup_empty. apply eq_None_not_Some. intros (l & k & Hr%held_length)%(wf_heap _ W).
    rewrite El in Hr. cbn in Hr. lia. }
  pose proof (first_linked info t El (li_fresh _ (wf_linked _ (wf_shaped _ W)))) as Hl.
  pose proof (AddNode_heap info 1 t) as Eh'. rewrite Eh, insert_empty in Eh'.
  pose proof (first_levels info t El) as Elv. pose proof (λ l k r, first_held info t l k r El) as Hh.
  set (t' := (AddNode info 1 t).2) in *. clearbody t'. split_and!; [split; [split|]| |].
  - apply (same_links t'); [done..| |done]. intros k r n Hr E. by apply (li_leaf _ Hl _ _ _ Hr E).
  - right. cbn. rewrite Elv. cbn. lia.
  - intros l l' k r r' (? & _)%Hh (? & _)%Hh. lia.
  - intros l k r n (_ & _ & ->)%Hh. cbn. rewrite Eh', lookup_singleton_eq. intros [= <-]. cbn. rewrite map_size_empty. lia.
  - exists 0%nat, (ni_name info). by apply Hh.
  - intros r [n E]. cbn in E. rewrite Eh' in E. apply lookup_singleton_Some in E as [<- _].
    exists 1%nat, (ni_name info). by apply Hh.
  - unfold view. cbn. rewrite Eh'. by rewrite map_fmap_singleton.
  - by apply Hh.
Qed.

Lemma add_below_graft (info : NodeInfo) d l t :
  (l < length (levelNodes_ t))%nat → AddChild d (AddNode info l t).1 (AddNode info l t).2 = (graft d info l t).2.
Proof. intros Hl. by rewrite AddNode_fst, AddNode_low. Qed.

Lemma crown_wf t next info k0 n0 :
  well_formed t → last (levelNodes_ t) = Some {[k0 := next]} → heap_ t !! next = Some n0 →
  (∀ l r, ¬ held t (S l) (ni_name info) r) → well_formed (set_nextParent (Some (fresh_ t)) (crown next info t).2).
Proof.
  intros W Htop E Hk. pose proof (wf_linked _ (wf_shaped _ W)) as H.
  split; [by eapply crown_shaped; [apply W|..]|]. intros r [n' En].
  destruct (crown_from t next info n0 H E _ _ En) as [[-> _]|(n & _ & En0 & _)].
  - exists (length (levelNodes_ t)), (ni_name info). apply (crown_held t next info). by left.
  - destruct (wf_heap _ W r) as (l' & k & Hr); [by eexists|]. exists l', k. apply (crown_held t next info). by right.
Qed.

Lemma crown_view t next info n0 :
  linked t → heap_ t !! next = Some n0 →
  view (crown next info t).2 = <[fresh_ t := (Z.of_nat (length (levelNodes_ t)), info, CONNECTED, None)]>
    (<[next := (level_ n0, nodeInfo_ n0, nodeState_ n0, Some (fresh_ t))]> (view t)).
Proof.
  intros H E. unfold view. rewrite (crown_heap _ _ _ _ H E), fmap_insert. cbn. f_equal.
  apply map_eq. intros r. rewrite !lookup_fmap. destruct (decide (r = next)) as [->|Hr].
  - by rewrite lookup_alter_eq, lookup_insert_eq, E.
  - by rewrite lookup_alter_ne, lookup_insert_ne, lookup_fmap.
Qed.

(** The root is the one node of the top level. *)
Lemma top_node t l k r :
  linked t → held t l k r → S l = length (levelNodes_ t) → last (levelNodes_ t) = Some {[k := r]}.
Proof.
  intros H Hr Hl. destruct (last (levelNodes_ t)) as [m|] eqn:E; [|apply last_None in E; rewrite E in Hl; done].
  destruct (li_top _ H _ E) as (k' & r' & n & -> & _). rewrite last_lookup in E.
  unfold held, FindNodes in Hr. replace (Init.Nat.pred (length (levelNodes_ t))) with l in E by lia. rewrite E in Hr. cbn in Hr.
  by apply lookup_singleton_Some in Hr as [-> ->].
Qed.

Lemma add_below info t l k p n :
  well_formed t → held t (S (S l)) k p → heap_ t !! p = Some n → (size (children_ n) < maxDomainSchedPerDomainNode_ t)%nat →
  (∀ l r, ¬ held t (S l) (ni_name info) r) → unused t (ni_name info) →
  let t' := (graft p info (S l) t).2 in
  well_formed t' ∧ view t' = <[fresh_ t := (Z.of_nat (S l), info, CONNECTED, Some p)]> (view t) ∧
  held t' (S l) (ni_name info) (fresh_ t).
Proof.
  intros W Hp E Hs Hk Hu. pose proof (wf_linked _ (wf_shaped _ W)) as H.
  assert (Hfree : FindNodes t (S l) !! ni_name info = None).
  { destruct (FindNodes t (S l) !! ni_name info) as [r|] eqn:Ef; [by apply Hk in Ef|done]. }
  cbn zeta. split_and!.
  - eapply graft_wf; [done|exact Hp|done|done|by eapply Hu|cbn [capacity]; lia|done].
  - apply graft_view; [by eexists|]. by eapply graft_ne.
  - apply (graft_held_iff t p info (S l) k Hp Hfree). by left.
Qed.

(** The two ways [AddNonLeafNode] goes on from the node it has climbed to. *)
Lemma domain_below_ok info t l k p n :
  well_formed t → Z.of_nat (length (levelNodes_ t)) < 2 ^ 16 → nextParent_ t = Some p →
  held t (S l) k p → heap_ t !! p = Some n → CheckAddNonLeafNode t p (maxDomainSchedPerDomainNode_ t) = true →
  (∀ l r, ¬ held t (S l) (ni_name info) r) → unused t (ni_name info) →
  let nt := AddNode info (to_uint16 (level_ (at_node t p) - 1)) t in
  let t' := release (AddChild p nt.1 nt.2) in
  let t'' := if CheckAddNonLeafNode t' nt.1 (maxDomainSchedPerDomainNode_ t')
             then release (set_nextParent (Some nt.1) t') else t' in
  well_formed t'' ∧ domain_added t info (Some nt.1) t''.
Proof.
  intros W Hlen Hnext Hp E Ec Hk Hu. pose proof (wf_linked _ (wf_shaped _ W)) as H.
  destruct (li_node _ H _ _ _ Hp) as (n' & E' & L). assert (n' = n) as -> by congruence.
  pose proof (held_length _ _ _ _ Hp) as Hl. unfold CheckAddNonLeafNode in Ec.
  rewrite (at_node_eq _ _ _ E) in *. rewrite L in *. apply andb_true_iff in Ec as [Hl1%Z.ltb_lt Hs%Nat.ltb_lt].
  destruct l as [|l]; [lia|]. replace (Z.of_nat (S (S l)) - 1) with (Z.of_nat (S l)) by lia.
  rewrite to_uint16_small by lia. cbn zeta. rewrite add_below_graft, AddNode_fst by lia.
  destruct (add_below info t l k p n W Hp E Hs Hk Hu) as (W' & V & Hh). rewrite (release_id _ W').
  assert (W2 : well_formed (set_nextParent (Some (fresh_ t)) (graft p info (S l) t).2)) by by eapply set_nextParent_wf.
  destruct (CheckAddNonLeafNode _ _ _); [rewrite (release_id _ W2)|]; (split; [done|]); by eapply (domain_below t info l k p n).
Qed.

Lemma domain_above_ok info t l k p n :
  well_formed t → Z.of_nat (length (levelNodes_ t)) < 2 ^ 16 → length (levelNodes_ t) = S (S l) →
  held t (S l) k p → heap_ t !! p = Some n → CheckAddNonLeafNode t p (maxDomainSchedPerDomainNode_ t) = false →
  (∀ l r, ¬ held t (S l) (ni_name info) r) →
  let nt := AddNode info (to_uint16 (level_ (at_node t p) + 1)) t in
  let t' := release (set_nextParent (Some nt.1) (AddChild nt.1 p nt.2)) in
  well_formed t' ∧ domain_added t info (Some nt.1) t'.
Proof.
  intros W Hlen Hlen' Hp E Ec Hk. pose proof (wf_linked _ (wf_shaped _ W)) as H.
  destruct (li_node _ H _ _ _ Hp) as (n' & E' & L). assert (n' = n) as -> by congruence.
  pose proof (top_node t _ _ _ H Hp (eq_sym Hlen')) as Hlast. unfold CheckAddNonLeafNode in Ec.
  rewrite (at_node_eq _ _ _ E) in *. rewrite L in *.
  replace (Z.of_nat (S l) + 1) with (Z.of_nat (length (levelNodes_ t))) by lia. rewrite to_uint16_small by done.
  cbn zeta. rewrite AddNode_fst. change (AddChild (fresh_ t) p (AddNode info (length (levelNodes_ t)) t).2) with (crown p info t).2.
  pose proof (crown_wf t p info k n W Hlast E Hk) as W'. rewrite (release_id _ W'). split; [done|].
  eapply (domain_above t info l k p n); [done|done|exact Hp|done| | |].
  - apply andb_false_iff in Ec as [?%Z.ltb_ge|Hs%Nat.ltb_ge]; [left; lia|by right].
  - rewrite <- Hlen'. apply (crown_view t p info n H E).
  - rewrite <- Hlen'. apply (crown_held t p info). by left.
Qed.

Lemma domain_added_next info t q r t' :
  domain_added (set_nextParent q t) info r t' → (∀ l r, ¬ held t (S l) (ni_name info) r) → domain_added t info r t'.
Proof.
  intros Hd Hk. inversion Hd as [l x Hx|t1 E V Hh|l k p n t1 H1 H2 H3 H4 H5 H6|l k x n t1 H1 H2 H3 H4 H5 H6 H7]; subst;
    change (fresh_ (set_nextParent q t)) with (fresh_ t) in *.
  - by apply Hk in Hx.
  - by eapply domain_first.
  - by eapply (domain_below t info l k p n).
  - by eapply (domain_above t info l k x n).
Qed.

Lemma AddNonLeafNode_spec info t :
  well_formed t → Z.of_nat (length (levelNodes_ t)) < 2 ^ 16 →
  (FindNonLeafNode t (ni_name info) = None → unused t (ni_name info)) →
  well_formed (AddNonLeafNode info t).2 ∧
  domain_added t info (AddNonLeafNode info t).1 (AddNonLeafNode info t).2.
Proof.
  intros W Hlen Hu. unfold AddNonLeafNode. destruct (FindNonLeafNode t (ni_name info)) as [r|] eqn:Ef.
  { apply FindNonLeafNode_Some in Ef as [l Hr]. split; [done|]. by econstructor. }
  pose proof (FindNonLeafNode_None _ _ Ef) as Hk. specialize (Hu eq_refl).
  pose proof (wf_next _ (wf_shaped _ W)) as Hn. destruct (nextParent_ t) as [next|].
  2:{ destruct (first_wf info t W Hn) as (W' & V & Hh). split; [done|]. by econstructor. }
  destruct Hn as (l & k & Hn). pose proof (wf_linked _ (wf_shaped _ W)) as H.
  destruct (climb_spec t (S (size (heap_ t))) l k next H Hn) as (l' & k' & Hp & Hroom).
  { pose proof (height_heap _ _ _ _ H Hn). lia. }
  set (p := climb _ t next) in *. clearbody p.
  assert (W1 : well_formed (set_nextParent (Some p) t)) by by eapply set_nextParent_wf.
  rewrite (release_id _ W1). destruct (li_node _ H _ _ _ Hp) as (n & E & _).
  destruct (CheckAddNonLeafNode (set_nextParent (Some p) t) p _) eqn:Ec.
  - destruct (domain_below_ok info (set_nextParent (Some p) t) l' k' p n W1 Hlen eq_refl Hp E Ec Hk Hu) as [W' D].
    destruct (AddNode _ _ _) as [nd t2] eqn:En. split; [exact W'|]. by eapply domain_added_next.
  - destruct Hroom as [Hroom|Htop]; [discriminate (eq_trans (eq_sym Hroom) Ec)|].
    destruct (domain_above_ok info (set_nextParent (Some p) t) l' k' p n W1 Hlen (eq_sym Htop) Hp E Ec Hk) as [W' D].
    destruct (AddNode _ _ _) as [nd t2] eqn:En. split; [exact W'|]. by eapply domain_added_next.
Qed.

(** ** Runs *)
Inductive topo_step (t : Tree) : Tree → Prop :=
  | step_add_leaf order info : lawful order → topo_step t (AddLeafNode order info t).2
  | step_remove_leaf name : topo_step t (RemoveLeafNode name t).2
  | step_add_domain info : Z.of_nat (length (levelNodes_ t)) < 2 ^ 16 →
      (FindNonLeafNode t (ni_name info) = None → unused t (ni_name info)) → topo_step t (AddNonLeafNode info t).2
  | step_replace name info : topo_step t (ReplaceNonLeafNode name info t).2
  | step_state r st : topo_step t (SetState r st t).

Lemma topo_step_wf t t' : topo_step t t' → well_formed t → well_formed t'.
Proof.
  intros [order info Ho|name|info Hl Hu|name info|r st] W.
  - by apply AddLeafNode_spec.
  - by apply RemoveLeafNode_spec.
  - by apply AddNonLeafNode_spec.
  - by apply ReplaceNonLeafNode_spec.
  - by apply SetState_wf.
Qed.

Lemma topo_run_wf t t' : rtc topo_step t t' → well_formed t → well_formed t'.
Proof. induction 1; eauto using topo_step_wf. Qed.


(** Two domain nodes, one of them the root, and a leaf. *)
Definition demo_tree : Tree :=
  let t := (AddNonLeafNode (mkInfo "domain-1" "10.0.0.1") (make 2 2)).2 in
  let t := (AddLeafNode map_to_list (mkInfo "local-1" "10.0.0.2") t).2 in
  (AddNonLeafNode (mkInfo "domain-2" "10.0.0.3") t).2.

Lemma demo_tree_run : rtc topo_step (make 2 2) demo_tree.
Proof.
  eapply rtc_l; [apply (step_add_domain _ (mkInfo "domain-1" "10.0.0.1"))|].
  { vm_compute. reflexivity. }
  { intros _ l k r n Hr%held_length. cbn in Hr. lia. }
  eapply rtc_l; [apply (step_add_leaf _ map_to_list (mkInfo "local-1" "10.0.0.2")), map_to_list_lawful|].
  eapply rtc_l; [apply (step_add_domain _ (mkInfo "domain-2" "10.0.0.3"))|reflexivity].
  { vm_compute. reflexivity. }
  { intros _ l k r n Hr%held_length. revert Hr. vm_compute. lia. }
Qed.

