(* ===== verification/SchedTreeCodec.v ===== *)
(** * Storing and recovering the scheduler tree

    The serialized tree lists every node once, and a tree recovered from it
    lists the same. *)

From S2P Require Import Prelude SchedTree SchedTreeProps SchedTreeOps.
From stdpp Require Import base countable gmap strings fin_maps fin_sets relations list.
From Stdlib Require Import ZArith Lia.
Import Topo.

Open Scope Z_scope.
Set Default Proof Using "Type".

(** ** Induction and a codec for the nested message *)
Lemma proto_ind (P : SchedulerNode → Prop) :
  (∀ n a l cs, Forall P cs → P (mkProto n a l cs)) → ∀ p, P p.
Proof.
  intros IH. fix go 1. intros [n a l cs]. apply IH. induction cs as [|c cs IHcs]; constructor; [apply go|apply IHcs].
Qed.

Fixpoint to_gen (p : SchedulerNode) : gen_tree (string * string * Z) :=
  match p with mkProto n a l cs => GenNode 0 (GenLeaf (n, a, l) :: map to_gen cs) end.
Fixpoint of_gen (g : gen_tree (string * string * Z)) : SchedulerNode :=
  match g with
  | GenNode _ (GenLeaf (n, a, l) :: gs) => mkProto n a l (map of_gen gs)
  | _ => mkProto "" "" 0 []
  end.
Lemma of_to_gen p : of_gen (to_gen p) = p.
Proof.
  induction p as [n a l cs IH] using proto_ind. cbn. f_equal. rewrite map_map.
  induction IH as [|c cs Hc _ IH]; [done|]. cbn. by rewrite Hc, IH.
Qed.
#[global] Instance proto_eq_dec : EqDecision SchedulerNode.
Proof.
  intros p q. destruct (decide (to_gen p = to_gen q)) as [E|E]; [left|right].
  - by rewrite <- (of_to_gen p), E, of_to_gen.
  - by intros ->.
Defined.
#[global] Instance proto_countable : Countable SchedulerNode.
Proof. apply (inj_countable' to_gen of_gen of_to_gen). Defined.

(** ** What a tree and a message list *)
Definition Entry : Type := Z * NodeInfo * option string.

Definition name_of (t : Tree) (r : nat) : string := ni_name (nodeInfo_ (at_node t r)).
Definition entry (t : Tree) (r : nat) : Entry :=
  (level_ (at_node t r), nodeInfo_ (at_node t r), name_of t <$> parent_ (at_node t r)).
Definition refs (t : Tree) : list nat := seq 0 (length (levelNodes_ t)) ≫= λ l, (map_to_list (FindNodes t l)).*2.
Definition listing (t : Tree) : list Entry := entry t <$> refs t.

Fixpoint entries (parent : option string) (p : SchedulerNode) : list Entry :=
  match p with
  | mkProto n a l cs => (l, mkInfo n a, parent) :: concat (map (entries (Some n)) cs)
  end.

Lemma elem_of_node_refs t r : r ∈ refs t ↔ inside t r.
Proof.
  unfold refs, inside. rewrite list_elem_of_bind. split.
  - intros (l & ([k r'] & -> & Hr%elem_of_map_to_list)%list_elem_of_fmap & _). by exists l, k.
  - intros (l & k & Hr). exists l. split.
    + apply list_elem_of_fmap. exists (k, r). by rewrite elem_of_map_to_list.
    + apply elem_of_seq. apply held_length in Hr. lia.
Qed.

Lemma NoDup_refs t : linked t → NoDup (refs t).
Proof.
  intros H. apply NoDup_bind; [| |apply NoDup_seq].
  - intros l l' r _ _ ([k r1] & -> & Hr%elem_of_map_to_list)%list_elem_of_fmap
      ([k' r2] & E & Hr'%elem_of_map_to_list)%list_elem_of_fmap.
    cbn in E. subst r2. by destruct (held_level _ _ _ _ _ _ H Hr Hr').
  - intros l _. apply NoDup_fmap_2_strong; [|apply NoDup_map_to_list].
    intros [k r] [k' r'] Hr%elem_of_map_to_list Hr'%elem_of_map_to_list E. cbn in E. subst r'.
    by rewrite (li_inj _ H _ _ _ _ Hr Hr').
Qed.

(** ** The serialized tree *)
Section serialize.
Context (order : gmap string nat → list (string * nat)) (Ho : lawful order) (t : Tree) (H : linked t).

Definition proto_of (fuel : nat) (r : nat) : SchedulerNode :=
  let n := at_node t r in
  mkProto (ni_name (nodeInfo_ n)) (ni_address (nodeInfo_ n)) (level_ n) (GetChildrenProto order fuel t (children_ n)).

(** The nodes of the subtree of [r]. *)
Fixpoint below (fuel : nat) (r : nat) : list nat :=
  r :: match fuel with
       | O => []
       | S fuel => order (children_ (at_node t r)) ≫= λ c, below fuel c.2
       end.

Lemma GetChildrenProto_S fuel m : GetChildrenProto order (S fuel) t m = (λ c, proto_of fuel c.2) <$> order m.
Proof. done. Qed.

Lemma child_held l k r c x :
  held t l k r → (c, x) ∈ order (children_ (at_node t r)) →
  ∃ l' k' n, l = S l' ∧ held t l' k' x ∧ heap_ t !! x = Some n ∧ parent_ n = Some r.
Proof using Ho H.
  intros Hr Hx. apply (lawful_elem _ _ _ _ Ho) in Hx. destruct (li_node _ H _ _ _ Hr) as (n & E & _).
  rewrite (at_node_eq _ _ _ E) in Hx. by eapply (li_child _ H).
Qed.

Lemma entries_below fuel l k r :
  held t l k r → (l ≤ fuel)%nat →
  entries (name_of t <$> parent_ (at_node t r)) (proto_of fuel r) = entry t <$> below fuel r.
Proof using Ho H.
  revert l k r. induction fuel as [|fuel IH]; intros l k r Hr Hl.
  - cbn. unfold entry. by destruct (nodeInfo_ (at_node t r)).
  - unfold proto_of. cbn [entries below fmap list_fmap]. rewrite GetChildrenProto_S. f_equal.
    + unfold entry. by destruct (nodeInfo_ (at_node t r)).
    + pose proof (child_held l k r) as Hch. change (ni_name (nodeInfo_ (at_node t r))) with (name_of t r).
      induction (order (children_ (at_node t r))) as [|[c x] cs IHcs]; [done|].
      cbn [fmap list_fmap map concat mbind list_bind]. rewrite fmap_app.
      rewrite <- IHcs by (intros c' x' Hr' Hx; apply (Hch c' x' Hr'); by right). f_equal.
      destruct (Hch c x Hr) as (l' & k' & n & -> & Hx & E & P); [left|].
      cbn [snd]. rewrite <- (IH l' k' x Hx) by lia. rewrite (at_node_eq _ _ _ E) at 1. by rewrite P.
Qed.

(** Going up. *)
Definition up (x p : nat) : Prop := inside t x ∧ parent_ (at_node t x) = Some p.

Lemma up_level x p : up x p → inside t p ∧ level_ (at_node t p) = level_ (at_node t x) + 1.
Proof using H.
  intros [(l & k & Hx) P]. destruct (li_node _ H _ _ _ Hx) as (n & E & L). rewrite (at_node_eq _ _ _ E) in *.
  destruct (li_parent _ H _ _ _ _ _ Hx E P) as (k' & n' & _ & Hp & E' & _). split; [by exists (S l), k'|].
  destruct (li_node _ H _ _ _ Hp) as (n2 & E2 & L2). rewrite (at_node_eq _ _ _ E2), L, L2. lia.
Qed.
Lemma ups_level x p : rtc up x p → x = p ∨ level_ (at_node t x) < level_ (at_node t p).
Proof using H. induction 1 as [x|x y p Hxy%up_level _ IH]; [by left|]. destruct IH as [<-|]; right; lia. Qed.
Lemma ups_unique x p q : rtc up x p → rtc up x q → level_ (at_node t p) = level_ (at_node t q) → p = q.
Proof using H.
  induction 1 as [x|x y p Hxy Hyp IH]; intros Hq E.
  - apply ups_level in Hq. destruct Hq; [done|lia].
  - destruct Hq as [x|x y' q Hxy' Hq].
    + assert (Hp : rtc up x p) by by eapply rtc_l. apply ups_level in Hp as [->|]; [done|lia].
    + apply IH; [|done]. assert (y' = y) as -> by (destruct Hxy, Hxy'; congruence). done.
Qed.

Lemma below_up fuel l k r x : held t l k r → x ∈ below fuel r → inside t x ∧ rtc up x r.
Proof using Ho H.
  revert l k r. induction fuel as [|fuel IH]; intros l k r Hr; cbn [below].
  - intros ->%list_elem_of_singleton. split; [by exists l, k|done].
  - intros [->|([c y] & Hx & Hc)%list_elem_of_bind]%elem_of_cons; [split; [by exists l, k|done]|].
    destruct (child_held l k r c y Hr Hc) as (l' & k' & n & -> & Hy & E & P).
    destruct (IH _ _ _ Hy Hx) as [Hi Hu]. split; [done|]. eapply rtc_r; [done|]. split; [by exists l', k'|].
    by rewrite (at_node_eq _ _ _ E).
Qed.

Lemma NoDup_below fuel l k r : held t l k r → NoDup (below fuel r).
Proof using Ho H.
  revert l k r. induction fuel as [|fuel IH]; intros l k r Hr; cbn [below]; [apply NoDup_singleton|].
  destruct (li_node _ H _ _ _ Hr) as (n & E & L).
  constructor.
  - intros ([c y] & Hx & Hc)%list_elem_of_bind. destruct (child_held l k r c y Hr Hc) as (l' & k' & ny & -> & Hy & Ey & P).
    destruct (below_up _ _ _ _ _ Hy Hx) as [_ Hu]. destruct (li_node _ H _ _ _ Hy) as (n2 & E2 & L2).
    apply ups_level in Hu. rewrite (at_node_eq _ _ _ E), (at_node_eq _ _ _ E2), L, L2 in Hu. destruct Hu as [<-|]; [|lia].
    destruct (held_level _ _ _ _ _ _ H Hr Hy). lia.
  - apply NoDup_bind.
    + intros [c y] [c' y'] x Hc Hc' Hx Hx'. cbn [snd] in *.
      destruct (child_held l k r c y Hr Hc) as (l1 & k1 & n1 & -> & Hy & E1 & P1).
      destruct (child_held _ k r c' y' Hr Hc') as (l2 & k2 & n2 & [= <-] & Hy' & E2 & P2).
      destruct (below_up _ _ _ _ _ Hy Hx) as [_ Hu]. destruct (below_up _ _ _ _ _ Hy' Hx') as [_ Hu'].
      assert (y = y') as <-.
      { eapply ups_unique; [done..|]. destruct (li_node _ H _ _ _ Hy) as (n3 & E3 & L3).
        destruct (li_node _ H _ _ _ Hy') as (n4 & E4 & L4). by rewrite (at_node_eq _ _ _ E3), (at_node_eq _ _ _ E4), L3. }
      f_equal. apply (lawful_elem _ _ _ _ Ho) in Hc, Hc'. rewrite (at_node_eq _ _ _ E) in Hc, Hc'.
      exact (li_child_inj _ H _ _ _ _ _ _ _ Hr E Hc Hc').
    + intros [c y] Hc. destruct (child_held l k r c y Hr Hc) as (l1 & k1 & n1 & -> & Hy & _). by eapply IH.
    + rewrite (Ho _). apply NoDup_map_to_list.
Qed.

Lemma below_child fuel l k r p x c :
  held t l k r → (l ≤ fuel)%nat → p ∈ below fuel r → children_ (at_node t p) !! c = Some x → x ∈ below fuel r.
Proof using Ho H.
  revert l k r. induction fuel as [|fuel IH]; intros l k r Hr Hl Hp Hx; cbn [below] in *.
  - apply list_elem_of_singleton in Hp as ->. apply (lawful_elem _ _ _ _ Ho) in Hx.
    destruct (child_held l k r c x Hr Hx) as (l' & k' & n & -> & _). lia.
  - right. apply list_elem_of_bind. apply elem_of_cons in Hp as [->|([c' y] & Hp & Hc)%list_elem_of_bind].
    + exists (c, x). split; [destruct fuel; left|by apply (lawful_elem _ _ _ _ Ho)].
    + exists (c', y). split; [|done]. destruct (child_held l k r c' y Hr Hc) as (l' & k' & n & -> & Hy & _).
      eapply IH; [exact Hy|lia|done|done].
Qed.

Lemma below_all fuel k r :
  held t (length (levelNodes_ t) - 1) k r → (length (levelNodes_ t) ≤ S fuel)%nat → ∀ x, inside t x → x ∈ below fuel r.
Proof using Ho H.
  intros Hr Hf. assert (Hall : ∀ d l k' x, held t l k' x → (l + S d = length (levelNodes_ t))%nat → x ∈ below fuel r).
  { induction d as [|d IH]; intros l k' x Hx Hl.
    - assert (x = r) as ->; [|destruct fuel; left].
      pose proof (top_node _ _ _ _ H Hx ltac:(lia)) as E1. pose proof (top_node _ _ _ _ H Hr ltac:(lia)) as E2.
      rewrite E1 in E2. apply (inj Some) in E2. apply (f_equal (.!! k')) in E2. rewrite lookup_singleton_eq in E2.
      symmetry in E2. by apply lookup_singleton_Some in E2 as [_ ->].
    - destruct (li_node _ H _ _ _ Hx) as (n & E & _). destruct (li_rooted _ H l k' x n Hx ltac:(lia) E) as [p P].
      destruct (li_parent _ H _ _ _ _ _ Hx E P) as (k2 & n2 & c & Hp & E2 & C).
      apply (below_child fuel _ k r p x c Hr); [lia|by eapply (IH (S l)); [|lia]|by rewrite (at_node_eq _ _ _ E2)]. }
  intros x (l & k' & Hx). apply (Hall (length (levelNodes_ t) - 1 - l)%nat l k' x Hx). apply held_length in Hx. lia.
Qed.

Lemma below_refs fuel k r :
  held t (length (levelNodes_ t) - 1) k r → (length (levelNodes_ t) ≤ S fuel)%nat → below fuel r ≡ₚ refs t.
Proof using Ho H.
  intros Hr Hf. apply NoDup_Permutation; [by eapply NoDup_below|by apply NoDup_refs|].
  intros x. rewrite elem_of_node_refs. split; [intros Hx; by eapply below_up|by apply (below_all fuel k)].
Qed.
End serialize.

(** Levels descend by one. *)
Inductive leveled : nat → SchedulerNode → Prop :=
  | leveled_leaf n a : leveled 0 (mkProto n a 0 [])
  | leveled_node l n a cs : Forall (leveled l) cs → leveled (S l) (mkProto n a (Z.of_nat (S l)) cs).

Lemma proto_leveled order t fuel l k r :
  lawful order → linked t → held t l k r → (l ≤ fuel)%nat → leveled l (proto_of order t fuel r).
Proof.
  intros Ho H. revert l k r. induction fuel as [|fuel IH]; intros l k r Hr Hl;
    destruct (li_node _ H _ _ _ Hr) as (n & E & L); unfold proto_of; rewrite (at_node_eq _ _ _ E), L.
  - destruct l; [constructor|lia].
  - rewrite GetChildrenProto_S. pose proof (child_held order Ho t H l k r) as Hch. rewrite (at_node_eq _ _ _ E) in Hch.
    destruct l as [|l].
    + destruct (order (children_ n)) as [|[c x] cs]; [constructor|].
      destruct (Hch c x Hr) as (l' & ? & ? & ? & _); [left|lia].
    + constructor. apply Forall_fmap, Forall_forall. intros [c x] Hx.
      destruct (Hch c x Hr Hx) as (l' & k' & ? & [= <-] & Hx' & _). apply (IH l k'); [done|lia].
Qed.

Lemma GetRootNode_spec order t :
  lawful order → linked t → (2 ≤ length (levelNodes_ t))%nat →
  ∃ k r, GetRootNode order t = Some r ∧ held t (length (levelNodes_ t) - 1) k r ∧ parent_ (at_node t r) = None.
Proof.
  intros Ho H Hl. unfold GetRootNode. rewrite (proj2 (Nat.ltb_ge _ _)) by (unfold MIN_TREE_LEVEL; lia).
  destruct (last (levelNodes_ t)) as [m|] eqn:E; [|apply last_None in E; rewrite E in Hl; cbn in Hl; lia].
  destruct (li_top _ H _ E) as (k & r & n & -> & En & P). exists k, r. split_and!.
  - cbn. assert (Eo : order {[k := r]} = [(k, r)]); [|by rewrite Eo].
    apply Permutation_singleton_r. rewrite (Ho _), map_to_list_singleton. done.
  - rewrite last_lookup in E. unfold held, FindNodes.
    replace (length (levelNodes_ t) - 1)%nat with (Init.Nat.pred (length (levelNodes_ t))) by lia. rewrite E. cbn.
    apply lookup_singleton_eq.
  - by rewrite (at_node_eq _ _ _ En).
Qed.

Lemma root_entries order t :
  lawful order → linked t → (2 ≤ length (levelNodes_ t))%nat →
  ∃ root, root_proto order t = Some root ∧ entries None root ≡ₚ listing t ∧ leveled (length (levelNodes_ t) - 1) root.
Proof.
  intros Ho H Hl. destruct (GetRootNode_spec _ _ Ho H Hl) as (k & r & Er & Hr & P).
  exists (proto_of order t (depth t) r). unfold root_proto. rewrite Er. split_and!; [done| |].
  - pose proof (entries_below order Ho t H (depth t) _ k r Hr) as E. rewrite P in E. cbn [fmap option_fmap option_map] in E.
    rewrite E by (unfold depth; lia). unfold listing. f_equiv. apply (below_refs _ Ho _ H _ k); [done|unfold depth; lia].
  - apply (proto_leveled _ _ _ _ k); [done..|unfold depth; lia].
Qed.

(** ** Recovering *)
Definition key (e : Entry) : Z * string := (e.1.1, ni_name e.1.2).
Definition kids (parent : option string) (cs : list SchedulerNode) : list Entry := concat (map (entries parent) cs).

(** Nodes are kept under their names. *)
Definition named (t : Tree) : Prop := ∀ l k r n, held t l k r → heap_ t !! r = Some n →
  ni_name (nodeInfo_ n) = k ∧ ∀ c r', children_ n !! c = Some r' → name_of t r' = c.

(** [t'] is [t] with the entries [es] added. *)
Record loaded (t t' : Tree) (es : list Entry) : Prop := {
  ld_linked : linked t';
  ld_named : named t';
  ld_length : length (levelNodes_ t') = length (levelNodes_ t);
  ld_mono : ∀ l k r, held t l k r → held t' l k r;
  ld_new : ∀ l k r, held t' l k r → held t l k r ∨ (Z.of_nat l, k) ∈ key <$> es;
  ld_listing : listing t' ≡ₚ listing t ++ es;
}.

Lemma loaded_nil t : linked t → named t → loaded t t [].
Proof. intros. split; try done; [by left|]. by rewrite app_nil_r. Qed.

Lemma loaded_app t t1 t2 es1 es2 : loaded t t1 es1 → loaded t1 t2 es2 → loaded t t2 (es1 ++ es2).
Proof.
  intros L1 L2. split.
  - apply L2.
  - apply L2.
  - by rewrite (ld_length _ _ _ L2), (ld_length _ _ _ L1).
  - intros l k r Hr. by apply (ld_mono _ _ _ L2), (ld_mono _ _ _ L1).
  - intros l k r [Hr|Hr]%(ld_new _ _ _ L2); rewrite fmap_app, elem_of_app; [|by auto].
    apply (ld_new _ _ _ L1) in Hr as [?|?]; auto.
  - by rewrite (ld_listing _ _ _ L2), (ld_listing _ _ _ L1), app_assoc.
Qed.

Section graft_load.
Context (t : Tree) (p : nat) (info : NodeInfo) (l : nat) (kp : string).
Context (H : linked t) (Hn : named t) (Hp : held t (S l) kp p) (Hfree : FindNodes t l !! ni_name info = None).

Lemma named_child_free np : heap_ t !! p = Some np → children_ np !! ni_name info = None.
Proof using H Hn Hp Hfree.
  intros E. destruct (children_ np !! ni_name info) as [x|] eqn:Ex; [|done].
  destruct (li_child _ H _ _ _ _ _ _ Hp E Ex) as (l' & k' & nx & [= <-] & Hx & Enx & _).
  destruct (Hn _ _ _ _ Hp E) as [_ Hc]. specialize (Hc _ _ Ex). unfold name_of in Hc. rewrite (at_node_eq _ _ _ Enx) in Hc.
  destruct (Hn _ _ _ _ Hx Enx) as [Hk _]. assert (k' = ni_name info) as -> by congruence.
  unfold held in Hx. congruence.
Qed.

Lemma graft_at r : inside t r →
  let t' := (graft p info l t).2 in
  level_ (at_node t' r) = level_ (at_node t r) ∧ nodeInfo_ (at_node t' r) = nodeInfo_ (at_node t r) ∧
  parent_ (at_node t' r) = parent_ (at_node t r).
Proof using H Hn Hp Hfree.
  intros (lr & kr & Hr). destruct (li_node _ H _ _ _ Hp) as (np & Enp & _). destruct (li_node _ H _ _ _ Hr) as (n & E & _).
  pose proof (named_child_free np Enp) as Hc. destruct (graft_keeps t p info l np H Enp Hc r n E) as (n' & E' & P & L & I & _).
  cbn zeta. by rewrite (at_node_eq _ _ _ E), (at_node_eq _ _ _ E').
Qed.

Lemma graft_entry r : inside t r → entry (graft p info l t).2 r = entry t r.
Proof using H Hn Hp Hfree.
  intros Hr. destruct (graft_at r Hr) as (L & I & P). unfold entry. rewrite L, I, P. f_equal.
  destruct (parent_ (at_node t r)) as [q|] eqn:Eq; [|done].
  cbn [fmap option_fmap option_map]. f_equal. unfold name_of.
  destruct Hr as (lr & kr & Hr). destruct (li_node _ H _ _ _ Hr) as (n & E & _). rewrite (at_node_eq _ _ _ E) in Eq.
  destruct (li_parent _ H _ _ _ _ _ Hr E Eq) as (k' & _ & _ & Hq & _).
  by destruct (graft_at q) as (_ & -> & _); [by exists (S lr), k'|].
Qed.

Lemma graft_named : named (graft p info l t).2.
Proof using H Hn Hp Hfree.
  destruct (li_node _ H _ _ _ Hp) as (np & Enp & _). pose proof (named_child_free np Enp) as Hc.
  intros l' k r n' Hr En. destruct (graft_cases t p info l kp np H Hp Enp Hfree Hc _ _ _ _ Hr En)
    as [(_ & -> & _ & ->)|(n & Hne & Hr' & E & _ & EI & EC)]; [done|].
  destruct (Hn _ _ _ _ Hr' E) as [Hk Hcs]. rewrite EI. split; [done|]. intros c x [(_ & -> & ->)|Ex]%EC.
  - unfold name_of. by rewrite (at_node_eq _ _ _ (graft_new_heap t p info l np H Enp)).
  - destruct (li_child _ H _ _ _ _ _ _ Hr' E Ex) as (lx & kx & _ & _ & Hx & _).
    unfold name_of. destruct (graft_at x) as (_ & -> & _); [by exists lx, kx|]. by apply Hcs.
Qed.

Lemma graft_loaded : loaded t (graft p info l t).2 [(Z.of_nat l, info, Some kp)].
Proof using H Hn Hp Hfree.
  destruct (li_node _ H _ _ _ Hp) as (np & Enp & _). pose proof (named_child_free np Enp) as Hc.
  pose proof (graft_held_iff t p info l kp Hp Hfree) as Hh. pose proof (graft_linked t p info l kp np H Hp Enp Hfree Hc) as Hl.
  split.
  - done.
  - apply graft_named.
  - by rewrite graft_levels, length_alter.
  - intros l' k r Hr. apply Hh. by right.
  - intros l' k r [(-> & -> & _)|Hr]%Hh; [right|by left]. cbn. by apply list_elem_of_singleton.
  - assert (Hrefs : refs (graft p info l t).2 ≡ₚ fresh_ t :: refs t).
    { apply NoDup_Permutation; [by apply NoDup_refs|constructor; [|by apply NoDup_refs]|].
      - rewrite elem_of_node_refs. intros (l' & k & Hr). by apply held_not_new in Hr.
      - intros r. rewrite elem_of_cons, !elem_of_node_refs. unfold inside. setoid_rewrite Hh. naive_solver. }
    unfold listing. rewrite Hrefs, fmap_cons, <- Permutation_cons_append. f_equiv.
    + unfold entry, name_of. rewrite (at_node_eq _ _ _ (graft_new_heap t p info l np H Enp)). cbn [parent_ new_child].
      cbn [fmap option_fmap option_map]. destruct (graft_at p) as (_ & -> & _); [by exists (S l), kp|].
      rewrite (at_node_eq _ _ _ Enp). by destruct (Hn _ _ _ _ Hp Enp) as [-> _].
    + rewrite (list_fmap_ext (entry (graft p info l t).2) (entry t) (refs t)); [done|].
      intros i r Hi. apply graft_entry, elem_of_node_refs. by eapply list_elem_of_lookup_2.
Qed.
End graft_load.

(** The loop over the children of a message. *)
Fixpoint load (node : nat) (cs : list SchedulerNode) (t : Tree) : option Tree :=
  match cs with
  | [] => Some t
  | child :: cs =>
      if p_level child <? 0 then load node cs t
      else
        let level := to_uint16 (p_level child) in
        let '(childNode, t) := make_shared (mkInfo (p_name child) (p_address child)) (Z.of_nat level) t in
        if (length (levelNodes_ t) <=? level)%nat then None
        else
          let t := AddChild node childNode (put_level level (p_name child) childNode t) in
          t ← AddChildFromProto childNode child t; load node cs t
  end.
Lemma AddChildFromProto_load node p t : AddChildFromProto node p t = load node (p_children p) t.
Proof.
  destruct p as [n a l cs]. cbn. revert t. induction cs as [|c cs IH]; intros t; [done|].
  cbn [load]. destruct (p_level c <? 0); [apply IH|]. cbn -[AddChild put_level].
  destruct (_ <=? _)%nat; [done|]. destruct (AddChildFromProto _ c _); [apply IH|done].
Qed.

Lemma load_cons node child cs t l :
  p_level child = Z.of_nat l → Z.of_nat l < 2 ^ 16 → (l < length (levelNodes_ t))%nat →
  load node (child :: cs) t =
  (t ← AddChildFromProto (fresh_ t) child (graft node (mkInfo (p_name child) (p_address child)) l t).2; load node cs t).
Proof.
  intros El Hl Hlen. cbn [load]. rewrite El, to_uint16_small by done. rewrite (proj2 (Z.ltb_ge _ _)) by lia.
  unfold make_shared. cbn [levelNodes_]. by rewrite (proj2 (Nat.leb_gt _ _)) by lia.
Qed.

Definition can_load (l : nat) (p : SchedulerNode) : Prop := ∀ node t kp,
  linked t → named t → held t l kp node → Z.of_nat l < 2 ^ 16 →
  NoDup (key <$> kids (Some kp) (p_children p)) →
  (∀ l' k, (Z.of_nat l', k) ∈ key <$> kids (Some kp) (p_children p) → FindNodes t l' !! k = None) →
  ∃ t', AddChildFromProto node p t = Some t' ∧ loaded t t' (kids (Some kp) (p_children p)).

Lemma load_ok l cs :
  Forall (leveled l) cs → Forall (can_load l) cs → ∀ node t kp,
  linked t → named t → held t (S l) kp node → Z.of_nat l < 2 ^ 16 → NoDup (key <$> kids (Some kp) cs) →
  (∀ l' k, (Z.of_nat l', k) ∈ key <$> kids (Some kp) cs → FindNodes t l' !! k = None) →
  ∃ t', load node cs t = Some t' ∧ loaded t t' (kids (Some kp) cs).
Proof.
  induction cs as [|child cs IH]; intros Hlv Hcan node t kp H Hn Hh Hl Hnd Hfree.
  { exists t. split; [done|]. by apply loaded_nil. }
  apply Forall_cons in Hlv as [Hlc Hlv], Hcan as [Hcc Hcan].
  assert (Elv : p_level child = Z.of_nat l) by by inversion Hlc.
  assert (Ek : kids (Some kp) (child :: cs) =
    [(Z.of_nat l, mkInfo (p_name child) (p_address child), Some kp)] ++
    kids (Some (p_name child)) (p_children child) ++ kids (Some kp) cs).
  { destruct child. cbn in Elv. subst. done. }
  rewrite Ek in Hnd, Hfree |- *. rewrite !fmap_app in Hnd, Hfree.
  set (info := mkInfo (p_name child) (p_address child)) in *.
  apply NoDup_app in Hnd as (_ & Hd1 & Hnd). apply NoDup_app in Hnd as (Hnd1 & Hd2 & Hnd2).
  assert (Hf0 : FindNodes t l !! ni_name info = None) by (apply Hfree; left).
  pose proof (graft_loaded t node info l kp H Hn Hh Hf0) as L1.
  pose proof (held_length _ _ _ _ Hh) as Hlen. rewrite (load_cons _ _ _ _ l) by (done || lia).
  destruct (Hcc (fresh_ t) (graft node info l t).2 (p_name child)) as (t2 & E2 & L2); [apply L1|apply L1| |done|done| |].
  { apply (graft_held_iff t node info l kp Hh Hf0). by left. }
  { intros l' k Hk. destruct (FindNodes (graft node info l t).2 l' !! k) as [x|] eqn:Ex; [|done].
    apply (ld_new _ _ _ L1) in Ex as [Ex|Ex].
    - unfold held in Ex. rewrite Hfree in Ex; [done|]. rewrite elem_of_app. right. apply elem_of_app. by left.
    - exfalso. apply (Hd1 _ Ex). apply elem_of_app. by left. }
  fold info. rewrite E2. cbn [mbind option_bind].
  pose proof (loaded_app _ _ _ _ _ L1 L2) as L12.
  destruct (IH Hlv Hcan node t2 kp) as (t3 & E3 & L3); [apply L2|apply L2|by apply (ld_mono _ _ _ L12)|done|done| |].
  { intros l' k Hk. destruct (FindNodes t2 l' !! k) as [x|] eqn:Ex; [|done].
    apply (ld_new _ _ _ L12) in Ex as [Ex|Ex].
    - unfold held in Ex. rewrite Hfree in Ex; [done|]. rewrite elem_of_app. right. apply elem_of_app. by right.
    - exfalso. rewrite fmap_app, elem_of_app in Ex. destruct Ex as [Ex|Ex].
      + apply (Hd1 _ Ex). apply elem_of_app. by right.
      + by apply (Hd2 _ Ex). }
  exists t3. split; [done|]. rewrite app_assoc. by eapply loaded_app.
Qed.

Lemma leveled_can_load p l : leveled l p → can_load l p.
Proof.
  revert l. induction p as [n a lv cs IH] using proto_ind. intros l Hlv node t kp H Hn Hh Hl Hnd Hfree.
  rewrite AddChildFromProto_load. cbn [p_children] in *. inversion Hlv as [|l' ? ? ? Hcs]; subst.
  { exists t. split; [done|]. by apply loaded_nil. }
  apply (load_ok l'); [done| |done..|lia|done|done].
  apply Forall_forall. intros c Hc. apply (proj1 (Forall_forall _ _) IH c Hc). by apply (proj1 (Forall_forall _ _) Hcs).
Qed.

(** ** Releasing changes nothing of what is listed *)
Lemma release_entry t r : linked t → inside t r → entry (release t) r = entry t r.
Proof.
  intros H (l & k & Hr). unfold entry, name_of. rewrite release_at by by eapply held_owned. f_equal.
  destruct (li_node _ H _ _ _ Hr) as (n & E & _). rewrite (at_node_eq _ _ _ E).
  destruct (parent_ n) as [q|] eqn:Eq; [|done]. cbn [fmap option_fmap option_map]. f_equal.
  destruct (li_parent _ H _ _ _ _ _ Hr E Eq) as (k' & _ & _ & Hq & _). by rewrite release_at by by eapply held_owned.
Qed.
Lemma release_listing t : linked t → listing (release t) = listing t.
Proof.
  intros H. unfold listing. change (refs (release t)) with (refs t). apply list_fmap_ext. intros i r Hi.
  apply release_entry; [done|]. apply elem_of_node_refs. by eapply list_elem_of_lookup_2.
Qed.
Lemma release_named t : linked t → named t → named (release t).
Proof.
  intros H Hn l k r n Hr E%release_heap_Some. destruct (Hn _ _ _ _ Hr E) as [Hk Hc]. split; [done|].
  intros c x Ex. destruct (li_child _ H _ _ _ _ _ _ Hr E Ex) as (l' & k' & _ & _ & Hx & _).
  unfold name_of. rewrite release_at by by eapply held_owned. by apply Hc.
Qed.

(** ** The root alone *)
Definition lone (info : NodeInfo) (L : nat) (t : Tree) : Tree :=
  put_level L (ni_name info) (fresh_ t) (set_levels (replicate (L + 1) ∅) (make_shared info (Z.of_nat L) t).2).

Lemma lone_levels info L t : levelNodes_ (lone info L t) = replicate L ∅ ++ [{[ni_name info := fresh_ t]}].
Proof.
  unfold lone. cbn -[Nat.add]. rewrite replicate_add. cbn.
  rewrite <- (length_replicate L (∅ : gmap string nat)) at 1. rewrite alter_last. by rewrite insert_empty.
Qed.
Lemma lone_held info L t l k r : held (lone info L t) l k r ↔ l = L ∧ k = ni_name info ∧ r = fresh_ t.
Proof.
  unfold held, FindNodes. rewrite lone_levels. destruct (decide (l < L)%nat) as [Hl|Hl].
  - rewrite lookup_app_l by by rewrite length_replicate. rewrite lookup_replicate_2 by done. cbn. rewrite lookup_empty.
    split; [done|]. intros (-> & _). lia.
  - rewrite lookup_app_r by (rewrite length_replicate; lia). rewrite length_replicate.
    destruct (decide (l = L)) as [->|Hne].
    + rewrite Nat.sub_diag. cbn. rewrite lookup_singleton_Some. naive_solver.
    + rewrite lookup_ge_None_2 by (cbn; lia). cbn. rewrite lookup_empty. naive_solver.
Qed.
Lemma lone_heap info L t : heap_ (lone info L t) = <[fresh_ t := make_node info (Z.of_nat L)]> (heap_ t).
Proof. done. Qed.

Lemma lone_linked info L t :
  (∀ r, is_Some (heap_ t !! r) → (r < fresh_ t)%nat) → linked (lone info L t) ∧ named (lone info L t).
Proof.
  intros Hf. pose proof (lone_held info L t) as Hh. pose proof (lone_heap info L t) as Eh.
  assert (Hn : ∀ l k r n, held (lone info L t) l k r → heap_ (lone info L t) !! r = Some n →
    n = make_node info (Z.of_nat L) ∧ k = ni_name info ∧ l = L).
  { intros l k r n (-> & -> & ->)%Hh. rewrite Eh, lookup_insert_eq. by intros [= <-]. }
  split; [split|].
  - intros l k r (-> & -> & ->)%Hh. rewrite Eh, lookup_insert_eq. by eexists.
  - intros l k k' r (_ & -> & _)%Hh (_ & -> & _)%Hh. done.
  - intros l k r n c r' Hr E. by destruct (Hn _ _ _ _ Hr E) as (-> & _).
  - intros l k r n c c' r' Hr E. by destruct (Hn _ _ _ _ Hr E) as (-> & _).
  - intros l k r n p Hr E. by destruct (Hn _ _ _ _ Hr E) as (-> & _).
  - intros k r n Hr E. by destruct (Hn _ _ _ _ Hr E) as (-> & -> & _).
  - rewrite lone_levels, last_snoc. intros m [= <-]. eexists _, _, _. rewrite Eh, lookup_insert_eq. done.
  - rewrite lone_levels, length_app, length_replicate. intros l k r n (-> & _)%Hh Hl. cbn in Hl. lia.
  - intros r. rewrite Eh, lookup_insert_is_Some. cbn. intros [<-|[_ Hr]]; [lia|]. specialize (Hf r Hr). lia.
  - intros l k r n Hr E. by destruct (Hn _ _ _ _ Hr E) as (-> & -> & _).
Qed.

Lemma lone_listing info L t : linked (lone info L t) → listing (lone info L t) = [(Z.of_nat L, info, None)].
Proof.
  intros H. assert (Hr : refs (lone info L t) ≡ₚ [fresh_ t]).
  { apply NoDup_Permutation; [by apply NoDup_refs|apply NoDup_singleton|]. intros r.
    rewrite elem_of_node_refs, list_elem_of_singleton. unfold inside. setoid_rewrite lone_held. naive_solver. }
  apply Permutation_singleton_r in Hr. unfold listing. rewrite Hr. cbn [fmap list_fmap]. unfold entry, at_node.
  by rewrite lone_heap, lookup_insert_eq.
Qed.

Lemma recover_ok {PC : Codec SchedulerNode} (x : string) (root : SchedulerNode) (L : nat) (t0 : Tree) :
  parse x = Some root → (∀ r, is_Some (heap_ t0 !! r) → (r < fresh_ t0)%nat) →
  leveled L root → Z.of_nat L < 2 ^ 16 → NoDup (key <$> entries None root) →
  ∃ t', RecoverFromString x t0 = Some (StatusOK, t') ∧ linked t' ∧ named t' ∧
    listing t' ≡ₚ entries None root ∧ length (levelNodes_ t') = S L.
Proof.
  intros Hx Hf Hlv HL Hnd. unfold RecoverFromString. rewrite Hx.
  assert (El : p_level root = Z.of_nat L) by by inversion Hlv. rewrite El, to_uint16_small by done.
  rewrite (proj2 (Z.ltb_ge _ _)) by lia.
  set (info := mkInfo (p_name root) (p_address root)).
  assert (Ee : entries None root = (Z.of_nat L, info, None) :: kids (Some (p_name root)) (p_children root)).
  { destruct root. cbn in El. by subst. }
  rewrite Ee in *. cbn [fmap list_fmap] in Hnd. inversion Hnd as [|? ? Hni Hnd']; subst.
  destruct (lone_linked info L t0 Hf) as [H1 H2]. pose proof (release_linked _ H1) as H1'.
  pose proof (release_named _ H1 H2) as H2'.
  destruct (leveled_can_load root L Hlv (fresh_ t0) (release (lone info L t0)) (p_name root) H1' H2') as (t' & Et & Hld).
  { by apply lone_held. }
  { done. }
  { done. }
  { intros l' k Hk. destruct (FindNodes (release (lone info L t0)) l' !! k) as [r|] eqn:Ex; [|done].
    apply lone_held in Ex as (-> & -> & _). by destruct Hni. }
  assert (Er : (λ t, (StatusOK, release t)) <$> AddChildFromProto (fresh_ t0) root (release (lone info L t0)) =
    Some (StatusOK, release t')) by (by rewrite Et).
  exists (release t'). split; [exact Er|]. split_and!.
  - apply release_linked, Hld.
  - apply release_named; apply Hld.
  - rewrite release_listing by apply Hld. rewrite (ld_listing _ _ _ Hld), release_listing, lone_listing by done. done.
  - change (length (levelNodes_ t') = S L). rewrite (ld_length _ _ _ Hld). cbn [levelNodes_ release set_heap].
    rewrite lone_levels, length_app, length_replicate. cbn. lia.
Qed.

(** No two nodes of a level have the same name. *)
Definition distinct_names (t : Tree) : Prop := ∀ l k k' r r',
  held t l k r → held t l k' r' → name_of t r = name_of t r' → r = r'.

Lemma NoDup_keys t : linked t → distinct_names t → NoDup (key <$> listing t).
Proof.
  intros H Hd. unfold listing. rewrite <- list_fmap_compose. apply NoDup_fmap_2_strong; [|by apply NoDup_refs].
  intros r r' (l & k & Hr)%elem_of_node_refs (l' & k' & Hr')%elem_of_node_refs E. unfold key, entry, compose in E. cbn in E.
  injection E as El En. destruct (li_node _ H _ _ _ Hr) as (n & En1 & L1). destruct (li_node _ H _ _ _ Hr') as (n' & En2 & L2).
  rewrite (at_node_eq _ _ _ En1), (at_node_eq _ _ _ En2) in El. assert (l' = l) as -> by lia. by eapply Hd.
Qed.

(** C36: A tree survives being stored.  The string a tree serializes to can
    be recovered into any tree object, and the recovered tree is again
    linked, of the same height, keeps its nodes under their names, and lists
    the same nodes: the same names and addresses, at the same levels, below
    the same parents. *)
Theorem topology_round_trip {PC : Codec SchedulerNode} (order : gmap string nat → list (string * nat)) (t t0 : Tree) :
  CodecOk SchedulerNode → lawful order → linked t → distinct_names t →
  (2 ≤ length (levelNodes_ t))%nat → Z.of_nat (length (levelNodes_ t)) ≤ 2 ^ 16 →
  (∀ r, is_Some (heap_ t0 !! r) → (r < fresh_ t0)%nat) →
  ∃ t', RecoverFromString (SerializeAsString order t) t0 = Some (StatusOK, t') ∧
    linked t' ∧ named t' ∧ length (levelNodes_ t') = length (levelNodes_ t) ∧ listing t' ≡ₚ listing t.
Proof.
  intros Hok Ho H Hd Hl Hl' Hf. destruct (root_entries order t Ho H Hl) as (root & Er & Hp & Hlv).
  unfold SerializeAsString. rewrite Er.
  destruct (recover_ok (ser root) root _ t0 (parse_ser root) Hf Hlv) as (t' & E & H' & Hn & Hls & Hlen); [lia| |].
  { rewrite Hp. by apply NoDup_keys. }
  exists t'. split_and!; [done..|lia|]. by rewrite Hls.
Qed.

Lemma topology_round_trip_witness :
  let PC := countable_codec SchedulerNode in
  ∃ t', RecoverFromString (SerializeAsString map_to_list demo_tree) (make 2 2) = Some (StatusOK, t') ∧
    listing t' ≡ₚ listing demo_tree.
Proof.
  intros PC. destruct (topology_round_trip (PC := PC) map_to_list demo_tree (make 2 2)) as (t' & E & _ & _ & _ & Hp).
  - apply countable_codec_ok.
  - apply map_to_list_lawful.
  - apply (topo_run_wf _ _ demo_tree_run (make_wf 2 2)).
  - intros l k k' r r'. destruct l as [|[|[|l]]]; unfold held.
    + replace (FindNodes demo_tree 0) with ({["local-1" := 1%nat]} : gmap string nat) by (vm_compute; reflexivity).
      rewrite !lookup_singleton_Some. intros [_ <-] [_ <-] _. reflexivity.
    + replace (FindNodes demo_tree 1) with ({["domain-1" := 0%nat]} : gmap string nat) by (vm_compute; reflexivity).
      rewrite !lookup_singleton_Some. intros [_ <-] [_ <-] _. reflexivity.
    + replace (FindNodes demo_tree 2) with ({["domain-2" := 2%nat]} : gmap string nat) by (vm_compute; reflexivity).
      rewrite !lookup_singleton_Some. intros [_ <-] [_ <-] _. reflexivity.
    + intros Hr%held_length. exfalso. revert Hr. vm_compute. lia.
  - vm_compute. lia.
  - vm_compute. discriminate.
  - intros r [n Hr]. discriminate Hr.
  - exists t'. split; [exact E|exact Hp].
Defined.

(** ** What is not kept *)

(** The state of a node is not stored. *)
Lemma proto_same order t t' fuel m :
  (∀ r, children_ (at_node t' r) = children_ (at_node t r) ∧ nodeInfo_ (at_node t' r) = nodeInfo_ (at_node t r) ∧
        level_ (at_node t' r) = level_ (at_node t r)) →
  GetChildrenProto order fuel t' m = GetChildrenProto order fuel t m.
Proof.
  intros Hs. revert m. induction fuel as [|fuel IH]; intros m; [done|]. cbn [GetChildrenProto].
  apply list_fmap_ext. intros i c _. destruct (Hs c.2) as (-> & -> & ->). by rewrite IH.
Qed.
Lemma broken_not_stored {PC : Codec SchedulerNode} order r st t :
  SerializeAsString order (SetState r st t) = SerializeAsString order t.
Proof.
  assert (Hs : ∀ x, children_ (at_node (SetState r st t) x) = children_ (at_node t x) ∧
    nodeInfo_ (at_node (SetState r st t) x) = nodeInfo_ (at_node t x) ∧
    level_ (at_node (SetState r st t) x) = level_ (at_node t x)).
  { intros x. unfold at_node. cbn. destruct (decide (x = r)) as [->|Hne].
    - rewrite lookup_alter_eq. by destruct (heap_ t !! r).
    - by rewrite lookup_alter_ne. }
  assert (Hd : depth (SetState r st t) = depth t).
  { unfold depth. cbn. f_equal. rewrite <- !size_dom, dom_alter_L. done. }
  unfold SerializeAsString, root_proto. change (GetRootNode order (SetState r st t)) with (GetRootNode order t).
  destruct (GetRootNode order t) as [x|]; [|done]. cbn [fmap option_fmap option_map].
  destruct (Hs x) as (-> & -> & ->). by rewrite Hd, (proto_same _ _ _ _ _ Hs).
Qed.

Definition demo_proto : SchedulerNode := mkProto "domain-1" "10.0.0.1" 1 [mkProto "local-1" "10.0.0.2" 0 []].

(** Recovery leaves [nextParent_] null: the next new domain node is put beside
    the recovered root, and the tree has two roots. *)
Example recovered_tree_gains_root {PC : Codec SchedulerNode} :
  CodecOk SchedulerNode →
  ∃ t, RecoverFromString (ser demo_proto) (make 2 2) = Some (StatusOK, t) ∧
    let t' := (AddNonLeafNode (mkInfo "domain-2" "10.0.0.3") t).2 in
    size (FindNodes t' 1) = 2%nat ∧ length (levelNodes_ t') = 2%nat ∧
    (GetParent t' <$> FindNonLeafNode t' "domain-1") = Some None ∧
    (GetParent t' <$> FindNonLeafNode t' "domain-2") = Some None.
Proof. intros Hok. unfold RecoverFromString. rewrite parse_ser. eexists. split; [reflexivity|]. by vm_compute. Qed.

(** A child at a level above the root is written beyond [levelNodes_]. *)
Example recover_out_of_range {PC : Codec SchedulerNode} :
  CodecOk SchedulerNode →
  RecoverFromString (ser (mkProto "domain-1" "" 1 [mkProto "domain-2" "" 2 []])) (make 2 2) = None.
Proof. intros Hok. unfold RecoverFromString. rewrite parse_ser. by vm_compute. Qed.

(** A replaced node is found under its old name only. *)
Definition replaced_tree : Tree :=
  (ReplaceNonLeafNode "domain-1" (mkInfo "domain-9" "10.0.0.9") (SetState 0 BROKEN demo_tree)).2.
Example replaced_not_found :
  FindNonLeafNode replaced_tree "domain-9" = None ∧
  (name_of replaced_tree <$> FindNonLeafNode replaced_tree "domain-1") = Some "domain-9".
Proof. by vm_compute. Qed.

(** A node that was replaced and then hung below a new root can be overwritten
    by a new node of its name: its subtree is in the levels, but neither below
    the root nor in what is stored. *)
Definition overwritten_tree : Tree :=
  let t := (AddNonLeafNode (mkInfo "a" "") (make 2 2)).2 in
  let t := (AddLeafNode map_to_list (mkInfo "x" "") t).2 in
  let t := (ReplaceNonLeafNode "a" (mkInfo "b" "") (SetState 0 BROKEN t)).2 in
  let t := (AddNonLeafNode (mkInfo "r" "") t).2 in
  (AddNonLeafNode (mkInfo "b" "") t).2.
Example replacement_loses_subtree :
  (GetParent overwritten_tree <$> FindLeafNode overwritten_tree "x") = Some (Some 0%nat) ∧
  GetParent overwritten_tree 0 = Some 2%nat ∧
  children_ (at_node overwritten_tree 2) = {["b" := 3%nat]} ∧
  root_proto map_to_list overwritten_tree = Some (mkProto "r" "" 2 [mkProto "b" "" 1 []]).
Proof. by vm_compute. Qed.
