(* ===== verification/GlobalSched.v ===== *)
(** * The global scheduler

    [function_master/global_scheduler/global_sched_actor.cpp]: registers the
    local and domain schedulers in the tree, tells the schedulers around a
    changed node, stores the tree in the metadata store and recovers it on a
    change of the leader.

    The domain and local scheduler managers, the activator of domain
    schedulers, the metadata store client and the bound callbacks are other
    components: calls to them are messages, and what they answer is an argument
    of the handler that gets the answer.  An AID is its address. *)

From S2P Require Import Prelude Leader SchedTree.
From stdpp Require Import base gmap strings list fin_maps.
From Stdlib Require Import ZArith Lia.
Import Topo.

Open Scope Z_scope.
Set Default Proof Using "Type".

Definition GS_GET_FROM_METASTORE_FAILED : Z := 40000.
Definition GS_ACTIVATE_DOMAIN_FAILED : Z := 40003.
Definition RETRY_PUT_TOPO_INTERVAL : Z := 1000.

Module Global.
Inductive LocalExitType := ABNORMAL | UNREGISTER.
#[global] Instance LocalExitType_eq_dec : EqDecision LocalExitType.
Proof. solve_decision. Defined.

(** Which callbacks are bound; the notify callbacks by name, in the order they
    are called in. *)
Record Callbacks := mkCallbacks {
  localSchedAbnormalCallback_ : bool;
  checkLocalAbnormalCallbackFunc_ : bool;
  localDeleteCallback_ : bool;
  localAddCallback_ : bool;
  localSchedAbnormalNotifyCallbacks_ : list string;
}.

(** A promise is its number; [topoRecovered] is whether the promise is set. *)
Record State := mkState {
  topologyTree : Tree;
  lastUpdatedTopology_ : string;
  cachedLocalSched_ : list (string * NodeInfo);
  abnormalDomainSched_ : list string;
  waitDomainToRegister_ : Z;
  hasActivateDomain_ : bool;
  callbacks_ : Callbacks;
  curStatus_ : Business;
  business_ : Business;
  waitToPersistence_ : option nat;
  persisting_ : option nat;
  nextPromise_ : nat;
  topoRecovered : bool;
  cacheTopo_ : string;
  leaderAddress_ : string;
  url_ : string;
}.

Definition set_tree (t : Tree) (s : State) : State :=
  mkState t (lastUpdatedTopology_ s) (cachedLocalSched_ s) (abnormalDomainSched_ s) (waitDomainToRegister_ s)
    (hasActivateDomain_ s) (callbacks_ s) (curStatus_ s) (business_ s) (waitToPersistence_ s) (persisting_ s)
    (nextPromise_ s) (topoRecovered s) (cacheTopo_ s) (leaderAddress_ s) (url_ s).
Definition set_lastUpdated (x : string) (s : State) : State :=
  mkState (topologyTree s) x (cachedLocalSched_ s) (abnormalDomainSched_ s) (waitDomainToRegister_ s)
    (hasActivateDomain_ s) (callbacks_ s) (curStatus_ s) (business_ s) (waitToPersistence_ s) (persisting_ s)
    (nextPromise_ s) (topoRecovered s) (cacheTopo_ s) (leaderAddress_ s) (url_ s).
Definition set_cached (x : list (string * NodeInfo)) (s : State) : State :=
  mkState (topologyTree s) (lastUpdatedTopology_ s) x (abnormalDomainSched_ s) (waitDomainToRegister_ s)
    (hasActivateDomain_ s) (callbacks_ s) (curStatus_ s) (business_ s) (waitToPersistence_ s) (persisting_ s)
    (nextPromise_ s) (topoRecovered s) (cacheTopo_ s) (leaderAddress_ s) (url_ s).
Definition set_abnormal (x : list string) (s : State) : State :=
  mkState (topologyTree s) (lastUpdatedTopology_ s) (cachedLocalSched_ s) x (waitDomainToRegister_ s)
    (hasActivateDomain_ s) (callbacks_ s) (curStatus_ s) (business_ s) (waitToPersistence_ s) (persisting_ s)
    (nextPromise_ s) (topoRecovered s) (cacheTopo_ s) (leaderAddress_ s) (url_ s).
Definition set_wait (activated : bool) (x : Z) (s : State) : State :=
  mkState (topologyTree s) (lastUpdatedTopology_ s) (cachedLocalSched_ s) (abnormalDomainSched_ s) x
    activated (callbacks_ s) (curStatus_ s) (business_ s) (waitToPersistence_ s) (persisting_ s)
    (nextPromise_ s) (topoRecovered s) (cacheTopo_ s) (leaderAddress_ s) (url_ s).
Definition set_business (cur b : Business) (s : State) : State :=
  mkState (topologyTree s) (lastUpdatedTopology_ s) (cachedLocalSched_ s) (abnormalDomainSched_ s)
    (waitDomainToRegister_ s) (hasActivateDomain_ s) (callbacks_ s) cur b (waitToPersistence_ s) (persisting_ s)
    (nextPromise_ s) (topoRecovered s) (cacheTopo_ s) (leaderAddress_ s) (url_ s).
Definition set_persist (wait persisting : option nat) (next : nat) (s : State) : State :=
  mkState (topologyTree s) (lastUpdatedTopology_ s) (cachedLocalSched_ s) (abnormalDomainSched_ s)
    (waitDomainToRegister_ s) (hasActivateDomain_ s) (callbacks_ s) (curStatus_ s) (business_ s) wait persisting
    next (topoRecovered s) (cacheTopo_ s) (leaderAddress_ s) (url_ s).
Definition set_recovered (x : bool) (s : State) : State :=
  mkState (topologyTree s) (lastUpdatedTopology_ s) (cachedLocalSched_ s) (abnormalDomainSched_ s)
    (waitDomainToRegister_ s) (hasActivateDomain_ s) (callbacks_ s) (curStatus_ s) (business_ s)
    (waitToPersistence_ s) (persisting_ s) (nextPromise_ s) x (cacheTopo_ s) (leaderAddress_ s) (url_ s).
Definition set_cacheTopo (x : string) (s : State) : State :=
  mkState (topologyTree s) (lastUpdatedTopology_ s) (cachedLocalSched_ s) (abnormalDomainSched_ s)
    (waitDomainToRegister_ s) (hasActivateDomain_ s) (callbacks_ s) (curStatus_ s) (business_ s)
    (waitToPersistence_ s) (persisting_ s) (nextPromise_ s) (topoRecovered s) x (leaderAddress_ s) (url_ s).
Definition set_leader (x : string) (s : State) : State :=
  mkState (topologyTree s) (lastUpdatedTopology_ s) (cachedLocalSched_ s) (abnormalDomainSched_ s)
    (waitDomainToRegister_ s) (hasActivateDomain_ s) (callbacks_ s) (curStatus_ s) (business_ s)
    (waitToPersistence_ s) (persisting_ s) (nextPromise_ s) (topoRecovered s) (cacheTopo_ s) x (url_ s).

(** The state after [Init]. *)
Definition init (maxLocal maxDomain : nat) (cb : Callbacks) (url : string) : State :=
  mkState (make maxLocal maxDomain) "" [] [] 0 false cb SLAVE_BUSINESS SLAVE_BUSINESS None None 0 false "" "" url.

Inductive Out :=
  | StartDomainSched | StopDomainSched
  | DomainUpdateSchedTopoView (name address : string) (topology : ScheduleTopology)
  | DomainRegistered (to : string) (topology : option ScheduleTopology)
  | DomainDisconnect | DomainConnect (name address : string)
  | DomainUpdateLeaderInfo (address : string) | LocalUpdateLeaderInfo (address : string)
  | LocalRegistered (to : string) (topology : option ScheduleTopology)
  | LocalUpdateSchedTopoView (address : string) (topology : ScheduleTopology)
  | LocalOnLocalAbnormal (name address : string)
  | CheckLocalAbnormal (from name address : string)
  | LocalSchedAbnormalCallback (name : string) | LocalSchedAbnormalNotify (callback name : string)
  | LocalDeleteCallback (name : string) | LocalAddCallback (name : string)
  | MetaStorePut (topologyInfo : string) | AsyncAfterPutTopology (ms : Z) | PersistedSetValue (promise : nat)
  | UpdateNodeTaints (ip key : string) (healthy : bool)
  | DomainSchedule (name address request : string)
  | DomainGroupSchedule (name address group : string) | AsyncAfterGroupSchedule (ms : Z) (group : string)
  | GroupSetValue (group response : string).
Abbreviation C := (Act State Out).

Definition on_tree {A} (f : Tree → A * Tree) : C A :=
  s ← members; modify (set_tree (f (topologyTree s)).2) ≫= λ _, mret (f (topologyTree s)).1.

(** Members that are set only. *)
Definition OnTopologyEvent (events : list (option string)) : C unit :=
  for_each events (λ event, modify (set_cacheTopo (default "" event))).
Definition UpdateLastUpdatedTopology (topologyInfo : string) : C unit := modify (set_lastUpdated topologyInfo).
Definition SetTopoRecovered (isRecovered : bool) : C unit := modify (set_recovered isRecovered).

(** [None] as the status is a write beyond [levelNodes_]. *)
Definition RecoverFromString {PC : Codec SchedulerNode} (topologyInfo : string) : C (option Status) :=
  s ← members;
  match Topo.RecoverFromString topologyInfo (topologyTree s) with
  | None => mret None
  | Some (status, t) =>
      modify (set_tree t) ≫= λ _,
      mret (Some (if IsError status then mkStatus GS_SCHED_TOPOLOGY_BROKEN "" else StatusOK))
  end.

Inductive GetAnswer := GetTimeout | GetFailed | GetKvs (values : list string).

Definition RecoverSchedTopology {PC : Codec SchedulerNode} (stored : GetAnswer) : C (option Status) :=
  s ← members;
  if negb (bool_decide (cacheTopo_ s = "")) then RecoverFromString (cacheTopo_ s)
  else
    match stored with
    | GetTimeout | GetFailed => mret (Some (mkStatus GS_GET_FROM_METASTORE_FAILED ""))
    | GetKvs [] => mret (Some StatusOK)
    | GetKvs (topologyInfo :: _) => RecoverFromString topologyInfo
    end.

(** ** Members of the tree *)
Definition DelLocalSched (name : string) : C (option TreeNode) := on_tree (RemoveLeafNode name).

Definition AddDomainSched (name address : string) : C (option TreeNode) :=
  s ← members;
  match abnormalDomainSched_ s with
  | [] => mret None
  | abnormalNode :: rest =>
      on_tree (ReplaceNonLeafNode abnormalNode (mkInfo name address)) ≫= λ domainSched,
      modify (set_abnormal rest) ≫= λ _, mret domainSched
  end ≫= λ domainSched,
  match domainSched with
  | None => on_tree (AddNonLeafNode (mkInfo name address))
  | Some r => mret (Some r)
  end ≫= λ domainSched,
  modify (λ s, set_wait (hasActivateDomain_ s)
                 (if 0 <? waitDomainToRegister_ s then waitDomainToRegister_ s - 1 else 0) s) ≫= λ _,
  mret domainSched.

(** [started] is what the activator answers. *)
Definition DelDomainSched (started : Status) (name : string) : C (option TreeNode) :=
  s ← members;
  match FindNonLeafNode (topologyTree s) name with
  | None => mret None
  | Some domainSched =>
      on_tree (λ t, (tt, SetState domainSched BROKEN t)) ≫= λ _,
      act_when (negb (bool_decide (name ∈ abnormalDomainSched_ s)))
        (modify (λ s, set_abnormal (abnormalDomainSched_ s ++ [name]) s)) ≫= λ _,
      post StartDomainSched ≫= λ _,
      modify (λ s, set_wait true (if IsError started then waitDomainToRegister_ s
                                  else to_uint32 (waitDomainToRegister_ s + 1)) s) ≫= λ _,
      mret (Some domainSched)
  end.

(** Drop the first entry of [from]. *)
Fixpoint erase_cached (from : string) (l : list (string * NodeInfo)) : list (string * NodeInfo) :=
  match l with
  | [] => []
  | x :: l => if decide (x.1 = from) then l else x :: erase_cached from l
  end.

Definition CacheLocalSched (started : Status) (from name address : string) : C Status :=
  s ← members;
  if decide (is_Some (FindLeafNode (topologyTree s) name)) then mret (mkStatus FAILED "")
  else
    let newCachedLocal := negb (bool_decide (from ∈ (cachedLocalSched_ s).*1)) in
    act_when newCachedLocal
      (modify (λ s, set_cached (cachedLocalSched_ s ++ [(from, mkInfo name address)]) s)) ≫= λ _,
    if 0 <? waitDomainToRegister_ s then mret StatusOK
    else
      post StartDomainSched ≫= λ _,
      modify (λ s, set_wait true (waitDomainToRegister_ s) s) ≫= λ _,
      if IsError started then
        modify (λ s, set_cached (if newCachedLocal then removelast (cachedLocalSched_ s)
                                 else erase_cached from (cachedLocalSched_ s)) s) ≫= λ _,
        mret (mkStatus GS_ACTIVATE_DOMAIN_FAILED "")
      else
        modify (λ s, set_wait true (to_uint32 (waitDomainToRegister_ s + 1)) s) ≫= λ _, mret StatusOK.

Definition GetLocalAddress (name : string) : C (option string) :=
  s ← members;
  mret ((λ r, ni_address (nodeInfo_ (at_node (topologyTree s) r))) <$> FindLeafNode (topologyTree s) name).

Definition UpdateNodeTaintsHandler (ip key : string) (healthy : bool) : C unit := post (UpdateNodeTaints ip key healthy).

Definition AddLocalSchedHandler (from name address : string) : C unit :=
  s ← members;
  act_when (checkLocalAbnormalCallbackFunc_ (callbacks_ s)) (post (CheckLocalAbnormal from name address)).

Section ordered.
Context (order : gmap string nat → list (string * nat)).
Context {PC : Codec SchedulerNode}.

(** ** The business of the role *)
Definition FindRootDomainSched : C (option TreeNode) :=
  s ← members;
  match business_ s with
  | MASTER_BUSINESS => mret (GetRootNode order (topologyTree s))
  | SLAVE_BUSINESS => mret None
  end.

Definition FindRootTopologyView : C ScheduleTopology :=
  FindRootDomainSched ≫= λ rootDomain,
  s ← members;
  match rootDomain with
  | Some r => mret (GetTopologyView order (topologyTree s) r)
  | None =>
      if bool_decide (cacheTopo_ s = "") then mret (mkTopology None [])
      else match parse (cacheTopo_ s) with
           | None => mret (mkTopology None [])
           | Some root => mret (mkTopology None ((λ c, mkInfo (p_name c) (p_address c)) <$> p_children root))
           end
  end.

Definition GetRootDomainInfo : C (option NodeInfo) :=
  s ← members; mret ((λ r, nodeInfo_ (at_node (topologyTree s) r)) <$> GetRootNode order (topologyTree s)).

(** ** Storing the tree

    [PutTopology] calls [OnTopologyPut] when the topology is stored already,
    and that calls [PutTopology] when an update is waiting; then none is
    waiting any more, so two rounds are enough. *)
Definition OnTopologyPut_with (PutTopology : C unit) (failed : bool) : C unit :=
  act_when failed (post (AsyncAfterPutTopology RETRY_PUT_TOPO_INTERVAL)) ≫= λ _,
  s ← members;
  match persisting_ s with
  | Some p =>
      post (PersistedSetValue p) ≫= λ _, modify (set_persist (waitToPersistence_ s) None (nextPromise_ s))
  | None => mret tt
  end ≫= λ _,
  match waitToPersistence_ s with
  | None => mret tt
  | Some p => modify (set_persist None (Some p) (nextPromise_ s)) ≫= λ _, PutTopology
  end.

Fixpoint put_topology (rounds : nat) : C unit :=
  match rounds with
  | O => mret tt
  | S rounds =>
      s ← members;
      let topologyInfo := SerializeAsString order (topologyTree s) in
      if bool_decide (lastUpdatedTopology_ s = topologyInfo) then OnTopologyPut_with (put_topology rounds) false
      else post (MetaStorePut topologyInfo)
  end.
Definition PutTopology : C unit := put_topology 2.
Definition OnTopologyPut (failed : bool) : C unit := OnTopologyPut_with PutTopology failed.

(** The result is the promise whose future the caller gets. *)
Definition UpdateSchedTopology : C nat :=
  s ← members;
  match persisting_ s, waitToPersistence_ s with
  | Some _, None =>
      modify (set_persist (Some (nextPromise_ s)) (persisting_ s) (S (nextPromise_ s))) ≫= λ _, mret (nextPromise_ s)
  | _, Some w => mret w
  | None, None =>
      modify (set_persist None (Some (nextPromise_ s)) (S (nextPromise_ s))) ≫= λ _,
      PutTopology ≫= λ _, mret (nextPromise_ s)
  end.
Definition update_topology : C unit := UpdateSchedTopology ≫= λ _, mret tt.

(** ** Registration *)
Definition tell_domain (r : TreeNode) : C unit :=
  s ← members;
  let info := nodeInfo_ (at_node (topologyTree s) r) in
  post (DomainUpdateSchedTopoView (ni_name info) (ni_address info) (GetTopologyView order (topologyTree s) r)).

(** [isLocalAbnormal] is the future of the check, [None] when it failed. *)
Definition AddLocalSched (started : Status) (isLocalAbnormal : option bool) (from name address : string) : C unit :=
  if default true isLocalAbnormal then mret tt
  else
    on_tree (AddLeafNode order (mkInfo name address)) ≫= λ localSched,
    s ← members;
    match localSched, localSched ≫= GetParent (topologyTree s) with
    | Some local, Some leader =>
        tell_domain leader ≫= λ _,
        post (LocalRegistered from (Some (GetTopologyView order (topologyTree s) local))) ≫= λ _,
        update_topology ≫= λ _,
        act_when (localAddCallback_ (callbacks_ s)) (post (LocalAddCallback name))
    | _, _ =>
        CacheLocalSched started from name address ≫= λ status,
        act_when (IsError status) (post (LocalRegistered from None))
    end.

Definition OnLocalExit (name : string) : C unit :=
  update_topology ≫= λ _,
  s ← members; act_when (localDeleteCallback_ (callbacks_ s)) (post (LocalDeleteCallback name)).

(** When the callback completes, [UpdateSchedTopology] runs. *)
Definition OnLocalAbnormal (name : string) : C unit :=
  s ← members;
  (if localSchedAbnormalCallback_ (callbacks_ s) then post (LocalSchedAbnormalCallback name) else update_topology) ≫= λ _,
  for_each (localSchedAbnormalNotifyCallbacks_ (callbacks_ s)) (λ cb, post (LocalSchedAbnormalNotify cb name)).

Definition DelLocalSchedHandler (name : string) (exitType : LocalExitType) : C unit :=
  GetLocalAddress name ≫= λ address,
  match address with Some a => post (LocalOnLocalAbnormal name a) | None => mret tt end ≫= λ _,
  DelLocalSched name ≫= λ leader,
  match leader with
  | None =>
      s ← members;
      for_each (order (FindNodes (topologyTree s) 1)) (λ node, tell_domain node.2)
  | Some leader =>
      tell_domain leader ≫= λ _,
      match exitType with
      | ABNORMAL => OnLocalAbnormal name
      | UNREGISTER => OnLocalExit name
      end
  end.

Definition AddDomainSchedHandler (from name address : string) : C unit :=
  AddDomainSched name address ≫= λ domainSched,
  s ← members;
  let t := topologyTree s in
  match domainSched with
  | None => post (DomainRegistered from None)
  | Some node =>
      let info := nodeInfo_ (at_node t node) in
      if negb (bool_decide (ni_address info = address)) then post (DomainRegistered from None)
      else
        match GetParent t node with
        | None => post DomainDisconnect ≫= λ _, post (DomainConnect (ni_name info) (ni_address info))
        | Some leader => tell_domain leader
        end ≫= λ _,
        post (DomainRegistered from (Some (GetTopologyView order t node))) ≫= λ _,
        for_each (order (children_ (at_node t node))) (λ child,
          let childInfo := nodeInfo_ (at_node t child.2) in
          let view := GetTopologyView order t child.2 in
          if IsLeaf t child.2 then post (LocalUpdateSchedTopoView (ni_address childInfo) view)
          else post (DomainUpdateSchedTopoView (ni_name childInfo) (ni_address childInfo) view)) ≫= λ _,
        update_topology ≫= λ _,
        s ← members;
        for_each (cachedLocalSched_ s) (λ local, AddLocalSchedHandler local.1 (ni_name local.2) (ni_address local.2)) ≫= λ _,
        modify (set_cached [])
  end.

Definition DelDomainSchedHandler (started : Status) (name : string) : C unit :=
  DelDomainSched started name ≫= λ brokenDomainSched,
  match brokenDomainSched with None => mret tt | Some _ => update_topology end.

(** ** Scheduling through the root *)
Definition DoSchedule (request : string) : C (option Status) :=
  FindRootDomainSched ≫= λ rootDomain,
  s ← members;
  match rootDomain with
  | None => mret (Some (mkStatus FAILED ""))
  | Some r =>
      let info := nodeInfo_ (at_node (topologyTree s) r) in
      post (DomainSchedule (ni_name info) (ni_address info) request) ≫= λ _, mret None
  end.

Definition DoGroupSchedule (group : string) (retryCycle : Z) : C unit :=
  FindRootDomainSched ≫= λ rootDomain,
  s ← members;
  match rootDomain with
  | None => post (AsyncAfterGroupSchedule retryCycle group)
  | Some r =>
      let info := nodeInfo_ (at_node (topologyTree s) r) in
      post (DomainGroupSchedule (ni_name info) (ni_address info) group)
  end.
(** The answer of the domain scheduler, [None] when the request timed out: then
    the request is sent again, without a delay. *)
Definition OnGroupSchedule (group : string) (response : option string) : C unit :=
  match response with
  | None => post (AsyncAfterGroupSchedule 0 group)
  | Some r => post (GroupSetValue group r)
  end.

(** ** Health and leadership *)
Definition OnHealthyStatus (status : Status) : C unit :=
  s ← members;
  if negb (topoRecovered s) then mret tt
  else
    match business_ s with
    | MASTER_BUSINESS => act_when (IsOk status) update_topology
    | SLAVE_BUSINESS => mret tt
    end.

Definition QueryNodes : C (option (gset string)) :=
  s ← members;
  mret (if topoRecovered s then Some (dom (FindNodes (topologyTree s) 0)) else None).

Definition Master_OnChange (started : Status) (stored : GetAnswer) : C unit :=
  SetTopoRecovered true ≫= λ _,
  RecoverSchedTopology stored ≫= λ status,
  if from_option IsError true status then mret tt
  else
    FindRootDomainSched ≫= λ rootDomain,
    s ← members;
    match rootDomain with
    | None => mret tt
    | Some r =>
        let info := nodeInfo_ (at_node (topologyTree s) r) in
        if negb (hasActivateDomain_ s) && bool_decide (ni_address info = url_ s)
        then DelDomainSched started (ni_name info) ≫= λ _, mret tt
        else post (DomainConnect (ni_name info) (ni_address info))
    end.

Definition Slave_OnChange : C unit :=
  post DomainDisconnect ≫= λ _, SetTopoRecovered false ≫= λ _, post StopDomainSched.

Definition UpdateLeaderInfo (started : Status) (stored : GetAnswer) (address : string) : C unit :=
  modify (set_leader address) ≫= λ _,
  s ← members;
  match GetStatus (url_ s) address (curStatus_ s) with
  | None => mret tt
  | Some newStatus =>
      modify (set_business (curStatus_ s) newStatus) ≫= λ _,
      match newStatus with
      | MASTER_BUSINESS => Master_OnChange started stored
      | SLAVE_BUSINESS => Slave_OnChange
      end ≫= λ _,
      modify (set_business newStatus newStatus) ≫= λ _,
      post (DomainUpdateLeaderInfo address) ≫= λ _, post (LocalUpdateLeaderInfo address)
  end.
End ordered.
End Global.
