(* ===== verification/GlobalProps.v ===== *)
(** * The stored topology is the topology

    The master with the metadata store: requests that change the tree, puts
    that are executed in order and answered, callbacks that complete later. *)

From S2P Require Import Prelude Leader SchedTree SchedTreeProps SchedTreeOps SchedTreeCodec GlobalSched.
From stdpp Require Import base gmap strings list fin_maps fin_sets relations.
From Stdlib Require Import ZArith Lia.
Import Topo.
Import Global.

Open Scope Z_scope.
Set Default Proof Using "Type".

(** ** The messages that matter for the store *)
Definition puts_of (os : list Out) : list string := omap (λ o, match o with MetaStorePut x => Some x | _ => None end) os.
Definition done_of (os : list Out) : list nat := omap (λ o, match o with PersistedSetValue p => Some p | _ => None end) os.
Definition calls_of (os : list Out) : nat :=
  length (omap (λ o, match o with LocalSchedAbnormalCallback n => Some n | _ => None end) os).

(** What the protocol with the store reads and writes. *)
Record Pv := mkPv { pv_last : string; pv_wait : option nat; pv_pers : option nat; pv_next : nat }.
Definition pv (s : State) : Pv := mkPv (lastUpdatedTopology_ s) (waitToPersistence_ s) (persisting_ s) (nextPromise_ s).

Definition update_pv (info : string) (v : Pv) : Pv * list string * list nat :=
  match pv_pers v, pv_wait v with
  | Some _, None => (mkPv (pv_last v) (Some (pv_next v)) (pv_pers v) (S (pv_next v)), [], [])
  | _, Some _ => (v, [], [])
  | None, None =>
      if bool_decide (pv_last v = info) then (mkPv (pv_last v) None None (S (pv_next v)), [], [pv_next v])
      else (mkPv (pv_last v) None (Some (pv_next v)) (S (pv_next v)), [info], [])
  end.
Definition answer_pv (info : string) (v : Pv) : Pv * list string * list nat :=
  match pv_wait v with
  | None => (mkPv (pv_last v) None None (pv_next v), [], option_list (pv_pers v))
  | Some w =>
      if bool_decide (pv_last v = info) then (mkPv (pv_last v) None None (pv_next v), [], option_list (pv_pers v) ++ [w])
      else (mkPv (pv_last v) None (Some w) (pv_next v), [info], option_list (pv_pers v))
  end.

Section persist.
Context (order : gmap string nat → list (string * nat)) {PC : Codec SchedulerNode}.

(** What a handler does to the tree and to the protocol. *)
Definition acts {A} (m : C A) (s : State) (t : Tree) (r : Pv * list string * list nat) (calls : nat) : Prop :=
  topologyTree (exec m s) = t ∧ pv (exec m s) = r.1.1 ∧ puts_of (outs m s) = r.1.2 ∧
  done_of (outs m s) = r.2 ∧ calls_of (outs m s) = calls.
Definition quiet {A} (m : C A) (s : State) : Prop := acts m s (topologyTree s) (pv s, [], []) 0.

Lemma puts_of_app o1 o2 : puts_of (o1 ++ o2) = puts_of o1 ++ puts_of o2.
Proof. apply omap_app. Qed.
Lemma done_of_app o1 o2 : done_of (o1 ++ o2) = done_of o1 ++ done_of o2.
Proof. apply omap_app. Qed.
Lemma calls_of_app o1 o2 : calls_of (o1 ++ o2) = (calls_of o1 + calls_of o2)%nat.
Proof. unfold calls_of. by rewrite omap_app, length_app. Qed.

(** A silent first part, then the rest. *)
Lemma acts_after {A B} (m : C A) (f : A → C B) s t t' r c :
  acts m s t (pv s, [], []) 0 → acts (f (val m s)) (exec m s) t' r c → acts (m ≫= f) s t' r c.
Proof.
  intros (E1 & E2 & E3 & E4 & E5) (F1 & F2 & F3 & F4 & F5). unfold acts.
  rewrite exec_bind, outs_bind, puts_of_app, done_of_app, calls_of_app, E3, E4, E5. done.
Qed.
(** A silent second part. *)
Lemma acts_before {A B} (m : C A) (f : A → C B) s t r c :
  acts m s t r c → quiet (f (val m s)) (exec m s) → acts (m ≫= f) s t r c.
Proof.
  intros (E1 & E2 & E3 & E4 & E5) (F1 & F2 & F3 & F4 & F5). unfold acts.
  rewrite exec_bind, outs_bind, puts_of_app, done_of_app, calls_of_app, F3, F4, F5, F1, F2. cbn.
  by rewrite !app_nil_r, Nat.add_0_r.
Qed.

Lemma quiet_ret {A} (a : A) s : quiet (mret a) s.
Proof. done. Qed.
Lemma quiet_members s : quiet members s.
Proof. done. Qed.
Lemma quiet_modify f s : topologyTree (f s) = topologyTree s → pv (f s) = pv s → quiet (modify f) s.
Proof. done. Qed.
Lemma quiet_post o s : puts_of [o] = [] → done_of [o] = [] → calls_of [o] = 0%nat → quiet (post o) s.
Proof. done. Qed.
Lemma quiet_bind {A B} (m : C A) (f : A → C B) s : quiet m s → quiet (f (val m s)) (exec m s) → quiet (m ≫= f) s.
Proof.
  intros Q1 Q2. pose proof Q1 as (E1 & E2 & _). unfold quiet in *. rewrite E1, E2 in Q2. cbn in Q2. by eapply acts_after.
Qed.
Lemma quiet_when b m s : quiet m s → quiet (act_when b m) s.
Proof. by destruct b. Qed.
Lemma quiet_for_each {A} (l : list A) body s : (∀ a s, quiet (body a) s) → quiet (for_each l body) s.
Proof. intros Hb. revert s. induction l as [|a l IH]; intros s; [done|]. apply quiet_bind; [apply Hb|apply IH]. Qed.
End persist.

Ltac quiet :=
  repeat first
    [ apply quiet_ret | apply quiet_members | apply quiet_post; reflexivity | apply quiet_modify; reflexivity
    | apply quiet_when | apply quiet_for_each; intros | apply quiet_bind
    | match goal with |- quiet (match ?x with _ => _ end) _ => destruct x end ].

Section persist.
Context (order : gmap string nat → list (string * nat)) {PC : Codec SchedulerNode}.

Lemma update_acts s :
  acts (update_topology order) s (topologyTree s) (update_pv (SerializeAsString order (topologyTree s)) (pv s)) 0.
Proof.
  unfold acts, update_topology, UpdateSchedTopology, update_pv, PutTopology.
  destruct s as [t last c a w h cb cur bus wt pe nx re ca le url].
  act_simpl. cbn. destruct pe as [p|], wt as [w'|]; try (act_simpl; cbn; done).
  act_simpl. cbn. case_bool_decide; act_simpl; cbn; [|done]. unfold OnTopologyPut_with. act_simpl. done.
Qed.

Lemma answer_acts s :
  acts (OnTopologyPut order false) s (topologyTree s) (answer_pv (SerializeAsString order (topologyTree s)) (pv s)) 0.
Proof.
  unfold acts, OnTopologyPut, OnTopologyPut_with, answer_pv, PutTopology.
  destruct s as [t last c a w h cb cur bus wt pe nx re ca le url].
  act_simpl. cbn. destruct pe as [p|], wt as [w'|]; act_simpl; cbn; try done;
    case_bool_decide; act_simpl; cbn; try done; unfold OnTopologyPut_with; act_simpl; done.
Qed.

(** Two rounds of [PutTopology] are enough. *)
Lemma put_topology_enough n s : put_topology order (S (S n)) s = PutTopology order s.
Proof.
  unfold PutTopology. cbn [put_topology].
  destruct s as [t last c a w h cb cur bus wt pe nx re ca le url].
  act_unfold. cbn. case_bool_decide; [|done]. unfold OnTopologyPut_with. act_unfold. cbn.
  destruct pe, wt; cbn; try done; case_bool_decide; done.
Qed.

(** ** What the handlers do *)
Inductive effect (s : State) (m : C unit) : Prop :=
  | eff_none : quiet m s → effect s m
  | eff_update t : rtc topo_step (topologyTree s) t →
      acts m s t (update_pv (SerializeAsString order t) (pv s)) 0 → effect s m
  | eff_defer t : rtc topo_step (topologyTree s) t → acts m s t (pv s, [], []) 1 → effect s m.

Lemma on_tree_acts {A} (f : Tree → A * Tree) s : acts (on_tree f) s (f (topologyTree s)).2 (pv s, [], []) 0.
Proof. done. Qed.
Lemma on_tree_val {A} (f : Tree → A * Tree) s : val (on_tree f) s = (f (topologyTree s)).1.
Proof. done. Qed.
Lemma on_tree_exec {A} (f : Tree → A * Tree) s : exec (on_tree f) s = set_tree (f (topologyTree s)).2 s.
Proof. done. Qed.

Lemma acts_quiet {A B} (m : C A) (f : A → C B) s t r c :
  quiet m s → acts (f (val m s)) (exec m s) t r c → acts (m ≫= f) s t r c.
Proof. apply acts_after. Qed.
Lemma acts_quiet_any {A B} (m : C A) (f : A → C B) s t r c :
  quiet m s → (∀ a s', topologyTree s' = topologyTree s → pv s' = pv s → acts (f a) s' t r c) → acts (m ≫= f) s t r c.
Proof. intros Q Hf. apply acts_quiet; [done|]. apply Hf; apply Q. Qed.
Lemma update_after s t v :
  topologyTree s = t → pv s = v → acts (update_topology order) s t (update_pv (SerializeAsString order t) v) 0.
Proof. intros <- <-. apply update_acts. Qed.

Lemma tell_domain_quiet r s : quiet (tell_domain order r) s.
Proof. unfold tell_domain. quiet. Qed.
Lemma CacheLocalSched_quiet started from name address s : quiet (CacheLocalSched started from name address) s.
Proof. unfold CacheLocalSched. quiet. Qed.
Lemma AddLocalSchedHandler_quiet from name address s : quiet (AddLocalSchedHandler from name address) s.
Proof. unfold AddLocalSchedHandler. quiet. Qed.

(** A leaf has a parent. *)
Lemma leaf_parent t k r : well_formed t → held t 0 k r → is_Some (GetParent t r).
Proof.
  intros W Hr. pose proof (wf_linked _ (wf_shaped _ W)) as H. destruct (li_node _ H _ _ _ Hr) as (n & E & _).
  destruct (GetParent_spec _ _ _ _ _ H Hr E) as [-> Hp]. apply Hp.
  destruct (wf_height _ (wf_shaped _ W)) as [El|]; [|done]. apply held_length in Hr. rewrite El in Hr. cbn in Hr. lia.
Qed.

Lemma AddLocalSched_effect started abn from name address s :
  lawful order → well_formed (topologyTree s) → effect s (AddLocalSched order started abn from name address).
Proof.
  intros Ho W. unfold AddLocalSched. destruct (default true abn); [apply eff_none, quiet_ret|].
  set (info := mkInfo name address). destruct (AddLeafNode_spec order info (topologyTree s) Ho W) as [W' Hl].
  assert (Hcases : (AddLeafNode order info (topologyTree s) = (None, topologyTree s)) ∨
    ∃ r, (AddLeafNode order info (topologyTree s)).1 = Some r ∧
         is_Some (GetParent (AddLeafNode order info (topologyTree s)).2 r)).
  { remember (AddLeafNode order info (topologyTree s)) as x eqn:Ex. destruct x as [o t']. cbn [fst snd] in *.
    inversion Hl as [|r Hr| |k d n t1 H1 H2 H3 H4 H5 H6]; subst; [by left|right|by left|right].
    - exists r. split; [done|]. by apply (leaf_parent _ (ni_name info)).
    - eexists. split; [done|]. by apply (leaf_parent _ (ni_name info)). }
  destruct Hcases as [E|(r & E & [p Ep])].
  - apply eff_none. apply quiet_bind; [|rewrite on_tree_val, on_tree_exec, E; cbn].
    + unfold quiet, acts. rewrite on_tree_exec, E. by destruct s.
    + quiet; try apply CacheLocalSched_quiet.
  - apply (eff_update _ _ (AddLeafNode order info (topologyTree s)).2); [by apply rtc_once, step_add_leaf|].
    eapply acts_after; [apply on_tree_acts|]. rewrite on_tree_val, on_tree_exec, E.
    apply acts_quiet; [apply quiet_members|]. cbn [val members]. rewrite val_members, exec_members. cbn [topologyTree set_tree mbind option_bind].
    rewrite Ep. apply acts_quiet; [apply tell_domain_quiet|]. apply acts_quiet; [quiet|].
    apply acts_before; [|quiet]. by apply update_after.
Qed.

Lemma OnLocalAbnormal_acts name s :
  acts (OnLocalAbnormal order name) s (topologyTree s) (update_pv (SerializeAsString order (topologyTree s)) (pv s)) 0 ∨
  acts (OnLocalAbnormal order name) s (topologyTree s) (pv s, [], []) 1.
Proof.
  unfold OnLocalAbnormal. destruct (localSchedAbnormalCallback_ (callbacks_ s)) eqn:E; [right|left];
    (apply acts_quiet; [apply quiet_members|]; rewrite val_members, exec_members, E; apply acts_before; [|quiet]).
  - done.
  - by apply update_after.
Qed.

Lemma exit_acts (exit : LocalExitType) name s :
  let m := match exit with ABNORMAL => OnLocalAbnormal order name | UNREGISTER => OnLocalExit order name end in
  acts m s (topologyTree s) (update_pv (SerializeAsString order (topologyTree s)) (pv s)) 0 ∨
  acts m s (topologyTree s) (pv s, [], []) 1.
Proof.
  destruct exit; [apply OnLocalAbnormal_acts|left]. unfold OnLocalExit. apply acts_before; [by apply update_after|quiet].
Qed.

Lemma effect_after {A} (m : C A) (f : A → C unit) s :
  quiet m s → effect (exec m s) (f (val m s)) → effect s (m ≫= f).
Proof.
  intros Q Hf. pose proof Q as (E1 & E2 & _). cbn in E2.
  destruct Hf as [Ha|t Ht Ha|t Ht Ha]; rewrite ?E1, ?E2 in *.
  - apply eff_none. by apply quiet_bind.
  - apply (eff_update _ _ t); [done|]. by apply acts_quiet.
  - apply (eff_defer _ _ t); [done|]. by apply acts_quiet.
Qed.

Lemma DelLocal_effect name exit s :
  well_formed (topologyTree s) → effect s (DelLocalSchedHandler order name exit).
Proof.
  intros W. unfold DelLocalSchedHandler. apply effect_after; [unfold GetLocalAddress; quiet|].
  assert (Eg : exec (GetLocalAddress name) s = s) by done. rewrite Eg. clear Eg.
  apply effect_after; [destruct (val _ _); quiet|].
  assert (Eg : exec (match val (GetLocalAddress name) s with Some a => post (LocalOnLocalAbnormal name a) | None => mret tt end) s = s)
    by (by destruct (val _ _)). rewrite Eg. clear Eg.
  unfold DelLocalSched. destruct (RemoveLeafNode_spec name (topologyTree s) W) as [W' Hr].
  remember (RemoveLeafNode name (topologyTree s)) as x eqn:Ex. destruct x as [[leader|] t']; cbn [fst snd] in *.
  - assert (Hs : rtc topo_step (topologyTree s) t').
    { apply rtc_once. rewrite (f_equal snd Ex : t' = _). apply step_remove_leaf. }
    destruct (exit_acts exit name (set_tree t' s)) as [Ha|Ha]; [eapply eff_update|eapply eff_defer]; try exact Hs;
      (eapply acts_after; [apply on_tree_acts|]; rewrite on_tree_val, on_tree_exec, <- Ex; cbn [fst snd];
       apply acts_quiet; [apply tell_domain_quiet|exact Ha]).
  - inversion Hr; subst. apply eff_none. apply quiet_bind.
    + unfold quiet, acts. rewrite on_tree_exec, <- Ex. by destruct s.
    + rewrite on_tree_val, on_tree_exec, <- Ex. cbn [fst snd]. quiet.
Qed.

Lemma view_info t r l i st p : view t !! r = Some (l, i, st, p) → nodeInfo_ (at_node t r) = i.
Proof.
  unfold view. rewrite lookup_fmap. destruct (heap_ t !! r) as [n|] eqn:E; [|done]. cbn. intros [= _ <- _ _].
  by rewrite (at_node_eq _ _ _ E).
Qed.

(** A registered domain node has the information it registered with, unless
    it was in the tree before. *)
Lemma domain_added_info t info o t' :
  domain_added t info o t' → ∃ r, o = Some r ∧ (t' = t ∨ nodeInfo_ (at_node t' r) = info).
Proof.
  intros [l r Hr|t1 _ V _|l k p n t1 _ _ _ _ V _|l k p n t1 _ _ _ _ _ V _]; eexists; (split; [done|]); [by left|right..];
    eapply view_info; rewrite V; first [apply lookup_singleton_eq|apply lookup_insert_eq].
Qed.
Lemma replaced_info t name info o t' :
  replaced t name info o t' → (o = None ∧ t' = t) ∨ ∃ r, o = Some r ∧ nodeInfo_ (at_node t' r) = info.
Proof.
  intros [?|l r n t1 _ _ _ V _]; [by left|right]. exists r. split; [done|]. eapply view_info. rewrite V. apply lookup_insert_eq.
Qed.

Definition domain_allowed (t : Tree) (name : string) : Prop :=
  Z.of_nat (length (levelNodes_ t)) < 2 ^ 16 ∧ (FindNonLeafNode t name = None → unused t name).

Lemma AddDomainSched_spec name address s :
  well_formed (topologyTree s) → domain_allowed (topologyTree s) name →
  let m := AddDomainSched name address in
  let t := topologyTree (exec m s) in
  acts m s t (pv s, [], []) 0 ∧ rtc topo_step (topologyTree s) t ∧
  ∃ r, val m s = Some r ∧ (t = topologyTree s ∨ nodeInfo_ (at_node t r) = mkInfo name address).
Proof.
  intros W [Hlen Hu]. cbn zeta. set (info := mkInfo name address).
  destruct (AddNonLeafNode_spec info (topologyTree s) W Hlen Hu) as [_ Hd].
  assert (Hs : rtc topo_step (topologyTree s) (AddNonLeafNode info (topologyTree s)).2) by by apply rtc_once, step_add_domain.
  apply domain_added_info in Hd as (r & Er & Hi). unfold AddDomainSched. fold info.
  destruct (abnormalDomainSched_ s) as [|abnormal rest] eqn:Ea.
  - unfold acts. act_simpl. rewrite Ea. act_simpl. rewrite on_tree_val, on_tree_exec. cbn -[AddNonLeafNode]. rewrite Er. split_and!; [done..|].
    by exists r.
  - destruct (ReplaceNonLeafNode_spec abnormal info (topologyTree s) W) as [_ Hr].
    apply replaced_info in Hr as [[En Et]|(r' & Er' & Hi')]; unfold acts; act_simpl; rewrite Ea; act_simpl;
      rewrite !on_tree_val, !on_tree_exec.
    + rewrite En, !on_tree_val, !on_tree_exec. cbn -[AddNonLeafNode ReplaceNonLeafNode]. rewrite Et, Er.
      split_and!; [done..|]. by exists r.
    + rewrite Er'. cbn -[ReplaceNonLeafNode]. split_and!; [done..|by apply rtc_once, step_replace|]. exists r'. split; [done|]. by right.
Qed.

Lemma AddDomain_effect from name address s :
  well_formed (topologyTree s) → domain_allowed (topologyTree s) name →
  effect s (AddDomainSchedHandler order from name address).
Proof.
  intros W Ha. destruct (AddDomainSched_spec name address s W Ha) as (Hacts & Hs & r & Er & Hi).
  unfold AddDomainSchedHandler. set (s1 := exec (AddDomainSched name address) s) in *.
  assert (Ep : pv s1 = pv s) by apply Hacts.
  destruct (decide (ni_address (nodeInfo_ (at_node (topologyTree s1) r)) = address)) as [Ead|Ead].
  - apply (eff_update _ _ (topologyTree s1)); [done|]. eapply acts_after; [exact Hacts|]. fold s1. rewrite Er.
    apply acts_quiet; [apply quiet_members|]. rewrite val_members, exec_members. rewrite bool_decide_true by done. cbn [negb].
    apply acts_quiet_any; [destruct (GetParent _ _); quiet|]. intros _ s2 T2 P2.
    apply acts_quiet_any; [quiet|]. intros _ s3 T3 P3.
    apply acts_quiet_any; [apply quiet_for_each; intros; destruct (IsLeaf _ _); quiet|]. intros _ s4 T4 P4.
    apply acts_before; [apply update_after; congruence|]. quiet.
  - destruct Hi as [Et|Ei]; [|by rewrite Ei in Ead]. apply eff_none. rewrite Et in Hacts. apply quiet_bind; [exact Hacts|].
    fold s1. rewrite Er. apply quiet_bind; [quiet|]. rewrite val_members, exec_members, bool_decide_false by done. quiet.
Qed.

Lemma DelDomain_effect started name s : effect s (DelDomainSchedHandler order started name).
Proof.
  unfold DelDomainSchedHandler, DelDomainSched.
  destruct (FindNonLeafNode (topologyTree s) name) as [r|] eqn:Ef.
  - apply (eff_update _ _ (SetState r BROKEN (topologyTree s))); [apply rtc_once, step_state|].
    set (m := (_ : C (option TreeNode))). assert (Hm : acts m s (SetState r BROKEN (topologyTree s)) (pv s, [], []) 0 ∧ val m s = Some r).
    { unfold m, acts. act_simpl. rewrite Ef. act_simpl. rewrite on_tree_exec. destruct (negb _); done. }
    destruct Hm as [Hm Ev]. eapply acts_after; [exact Hm|]. rewrite Ev. apply update_after; apply Hm.
  - apply eff_none. apply quiet_bind; [unfold quiet, acts; act_simpl; by rewrite Ef|]. act_simpl. rewrite Ef. done.
Qed.

Lemma Healthy_effect status s : effect s (OnHealthyStatus order status).
Proof.
  unfold OnHealthyStatus. destruct (negb (topoRecovered s)) eqn:E1.
  { apply eff_none. apply quiet_bind; [quiet|]. rewrite val_members, exec_members, E1. quiet. }
  destruct (business_ s) eqn:E2; [destruct (IsOk status) eqn:E3|].
  - apply (eff_update _ _ (topologyTree s)); [done|]. apply acts_quiet; [quiet|].
    rewrite val_members, exec_members, E1, E2. cbn. by apply update_after.
  - apply eff_none. apply quiet_bind; [quiet|]. rewrite val_members, exec_members, E1, E2. quiet.
  - apply eff_none. apply quiet_bind; [quiet|]. rewrite val_members, exec_members, E1, E2. quiet.
Qed.
End persist.

(** ** The master and the store *)
Inductive Request :=
  | AskAddLocal (from name address : string)
  | AddLocal (started : Status) (isLocalAbnormal : option bool) (from name address : string)
  | DelLocal (name : string) (exitType : LocalExitType)
  | AddDomain (from name address : string)
  | DelDomain (started : Status) (name : string)
  | Healthy (status : Status)
  | TopologyEvent (events : list (option string)).

Inductive Mail := MailLastUpdated (topologyInfo : string) | MailTopologyPut (failed : bool).

(** The actor, the stored topology, the puts on their way, the messages on
    their way back, the callbacks that have not completed and the promises
    that are set. *)
Record Sys := mkSys {
  actor : State;
  stored : string;
  puts : list string;
  mail : list Mail;
  calls : nat;
  done : list nat;
}.

Section system.
Context {PC : Codec SchedulerNode}.

Definition handle (order : gmap string nat → list (string * nat)) (q : Request) : C unit :=
  match q with
  | AskAddLocal from name address => AddLocalSchedHandler from name address
  | AddLocal started abn from name address => AddLocalSched order started abn from name address
  | DelLocal name exit => DelLocalSchedHandler order name exit
  | AddDomain from name address => AddDomainSchedHandler order from name address
  | DelDomain started name => DelDomainSchedHandler order started name
  | Healthy status => OnHealthyStatus order status
  | TopologyEvent events => OnTopologyEvent events
  end.
Definition allowed (t : Tree) (q : Request) : Prop :=
  match q with AddDomain _ name _ => domain_allowed t name | _ => True end.
Definition handle_mail (order : gmap string nat → list (string * nat)) (m : Mail) : C unit :=
  match m with
  | MailLastUpdated x => UpdateLastUpdatedTopology x
  | MailTopologyPut failed => OnTopologyPut order failed
  end.

Definition deliver (m : C unit) (y : Sys) : Sys :=
  let os := outs m (actor y) in
  mkSys (exec m (actor y)) (stored y) (puts y ++ puts_of os) (mail y) (calls y + calls_of os) (done y ++ done_of os).

(** Every put is executed and answered in order. *)
Inductive internal (y : Sys) : Sys → Prop :=
  | int_store x rest : puts y = x :: rest →
      internal y (mkSys (actor y) x rest (mail y ++ [MailLastUpdated x; MailTopologyPut false]) (calls y) (done y))
  | int_mail order m rest : lawful order → mail y = m :: rest →
      internal y (deliver (handle_mail order m) (mkSys (actor y) (stored y) (puts y) rest (calls y) (done y)))
  | int_call order n : lawful order → calls y = S n →
      internal y (deliver (update_topology order) (mkSys (actor y) (stored y) (puts y) (mail y) n (done y))).
Inductive sys_step (y : Sys) : Sys → Prop :=
  | sys_request order q : lawful order → allowed (topologyTree (actor y)) q → sys_step y (deliver (handle order q) y)
  | sys_internal y' : internal y y' → sys_step y y'.

(** A new master of a new cluster. *)
Definition start (maxLocal maxDomain : nat) (cb : Callbacks) (url : string) : Sys :=
  mkSys (set_recovered true (set_business MASTER_BUSINESS MASTER_BUSINESS (init maxLocal maxDomain cb url))) "" [] [] 0 [].

Definition at_rest (y : Sys) : Prop := puts y = [] ∧ mail y = [] ∧ calls y = 0%nat.

(** ** The invariant *)

(** [x] describes the tree; nothing describes the empty one. *)
Definition describes (x : string) (t : Tree) : Prop :=
  match levelNodes_ t with
  | [] => x = ""
  | _ => ∃ root, parse x = Some root ∧ entries None root ≡ₚ listing t ∧ leveled (length (levelNodes_ t) - 1) root
  end.

Lemma serialize_describes order t :
  CodecOk SchedulerNode → lawful order → well_formed t → describes (SerializeAsString order t) t.
Proof.
  intros Hok Ho W. unfold describes, SerializeAsString. destruct (wf_height _ (wf_shaped _ W)) as [E|Hl].
  - rewrite E. unfold root_proto, GetRootNode. by rewrite E.
  - destruct (root_entries order t Ho (wf_linked _ (wf_shaped _ W)) Hl) as (root & Er & Hp & Hlv). rewrite Er.
    destruct (levelNodes_ t) eqn:E; [cbn in Hl; lia|]. exists root. rewrite parse_ser. done.
Qed.

(** What is on its way: nothing, or one topology [x], put, stored or
    answered. *)
Inductive phase (y : Sys) : string → Prop :=
  | ph_idle : persisting_ (actor y) = None → waitToPersistence_ (actor y) = None →
      puts y = [] → mail y = [] → lastUpdatedTopology_ (actor y) = stored y → phase y (stored y)
  | ph_put x p : persisting_ (actor y) = Some p → puts y = [x] → mail y = [] →
      lastUpdatedTopology_ (actor y) = stored y → phase y x
  | ph_stored p : persisting_ (actor y) = Some p → puts y = [] →
      mail y = [MailLastUpdated (stored y); MailTopologyPut false] → phase y (stored y)
  | ph_answered p : persisting_ (actor y) = Some p → puts y = [] → mail y = [MailTopologyPut false] →
      lastUpdatedTopology_ (actor y) = stored y → phase y (stored y).

(** Promises are set in the order they are made. *)
Definition in_order (v : Pv) (dn : list nat) : Prop :=
  dn ++ option_list (pv_pers v) ++ option_list (pv_wait v) = seq 0 (pv_next v).

Record persistent (y : Sys) : Prop := {
  pe_wf : well_formed (topologyTree (actor y));
  pe_phase : ∃ x, phase y x ∧
    (calls y = 0%nat → waitToPersistence_ (actor y) = None → describes x (topologyTree (actor y)));
  pe_done : in_order (pv (actor y)) (done y);
}.

Lemma deliver_acts m y t r c :
  acts m (actor y) t r c →
  topologyTree (actor (deliver m y)) = t ∧ pv (actor (deliver m y)) = r.1.1 ∧ stored (deliver m y) = stored y ∧
  puts (deliver m y) = puts y ++ r.1.2 ∧ mail (deliver m y) = mail y ∧ calls (deliver m y) = (calls y + c)%nat ∧
  done (deliver m y) = done y ++ r.2.
Proof. intros (E1 & E2 & E3 & E4 & E5). cbn. by rewrite E3, E4, E5. Qed.

(** The fields of the actor from the view of the protocol. *)
Lemma pv_fields s v : pv s = v →
  lastUpdatedTopology_ s = pv_last v ∧ waitToPersistence_ s = pv_wait v ∧ persisting_ s = pv_pers v ∧ nextPromise_ s = pv_next v.
Proof. by intros <-. Qed.

Lemma update_pv_done info v dn :
  in_order v dn → in_order (update_pv info v).1.1 (dn ++ (update_pv info v).2).
Proof.
  destruct v as [last wt pe nx]. unfold in_order, update_pv. cbn [pv_pers pv_wait pv_last pv_next].
  destruct pe as [p|], wt as [w|]; try case_bool_decide; cbn [fst snd pv_pers pv_wait pv_last pv_next option_list];
    rewrite ?app_nil_r; intros Hd; rewrite ?seq_S, <- ?Hd; cbn; by rewrite <- ?app_assoc.
Qed.
Lemma answer_pv_done info v dn :
  in_order v dn → in_order (answer_pv info v).1.1 (dn ++ (answer_pv info v).2).
Proof.
  destruct v as [last wt pe nx]. unfold in_order, answer_pv. cbn [pv_pers pv_wait pv_last pv_next].
  destruct pe as [p|], wt as [w|]; try case_bool_decide; cbn [fst snd pv_pers pv_wait pv_last pv_next option_list];
    rewrite ?app_nil_r; intros Hd; rewrite ?seq_S, <- ?Hd; cbn; by rewrite <- ?app_assoc, ?app_nil_r.
Qed.

(** An update, asked for in any phase, leaves the newest tree stored, on its
    way or waited for. *)
Lemma update_persistent order m y t x :
  CodecOk SchedulerNode → lawful order → well_formed t → phase y x →
  in_order (pv (actor y)) (done y) →
  acts m (actor y) t (update_pv (SerializeAsString order t) (pv (actor y))) 0 → persistent (deliver m y).
Proof.
  intros Hok Ho W Hph Hd Ha. apply deliver_acts in Ha as (Et & Ev & Es & Ep & Em & Ec & Ed).
  pose proof (serialize_describes order t Hok Ho W) as Hdesc.
  set (y' := deliver m y) in *. clearbody y'. unfold update_pv in *. cbn [pv pv_pers pv_wait pv_last pv_next] in *.
  split; [by rewrite Et|..]; rewrite ?Et.
  - destruct Hph as [E1 E2 E3 E4 E5|x p E1 E3 E4 E5|p E1 E3 E4|p E1 E3 E4 E5]; rewrite ?E1, ?E2, ?E3, ?E4 in *.
    + case_bool_decide as Eq; apply pv_fields in Ev as (F1 & F2 & F3 & F4); cbn in *.
      * exists (stored y'). split; [apply ph_idle; congruence|]. intros _ _. rewrite Es, <- E5, Eq. done.
      * exists (SerializeAsString order t). split; [eapply ph_put; [exact F3|done|congruence|congruence]|done].
    + destruct (waitToPersistence_ (actor y)) eqn:Ew; apply pv_fields in Ev as (F1 & F2 & F3 & F4); cbn in *;
        (exists x; split; [eapply ph_put; [rewrite F3; eauto|rewrite Ep; by rewrite ?app_nil_r|congruence|congruence]|by rewrite F2, ?Ew]).
    + destruct (waitToPersistence_ (actor y)) eqn:Ew; apply pv_fields in Ev as (F1 & F2 & F3 & F4); cbn in *;
        (exists (stored y'); split; [eapply ph_stored; [rewrite F3; eauto|by rewrite Ep|congruence]|by rewrite F2, ?Ew]).
    + destruct (waitToPersistence_ (actor y)) eqn:Ew; apply pv_fields in Ev as (F1 & F2 & F3 & F4); cbn in *;
        (exists (stored y'); split; [eapply ph_answered; [rewrite F3; eauto|by rewrite Ep|congruence|congruence]|by rewrite F2, ?Ew]).
  - pose proof (update_pv_done (SerializeAsString order t) (pv (actor y)) (done y) Hd) as Hd'.
    apply pv_fields in Ev as (F1 & F2 & F3 & F4). rewrite Ed. unfold in_order, pv. cbn [pv_pers pv_wait pv_next].
    rewrite F2, F3, F4. exact Hd'.
Qed.

(** A handler that is silent for the store, and does not change the tree or
    leaves a callback behind. *)
Lemma silent_persistent m y t c :
  persistent y → well_formed t → acts m (actor y) t (pv (actor y), [], []) c → (c = 0%nat → t = topologyTree (actor y)) →
  persistent (deliver m y).
Proof.
  intros [W (x & Hph & Hdesc) Hd] W' Ha Ht. apply deliver_acts in Ha as (Et & Ev & Es & Ep & Em & Ec & Ed).
  cbn [fst snd] in *. rewrite app_nil_r in Ep, Ed. set (y' := deliver m y) in *. clearbody y'.
  split; [by rewrite Et| |by rewrite Ev, Ed]. exists x. apply pv_fields in Ev as (F1 & F2 & F3 & F4). cbn in *. split.
  - destruct Hph as [E1 E2 E3 E4 E5|x p E1 E3 E4 E5|p E1 E3 E4|p E1 E3 E4 E5]; rewrite <- ?Es;
      [apply ph_idle|apply (ph_put _ x p)|apply (ph_stored _ p)|apply (ph_answered _ p)]; congruence.
  - rewrite Et, F2, Ec. intros E0 Ew. rewrite Ht by lia. apply Hdesc; [lia|done].
Qed.

Lemma effect_persistent order m y :
  CodecOk SchedulerNode → lawful order → persistent y → effect order (actor y) m → persistent (deliver m y).
Proof.
  intros Hok Ho P [Ha|t Ht Ha|t Ht Ha]; pose proof P as [W (x & Hph & _) Hd].
  - by eapply silent_persistent.
  - eapply update_persistent; [done..| |done|done|done]. by eapply topo_run_wf.
  - eapply silent_persistent; [done| |done|done]. by eapply topo_run_wf.
Qed.

Lemma request_effect order q s :
  lawful order → well_formed (topologyTree s) → allowed (topologyTree s) q → effect order s (handle order q).
Proof.
  intros Ho W Ha. destruct q; cbn [handle allowed] in *.
  - apply eff_none, AddLocalSchedHandler_quiet.
  - by apply AddLocalSched_effect.
  - by apply DelLocal_effect.
  - by apply AddDomain_effect.
  - apply DelDomain_effect.
  - apply Healthy_effect.
  - apply eff_none. unfold OnTopologyEvent. quiet.
Qed.

Lemma answer_persistent order y :
  CodecOk SchedulerNode → lawful order → persistent y → mail y = [MailTopologyPut false] →
  persistent (deliver (OnTopologyPut order false) (mkSys (actor y) (stored y) (puts y) [] (calls y) (done y))).
Proof.
  intros Hok Ho [W (x & Hph & Hdesc) Hd] Hm. set (y0 := mkSys _ _ _ _ _ _).
  pose proof (deliver_acts _ y0 _ _ _ (answer_acts order (actor y0))) as (Et & Ev & Es & Ep & Em & Ec & Ed).
  pose proof (serialize_describes order _ Hok Ho W) as Hs.
  set (y' := deliver _ y0) in *. clearbody y'. cbn [y0 actor stored puts mail calls done] in *. subst y0.
  destruct Hph as [E1 E2 E3 E4 E5|x p E1 E3 E4 E5|p E1 E3 E4|p E1 E3 E4 E5]; try congruence.
  split; [by rewrite Et|..].
  - rewrite Et. unfold answer_pv in *. cbn [pv pv_wait pv_last pv_pers pv_next] in *.
    destruct (waitToPersistence_ (actor y)) as [w|] eqn:Ew; [case_bool_decide as Eq|];
      apply pv_fields in Ev as (F1 & F2 & F3 & F4); cbn in *; rewrite E3 in *; cbn in *.
    + exists (stored y'). split; [apply ph_idle; congruence|]. intros _ _. by rewrite Es, <- E5, Eq.
    + eexists. split; [eapply ph_put; [exact F3|exact Ep|done|congruence]|done].
    + exists (stored y'). split; [apply ph_idle; congruence|]. intros E0 _. rewrite Es. apply Hdesc; [lia|done].
  - rewrite Ev, Ed. by apply answer_pv_done.
Qed.

Lemma internal_persistent y y' : CodecOk SchedulerNode → persistent y → internal y y' → persistent y'.
Proof.
  intros Hok P Hi. pose proof P as [W (x & Hph & Hdesc) Hd].
  destruct Hi as [x' rest Ep|order m rest Ho Em|order n Ho Ec].
  - destruct Hph as [E1 E2 E3 E4 E5|x p E1 E3 E4 E5|p E1 E3 E4|p E1 E3 E4 E5]; try congruence.
    rewrite E3 in Ep. injection Ep as <- <-. split; [done| |done]. exists x. split; [|done].
    eapply (ph_stored (mkSys _ _ _ _ _ _)); cbn; [exact E1|done|by rewrite E4].
  - destruct Hph as [E1 E2 E3 E4 E5|x p E1 E3 E4 E5|p E1 E3 E4|p E1 E3 E4 E5]; try congruence; rewrite E4 in Em; injection Em as <- <-.
    + split; [done| |cbn; by rewrite app_nil_r]. exists (stored y). split; [|cbn; rewrite Nat.add_0_r; done].
      set (y0 := mkSys _ _ _ [MailTopologyPut false] _ _).
      apply (ph_answered (deliver (handle_mail order (MailLastUpdated (stored y))) y0) p); cbn; [exact E1|by rewrite E3|done|done].
    + by apply answer_persistent.
  - set (y0 := mkSys _ _ _ _ n _). apply (update_persistent order _ y0 _ x Hok Ho W); [|done|apply update_acts].
    destruct Hph as [E1 E2 E3 E4 E5|x p E1 E3 E4 E5|p E1 E3 E4|p E1 E3 E4 E5];
      [by apply (ph_idle y0)|by apply (ph_put y0 x p)|by apply (ph_stored y0 p)|by apply (ph_answered y0 p)].
Qed.

Lemma sys_persistent y y' : CodecOk SchedulerNode → rtc sys_step y y' → persistent y → persistent y'.
Proof.
  intros Hok. induction 1 as [|y y1 y2 Hs _ IH]; [done|]. intros P. apply IH. destruct Hs as [order q Ho Ha|y1 Hi].
  - apply (effect_persistent order); [done..|]. apply request_effect; [done|apply P|done].
  - by eapply internal_persistent.
Qed.

Lemma start_persistent maxLocal maxDomain cb url : persistent (start maxLocal maxDomain cb url).
Proof.
  split; [apply make_wf| |done]. exists "". split; [|done]. by apply (ph_idle (start maxLocal maxDomain cb url)).
Qed.

(** ** Taking over *)
Lemma listing_SetState r st t : listing (SetState r st t) = listing t.
Proof.
  assert (Ha : ∀ x, level_ (at_node (SetState r st t) x) = level_ (at_node t x) ∧
    nodeInfo_ (at_node (SetState r st t) x) = nodeInfo_ (at_node t x) ∧
    parent_ (at_node (SetState r st t) x) = parent_ (at_node t x)).
  { intros x. unfold at_node. cbn. destruct (decide (x = r)) as [->|Hne].
    - rewrite lookup_alter_eq. by destruct (heap_ t !! r).
    - by rewrite lookup_alter_ne. }
  unfold listing. change (refs (SetState r st t)) with (refs t). apply list_fmap_ext. intros i x _.
  unfold entry, name_of. destruct (Ha x) as (-> & -> & ->). destruct (parent_ (at_node t x)) as [q|]; [|done].
  cbn [fmap option_fmap option_map]. by destruct (Ha q) as (_ & -> & _).
Qed.

Lemma FindRootDomainSched_exec order s : exec (FindRootDomainSched order) s = s.
Proof. unfold FindRootDomainSched. rewrite exec_bind, val_members, exec_members. by destruct (business_ s). Qed.
Lemma recover_exec x s t :
  cacheTopo_ s = "" → Topo.RecoverFromString x (topologyTree s) = Some (StatusOK, t) →
  exec (RecoverSchedTopology (GetKvs [x])) s = set_tree t s ∧ val (RecoverSchedTopology (GetKvs [x])) s = Some StatusOK.
Proof.
  intros Ec Er. unfold RecoverSchedTopology, Global.RecoverFromString.
  rewrite exec_bind, val_bind, val_members, exec_members, Ec. rewrite bool_decide_true by done. cbn [negb].
  rewrite exec_bind, val_bind, val_members, exec_members, Er. done.
Qed.

(** The tree of a slave that becomes master and reads [x]. *)
Lemma takeover_tree order started x a b cb url t :
  Topo.RecoverFromString x (make a b) = Some (StatusOK, t) →
  listing (topologyTree (exec (UpdateLeaderInfo order started (GetKvs [x]) url) (init a b cb url))) = listing t.
Proof.
  intros Er. unfold UpdateLeaderInfo. rewrite !exec_bind. rewrite exec_modify, val_members, exec_members.
  assert (Eg : GetStatus (url_ (set_leader url (init a b cb url))) url (curStatus_ (set_leader url (init a b cb url))) =
    Some MASTER_BUSINESS) by
    (unfold GetStatus; cbn; by rewrite (bool_decide_true (url = url)) by reflexivity).
  rewrite Eg, !exec_bind, !exec_post, !exec_modify. set (s0 := set_business (curStatus_ _) _ _).
  change (listing (topologyTree (exec (Master_OnChange order started (GetKvs [x])) s0)) = listing t).
  unfold Master_OnChange. rewrite !exec_bind. set (s1 := exec (SetTopoRecovered true) s0).
  destruct (recover_exec x s1 t) as [-> ->]; [done|exact Er|]. cbn [from_option]. rewrite IsError_OK.
  rewrite !exec_bind, val_members, exec_members.
  set (root := val _ (set_tree t s1)). clearbody root. rewrite FindRootDomainSched_exec.
  destruct root as [r|]; [|done]. destruct (negb _ && _); [|done]. rewrite exec_bind. unfold DelDomainSched.
  rewrite exec_bind, val_members, exec_members. destruct (FindNonLeafNode _ _) as [r'|]; [|done].
  act_simpl. rewrite on_tree_exec. destruct (negb _); apply listing_SetState.
Qed.

(** ** Coming to rest *)
Definition weight (y : Sys) : nat :=
  6 * calls y + 5 * (if waitToPersistence_ (actor y) then 1 else 0) + 3 * length (puts y) + length (mail y).

Lemma update_weight order y n :
  (weight (deliver (update_topology order) (mkSys (actor y) (stored y) (puts y) (mail y) n (done y))) ≤
   5 + weight (mkSys (actor y) (stored y) (puts y) (mail y) n (done y)))%nat.
Proof.
  set (y0 := mkSys _ _ _ _ _ _). pose proof (deliver_acts _ y0 _ _ _ (update_acts order (actor y0))) as (_ & Ev & _ & Ep & Em & Ec & _).
  set (y' := deliver _ y0) in *. clearbody y'. subst y0. unfold weight. cbn [actor stored puts mail calls done] in *.
  rewrite Ep, Em, Ec, length_app. apply pv_fields in Ev as (_ & -> & _). unfold update_pv. cbn [pv pv_pers pv_wait pv_last pv_next].
  destruct (persisting_ (actor y)), (waitToPersistence_ (actor y)) eqn:Ew; try case_bool_decide; cbn; rewrite ?Ew; lia.
Qed.

Lemma internal_weight y y' : persistent y → internal y y' → (weight y' < weight y)%nat.
Proof.
  intros [W (x & Hph & _) _] Hi. destruct Hi as [x' rest Ep|order m rest Ho Em|order n Ho Ec].
  - unfold weight. cbn [actor puts mail calls]. rewrite Ep, length_app. cbn. lia.
  - set (y0 := mkSys _ _ _ _ _ _). destruct Hph as [E1 E2 E3 E4 E5|x p E1 E3 E4 E5|p E1 E3 E4|p E1 E3 E4 E5]; try congruence;
      rewrite E4 in Em; injection Em as <- <-; unfold weight.
    + unfold deliver, handle_mail, UpdateLastUpdatedTopology. rewrite exec_modify, outs_modify. cbn. rewrite E3, E4. cbn. lia.
    + pose proof (deliver_acts _ y0 _ _ _ (answer_acts order (actor y0))) as (_ & Ev & _ & Ep & Em & Ec & _). cbn [handle_mail].
      rewrite Ep, Em, Ec, E3, E4. apply pv_fields in Ev as (_ & -> & _). cbn [y0 actor puts mail calls]. rewrite E3.
      unfold answer_pv. cbn [pv pv_pers pv_wait pv_last pv_next].
      destruct (waitToPersistence_ (actor y)); [case_bool_decide|]; cbn; lia.
  - pose proof (update_weight order y n) as Hw. eapply Nat.le_lt_trans; [exact Hw|].
    unfold weight. cbn [actor puts mail calls]. rewrite Ec. lia.
Qed.

Lemma rest_or_step y : at_rest y ∨ ∃ y', internal y y'.
Proof.
  destruct (puts y) as [|x ps] eqn:Ep; [|right; eexists; by eapply int_store].
  destruct (mail y) as [|m ms] eqn:Em; [|right; eexists; by eapply (int_mail y map_to_list), Em; apply map_to_list_lawful].
  destruct (calls y) as [|n] eqn:Ec; [by left|right; eexists; by eapply (int_call y map_to_list), Ec; apply map_to_list_lawful].
Qed.


End system.

(** ** A run *)
Definition demo_callbacks : Callbacks := mkCallbacks true true false false [].
Definition demo_codec : Codec SchedulerNode := countable_codec SchedulerNode.

Definition store_step (y : Sys) : Sys :=
  match puts y with
  | [] => y
  | x :: rest => mkSys (actor y) x rest (mail y ++ [MailLastUpdated x; MailTopologyPut false]) (calls y) (done y)
  end.
Definition mail_step (y : Sys) : Sys :=
  match mail y with
  | [] => y
  | m :: rest => deliver (handle_mail (PC := demo_codec) map_to_list m) (mkSys (actor y) (stored y) (puts y) rest (calls y) (done y))
  end.
Lemma demo_store_ok y : rtc (sys_step (PC := demo_codec)) y (store_step y).
Proof.
  unfold store_step. destruct (puts y) as [|x rest] eqn:E; [done|]. apply rtc_once, sys_internal. by apply int_store.
Qed.
Lemma demo_mail_ok y : rtc (sys_step (PC := demo_codec)) y (mail_step y).
Proof.
  unfold mail_step. destruct (mail y) as [|m rest] eqn:E; [done|]. apply rtc_once, sys_internal.
  apply int_mail; [apply map_to_list_lawful|done].
Qed.

(** A domain scheduler registers; its topology is stored and acknowledged. *)
Definition demo_asked : Sys := deliver (handle (PC := demo_codec) map_to_list (AddDomain "f" "d" "a")) (start 2 2 demo_callbacks "m").
Definition demo_rest : Sys := mail_step (mail_step (store_step demo_asked)).

Lemma demo_asked_run : rtc (sys_step (PC := demo_codec)) (start 2 2 demo_callbacks "m") demo_asked.
Proof.
  apply rtc_once, sys_request; [apply map_to_list_lawful|]. split; [vm_compute; reflexivity|].
  intros _ l k r n Hr%held_length. cbn in Hr. lia.
Qed.
Lemma demo_rest_run : rtc (sys_step (PC := demo_codec)) (start 2 2 demo_callbacks "m") demo_rest.
Proof.
  etrans; [apply demo_asked_run|]. etrans; [apply demo_store_ok|]. etrans; [apply demo_mail_ok|]. apply demo_mail_ok.
Qed.



(** ** Where it fails *)
Section failures.
#[local] Existing Instance demo_codec.
Abbreviation seen_puts := (λ (m : C unit) (s : State), puts_of (outs m s)).

Definition registered : State := actor demo_rest.
Definition with_local : State := exec (AddLocalSched map_to_list StatusOK (Some false) "f" "x" "b") registered.

(** A put fails and its retry is pending; the topology is put again, and while
    that put is on its way the tree returns to the topology stored before.
    The retry finds it stored, so nothing more is put: in the end the store has
    the topology in between, and nothing corrects it. *)
Definition retried : State :=
  exec (DelLocalSchedHandler map_to_list "x" UNREGISTER) (* the tree returns *)
    (exec (OnHealthyStatus map_to_list StatusOK) (* put again *)
      (exec (OnTopologyPut map_to_list true) with_local)).
Definition settled : State :=
  exec (OnTopologyPut map_to_list false)
    (exec (UpdateLastUpdatedTopology (SerializeAsString map_to_list (topologyTree with_local)))
      (exec (PutTopology map_to_list) retried)).
Example failed_put_loses_update :
  seen_puts (OnHealthyStatus map_to_list StatusOK) (exec (OnTopologyPut map_to_list true) with_local) =
    [SerializeAsString map_to_list (topologyTree with_local)] ∧
  seen_puts (PutTopology map_to_list) retried = [] ∧
  seen_puts (OnTopologyPut map_to_list false)
    (exec (UpdateLastUpdatedTopology (SerializeAsString map_to_list (topologyTree with_local)))
      (exec (PutTopology map_to_list) retried)) = [] ∧
  persisting_ settled = None ∧ waitToPersistence_ settled = None ∧
  FindLeafNode (topologyTree settled) "x" = None ∧
  bool_decide (SerializeAsString map_to_list (topologyTree settled) = lastUpdatedTopology_ settled) = false.
Proof. vm_compute. repeat split; reflexivity. Qed.

(** A master that lost and regained the leadership still takes the topology it
    put last for the stored one: when the tree returns to it, nothing is put,
    although another master has stored a different one in between. *)
Definition regained : State :=
  exec (UpdateLeaderInfo map_to_list StatusOK (GetKvs []) "m")
    (exec (OnTopologyEvent [Some (SerializeAsString map_to_list (topologyTree with_local))])
      (exec (UpdateLeaderInfo map_to_list StatusOK (GetKvs []) "other") registered)).
Example regained_master_skips_put :
  is_Some (FindLeafNode (topologyTree regained) "x") ∧
  seen_puts (DelLocalSchedHandler map_to_list "x" UNREGISTER) regained = [] ∧
  FindLeafNode (topologyTree (exec (DelLocalSchedHandler map_to_list "x" UNREGISTER) regained)) "x" = None.
Proof. vm_compute. repeat split; eauto. Qed.

(** A domain scheduler that is refused for its address still counts as the one
    the cached local schedulers wait for: they stay cached and nothing is
    awaited. *)
Definition waiting : State :=
  exec (AddLocalSched map_to_list StatusOK (Some false) "f3" "z" "b3")
    (exec (AddLocalSched map_to_list StatusOK (Some false) "f2" "y" "b2") with_local).
Definition refused : State := exec (AddDomainSchedHandler map_to_list "f4" "d" "c") waiting.
Example refused_domain_strands_locals :
  waitDomainToRegister_ waiting = 1 ∧ length (cachedLocalSched_ waiting) = 1%nat ∧
  outs (AddDomainSchedHandler map_to_list "f4" "d" "c") waiting = [DomainRegistered "f4" None] ∧
  waitDomainToRegister_ refused = 0 ∧ length (cachedLocalSched_ refused) = 1%nat.
Proof. vm_compute. repeat split; reflexivity. Qed.
End failures.
