(* ===== verification/MetaClient.v ===== *)
(** * The client of the metadata store: transactions and retries

    Building a transaction ([meta_store_client/txn_transaction.h]), sending it
    and reading its answer ([key_value/kv_client_strategy.cpp],
    [key_value/meta_store_kv_client_strategy.cpp]), and the helper that repeats
    a request until it is answered ([common/utils/request_sync_helper.h]). *)

From S2P Require Import Prelude MetaTypes WatchService.
From Stdlib Require Import ZArith Lia.
From stdpp Require Import base gmap strings fin_maps list.

Open Scope Z_scope.

(** ** Compares and operations *)
Module Client.

Record PutOption := mkPutOption { po_leaseId : Z; po_prevKv : bool; po_asyncBackup : bool }.
Record DeleteOption := mkDeleteOption { do_prevKv : bool; do_prefix : bool; do_asyncBackup : bool }.
(** [limit] is sent, but no server of the model reads it. *)
Record GetOption := mkGetOption {
  go_prefix : bool; go_keysOnly : bool; go_countOnly : bool; go_limit : Z;
  go_sortOrder : SortOrder; go_sortTarget : SortTarget }.

(** A compare is made by one of the factory functions. *)
Inductive TxnCompare :=
  | OfVersion (key : string) (op : CompareResult) (value : Z)
  | OfCreateVersion (key : string) (op : CompareResult) (value : Z)
  | OfModifyVersion (key : string) (op : CompareResult) (value : Z)
  | OfValue (key : string) (op : CompareResult) (value : string)
  | OfLease (key : string) (op : CompareResult) (value : Z).

Definition BuildCompare (prefix : string) (c : TxnCompare) : Compare :=
  match c with
  | OfVersion k op v => mkCompare op TGT_VERSION (prefix +:+ k) (U_version v)
  | OfCreateVersion k op v => mkCompare op TGT_CREATE (prefix +:+ k) (U_create_revision v)
  | OfModifyVersion k op v => mkCompare op TGT_MOD (prefix +:+ k) (U_mod_revision v)
  | OfValue k op v => mkCompare op TGT_VALUE (prefix +:+ k) (U_value v)
  | OfLease k op v => mkCompare op TGT_LEASE (prefix +:+ k) (U_lease v)
  end.

Inductive TxnOperation :=
  | PutOp (key value : string) (option : PutOption)
  | DeleteOp (key : string) (option : DeleteOption)
  | GetOp (key : string) (option : GetOption).

Definition BuildOperation (prefix : string) (o : TxnOperation) : RequestOp :=
  match o with
  | PutOp k v opt => kRequestPut (mkEtcdPut (prefix +:+ k) v (po_leaseId opt) (po_prevKv opt))
  | DeleteOp k opt =>
      let realKey := prefix +:+ k in
      kRequestDeleteRange (mkDeleteRange realKey
        (if do_prefix opt then StringPlusOne realKey else "") (do_prevKv opt))
  | GetOp k opt =>
      let realKey := prefix +:+ k in
      kRequestRange (mkRange realKey (if go_prefix opt then StringPlusOne realKey else "")
        (go_sortOrder opt) (go_sortTarget opt) (go_keysOnly opt) (go_countOnly opt))
  end.

Definition GetAsyncBackupOption (o : TxnOperation) : bool :=
  match o with
  | PutOp _ _ opt => po_asyncBackup opt
  | DeleteOp _ opt => do_asyncBackup opt
  | GetOp _ _ => true
  end.

Record TxnTransaction := mkTransaction {
  compares : list TxnCompare; thenOps : list TxnOperation; elseOps : list TxnOperation }.
Definition BeginTransaction : TxnTransaction := mkTransaction [] [] [].
Definition If (c : TxnCompare) (t : TxnTransaction) : TxnTransaction :=
  mkTransaction (compares t ++ [c]) (thenOps t) (elseOps t).
Definition Then (o : TxnOperation) (t : TxnTransaction) : TxnTransaction :=
  mkTransaction (compares t) (thenOps t ++ [o]) (elseOps t).
Definition Else (o : TxnOperation) (t : TxnTransaction) : TxnTransaction :=
  mkTransaction (compares t) (thenOps t) (elseOps t ++ [o]).

Definition BuildTxnRequest (prefix : string) (t : TxnTransaction) : TxnRequest :=
  mkTxn (BuildCompare prefix <$> compares t) (BuildOperation prefix <$> thenOps t)
    (BuildOperation prefix <$> elseOps t).

(** The [asyncBackup] flag of [Commit]: no operation asks for a synchronous
    backup. *)
Definition commit_async (t : TxnTransaction) : bool :=
  forallb GetAsyncBackupOption (thenOps t) && forallb GetAsyncBackupOption (elseOps t).

(** ** Answers *)
Inductive TxnOperationResponse :=
  | OPERATION_PUT (revision : Z) (prevKv : KeyValue)
  | OPERATION_DELETE (revision deleted : Z) (prevKvs : list KeyValue)
  | OPERATION_GET (revision count : Z) (kvs : list KeyValue).

Record TxnAnswer := mkAnswer {
  ta_status : Status; ta_revision : Z; ta_success : bool;
  ta_responses : list TxnOperationResponse }.

Definition ConvertOp (op : ResponseOp) : TxnOperationResponse :=
  match op with
  | kResponseRange r => OPERATION_GET (hd_revision (rrr_header r)) (rrr_count r) (rrr_kvs r)
  | kResponsePut p => OPERATION_PUT (hd_revision (epr_header p)) (default kv_empty (epr_prev_kv p))
  | kResponseDeleteRange d =>
      OPERATION_DELETE (hd_revision (drr_header d)) (drr_deleted d) (drr_prev_kvs d)
  end.
Definition Convert (input : TxnResponse) : TxnAnswer :=
  mkAnswer StatusOK (hd_revision (txr_header input)) (txr_succeeded input)
    (ConvertOp <$> txr_responses input).

Definition failed_answer (st : Status) : TxnAnswer := mkAnswer st 0 false [].

Definition META_STORE_BACK_UP_ERR : Z := 91000.

(** The members of [MetaStoreKvClientStrategy] a transaction uses. *)
Record Strategy := mkStrategy { healthyStatus_ : Status; etcdTablePrefix_ : string }.

Definition fall_break (c : Strategy) : bool :=
  IsError (healthyStatus_ c) && bool_decide (st_code (healthyStatus_ c) ≠ META_STORE_BACK_UP_ERR).

Section wire.
Context {PB : Protobuf}.

(** [Commit] and the first half of [CommitTxn]: the request sent under a new
    id, or the failure that is answered at once. *)
Definition CommitTxn (c : Strategy) (uuid : string) (t : TxnTransaction)
    : MetaStoreRequest + TxnAnswer :=
  if fall_break c then
    inr (failed_answer (mkStatus (st_code (healthyStatus_ c))
          ("[fallbreak] failed to call CommitTxn: " +:+ st_msg (healthyStatus_ c))))
  else
    inl (mkReq uuid (ser (BuildTxnRequest (etcdTablePrefix_ c) t)) (commit_async t)).

(** [OnTxn]: the id of the request that ends and the response it ends with,
    an empty one ([None]: no header) when the server reports an error.  A
    message that does not parse ends nothing. *)
Definition OnTxn (msg : string) : option (string * option TxnResponse) :=
  match parse msg : option MetaStoreResponse with
  | None => None
  | Some message =>
      if bool_decide (mr_status message ≠ 0) then Some (mr_responseid message, None)
      else
        match parse (mr_responsemsg message) : option TxnResponse with
        | None => None
        | Some response => Some (mr_responseid message, Some response)
        end
  end.

(** The second half of [CommitTxn]. *)
Definition OnCommitted (response : option TxnResponse) : TxnAnswer :=
  match response with
  | Some r => Convert r
  | None => failed_answer (mkStatus FAILED "etcd txn failed")
  end.
End wire.

(** ** Repeating a request ([BackOffRetryHelper])

    [requestMatch_] maps the id of a request to its promise; the promise is
    known by its id.  [asyncMethod_] is [Retry##member_], which the helper
    posts to the actor at once, or after a delay through a timer. *)
Module Retry.
Section retry.
Context {R : Type}.
Implicit Type (rsp : R).

Record State := mkState {
  requestMatch_ : gset string;
  attemptLimit_ : Z }.

Inductive Out :=
  | RetryNow (key method msg : string) (attempt : Z)         (* litebus::Async *)
  | RetryAfter (key method msg : string) (attempt delay : Z)  (* litebus::AsyncAfter *)
  | CancelTimer (key : string)
  | Send (key method msg : string)
  | SetValue (key : string) (rsp : R)
  | SetFailed (key : string).

Abbreviation A := (Act State Out).

Definition insert_match (key : string) : A unit :=
  modify (λ s, mkState ({[key]} ∪ requestMatch_ s) (attemptLimit_ s)).
Definition erase_match (key : string) : A unit :=
  modify (λ s, mkState (requestMatch_ s ∖ {[key]}) (attemptLimit_ s)).

Definition Begin (key method msg : string) : A unit :=
  insert_match key ≫= λ _, post (RetryNow key method msg 1).

Definition End (key : string) (rsp : R) : A unit :=
  s ← members;
  if bool_decide (key ∈ requestMatch_ s) then
    post (SetValue key rsp) ≫= λ _, post (CancelTimer key) ≫= λ _, erase_match key
  else mret tt.

Definition AddTimer (getBackOffMs : Z → Z) (key method msg : string) (attempt : Z) : A unit :=
  s ← members;
  act_when (bool_decide (key ∈ requestMatch_ s))
    (post (RetryAfter key method msg attempt (getBackOffMs attempt))).

Definition Failed (key : string) : A unit :=
  s ← members;
  if bool_decide (key ∈ requestMatch_ s) then
    post (SetFailed key) ≫= λ _, erase_match key
  else mret tt.

Definition ExceedAttemptLimit (s : State) (attempt : Z) : bool :=
  if bool_decide (attemptLimit_ s = -1) then false else attemptLimit_ s <? attempt.

(** [Retry##member_], for a target that is not null. *)
Definition Retry (getBackOffMs : Z → Z) (key method msg : string) (attempt : Z) : A unit :=
  s ← members;
  if ExceedAttemptLimit s attempt then Failed key
  else
    AddTimer getBackOffMs key method msg (attempt + 1) ≫= λ _,
    post (Send key method msg).

Definition EndAll (rsp : R) : A unit :=
  s ← members;
  for_each (elements (requestMatch_ s)) (λ key,
    post (SetValue key rsp) ≫= λ _, post (CancelTimer key) ≫= λ _, erase_match key).
End retry.
Arguments Out : clear implicits.
End Retry.

(** The back-off of the clients of the metadata store: random between the
    bounds below, from the timeout of a call on. *)
Definition backoff_lower (grpcTimeout lower attempt : Z) : Z := grpcTimeout * 1000 + lower * attempt.
Definition backoff_upper (grpcTimeout upper attempt : Z) : Z := grpcTimeout * 1000 + upper * attempt.

End Client.
