(* ===== verification/KvClient.v ===== *)
(** * The client of the metadata store: requests and the fall-break
      ([meta_store/client/cpp/src/meta_store_client/key_value/meta_store_kv_client_strategy.cpp])

    The actor that sends the requests of a process to the metadata store.  Each
    kind of request has its helper, which repeats it until it is answered;
    while the store is known to be unhealthy, new requests are refused and the
    ones that wait are ended. *)

From S2P Require Import Prelude MetaTypes WatchService MetaClient.
From Stdlib Require Import ZArith Lia.
From stdpp Require Import base gmap strings fin_maps list.

Open Scope Z_scope.

Module KvClient.
Import Client.

(** ** Answers *)
Record PutAnswer := mkPutAnswer { pa_status : Status; pa_revision : Z; pa_prevKv : KeyValue }.
Record DeleteAnswer := mkDeleteAnswer {
  da_status : Status; da_revision : Z; da_deleted : Z; da_prevKvs : list KeyValue }.
Record GetAnswer := mkGetAnswer {
  ga_status : Status; ga_revision : Z; ga_count : Z; ga_kvs : list KeyValue }.

(** ** Members; the watches have their own. *)
Record State := mkState {
  healthyStatus_ : Status;
  etcdTablePrefix_ : string;
  putHelper_ : Retry.State;
  deleterHelper_ : Retry.State;
  getHelper_ : Retry.State;
  txnHelper_ : Retry.State;
}.

(** Messages of a helper, and the resynchronisation after an outage. *)
Inductive Out :=
  | ByPut (o : Retry.Out PutAnswer)
  | ByDelete (o : Retry.Out DeleteAnswer)
  | ByGet (o : Retry.Out GetAnswer)
  | ByTxn (o : Retry.Out (option TxnResponse))
  | SyncAllAndReconnectWatch.

Abbreviation A := (Act State Out).

Definition set_healthy (st : Status) (s : State) : State :=
  mkState st (etcdTablePrefix_ s) (putHelper_ s) (deleterHelper_ s) (getHelper_ s) (txnHelper_ s).
Definition set_put (h : Retry.State) (s : State) : State :=
  mkState (healthyStatus_ s) (etcdTablePrefix_ s) h (deleterHelper_ s) (getHelper_ s) (txnHelper_ s).
Definition set_deleter (h : Retry.State) (s : State) : State :=
  mkState (healthyStatus_ s) (etcdTablePrefix_ s) (putHelper_ s) h (getHelper_ s) (txnHelper_ s).
Definition set_get (h : Retry.State) (s : State) : State :=
  mkState (healthyStatus_ s) (etcdTablePrefix_ s) (putHelper_ s) (deleterHelper_ s) h (txnHelper_ s).
Definition set_txn (h : Retry.State) (s : State) : State :=
  mkState (healthyStatus_ s) (etcdTablePrefix_ s) (putHelper_ s) (deleterHelper_ s) (getHelper_ s) h.

(** A call of a helper. *)
Definition with_helper {R X} (get : State → Retry.State) (set : Retry.State → State → State)
    (tag : Retry.Out R → Out) (m : Act Retry.State (Retry.Out R) X) : A X :=
  λ s, (val m (get s), set (exec m (get s)) s, tag <$> outs m (get s)).

Definition with_put {X} : Act Retry.State (Retry.Out PutAnswer) X → A X :=
  with_helper putHelper_ set_put ByPut.
Definition with_deleter {X} : Act Retry.State (Retry.Out DeleteAnswer) X → A X :=
  with_helper deleterHelper_ set_deleter ByDelete.
Definition with_get {X} : Act Retry.State (Retry.Out GetAnswer) X → A X :=
  with_helper getHelper_ set_get ByGet.
Definition with_txn {X} : Act Retry.State (Retry.Out (option TxnResponse)) X → A X :=
  with_helper txnHelper_ set_txn ByTxn.

(** The constructor: every helper gets the limit of the timeout options. *)
Definition make (prefix : string) (operationRetryTimes : Z) : State :=
  let h := Retry.mkState ∅ operationRetryTimes in
  mkState StatusOK prefix h h h h.

(** [StatusCode::META_STORE_BACK_UP_ERR] is no reason to refuse a request. *)
Definition broken (s : State) : bool :=
  IsError (healthyStatus_ s) && bool_decide (st_code (healthyStatus_ s) ≠ META_STORE_BACK_UP_ERR).
Definition fallbreak (s : State) (call : string) : Status :=
  mkStatus (st_code (healthyStatus_ s))
    ("[fallbreak] failed to call " +:+ call +:+ ": " +:+ st_msg (healthyStatus_ s)).

Section wire.
Context {PB : Protobuf} {PC : Codec PutRequest} {MC : Codec MetaStoreRequest}.

(** ** Requests: refused at once, or begun ([None]: the future of the helper).
    [uuid] is the random id of the request. *)
Definition Put (uuid key value : string) (opt : PutOption) : A (option PutAnswer) :=
  s ← members;
  if broken s then mret (Some (mkPutAnswer (fallbreak s "Put") 0 kv_empty))
  else
    let request := mkPut uuid (etcdTablePrefix_ s +:+ key) value (po_leaseId opt)
                     (po_prevKv opt) (po_asyncBackup opt) in
    with_put (Retry.Begin (pr_requestid request) "Put" (ser request)) ≫= λ _, mret None.

Definition Delete (uuid key : string) (opt : DeleteOption) : A (option DeleteAnswer) :=
  s ← members;
  if broken s then mret (Some (mkDeleteAnswer (fallbreak s "Delete") 0 0 []))
  else
    let realKey := etcdTablePrefix_ s +:+ key in
    let request := mkDeleteRange realKey (if do_prefix opt then StringPlusOne realKey else "")
                     (do_prevKv opt) in
    let message := mkReq uuid (ser request) (do_asyncBackup opt) in
    with_deleter (Retry.Begin (mq_requestid message) "Delete" (ser message)) ≫= λ _, mret None.

Definition Get (uuid key : string) (opt : GetOption) : A (option GetAnswer) :=
  s ← members;
  if broken s then mret (Some (mkGetAnswer (fallbreak s "Get") 0 0 []))
  else
    let realKey := etcdTablePrefix_ s +:+ key in
    let request := mkRange realKey (if go_prefix opt then StringPlusOne realKey else "")
                     (go_sortOrder opt) (go_sortTarget opt) (go_keysOnly opt)
                     (go_countOnly opt) in
    let message := mkReq uuid (ser request) false in
    with_get (Retry.Begin (mq_requestid message) "Get" (ser message)) ≫= λ _, mret None.

(** [CommitTxn] and [CommitWithReq] differ in how the answer is read
    ([Client.OnCommitted]). *)
Definition begin_txn (uuid : string) (request : TxnRequest) (asyncBackup : bool) : A unit :=
  let message := mkReq uuid (ser request) asyncBackup in
  with_txn (Retry.Begin (mq_requestid message) "Txn" (ser message)).

Definition CommitTxn (uuid : string) (request : TxnRequest) (asyncBackup : bool)
    : A (option TxnAnswer) :=
  s ← members;
  if broken s then mret (Some (failed_answer (fallbreak s "CommitTxn")))
  else begin_txn uuid request asyncBackup ≫= λ _, mret None.

Definition CommitWithReq (uuid : string) (request : TxnRequest) (asyncBackup : bool)
    : A (option (option TxnResponse)) :=
  s ← members;
  if broken s then mret (Some None)
  else begin_txn uuid request asyncBackup ≫= λ _, mret None.

(** ** Responses; what does not parse ends nothing. *)
Definition OnPut (msg : string) : A unit :=
  match parse msg : option PutResponse with
  | None => mret tt
  | Some response =>
      let prev :=
        if bool_decide (pp_prevkv response = "") then kv_empty
        else default kv_empty (parse (pp_prevkv response)) in
      with_put (Retry.End (pp_requestid response)
        (mkPutAnswer (mkStatus (pp_status response) (pp_errormsg response)) (pp_revision response) prev))
  end.

Definition OnDelete (msg : string) : A unit :=
  match parse msg : option MetaStoreResponse with
  | None => mret tt
  | Some res =>
      match parse (mr_responsemsg res) : option DeleteRangeResponse with
      | None => mret tt
      | Some response =>
          with_deleter (Retry.End (mr_responseid res)
            (mkDeleteAnswer (mkStatus (mr_status res) (mr_errormsg res))
               (hd_revision (drr_header response)) (drr_deleted response) (drr_prev_kvs response)))
      end
  end.

Definition OnGet (msg : string) : A unit :=
  match parse msg : option MetaStoreResponse with
  | None => mret tt
  | Some res =>
      match parse (mr_responsemsg res) : option RangeResponse with
      | None => mret tt
      | Some response =>
          with_get (Retry.End (mr_responseid res)
            (mkGetAnswer (mkStatus (mr_status res) (mr_errormsg res))
               (hd_revision (rrr_header response)) (rrr_count response) (rrr_kvs response)))
      end
  end.

Definition OnTxn (msg : string) : A unit :=
  match Client.OnTxn msg with
  | None => mret tt
  | Some (id, response) => with_txn (Retry.End id response)
  end.
End wire.

(** ** Health *)
Definition FallBreakResponse : A unit :=
  s ← members;
  with_put (Retry.EndAll (mkPutAnswer (fallbreak s "Put") 0 kv_empty)) ≫= λ _,
  with_deleter (Retry.EndAll (mkDeleteAnswer (fallbreak s "Delete") 0 0 [])) ≫= λ _,
  with_get (Retry.EndAll (mkGetAnswer (fallbreak s "Get") 0 0 [])) ≫= λ _,
  with_txn (Retry.EndAll None).

(** With [KvClientStrategy::OnHealthyStatus] inlined. *)
Definition OnHealthyStatus (status : Status) : A unit :=
  modify (λ s,
    if bool_decide (st_code (healthyStatus_ s) = st_code status) then s else set_healthy status s) ≫= λ _,
  act_when (IsOk status) (post SyncAllAndReconnectWatch) ≫= λ _,
  s ← members;
  act_when (broken s) FallBreakResponse.

(** ** The repetition of a request ([Retry##member_] of each helper); [ms] is
    the random back-off. *)
Definition RetryputHelper_ (ms : Z → Z) (key method msg : string) (attempt : Z) : A unit :=
  with_put (Retry.Retry ms key method msg attempt).
Definition RetrydeleterHelper_ (ms : Z → Z) (key method msg : string) (attempt : Z) : A unit :=
  with_deleter (Retry.Retry ms key method msg attempt).
Definition RetrygetHelper_ (ms : Z → Z) (key method msg : string) (attempt : Z) : A unit :=
  with_get (Retry.Retry ms key method msg attempt).
Definition RetrytxnHelper_ (ms : Z → Z) (key method msg : string) (attempt : Z) : A unit :=
  with_txn (Retry.Retry ms key method msg attempt).

End KvClient.
