(* ===== verification/Monitor.v ===== *)
(** * The health check of the metadata store
      ([meta_store/client/cpp/src/meta_store_monitor/meta_store_monitor.cpp])

    An actor that checks the store at an interval, counts the checks that
    failed one after the other and tells its observers when the store is lost
    and when it is back; and the retry limit that is computed from its
    parameters ([function_proxy/common/common_driver/common_driver.cpp]). *)

From S2P Require Import Prelude.
From Stdlib Require Import ZArith Lia.
From stdpp Require Import base gmap strings fin_maps list.

Open Scope Z_scope.

Module Monitor.

(** Milliseconds and counts are [uint32_t]. *)
Record Param := mkParam {
  maxTolerateFailedTimes : Z; checkIntervalMs : Z; timeoutMs : Z; backend : string }.

Inductive AlarmLevel := ALARM_OFF | ALARM_MAJOR | ALARM_CRITICAL | ALARM_OTHER.

(** [firingBeginTime_] is a time point in milliseconds. *)
Record State := mkState {
  failedTimes_ : Z;
  observers_ : list string;
  timer_ : bool;
  firingBeginTime_ : Z;
  alarmLevel_ : AlarmLevel;
  isChecking_ : bool;
}.
Definition init : State := mkState 0 [] false 0 ALARM_OFF false.

Inductive Out :=
  | BindReconnectedCallBack
  | CheckAfter (ms : Z)             (* litebus::AsyncAfter, kept in timer_ *)
  | CancelTimer
  | HealthCheck (timeout : Z)
  | OnHealthyStatus (observer : string) (status : Status)
  | StorageBackendUnhealthyFiring (level : AlarmLevel) (errCode : Z) (errMsg backend : string)
  | StorageBackendUnhealthyResolved (level : AlarmLevel) (backend : string).

Abbreviation A := (Act State Out).

Definition set_failed (n : Z) (s : State) : State :=
  mkState n (observers_ s) (timer_ s) (firingBeginTime_ s) (alarmLevel_ s) (isChecking_ s).
Definition set_observers (l : list string) (s : State) : State :=
  mkState (failedTimes_ s) l (timer_ s) (firingBeginTime_ s) (alarmLevel_ s) (isChecking_ s).
Definition set_timer (s : State) : State :=
  mkState (failedTimes_ s) (observers_ s) true (firingBeginTime_ s) (alarmLevel_ s) (isChecking_ s).
Definition set_firing (t : Z) (s : State) : State :=
  mkState (failedTimes_ s) (observers_ s) (timer_ s) t (alarmLevel_ s) (isChecking_ s).
Definition set_level (l : AlarmLevel) (s : State) : State :=
  mkState (failedTimes_ s) (observers_ s) (timer_ s) (firingBeginTime_ s) l (isChecking_ s).
Definition set_checking (b : bool) (s : State) : State :=
  mkState (failedTimes_ s) (observers_ s) (timer_ s) (firingBeginTime_ s) (alarmLevel_ s) b.

Definition MAX_MAJOR_ALARM_MINUTES : Z := 5 * 60.

Section monitor.
Context (param_ : Param).

Definition start_timer : A unit :=
  post (CheckAfter (checkIntervalMs param_)) ≫= λ _, modify set_timer.

Definition StartMonitor : A unit := post BindReconnectedCallBack ≫= λ _, start_timer.

Definition CheckMetaStoreStatus : A unit :=
  s ← members;
  if isChecking_ s then mret tt
  else modify (set_checking true) ≫= λ _, post (HealthCheck (timeoutMs param_)).

(** A null observer is not registered. *)
Definition RegisterHealthyObserver (observer : option string) : A unit :=
  match observer with
  | None => mret tt
  | Some o => modify (λ s, set_observers (observers_ s ++ [o]) s)
  end.
Definition ClearObservers : A bool := modify (set_observers []) ≫= λ _, mret true.

Definition publish (status : Status) : A unit :=
  s ← members;
  for_each (observers_ s) (λ o, post (OnHealthyStatus o status)).

Definition ResetUnHealthy : A unit :=
  s ← members;
  act_when (maxTolerateFailedTimes param_ <=? failedTimes_ s) (publish StatusOK) ≫= λ _,
  modify (set_failed 0).

Definition IncreaseUnHealthy (status : Status) : A unit :=
  modify (λ s, set_failed (to_uint32 (failedTimes_ s + 1)) s) ≫= λ _,
  s ← members;
  if failedTimes_ s <? maxTolerateFailedTimes param_ then mret tt
  else if bool_decide (maxTolerateFailedTimes param_ ≠ 0)
          && bool_decide (failedTimes_ s mod maxTolerateFailedTimes param_ ≠ 0) then mret tt
  else publish status.

Definition OnMetaStoreHealthy : A unit :=
  s ← members;
  (match alarmLevel_ s with
   | ALARM_MAJOR => post (StorageBackendUnhealthyResolved ALARM_MAJOR (backend param_))
   | ALARM_CRITICAL =>
       post (StorageBackendUnhealthyResolved ALARM_MAJOR (backend param_)) ≫= λ _,
       post (StorageBackendUnhealthyResolved ALARM_CRITICAL (backend param_))
   | _ => mret tt
   end) ≫= λ _,
  modify (set_level ALARM_OFF) ≫= λ _,
  ResetUnHealthy.

(** The future of a check: an error code, or the status of the response. *)
Definition Response := (Z + Status)%type.
Definition error_of (response : Response) : Status :=
  match response with inl errCode => mkStatus errCode "connect timeout" | inr st => st end.

Definition OnMetaStoreUnhealthy (now : Z) (response : Response) : A unit :=
  let err := error_of response in
  IncreaseUnHealthy err ≫= λ _,
  s ← members;
  match alarmLevel_ s with
  | ALARM_MAJOR =>
      let level :=
        if MAX_MAJOR_ALARM_MINUTES <? (now - firingBeginTime_ s) / 1000 then ALARM_CRITICAL
        else ALARM_MAJOR in
      modify (set_level level) ≫= λ _,
      post (StorageBackendUnhealthyFiring level (st_code err) (st_msg err) (backend param_))
  | ALARM_CRITICAL =>
      post (StorageBackendUnhealthyFiring ALARM_CRITICAL (st_code err) (st_msg err) (backend param_))
  | ALARM_OFF =>
      modify (set_firing now) ≫= λ _, modify (set_level ALARM_MAJOR) ≫= λ _,
      post (StorageBackendUnhealthyFiring ALARM_MAJOR (st_code err) (st_msg err) (backend param_))
  | ALARM_OTHER => mret tt
  end.

Definition healthy (response : Response) : bool :=
  match response with inl _ => false | inr st => IsOk st end.

Definition OnCheckMetaStoreStatus (now : Z) (response : Response) : A unit :=
  (if healthy response then OnMetaStoreHealthy else OnMetaStoreUnhealthy now response) ≫= λ _,
  post CancelTimer ≫= λ _, start_timer ≫= λ _, modify (set_checking false).
End monitor.

(** ** The retry limit

    Computed in [uint32_t]; the flags are checked against ranges
    ([common_flags.cpp]). *)
Definition KV_OPERATE_RETRY_INTERVAL_LOWER_BOUND : Z := 1000.
Definition operationRetryTimes (p : Param) : Z :=
  to_uint32 (to_uint32 (maxTolerateFailedTimes p + 1) * to_uint32 (checkIntervalMs p + timeoutMs p))
  / KV_OPERATE_RETRY_INTERVAL_LOWER_BOUND.

Definition NumCheck (lo hi z : Z) : bool := (lo <=? z) && (z <=? hi).
Definition flags_ok (p : Param) : bool :=
  NumCheck 1 1000 (maxTolerateFailedTimes p) && NumCheck 100 600000 (checkIntervalMs p)
  && NumCheck 100 600000 (timeoutMs p).

End Monitor.
