(* ===== verification/InstanceTypes.v ===== *)
(** * Instances: states, records and keys

    The states of an instance ([common/types/instance_state.h]), the records
    the proxy keeps and stores of it ([proto/posix/resource.proto]), the
    predicates on them ([common/utils/struct_transfer.h],
    [common/metadata/metadata.cpp], [common/utils/resume_identity.cpp]) and the
    keys they are stored under ([common/utils/meta_store_kv_operation.h]). *)

From S2P Require Import Prelude StdStrings MetaTypes.
From Stdlib Require Import Ascii String ZArith Lia.
From stdpp Require Import base gmap strings fin_maps countable list.

Open Scope Z_scope.

(** ** [InstanceState]

    An enumeration over [int32_t]; the code casts status codes to it, so a
    state is its code and may have no name. *)
Module InstanceState.
Definition NEW : Z := 0.
Definition SCHEDULING : Z := 1.
Definition CREATING : Z := 2.
Definition RUNNING : Z := 3.
Definition FAILED : Z := 4.
Definition EXITING : Z := 5.
Definition FATAL : Z := 6.
Definition SCHEDULE_FAILED : Z := 7.
Definition EXITED : Z := 8.
Definition EVICTING : Z := 9.
Definition EVICTED : Z := 10.
Definition SUB_HEALTH : Z := 11.
Definition SUSPEND : Z := 12.
Definition PAUSED : Z := 13.
End InstanceState.
Import InstanceState.

(** [std::unordered_set<InstanceState>::find] *)
Definition in_states (l : list Z) (s : Z) : bool := bool_decide (s ∈ l).

Definition STATE_TRANSITION_MAP : list (Z * list Z) := [
  (NEW, [SCHEDULING]);
  (SCHEDULING, [SCHEDULING; CREATING; FAILED; FATAL; EXITING; SCHEDULE_FAILED]);
  (CREATING, [RUNNING; FAILED; EXITING; FATAL]);
  (RUNNING, [FAILED; EXITING; FATAL; EVICTING; SUB_HEALTH; SUSPEND; PAUSED]);
  (SUB_HEALTH, [FAILED; EXITING; FATAL; EVICTING; RUNNING]);
  (FAILED, [SCHEDULING; EXITING; FATAL]);
  (FATAL, [EXITING]);
  (EXITING, [FATAL]);
  (EVICTING, [EVICTED; FATAL]);
  (SCHEDULE_FAILED, [SCHEDULING; EXITING]);
  (EVICTED, [EXITING; FATAL]);
  (SUSPEND, [CREATING; SCHEDULING; RUNNING; FATAL; EXITING]);
  (PAUSED, [RUNNING; EXITING; FATAL]) ].

Definition next_states (s : Z) : option (list Z) :=
  match list_find (λ p, p.1 = s) STATE_TRANSITION_MAP with
  | Some (_, p) => Some p.2
  | None => None
  end.

Definition NO_UPDATE_ROUTE_STATE : list Z := [CREATING].
Definition NO_UPDATE_ROUTE_STATE_WITH_META_STORE : list Z := [SCHEDULING; CREATING].
Definition NEED_PERSISTENCE_STATE : list Z := [NEW; FAILED; SCHEDULE_FAILED].

Definition NeedUpdateRouteState (state : Z) (isMetaStoreEnable : bool) : bool :=
  if isMetaStoreEnable then negb (in_states NO_UPDATE_ROUTE_STATE_WITH_META_STORE state)
  else negb (in_states NO_UPDATE_ROUTE_STATE state).
Definition NeedPersistenceState (state : Z) : bool := in_states NEED_PERSISTENCE_STATE state.

Definition INSTANCE_MANAGER_OWNER : string := "InstanceManagerOwner".

(** ** Records

    The fields of the messages that the proxy reads or writes; what it only
    carries along ([restartPolicy], [resources], [scheduleOption], labels,
    ...) is one field, its serialized form. *)
Record InstanceStatus := mkStat {
  is_code : Z; is_exitcode : Z; is_msg : string; is_type : Z; is_errcode : Z }.

Record SnapshotInfo := mkSnapshot {
  sn_checkpointid : string; sn_storage : string; sn_createtime : string;
  sn_ttlseconds : Z; sn_status : Z; sn_rest : string }.
Definition SNAPSHOT_READY : Z := 1.

(** What names the instance. *)
Record Identity := mkIdentity {
  instanceid : string; requestid : string; function : string; tenantid : string;
  jobid : string; parentid : string; issystemfunc : bool; groupid : string }.

(** Where it runs. *)
Record Placement := mkPlacement {
  functionproxyid : string; runtimeid : string; runtimeaddress : string;
  functionagentid : string; containerid : string; containerip : string; unitid : string;
  proxygrpcaddress : string; executortype : Z; starttime : string }.

Record InstanceInfo := mkInfo {
  ii_id : Identity;
  ii_at : Placement;
  instancestatus : InstanceStatus;
  version : Z;
  createoptions : gmap string string;
  extensions : gmap string string;
  args : list string;
  snapshotinfo : option SnapshotInfo;
  failover : bool;
  ischeckpointed : bool;
  lowreliability : bool;
  trafficreporttype : Z;
  ii_rest : string;
}.

Record RouteInfo := mkRoute {
  ri_id : Identity;  (* without [groupid] *)
  ri_runtimeaddress : string; ri_functionagentid : string; ri_functionproxyid : string;
  ri_proxygrpcaddress : string;
  ri_status : InstanceStatus; ri_version : Z; ri_trafficreporttype : Z }.

(** [messages::ScheduleRequest]: the instance to schedule, and the request's
    own id, round and trace. *)
Record ScheduleRequest := mkSchedReq {
  sq_instance : InstanceInfo; sq_requestid : string; sq_scheduleround : Z; sq_traceid : string }.

Definition code (i : InstanceInfo) : Z := is_code (instancestatus i).

Definition no_status : InstanceStatus := mkStat 0 0 "" 0 0.
Definition no_identity : Identity := mkIdentity "" "" "" "" "" "" false "".
Definition no_placement : Placement := mkPlacement "" "" "" "" "" "" "" "" 0 "".
(** A message with every field at its default. *)
Definition info_empty : InstanceInfo :=
  mkInfo no_identity no_placement no_status 0 ∅ ∅ [] None false false false 0 "".

#[global] Instance InstanceStatus_eq_dec : EqDecision InstanceStatus.
Proof. solve_decision. Defined.
#[global] Instance SnapshotInfo_eq_dec : EqDecision SnapshotInfo.
Proof. solve_decision. Defined.
#[global] Instance Identity_eq_dec : EqDecision Identity.
Proof. solve_decision. Defined.
#[global] Instance Placement_eq_dec : EqDecision Placement.
Proof. solve_decision. Defined.
#[global] Instance InstanceInfo_eq_dec : EqDecision InstanceInfo.
Proof. solve_decision. Defined.

(** ** Setters *)
Definition set_status (st : InstanceStatus) (i : InstanceInfo) : InstanceInfo :=
  mkInfo (ii_id i) (ii_at i) st (version i) (createoptions i) (extensions i) (args i)
    (snapshotinfo i) (failover i) (ischeckpointed i) (lowreliability i) (trafficreporttype i) (ii_rest i).
Definition set_place (p : Placement) (i : InstanceInfo) : InstanceInfo :=
  mkInfo (ii_id i) p (instancestatus i) (version i) (createoptions i) (extensions i) (args i)
    (snapshotinfo i) (failover i) (ischeckpointed i) (lowreliability i) (trafficreporttype i) (ii_rest i).
Definition set_version (v : Z) (i : InstanceInfo) : InstanceInfo :=
  mkInfo (ii_id i) (ii_at i) (instancestatus i) v (createoptions i) (extensions i) (args i)
    (snapshotinfo i) (failover i) (ischeckpointed i) (lowreliability i) (trafficreporttype i) (ii_rest i).
Definition set_createoptions (m : gmap string string) (i : InstanceInfo) : InstanceInfo :=
  mkInfo (ii_id i) (ii_at i) (instancestatus i) (version i) m (extensions i) (args i)
    (snapshotinfo i) (failover i) (ischeckpointed i) (lowreliability i) (trafficreporttype i) (ii_rest i).
Definition set_extensions (m : gmap string string) (i : InstanceInfo) : InstanceInfo :=
  mkInfo (ii_id i) (ii_at i) (instancestatus i) (version i) (createoptions i) m (args i)
    (snapshotinfo i) (failover i) (ischeckpointed i) (lowreliability i) (trafficreporttype i) (ii_rest i).
Definition clear_args (i : InstanceInfo) : InstanceInfo :=
  mkInfo (ii_id i) (ii_at i) (instancestatus i) (version i) (createoptions i) (extensions i) []
    (snapshotinfo i) (failover i) (ischeckpointed i) (lowreliability i) (trafficreporttype i) (ii_rest i).
Definition set_ischeckpointed (b : bool) (i : InstanceInfo) : InstanceInfo :=
  mkInfo (ii_id i) (ii_at i) (instancestatus i) (version i) (createoptions i) (extensions i) (args i)
    (snapshotinfo i) (failover i) b (lowreliability i) (trafficreporttype i) (ii_rest i).

Definition set_functionproxyid (s : string) (p : Placement) : Placement :=
  mkPlacement s (runtimeid p) (runtimeaddress p) (functionagentid p) (containerid p)
    (containerip p) (unitid p) (proxygrpcaddress p) (executortype p) (starttime p).

Definition set_instance (i : InstanceInfo) (q : ScheduleRequest) : ScheduleRequest :=
  mkSchedReq i (sq_requestid q) (sq_scheduleround q) (sq_traceid q).

Definition owner (i : InstanceInfo) : string := functionproxyid (ii_at i).

(** ** Predicates on instances *)
Definition RELIABILITY_TYPE : string := "ReliabilityType".
Definition RESOURCE_OWNER_KEY : string := "resource.owner".
Definition STATIC_FUNCTION_OWNER_VALUE : string := "static_function".
Definition RECOVER_RETRY_TIMES_KEY : string := "RecoverRetryTimes".
Definition YR_DEBUG_CONFIG : string := "debug_config".
Definition CONTAINER_NETWORK_POLICY : string := "network_policy".
Definition CREATE_SOURCE : string := "source".
Definition APP_ENTRYPOINT : string := "ENTRYPOINT".
Definition PID : string := "pid".
Definition PORT_FORWARD_KEY : string := "portForward".
Definition CREATE_TIME_STAMP : string := "createTimestamp".
Definition INSTANCE_MOD_REVISION : string := "modRevision".

(** [forced] is [IsForceLowReliabilityInstanceEnabled()]. *)
Definition IsLowReliabilityInstance (forced : bool) (i : InstanceInfo) : bool :=
  forced || bool_decide (createoptions i !! RELIABILITY_TYPE = Some "low").

Definition IsAppDriver (createOpts : gmap string string) : bool :=
  bool_decide (is_Some (createOpts !! APP_ENTRYPOINT)).
Definition IsDebugInstance (createOpts : gmap string string) : bool :=
  bool_decide (is_Some (createOpts !! YR_DEBUG_CONFIG)).
Definition IsStaticFunctionInstance (i : InstanceInfo) : bool :=
  bool_decide (createoptions i !! RESOURCE_OWNER_KEY = Some STATIC_FUNCTION_OWNER_VALUE).

(** [std::stoi]: as [stoll], with the range of [int]. *)
Definition stoi (s : string) : option Z :=
  z ← stoll s; if (- 2 ^ 31 <=? z) && (z <? 2 ^ 31) then Some z else None.

Definition GetRuntimeRecoverTimes (i : InstanceInfo) : Z :=
  match createoptions i !! RECOVER_RETRY_TIMES_KEY with
  | None => 0
  | Some s => default 0 (stoi s)
  end.
(** Called without a cancel future, which then is not ready. *)
Definition IsRuntimeRecoverEnable (i : InstanceInfo) : bool := 0 <? GetRuntimeRecoverTimes i.

Definition IsDriver (i : InstanceInfo) : bool :=
  if bool_decide (String.index 0 "driver" (instanceid (ii_id i)) ≠ None) then true
  else bool_decide (extensions i !! CREATE_SOURCE = Some "driver").

Definition GetModRevisionFromInstanceInfo (i : InstanceInfo) : Z :=
  match extensions i !! INSTANCE_MOD_REVISION with
  | None => 0
  | Some s => default 0 (stoll s)
  end.

(** ** Resume identities ([resume_identity.cpp]) *)
Fixpoint after_digits (s : string) : string :=
  match s with
  | String c s' => if bool_decide (digit_of c ≠ None) then after_digits s' else s
  | EmptyString => EmptyString
  end.
(** What [std::stoll] leaves of its argument. *)
Definition stoll_rest (s : string) : string := after_digits (stoll_sign (skip_space s)).2.

Definition ParsePositiveInt64 (value : string) : bool :=
  if bool_decide (value = "") then false
  else
    match stoll value with
    | None => false
    | Some number => bool_decide (stoll_rest value = "") && (0 <? number)
    end.

Definition IsCompleteReadySnapshot (s : SnapshotInfo) : bool :=
  bool_decide (sn_status s = SNAPSHOT_READY) && bool_decide (sn_checkpointid s ≠ "")
  && (bool_decide (sn_storage s = "obs") || bool_decide (sn_storage s = "datasystem")
      || bool_decide (sn_storage s = "local"))
  && (0 <? sn_ttlseconds s) && ParsePositiveInt64 (sn_createtime s).

Definition SnapshotIdentityMatches (l r : SnapshotInfo) : bool :=
  bool_decide (sn_checkpointid l = sn_checkpointid r) && bool_decide (sn_status l = sn_status r)
  && bool_decide (sn_storage l = sn_storage r).

Definition AppendIdentityPart (identity part : string) : string :=
  identity +:+ to_string (Z.of_nat (String.length part)) +:+ ":" +:+ part.

Definition RUNTIME_ID_PREFIX : string := "yr-resume-".
(** [Sha256Hex] calls OpenSSL. *)
Definition RuntimeID (Sha256Hex : string → string) (logicalInstanceID targetAttemptID : string)
    : string :=
  let identity := AppendIdentityPart (AppendIdentityPart "" logicalInstanceID) targetAttemptID in
  RUNTIME_ID_PREFIX +:+ String.substring 0 40 (Sha256Hex identity).

(** ** Keys *)
Definition INSTANCE_PATH_PREFIX : string := "/sn/instance/business/yrk/tenant".
Definition INSTANCE_ROUTE_PATH_PREFIX : string := "/yr/route/business/yrk".
Definition DEBUG_INSTANCE_PREFIX : string := "/yr/debug/".

(** [litebus::strings::Split] with a pattern of one character: empty tokens
    are kept. *)
Fixpoint Split (c : ascii) (s : string) : list string :=
  match s with
  | EmptyString => [EmptyString]
  | String a s' =>
      if bool_decide (a = c) then EmptyString :: Split c s'
      else
        match Split c s' with
        | t :: ts => String a t :: ts
        | [] => [String a EmptyString]
        end
  end.

Definition GenInstanceKey (functionKey instanceID requestID : string) : option string :=
  match Split "/"%char functionKey with
  | [tenant; func; ver] =>
      Some (INSTANCE_PATH_PREFIX +:+ "/" +:+ tenant +:+ "/function/" +:+ func +:+ "/version/" +:+
            ver +:+ "/defaultaz/" +:+ requestID +:+ "/" +:+ instanceID)
  | _ => None
  end.
Definition GenInstanceRouteKey (instanceID : string) : string :=
  INSTANCE_ROUTE_PATH_PREFIX +:+ "/" +:+ instanceID.

Definition key_of (d : Identity) : option string :=
  GenInstanceKey (function d) (instanceid d) (requestid d).

(** ** Routes ([metadata.cpp]) *)
Definition drop_group (d : Identity) : Identity :=
  mkIdentity (instanceid d) (requestid d) (function d) (tenantid d) (jobid d) (parentid d)
    (issystemfunc d) "".

Definition TransToRouteInfoFromInstanceInfo (i : InstanceInfo) : RouteInfo :=
  mkRoute (drop_group (ii_id i)) (runtimeaddress (ii_at i)) (functionagentid (ii_at i))
    (functionproxyid (ii_at i)) (proxygrpcaddress (ii_at i)) (instancestatus i) (version i)
    (trafficreporttype i).

Definition route_placement (r : RouteInfo) : Placement :=
  mkPlacement (ri_functionproxyid r) "" (ri_runtimeaddress r) (ri_functionagentid r) "" "" ""
    (ri_proxygrpcaddress r) 0 "".

(** Onto an empty [InstanceInfo]; the traffic report type is not copied. *)
Definition TransToInstanceInfoFromRouteInfo (r : RouteInfo) : InstanceInfo :=
  mkInfo (ri_id r) (route_placement r) (ri_status r) (ri_version r) ∅ ∅ [] None false false false 0 "".

(** ** JSON

    [MessageToJsonString] may fail; what it writes is read back.  Unknown
    fields are ignored and the fields of a route bear the names they have in
    an instance, so a route also reads as an instance.  The empty string is no
    JSON value. *)
Class Json (A : Type) := { to_json : A → option string; of_json : string → option A }.

Definition route_as_instance (r : RouteInfo) : InstanceInfo :=
  mkInfo (ri_id r) (route_placement r) (ri_status r) (ri_version r) ∅ ∅ [] None false false false
    (ri_trafficreporttype r) "".

Class InstanceJson := {
  json_instance :: Json InstanceInfo;
  json_route :: Json RouteInfo }.
Class InstanceJsonOk {J : InstanceJson} : Prop := {
  instance_back (i : InstanceInfo) s : to_json i = Some s → of_json s = Some i;
  route_back (r : RouteInfo) s : to_json r = Some s → of_json s = Some r;
  route_reads (r : RouteInfo) s : to_json r = Some s → of_json s = Some (route_as_instance r);
  no_json : (of_json "" : option InstanceInfo) = None }.
