(* ===== verification/InstanceOp.v ===== *)
(** * Storing instances ([common/meta_store_adapter/instance_operator.cpp])

    Each write of an instance is one transaction over its instance key, its
    route key and, for a deletion, its debug key, guarded by the version the
    writer knows.  [If]/[Then]/[Else] of a transaction and the reading of its
    answer are separate definitions, since the store answers later. *)

From S2P Require Import Prelude MetaTypes MetaClient.
From Stdlib Require Import ZArith Lia.
From stdpp Require Import base gmap strings fin_maps list.

Open Scope Z_scope.

Module Operator.
Import Client.

Definition INSTANCE_TRANSACTION_WRONG_VERSION : Z := 300.
Definition INSTANCE_TRANSACTION_GET_INFO_FAILED : Z := 301.
Definition INSTANCE_TRANSACTION_WRONG_RESPONSE_SIZE : Z := 302.
Definition INSTANCE_TRANSACTION_DELETE_FAILED : Z := 303.
Definition INSTANCE_TRANSACTION_WRONG_PARAMETER : Z := 304.

Definition TransactionFailedForEtcd (errCode : Z) : bool := negb ((300 <=? errCode) && (errCode <? 350)).

Record StoreInfo := mkStoreInfo { si_key : string; si_value : string }.

Record OperateResult := mkResult {
  or_status : Status; or_value : string; or_preKeyVersion : Z; or_currentModRevision : Z }.

(** [key] and [isCentOS] only matter to log lines and to [YR_EXIT]. *)
Record OperateInfo := mkOperate {
  oi_values : list string; oi_keySize : nat; oi_version : Z; oi_response : TxnAnswer }.

Definition error_result (c : Z) (msg : string) : OperateResult := mkResult (mkStatus c msg) "" 0 0.
Definition default_result : OperateResult := mkResult StatusOK "" 0 0.

(** ** Reading answers *)

(** The flag says that the loop over the keys stops here. *)
Definition CheckGetResponse (resp : TxnOperationResponse) (value : string) : bool * OperateResult :=
  match resp with
  | OPERATION_GET revision _ kvs =>
      match kvs with
      | [] => (false, error_result INSTANCE_TRANSACTION_GET_INFO_FAILED "get response KV is empty")
      | kv :: _ =>
          if bool_decide (value = kv_value kv) then (true, mkResult StatusOK "" 0 revision)
          else (true, mkResult (mkStatus INSTANCE_TRANSACTION_WRONG_VERSION "version is incorrect")
                        (kv_value kv) 0 (kv_mod_revision kv))
      end
  | _ => (true, error_result INSTANCE_TRANSACTION_GET_INFO_FAILED "operation type is wrong")
  end.

(** The loop of [OnModify] over responses and values. *)
Fixpoint CheckGetResponses (l : list (TxnOperationResponse * string)) (result : OperateResult)
    : OperateResult :=
  match l with
  | [] => result
  | (resp, value) :: l =>
      let r := CheckGetResponse resp value in
      if r.1 then r.2 else CheckGetResponses l r.2
  end.

(** The loop of [ResolveCreateConflict]; the accumulator holds the last
    mismatch and whether a key was missing.  [inr] returns at once. *)
Fixpoint resolve_keys (l : list (TxnOperationResponse * string))
    (mismatch : option OperateResult) (hasMissing : bool)
    : (option OperateResult * bool) + OperateResult :=
  match l with
  | [] => inl (mismatch, hasMissing)
  | (OPERATION_GET _ _ kvs, value) :: l =>
      match kvs with
      | [] => resolve_keys l mismatch true
      | kv :: _ =>
          if bool_decide (value ≠ kv_value kv) then
            resolve_keys l
              (Some (mkResult (mkStatus INSTANCE_TRANSACTION_WRONG_VERSION "version is incorrect")
                      (kv_value kv) 0 (kv_mod_revision kv))) hasMissing
          else resolve_keys l mismatch hasMissing
      end
  | _ :: _ => inr (error_result INSTANCE_TRANSACTION_GET_INFO_FAILED "operation type is wrong")
  end.

Definition ResolveCreateConflict (o : OperateInfo) : OperateResult :=
  match resolve_keys (zip (take (oi_keySize o) (ta_responses (oi_response o))) (oi_values o))
          None false with
  | inr r => r
  | inl (Some mismatchResult, _) => mismatchResult
  | inl (None, true) =>
      error_result INSTANCE_TRANSACTION_GET_INFO_FAILED "get response KV is empty"
  | inl (None, false) => mkResult StatusOK "" 0 (ta_revision (oi_response o))
  end.

Definition wrong_size (o : OperateInfo) : bool :=
  bool_decide (length (ta_responses (oi_response o)) ≠ oi_keySize o)
  || bool_decide (oi_keySize o ≠ length (oi_values o)).

Definition OnCreate (o : OperateInfo) : OperateResult :=
  if IsError (ta_status (oi_response o)) then mkResult (ta_status (oi_response o)) "" 0 0
  else if wrong_size o then
    error_result INSTANCE_TRANSACTION_WRONG_RESPONSE_SIZE
      "the size of responses transaction return is incorrect"
  else if ta_success (oi_response o) then mkResult StatusOK "" 0 (ta_revision (oi_response o))
  else ResolveCreateConflict o.

Definition OnModify (o : OperateInfo) : OperateResult :=
  if IsError (ta_status (oi_response o)) then mkResult (ta_status (oi_response o)) "" 0 0
  else if wrong_size o then
    error_result INSTANCE_TRANSACTION_WRONG_RESPONSE_SIZE
      "the size of responses transaction return is incorrect"
  else if ta_success (oi_response o) then
    mkResult StatusOK "" (oi_version o) (ta_revision (oi_response o))
  else
    CheckGetResponses (zip (take (oi_keySize o) (ta_responses (oi_response o))) (oi_values o))
      default_result.

(** Without a response the code reads past the end of the vector: [None]. *)
Definition OnDelete (o : OperateInfo) : option OperateResult :=
  if IsError (ta_status (oi_response o)) then Some (mkResult (ta_status (oi_response o)) "" 0 0)
  else if ta_success (oi_response o) then
    if bool_decide (length (ta_responses (oi_response o)) ≠ oi_keySize o) then
      Some (error_result INSTANCE_TRANSACTION_WRONG_RESPONSE_SIZE
        "the size of responses transaction return is incorrect")
    else
      match ta_responses (oi_response o) with
      | [] => None
      | OPERATION_DELETE _ deleted _ :: _ =>
          if bool_decide (deleted = 0) then
            Some (error_result INSTANCE_TRANSACTION_DELETE_FAILED "failed to delete KV")
          else Some (mkResult StatusOK "" 0 (ta_revision (oi_response o)))
      | _ :: _ => Some (error_result INSTANCE_TRANSACTION_GET_INFO_FAILED "operation type is wrong")
      end
  else
    match ta_responses (oi_response o) with
    | [] => None
    | OPERATION_GET _ _ kvs :: _ =>
        match kvs with
        | [] => Some (error_result INSTANCE_TRANSACTION_GET_INFO_FAILED "get response KV is empty")
        | kv :: _ =>
            Some (mkResult (mkStatus INSTANCE_TRANSACTION_WRONG_VERSION "version is incorrect")
                    (kv_value kv) 0 (kv_mod_revision kv))
        end
    | _ :: _ => Some (error_result INSTANCE_TRANSACTION_GET_INFO_FAILED "operation type is wrong")
    end.

Definition OnForceDelete (o : OperateInfo) : OperateResult :=
  if IsError (ta_status (oi_response o)) then mkResult (ta_status (oi_response o)) "" 0 0
  else if bool_decide (length (ta_responses (oi_response o)) ≠ oi_keySize o) then
    mkResult (mkStatus INSTANCE_TRANSACTION_WRONG_RESPONSE_SIZE "")
      "the size of responses transaction return is incorrect" 0 0
  else mkResult StatusOK "" 0 (ta_revision (oi_response o)).

(** ** Transactions *)

(** A transaction on its way and how its answer is read. *)
Inductive Reader := ReadCreate | ReadModify | ReadDelete | ReadForceDelete.
Record Call := mkCall {
  cl_txn : TxnTransaction; cl_reader : Reader;
  cl_values : list string; cl_keySize : nat; cl_version : Z }.

Definition read_answer (c : Call) (a : TxnAnswer) : option OperateResult :=
  let o := mkOperate (cl_values c) (cl_keySize c) (cl_version c) a in
  match cl_reader c with
  | ReadCreate => Some (OnCreate o)
  | ReadModify => Some (OnModify o)
  | ReadDelete => OnDelete o
  | ReadForceDelete => Some (OnForceDelete o)
  end.

Definition missing_instance : OperateResult :=
  mkResult (mkStatus INSTANCE_TRANSACTION_WRONG_PARAMETER "") "instance info must be exist" 0 0.

(** [if (info != nullptr) f] *)
Definition given {A} (info : option StoreInfo) (f : StoreInfo → A → A) (a : A) : A :=
  match info with Some i => f i a | None => a end.

Definition getOption (limit : Z) : GetOption :=
  mkGetOption false false false limit ORDER_NONE SORT_KEY.

Definition Create (instanceInfo routeInfo : option StoreInfo) (isLowReliability : bool)
    : Call + OperateResult :=
  match instanceInfo with
  | None => inr missing_instance
  | Some inst =>
      let put := mkPutOption 0 false isLowReliability in
      let t := If (OfVersion (si_key inst) CMP_EQUAL 0) BeginTransaction in
      let t := given routeInfo (λ r, If (OfVersion (si_key r) CMP_EQUAL 0)) t in
      let t := Then (PutOp (si_key inst) (si_value inst) put) t in
      let t := given routeInfo (λ r, Then (PutOp (si_key r) (si_value r) put)) t in
      let t := Else (GetOp (si_key inst) (getOption 1)) t in
      let t := given routeInfo (λ r, Else (GetOp (si_key r) (getOption 1))) t in
      inl (mkCall t ReadCreate (si_value inst :: given routeInfo (λ r l, l ++ [si_value r]) [])
             (given routeInfo (λ _, S) 1%nat) 0)
  end.

Definition Modify (instanceInfo routeInfo : option StoreInfo) (version : Z) (isLowReliability : bool)
    : Call + OperateResult :=
  match instanceInfo with
  | None => inr missing_instance
  | Some inst =>
      let put := mkPutOption 0 false isLowReliability in
      let t := If (OfVersion (si_key inst) CMP_EQUAL version) BeginTransaction in
      let t := Then (PutOp (si_key inst) (si_value inst) put) t in
      let t := given routeInfo (λ r, Then (PutOp (si_key r) (si_value r) put)) t in
      let t := Else (GetOp (si_key inst) (getOption 1)) t in
      let t := given routeInfo (λ r, Else (GetOp (si_key r) (getOption 1))) t in
      inl (mkCall t ReadModify (si_value inst :: given routeInfo (λ r l, l ++ [si_value r]) [])
             (given routeInfo (λ _, S) 1%nat) version)
  end.

Definition Delete (instanceInfo routeInfo debugInstPutInfo : option StoreInfo) (version : Z)
    (isLowReliability : bool) : Call + OperateResult :=
  match instanceInfo with
  | None => inr missing_instance
  | Some inst =>
      let del := mkDeleteOption false false isLowReliability in
      let t := If (OfVersion (si_key inst) CMP_EQUAL version) BeginTransaction in
      let t := Then (DeleteOp (si_key inst) del) t in
      let t := given routeInfo (λ r, Then (DeleteOp (si_key r) del)) t in
      let t := given debugInstPutInfo (λ r, Then (DeleteOp (si_key r) del)) t in
      let t := Else (GetOp (si_key inst) (getOption 0)) t in
      inl (mkCall t ReadDelete [""]
             (given debugInstPutInfo (λ _, S) (given routeInfo (λ _, S) 1%nat)) version)
  end.

Definition ForceDelete (instanceInfo routeInfo debugInstPutInfo : option StoreInfo)
    (isLowReliability : bool) : Call + OperateResult :=
  match instanceInfo with
  | None => inr missing_instance
  | Some inst =>
      let del := mkDeleteOption false false isLowReliability in
      let both := λ r t, Else (DeleteOp (si_key r) del) (Then (DeleteOp (si_key r) del) t) in
      let t := If (OfValue (si_key inst) CMP_NOT_EQUAL "") BeginTransaction in
      let t := both inst t in
      let t := given routeInfo both t in
      let t := given debugInstPutInfo both t in
      inl (mkCall t ReadForceDelete [""]
             (given debugInstPutInfo (λ _, S) (given routeInfo (λ _, S) 1%nat)) 0)
  end.

(** The reading of a [Get] by [GetInstance]: its status, count and first
    key-value; a count without key-values cannot be read. *)
Definition OnGetInstance (status : Status) (count : Z) (kvs : list KeyValue) : option OperateResult :=
  if IsError status then Some (mkResult (mkStatus FAILED "") "" 0 0)
  else if bool_decide (count = 0) then Some (mkResult (mkStatus FAILED "") "" 0 0)
  else
    match kvs with
    | [] => None
    | kv :: _ => Some (mkResult StatusOK (kv_value kv) 0 (kv_mod_revision kv))
    end.

End Operator.
