(* ===== verification/InstanceMachine.v ===== *)
(** * The state machine of an instance
      ([function_proxy/common/state_machine/instance_state_machine.cpp],
      [instance_context.cpp])

    A proxy keeps one machine per instance: the last schedule request, with
    the instance record in it, and what the machine is doing to it.  A
    transition checks the state, prepares the new record and stores it in a
    transaction; the answer of the store is handled by a continuation, which
    the model keeps as a value ([Pending]).

    The schedule request a caller passes in is an object of its own: the
    machine copies it when it adopts it, and every caller passes a copy of the
    machine's. *)

From S2P Require Import Prelude StdStrings MetaTypes MetaClient InstanceTypes InstanceOp.
From Stdlib Require Import ZArith Lia.
From stdpp Require Import base gmap strings fin_maps list.

Open Scope Z_scope.

Module Machine.
Import InstanceState Operator.

Definition ERR_INSTANCE_NOT_FOUND : Z := 1003.
Definition ERR_INSTANCE_INFO_INVALID : Z := 1016.
Definition ERR_ETCD_OPERATION_ERROR : Z := 3005.
Definition ERR_STATE_MACHINE_ERROR : Z := 3010.
Definition ERR_LOCAL_SCHEDULER_ABNORMAL : Z := 3014.
Definition BP_META_STORAGE_DELETE_ERROR : Z := 10003.
Definition MAX_EXIT_TIMES : Z := 3.
Definition INVALID_LAST_SAVE_FAILED_STATE : Z := -1.
Definition ST_FAILED : Z := Prelude.FAILED.

(** ** [InstanceContext] *)
Record Context := mkContext {
  scheduleRequest_ : ScheduleRequest; modRevision_ : Z; cancelTag_ : option string }.
Definition NewContext (q : ScheduleRequest) : Context := mkContext q 0 None.
Definition info (c : Context) : InstanceInfo := sq_instance (scheduleRequest_ c).

Definition UpdateScheduleReq (q : ScheduleRequest) (c : Context) : Context :=
  mkContext q (modRevision_ c) (cancelTag_ c).
Definition ctx_info (f : InstanceInfo → InstanceInfo) (c : Context) : Context :=
  UpdateScheduleReq (set_instance (f (info c)) (scheduleRequest_ c)) c.
Definition ctx_UpdateInstanceInfo (i : InstanceInfo) : Context → Context := ctx_info (λ _, i).
Definition SetInstanceState (state errCode exitCode : Z) (msg : string) (type : Z)
    : Context → Context :=
  ctx_info (set_status (mkStat state exitCode msg type errCode)).
Definition ctx_SetVersion (v : Z) (c : Context) : Context :=
  if bool_decide (v ≠ 0) && (v <=? version (info c)) then c else ctx_info (set_version v) c.
Definition ctx_UpdateOwner (o : string) : Context → Context :=
  ctx_info (λ i, set_place (set_functionproxyid o (ii_at i)) i).
Definition ctx_SetModRevision (r : Z) (c : Context) : Context :=
  if modRevision_ c <? r then mkContext (scheduleRequest_ c) r (cancelTag_ c) else c.
Definition ctx_TagStop : Context → Context :=
  ctx_info (λ i, set_extensions (<["stop" := "true"]> (extensions i)) i).
Definition ctx_IsStopped (c : Context) : bool :=
  bool_decide (is_Some (extensions (info c) !! "stop")).
Definition ctx_IncreaseScheduleRound (c : Context) : Context :=
  let q := scheduleRequest_ c in
  UpdateScheduleReq (mkSchedReq (sq_instance q) (sq_requestid q)
    (to_uint32 (sq_scheduleround q + 1)) (sq_traceid q)) c.
Definition ctx_SetTraceID (t : string) (c : Context) : Context :=
  let q := scheduleRequest_ c in
  UpdateScheduleReq (mkSchedReq (sq_instance q) (sq_requestid q) (sq_scheduleround q) t) c.
Definition ctx_SetCheckpointed (b : bool) : Context → Context := ctx_info (set_ischeckpointed b).
(** A promise keeps the first value it is given. *)
Definition ctx_SetCancel (reason : string) (c : Context) : Context :=
  mkContext (scheduleRequest_ c) (modRevision_ c) (Some (default reason (cancelTag_ c))).

(** ** Transitions: what is asked for and what is answered *)
Record TransContext := mkTrans {
  newState : Z; tc_version : Z; tc_msg : string; persistence : bool;
  errCode : Z; exitCode : Z; tc_type : Z;
  scheduleReq : option ScheduleRequest;
  allowRunningRuntimeRefresh : bool; allowNetworkPolicyRefresh : bool; force : bool }.

Definition set_req (q : option ScheduleRequest) (t : TransContext) : TransContext :=
  mkTrans (newState t) (tc_version t) (tc_msg t) (persistence t) (errCode t) (exitCode t)
    (tc_type t) q (allowRunningRuntimeRefresh t) (allowNetworkPolicyRefresh t) (force t).

Record TransitionResult := mkTR {
  preState : option Z; savedInfo : InstanceInfo; previousInfo : InstanceInfo;
  tr_version : Z; tr_status : Status; tr_modRevision : Z }.

Definition refused (v c : Z) : TransitionResult :=
  mkTR None info_empty info_empty v (mkStatus c "") 0.

Inductive PersistenceType :=
  | PERSISTENT_NOT | PERSISTENT_INSTANCE | PERSISTENT_ROUTE | PERSISTENT_ALL.
#[global] Instance PersistenceType_eq_dec : EqDecision PersistenceType.
Proof. solve_decision. Defined.

(** ** Members *)
Inductive SavePromise := SaveNull | SavePending | SaveDone.

Record StateChangeCallback := mkCallback { statesConcerned : list Z; callback : string }.

Record State := mkState {
  owner_ : string;
  instanceID_ : string;
  isLocalAbnormal_ : bool;
  lastSaveFailedState_ : Z * Z;
  instanceContext_ : option Context;
  stateChangeCallbacks_ : gmap string StateChangeCallback;
  savePromise_ : SavePromise;
  exitTimes_ : Z;
  isUpdateByRouteInfo_ : bool;
  isMetaStoreEnable_ : bool;
  isWatching_ : bool;
}.

Definition set_ctx (c : option Context) (s : State) : State :=
  mkState (owner_ s) (instanceID_ s) (isLocalAbnormal_ s) (lastSaveFailedState_ s) c
    (stateChangeCallbacks_ s) (savePromise_ s) (exitTimes_ s) (isUpdateByRouteInfo_ s)
    (isMetaStoreEnable_ s) (isWatching_ s).
Definition set_abnormal (b : bool) (s : State) : State :=
  mkState (owner_ s) (instanceID_ s) b (lastSaveFailedState_ s) (instanceContext_ s)
    (stateChangeCallbacks_ s) (savePromise_ s) (exitTimes_ s) (isUpdateByRouteInfo_ s)
    (isMetaStoreEnable_ s) (isWatching_ s).
Definition set_lastFailed (p : Z * Z) (s : State) : State :=
  mkState (owner_ s) (instanceID_ s) (isLocalAbnormal_ s) p (instanceContext_ s)
    (stateChangeCallbacks_ s) (savePromise_ s) (exitTimes_ s) (isUpdateByRouteInfo_ s)
    (isMetaStoreEnable_ s) (isWatching_ s).
Definition set_callbacks (m : gmap string StateChangeCallback) (s : State) : State :=
  mkState (owner_ s) (instanceID_ s) (isLocalAbnormal_ s) (lastSaveFailedState_ s)
    (instanceContext_ s) m (savePromise_ s) (exitTimes_ s) (isUpdateByRouteInfo_ s)
    (isMetaStoreEnable_ s) (isWatching_ s).
Definition set_promise (p : SavePromise) (s : State) : State :=
  mkState (owner_ s) (instanceID_ s) (isLocalAbnormal_ s) (lastSaveFailedState_ s)
    (instanceContext_ s) (stateChangeCallbacks_ s) p (exitTimes_ s) (isUpdateByRouteInfo_ s)
    (isMetaStoreEnable_ s) (isWatching_ s).
Definition set_exitTimes (n : Z) (s : State) : State :=
  mkState (owner_ s) (instanceID_ s) (isLocalAbnormal_ s) (lastSaveFailedState_ s)
    (instanceContext_ s) (stateChangeCallbacks_ s) (savePromise_ s) n (isUpdateByRouteInfo_ s)
    (isMetaStoreEnable_ s) (isWatching_ s).
Definition set_updateByRoute (b : bool) (s : State) : State :=
  mkState (owner_ s) (instanceID_ s) (isLocalAbnormal_ s) (lastSaveFailedState_ s)
    (instanceContext_ s) (stateChangeCallbacks_ s) (savePromise_ s) (exitTimes_ s) b
    (isMetaStoreEnable_ s) (isWatching_ s).
Definition set_watching (b : bool) (s : State) : State :=
  mkState (owner_ s) (instanceID_ s) (isLocalAbnormal_ s) (lastSaveFailedState_ s)
    (instanceContext_ s) (stateChangeCallbacks_ s) (savePromise_ s) (exitTimes_ s)
    (isUpdateByRouteInfo_ s) (isMetaStoreEnable_ s) b.

(** The constructor; the promise it makes is set at once. *)
Definition make (nodeID : string) (context : option Context) (isMetaStoreEnable : bool) : State :=
  mkState nodeID (from_option (λ c, instanceid (ii_id (info c))) "" context) false
    (INVALID_LAST_SAVE_FAILED_STATE, INVALID_LAST_SAVE_FAILED_STATE) context ∅ SaveDone 0 false
    isMetaStoreEnable false.

(** ** A write on its way *)
Record Pending := mkPending {
  pd_new : InstanceInfo; pd_prev : InstanceInfo; pd_oldState : Z; pd_context : TransContext;
  pd_refresh : bool;        (* runningFailoverRefresh *)
  pd_first : bool;          (* a Create, not a Modify *)
  pd_resolve : bool;        (* resolveRouteConflict *)
  pd_call : Call + OperateResult }.

(** ** What a machine does to others *)
Inductive Out :=
  | PutInstanceEvent (i : InstanceInfo) (modRevision : Z)
  | DelInstanceEvent (instanceID : string) (modRevision : Z)
  | WatchInstance (instanceID : string) (revision : Z)
  | CancelWatchInstance (instanceID : string)
  | SetBillingInstanceEndTime (instanceID : string)
  | RunCallback (callback : string) (i : InstanceInfo)
  | RunExitHandler (i : InstanceInfo)
  | RunExitFailedHandler (r : TransitionResult)
  | SavePromiseSet.

Abbreviation M := (Act State Out).

(** The process-wide settings: direct routing, forced low reliability, the
    observer and the exit handler that were bound. *)
Record Settings := mkSettings {
  DirectRouting : bool; ForceLow : bool; controlPlaneObserver_ : bool; exitHandler_ : bool }.

Section machine.
Context {J : InstanceJson} (Sha256Hex : string → string) (cfg : Settings).

Definition low (i : InstanceInfo) : bool := IsLowReliabilityInstance (ForceLow cfg) i.

(** ** Which transitions may skip the state check *)

(** The fields of a placement that a resumed instance keeps. *)
Definition same_place (a b : InstanceInfo) : bool :=
  bool_decide (functionproxyid (ii_at a) = functionproxyid (ii_at b))
  && bool_decide (runtimeid (ii_at a) = runtimeid (ii_at b))
  && bool_decide (runtimeaddress (ii_at a) = runtimeaddress (ii_at b))
  && bool_decide (functionagentid (ii_at a) = functionagentid (ii_at b))
  && bool_decide (containerid (ii_at a) = containerid (ii_at b))
  && bool_decide (containerip (ii_at a) = containerip (ii_at b))
  && bool_decide (unitid (ii_at a) = unitid (ii_at b))
  && bool_decide (executortype (ii_at a) = executortype (ii_at b))
  && bool_decide (starttime (ii_at a) = starttime (ii_at b))
  && bool_decide (proxygrpcaddress (ii_at a) = proxygrpcaddress (ii_at b)).

Definition same_names (a b : InstanceInfo) : bool :=
  bool_decide (instanceid (ii_id a) = instanceid (ii_id b))
  && bool_decide (requestid (ii_id a) = requestid (ii_id b))
  && bool_decide (tenantid (ii_id a) = tenantid (ii_id b)).

Definition IsResumeSnapshotCleanup (t : TransContext) (current : InstanceInfo) : bool :=
  match scheduleReq t, snapshotinfo current with
  | Some q, Some snap =>
      let candidate := sq_instance q in
      bool_decide (newState t = RUNNING) && bool_decide (code current = RUNNING)
      && bool_decide (tc_version t = version current) && IsCompleteReadySnapshot snap
      && bool_decide (snapshotinfo candidate = None) && same_names candidate current
      && bool_decide (version candidate = version current) && same_place candidate current
      && bool_decide (runtimeid (ii_at candidate)
           = RuntimeID Sha256Hex (instanceid (ii_id current)) (sq_requestid q))
  | _, _ => false
  end.

Definition IsRunningFailoverRefresh (t : TransContext) (current : InstanceInfo) : bool :=
  match scheduleReq t with
  | None => false
  | Some q =>
      let candidate := sq_instance q in
      bool_decide (newState t = RUNNING)
      && (bool_decide (code current = RUNNING) || bool_decide (code current = EVICTED))
      && bool_decide (tc_version t = version current)
      && (failover current || allowRunningRuntimeRefresh t)
      && bool_decide (failover candidate = failover current)
      && bool_decide (code candidate = RUNNING) && same_names candidate current
      && bool_decide (functionproxyid (ii_at candidate) = functionproxyid (ii_at current))
      && bool_decide (functionagentid (ii_at candidate) = functionagentid (ii_at current))
      && bool_decide (version candidate = version current)
      && bool_decide (runtimeid (ii_at candidate) ≠ "")
      && bool_decide (runtimeid (ii_at candidate) ≠ runtimeid (ii_at current))
  end.

Definition without_policy (i : InstanceInfo) : InstanceInfo :=
  set_createoptions (delete CONTAINER_NETWORK_POLICY (createoptions i)) i.

Definition IsNetworkPolicyRefresh (t : TransContext) (current : InstanceInfo) : bool :=
  match scheduleReq t with
  | None => false
  | Some q =>
      allowNetworkPolicyRefresh t && bool_decide (newState t = code current)
      && bool_decide (tc_version t = version current)
      && bool_decide (without_policy current = without_policy (sq_instance q))
  end.

(** ** What is stored, and how *)
Definition GetPersistenceType (i : InstanceInfo) (isMetaStoreEnable : bool) : PersistenceType :=
  let state := code i in
  let early := bool_decide (state = SCHEDULING) || bool_decide (state = CREATING) in
  if DirectRouting cfg && early then PERSISTENT_NOT
  else
    let needPersistentRoute := NeedUpdateRouteState state isMetaStoreEnable in
    if low i then
      if ForceLow cfg && early then PERSISTENT_NOT
      else if needPersistentRoute then PERSISTENT_ALL else PERSISTENT_NOT
    else if needPersistentRoute || negb isMetaStoreEnable then PERSISTENT_ALL
    else PERSISTENT_INSTANCE.

Definition stores_instance (p : PersistenceType) : bool :=
  bool_decide (p = PERSISTENT_INSTANCE) || bool_decide (p = PERSISTENT_ALL).
Definition stores_route (p : PersistenceType) : bool :=
  bool_decide (p = PERSISTENT_ROUTE) || bool_decide (p = PERSISTENT_ALL).

(** The put informations, [None] where the code leaves a null pointer; the
    outer [None] is the status [FAILED]. *)
Definition TransToStoredKeys (i : InstanceInfo) (p : PersistenceType)
    : option (option StoreInfo * option StoreInfo) :=
  inst ← (if stores_instance p then
            k ← key_of (ii_id i); Some (Some (mkStoreInfo k ""))
          else Some None);
  Some (inst,
    if stores_route p then Some (mkStoreInfo (GenInstanceRouteKey (instanceid (ii_id i))) "")
    else None).

Definition TransInstanceInfo (i : InstanceInfo) : option StoreInfo :=
  k ← key_of (ii_id i); v ← to_json i; Some (mkStoreInfo k v).
Definition TransRouteInfo (i : InstanceInfo) : option StoreInfo :=
  v ← to_json (TransToRouteInfoFromInstanceInfo i);
  Some (mkStoreInfo (GenInstanceRouteKey (instanceid (ii_id i))) v).

Definition TransToStoredData (i : InstanceInfo) (p : PersistenceType)
    : option (option StoreInfo * option StoreInfo) :=
  inst ← (if stores_instance p then x ← TransInstanceInfo i; Some (Some x) else Some None);
  route ← (if stores_route p then x ← TransRouteInfo i; Some (Some x) else Some None);
  Some (inst, route).

Definition IsInitialLowReliabilityRunningPersistence (i : InstanceInfo) (oldState v : Z) : bool :=
  negb (DirectRouting cfg) && low i && bool_decide (oldState = CREATING)
  && bool_decide (code i = RUNNING) && bool_decide (v = 0) && bool_decide (groupid (ii_id i) = "")
  && negb (IsAppDriver (createoptions i)) && negb (IsStaticFunctionInstance i)
  && bool_decide (snapshotinfo i = None) && negb (ischeckpointed i)
  && negb (IsRuntimeRecoverEnable i).

Definition IsFirstPersistence (i : InstanceInfo) (oldState v : Z) : bool :=
  if DirectRouting cfg then bool_decide (v = 0)
  else
    bool_decide (oldState = NEW)
    || (bool_decide (oldState = SCHEDULING) && bool_decide (groupid (ii_id i) ≠ "")
        && bool_decide (v = 0))
    || IsInitialLowReliabilityRunningPersistence i oldState v.

(** ** Callbacks and notifications *)

(** [order] is the order in which the unordered map is walked. *)
Definition ExecuteStateChangeCallback
    (order : gmap string StateChangeCallback → list (string * StateChangeCallback))
    (newState : Z) : M unit :=
  s ← members;
  match instanceContext_ s with
  | None => mret tt
  | Some c =>
      for_each (order (stateChangeCallbacks_ s)) (λ p,
        act_when (in_states (statesConcerned p.2) newState)
          (post (RunCallback (callback p.2) (info c)) ≫= λ _,
           modify (λ s, set_callbacks (delete p.1 (stateChangeCallbacks_ s)) s)))
  end.

(** [uuid] is the key made up for an empty one; [emplace] keeps an entry that
    is there. *)
Definition AddStateChangeCallback (uuid : string) (states : list Z) (cb eventKey : string) : M unit :=
  s ← members;
  match instanceContext_ s with
  | None => mret tt
  | Some c =>
      if in_states states (code (info c)) then post (RunCallback cb (info c))
      else
        let key := if bool_decide (eventKey = "") then uuid else eventKey in
        modify (λ s, set_callbacks
          (match stateChangeCallbacks_ s !! key with
           | Some _ => stateChangeCallbacks_ s
           | None => <[key := mkCallback states cb]> (stateChangeCallbacks_ s)
           end) s)
  end.

Definition DeleteStateChangeCallback (eventKey : string) : M unit :=
  if bool_decide (eventKey = "") then mret tt
  else modify (λ s, set_callbacks (delete eventKey (stateChangeCallbacks_ s)) s).

Definition HasStateChangeCallback (s : State) (eventKey : string) : bool :=
  if bool_decide (eventKey = "") then false
  else bool_decide (is_Some (stateChangeCallbacks_ s !! eventKey)).

Definition PublishToLocalObserver (i : InstanceInfo) (modRevision : Z) : M unit :=
  act_when (controlPlaneObserver_ cfg) (post (PutInstanceEvent i modRevision)).
Definition PublishDeleteToLocalObserver (instanceID : string) : M unit :=
  s ← members;
  act_when (controlPlaneObserver_ cfg)
    (post (DelInstanceEvent instanceID (from_option modRevision_ 0 (instanceContext_ s)))).

Definition ExitInstance : M unit :=
  s ← members;
  match instanceContext_ s with
  | Some c => act_when (exitHandler_ cfg) (post (RunExitHandler (info c)))
  | None => mret tt
  end.

Definition SetInstanceBillingTerminated (newState : Z) : M unit :=
  s ← members;
  act_when (bool_decide (newState = FATAL) || bool_decide (newState = FAILED))
    (post (SetBillingInstanceEndTime (instanceID_ s))).

(** ** Saving *)
Definition NewSavingPomise : M unit := modify (set_promise SavePending).
Definition TagSaved : M unit :=
  s ← members;
  match savePromise_ s with
  | SaveNull => mret tt
  | _ => post SavePromiseSet ≫= λ _, modify (set_promise SaveNull)
  end.
Definition IsSaving (s : State) : bool :=
  match savePromise_ s with SavePending => true | _ => false end.

Definition SetLastSaveFailedState (state err : Z) : M unit := modify (set_lastFailed (state, err)).

(** ** The check of the new state *)
Definition FORCE_FATAL_ALLOWED_SOURCES : list Z := [NEW; SCHEDULING; CREATING].

Definition VerifyTransitionState (t : TransContext) (oldState : Z) : M TransitionResult :=
  match next_states oldState with
  | None => mret (refused 0 ERR_STATE_MACHINE_ERROR)
  | Some nextStateList =>
      if bool_decide (oldState = EXITING) then
        ExitInstance ≫= λ _, mret (refused 0 ERR_STATE_MACHINE_ERROR)
      else
        let listed := in_states nextStateList (newState t) in
        let forced := force t && bool_decide (newState t = FATAL) in
        if negb listed && forced && negb (in_states FORCE_FATAL_ALLOWED_SOURCES oldState) then
          mret (mkTR None info_empty info_empty 0 StatusOK 0)
        else if negb listed && negb forced then mret (refused 0 ERR_STATE_MACHINE_ERROR)
        else
          s ← members;
          if isLocalAbnormal_ s then mret (refused 0 ERR_LOCAL_SCHEDULER_ABNORMAL)
          else mret (mkTR (Some oldState) info_empty info_empty 0 StatusOK 0)
  end.

(** ** The new record *)
Definition paused_placement (p : Placement) : Placement :=
  mkPlacement INSTANCE_MANAGER_OWNER "" "" "" "" "" "" "" (executortype p) (starttime p).
Definition paused_info (i : InstanceInfo) : InstanceInfo :=
  set_extensions (delete PORT_FORWARD_KEY (extensions i)) (set_place (paused_placement (ii_at i)) i).

(** The context with its updated request, the new record and the previous
    one.  [IsFirstPersistence] is given the record that is still to be filled,
    an empty one. *)
Definition PrepareTransitionInfo (stamp : string) (t : TransContext) (c : Context)
    : Context * TransContext * InstanceInfo * InstanceInfo :=
  let err := if bool_decide (errCode t = 0) then is_errcode (instancestatus (info c)) else errCode t in
  let paused := bool_decide (newState t = PAUSED) in
  match scheduleReq t with
  | Some q =>
      let st := mkStat (newState t) (exitCode t) (tc_msg t) (tc_type t) err in
      let i := set_status st (sq_instance q) in
      let i := if IsFirstPersistence info_empty (code (info c)) (tc_version t)
               then set_extensions (<[CREATE_TIME_STAMP := stamp]> (extensions i)) i else i in
      let i := if paused then paused_info i else i in
      (c, set_req (Some (set_instance i q)) t, i, info c)
  | None =>
      let c' := SetInstanceState (newState t) err (exitCode t) (tc_msg t) (tc_type t) c in
      let i := if paused then paused_info (info c') else info c' in
      (if paused then ctx_UpdateInstanceInfo i c' else c', t, i, info c)
  end.

Definition UpdateInstanceVersion (t : TransContext) (c : Context)
    : Context * TransContext * InstanceInfo :=
  let v := tc_version t + 1 in
  match scheduleReq t with
  | Some q =>
      let i := set_version v (sq_instance q) in
      (c, set_req (Some (set_instance i q)) t, i)
  | None =>
      let c' := ctx_SetVersion v c in
      (c', t, info c')
  end.

(** ** Writing to the store *)

(** The continuations of a stored write.  [inr] asks for the route of the
    instance before the result is known. *)
Definition publish_saved (p : Pending) (modRevision : Z) (changed : bool) : M unit :=
  act_when (persistence (pd_context p) && changed)
    (PublishToLocalObserver (pd_new p) modRevision) ≫= λ _,
  s ← members;
  act_when (controlPlaneObserver_ cfg && negb (isWatching_ s))
    (post (WatchInstance (instanceid (ii_id (pd_new p))) modRevision) ≫= λ _,
     modify (set_watching true)).

Definition OnCreated (p : Pending) (result : OperateResult) : M (TransitionResult + string) :=
  if IsOk (or_status result) then
    publish_saved p (or_currentModRevision result)
      (bool_decide (pd_oldState p ≠ newState (pd_context p))) ≫= λ _,
    mret (inl (mkTR (Some (pd_oldState p)) info_empty (pd_prev p) (or_preKeyVersion result + 1)
                 StatusOK (or_currentModRevision result)))
  else if pd_resolve p &&
      bool_decide (st_code (or_status result) = INSTANCE_TRANSACTION_WRONG_VERSION) then
    mret (inr (GenInstanceRouteKey (instanceid (ii_id (pd_new p)))))
  else
    mret (inl (mkTR None (default info_empty (of_json (or_value result))) (pd_prev p) 0
                 (or_status result) 0)).

Definition OnModified (p : Pending) (result : OperateResult) : M TransitionResult :=
  if IsOk (or_status result) then
    publish_saved p (or_currentModRevision result)
      (bool_decide (pd_oldState p ≠ newState (pd_context p)) || pd_refresh p
       || allowNetworkPolicyRefresh (pd_context p)) ≫= λ _,
    mret (mkTR (Some (pd_oldState p)) info_empty (pd_prev p) (tc_version (pd_context p) + 1)
            StatusOK (or_currentModRevision result))
  else
    s ← members;
    act_when (negb (bool_decide ((lastSaveFailedState_ s).1 = EXITED)))
      (SetLastSaveFailedState (code (pd_new p)) (is_errcode (instancestatus (pd_new p)))) ≫= λ _,
    mret (mkTR None (default info_empty (of_json (or_value result))) (pd_prev p) 0
            (or_status result) 0).

(** The read of the winner's route, [None] when the future failed. *)
Definition reusable_route (i : InstanceInfo) (r : RouteInfo) : bool :=
  bool_decide (instanceid (ri_id r) = instanceid (ii_id i))
  && bool_decide (function (ri_id r) = function (ii_id i))
  && bool_decide (tenantid (ri_id r) = tenantid (ii_id i))
  && bool_decide (issystemfunc (ri_id r) = issystemfunc (ii_id i))
  && bool_decide (is_code (ri_status r) = RUNNING)
  && bool_decide (requestid (ri_id r) ≠ "") && bool_decide (ri_functionproxyid r ≠ "").

Definition ResolveInitialLowReliabilityCreateConflict (p : Pending) (createStatus : Status)
    (routeFuture : option OperateResult) : TransitionResult :=
  let conflictResult := mkTR None info_empty (pd_prev p) 0 createStatus 0 in
  match routeFuture with
  | None => conflictResult
  | Some result =>
      if IsError (or_status result) then conflictResult
      else
        match (of_json (or_value result) : option RouteInfo) with
        | None => conflictResult
        | Some r =>
            if reusable_route (pd_new p) r then
              mkTR None (TransToInstanceInfoFromRouteInfo r) (pd_prev p) 0 createStatus
                (or_currentModRevision result)
            else conflictResult
        end
  end.

(** The first half of [SaveInstanceInfoToMetaStore]: the call of the store
    with its continuation, or a result at once. *)
Definition SaveInstanceInfoToMetaStore (metaStore : bool) (new prev : InstanceInfo) (oldState : Z)
    (t : TransContext) (refresh : bool) : Pending + TransitionResult :=
  match TransToStoredData new (GetPersistenceType new metaStore) with
  | None => inr (mkTR None info_empty prev 0 (mkStatus ERR_INSTANCE_INFO_INVALID "") 0)
  | Some (inst, route) =>
      let first := IsFirstPersistence new oldState (tc_version t) in
      let resolve := first && IsInitialLowReliabilityRunningPersistence new oldState (tc_version t) in
      inl (mkPending new prev oldState t refresh first resolve
        (if first then Create inst route (low new)
         else Modify inst route (tc_version t) (low new)))
  end.

(** The continuation of [PersistenceInstanceInfo]; [req] is what the caller's
    request object holds by then. *)
Definition OnPersisted (req : option ScheduleRequest) (result : TransitionResult)
    : M TransitionResult :=
  (if IsOk (tr_status result) then
     match req with
     | Some q =>
         modify (λ s, set_ctx (ctx_SetModRevision (tr_modRevision result) ∘ UpdateScheduleReq q <$>
           instanceContext_ s) s)
     | None => mret tt
     end
   else mret tt) ≫= λ _,
  TagSaved ≫= λ _,
  mret result.

(** A transition: its result when it is known, or the write or the read of a
    route the machine waits for. *)
Inductive Transition :=
  | Ready (r : TransitionResult)
  | Saving (p : Pending) (c : Call)
  | ReadingRoute (p : Pending) (createStatus : Status).

(** The store has answered a write. *)
Definition OnOperated (p : Pending) (req : option ScheduleRequest) (result : OperateResult)
    : M Transition :=
  x ← (if pd_first p then OnCreated p result else r ← OnModified p result; mret (inl r));
  match x with
  | inl r => r' ← OnPersisted req r; mret (Ready r')
  | inr _ => mret (ReadingRoute p (or_status result))
  end.

(** The store has answered the read of a route. *)
Definition OnRouteRead (p : Pending) (req : option ScheduleRequest) (createStatus : Status)
    (routeFuture : option OperateResult) : M Transition :=
  r ← OnPersisted req (ResolveInitialLowReliabilityCreateConflict p createStatus routeFuture);
  mret (Ready r).

Definition PersistenceInstanceInfo (new prev : InstanceInfo) (oldState : Z) (t : TransContext)
    (refresh : bool) : M Transition :=
  NewSavingPomise ≫= λ _,
  s ← members;
  match SaveInstanceInfoToMetaStore (isMetaStoreEnable_ s) new prev oldState t refresh with
  | inl p =>
      match pd_call p with
      | inl c => mret (Saving p c)
      | inr result => OnOperated p (scheduleReq t) result
      end
  | inr result => r ← OnPersisted (scheduleReq t) result; mret (Ready r)
  end.

(** ** [TransitionTo]; [stamp] is the time as a string. *)

(** From the preparation of the record on. *)
Definition Transit (stamp : string) (t : TransContext) (c : Context) (oldState : Z)
    (refresh : bool) : M Transition :=
  SetInstanceBillingTerminated (newState t) ≫= λ _,
  let '(c1, t1, i1, prev) := PrepareTransitionInfo stamp t c in
  modify (set_ctx (Some c1)) ≫= λ _,
  s ← members;
  if negb (persistence t)
     || bool_decide (GetPersistenceType i1 (isMetaStoreEnable_ s) = PERSISTENT_NOT) then
    match scheduleReq t1 with
    | Some q => modify (set_ctx (Some (UpdateScheduleReq q c1)))
    | None => mret tt
    end ≫= λ _,
    act_when (lowreliability i1 && bool_decide (newState t = CREATING))
      (PublishToLocalObserver i1 0) ≫= λ _,
    mret (Ready (mkTR (Some oldState) info_empty prev (tc_version t) StatusOK 0))
  else
    let '(c2, t2, i2) := UpdateInstanceVersion t1 c1 in
    modify (set_ctx (Some c2)) ≫= λ _,
    let i3 := if low i2 || bool_decide (newState t = FATAL) then clear_args i2 else i2 in
    let i4 := set_extensions (<["updateTimestamp" := stamp]> (extensions i3)) i3 in
    PersistenceInstanceInfo i4 prev oldState t2 refresh.

Definition TransitionTo (stamp : string) (t : TransContext) : M Transition :=
  s ← members;
  match instanceContext_ s with
  | None => mret (Ready (refused 0 ERR_STATE_MACHINE_ERROR))
  | Some c =>
      let oldState := code (info c) in
      let resumeSnapshotCleanup := IsResumeSnapshotCleanup t (info c) in
      let runningFailoverRefresh := IsRunningFailoverRefresh t (info c) in
      let networkPolicyRefresh := IsNetworkPolicyRefresh t (info c) in
      let unchecked := resumeSnapshotCleanup || runningFailoverRefresh || networkPolicyRefresh in
      if allowNetworkPolicyRefresh t && negb networkPolicyRefresh then
        mret (Ready (refused (version (info c)) ERR_STATE_MACHINE_ERROR))
      else if bool_decide (newState t = oldState) && negb (bool_decide (oldState = EXITING))
              && negb unchecked then
        mret (Ready (mkTR (Some oldState) info_empty info_empty (version (info c)) StatusOK 0))
      else if unchecked then Transit stamp t c oldState runningFailoverRefresh
      else
        verifyResult ← VerifyTransitionState t oldState;
        match preState verifyResult with
        | None => mret (Ready verifyResult)
        | Some _ => Transit stamp t c oldState runningFailoverRefresh
        end
  end.

(** ** Deleting *)

(** A deletion: answered at once, or waiting for the store. *)
Inductive Deletion := Deleted (st : Status) | Deleting (c : Call).

Definition debug_info (i : InstanceInfo) : option StoreInfo :=
  if IsDebugInstance (createoptions i)
  then Some (mkStoreInfo (DEBUG_INSTANCE_PREFIX +:+ instanceid (ii_id i)) "") else None.

(** The continuations of [Delete] and [ForceDelete]. *)
Definition OnForceDeleted (result : OperateResult) : M Status :=
  if IsOk (or_status result) then mret StatusOK
  else
    act_when (TransactionFailedForEtcd (st_code (or_status result)))
      (SetLastSaveFailedState EXITED INVALID_LAST_SAVE_FAILED_STATE) ≫= λ _,
    mret (mkStatus BP_META_STORAGE_DELETE_ERROR "failed to delete key").
Definition OnDeleted (instanceID : string) (result : OperateResult) : M Status :=
  if IsOk (or_status result) then
    act_when (controlPlaneObserver_ cfg) (post (CancelWatchInstance instanceID)) ≫= λ _,
    mret StatusOK
  else OnForceDeleted result.

Definition DelInstance order (instanceID : string) : M Deletion :=
  s ← members;
  match instanceContext_ s with
  | None => mret (Deleted (mkStatus ST_FAILED "failed to delete instance, not found context."))
  | Some c =>
      let i := info c in
      ExecuteStateChangeCallback order EXITED ≫= λ _,
      if bool_decide (owner i = owner_ s) then
        match TransToStoredKeys i (GetPersistenceType i (isMetaStoreEnable_ s)) with
        | None => mret (Deleted (mkStatus ST_FAILED ""))
        | Some (inst, route) =>
            match Delete inst route (debug_info i) (version i) (low i) with
            | inl call => mret (Deleting call)
            | inr result => st ← OnDeleted instanceID result; mret (Deleted st)
            end
        end
      else mret (Deleted (mkStatus ST_FAILED ""))
  end.

Definition ForceDelInstance : M Deletion :=
  s ← members;
  match instanceContext_ s with
  | None => mret (Deleted (mkStatus ST_FAILED ""))
  | Some c =>
      let i := info c in
      match TransToStoredKeys i PERSISTENT_ALL with
      | None => mret (Deleted (mkStatus ST_FAILED ""))
      | Some (inst, route) =>
          match ForceDelete inst route (debug_info i) (low i) with
          | inl call => mret (Deleting call)
          | inr result => st ← OnForceDeleted result; mret (Deleted st)
          end
      end
  end.

(** ** Exiting *)

(** What [TryExitInstance] has told the promise of its caller, if anything,
    and how it goes on. *)
Inductive Exit :=
  | Exited (promise : option Status) (st : Status)
  | ExitTransition (tr : Transition) (exitTimes : Z) (isSynchronized : bool).

(** [killReq] is the request of the context the kill was made with. *)
Definition TryExitInstance (stamp : string) (killReq : ScheduleRequest) (isSynchronized : bool)
    : M Exit :=
  s ← members;
  match instanceContext_ s with
  | None => mret (Exited None (mkStatus ERR_INSTANCE_NOT_FOUND "instance info can not find"))
  | Some c =>
      let oldState := code (sq_instance killReq) in
      if bool_decide (oldState ≠ code (info c)) then
        mret (Exited
          (Some (mkStatus ERR_INSTANCE_INFO_INVALID "failed to exit instance, state is inconsistent"))
          (mkStatus ERR_INSTANCE_INFO_INVALID "instance state is inconsistent"))
      else if bool_decide (code (info c) = EXITING) then
        ExitInstance ≫= λ _,
        mret (Exited
          (Some (if isSynchronized then mkStatus ST_FAILED "instance is exiting" else StatusOK))
          (mkStatus ERR_INSTANCE_INFO_INVALID "instance is exiting, not handle."))
      else
        modify (set_exitTimes (exitTimes_ s + 1)) ≫= λ _,
        tr ← TransitionTo stamp (mkTrans EXITING (version (info c)) "exiting" true 0 0 0
               (Some killReq) false false false);
        mret (ExitTransition tr (exitTimes_ s + 1) isSynchronized)
  end.

(** Its continuation.  [i] is the record when the exit began; the promise of a
    synchronized exit is set when the exit handler completes. *)
Definition OnExitTransition (i : InstanceInfo) (exitTimes : Z) (isSynchronized : bool)
    (result : TransitionResult) : M (option Status * Status) :=
  if bool_decide (tr_version result = 0) && (exitTimes <=? MAX_EXIT_TIMES) then
    let st := mkStatus ERR_ETCD_OPERATION_ERROR
                ("failed to transition to exiting, err: " +:+ st_msg (tr_status result)) in
    post (RunExitFailedHandler result) ≫= λ _, mret (Some st, st)
  else if exitHandler_ cfg then
    post (RunExitHandler i) ≫= λ _,
    mret (if isSynchronized then None else Some StatusOK, StatusOK)
  else
    let st := mkStatus ERR_STATE_MACHINE_ERROR "failed to exit instance, exit handler is null" in
    mret (Some st, st).

(** ** Reading the stored record ([SyncInstanceFromMetaStore]): the key that is
    read, and the record in the answer; [None] is a failed future. *)
Definition sync_key (s : State) : option string := c ← instanceContext_ s; key_of (ii_id (info c)).
Definition OnSync (result : option OperateResult) : option InstanceInfo :=
  r ← result; if IsError (or_status r) then None else of_json (or_value r).

(** ** Other changes of the members *)
Definition on_ctx (f : Context → Context) : M unit :=
  modify (λ s, set_ctx (f <$> instanceContext_ s) s).

Definition UpdateInstanceContext (c : option Context) : M unit := modify (set_ctx c).
Definition UpdateOwner (o : string) : M unit := on_ctx (ctx_UpdateOwner o).
Definition ReleaseOwner : M unit := on_ctx (ctx_UpdateOwner "").
Definition UpdateInstanceInfo order (i : InstanceInfo) : M unit :=
  s ← members;
  match instanceContext_ s with
  | None => mret tt
  | Some _ => on_ctx (ctx_UpdateInstanceInfo i) ≫= λ _, ExecuteStateChangeCallback order (code i)
  end.
Definition SetVersion (v : Z) : M unit := on_ctx (ctx_SetVersion v).
Definition SetModRevision (r : Z) : M unit := on_ctx (ctx_SetModRevision r).
Definition SetLocalAbnormal : M unit := modify (set_abnormal true).
Definition SetCheckpointed (b : bool) : M unit := on_ctx (ctx_SetCheckpointed b).
Definition IncreaseScheduleRound : M unit := on_ctx ctx_IncreaseScheduleRound.
Definition SetTraceID (t : string) : M unit := on_ctx (ctx_SetTraceID t).
Definition TagStop : M unit := on_ctx ctx_TagStop.
Definition SetCancel (reason : string) : M unit := on_ctx (ctx_SetCancel reason).
Definition ResetLastSaveFailedState : M unit :=
  modify (set_lastFailed (INVALID_LAST_SAVE_FAILED_STATE, INVALID_LAST_SAVE_FAILED_STATE)).
Definition SetUpdateByRouteInfo : M unit := modify (set_updateByRoute true).

Definition GetOwner (s : State) : string := from_option (owner ∘ info) "" (instanceContext_ s).
Definition GetInstanceState (s : State) : Z := from_option (code ∘ info) 0 (instanceContext_ s).
Definition GetVersion (s : State) : Z := from_option (version ∘ info) 0 (instanceContext_ s).
Definition GetModRevision (s : State) : Z := from_option modRevision_ 0 (instanceContext_ s).
Definition GetInstanceInfo (s : State) : InstanceInfo :=
  from_option info info_empty (instanceContext_ s).

End machine.
End Machine.
