(* ===== verification/InstanceCtrl.v ===== *)
(** * Transitions as the local scheduler makes them
      ([InstanceCtrlActor::TransInstanceState],
      [local_scheduler/instance_control/instance_ctrl_actor.cpp])

    The actor makes one transition of a machine at a time: while a record is
    being stored it waits for the promise of the machine.  When the store
    refuses, it rolls the machine back to the previous record, or adopts the
    record that is stored. *)

From S2P Require Import Prelude StdStrings MetaTypes MetaClient InstanceTypes InstanceOp InstanceMachine.
From Stdlib Require Import ZArith Lia.
From stdpp Require Import base gmap strings fin_maps list.

Open Scope Z_scope.

(** A handler whose messages are some of those of a larger actor. *)
Definition inject {S W W' A} (f : W → W') (m : Act S W A) : Act S W' A :=
  λ s, (val m s, exec m s, f <$> outs m s).

Module Ctrl.
Import InstanceState Operator Machine.

Inductive Out :=
  | ByMachine (o : Machine.Out)
  | StaticPutInstanceEvent (i : InstanceInfo) (modRevision : Z)
  | DeleteInstanceForStaticFunction (i : InstanceInfo)
  | OnInstanceRunning (i : InstanceInfo)
  | RegisterTraefikRoute (i : InstanceInfo).

Abbreviation C := (Act Machine.State Out).

(** The members of the actor a transition uses; [idleMgr_] and
    [traefikRegistry_] are whether they are set. *)
Record Actor := mkActor { nodeID_ : string; idleMgr_ : bool; traefikRegistry_ : bool }.

(** What the continuation of a transition captures. *)
Record Kont := mkKont {
  k_context : TransContext;
  isResumeSnapshotCleanup : bool; isResumeCommit : bool; isNetworkPolicyRefresh : bool }.

Inductive Started :=
  | Deferred                                    (* waits for the saving promise *)
  | Answered (r : TransitionResult)
  | Waiting (k : Kont) (tr : Transition).

Section ctrl.
Context {J : InstanceJson} (Sha256Hex : string → string) (cfg : Settings) (self : Actor).
Context (order : gmap string StateChangeCallback → list (string * StateChangeCallback)).

Definition run {A} (m : Machine.M A) : C A := inject ByMachine m.

Definition snapshots_match (a b : InstanceInfo) : bool :=
  match snapshotinfo a, snapshotinfo b with
  | Some x, Some y => SnapshotIdentityMatches x y
  | None, None => true
  | _, _ => false
  end.

(** The captured flags, for the record the machine has. *)
Definition kont_of (t : TransContext) (current : InstanceInfo) : Kont :=
  match scheduleReq t with
  | Some q =>
      let candidate := sq_instance q in
      let running := bool_decide (newState t = RUNNING) in
      mkKont t
        (running && bool_decide (code current = RUNNING) && bool_decide (version current = tc_version t)
         && bool_decide (snapshotinfo current ≠ None) && bool_decide (snapshotinfo candidate = None)
         && same_names current candidate && same_place current candidate)
        (running && bool_decide (runtimeid (ii_at candidate)
                      = RuntimeID Sha256Hex (instanceid (ii_id candidate)) (sq_requestid q)))
        (allowNetworkPolicyRefresh t)
  | None => mkKont t false false (allowNetworkPolicyRefresh t)
  end.

(** A resume that another attempt has overtaken. *)
Definition overtaken_resume (k : Kont) (current : InstanceInfo) : bool :=
  match scheduleReq (k_context k) with
  | Some q =>
      let candidate := sq_instance q in
      isResumeCommit k && bool_decide (code current = RUNNING)
      && bool_decide (version current = tc_version (k_context k) + 1)
      && negb (same_names current candidate && same_place current candidate
               && snapshots_match current candidate)
  | None => false
  end.

(** The first half of [TransInstanceState]. *)
Definition TransInstanceState (stamp : string) (t : TransContext) : C Started :=
  s ← members;
  let current := GetInstanceInfo s in
  if IsSaving s then mret Deferred
  else if bool_decide (newState t = FATAL) && IsStaticFunctionInstance current then
    let old := instancestatus current in
    let i := set_status (mkStat (newState t) (is_exitcode old) (tc_msg t) (is_type old) (errCode t))
               current in
    post (StaticPutInstanceEvent i (GetModRevisionFromInstanceInfo i)) ≫= λ _,
    post (DeleteInstanceForStaticFunction i) ≫= λ _,
    mret (Answered (mkTR (Some (GetInstanceState s)) info_empty info_empty 0 StatusOK 0))
  else
    let k := kont_of t current in
    if overtaken_resume k current then
      mret (Answered (mkTR (Some RUNNING) current info_empty (version current)
        (mkStatus INSTANCE_TRANSACTION_WRONG_VERSION "a different resume attempt already committed") 0))
    else
      tr ← run (TransitionTo Sha256Hex cfg stamp t);
      mret (Waiting k tr).

(** What follows a transition that took place. *)
Definition after_transition (k : Kont) : C unit :=
  s ← members;
  let quiet := isResumeSnapshotCleanup k || isNetworkPolicyRefresh k in
  act_when (negb quiet) (run (ExecuteStateChangeCallback order (newState (k_context k)))) ≫= λ _,
  act_when (negb quiet && bool_decide (newState (k_context k) = RUNNING) && idleMgr_ self)
    (post (OnInstanceRunning (GetInstanceInfo s))) ≫= λ _,
  act_when (negb quiet && negb (isResumeCommit k)
            && bool_decide (newState (k_context k) = RUNNING) && traefikRegistry_ self)
    (post (RegisterTraefikRoute (GetInstanceInfo s))).

Definition same_extension (a b : InstanceInfo) (key : string) : bool :=
  bool_decide (extensions a !! key = extensions b !! key).

(** Whether the record found in the store is the one the transition wanted;
    [req] is the caller's request by then. *)
Definition saved_is_wanted (k : Kont) (req : option ScheduleRequest) (result : TransitionResult)
    : bool :=
  let t := k_context k in
  let saved := savedInfo result in
  let expected := match req with Some q => sq_instance q | None => saved end in
  let isResumeRunningRecovery :=
    bool_decide (newState t = RUNNING) && bool_decide (code (previousInfo result) = PAUSED)
    && bool_decide (is_Some req) in
  let same := same_names saved expected && bool_decide (version saved = tc_version t + 1)
              && same_place saved expected in
  let exactResumeWinner := negb isResumeRunningRecovery
    || (same && same_extension saved expected PID && same_extension saved expected PORT_FORWARD_KEY
        && snapshots_match saved expected) in
  let exactResumeCleanup := negb (isResumeSnapshotCleanup k)
    || (same && bool_decide (snapshotinfo saved = None)) in
  let exactNetworkPolicyWinner := negb (isNetworkPolicyRefresh k)
    || bool_decide (createoptions saved !! CONTAINER_NETWORK_POLICY
                    = createoptions expected !! CONTAINER_NETWORK_POLICY) in
  bool_decide (owner saved = nodeID_ self) && bool_decide (code saved = newState t)
  && exactResumeWinner && exactResumeCleanup && exactNetworkPolicyWinner.

(** The continuation, run with the result of the transition. *)
Definition OnTransition (k : Kont) (req : option ScheduleRequest) (result : TransitionResult)
    : C TransitionResult :=
  if IsOk (tr_status result) then after_transition k ≫= λ _, mret result
  else
    s ← members;
    act_when (bool_decide (GetVersion s = version (previousInfo result) + 1))
      (run (UpdateInstanceInfo order (previousInfo result))) ≫= λ _,
    if bool_decide (owner (savedInfo result) = "") then mret result
    else
      run (UpdateInstanceInfo order (savedInfo result)) ≫= λ _,
      act_when (bool_decide (owner (savedInfo result) ≠ nodeID_ self)) (run (SetVersion 0)) ≫= λ _,
      if saved_is_wanted k req result then
        after_transition k ≫= λ _,
        mret (mkTR (preState result) (savedInfo result) (previousInfo result) (tr_version result)
                StatusOK (tr_modRevision result))
      else mret result.

End ctrl.
End Ctrl.
