(* ===== verification/InstanceSystem.v ===== *)
(** * Proxies that share the record of an instance

    Several proxies hold machines for the same instances and store their
    transitions in one metadata store.  Transactions travel: they may be
    executed late, more than once, or never, and their answers may be lost. *)

From S2P Require Import Prelude StdStrings MetaTypes MetaClient InstanceTypes InstanceOp InstanceMachine InstanceCtrl.
From Stdlib Require Import ZArith Lia.
From stdpp Require Import base gmap strings fin_maps relations list.

Open Scope Z_scope.
Import InstanceState Client.

(** ** What the operator relies on of the store

    A store shows a map from keys to values with their versions, and commits
    transactions. *)
Class TxnStore (St : Type) := {
  ts_map : St → gmap string (string * Z);
  ts_commit : TxnTransaction → St → St * TxnAnswer }.

Definition stored_version (m : gmap string (string * Z)) (k : string) : Z :=
  from_option snd 0 (m !! k).

(** The compares instances use. *)
Definition holds (m : gmap string (string * Z)) (c : TxnCompare) : bool :=
  match c with
  | OfVersion k CMP_EQUAL v => bool_decide (stored_version m k = v)
  | OfValue k CMP_NOT_EQUAL v => from_option (λ p, bool_decide (p.1 ≠ v)) false (m !! k)
  | _ => false
  end.
Definition plain_compare (c : TxnCompare) : bool :=
  match c with OfVersion _ CMP_EQUAL _ | OfValue _ CMP_NOT_EQUAL _ => true | _ => false end.

(** Operations on one key. *)
Definition plain_op (o : TxnOperation) : bool :=
  match o with
  | PutOp _ _ opt => negb (po_prevKv opt) && bool_decide (po_leaseId opt = 0)
  | DeleteOp _ opt => negb (do_prefix opt) && negb (do_prevKv opt)
  | GetOp _ opt => negb (go_prefix opt) && negb (go_keysOnly opt) && negb (go_countOnly opt)
  end.
Definition op_key (o : TxnOperation) : string :=
  match o with PutOp k _ _ | DeleteOp k _ | GetOp k _ => k end.

Definition apply_op (m : gmap string (string * Z)) (o : TxnOperation) : gmap string (string * Z) :=
  match o with
  | PutOp k v _ => <[k := (v, stored_version m k + 1)]> m
  | DeleteOp k _ => delete k m
  | GetOp _ _ => m
  end.

(** What the store answers to an operation, read in the map before it. *)
Definition answers_op (m : gmap string (string * Z)) (o : TxnOperation) (r : TxnOperationResponse)
    : Prop :=
  match o, r with
  | PutOp _ _ _, OPERATION_PUT _ _ => True
  | DeleteOp k _, OPERATION_DELETE _ deleted _ => deleted = 0 ↔ m !! k = None
  | GetOp k _, OPERATION_GET _ _ kvs => kv_value <$> kvs = option_list (fst <$> m !! k)
  | _, _ => False
  end.

(** A transaction of plain compares and of plain operations on different,
    not empty keys. *)
Definition plain_txn (t : TxnTransaction) : Prop :=
  forallb plain_compare (compares t) = true ∧
  forallb plain_op (thenOps t) = true ∧ forallb plain_op (elseOps t) = true ∧
  NoDup (op_key <$> thenOps t) ∧ NoDup (op_key <$> elseOps t) ∧
  Forall (λ o, op_key o ≠ "") (thenOps t ++ elseOps t).

Definition chosen (m : gmap string (string * Z)) (t : TxnTransaction) : list TxnOperation :=
  if forallb (holds m) (compares t) then thenOps t else elseOps t.

(** The store executes transactions at once and completely, and answers what
    it did; [ok] is its own invariant. *)
Class TxnStoreOk (St : Type) `{TxnStore St} (ok : St → Prop) : Prop := commit_spec :
  ∀ st t, ok st → plain_txn t →
  let r := ts_commit t st in
  ok r.1 ∧
  ts_map r.1 = foldl apply_op (ts_map st) (chosen (ts_map st) t) ∧
  ta_status r.2 = StatusOK ∧
  ta_success r.2 = forallb (holds (ts_map st)) (compares t) ∧
  Forall2 (answers_op (ts_map st)) (chosen (ts_map st) t) (ta_responses r.2).

Module System.
Import Operator Machine Ctrl.

Section system.
Context {J : InstanceJson} (Sha256Hex : string → string) (cfg : Settings).
Context (order : gmap string StateChangeCallback → list (string * StateChangeCallback)).
Context {St : Type} `{TxnStore St}.

(** A machine that waits for the store: for the actor ([Some]: with the
    continuation of a transition) or for an exit; the request object its
    caller passed. *)
Inductive Wait :=
  | ForWrite (k : option Kont) (p : Pending) (c : Call)
  | ForRoute (k : option Kont) (p : Pending) (createStatus : Status).

(** The proxies' machines, the machines that wait, the transactions sent, the
    answers given, the values read, and the keys whose record was deleted. *)
Record Sys := mkSys {
  store : St;
  machines : gmap nat (Actor * Machine.State);
  waits : gmap nat Wait;
  sent : list Call;
  replies : list (Call * TxnAnswer);
  seen : list (string * string);
  retired : gset string }.

Definition set_machine (n : nat) (a : Actor) (s : Machine.State) (y : Sys) : Sys :=
  mkSys (store y) (<[n := (a, s)]> (machines y)) (waits y) (sent y) (replies y) (seen y) (retired y).
Definition set_wait (n : nat) (w : option Wait) (y : Sys) : Sys :=
  mkSys (store y) (machines y) (partial_alter (λ _, w) n (waits y)) (sent y) (replies y) (seen y)
    (retired y).
Definition send (c : Call) (y : Sys) : Sys :=
  mkSys (store y) (machines y) (waits y) (c :: sent y) (replies y) (seen y) (retired y).

(** The machine goes on from a transition of the actor: it waits, or the
    continuation runs. *)
Definition go_on (n : nat) (a : Actor) (k : option Kont) (req : option ScheduleRequest)
    (tr : Transition) (s : Machine.State) (y : Sys) : Sys :=
  match tr with
  | Saving p c => send c (set_wait n (Some (ForWrite k p c)) (set_machine n a s y))
  | ReadingRoute p st => set_wait n (Some (ForRoute k p st)) (set_machine n a s y)
  | Ready r =>
      set_wait n None
        (set_machine n a
          (match k with
           | Some k => exec (OnTransition a order k req r) s
           | None => s
           end) y)
  end.

(** A request that is the machine's own: its record has the key and the
    version of the machine's. *)
Definition own_request (i : InstanceInfo) (q : ScheduleRequest) : Prop :=
  key_of (ii_id (sq_instance q)) = key_of (ii_id i) ∧ version (sq_instance q) = version i.

(** The transitions callers ask for: with the version the machine has. *)
Definition own_transition (i : InstanceInfo) (t : TransContext) : Prop :=
  tc_version t = version i ∧ match scheduleReq t with Some q => own_request i q | None => True end.

(** Two records that agree on key, state and version; callers change the rest
    freely. *)
Definition same_record (i j : InstanceInfo) : Prop :=
  key_of (ii_id i) = key_of (ii_id j) ∧ code i = code j ∧ version i = version j.

Definition same_request (q q' : option ScheduleRequest) : Prop :=
  match q, q' with
  | Some q, Some q' => same_record (sq_instance q) (sq_instance q')
  | None, None => True
  | _, _ => False
  end.

(** A record read from the store, as an instance or, under the key of a route,
    as a route. *)
Definition reads_as (k x : string) (i : InstanceInfo) : Prop :=
  (∃ j, of_json x = Some j ∧ same_record j i) ∨
  (∃ d r, k = GenInstanceRouteKey d ∧ of_json x = Some r ∧
     same_record (TransToInstanceInfoFromRouteInfo r) i).

(** The record a machine starts from: a new instance, one read from the store,
    or the request another proxy forwards. *)
Definition origin (y : Sys) (i : InstanceInfo) : Prop :=
  version i = 0 ∨ (∃ k x, (k, x) ∈ seen y ∧ reads_as k x i) ∨
  (∃ n a s c, machines y !! n = Some (a, s) ∧ waits y !! n = None ∧
     instanceContext_ s = Some c ∧ same_record (info c) i).

Definition waiting_call (w : Wait) : option Call :=
  match w with ForWrite _ _ c => Some c | ForRoute _ _ _ => None end.

Inductive step : Sys → Sys → Prop :=
  | step_new y n a c metaStore :
      machines y !! n = None → waits y !! n = None → origin y (info c) →
      step y (set_machine n a (Machine.make (nodeID_ a) (Some c) metaStore) y)
  | step_start y n a s c stamp t :
      machines y !! n = Some (a, s) → instanceContext_ s = Some c → own_transition (info c) t →
      step y
        (match val (TransInstanceState Sha256Hex cfg stamp t) s with
         | Deferred | Answered _ =>
             set_machine n a (exec (TransInstanceState Sha256Hex cfg stamp t) s) y
         | Waiting k tr =>
             go_on n a (Some k) (scheduleReq t) tr
               (exec (TransInstanceState Sha256Hex cfg stamp t) s) y
         end)
  | step_exit y n a s c stamp q sync :
      machines y !! n = Some (a, s) → instanceContext_ s = Some c → IsSaving s = false →
      own_request (info c) q →
      step y
        (match val (TryExitInstance Sha256Hex cfg stamp q sync) s with
         | Exited _ _ => set_machine n a (exec (TryExitInstance Sha256Hex cfg stamp q sync) s) y
         | ExitTransition tr _ _ =>
             go_on n a None (Some q) tr (exec (TryExitInstance Sha256Hex cfg stamp q sync) s) y
         end)
  | step_delete y n a s id c :
      machines y !! n = Some (a, s) →
      val (DelInstance cfg order id) s = Deleting c →
      step y (send c (set_machine n a (exec (DelInstance cfg order id) s) y))
  | step_force_delete y n a s c :
      machines y !! n = Some (a, s) →
      val (ForceDelInstance cfg) s = Deleting c →
      step y (send c (set_machine n a (exec (ForceDelInstance cfg) s) y))
  (* the store executes a transaction; a deleted record is not created again *)
  | step_execute y c :
      c ∈ sent y →
      let ops := chosen (ts_map (store y)) (cl_txn c) in
      (∀ k v opt, PutOp k v opt ∈ ops → k ∉ retired y) →
      step y
        (mkSys (ts_commit (cl_txn c) (store y)).1 (machines y) (waits y) (sent y)
           ((c, (ts_commit (cl_txn c) (store y)).2) :: replies y) (seen y)
           (list_to_set (omap (λ o, match o with DeleteOp k _ => Some k | _ => None end) ops)
            ∪ retired y))
  (* an answer of the store, or an error, reaches the machine that waits *)
  | step_answer y n a s k p c ans req result :
      machines y !! n = Some (a, s) → waits y !! n = Some (ForWrite k p c) →
      (c, ans) ∈ replies y ∨ IsError (ta_status ans) = true →
      same_request (scheduleReq (pd_context p)) req →
      read_answer c ans = Some result →
      step y (go_on n a k req (val (OnOperated cfg p req result) s)
                (exec (OnOperated cfg p req result) s) y)
  | step_read y k x v :
      ts_map (store y) !! k = Some (x, v) →
      step y (mkSys (store y) (machines y) (waits y) (sent y) (replies y) ((k, x) :: seen y)
                (retired y))
  | step_route y n a s k p st req fut :
      machines y !! n = Some (a, s) → waits y !! n = Some (ForRoute k p st) →
      same_request (scheduleReq (pd_context p)) req →
      match fut with
      | Some r => IsOk (or_status r) = true →
          (GenInstanceRouteKey (instanceid (ii_id (pd_new p))), or_value r) ∈ seen y
      | None => True
      end →
      step y (go_on n a k req (val (OnRouteRead p req st fut) s)
                (exec (OnRouteRead p req st fut) s) y)
  (* events of the store, and changes of other fields *)
  | step_observe y n a s k x i :
      machines y !! n = Some (a, s) → (k, x) ∈ seen y → reads_as k x i →
      step y (set_machine n a (exec (UpdateInstanceInfo order i) s) y)
  | step_disown y n a s :
      machines y !! n = Some (a, s) →
      step y (set_machine n a (exec (SetVersion 0) s) y)
  | step_edit y n a s f :
      machines y !! n = Some (a, s) → (∀ c, same_record (info c) (info (f c))) →
      step y (set_machine n a (exec (on_ctx f) s) y)
  | step_abnormal y n a s :
      machines y !! n = Some (a, s) →
      step y (set_machine n a (exec SetLocalAbnormal s) y).

Definition initial (st : St) : Sys := mkSys st ∅ ∅ [] [] [] ∅.

End system.
End System.
