(* ===== verification/InstanceStore.v ===== *)
(** * The metadata store keeps its promise to the instances

    Transactions committed through the client of the metadata store and
    executed by its key-value actor are what [InstanceSystem] asks of a
    store; so is a plain map. *)

From S2P Require Import Prelude MetaTypes Leader KvService KvInvariant KvRefine MetaClient InstanceTypes InstanceOp InstanceMachine InstanceCtrl InstanceSystem.
From Stdlib Require Import ZArith Lia.
From stdpp Require Import base gmap strings fin_maps relations list.

Open Scope Z_scope.
Set Default Proof Using "Type".
Import Client.

(** ** A plain map *)
Definition map_answer (m : gmap string (string * Z)) (o : TxnOperation) : TxnOperationResponse :=
  match o with
  | PutOp _ _ _ => OPERATION_PUT 0 kv_empty
  | DeleteOp k _ => OPERATION_DELETE 0 (from_option (λ _, 1) 0 (m !! k)) []
  | GetOp k _ =>
      let kvs := (λ p : string * Z, mkKV k 0 0 p.2 p.1 0) <$> option_list (m !! k) in
      OPERATION_GET 0 (Z.of_nat (length kvs)) kvs
  end.

#[global] Instance map_store : TxnStore (gmap string (string * Z)) := {|
  ts_map m := m;
  ts_commit t m :=
    (foldl apply_op m (chosen m t),
     mkAnswer StatusOK 0 (forallb (holds m) (compares t)) (map_answer m <$> chosen m t)) |}.

#[global] Instance map_store_ok : TxnStoreOk (gmap string (string * Z)) (λ _, True).
Proof.
  intros m t _ _. split_and!; try done. cbn. apply Forall2_fmap_r, Forall_Forall2_diag.
  apply Forall_forall. intros [] _; cbn; [done|..].
  - by destruct (m !! key).
  - by destruct (m !! key).
Qed.

(** ** The key-value actor, through its client *)
Section kv.
Context {PB : Protobuf} (kv_moved : KeyValue → KeyValue).
Context (client : Strategy) (from uuid : string).

(** The answer the actor sends to the client. *)
Definition sent_answer (os : list Kv.Out) : option string :=
  match last os with
  | Some (Kv.Send _ _ msg) => Some msg
  | _ => None
  end.

Definition kv_commit (t : TxnTransaction) (s : Kv.State) : Kv.State * TxnAnswer :=
  match CommitTxn client uuid t with
  | inr a => (s, a)
  | inl request =>
      (exec (Kv.AsyncTxn kv_moved from request) s,
       match sent_answer (outs (Kv.AsyncTxn kv_moved from request) s) ≫= OnTxn with
       | Some (_, response) => OnCommitted response
       | None => failed_answer (mkStatus FAILED "")
       end)
  end.

Definition kv_map (c : gmap string KeyValue) : gmap string (string * Z) :=
  (λ kv, (kv_value kv, kv_version kv)) <$> c.

#[global] Instance kv_store : TxnStore Kv.State :=
  {| ts_map s := kv_map (Kv.cache_ s); ts_commit := kv_commit |}.

(** An idle master that does not wait for a backup. *)
Definition kv_ready (s : Kv.State) : Prop :=
  kv_wf s ∧ Kv.curStatus_ s = MASTER_BUSINESS ∧ Kv.ongoing_ s = ∅ ∧ Kv.backupActor_ s = false.

(** ** Answers of a transaction *)
Definition responds (c : gmap string KeyValue) (op : RequestOp) (r : ResponseOp) : Prop :=
  match op, r with
  | kRequestRange q, kResponseRange p => ∃ s, Kv.cache_ s = c ∧ p = Kv.Range s q
  | kRequestPut _, kResponsePut _ => True
  | kRequestDeleteRange d, kResponseDeleteRange p => drr_deleted p = Z.of_nat (length (deletes_of c d))
  | _, _ => False
  end.
Definition answered (op : RequestOp) : bool :=
  match op with kRequestTxn | REQUEST_NOT_SET => false | _ => true end.

Lemma TxnLoop_responses ops acc s :
  forallb answered ops = true →
  ∃ rs, (val (Kv.TxnLoop kv_moved ops acc) s).1 = acc.1 ++ rs ∧ Forall2 (responds (Kv.cache_ s)) ops rs.
Proof.
  revert acc s. induction ops as [|op ops IH]; intros acc s Ha; cbn.
  { exists []. by rewrite val_ret, app_nil_r. }
  rewrite val_bind. cbn in Ha. apply andb_true_iff in Ha as [Ho Ha].
  set (acc' := val _ s). set (s' := exec _ s).
  assert (∃ r, acc'.1 = acc.1 ++ [r] ∧ responds (Kv.cache_ s) op r ∧ Kv.cache_ s' = Kv.cache_ s)
    as (r & Hacc & Hr & Hc).
  { subst acc' s'. destruct op as [q|p|d| |]; try done; cbn [Kv.TxnCommon].
    - eexists. split_and!; [done| |done]. by exists s.
    - eexists. rewrite val_bind, exec_bind, val_ret, exec_ret. split_and!; [done|done|].
      unfold Kv.TryPut. rewrite exec_bind. by case_match.
    - eexists. split_and!; done. }
  destruct (IH acc' s' Ha) as (rs & -> & Hrs). rewrite Hc in Hrs. exists (r :: rs).
  split; [by rewrite Hacc, <- app_assoc|by constructor].
Qed.

Lemma TryTxn_response request s :
  forallb answered (chosen_ops s request) = true →
  let r := (val (Kv.TryTxn kv_moved request) s).2 in
  txr_succeeded r = Kv.TxnIf s request ∧
  Forall2 (responds (Kv.cache_ s)) (chosen_ops s request) (txr_responses r).
Proof.
  unfold Kv.TryTxn, Kv.TxnThen, Kv.TxnElse, chosen_ops. rewrite val_bind, val_members, exec_members.
  intros Ha. destruct (Kv.TxnIf s request); rewrite val_bind, val_ret;
    destruct (TxnLoop_responses _ ([], ([], [])) s Ha) as (rs & Hrs & Hf); cbn in *; by rewrite Hrs.
Qed.

(** ** Plain transactions in the actor *)
Lemma lookup_kv_map c k : kv_map c !! k = (λ kv, (kv_value kv, kv_version kv)) <$> c !! k.
Proof. apply lookup_fmap. Qed.

Lemma plain_compare_holds s c :
  plain_compare c = true → Kv.TxnIfOne s (BuildCompare "" c) = holds (kv_map (Kv.cache_ s)) c.
Proof.
  unfold holds, stored_version. destruct c as [k [] v| | |k [] v|]; intros Hc; try done; cbn;
    change ("" +:+ k) with k; rewrite lookup_kv_map; by destruct (Kv.cache_ s !! k).
Qed.

Lemma plain_TxnIf s t :
  forallb plain_compare (compares t) = true →
  Kv.TxnIf s (BuildTxnRequest "" t) = forallb (holds (kv_map (Kv.cache_ s))) (compares t).
Proof.
  unfold Kv.TxnIf. cbn. induction (compares t) as [|c l IH]; intros Hp; [done|]. cbn in Hp |- *.
  apply andb_true_iff in Hp as [Hc Hl]. by rewrite plain_compare_holds, IH.
Qed.

Lemma plain_chosen s t :
  forallb plain_compare (compares t) = true →
  chosen_ops s (BuildTxnRequest "" t) = BuildOperation "" <$> chosen (kv_map (Kv.cache_ s)) t.
Proof. intros Hp. unfold chosen_ops, chosen. rewrite plain_TxnIf by done. by case_match. Qed.

Lemma plain_etcd_op rev c o :
  plain_op o = true →
  kv_map (etcd_op (rev, c) (BuildOperation "" o)).2 = apply_op (kv_map c) o.
Proof.
  destruct o as [k v opt|k opt|k opt]; intros Hp; [..|done].
  - cbn. change ("" +:+ k) with k. unfold kv_map at 1. rewrite fmap_insert. unfold stored_version. rewrite lookup_kv_map.
    by destruct (c !! k).
  - cbn in Hp |- *. change ("" +:+ k) with k. apply andb_true_iff in Hp as [Hp _].
    apply negb_true_iff in Hp. rewrite Hp. apply map_eq. intros k'. rewrite lookup_kv_map.
    pose proof (lookup_etcd_delete (mkDeleteRange k "" (do_prevKv opt)) (rev, c) k') as E. cbn in E.
    rewrite E. unfold selects. cbn. rewrite bool_decide_true by done. case_bool_decide as Hk.
    + subst k'. by rewrite lookup_delete_eq.
    + by rewrite lookup_delete_ne, lookup_kv_map.
Qed.

Lemma plain_etcd_ops rev c ops :
  forallb plain_op ops = true →
  kv_map (foldl etcd_op (rev, c) (BuildOperation "" <$> ops)).2 = foldl apply_op (kv_map c) ops.
Proof.
  revert rev c. induction ops as [|o ops IH]; intros rev c Hp; [done|]. cbn [foldl fmap list_fmap].
  cbn in Hp. apply andb_true_iff in Hp as [Ho Hp]. rewrite <- (plain_etcd_op rev) by done.
  destruct (etcd_op (rev, c) (BuildOperation "" o)) as [rev' c']. by apply IH.
Qed.

Lemma plain_disjoint ops :
  forallb plain_op ops = true → NoDup (op_key <$> ops) → Forall (λ o, op_key o ≠ "") ops →
  disjoint_ops (BuildOperation "" <$> ops).
Proof.
  intros Hp Hn Hne. rewrite Forall_forall in Hne.
  assert (Hput : ∀ k, k ∈ put_keys (BuildOperation "" <$> ops) → ∃ v opt, PutOp k v opt ∈ ops).
  { intros k. unfold put_keys. rewrite list_elem_of_omap. intros (r & Hr & Hk).
    apply list_elem_of_fmap in Hr as ([] & -> & Ho); try done. injection Hk as <-. eauto. }
  split_and!.
  - clear Hput Hne. unfold put_keys. induction ops as [|o ops IH]; [constructor|].
    cbn in Hp. apply andb_true_iff in Hp as [_ Hp]. apply NoDup_cons in Hn as [Hk Hn].
    destruct o as [k v opt|k opt|k opt]; cbn; auto. apply NoDup_cons. split; [|auto].
    contradict Hk. apply list_elem_of_omap in Hk as (r & Hr & E).
    apply list_elem_of_fmap in Hr as ([k' v' opt'| |] & -> & Ho); try done. injection E as E.
    change (k' = k) in E. subst k'. apply list_elem_of_fmap. by exists (PutOp k v' opt').
  - intros (v & opt & Ho)%Hput. by apply Hne in Ho.
  - intros k d (v & opt & Ho)%Hput Hd. unfold delete_requests in Hd. apply list_elem_of_omap in Hd as (r & Hr & E).
    apply list_elem_of_fmap in Hr as ([|k' opt'|] & -> & Ho'); try done. injection E as <-.
    rewrite forallb_forall in Hp. specialize (Hp _ (proj1 (list_elem_of_In _ _) Ho')). cbn in Hp.
    apply andb_true_iff in Hp as [Hp _]. apply negb_true_iff in Hp. unfold selects. cbn.
    change ("" +:+ k') with k'. rewrite Hp. cbn.
    rewrite (bool_decide_true ("" = "")) by done. apply bool_decide_eq_false. intros <-.
    apply list_elem_of_lookup in Ho as [i Hi], Ho' as [j Hj].
    assert (i = j) as -> by (eapply (NoDup_lookup _ _ _ k Hn); by rewrite list_lookup_fmap, ?Hi, ?Hj).
    congruence.
Qed.

Lemma plain_response c o r :
  plain_op o = true → responds c (BuildOperation "" o) r → answers_op (kv_map c) o (ConvertOp r).
Proof.
  intros Hp Hr. destruct o as [k v opt|k opt|k opt], r; try done; cbn in Hp, Hr |- *;
    change ("" +:+ k) with k in Hr.
  - apply andb_true_iff in Hp as [Hp _]. apply negb_true_iff in Hp. rewrite Hp in Hr. rewrite Hr.
    unfold deletes_of. cbn. rewrite lookup_kv_map. by destruct (c !! k).
  - rewrite !andb_true_iff, !negb_true_iff in Hp. destruct Hp as [[Hp Hk] Hc].
    destruct Hr as (s & <- & ->). unfold Kv.Range. cbn. rewrite Hp, Hk, Hc, lookup_kv_map. cbn.
    by destruct (Kv.cache_ s !! k).
Qed.

Context {HT : CodecOk TxnRequest} {HR : CodecOk TxnResponse} {HM : CodecOk MetaStoreResponse}.
Context (Hhealthy : fall_break client = false) (Hprefix : etcdTablePrefix_ client = "").

Lemma plain_answered ops : forallb answered (BuildOperation "" <$> ops) = true.
Proof. apply forallb_forall. intros r Hr%list_elem_of_In. by apply list_elem_of_fmap in Hr as ([] & -> & _). Qed.

Lemma plain_responses c ops rs :
  forallb plain_op ops = true → Forall2 (responds c) (BuildOperation "" <$> ops) rs →
  Forall2 (answers_op (kv_map c)) ops (ConvertOp <$> rs).
Proof.
  revert rs. induction ops as [|o ops IH]; intros rs Hp Hrs; cbn in Hrs.
  { apply Forall2_nil_inv_l in Hrs as ->. constructor. }
  apply Forall2_cons_inv_l in Hrs as (r & rs' & Hr & Hrs & ->). cbn in Hp.
  apply andb_true_iff in Hp as [Ho Hp]. constructor; [by apply plain_response|auto].
Qed.

(** The client hears what the actor answered. *)
Lemma kv_commit_is t s :
  kv_ready s →
  let request := mkReq uuid (ser (BuildTxnRequest "" t)) (commit_async t) in
  kv_commit t s = (exec (Kv.Master_AsyncTxn kv_moved from request) s,
                   Convert (val (Kv.TryTxn kv_moved (BuildTxnRequest "" t)) s).2) ∧
  kv_ready (kv_commit t s).1.
Proof using HT HR HM Hhealthy Hprefix.
  intros (Hwf & Hm & Ho & Hb) request.
  destruct (Master_AsyncTxn_effect kv_moved from request (BuildTxnRequest "" t) s Hwf Ho
    (parse_ser _)) as (He & _ & os & Hout & _); [by rewrite Hb|].
  assert (Hreq : Kv.client_request kv_moved (Kv.AsyncTxn kv_moved from request)) by constructor.
  pose proof (micros_wf false _ _ _ (runs_request kv_moved _ s Hreq Hwf) Hwf) as Hwf'.
  unfold Kv.AsyncTxn, Kv.by_role in Hwf'. rewrite exec_bind, val_members, exec_members, Hm in Hwf'.
  unfold kv_commit, CommitTxn. rewrite Hhealthy, Hprefix. fold request.
  unfold Kv.AsyncTxn, Kv.by_role. rewrite exec_bind, outs_bind, val_members, exec_members, outs_members, Hm.
  split; [|split; [done|]; cbn [fst]; by rewrite He].
  rewrite app_nil_l, Hout, !app_assoc. unfold sent_answer. rewrite last_snoc. cbn. unfold OnTxn.
  rewrite parse_ser. cbn. by rewrite parse_ser.
Qed.

(** The metadata store keeps its promise. *)
Lemma kv_store_ok : TxnStoreOk Kv.State kv_ready.
Proof using HT HR HM Hhealthy Hprefix.
  intros s t Hs (Hc & Hthen & Helse & Hn1 & Hn2 & Hne). pose proof Hs as (Hwf & Hm & Ho & Hb).
  set (ops := chosen (kv_map (Kv.cache_ s)) t).
  assert (forallb plain_op ops = true ∧ disjoint_ops (BuildOperation "" <$> ops)) as [Hp Hd].
  { apply Forall_app in Hne as [Hne1 Hne2]. unfold ops, chosen.
    case_match; (split; [done|]); by apply plain_disjoint. }
  destruct (kv_commit_is t s Hs) as [Hcommit Hready].
  destruct (Master_AsyncTxn_effect kv_moved from (mkReq uuid (ser (BuildTxnRequest "" t)) (commit_async t))
    (BuildTxnRequest "" t) s Hwf Ho (parse_ser _)) as (He & _); [by rewrite Hb|].
  destruct (TryTxn_response (BuildTxnRequest "" t) s) as [Hsucc Hrs];
    [rewrite plain_chosen by done; apply plain_answered|].
  rewrite plain_chosen in He, Hrs by done. fold ops in He, Hrs. rewrite plain_TxnIf in Hsucc by done.
  cbn zeta. change (ts_commit t s) with (kv_commit t s).
  change (ts_map (kv_commit t s).1) with (kv_map (Kv.cache_ (kv_commit t s).1)).
  change (ts_map s) with (kv_map (Kv.cache_ s)). fold ops.
  split; [done|]. rewrite Hcommit. cbn [fst snd]. split_and!.
  - rewrite He. rewrite <- (plain_etcd_ops (Kv.modRevision_ s)) by done.
    rewrite (sequential_is_snapshot (Kv.cache_ s) (Kv.modRevision_ s)); [done|apply Hwf|done|done|].
    intros. by left.
  - done.
  - exact Hsucc.
  - by apply plain_responses.
Qed.
End kv.
