(* ===== verification/InstanceInv.v ===== *)
(** * What transitions do to a machine and to its record

    The legal changes of state, what a transition leaves in the machine and
    what it sends to the store. *)

From S2P Require Import Prelude StdStrings MetaTypes MetaClient InstanceTypes InstanceOp InstanceMachine InstanceCtrl InstanceSystem.
From Stdlib Require Import ZArith Lia.
From stdpp Require Import base gmap strings fin_maps relations list.

Open Scope Z_scope.
Set Default Proof Using "Type".
Import InstanceState Client Operator Machine Ctrl System.

(** ** Legal changes of state

    The listed ones, except out of [EXITING], which no transition leaves; the
    forced end of an instance that is not ready; the refreshes of a record in
    its state, or of an evicted instance that came back. *)
Inductive legal : Z → Z → Prop :=
  | legal_listed s s' l : next_states s = Some l → s' ∈ l → s ≠ EXITING → legal s s'
  | legal_forced s : s ∈ FORCE_FATAL_ALLOWED_SOURCES → legal s FATAL
  | legal_same s : legal s s
  | legal_refresh : legal EVICTED RUNNING.

Definition terminal : list Z := [FATAL; EXITING].

Lemma terminal_legal s s' : s ∈ terminal → legal s s' → s' ∈ terminal.
Proof.
  intros Hs Hl. destruct Hl as [s s' l Hn Hin Hne|s Hf|s|].
  - apply list_elem_of_In in Hs as [<-|[<-|[]]]; [|done].
    vm_compute in Hn. injection Hn as <-. apply list_elem_of_In in Hin as [<-|[]].
    apply list_elem_of_In. right. by left.
  - left.
  - done.
  - apply list_elem_of_In in Hs as [Hs|[Hs|[]]]; by vm_compute in Hs.
Qed.
Lemma terminal_path s s' : s ∈ terminal → rtc legal s s' → s' ∈ terminal.
Proof. intros Hs. induction 1; eauto using terminal_legal. Qed.

(** ** The part of a machine that transitions depend on *)
Definition core (s : Machine.State) : option Context * SavePromise :=
  (instanceContext_ s, savePromise_ s).

Definition keeps {W A} (m : Act Machine.State W A) : Prop := ∀ s, core (exec m s) = core s.

Create HintDb keeps.
Lemma keeps_ret {W A} (a : A) : keeps (W:=W) (mret a).
Proof. done. Qed.
Lemma kept_bind {W A B} (m : Act Machine.State W A) (f : A → Act Machine.State W B) :
  keeps m → (∀ a, keeps (f a)) → keeps (m ≫= f).
Proof. intros Hm Hf s. rewrite exec_bind. by rewrite Hf. Qed.
Lemma keeps_members {W} : keeps (W:=W) members.
Proof. done. Qed.
Lemma keeps_post {W} (w : W) : keeps (post w).
Proof. done. Qed.
Lemma keeps_when {W} b (m : Act Machine.State W unit) : keeps m → keeps (act_when b m).
Proof. intros Hm s. rewrite exec_when. by destruct b. Qed.
Lemma keeps_modify {W} (f : Machine.State → Machine.State) :
  (∀ s, core (f s) = core s) → keeps (W:=W) (modify f).
Proof. intros Hf s. apply Hf. Qed.
Lemma kept_for_each {W A} (l : list A) (body : A → Act Machine.State W unit) :
  (∀ a, keeps (body a)) → keeps (for_each l body).
Proof.
  intros Hb s. apply (for_each_inv (λ s', core s' = core s)); [|done].
  intros a s' _ Hs. by rewrite Hb.
Qed.
Lemma keeps_run {A} (m : Machine.M A) : keeps m → keeps (run m).
Proof. intros Hm s. apply Hm. Qed.
(** [keeper] follows the body of a handler. *)
Ltac keeper :=
  repeat first
    [ match goal with
      | |- keeps (_ ≫= _) => simple apply kept_bind; [|intros ?]
      | |- keeps (mret _) => simple apply keeps_ret
      | |- keeps members => simple apply keeps_members
      | |- keeps (post _) => simple apply keeps_post
      | |- keeps (modify _) => simple apply keeps_modify; intros ?; reflexivity
      | |- keeps (act_when _ _) => simple apply keeps_when
      | |- keeps (for_each _ _) => simple apply kept_for_each; intros ?
      | |- keeps (run _) => simple apply keeps_run
      | |- keeps (match ?x with _ => _ end) => destruct x
      end
    | progress eauto with keeps ].

Section machine.
Context {J : InstanceJson} (Sha256Hex : string → string) (cfg : Settings).
Context (order : gmap string StateChangeCallback → list (string * StateChangeCallback)).

Lemma keeps_callbacks st : keeps (ExecuteStateChangeCallback order st).
Proof. unfold ExecuteStateChangeCallback. keeper. Qed.
Lemma keeps_publish i r : keeps (PublishToLocalObserver cfg i r).
Proof. unfold PublishToLocalObserver. keeper. Qed.
Lemma keeps_exit : keeps (ExitInstance cfg).
Proof. unfold ExitInstance. keeper. Qed.
Lemma keeps_billing st : keeps (SetInstanceBillingTerminated st).
Proof. unfold SetInstanceBillingTerminated. keeper. Qed.
Lemma keeps_saved p r b : keeps (publish_saved cfg p r b).
Proof using Type. unfold publish_saved. keeper; apply keeps_publish. Qed.
Hint Resolve keeps_callbacks keeps_publish keeps_exit keeps_billing keeps_saved : keeps.

Lemma keeps_OnCreated p r : keeps (OnCreated cfg p r).
Proof using Type. unfold OnCreated. keeper. Qed.
Lemma keeps_OnModified p r : keeps (OnModified cfg p r).
Proof using Type. unfold OnModified, SetLastSaveFailedState. keeper. Qed.
Lemma keeps_Verify t old : keeps (VerifyTransitionState cfg t old).
Proof using Type. unfold VerifyTransitionState. keeper. Qed.
Lemma keeps_after self k : keeps (after_transition self order k).
Proof using Type. unfold after_transition. keeper. Qed.
Lemma keeps_OnForceDeleted r : keeps (OnForceDeleted r).
Proof. unfold OnForceDeleted, SetLastSaveFailedState. keeper. Qed.
Hint Resolve keeps_OnForceDeleted : keeps.
Lemma keeps_OnDeleted id r : keeps (OnDeleted cfg id r).
Proof using Type. unfold OnDeleted. keeper. Qed.
Hint Resolve keeps_OnDeleted : keeps.
Lemma keeps_DelInstance id : keeps (DelInstance cfg order id).
Proof using Type. unfold DelInstance. keeper. Qed.
Lemma keeps_ForceDelInstance : keeps (ForceDelInstance cfg).
Proof using Type. unfold ForceDelInstance. keeper. Qed.

(** ** The check *)
Lemma verified_legal t old s :
  preState (val (VerifyTransitionState cfg t old) s) ≠ None → legal old (newState t).
Proof.
  unfold VerifyTransitionState. destruct (next_states old) as [l|] eqn:El; [|done].
  case_bool_decide as Hx; [done|].
  destruct (in_states l (newState t)) eqn:Hl; cbn [negb andb].
  { intros _. by apply (legal_listed _ _ l); [|apply bool_decide_eq_true in Hl|]. }
  destruct (force t && bool_decide (newState t = FATAL)) eqn:Hf; [|done].
  destruct (in_states FORCE_FATAL_ALLOWED_SOURCES old) eqn:Ha; [|done].
  intros _. apply andb_true_iff in Hf as [_ ->%bool_decide_eq_true].
  apply legal_forced. by apply bool_decide_eq_true in Ha.
Qed.

Lemma unchecked_legal t i :
  IsResumeSnapshotCleanup Sha256Hex t i || IsRunningFailoverRefresh t i || IsNetworkPolicyRefresh t i = true →
  legal (code i) (newState t).
Proof.
  intros [[H|H]%orb_true_iff|H]%orb_true_iff.
  - unfold IsResumeSnapshotCleanup in H. do 2 (case_match; [|done]).
    rewrite !andb_true_iff, !bool_decide_eq_true in H. destruct_and! H.
    assert (code i = newState t) as -> by congruence. constructor.
  - unfold IsRunningFailoverRefresh in H. case_match; [|done].
    rewrite !andb_true_iff, orb_true_iff, !bool_decide_eq_true in H. destruct_and! H.
    destruct_or!;
      [assert (code i = newState t) as -> by congruence; constructor|].
    assert (newState t = RUNNING ∧ code i = EVICTED) as [-> ->] by done. constructor.
  - unfold IsNetworkPolicyRefresh in H. case_match; [|done].
    rewrite !andb_true_iff, !bool_decide_eq_true in H. destruct_and! H.
    assert (code i = newState t) as -> by congruence. constructor.
Qed.

(** ** The new record *)

(** The call that stores [i] over version [v]. *)
Definition written (i : InstanceInfo) (v : Z) (first : bool) (c : Call) : Prop :=
  ∃ k x route lw,
    key_of (ii_id i) = Some k ∧ to_json i = Some x ∧
    (route = None ∨ ∃ xr, to_json (TransToRouteInfoFromInstanceInfo i) = Some xr ∧
       route = Some (mkStoreInfo (GenInstanceRouteKey (instanceid (ii_id i))) xr)) ∧
    (if first then Create (Some (mkStoreInfo k x)) route lw
     else Modify (Some (mkStoreInfo k x)) route v lw) = inl c.

(** A transition has prepared [i] from the record of [c]: it is in the
    request, or in the machine. *)
Definition prepared (c : Context) (t : TransContext) (c' : Context) (t' : TransContext)
    (i : InstanceInfo) : Prop :=
  key_of (ii_id i) = key_of (ii_id (info c)) ∧ code i = newState t ∧
  version i = version (info c) + 1 ∧
  match scheduleReq t' with
  | Some q => c' = c ∧ same_record (sq_instance q) i
  | None => scheduleReq t = None ∧ same_record (info c') i
  end.

Lemma paused_same (b : bool) i :
  same_record (if b then paused_info i else i) i ∧
  createoptions (if b then paused_info i else i) = createoptions i.
Proof. by destruct b. Qed.

(** The preparation keeps key and version and sets the state. *)
Lemma PrepareTransitionInfo_spec stamp t c c1 t1 i1 prev :
  PrepareTransitionInfo cfg stamp t c = (c1, t1, i1, prev) → own_transition (info c) t →
  prev = info c ∧ newState t1 = newState t ∧ tc_version t1 = tc_version t ∧
  key_of (ii_id i1) = key_of (ii_id (info c)) ∧ code i1 = newState t ∧ version i1 = version (info c) ∧
  match scheduleReq t1 with
  | Some q => is_Some (scheduleReq t) ∧ c1 = c ∧ sq_instance q = i1
  | None => scheduleReq t = None ∧ info c1 = i1
  end.
Proof using Type.
  unfold PrepareTransitionInfo, own_transition, own_request. intros E [Hv Hq].
  destruct (scheduleReq t) as [q|] eqn:Eq; injection E as <- <- <- <-; cbn [scheduleReq set_req newState tc_version].
  - destruct Hq as [Hk Hvq].
    destruct (IsFirstPersistence cfg info_empty _ _), (bool_decide (newState t = PAUSED));
      cbn; repeat split; try done; eauto.
  - rewrite Eq. destruct (bool_decide (newState t = PAUSED)); cbn; repeat split; done.
Qed.

Lemma UpdateInstanceVersion_spec t1 c1 c2 t2 i2 (i1 : InstanceInfo) :
  UpdateInstanceVersion t1 c1 = (c2, t2, i2) → tc_version t1 = version i1 → 0 ≤ version i1 →
  match scheduleReq t1 with
  | Some q => sq_instance q = i1
  | None => info c1 = i1
  end →
  i2 = set_version (version i1 + 1) i1 ∧ newState t2 = newState t1 ∧ tc_version t2 = tc_version t1 ∧
  match scheduleReq t2 with
  | Some q => is_Some (scheduleReq t1) ∧ c2 = c1 ∧ sq_instance q = i2
  | None => scheduleReq t1 = None ∧ info c2 = i2
  end.
Proof.
  unfold UpdateInstanceVersion. intros E Hv Hge Hi.
  destruct (scheduleReq t1) as [q|] eqn:Eq; injection E as <- <- <-; cbn [scheduleReq set_req newState tc_version].
  - subst i1. rewrite Hv. repeat split; eauto.
  - assert (ctx_SetVersion (tc_version t1 + 1) c1 = ctx_info (set_version (version i1 + 1)) c1) as ->.
    { unfold ctx_SetVersion. rewrite Hi, Hv. destruct (Z.leb_spec (version i1 + 1) (version i1)); [lia|].
      by rewrite andb_false_r. }
    subst i1. rewrite Eq. done.
Qed.

Lemma GetPersistenceType_ext i j b :
  code i = code j → createoptions i = createoptions j →
  GetPersistenceType cfg i b = GetPersistenceType cfg j b.
Proof using Type.
  intros Hc Ho. unfold GetPersistenceType, low, IsLowReliabilityInstance. by rewrite Hc, Ho.
Qed.

Lemma persistent_instance i b :
  GetPersistenceType cfg i b ≠ PERSISTENT_NOT → stores_instance (GetPersistenceType cfg i b) = true.
Proof using Type. unfold GetPersistenceType. repeat case_match; done. Qed.

(** A write that is sent carries the record. *)
Lemma Save_spec b i prev old t refresh p :
  GetPersistenceType cfg i b ≠ PERSISTENT_NOT →
  SaveInstanceInfoToMetaStore cfg b i prev old t refresh = inl p →
  pd_new p = i ∧ pd_prev p = prev ∧ pd_context p = t ∧
  ∃ call, pd_call p = inl call ∧ written i (tc_version t) (pd_first p) call.
Proof using Type.
  intros Hp. unfold SaveInstanceInfoToMetaStore, TransToStoredData.
  rewrite (persistent_instance _ _ Hp). unfold TransInstanceInfo, TransRouteInfo.
  destruct (key_of (ii_id i)) as [k|] eqn:Ek; [|done]. cbn [mbind option_bind].
  destruct (to_json i) as [x|] eqn:Ex; [|done]. cbn [mbind option_bind].
  assert (Hw : ∀ route first lw, (route = None ∨ ∃ xr, to_json (TransToRouteInfoFromInstanceInfo i) = Some xr ∧
       route = Some (mkStoreInfo (GenInstanceRouteKey (instanceid (ii_id i))) xr)) →
     ∃ call, (if first : bool then Create (Some (mkStoreInfo k x)) route lw
              else Modify (Some (mkStoreInfo k x)) route (tc_version t) lw) = inl call ∧
             written i (tc_version t) first call).
  { intros route first lw Hr. destruct first; eexists; (split; [reflexivity|]);
      by exists k, x, route, lw. }
  destruct (stores_route _).
  - destruct (to_json (TransToRouteInfoFromInstanceInfo i)) as [xr|] eqn:Er; [|done].
    cbn [mbind option_bind]. intros [= <-]. cbn -[Create Modify]. split_and!; try done.
    destruct (Hw (Some (mkStoreInfo (GenInstanceRouteKey (instanceid (ii_id i))) xr))
      (IsFirstPersistence cfg i old (tc_version t)) (low cfg i)) as (call & Hc & Hwr); [right; eauto|].
    exists call. by split.
  - cbn [mbind option_bind]. intros [= <-]. cbn -[Create Modify]. split_and!; try done.
    destruct (Hw None (IsFirstPersistence cfg i old (tc_version t)) (low cfg i))
      as (call & Hc & Hwr); [by left|].
    exists call. by split.
Qed.

(** ** A whole transition *)
Lemma info_SetModRevision r c : info (ctx_SetModRevision r c) = info c.
Proof. unfold ctx_SetModRevision. by case_match. Qed.

Lemma OnPersisted_spec req r s :
  val (OnPersisted req r) s = r ∧
  core (exec (OnPersisted req r) s) =
    (match req with
     | Some q =>
         if IsOk (tr_status r)
         then ctx_SetModRevision (tr_modRevision r) ∘ UpdateScheduleReq q <$> instanceContext_ s
         else instanceContext_ s
     | None => instanceContext_ s
     end, SaveNull).
Proof.
  split; [done|]. destruct s as [? ? ? ? ? ? promise ? ? ? ?]. unfold OnPersisted.
  by destruct (IsOk (tr_status r)), req, promise.
Qed.

(** The record moved inside the machine only: no write. *)
Definition moved (i : InstanceInfo) (st : Z) (j : InstanceInfo) : Prop :=
  key_of (ii_id j) = key_of (ii_id i) ∧ code j = st ∧ version j = version i.

(** What a transition leaves behind and returns. *)
Inductive transit (c : Context) (t : TransContext) (promise : SavePromise)
    : option Context * SavePromise → Transition → Prop :=
  | transit_local c' r :
      moved (info c) (newState t) (info c') → IsOk (tr_status r) = true →
      transit c t promise (Some c', promise) (Ready r)
  | transit_saving c' t' p call :
      prepared c t c' t' (pd_new p) → pd_prev p = info c → pd_context p = t' →
      written (pd_new p) (tc_version t) (pd_first p) call →
      transit c t promise (Some c', SavePending) (Saving p call)
  | transit_invalid c' t' i r :
      prepared c t c' t' i → IsOk (tr_status r) = false → previousInfo r = info c →
      savedInfo r = info_empty →
      transit c t promise (Some c', SaveNull) (Ready r).

Lemma PersistenceInstanceInfo_spec c t c' t' i old refresh s :
  instanceContext_ s = Some c' → prepared c t c' t' i → tc_version t' = tc_version t →
  GetPersistenceType cfg i (isMetaStoreEnable_ s) ≠ PERSISTENT_NOT →
  transit c t (savePromise_ s)
    (core (exec (PersistenceInstanceInfo cfg i (info c) old t' refresh) s))
    (val (PersistenceInstanceInfo cfg i (info c) old t' refresh) s).
Proof using Type.
  intros Hc Hp Hv Hn. unfold PersistenceInstanceInfo, NewSavingPomise.
  rewrite !exec_bind, !val_bind, exec_modify, val_members, exec_members.
  cbn [isMetaStoreEnable_ set_promise].
  destruct (SaveInstanceInfoToMetaStore _ _ _ _ _ _ _) as [p|r] eqn:E.
  - destruct (Save_spec _ _ _ _ _ _ _ Hn E) as (<- & Hprev & Ht & call & Ecall & Hw).
    rewrite Ecall, val_ret, exec_ret. unfold core. cbn [instanceContext_ savePromise_ set_promise].
    rewrite Hc. apply (transit_saving _ _ _ c' t'); [done|done|done|by rewrite <- Hv].
  - unfold SaveInstanceInfoToMetaStore in E. case_match; [by case_match|]. injection E as <-.
    rewrite val_bind, exec_bind, val_ret, exec_ret.
    set (r := mkTR _ _ _ _ _ _).
    destruct (OnPersisted_spec (scheduleReq t') r (set_promise SavePending s)) as [-> ->].
    cbn [instanceContext_ set_promise]. rewrite Hc.
    assert (IsOk (tr_status r) = false) as Hr by done. rewrite Hr.
    replace (match scheduleReq t' with Some _ => Some c' | None => Some c' end) with (Some c')
      by by case_match.
    by eapply transit_invalid.
Qed.

(** The record that is stored: with its new version, without arguments when
    they are not kept, and stamped. *)
Lemma stored_prepared c t c1 t1 c2 t2 i1 stamp (b : bool) :
  let i2 := set_version (version i1 + 1) i1 in
  let i3 := if b then clear_args i2 else i2 in
  key_of (ii_id i1) = key_of (ii_id (info c)) → code i1 = newState t → version i1 = version (info c) →
  match scheduleReq t1 with
  | Some q => is_Some (scheduleReq t) ∧ c1 = c ∧ sq_instance q = i1
  | None => scheduleReq t = None ∧ info c1 = i1
  end →
  match scheduleReq t2 with
  | Some q => is_Some (scheduleReq t1) ∧ c2 = c1 ∧ sq_instance q = i2
  | None => scheduleReq t1 = None ∧ info c2 = i2
  end →
  prepared c t c2 t2 (set_extensions (<["updateTimestamp" := stamp]> (extensions i3)) i3).
Proof.
  intros i2 i3 Hk Hco Hve Hreq1 Hreq2.
  set (i4 := set_extensions _ i3).
  assert (same_record i2 i4) as Hs by by subst i4 i3; destruct b.
  pose proof Hs as Hsame.
  destruct Hs as (Hk4 & Hco4 & Hve4). unfold prepared.
  rewrite <- Hk4, <- Hco4, <- Hve4, <- Hve. split_and!; [done..|].
  destruct (scheduleReq t2) as [q|]; [destruct Hreq2 as (Hs1 & -> & ->)|destruct Hreq2 as [Hs1 ->]];
    [|rewrite Hs1 in Hreq1; by destruct Hreq1].
  destruct (scheduleReq t1); [|by destruct Hs1]. by destruct Hreq1 as (_ & -> & _).
Qed.

Lemma Transit_spec stamp t c old refresh s :
  instanceContext_ s = Some c → own_transition (info c) t → 0 ≤ version (info c) →
  transit c t (savePromise_ s) (core (exec (Transit cfg stamp t c old refresh) s))
    (val (Transit cfg stamp t c old refresh) s).
Proof using Type.
  intros Hc Hown Hge. unfold Transit. rewrite exec_bind, val_bind.
  pose proof (keeps_billing (newState t) s) as Hb. revert Hb.
  generalize (exec (SetInstanceBillingTerminated (newState t)) s). intros s1 [= Hc1 Hp1].
  rewrite Hc in Hc1. rewrite <- Hp1. clear s Hc Hp1. rename s1 into s.
  destruct (PrepareTransitionInfo cfg stamp t c) as [[[c1 t1] i1] prev] eqn:E1.
  destruct (PrepareTransitionInfo_spec _ _ _ _ _ _ _ E1 Hown)
    as (-> & Hn1 & Hv1 & Hk1 & Hco1 & Hve1 & Hreq1).
  rewrite exec_bind, val_bind, exec_modify, exec_bind, val_bind, val_members, exec_members.
  destruct (negb (persistence t) || _) eqn:Enot.
  - rewrite !exec_bind, !val_bind, val_ret, exec_ret.
    rewrite (keeps_when _ _ (keeps_publish i1 0)).
    destruct (scheduleReq t1) as [q|]; [destruct Hreq1 as (_ & -> & Hq)|destruct Hreq1 as [_ Hq]].
    + apply (transit_local _ _ _ (UpdateScheduleReq q c)); [|done].
      unfold moved. change (info (UpdateScheduleReq q c)) with (sq_instance q). by rewrite Hq.
    + apply (transit_local _ _ _ c1); [|done]. unfold moved. by rewrite Hq.
  - apply orb_false_iff in Enot as [_ Enot%bool_decide_eq_false].
    destruct (UpdateInstanceVersion t1 c1) as [[c2 t2] i2] eqn:E2.
    destruct (UpdateInstanceVersion_spec _ _ _ _ _ i1 E2) as (-> & Hn2 & Hv2 & Hreq2).
    { rewrite Hv1. destruct Hown as [-> _]. done. }
    { by rewrite Hve1. }
    { destruct (scheduleReq t1); naive_solver. }
    rewrite exec_bind, val_bind, exec_modify.
    change (savePromise_ s) with (savePromise_ (set_ctx (Some c2) (set_ctx (Some c1) s))).
    apply (PersistenceInstanceInfo_spec c t c2 t2); [done| |congruence|].
    + by apply (stored_prepared c t c1 t1 c2 t2 i1).
    + rewrite (GetPersistenceType_ext _ i1); [done|..]; by destruct (low cfg _ || _).
Qed.

(** A transition that does nothing. *)
Definition idle (r : TransitionResult) : Prop :=
  IsOk (tr_status r) = true ∨ previousInfo r = info_empty ∧ savedInfo r = info_empty.

Lemma verified_idle t old s : idle (val (VerifyTransitionState cfg t old) s).
Proof.
  unfold VerifyTransitionState, idle.
  repeat (rewrite ?val_bind, ?val_ret; case_match; try by (right; split) || left).
Qed.

Lemma TransitionTo_spec stamp t c s :
  instanceContext_ s = Some c → own_transition (info c) t → 0 ≤ version (info c) →
  let tr := val (TransitionTo Sha256Hex cfg stamp t) s in
  let s' := exec (TransitionTo Sha256Hex cfg stamp t) s in
  (∃ r, tr = Ready r ∧ core s' = core s ∧ idle r) ∨
  (legal (code (info c)) (newState t) ∧ transit c t (savePromise_ s) (core s') tr).
Proof.
  intros Hc Hown Hge. unfold TransitionTo. rewrite exec_bind, val_bind, val_members, exec_members, Hc.
  case_match. { left. eexists. split_and!; [done..|]. right. done. }
  case_match. { left. eexists. split_and!; [done..|]. by left. }
  case_match eqn:Eu. { right. split; [by apply unchecked_legal|]. by apply Transit_spec. }
  rewrite exec_bind, val_bind. destruct (preState _) eqn:Ep.
  - right. split; [apply (verified_legal _ _ s); by rewrite Ep|].
    pose proof (keeps_Verify t (code (info c)) s) as Hk. unfold core in Hk at 2.
    injection Hk as Hk1 Hk2. rewrite Hc in Hk1. rewrite <- Hk2. by apply Transit_spec.
  - left. eexists. split_and!; [done|apply keeps_Verify|apply verified_idle].
Qed.
End machine.
