(* ===== verification/InstanceCases.v ===== *)
(** * Transitions worth knowing

    Consequences of the code that a caller may not expect. *)

From S2P Require Import Prelude StdStrings MetaTypes MetaClient InstanceTypes InstanceOp InstanceMachine InstanceCtrl InstanceSystem InstanceInv.
From Stdlib Require Import ZArith Lia.
From stdpp Require Import base gmap strings fin_maps list.

Open Scope Z_scope.
Set Default Proof Using "Type".
Import InstanceState Operator Machine Ctrl.

Section cases.
Context {J : InstanceJson} (Sha256Hex : string → string) (cfg : Settings) (self : Actor).
Context (order : gmap string StateChangeCallback → list (string * StateChangeCallback)).

(** A transition that is refused before anything was changed carries an empty
    previous record, whose version is zero: on a machine at version one the
    roll-back replaces the record by the empty one. *)
Lemma refused_wipes k req s c v e :
  instanceContext_ s = Some c → version (info c) = 1 → e ≠ SUCCESS →
  instanceContext_ (exec (OnTransition self order k req (refused v e)) s)
    = Some (ctx_UpdateInstanceInfo info_empty c).
Proof.
  intros Hc Hv He. unfold OnTransition.
  assert (IsOk (tr_status (refused v e)) = false) as -> by by apply bool_decide_eq_false.
  rewrite exec_bind, val_members, exec_members, exec_bind, exec_when.
  unfold GetVersion. rewrite Hc. cbn [from_option]. rewrite bool_decide_true by done.
  change (exec (run ?m) s) with (exec m s). cbn [previousInfo savedInfo refused].
  rewrite bool_decide_true, exec_ret by done. unfold UpdateInstanceInfo.
  rewrite exec_bind, val_members, exec_members, Hc, exec_bind.
  pose proof (keeps_callbacks order (code info_empty) (exec (on_ctx (ctx_UpdateInstanceInfo info_empty)) s)) as Hk.
  injection Hk as Hk _. by rewrite Hk, Hc.
Qed.

(** The first record of a group's instance is stored without the time of its
    creation: whether it is the first is asked of a record not yet filled in. *)
Lemma group_without_create_time stamp t q c :
  DirectRouting cfg = false → ForceLow cfg = false → scheduleReq t = Some q → code (info c) = SCHEDULING →
  tc_version t = 0 → groupid (ii_id (sq_instance q)) ≠ "" →
  extensions (sq_instance q) !! CREATE_TIME_STAMP = None →
  let '(_, _, i, _) := PrepareTransitionInfo cfg stamp t c in
  IsFirstPersistence cfg i (code (info c)) (tc_version t) = true ∧ extensions i !! CREATE_TIME_STAMP = None.
Proof.
  intros Hd Hf Hq Hc Hv Hg He. unfold PrepareTransitionInfo. rewrite Hq.
  assert (IsFirstPersistence cfg info_empty (code (info c)) (tc_version t) = false) as ->.
  { unfold IsFirstPersistence, IsInitialLowReliabilityRunningPersistence. rewrite Hd, Hc, Hv.
    by destruct (low cfg info_empty). }
  assert (∀ i, groupid (ii_id i) ≠ "" → IsFirstPersistence cfg i (code (info c)) (tc_version t) = true) as Hfirst.
  { intros i Hi. unfold IsFirstPersistence. rewrite Hd, Hc, Hv. by rewrite (bool_decide_true (_ ≠ _)). }
  case_bool_decide; (split; [by apply Hfirst|]); cbn; [|done].
  rewrite lookup_delete_ne by done. done.
Qed.

(** The end of an evicting instance can be forced: it is a listed change. *)
Lemma evicting_can_be_ended : next_states EVICTING = Some [EVICTED; FATAL].
Proof. reflexivity. Qed.

(** The change of an exiting instance that the table lists is refused. *)
Lemma exiting_is_kept t s :
  next_states EXITING = Some [FATAL] ∧
  preState (val (VerifyTransitionState cfg t EXITING) s) = None.
Proof. done. Qed.
End cases.
