(* ===== verification/InstanceLife.v ===== *)
(** * The life of a stored record

    The invariant of the proxies and their store: every record that is stored,
    held by a machine or on its way belongs to one history of states per key,
    in which each state follows the one before it by legal changes. *)

From S2P Require Import Prelude StdStrings MetaTypes MetaClient InstanceTypes InstanceOp InstanceMachine InstanceCtrl InstanceSystem InstanceInv.
From Stdlib Require Import ZArith Lia.
From stdpp Require Import base gmap strings fin_maps relations list.

Open Scope Z_scope.
Set Default Proof Using "Type".
Import InstanceState Client Operator Machine Ctrl System.

(** ** Histories: the states of a key, version after version *)
Abbreviation history := (gmap string (list Z)).

Definition at_version (H : history) (k : string) (v : Z) : option Z :=
  l ← H !! k; if v <=? 0 then None else l !! Z.to_nat (v - 1).

Definition extends (H H' : history) : Prop :=
  ∀ k l, H !! k = Some l → ∃ l', H' !! k = Some (l ++ l').

Definition legal_history (H : history) : Prop :=
  ∀ k v c c', at_version H k v = Some c → at_version H k (v + 1) = Some c' → rtc legal c c'.

(** A record that is or was stored. *)
Definition good (H : history) (i : InstanceInfo) : Prop :=
  ∃ k, key_of (ii_id i) = Some k ∧ at_version H k (version i) = Some (code i).

(** A record a machine may hold: without a version, or derived from the stored
    record of its version. *)
Definition derived (H : history) (i : InstanceInfo) : Prop :=
  0 ≤ version i ∧
  (version i = 0 ∨
   ∃ k c, key_of (ii_id i) = Some k ∧ at_version H k (version i) = Some c ∧ rtc legal c (code i)).

#[global] Instance extends_refl : Reflexive extends.
Proof. intros H k l Hl. exists []. by rewrite app_nil_r. Qed.

Lemma at_version_mono H H' k v c :
  extends H H' → at_version H k v = Some c → at_version H' k v = Some c.
Proof.
  unfold at_version. intros He. destruct (H !! k) as [l|] eqn:El; [|done].
  destruct (He _ _ El) as [l' ->]. cbn. case_match; [done|]. apply lookup_app_l_Some.
Qed.
Lemma at_version_pos H k v c : at_version H k v = Some c → 1 ≤ v.
Proof. unfold at_version. destruct (H !! k); [|done]. cbn. destruct (Z.leb_spec v 0); [done|lia]. Qed.
Lemma at_version_Some H k v c : at_version H k v = Some c → is_Some (H !! k).
Proof. unfold at_version. by destruct (H !! k). Qed.
Lemma at_version_last H k l c :
  H !! k = Some l → last l = Some c → at_version H k (Z.of_nat (length l)) = Some c.
Proof.
  intros Hl Hc. unfold at_version. rewrite Hl. cbn.
  destruct l as [|a l]; [done|]. cbn [length]. destruct (Z.leb_spec (Z.of_nat (S (length l))) 0); [lia|].
  replace (Z.to_nat (Z.of_nat (S (length l)) - 1)) with (length l) by lia.
  by rewrite last_lookup in Hc.
Qed.

Lemma good_mono H H' i : extends H H' → good H i → good H' i.
Proof. intros He (k & Hk & Hv). exists k. eauto using at_version_mono. Qed.
Lemma derived_mono H H' i : extends H H' → derived H i → derived H' i.
Proof.
  intros He [Hge [Hi|(k & c & Hk & Hv & Hc)]]; (split; [done|]); [by left|].
  right. exists k, c. eauto using at_version_mono.
Qed.
Lemma good_derived H i : good H i → derived H i.
Proof.
  intros (k & Hk & Hv). split; [apply at_version_pos in Hv; lia|]. right. by exists k, (code i).
Qed.
Lemma good_same H i j : same_record i j → good H i → good H j.
Proof. intros (Hk & Hc & Hv) (k & Ek & Ev). exists k. by rewrite <- Hk, <- Hc, <- Hv. Qed.
Lemma derived_same H i j : same_record i j → derived H i → derived H j.
Proof. intros (Hk & Hc & Hv). unfold derived. by rewrite Hk, Hc, Hv. Qed.
Lemma derived_zero H i : version i = 0 → derived H i.
Proof. intros Hv. split; [lia|by left]. Qed.
Lemma derived_moved H i st j :
  derived H i → moved i st j → legal (code i) st → derived H j.
Proof.
  intros [Hge Hi] (Hk & Hc & Hv) Hl. unfold derived. rewrite Hk, Hc, Hv. split; [done|].
  destruct Hi as [Hi|(k & c & Ek & Ev & Hc')]; [by left|]. right. exists k, c.
  split_and!; [done..|]. by eapply rtc_r.
Qed.

Lemma legal_history_path H k v w c c' :
  legal_history H → v ≤ w → at_version H k v = Some c → at_version H k w = Some c' → rtc legal c c'.
Proof.
  intros Hl Hle Hv. pose proof (at_version_pos _ _ _ _ Hv) as Hp.
  remember (Z.to_nat (w - v)) as n eqn:En. revert w c' Hle En.
  induction n as [|n IH]; intros w c' Hle En Hw.
  - assert (w = v) as -> by lia. rewrite Hv in Hw. injection Hw as <-. done.
  - destruct (at_version H k (w - 1)) as [d|] eqn:Ed.
    + etrans; [apply (IH (w - 1) d); [lia|lia|done]|].
      apply (Hl k (w - 1)); [done|]. by replace (w - 1 + 1) with w by lia.
    + exfalso. unfold at_version in *. destruct (H !! k) as [l|]; [|done]. cbn in *.
      repeat case_match; try done; [lia|]. apply lookup_ge_None in Ed. apply lookup_lt_Some in Hw. lia.
Qed.

(** ** One more version *)
Definition grown (H : history) (k : string) (c : Z) : history :=
  <[k := default [] (H !! k) ++ [c]]> H.

Lemma grown_extends H k c : extends H (grown H k c).
Proof.
  intros k' l Hl. unfold grown. destruct (decide (k = k')) as [<-|Hne].
  - rewrite lookup_insert_eq. rewrite Hl. by exists [c].
  - rewrite lookup_insert_ne by done. exists []. by rewrite app_nil_r.
Qed.
Lemma grown_other H k c k' v : k ≠ k' → at_version (grown H k c) k' v = at_version H k' v.
Proof. intros Hne. unfold at_version, grown. by rewrite lookup_insert_ne. Qed.
Lemma grown_same H k c l :
  default [] (H !! k) = l →
  at_version (grown H k c) k (Z.of_nat (length l) + 1) = Some c ∧
  ∀ v d, at_version (grown H k c) k v = Some d →
    v = Z.of_nat (length l) + 1 ∧ d = c ∨ at_version H k v = Some d.
Proof.
  intros El. unfold at_version, grown. rewrite lookup_insert_eq. rewrite El. cbn. split.
  - destruct (Z.leb_spec (Z.of_nat (length l) + 1) 0); [lia|].
    apply list_lookup_middle. lia.
  - intros v d. destruct (Z.leb_spec v 0); [done|]. rewrite lookup_app_Some.
    intros [Hl|[Hge Hl]]; [right|left].
    + destruct (H !! k); [by subst l|]. by subst l.
    + apply list_lookup_singleton_Some in Hl as [? <-]. split; [lia|done].
Qed.

Lemma grown_legal H k c :
  legal_history H →
  (∀ l d, H !! k = Some l → last l = Some d → rtc legal d c) → legal_history (grown H k c).
Proof.
  intros Hl Hc k' v d d' Hd Hd'. destruct (decide (k = k')) as [<-|Hne].
  - destruct (grown_same H k c _ eq_refl) as [_ Hg].
    apply Hg in Hd as [[-> ->]|Hd]; apply Hg in Hd' as [[Ev ->]|Hd']; [done|..].
    + exfalso. unfold at_version in Hd'. destruct (H !! k) as [l|]; [|done]. cbn in Hd'.
      case_match; [done|]. apply lookup_lt_Some in Hd'. lia.
    + unfold at_version in Hd. destruct (H !! k) as [l|] eqn:El; [|done]. cbn in Hd, Ev.
      apply (Hc l); [done|]. rewrite last_lookup. case_match; [done|]. rewrite <- Hd. f_equal. lia.
    + eauto.
  - rewrite grown_other in Hd, Hd' by done. eauto.
Qed.

Section life.
Context {J : InstanceJson} {JOk : InstanceJsonOk} (Sha256Hex : string → string) (cfg : Settings).
Context (order : gmap string StateChangeCallback → list (string * StateChangeCallback)).
Context {St : Type} `{TxnStore St} (ok : St → Prop) {SOk : TxnStoreOk St ok}.

(** ** Stored values *)
Definition value_ok (h : history) (k x : string) : Prop :=
  (∃ i, key_of (ii_id i) = Some k ∧ to_json i = Some x ∧ good h i) ∨
  (∃ d i, k = GenInstanceRouteKey d ∧ to_json (TransToRouteInfoFromInstanceInfo i) = Some x ∧ good h i).

(** The record under an instance key is the last of its history. *)
Definition store_ok (h : history) (m : gmap string (string * Z)) (gone : gset string) : Prop :=
  (∀ k x v, m !! k = Some (x, v) →
    (∃ i l, key_of (ii_id i) = Some k ∧ to_json i = Some x ∧ version i = v ∧
       h !! k = Some l ∧ v = Z.of_nat (length l) ∧ last l = Some (code i)) ∨
    (∃ d i, k = GenInstanceRouteKey d ∧ to_json (TransToRouteInfoFromInstanceInfo i) = Some x ∧
       good h i)) ∧
  (∀ k, is_Some (h !! k) → m !! k = None → k ∈ gone).

(** ** Writes on their way *)
Definition expected (e : Z) (first : bool) : Z := if first then 0 else e.

Definition write_ok (h : history) (i : InstanceInfo) (e : Z) : Prop :=
  ∃ k, key_of (ii_id i) = Some k ∧ 0 ≤ e ∧
    (version i = e + 1 ∨ e = 0 ∧ is_Some (h !! k)) ∧
    (e = 0 ∨ ∃ c, at_version h k e = Some c ∧ rtc legal c (code i)).

Definition no_put (o : TxnOperation) : bool := match o with PutOp _ _ _ => false | _ => true end.
Definition deletes (c : Call) : Prop :=
  plain_txn (cl_txn c) ∧ forallb no_put (thenOps (cl_txn c)) = true ∧
  forallb no_put (elseOps (cl_txn c)) = true.

Definition sent_ok (h : history) (c : Call) : Prop :=
  (∃ i e first, written i e first c ∧ write_ok h i (expected e first)) ∨ deletes c.

(** What an answer tells: the record is stored, or the record that is. *)
Definition result_ok (h : history) (i : InstanceInfo) (r : OperateResult) : Prop :=
  if IsOk (or_status r) then good h i else ∀ j, of_json (or_value r) = Some j → good h j.

Definition reply_ok (h : history) (c : Call) (a : TxnAnswer) : Prop :=
  ∀ i e first r, written i e first c → read_answer c a = Some r → result_ok h i r.

(** ** Machines *)
Definition waits_for (w : Wait) : option Kont * Pending :=
  match w with ForWrite k p _ => (k, p) | ForRoute k p _ => (k, p) end.

Definition wait_ok (h : history) (w : Wait) (c : Context) : Prop :=
  let '(k, p) := waits_for w in
  derived h (pd_prev p) ∧ version (pd_new p) = version (pd_prev p) + 1 ∧
  match w with
  | ForWrite _ _ call => ∃ e, written (pd_new p) e (pd_first p) call
  | ForRoute _ _ st => IsOk st = false
  end ∧
  match scheduleReq (pd_context p) with
  | Some q => same_record (sq_instance q) (pd_new p) ∧ derived h (info c)
  | None => k ≠ None ∧ (derived h (info c) ∨ same_record (info c) (pd_new p))
  end.

Definition machine_ok (h : history) (s : option Context * SavePromise) (w : option Wait) : Prop :=
  ∃ c, s.1 = Some c ∧
  match w with
  | None => s.2 ≠ SavePending ∧ derived h (info c)
  | Some w => s.2 = SavePending ∧ wait_ok h w c
  end.

(** ** All of it *)
Record inv_at (h : history) (y : Sys) : Prop := mk_inv {
  inv_ok : ok (store y);
  inv_legal : legal_history h;
  inv_store : store_ok h (ts_map (store y)) (retired y);
  inv_machines n a s : machines y !! n = Some (a, s) → machine_ok h (core s) (waits y !! n);
  inv_waits n : machines y !! n = None → waits y !! n = None;
  inv_sent c : c ∈ sent y → sent_ok h c;
  inv_replies c a : (c, a) ∈ replies y → reply_ok h c a;
  inv_seen k x : (k, x) ∈ seen y → value_ok h k x }.

(** ** Monotonicity *)
Lemma value_mono h h' k x : extends h h' → value_ok h k x → value_ok h' k x.
Proof.
  intros He [(i & ? & ? & ?)|(d & i & ? & ? & ?)]; [left; exists i|right; exists d, i];
    eauto using good_mono.
Qed.
Lemma write_mono h h' i e : extends h h' → write_ok h i e → write_ok h' i e.
Proof.
  intros He (k & Hk & Hge & Hv & Hc). exists k. split_and!; [done..| |].
  - destruct Hv as [Hv|[-> [l Hl]]]; [by left|]. right. split; [done|]. destruct (He _ _ Hl) as [l' ->]. eauto.
  - destruct Hc as [->|(c & Hc & Hp)]; [by left|]. right. exists c. eauto using at_version_mono.
Qed.
Lemma sent_mono h h' c : extends h h' → sent_ok h c → sent_ok h' c.
Proof.
  intros He [(i & e & first & Hw & Hok)|Hd]; [|by right]. left. exists i, e, first.
  eauto using write_mono.
Qed.
Lemma result_mono h h' i r : extends h h' → result_ok h i r → result_ok h' i r.
Proof. unfold result_ok. intros He. case_match; eauto using good_mono. Qed.
Lemma reply_mono h h' c a : extends h h' → reply_ok h c a → reply_ok h' c a.
Proof. intros He Hr i e first r Hw Hra. eauto using result_mono. Qed.
Lemma wait_mono h h' w c : extends h h' → wait_ok h w c → wait_ok h' w c.
Proof.
  intros He. unfold wait_ok. destruct (waits_for w) as [k p]. intros (Hp & Hv & Hw & Hl).
  split_and!; [by eapply derived_mono|done..|].
  case_match; destruct_and?; destruct_or?; eauto using derived_mono.
Qed.
Lemma machine_mono h h' s w : extends h h' → machine_ok h s w → machine_ok h' s w.
Proof.
  intros He (c & Hc & Hw). exists c. split; [done|].
  destruct w; destruct Hw; eauto using wait_mono, derived_mono.
Qed.

(** ** Reading values *)
Lemma key_not_route d k d' : key_of d = Some k → k ≠ GenInstanceRouteKey d'.
Proof.
  unfold key_of, GenInstanceKey. intros Hk ->. destruct (Split _ _) as [|? [|? [|? []]]]; try done.
Qed.
Lemma route_same i : same_record (TransToInstanceInfoFromRouteInfo (TransToRouteInfoFromInstanceInfo i)) i.
Proof. done. Qed.

Lemma value_instance h k x j : value_ok h k x → of_json x = Some j → good h j.
Proof using JOk.
  intros [(i & Hk & Hx & Hg)|(d & i & -> & Hx & Hg)] Hj.
  - rewrite (instance_back _ _ Hx) in Hj. by injection Hj as <-.
  - rewrite (route_reads _ _ Hx) in Hj. injection Hj as <-. by eapply good_same.
Qed.
Lemma value_route h d x r :
  value_ok h (GenInstanceRouteKey d) x → of_json x = Some r → good h (TransToInstanceInfoFromRouteInfo r).
Proof using JOk.
  intros [(i & Hk & _)|(d' & i & _ & Hx & Hg)] Hr; [by destruct (key_not_route _ _ d Hk)|].
  rewrite (route_back _ _ Hx) in Hr. injection Hr as <-. by eapply good_same.
Qed.
Lemma value_reads h k x i : value_ok h k x → reads_as k x i → good h i.
Proof using JOk.
  intros Hv [(j & Hj & Hs)|(d & r & -> & Hr & Hs)]; eapply good_same; try done.
  - by eapply value_instance.
  - by eapply value_route.
Qed.
Lemma store_value h m gone k x v : store_ok h m gone → m !! k = Some (x, v) → value_ok h k x.
Proof.
  intros [Hm _] Hk. destruct (Hm _ _ _ Hk) as [(i & l & ? & ? & <- & Hl & Hv & Hc)|(d & i & ? & ? & ?)].
  - left. exists i. split_and!; [done..|]. exists k. split; [done|]. rewrite Hv. by apply at_version_last.
  - right. by exists d, i.
Qed.

(** ** Machines that take records over *)
Lemma core_UpdateInstanceInfo i s c :
  instanceContext_ s = Some c →
  core (exec (UpdateInstanceInfo order i) s) = (Some (ctx_UpdateInstanceInfo i c), savePromise_ s).
Proof.
  intros Hc. unfold UpdateInstanceInfo. rewrite exec_bind, val_members, exec_members, Hc, exec_bind.
  rewrite (keeps_callbacks order). unfold on_ctx, core. rewrite exec_modify. cbn. by rewrite Hc.
Qed.

Lemma machine_takes h i s w :
  machine_ok h (core s) w → derived h i →
  machine_ok h (core (exec (UpdateInstanceInfo order i) s)) w.
Proof.
  intros (c & Hc & Hw) Hi. rewrite (core_UpdateInstanceInfo _ _ c) by done.
  exists (ctx_UpdateInstanceInfo i c). split; [done|]. destruct w as [w|]; [|by destruct Hw].
  destruct Hw as [Hp Hw]. split; [done|]. unfold wait_ok in *. destruct (waits_for w) as [k p].
  destruct Hw as (? & ? & ? & Hl). split_and!; [done..|]. case_match; destruct Hl; auto.
Qed.

(** Changes that keep a derived record derived and leave a record that waits
    alone or derived. *)
Lemma machine_edits h f s w :
  machine_ok h (core s) w → (∀ c, derived h (info (f c)) ∨ same_record (info c) (info (f c))) →
  machine_ok h (core (exec (on_ctx f) s)) w.
Proof.
  intros (c & Hc & Hw) Hf. exists (f c).
  change (core (exec (on_ctx f) s)) with (f <$> instanceContext_ s, savePromise_ s).
  change (instanceContext_ s = Some c) in Hc. cbn [fst snd]. rewrite Hc. split; [done|].
  assert (Hd : derived h (info c) → derived h (info (f c))).
  { intros Hd. destruct (Hf c) as [|Hs]; [done|]. by eapply derived_same. }
  destruct w as [w|]; [|by destruct Hw; auto]. destruct Hw as [Hp Hw]. split; [done|].
  unfold wait_ok in *. destruct (waits_for w) as [k p]. destruct Hw as (? & ? & ? & Hl).
  split_and!; [done..|]. case_match; [by destruct Hl; auto|]. destruct Hl as [Hk Hl]. split; [done|].
  destruct Hl as [Hl|Hs]; [left; auto|]. destruct (Hf c) as [|(Hs1 & Hs2 & Hs3)]; [by left|].
  right. destruct Hs as (? & ? & ?). unfold same_record. split_and!; congruence.
Qed.

Lemma machine_SetVersion h s w :
  machine_ok h (core s) w → machine_ok h (core (exec (SetVersion 0) s)) w.
Proof. intros Hm. apply machine_edits; [done|]. intros c. left. by apply derived_zero. Qed.

Lemma machine_keeps {W A} h (m : Act Machine.State W A) s w :
  keeps m → machine_ok h (core s) w → machine_ok h (core (exec m s)) w.
Proof. intros Hk. by rewrite Hk. Qed.

(** ** The end of a transition *)
Definition settled (h : history) (r : TransitionResult) (i : InstanceInfo) : Prop :=
  if IsOk (tr_status r) then derived h i
  else (derived h i ∨ version i = version (previousInfo r) + 1) ∧
       derived h (previousInfo r) ∧ derived h (savedInfo r).

Lemma idle_settled h r i : idle r → derived h i → settled h r i.
Proof.
  intros Hr Hi. unfold settled. destruct Hr as [->|[-> ->]]; [done|].
  case_match; [done|]. split_and!; [by left|by apply derived_zero..].
Qed.

Lemma OnTransition_ok h a k req r s c :
  instanceContext_ s = Some c → savePromise_ s ≠ SavePending → settled h r (info c) →
  machine_ok h (core (exec (OnTransition a order k req r) s)) None.
Proof.
  intros Hc Hp Hr. unfold OnTransition. unfold settled in Hr. destruct (IsOk _).
  { apply machine_keeps; [|by exists c]. apply kept_bind; [apply keeps_after|]. intros. apply keeps_ret. }
  destruct Hr as (Hi & Hprev & Hsaved).
  rewrite exec_bind, val_members, exec_members, exec_bind.
  assert (machine_ok h (core (exec (act_when (bool_decide (GetVersion s = version (previousInfo r) + 1))
      (run (UpdateInstanceInfo order (previousInfo r)))) s)) None) as Hm.
  { rewrite exec_when. case_bool_decide as Hv.
    - change (exec (run ?m) s) with (exec m s). rewrite (core_UpdateInstanceInfo _ _ c) by done.
      eexists. by split.
    - exists c. split; [done|]. split; [done|]. destruct Hi as [|Hi]; [done|].
      exfalso. apply Hv. unfold GetVersion. by rewrite Hc. }
  revert Hm. generalize (exec (act_when (bool_decide (GetVersion s = version (previousInfo r) + 1))
      (run (UpdateInstanceInfo order (previousInfo r)))) s). clear s Hc Hp Hi. intros s Hm.
  case_bool_decide; [done|]. rewrite !exec_bind.
  assert (machine_ok h (core (exec (act_when (bool_decide (owner (savedInfo r) ≠ nodeID_ a))
      (run (SetVersion 0))) (exec (run (UpdateInstanceInfo order (savedInfo r))) s))) None) as Hm'.
  { rewrite exec_when. case_bool_decide; [apply (machine_SetVersion h (exec (UpdateInstanceInfo order (savedInfo r)) s))|];
      by apply machine_takes. }
  case_match; [|done]. apply machine_keeps; [|done].
  apply kept_bind; [apply keeps_after|]. intros. apply keeps_ret.
Qed.

(** ** Steps of one machine *)
Lemma inv_machine h y n a s w :
  inv_at h y → machine_ok h (core s) w → inv_at h (set_wait n w (set_machine n a s y)).
Proof.
  intros [? ? ? Hm Hw ? ? ?] Hs. split; try done; intros n'; cbn;
    destruct (decide (n = n')) as [<-|Hne];
    rewrite ?lookup_insert_eq, ?lookup_partial_alter_eq, ?lookup_insert_ne, ?lookup_partial_alter_ne by done;
    [naive_solver|apply Hm|done|apply Hw].
Qed.
Lemma inv_update h y n a s :
  inv_at h y → machine_ok h (core s) (waits y !! n) → inv_at h (set_machine n a s y).
Proof.
  intros [? ? ? Hm Hw ? ? ?] Hs. split; try done; intros n'; cbn;
    (destruct (decide (n = n')) as [<-|Hne]; [rewrite lookup_insert_eq|rewrite lookup_insert_ne by done]);
    [naive_solver|apply Hm|done|apply Hw].
Qed.
Lemma inv_send h y c : inv_at h y → sent_ok h c → inv_at h (send c y).
Proof. intros [] Hc. split; try done. intros c' [->|?]%elem_of_cons; auto. Qed.

Definition moves_ok (h : history) (k : option Kont) (s : Machine.State) (tr : Transition) : Prop :=
  match tr with
  | Ready r =>
      ∃ c, instanceContext_ s = Some c ∧ savePromise_ s ≠ SavePending ∧ settled h r (info c) ∧
        (k = None → derived h (info c))
  | Saving p call => machine_ok h (core s) (Some (ForWrite k p call)) ∧ sent_ok h call
  | ReadingRoute p st => machine_ok h (core s) (Some (ForRoute k p st))
  end.

Lemma go_on_ok h y n a k req tr s :
  inv_at h y → moves_ok h k s tr → inv_at h (go_on order n a k req tr s y).
Proof.
  intros Hy Hm. destruct tr as [r|p call|p st]; cbn in *.
  - apply inv_machine; [done|]. destruct Hm as (c & Hc & Hp & Hr & Hk).
    destruct k as [k|]; [by eapply OnTransition_ok|]. exists c. auto.
  - destruct Hm. apply inv_send; [|done]. by apply inv_machine.
  - by apply inv_machine.
Qed.

(** A new write is one the store may execute. *)
Lemma new_write h c t i first :
  derived h (info c) → own_transition (info c) t → legal (code (info c)) (newState t) →
  key_of (ii_id i) = key_of (ii_id (info c)) → code i = newState t → version i = version (info c) + 1 →
  is_Some (key_of (ii_id i)) → write_ok h i (expected (tc_version t) first).
Proof.
  intros [Hge Hd] [Hv _] Hl Hk Hc Hi [k Ek]. exists k. rewrite Hv, Hi, Hc. unfold expected.
  split; [done|]. destruct Hd as [Hd|(k' & d & Ek' & Hat & Hp)].
  - rewrite Hd. destruct first; split_and!; auto with lia.
  - assert (k' = k) as -> by congruence. apply at_version_Some in Hat as Hs.
    destruct first; split_and!; auto with lia. right. exists d. split; [done|]. by eapply rtc_r.
Qed.

Lemma transit_ok h k c t promise s tr :
  derived h (info c) → own_transition (info c) t → legal (code (info c)) (newState t) →
  promise ≠ SavePending → (k = None → is_Some (scheduleReq t)) →
  transit c t promise (core s) tr → moves_ok h k s tr.
Proof.
  intros Hd Hown Hl Hp Hk Htr. remember (core s) as co eqn:Eco.
  destruct Htr as [c' r Hm Hr|c' t' p call Hpr Hprev Ht' Hw|c' t' i r Hpr Hr Hprev Hsaved];
    injection Eco as Ec Es.
  - exists c'. rewrite <- Es. assert (derived h (info c')) by by eapply derived_moved.
    split_and!; [done..| |done]. unfold settled. by rewrite Hr.
  - destruct Hpr as (Hki & Hco & Hve & Hreq). split.
    + exists c'. split; [done|]. split; [done|]. unfold wait_ok. cbn. rewrite Hprev, Ht'.
      split_and!; [done..|by eexists|].
      destruct (scheduleReq t'); [by destruct Hreq as [-> ?]|]. destruct Hreq as [Ht Hs].
      split; [|by right]. intros E. destruct (Hk E). congruence.
    + left. exists (pd_new p), (tc_version t), (pd_first p). split; [done|].
      eapply new_write; try done. destruct Hw as (? & ? & ? & ? & -> & _). done.
  - destruct Hpr as (Hki & Hco & Hve & Hreq). exists c'. rewrite <- Es. split_and!; [done..| |].
    + unfold settled. rewrite Hr, Hprev, Hsaved. split_and!; [|done|by apply derived_zero].
      destruct (scheduleReq t'); [destruct Hreq as [-> _]; by left|].
      destruct Hreq as [_ (_ & _ & ->)]. by right.
    + intros E. destruct (scheduleReq t'); [by destruct Hreq as [-> _]|].
      destruct (Hk E). destruct Hreq. congruence.
Qed.

Lemma TransitionTo_ok h k stamp t c s :
  instanceContext_ s = Some c → savePromise_ s ≠ SavePending → derived h (info c) →
  own_transition (info c) t → (k = None → is_Some (scheduleReq t)) →
  moves_ok h k (exec (TransitionTo Sha256Hex cfg stamp t) s)
    (val (TransitionTo Sha256Hex cfg stamp t) s).
Proof using Type.
  intros Hc Hp Hd Hown Hk. pose proof Hd as [Hge _].
  destruct (TransitionTo_spec Sha256Hex cfg stamp t c s Hc Hown Hge) as [(r & -> & Hs & Hr)|[Hl Htr]].
  - injection Hs as Hs1 Hs2. exists c. rewrite Hs1, Hs2. split_and!; [done..| |done].
    by apply idle_settled.
  - by eapply transit_ok.
Qed.

(** ** Beginnings *)
Lemma TransInstanceState_spec stamp t s :
  let st := val (TransInstanceState Sha256Hex cfg stamp t) s in
  let s' := exec (TransInstanceState Sha256Hex cfg stamp t) s in
  (match st with Waiting _ _ => False | _ => True end ∧ core s' = core s) ∨
  (savePromise_ s ≠ SavePending ∧ s' = exec (TransitionTo Sha256Hex cfg stamp t) s ∧
   ∃ k, st = Waiting k (val (TransitionTo Sha256Hex cfg stamp t) s)).
Proof.
  unfold TransInstanceState. rewrite exec_bind, val_bind, val_members, exec_members.
  destruct (IsSaving s) eqn:Es; [by left|].
  destruct (bool_decide _ && _); [by left|]. destruct (overtaken_resume _ _); [by left|]. right. split; [|by split; [|eexists]]. intros E. unfold IsSaving in Es. by rewrite E in Es.
Qed.

Lemma TryExitInstance_spec stamp q sync s c :
  instanceContext_ s = Some c →
  let st := val (TryExitInstance Sha256Hex cfg stamp q sync) s in
  let s' := exec (TryExitInstance Sha256Hex cfg stamp q sync) s in
  (match st with Exited _ _ => True | _ => False end ∧ core s' = core s) ∨
  (∃ s0 t n, core s0 = core s ∧ tc_version t = version (info c) ∧ scheduleReq t = Some q ∧
     s' = exec (TransitionTo Sha256Hex cfg stamp t) s0 ∧
     st = ExitTransition (val (TransitionTo Sha256Hex cfg stamp t) s0) n sync).
Proof.
  intros Hc. unfold TryExitInstance. rewrite exec_bind, val_bind, val_members, exec_members, Hc.
  destruct (bool_decide (code _ ≠ _)); [by left|]. destruct (bool_decide (code _ = _)).
  { left. split; [done|]. rewrite exec_bind, exec_ret. apply keeps_exit. }
  right. rewrite !exec_bind, !val_bind, exec_ret, val_ret, exec_modify.
  do 3 eexists. split_and!; [..|reflexivity|reflexivity]; done.
Qed.

(** ** Answers *)
Lemma persisted_ok h w k p req r s :
  machine_ok h (core s) (Some w) → waits_for w = (k, p) →
  same_request (scheduleReq (pd_context p)) req →
  previousInfo r = pd_prev p → derived h (savedInfo r) →
  (IsOk (tr_status r) = true → good h (pd_new p)) →
  moves_ok h k (exec (OnPersisted req r) s) (Ready r).
Proof.
  intros (c & Hc & Hp & Hw) Ew Hreq Hprev Hsaved Hgood. unfold wait_ok in Hw. rewrite Ew in Hw.
  destruct Hw as (Hdp & Hv & _ & Hl). change (instanceContext_ s = Some c) in Hc.
  destruct (OnPersisted_spec req r s) as [_ Hs]. injection Hs as Hs1 Hs2. rewrite Hc in Hs1.
  cbn [moves_ok]. rewrite Hs1, Hs2. unfold settled. destruct (IsOk (tr_status r)).
  - specialize (Hgood eq_refl). apply good_derived in Hgood.
    assert (∃ c', (match req with Some q => (ctx_SetModRevision (tr_modRevision r) ∘ UpdateScheduleReq q <$> Some c)
      | None => Some c end) = Some c' ∧ derived h (info c')) as (c' & -> & Hd).
    { destruct (scheduleReq (pd_context p)), req; try done.
      - eexists. split; [done|]. cbn. rewrite info_SetModRevision. destruct Hl as [Hl _].
        eapply derived_same; [exact Hreq|]. eapply derived_same; [|done].
        destruct Hl as (? & ? & ?). done.
      - exists c. split; [done|]. destruct Hl as [_ [Hl|(? & ? & ?)]]; [done|].
        by eapply derived_same. }
    exists c'. done.
  - exists c. rewrite Hprev. split; [by destruct req|]. split; [done|]. split_and!; [|done..|].
    + destruct (scheduleReq _); [by left; destruct Hl|]. destruct Hl as [_ [Hl|(_ & _ & Hl)]]; [by left|].
      right. congruence.
    + intros ->. destruct (scheduleReq _); by destruct Hl.
Qed.

(** What the continuations of a write make of its result. *)
Definition told (p : Pending) (result : OperateResult) (x : TransitionResult + string) : Prop :=
  match x with
  | inl r =>
      IsOk (tr_status r) = IsOk (or_status result) ∧ previousInfo r = pd_prev p ∧
      (savedInfo r = info_empty ∨
       IsOk (or_status result) = false ∧ of_json (or_value result) = Some (savedInfo r))
  | inr _ => IsOk (or_status result) = false
  end.

Lemma OnCreated_told p result s : told p result (val (OnCreated cfg p result) s).
Proof using Type.
  unfold OnCreated, told. destruct (IsOk (or_status result)) eqn:E; [by rewrite val_bind, val_ret; auto|].
  destruct (pd_resolve p && _); rewrite val_ret; [done|]. cbn. split_and!; [done..|]. destruct (of_json (or_value result)); auto.
Qed.
Lemma OnModified_told p result s : told p result (inl (val (OnModified cfg p result) s)).
Proof using Type.
  unfold OnModified, told. destruct (IsOk (or_status result)) eqn:E; [by rewrite val_bind, val_ret; auto|].
  rewrite !val_bind, val_ret. cbn. split_and!; [done..|].
  destruct (of_json (or_value result)); auto.
Qed.

Lemma OnOperated_ok h k p call req result s :
  machine_ok h (core s) (Some (ForWrite k p call)) →
  same_request (scheduleReq (pd_context p)) req → result_ok h (pd_new p) result →
  moves_ok h k (exec (OnOperated cfg p req result) s) (val (OnOperated cfg p req result) s).
Proof using Type.
  intros Hm Hreq Hr. unfold OnOperated. rewrite exec_bind, val_bind.
  set (m := if pd_first p then _ else _).
  assert (keeps m) as Hk.
  { subst m. case_match; [apply keeps_OnCreated|]. apply kept_bind; [apply keeps_OnModified|].
    intros. apply keeps_ret. }
  assert (told p result (val m s)) as Ht.
  { subst m. case_match; [apply OnCreated_told|]. rewrite val_bind, val_ret. apply OnModified_told. }
  revert Ht. specialize (Hk s). rewrite <- Hk in Hm. clear Hk. revert Hm.
  generalize (exec m s), (val m s). clear m s. intros s [r|rk] Hm Ht; unfold told in Ht.
  - rewrite val_bind, exec_bind, exec_ret, val_ret.
    destruct (OnPersisted_spec req r s) as [-> _]. destruct Ht as (Hok & Hprev & Hsaved).
    eapply persisted_ok; [done..| |].
    + unfold result_ok in Hr. destruct Hsaved as [->|[Hn Hj]]; [by apply derived_zero|].
      rewrite Hn in Hr. apply good_derived. eauto.
    + rewrite Hok. unfold result_ok in Hr. intros E. by rewrite E in Hr.
  - cbn. destruct Hm as (c & Hc & Hp & Hd & Hv & _ & Hl). by exists c.
Qed.

Lemma OnRouteRead_ok h k p st req fut s :
  machine_ok h (core s) (Some (ForRoute k p st)) →
  same_request (scheduleReq (pd_context p)) req →
  match fut with
  | Some r => IsOk (or_status r) = true →
      value_ok h (GenInstanceRouteKey (instanceid (ii_id (pd_new p)))) (or_value r)
  | None => True
  end →
  moves_ok h k (exec (OnRouteRead p req st fut) s) (val (OnRouteRead p req st fut) s).
Proof using JOk.
  intros Hm Hreq Hf. unfold OnRouteRead. rewrite exec_bind, val_bind, exec_ret, val_ret.
  set (r := ResolveInitialLowReliabilityCreateConflict p st fut).
  destruct (OnPersisted_spec req r s) as [-> _].
  assert (tr_status r = st ∧ previousInfo r = pd_prev p ∧ derived h (savedInfo r)) as (Hst & Hprev & Hd).
  { subst r. unfold ResolveInitialLowReliabilityCreateConflict.
    destruct fut as [q|]; [|by split_and!; [..|apply derived_zero]].
    unfold IsError. destruct (IsOk (or_status q)); [|by split_and!; [..|apply derived_zero]]. cbn.
    case_match eqn:Er; [|by split_and!; [..|apply derived_zero]].
    case_match; [|by split_and!; [..|apply derived_zero]]. split_and!; [done..|].
    apply good_derived. eapply value_route; eauto. }
  destruct Hm as (c & Hc & Hp & Hw). assert (IsOk st = false) as Hno by apply Hw.
  eapply (persisted_ok _ (ForRoute k p st)); try done; [by exists c|]. by rewrite Hst, Hno.
Qed.
End life.
