(* ===== verification/InstanceExec.v ===== *)
(** * The store executes a write

    What the transactions of the instance operator do to the stored records,
    and what their answers tell. *)

From S2P Require Import Prelude StdStrings MetaTypes MetaClient InstanceTypes InstanceOp InstanceMachine InstanceCtrl InstanceSystem InstanceInv InstanceLife.
From Stdlib Require Import ZArith Lia.
From stdpp Require Import base gmap strings fin_maps relations list.

Open Scope Z_scope.
Set Default Proof Using "Type".
Import InstanceState Client Operator Machine Ctrl System.

Section exec.
Context {J : InstanceJson} {JOk : InstanceJsonOk}.
Implicit Types (h : history) (m : gmap string (string * Z)).

(** ** The transactions *)
Definition puts (k x : string) (route : option StoreInfo) (opt : PutOption) : list TxnOperation :=
  PutOp k x opt :: option_list ((λ r, PutOp (si_key r) (si_value r) opt) <$> route).
Definition gets (k : string) (route : option StoreInfo) : list TxnOperation :=
  GetOp k (getOption 1) :: option_list ((λ r, GetOp (si_key r) (getOption 1)) <$> route).

(** The route that goes with a record. *)
Definition route_of (i : InstanceInfo) (route : option StoreInfo) : Prop :=
  route = None ∨ ∃ xr, to_json (TransToRouteInfoFromInstanceInfo i) = Some xr ∧
    route = Some (mkStoreInfo (GenInstanceRouteKey (instanceid (ii_id i))) xr).

Lemma written_shape i e first c :
  written i e first c →
  ∃ k x route lw,
    key_of (ii_id i) = Some k ∧ to_json i = Some x ∧ route_of i route ∧
    thenOps (cl_txn c) = puts k x route (mkPutOption 0 false lw) ∧
    elseOps (cl_txn c) = gets k route ∧
    forallb plain_compare (compares (cl_txn c)) = true ∧
    (∀ m, forallb (holds m) (compares (cl_txn c)) = true → stored_version m k = expected e first) ∧
    cl_values c = x :: option_list (si_value <$> route) ∧
    cl_keySize c = length (cl_values c) ∧
    cl_reader c = if first then ReadCreate else ReadModify.
Proof.
  intros (k & x & route & lw & Hk & Hx & Hr & Hc). exists k, x, route, lw.
  destruct first, route as [r|]; injection Hc as <-; (split_and!; [done..| |done|done|done]);
    intros m; cbn; rewrite ?andb_true_iff, ?bool_decide_eq_true; tauto.
Qed.

Lemma written_plain i e first c : written i e first c → plain_txn (cl_txn c).
Proof.
  intros Hw. destruct (written_shape _ _ _ _ Hw)
    as (k & x & route & lw & Hk & _ & Hr & Ht & He & Hc & _).
  unfold plain_txn. rewrite Ht, He. pose proof (key_not_route _ _ (instanceid (ii_id i)) Hk) as Hne.
  assert (k ≠ "") as Hk0.
  { intros ->. unfold key_of, GenInstanceKey in Hk. by destruct (Split _ _) as [|? [|? [|? []]]]. }
  clear - Hne Hk0 Hc Hr.
  assert (NoDup [k; GenInstanceRouteKey (instanceid (ii_id i))]) as Hnd.
  { apply NoDup_cons. split; [by rewrite list_elem_of_singleton|]. apply NoDup_singleton. }
  destruct Hr as [->|(xr & _ & ->)]; cbn; split_and!; try done; try apply NoDup_singleton;
    by repeat constructor.
Qed.

(** Deletions, of different keys. *)
Definition some_keys (l : list string) : Prop := NoDup l ∧ Forall (λ k, k ≠ "") l.
Definition deleted_keys (i : StoreInfo) (route debug : option StoreInfo) : list string :=
  si_key i :: option_list (si_key <$> route) ++ option_list (si_key <$> debug).

Lemma Delete_deletes i route debug v lw c :
  Delete (Some i) route debug v lw = inl c → some_keys (deleted_keys i route debug) → deletes c.
Proof.
  intros [= <-] [Hn Hf]. unfold deletes, plain_txn, deleted_keys in *. clear JOk.
  destruct route, debug; cbn in *; rewrite ?Forall_cons, ?Forall_nil in *; cbn in *; split_and!; try tauto;
    apply NoDup_singleton.
Qed.
Lemma ForceDelete_deletes i route debug lw c :
  ForceDelete (Some i) route debug lw = inl c → some_keys (deleted_keys i route debug) → deletes c.
Proof.
  intros [= <-] [Hn Hf]. unfold deletes, plain_txn, deleted_keys in *. clear JOk.
  destruct route, debug; cbn in *; rewrite ?Forall_cons, ?Forall_nil in *; cbn in *; split_and!; tauto.
Qed.

Lemma some_keys_of (a b c : string) (ob oc : option string) :
  a ≠ b → a ≠ c → b ≠ c → a ≠ "" → b ≠ "" → c ≠ "" → ob = None ∨ ob = Some b → oc = None ∨ oc = Some c →
  some_keys (a :: option_list ob ++ option_list oc).
Proof.
  intros ? ? ? ? ? ? Hob Hoc. split; [apply NoDup_ListNoDup|];
    destruct Hob as [->| ->], Hoc as [->| ->]; repeat constructor; cbn; intuition.
Qed.

Lemma instance_keys i k x route :
  key_of (ii_id i) = Some k →
  route = None ∨ route = Some (mkStoreInfo (GenInstanceRouteKey (instanceid (ii_id i))) "") →
  some_keys (deleted_keys (mkStoreInfo k x) route (debug_info i)).
Proof.
  intros Hk Hr. unfold key_of, GenInstanceKey in Hk. destruct (Split _ _) as [|? [|? [|? []]]]; try done.
  injection Hk as <-. unfold debug_info, deleted_keys.
  apply (some_keys_of _ (GenInstanceRouteKey (instanceid (ii_id i)))
    (DEBUG_INSTANCE_PREFIX +:+ instanceid (ii_id i))); try done.
  - destruct Hr as [->| ->]; auto.
  - destruct (IsDebugInstance _); auto.
Qed.

Lemma written_keys i p inst route :
  TransToStoredKeys i p = Some (inst, route) →
  (inst = None ∨ ∃ k, key_of (ii_id i) = Some k ∧ inst = Some (mkStoreInfo k "")) ∧
  (route = None ∨ route = Some (mkStoreInfo (GenInstanceRouteKey (instanceid (ii_id i))) "")).
Proof.
  unfold TransToStoredKeys. intros Hs. destruct (stores_instance p).
  - destruct (key_of (ii_id i)) as [k|]; [|done]. cbn in Hs. injection Hs as <- <-.
    split; [right; by exists k|]. case_match; auto.
  - cbn in Hs. injection Hs as <- <-. split; [by left|]. case_match; auto.
Qed.

Lemma DelInstance_deletes cfg order id s c :
  val (DelInstance cfg order id) s = Deleting c → deletes c.
Proof.
  unfold DelInstance. rewrite val_bind, val_members. destruct (instanceContext_ s) as [x|]; [|done].
  rewrite val_bind, exec_members. case_bool_decide; [|done].
  destruct (TransToStoredKeys _ _) as [[inst route]|] eqn:Es; [|done].
  apply written_keys in Es as [Hi Hr]. destruct Hi as [->|(k & Hk & ->)].
  - cbn. unfold OnDeleted, OnForceDeleted. done.
  - cbn -[Delete]. destruct (Delete _ _ _ _ _) as [call|] eqn:Ed; [|done]. intros [= <-].
    eapply Delete_deletes; [done|]. by apply instance_keys.
Qed.
Lemma ForceDelInstance_deletes cfg s c :
  val (ForceDelInstance cfg) s = Deleting c → deletes c.
Proof.
  unfold ForceDelInstance. rewrite val_bind, val_members. destruct (instanceContext_ s) as [x|]; [|done].
  destruct (TransToStoredKeys _ _) as [[inst route]|] eqn:Es; [|done].
  apply written_keys in Es as [Hi Hr]. destruct Hi as [->|(k & Hk & ->)].
  - done.
  - cbn -[ForceDelete]. destruct (ForceDelete _ _ _ _) as [call|] eqn:Ed; [|done]. intros [= <-].
    eapply ForceDelete_deletes; [done|]. by apply instance_keys.
Qed.

(** ** Answers *)
Lemma written_inj i e first c i' e' first' :
  written i e first c → written i' e' first' c → i = i'.
Proof using JOk.
  intros (k & x & route & lw & Hk & Hx & _ & Hc) (k' & x' & route' & lw' & Hk' & Hx' & _ & Hc').
  assert (x = x') as <-.
  { destruct first, first'; injection Hc as <-; injection Hc' as Ht Hv; congruence. }
  apply instance_back in Hx, Hx'. congruence.
Qed.

(** An answer to a [Get] of a key where a value with the record is stored. *)
Definition get_ok h (i : InstanceInfo) (p : TxnOperationResponse * string) : Prop :=
  match p.1 with
  | OPERATION_GET _ _ kvs =>
      match kvs with
      | [] => True
      | kv :: _ =>
          (p.2 = kv_value kv → good h i) ∧ (∀ j, of_json (kv_value kv) = Some j → good h j)
      end
  | _ => False
  end.

Lemma CheckGetResponses_ok h i l acc :
  Forall (get_ok h i) l → l ≠ [] ∨ result_ok h i acc → result_ok h i (CheckGetResponses l acc).
Proof using JOk.
  intros Hl. revert acc. induction Hl as [|[resp x] l Hp Hl IH]; intros acc Hacc; [by destruct Hacc|].
  cbn. unfold get_ok in Hp. destruct resp as [| |? ? kvs]; try done. cbn in Hp |- *.
  destruct kvs as [|kv kvs].
  - apply IH. right. unfold result_ok. cbn. intros j. by rewrite no_json.
  - destruct Hp as [Hg Hj]. case_bool_decide; [by apply Hg|exact Hj].
Qed.

Lemma resolve_keys_ok h i l acc missing :
  Forall (get_ok h i) l → (∀ r, acc = Some r → result_ok h i r) →
  match resolve_keys l acc missing with
  | inl (Some r, _) => result_ok h i r
  | inl (None, false) => acc = None ∧ missing = false ∧ (l ≠ [] → good h i)
  | inl (None, true) => True
  | inr _ => False
  end.
Proof.
  intros Hl. revert acc missing. induction Hl as [|[resp x] l Hp Hl IH]; intros acc missing Hacc; cbn.
  { destruct acc as [r|]; [by apply Hacc|]. by destruct missing. }
  unfold get_ok in Hp. destruct resp as [| |? ? kvs]; try done. cbn in Hp. destruct kvs as [|kv kvs].
  - specialize (IH acc true Hacc). destruct (resolve_keys _ _ _) as [[[r|] [|]]|r]; try done.
    by destruct IH as (_ & ? & _).
  - destruct Hp as [Hgood Hj]. case_bool_decide as Hx.
    + match goal with |- context [resolve_keys l ?a missing] => specialize (IH a missing) end.
      destruct (resolve_keys _ _ _) as [[[r|] [|]]|r]; try (apply IH; by intros ? [= <-]); try done.
      destruct IH as (? & _); [by intros ? [= <-]|done].
    + specialize (IH acc missing Hacc).
      destruct (resolve_keys _ _ _) as [[[r|] [|]]|r]; try done.
      destruct IH as (? & ? & _). auto.
Qed.

(** What the answer to a write tells. *)
Lemma no_value h i st p r : IsOk st = false → result_ok h i (mkResult st "" p r).
Proof using JOk. unfold result_ok. cbn [or_status or_value]. intros -> j. by rewrite no_json. Qed.

Lemma answer_ok h i c (first : bool) ans :
  cl_reader c = (if first then ReadCreate else ReadModify) →
  cl_keySize c = length (cl_values c) → cl_values c ≠ [] →
  (ta_success ans = true → good h i) →
  (ta_success ans = false → Forall (get_ok h i) (zip (ta_responses ans) (cl_values c))) →
  ∀ r, read_answer c ans = Some r → result_ok h i r.
Proof using JOk.
  intros Hr Hk Hv Hs Hf r. unfold read_answer. rewrite Hr.
  assert (Hz : wrong_size (mkOperate (cl_values c) (cl_keySize c) (cl_version c) ans) = false →
    take (cl_keySize c) (ta_responses ans) = ta_responses ans ∧
    zip (ta_responses ans) (cl_values c) ≠ []).
  { unfold wrong_size. cbn. rewrite orb_false_iff, !bool_decide_eq_false. intros [Hz%dec_stable _].
    split; [apply take_ge; lia|]. rewrite Hk in Hz. by destruct (ta_responses ans), (cl_values c). }
  destruct first; intros [= <-]; unfold OnCreate, OnModify; cbn [oi_response];
    (destruct (IsError (ta_status ans)) eqn:Ee; [apply no_value; by apply negb_true_iff|]);
    (destruct (wrong_size _); [by apply no_value|]); destruct (Hz eq_refl) as [Htake Hnil];
    (destruct (ta_success ans); [by apply Hs|]); specialize (Hf eq_refl).
  - unfold ResolveCreateConflict. cbn [oi_response oi_keySize oi_values]. rewrite Htake.
    pose proof (resolve_keys_ok h i _ None false Hf ltac:(done)) as Hres.
    destruct (resolve_keys _ _ _) as [[[r|] [|]]|r]; try done; [by apply no_value|].
    destruct Hres as (_ & _ & Hg). by apply Hg.
  - cbn [oi_response oi_keySize oi_values]. rewrite Htake. apply CheckGetResponses_ok; auto.
Qed.

(** ** The stored records *)
Definition deleted_by (ops : list TxnOperation) : list string :=
  omap (λ o, match o with DeleteOp k _ => Some k | _ => None end) ops.

Lemma foldl_no_put ops m k :
  forallb no_put ops = true →
  foldl apply_op m ops !! k = (if decide (k ∈ deleted_by ops) then None else m !! k).
Proof.
  revert m. induction ops as [|o ops IH]; intros m Hp; [done|]. cbn in Hp |- *.
  destruct o as [| k' opt|]; [done| |]; cbn; rewrite IH by done; [|done].
  destruct (decide (k ∈ deleted_by ops)) as [Hin|Hin].
  - rewrite decide_True; [done|]. by right.
  - destruct (decide (k = k')) as [->|Hne].
    + rewrite decide_True by left. apply lookup_delete_eq.
    + rewrite decide_False by by rewrite elem_of_cons; intros [|]. by apply lookup_delete_ne.
Qed.

Lemma store_deletes h m gone ops :
  forallb no_put ops = true → store_ok h m gone →
  store_ok h (foldl apply_op m ops) (list_to_set (deleted_by ops) ∪ gone).
Proof.
  intros Hp [Hm Hgone]. split.
  - intros k x v. rewrite foldl_no_put by done. case_match; [done|]. apply Hm.
  - intros k Hk. rewrite foldl_no_put by done. rewrite elem_of_union, elem_of_list_to_set.
    case_match; [by left|]. intros Hn. right. by apply Hgone.
Qed.

Lemma stored_history h m gone i k e :
  store_ok h m gone → key_of (ii_id i) = Some k → k ∉ gone → stored_version m k = e → write_ok h i e →
  ∃ l, default [] (h !! k) = l ∧ Z.of_nat (length l) = e ∧ version i = e + 1 ∧
    ∀ l' d, h !! k = Some l' → last l' = Some d → rtc legal d (code i).
Proof.
  intros [Hm Hgone] Hk Hg He (k' & Ek' & Hge & Hv & Hc). assert (k' = k) as -> by congruence.
  unfold stored_version in He. destruct (m !! k) as [[x v]|] eqn:Em; cbn in He; subst.
  - destruct (Hm _ _ _ Em) as [(j & l & Hj & _ & Hvj & Hl & -> & Hlast)|(d & _ & -> & _)];
      [|by destruct (key_not_route _ _ d Hk)].
    exists l. rewrite Hl. assert (Z.of_nat (length l) ≠ 0) as Hne by by destruct l.
    destruct Hv as [Hv|[? _]]; [|done]. split_and!; [done..|]. intros l' d [= <-] Hd.
    destruct Hc as [?|(c & Hat & Hp)]; [done|]. rewrite (at_version_last _ _ _ _ Hl Hd) in Hat.
    by injection Hat as ->.
  - destruct (h !! k) as [l|] eqn:Hl; [by destruct Hg; apply Hgone; [rewrite Hl|]|].
    exists []. destruct Hv as [Hv|[_ [? ?]]]; [|done]. split_and!; try done.
Qed.

Lemma store_insert h m gone i k x l :
  key_of (ii_id i) = Some k → to_json i = Some x → version i = Z.of_nat (length l) + 1 →
  default [] (h !! k) = l →
  store_ok h m gone → store_ok (grown h k (code i)) (<[k := (x, Z.of_nat (length l) + 1)]> m) gone.
Proof.
  intros Hk Hx Hv El [Hm Hgone]. split.
  - intros k' x' v'. destruct (decide (k = k')) as [<-|Hne].
    + rewrite lookup_insert_eq. intros [= <- <-]. left. exists i, (l ++ [code i]). split_and!; try done.
      * unfold grown. by rewrite lookup_insert_eq, El.
      * rewrite length_app. cbn. lia.
      * apply last_snoc.
    + rewrite lookup_insert_ne by done. intros Hk'.
      destruct (Hm _ _ _ Hk') as [(j & lj & ? & ? & ? & ? & ? & ?)|(d & j & ? & ? & Hg)].
      * left. exists j, lj. split_and!; try done. unfold grown. by rewrite lookup_insert_ne.
      * right. exists d, j. split_and!; try done. eapply good_mono; [apply grown_extends|done].
  - intros k' Hk'. destruct (decide (k = k')) as [<-|Hne]; [by rewrite lookup_insert_eq|].
    unfold grown in Hk'. rewrite lookup_insert_ne in Hk' by done. rewrite lookup_insert_ne by done. auto.
Qed.

Lemma store_route h m gone i d x v :
  to_json (TransToRouteInfoFromInstanceInfo i) = Some x → good h i →
  store_ok h m gone → store_ok h (<[GenInstanceRouteKey d := (x, v)]> m) gone.
Proof.
  intros Hx Hg [Hm Hgone]. split.
  - intros k' x' v'. destruct (decide (GenInstanceRouteKey d = k')) as [<-|Hne].
    + rewrite lookup_insert_eq. intros [= <- <-]. right. by exists d, i.
    + rewrite lookup_insert_ne by done. apply Hm.
  - intros k' Hk'. destruct (decide (GenInstanceRouteKey d = k')) as [<-|Hne];
      [by rewrite lookup_insert_eq|]. rewrite lookup_insert_ne by done. auto.
Qed.

(** A write that is executed adds a version. *)
Lemma store_puts h m gone i e k x route opt :
  store_ok h m gone → legal_history h → write_ok h i e →
  key_of (ii_id i) = Some k → to_json i = Some x → route_of i route →
  stored_version m k = e → k ∉ gone →
  let h' := grown h k (code i) in
  store_ok h' (foldl apply_op m (puts k x route opt)) gone ∧ legal_history h' ∧ good h' i.
Proof.
  intros Hm Hl Hw Hk Hx Hr He Hg h'.
  destruct (stored_history _ _ _ _ _ _ Hm Hk Hg He Hw) as (l & El & Hlen & Hv & Hp).
  assert (good h' i) as Hgood.
  { exists k. split; [done|]. rewrite Hv, <- Hlen. by apply grown_same. }
  split_and!; [|by apply grown_legal|done]. unfold puts. cbn [foldl apply_op]. rewrite He, <- Hlen.
  assert (store_ok h' (<[k:=(x, Z.of_nat (length l) + 1)]> m) gone) as Hs
    by (apply store_insert; [done..| |done|done]; lia).
  destruct Hr as [->|(xr & Hxr & ->)]; [done|]. cbn. by apply (store_route _ _ _ i).
Qed.

(** The answers of the store to the reads of a refused write. *)
Lemma gets_answers h m gone i k x route rs :
  store_ok h m gone → key_of (ii_id i) = Some k → to_json i = Some x → route_of i route →
  Forall2 (answers_op m) (gets k route) rs →
  Forall (get_ok h i) (zip rs (x :: option_list (si_value <$> route))).
Proof using JOk.
  intros Hm Hk Hx Hr Hrs.
  assert (Hget : ∀ k' y r, answers_op m (GetOp k' (getOption 1)) r →
    (value_ok h k' y → good h i) → get_ok h i (r, y)).
  { intros k' y r Ha Hy. destruct r as [| |? ? kvs]; [done..|]. unfold get_ok. cbn in Ha |- *.
    destruct (m !! k') as [[z v]|] eqn:Em; [|by destruct kvs].
    destruct kvs as [|kv [|]]; try done. injection Ha as Ha. rewrite Ha.
    pose proof (store_value _ _ _ _ _ _ Hm Em) as Hz.
    split; [intros ->; auto|]. intros j. by eapply value_instance. }
  assert (value_ok h k x → good h i) as Hi.
  { intros Hv. eapply value_instance; [done|]. by apply instance_back. }
  destruct Hr as [->|(xr & Hxr & ->)]; unfold gets in Hrs; cbn in Hrs |- *;
    apply Forall2_cons_inv_l in Hrs as (r1 & rs1 & Ha1 & Hrs & ->).
  - constructor; [|destruct rs1; constructor]. by apply (Hget k).
  - apply Forall2_cons_inv_l in Hrs as (r2 & rs2 & Ha2 & Hrs & ->).
    constructor; [by apply (Hget k)|]. constructor; [|destruct rs2; constructor].
    apply (Hget _ _ _ Ha2). intros Hv. eapply good_same; [apply route_same|].
    eapply value_route; [done|]. by apply route_back.
Qed.
End exec.

Section system.
Context {J : InstanceJson} {JOk : InstanceJsonOk} (Sha256Hex : string → string) (cfg : Settings).
Context (order : gmap string StateChangeCallback → list (string * StateChangeCallback)).
Context {St : Type} `{TxnStore St} (ok : St → Prop) {SOk : TxnStoreOk St ok}.

Lemma inv_committed h h' y st c a gone :
  inv_at ok h y → extends h h' → ok st → legal_history h' → store_ok h' (ts_map st) gone →
  reply_ok h' c a →
  inv_at ok h' (mkSys st (machines y) (waits y) (sent y) ((c, a) :: replies y) (seen y) gone).
Proof.
  intros [] He Hst Hl Hs Hr. split; cbn; try done.
  - intros n b s Hn. eauto using machine_mono.
  - eauto using sent_mono.
  - intros c' a' [[= -> ->]|Hin]%elem_of_cons; [done|]. eauto using reply_mono.
  - eauto using value_mono.
Qed.

Lemma inv_execute h y c :
  inv_at ok h y → c ∈ sent y →
  let ops := chosen (ts_map (store y)) (cl_txn c) in
  (∀ k v opt, PutOp k v opt ∈ ops → k ∉ retired y) →
  let r := ts_commit (cl_txn c) (store y) in
  ∃ h', extends h h' ∧
    inv_at ok h' (mkSys r.1 (machines y) (waits y) (sent y) ((c, r.2) :: replies y) (seen y)
                    (list_to_set (deleted_by ops) ∪ retired y)).
Proof using JOk SOk.
  intros Hy Hin ops Hgone r. pose proof Hy as [Hok Hl Hs _ _ Hsent _ _].
  destruct (Hsent _ Hin) as [(i & e & first & Hw & Hwo)|Hd].
  - destruct (written_shape _ _ _ _ Hw)
      as (k & x & route & lw & Hk & Hx & Hr & Ht & He & _ & Hcmp & Hval & Hsz & Hrd).
    destruct (commit_spec (store y) (cl_txn c) Hok (written_plain _ _ _ _ Hw))
      as (Hok' & Hmap & _ & Hsucc & Hans). fold r ops in Hok', Hmap, Hsucc, Hans.
    assert (Hreply : ∀ h', (ta_success r.2 = true → good h' i) →
      (ta_success r.2 = false → Forall (get_ok h' i) (zip (ta_responses r.2) (cl_values c))) →
      reply_ok h' c r.2).
    { intros h' Hg Hf i' e' first' res Hw' Hres. rewrite <- (written_inj _ _ _ _ _ _ _ Hw Hw').
      eapply answer_ok; [apply Hrd|done| |done..]. by rewrite Hval. }
    unfold chosen in ops. destruct (forallb _ _) eqn:Ec.
    + assert (k ∉ retired y) as Hg.
      { eapply Hgone. unfold ops. rewrite Ht. left. }
      destruct (store_puts h _ (retired y) i _ k x route (mkPutOption 0 false lw) Hs Hl Hwo Hk Hx Hr
        (Hcmp _ Ec) Hg) as (Hs' & Hl' & Hgood).
      exists (grown h k (code i)). split; [apply grown_extends|].
      apply (inv_committed h); try done; [apply grown_extends| |apply Hreply; congruence].
      rewrite Hmap. unfold ops. rewrite Ht. destruct route; cbn; by rewrite union_empty_l_L.
    + exists h. split; [done|]. apply (inv_committed h); try done.
      * rewrite Hmap. apply store_deletes; [|done]. unfold ops. rewrite He. by destruct route.
      * apply Hreply; [congruence|]. intros _. rewrite Hval. unfold ops in Hans. rewrite He in Hans.
        by eapply gets_answers.
  - destruct Hd as (Hplain & Hthen & Helse).
    destruct (commit_spec (store y) (cl_txn c) Hok Hplain) as (Hok' & Hmap & _).
    exists h. split; [done|]. apply (inv_committed h); try done.
    + unfold r. rewrite Hmap. apply store_deletes; [|done]. unfold ops, chosen. by case_match.
    + intros i e first res Hw _. destruct (written_shape _ _ _ _ Hw) as (? & ? & ? & ? & _ & _ & _ & Ht & _).
      by rewrite Ht in Hthen.
Qed.
End system.
