(* ===== verification/InstanceProps.v ===== *)
(** * What the proxies guarantee of a stored instance

    The invariant of [InstanceLife] holds in every reachable state, and with it
    the stored record of an instance only moves along the legal changes. *)

From S2P Require Import Prelude StdStrings MetaTypes MetaClient InstanceTypes InstanceOp InstanceMachine InstanceCtrl InstanceSystem InstanceStore InstanceInv InstanceLife InstanceExec.
From Stdlib Require Import ZArith Lia.
From stdpp Require Import base gmap strings fin_maps relations list.

Open Scope Z_scope.
Set Default Proof Using "Type".
Import InstanceState Client Operator Machine Ctrl System.

Section system.
Context {J : InstanceJson} {JOk : InstanceJsonOk} (Sha256Hex : string → string) (cfg : Settings).
Context (order : gmap string StateChangeCallback → list (string * StateChangeCallback)).
Context {St : Type} `{TxnStore St} (ok : St → Prop) {SOk : TxnStoreOk St ok}.

(** ** One lemma per kind of step *)
Lemma inv_new h y n a c b :
  inv_at ok h y → waits y !! n = None → origin y (info c) →
  inv_at ok h (set_machine n a (Machine.make (nodeID_ a) (Some c) b) y).
Proof using JOk.
  intros Hy Hw Ho. apply inv_update; [done|]. rewrite Hw. exists c. split; [done|]. split; [done|].
  destruct Ho as [Hv|[(k & x & Hin & Hr)|(n' & a' & s' & c' & Hn & Hw' & Hc & Hs)]].
  - by apply derived_zero.
  - apply good_derived. eapply value_reads; [|done]. by eapply inv_seen.
  - pose proof (inv_machines _ _ _ Hy _ _ _ Hn) as (c'' & Hc'' & Hm). rewrite Hw' in Hm.
    change (instanceContext_ s' = Some c'') in Hc''. assert (c'' = c') as -> by congruence.
    eapply derived_same; [done|]. by destruct Hm.
Qed.

Lemma quiet_machine h y n a s c :
  inv_at ok h y → machines y !! n = Some (a, s) → instanceContext_ s = Some c →
  savePromise_ s ≠ SavePending → derived h (info c).
Proof.
  intros Hy Hn Hc Hp. destruct (inv_machines _ _ _ Hy _ _ _ Hn) as (c' & Hc' & Hm).
  change (instanceContext_ s = Some c') in Hc'. assert (c' = c) as -> by congruence.
  destruct (waits y !! n); by destruct Hm.
Qed.

Lemma life_start h y n a s c stamp t :
  inv_at ok h y → machines y !! n = Some (a, s) → instanceContext_ s = Some c →
  own_transition (info c) t →
  inv_at ok h
    (match val (TransInstanceState Sha256Hex cfg stamp t) s with
     | Deferred | Answered _ => set_machine n a (exec (TransInstanceState Sha256Hex cfg stamp t) s) y
     | Waiting k tr =>
         go_on order n a (Some k) (scheduleReq t) tr
           (exec (TransInstanceState Sha256Hex cfg stamp t) s) y
     end).
Proof.
  intros Hy Hn Hc Hown. pose proof (inv_machines _ _ _ Hy _ _ _ Hn) as Hm.
  destruct (TransInstanceState_spec Sha256Hex cfg stamp t s) as [[Hv Hs]|(Hp & -> & k & ->)].
  - rewrite <- Hs in Hm. destruct (val _ _); [by apply inv_update..|done].
  - apply go_on_ok; [done|]. eapply TransitionTo_ok; try done. by eapply quiet_machine.
Qed.

Lemma inv_exit h y n a s c stamp q sync :
  inv_at ok h y → machines y !! n = Some (a, s) → instanceContext_ s = Some c → IsSaving s = false →
  own_request (info c) q →
  inv_at ok h
    (match val (TryExitInstance Sha256Hex cfg stamp q sync) s with
     | Exited _ _ => set_machine n a (exec (TryExitInstance Sha256Hex cfg stamp q sync) s) y
     | ExitTransition tr _ _ =>
         go_on order n a None (Some q) tr (exec (TryExitInstance Sha256Hex cfg stamp q sync) s) y
     end).
Proof.
  intros Hy Hn Hc Hsave Hq. pose proof (inv_machines _ _ _ Hy _ _ _ Hn) as Hm.
  assert (savePromise_ s ≠ SavePending) as Hp.
  { intros E. unfold IsSaving in Hsave. by rewrite E in Hsave. }
  destruct (TryExitInstance_spec Sha256Hex cfg stamp q sync s c Hc)
    as [[Hv Hs]|(s0 & t & m & Hs & Hv & Ht & -> & ->)].
  - rewrite <- Hs in Hm. destruct (val _ _); [by apply inv_update|done].
  - injection Hs as Hs1 Hs2. apply go_on_ok; [done|]. apply (TransitionTo_ok _ _ _ _ _ _ c); try congruence.
    + by eapply quiet_machine.
    + unfold own_transition. by rewrite Hv, Ht.
    + by rewrite Ht.
Qed.

Lemma inv_answer h y n a s k p c ans req result :
  inv_at ok h y → machines y !! n = Some (a, s) → waits y !! n = Some (ForWrite k p c) →
  (c, ans) ∈ replies y ∨ IsError (ta_status ans) = true →
  same_request (scheduleReq (pd_context p)) req → read_answer c ans = Some result →
  inv_at ok h (go_on order n a k req (val (OnOperated cfg p req result) s)
                 (exec (OnOperated cfg p req result) s) y).
Proof using JOk.
  intros Hy Hn Hw Hans Hreq Hres. pose proof (inv_machines _ _ _ Hy _ _ _ Hn) as Hm. rewrite Hw in Hm.
  assert (∃ e, written (pd_new p) e (pd_first p) c) as [e Hwr] by (destruct Hm as (? & ? & ? & Hm); apply Hm).
  apply go_on_ok; [done|]. eapply OnOperated_ok; [done..|].
  destruct Hans as [Hans|He]; [by eapply (inv_replies _ _ _ Hy)|].
  assert (result = mkResult (ta_status ans) "" 0 0) as ->.
  { destruct (written_shape _ _ _ _ Hwr) as (? & ? & ? & ? & _ & _ & _ & _ & _ & _ & _ & _ & _ & Hrd).
    unfold read_answer in Hres. rewrite Hrd in Hres.
    destruct (pd_first p); injection Hres as <-; unfold OnCreate, OnModify; cbn; by rewrite He. }
  apply no_value. by apply negb_true_iff.
Qed.

Lemma life_step h y y' :
  inv_at ok h y → step Sha256Hex cfg order y y' → ∃ h', extends h h' ∧ inv_at ok h' y'.
Proof using JOk SOk.
  intros Hy Hs. destruct Hs as [y n a c b ? ? ?| | |y n a s id c Hn Hd|y n a s c Hn Hd| | |y k x v Hk
    |y n a s k p st req fut Hn Hw Hreq Hf|y n a s k x i Hn Hin Hr|y n a s Hn|y n a s f Hn Hf|y n a s Hn];
    [..|by apply inv_execute| | | | | | |]; exists h; (split; [done|]).
  - by apply inv_new.
  - by eapply life_start.
  - by eapply inv_exit.
  - apply inv_send; [|right; by eapply DelInstance_deletes]. apply inv_update; [done|].
    apply machine_keeps; [apply keeps_DelInstance|]. by eapply inv_machines.
  - apply inv_send; [|right; by eapply ForceDelInstance_deletes]. apply inv_update; [done|].
    apply machine_keeps; [apply keeps_ForceDelInstance|]. by eapply inv_machines.
  - by eapply inv_answer.
  - pose proof Hy as [Hok ? Hst ? ? ? ? ?]. split; try done. intros k' x' [[= -> ->]|?]%elem_of_cons; [|auto].
    by eapply store_value.
  - apply go_on_ok; [done|]. apply OnRouteRead_ok; [|done|].
    + rewrite <- Hw. by eapply inv_machines.
    + destruct fut; [|done]. intros Hok. eapply inv_seen; eauto.
  - apply inv_update; [done|]. apply machine_takes; [by eapply inv_machines|].
    apply good_derived. eapply value_reads; [|done]. by eapply inv_seen.
  - apply inv_update; [done|]. apply machine_SetVersion. by eapply inv_machines.
  - apply inv_update; [done|]. apply machine_edits; [by eapply inv_machines|]. auto.
  - apply inv_update; [done|]. by apply (inv_machines _ _ _ Hy) in Hn.
Qed.

(** ** Every reachable state *)
Lemma extends_trans h1 h2 h3 : extends h1 h2 → extends h2 h3 → extends h1 h3.
Proof.
  intros H12 H23 k l Hl. destruct (H12 _ _ Hl) as [l1 H1]. destruct (H23 _ _ H1) as [l2 H2].
  exists (l1 ++ l2). by rewrite app_assoc.
Qed.

Lemma inv_steps h y y' :
  inv_at ok h y → rtc (step Sha256Hex cfg order) y y' → ∃ h', extends h h' ∧ inv_at ok h' y'.
Proof using JOk SOk.
  intros Hy Hr. revert h Hy. induction Hr as [|y1 y2 y3 Hs _ IH]; intros h Hy; [by exists h|].
  destruct (life_step _ _ _ Hy Hs) as (h2 & He & H2). destruct (IH _ H2) as (h3 & He' & H3).
  exists h3. eauto using extends_trans.
Qed.

Lemma inv_initial st : ok st → ts_map st = ∅ → inv_at ok ∅ (initial st).
Proof.
  intros Hok Hm. split; cbn; try done; try (by intros ? ?%elem_of_nil); try (by intros ? ? ?%elem_of_nil).
  split; intros *; [by rewrite Hm, lookup_empty|]. rewrite lookup_empty. by intros [? ?].
Qed.

(** The stored record is the last of its history. *)
Lemma stored_record h y d k x v :
  inv_at ok h y → key_of d = Some k → ts_map (store y) !! k = Some (x, v) →
  ∃ i, of_json x = Some i ∧ key_of (ii_id i) = Some k ∧ version i = v ∧
    at_version h k v = Some (code i) ∧ ∀ w c, at_version h k w = Some c → w ≤ v.
Proof using JOk.
  intros Hy Hd Hk. destruct (inv_store _ _ _ Hy) as [Hs _].
  destruct (Hs _ _ _ Hk) as [(i & l & Hi & Hx & Hv & Hl & -> & Hlast)|(d' & _ & -> & _)];
    [|by destruct (key_not_route _ _ d' Hd)].
  exists i. split_and!; [by apply instance_back|done..|by apply at_version_last|].
  intros w c Hw. unfold at_version in Hw. rewrite Hl in Hw. cbn in Hw. case_match; [done|].
  apply lookup_lt_Some in Hw. lia.
Qed.
End system.


(** ** A run: one proxy creates an instance and lets it exit *)
Definition demo_cfg : Settings := mkSettings false false false false.
Definition demo_order (m : gmap string StateChangeCallback) := map_to_list m.
Definition demo_info (st v : Z) (ext : gmap string string) : InstanceInfo :=
  mkInfo (mkIdentity "i" "r" "t/f/v" "t" "" "" false "") no_placement (mkStat st 0 "" 0 0) v ∅ ext []
    None false false false 0 "".
Definition demo_new : InstanceInfo := demo_info NEW 0 ∅.
Definition demo_saved (n : nat) : InstanceInfo :=
  if n is O then demo_info SCHEDULING 1 {["updateTimestamp" := "1"]}
  else demo_info EXITING 2 {["updateTimestamp" := "2"]}.

#[local] Instance RouteInfo_eq_dec : EqDecision RouteInfo.
Proof. solve_decision. Defined.

(** A printer that knows the records of this run. *)
#[local] Instance demo_json : InstanceJson := {|
  json_instance := {|
    to_json i :=
      if decide (i = demo_saved 0) then Some "i1" else if decide (i = demo_saved 1) then Some "i2" else None;
    of_json s :=
      if decide (s = "i1") then Some (demo_saved 0) else if decide (s = "i2") then Some (demo_saved 1)
      else if decide (s = "r1") then Some (route_as_instance (TransToRouteInfoFromInstanceInfo (demo_saved 0)))
      else if decide (s = "r2") then Some (route_as_instance (TransToRouteInfoFromInstanceInfo (demo_saved 1)))
      else None |};
  json_route := {|
    to_json r :=
      if decide (r = TransToRouteInfoFromInstanceInfo (demo_saved 0)) then Some "r1"
      else if decide (r = TransToRouteInfoFromInstanceInfo (demo_saved 1)) then Some "r2" else None;
    of_json s :=
      if decide (s = "r1") then Some (TransToRouteInfoFromInstanceInfo (demo_saved 0))
      else if decide (s = "r2") then Some (TransToRouteInfoFromInstanceInfo (demo_saved 1)) else None |} |}.
#[local] Instance demo_json_ok : InstanceJsonOk.
Proof. split; [intros i s; cbn; repeat case_decide; intros [= <-]; by subst..|done]. Qed.

Definition demo_actor : Actor := mkActor "node" false false.
Definition demo_ctx : Context := NewContext (mkSchedReq demo_new "r" 0 "").
Definition demo_trans (st v : Z) : TransContext := mkTrans st v "" true 0 0 0 None false false false.

Abbreviation DemoSys := (Sys (St := gmap string (string * Z))).
Definition demo_start (stamp : string) (t : TransContext) (y : DemoSys) : DemoSys :=
  match machines y !! 0%nat with
  | Some (a, s) =>
      match val (TransInstanceState (λ x, x) demo_cfg stamp t) s with
      | Deferred | Answered _ => set_machine 0 a (exec (TransInstanceState (λ x, x) demo_cfg stamp t) s) y
      | Waiting k tr =>
          go_on demo_order 0 a (Some k) (scheduleReq t) tr
            (exec (TransInstanceState (λ x, x) demo_cfg stamp t) s) y
      end
  | None => y
  end.
Definition demo_execute (y : DemoSys) : DemoSys :=
  match sent y with
  | c :: _ =>
      let ops := chosen (ts_map (store y)) (cl_txn c) in
      mkSys (ts_commit (cl_txn c) (store y)).1 (machines y) (waits y) (sent y)
        ((c, (ts_commit (cl_txn c) (store y)).2) :: replies y) (seen y)
        (list_to_set (deleted_by ops) ∪ retired y)
  | [] => y
  end.
Definition demo_answer (y : DemoSys) : DemoSys :=
  match machines y !! 0%nat, waits y !! 0%nat, replies y with
  | Some (a, s), Some (ForWrite k p c), (_, ans) :: _ =>
      match read_answer c ans with
      | Some result =>
          go_on demo_order 0 a k None (val (OnOperated demo_cfg p None result) s)
            (exec (OnOperated demo_cfg p None result) s) y
      | None => y
      end
  | _, _, _ => y
  end.

Definition demo_y1 : DemoSys :=
  set_machine 0 demo_actor (Machine.make "node" (Some demo_ctx) false) (initial ∅).
Definition demo_y2 := demo_start "1" (demo_trans SCHEDULING 0) demo_y1.
Definition demo_y3 := demo_execute demo_y2.
Definition demo_y4 := demo_answer demo_y3.
Definition demo_y5 := demo_start "2" (demo_trans EXITING 1) demo_y4.
Definition demo_y6 := demo_execute demo_y5.

Definition demo_key : string := default "" (key_of (ii_id demo_new)).

Abbreviation demo_step := (step (λ x, x) demo_cfg demo_order).

Lemma demo_start_step stamp t (y : DemoSys) :
  match machines y !! 0%nat with
  | Some (_, s) =>
      match instanceContext_ s with
      | Some c => tc_version t = version (info c) ∧ scheduleReq t = None
      | None => False
      end
  | None => False
  end → demo_step y (demo_start stamp t y).
Proof.
  unfold demo_start. destruct (machines y !! 0%nat) as [[a s]|] eqn:Hn; [|done].
  destruct (instanceContext_ s) as [c|] eqn:Hc; [|done]. intros [Hv Hq].
  apply (step_start _ _ _ _ _ _ _ c); [done..|]. split; [done|]. by rewrite Hq.
Qed.

Lemma demo_execute_step (y : DemoSys) :
  match sent y with
  | c :: _ =>
      forallb (λ o, match o with PutOp k _ _ => bool_decide (k ∉ retired y) | _ => true end)
        (chosen (ts_map (store y)) (cl_txn c)) = true
  | [] => False
  end → demo_step y (demo_execute y).
Proof.
  unfold demo_execute. destruct (sent y) as [|c l] eqn:Hs; [done|]. intros Hf.
  rewrite <- Hs. apply (step_execute _ _ _ _ c); [rewrite Hs; left|].
  intros k v opt Ho%list_elem_of_In. rewrite forallb_forall in Hf. apply Hf in Ho.
  by apply bool_decide_eq_true in Ho.
Qed.

Lemma demo_answer_step (y : DemoSys) :
  match machines y !! 0%nat, waits y !! 0%nat, replies y with
  | Some _, Some (ForWrite _ p c), (c', ans) :: _ =>
      c' = c ∧ scheduleReq (pd_context p) = None ∧ is_Some (read_answer c ans)
  | _, _, _ => False
  end → demo_step y (demo_answer y).
Proof.
  unfold demo_answer. destruct (machines y !! 0%nat) as [[a s]|] eqn:Hn; [|done].
  destruct (waits y !! 0%nat) as [[k p c|]|] eqn:Hw; [|done..].
  destruct (replies y) as [|[c' ans] l] eqn:Hr; [done|]. intros (-> & Hq & [result Hres]).
  rewrite Hres. apply (step_answer _ _ _ _ _ _ _ _ _ c ans); try done; [left; rewrite Hr; left|].
  by rewrite Hq.
Qed.

