(* ===== verification/RetrySystem.v ===== *)
(** * A client, its store and the monitor, in time

    The transactions of a client of the metadata store are repeated with a
    growing back-off while the monitor checks the store.  Repetitions may be
    late and answers may be lost; the monitor is on time, and what it tells
    the client arrives within [lag] milliseconds. *)

From S2P Require Import Prelude MetaTypes MetaClient KvClient Monitor.
From Stdlib Require Import ZArith Lia.
From stdpp Require Import base gmap strings fin_maps relations list.

Open Scope Z_scope.
Import Client.

Module Timed.

(** A repetition that is due: posted at once, or by a timer. *)
Record Event := mkEvent {
  ev_key : string; ev_method : string; ev_msg : string; ev_attempt : Z; ev_due : Z; ev_timer : bool }.

(** What happened: a request was sent, answered (by the store or by the
    fall-break) or failed, or a health check told that the store is there. *)
Inductive Log := Sent (key : string) | Ended (key : string) | Failed (key : string) | SeenThere.
#[global] Instance Log_eq_dec : EqDecision Log.
Proof. solve_decision. Defined.

Inductive Check := Due (t : Z) | Checking (since : Z).

Record Sys := mkSys {
  now : Z;
  client : KvClient.State;
  monitor : Monitor.State;
  check : Check;
  retries : list Event;
  notices : list (Status * Z);
  begun : gmap string Z;
  log : list (Z * Log) }.

Section timed.
Context {PB : Protobuf} {PC : Codec PutRequest} {MC : Codec MetaStoreRequest}.
Context (param : Monitor.Param) (lag : Z).

(** ** Messages of the client *)
Definition is_timer_of (k : string) (e : Event) : bool := ev_timer e && bool_decide (ev_key e = k).

Definition absorb1 (t : Z) (p : list Event * list (Z * Log)) (o : KvClient.Out)
    : list Event * list (Z * Log) :=
  match o with
  | KvClient.ByTxn o =>
      match o with
      | Retry.RetryNow k m x a => (mkEvent k m x a t false :: p.1, p.2)
      | Retry.RetryAfter k m x a d => (mkEvent k m x a (t + d) true :: p.1, p.2)
      | Retry.CancelTimer k => (filter (λ e, is_timer_of k e = false) p.1, p.2)
      | Retry.Send k _ _ => (p.1, (t, Sent k) :: p.2)
      | Retry.SetValue k _ => (p.1, (t, Ended k) :: p.2)
      | Retry.SetFailed k => (p.1, (t, Failed k) :: p.2)
      end
  | _ => p
  end.
Definition absorb (t : Z) (os : list KvClient.Out) (p : list Event * list (Z * Log)) :=
  foldl (absorb1 t) p os.

Definition run {X} (m : KvClient.A X) (y : Sys) : Sys :=
  let p := absorb (now y) (outs m (client y)) (retries y, log y) in
  mkSys (now y) (exec m (client y)) (monitor y) (check y) p.1 (notices y) (begun y) p.2.

Definition begin_at (uuid : string) (y : Sys) : Sys :=
  mkSys (now y) (client y) (monitor y) (check y) (retries y) (notices y) (<[uuid := now y]> (begun y))
    (log y).
Definition set_retries (l : list Event) (y : Sys) : Sys :=
  mkSys (now y) (client y) (monitor y) (check y) l (notices y) (begun y) (log y).
Definition set_notices (l : list (Status * Z)) (y : Sys) : Sys :=
  mkSys (now y) (client y) (monitor y) (check y) (retries y) l (begun y) (log y).
Definition set_monitor (m : Monitor.State) (c : Check) (y : Sys) : Sys :=
  mkSys (now y) (client y) m c (retries y) (notices y) (begun y) (log y).
Definition set_now (t : Z) (y : Sys) : Sys :=
  mkSys t (client y) (monitor y) (check y) (retries y) (notices y) (begun y) (log y).
Definition add_log (l : list (Z * Log)) (y : Sys) : Sys :=
  mkSys (now y) (client y) (monitor y) (check y) (retries y) (notices y) (begun y) (l ++ log y).

(** Requests of other kinds. *)
Inductive other : ∀ {X}, KvClient.A X → Prop :=
  | other_put uuid k v opt : other (KvClient.Put uuid k v opt)
  | other_delete uuid k opt : other (KvClient.Delete uuid k opt)
  | other_get uuid k opt : other (KvClient.Get uuid k opt)
  | other_on_put msg : other (KvClient.OnPut msg)
  | other_on_delete msg : other (KvClient.OnDelete msg)
  | other_on_get msg : other (KvClient.OnGet msg)
  | other_retry_put ms k m x a : other (KvClient.RetryputHelper_ ms k m x a)
  | other_retry_delete ms k m x a : other (KvClient.RetrydeleterHelper_ ms k m x a)
  | other_retry_get ms k m x a : other (KvClient.RetrygetHelper_ ms k m x a).

(** ** Checks

    A check that tells nothing of a loss: it succeeded, or the error is no
    reason for a fall-break. *)
Definition lost (st : Status) : bool :=
  IsError st && bool_decide (st_code st ≠ META_STORE_BACK_UP_ERR).
Definition there (r : Monitor.Response) : bool :=
  Monitor.healthy r || negb (lost (Monitor.error_of r)).

(** What the monitor tells the client, which is its observer ["kv"]. *)
Definition told (t : Z) (os : list Monitor.Out) : list (Status * Z) :=
  omap (λ o, match o with
             | Monitor.OnHealthyStatus "kv" st => Some (st, t + lag)
             | _ => None
             end) os.

(** The latest time of the next result. *)
Definition deadline (c : Check) : Z :=
  match c with
  | Due t => t + Monitor.timeoutMs param
  | Checking since => since + Monitor.timeoutMs param
  end.
(** The latest time of the next step of the monitor. *)
Definition next_check (c : Check) : Z :=
  match c with Due t => t | Checking since => since + Monitor.timeoutMs param end.

Inductive step : Sys → Sys → Prop :=
  | step_commit y uuid request async :
      begun y !! uuid = None →
      step y (run (KvClient.CommitTxn uuid request async) (begin_at uuid y))
  | step_commit_with_req y uuid request async :
      begun y !! uuid = None →
      step y (run (KvClient.CommitWithReq uuid request async) (begin_at uuid y))
  | step_answer y msg : step y (run (KvClient.OnTxn msg) y)
  | step_other y {X} (m : KvClient.A X) : other m → step y (run m y)
  | step_retry y l1 e l2 ms :
      retries y = l1 ++ e :: l2 → ev_due e ≤ now y →
      (∀ a, backoff_lower 5 1000 a ≤ ms a) →
      step y (run (KvClient.RetrytxnHelper_ ms (ev_key e) (ev_method e) (ev_msg e) (ev_attempt e))
                (set_retries (l1 ++ l2) y))
  | step_notice y l1 st t l2 :
      notices y = l1 ++ (st, t) :: l2 →
      step y (run (KvClient.OnHealthyStatus st) (set_notices (l1 ++ l2) y))
  | step_check y :
      step y (set_monitor (exec (Monitor.CheckMetaStoreStatus param) (monitor y))
                (match check y with Due _ => Checking (now y) | c => c end) y)
  | step_result y since r :
      check y = Checking since →
      let m := Monitor.OnCheckMetaStoreStatus param (now y) r in
      step y
        (add_log (if there r then [(now y, SeenThere)] else [])
          (set_notices (told (now y) (outs m (monitor y)) ++ notices y)
            (set_monitor (exec m (monitor y)) (Due (now y + Monitor.checkIntervalMs param)) y)))
  | step_register y o :
      step y (set_monitor (exec (Monitor.RegisterHealthyObserver (Some o)) (monitor y)) (check y) y)
  | step_tick y t :
      now y ≤ t → t ≤ next_check (check y) → Forall (λ n, t ≤ n.2) (notices y) →
      step y (set_now t y).

(** The client and the monitor have started, and the client is registered. *)
Definition start (prefix : string) : Sys :=
  mkSys 0 (KvClient.make prefix (Monitor.operationRetryTimes param))
    (exec (Monitor.StartMonitor param)
       (exec (Monitor.RegisterHealthyObserver (Some "kv")) Monitor.init))
    (Due (Monitor.checkIntervalMs param)) [] [] ∅ [].
End timed.

(** Counts over the log. *)
Definition count (x : Log) (l : list (Z * Log)) : Z :=
  Z.of_nat (length (filter (λ p, p.2 = x) l)).
End Timed.
