(* ===== verification/RetryProps.v ===== *)
(** * Retries outlast the health checks

    Bounds on the repetitions of a transaction, and the reason for its limit:
    when the store is lost, the monitor tells the client before a transaction
    runs out of attempts. *)

From S2P Require Import Prelude MetaTypes KvProps MetaClient KvClient Monitor RetrySystem.
From Stdlib Require Import ZArith Lia.
From stdpp Require Import base gmap strings fin_maps relations list.

Open Scope Z_scope.
Set Default Proof Using "Type".
Import Client Timed.

(** ** Time spent on attempts *)

(** The least time from the beginning of a request to its attempt [a]: the sum
    of the back-offs before the attempts [2] to [a]. *)
Definition waited (a : Z) : Z := 5000 * (a - 1) + 500 * (a * (a + 1) - 2).

Lemma waited_next a : waited (a + 1) = waited a + backoff_lower 5 1000 (a + 1).
Proof. unfold waited, backoff_lower. lia. Qed.

(** ** Counting failed checks

    The number of failed checks until the next one that is published; the
    counter wraps around. *)
Definition until (F f : Z) : Z :=
  if f + (F - f mod F) <? 2 ^ 32 then F - f mod F else 2 ^ 32 - f + F.

Lemma until_bounds F f : 0 < F < 2 ^ 32 → 0 ≤ f < 2 ^ 32 → 1 ≤ until F f ≤ 2 * F.
Proof.
  intros HF Hf. unfold until. pose proof (Z.mod_pos_bound f F ltac:(lia)).
  destruct (Z.ltb_spec (f + (F - f mod F)) (2 ^ 32)); lia.
Qed.

Definition publishes (F f : Z) : Prop := F ≤ f ∧ f mod F = 0.

Lemma until_next F f :
  0 < F < 2 ^ 32 → 0 ≤ f < 2 ^ 32 →
  let f' := to_uint32 (f + 1) in publishes F f' ∨ until F f' = until F f - 1.
Proof.
  intros HF Hf. cbv zeta. pose proof (Z.mod_pos_bound f F ltac:(lia)) as Hr.
  destruct (decide (f + 1 = 2 ^ 32)) as [E|E].
  - right. rewrite E. change (to_uint32 (2 ^ 32)) with 0. unfold until. rewrite Z.mod_0_l by lia.
    destruct (Z.ltb_spec (f + (F - f mod F)) (2 ^ 32)); [lia|].
    destruct (Z.ltb_spec (0 + (F - 0)) (2 ^ 32)); lia.
  - rewrite to_uint32_small by lia.
    destruct (decide (f mod F = F - 1)) as [Er|Er].
    + left. pose proof (Z.div_mod f F ltac:(lia)). split.
      * pose proof (Z.div_pos f F ltac:(lia) ltac:(lia)). nia.
      * replace (f + 1) with ((f / F + 1) * F) by lia. apply Z.mod_mul. lia.
    + right. assert ((f + 1) mod F = f mod F + 1) as Em.
      { rewrite <- (Z.mod_small (f mod F + 1) F) by lia. by rewrite Zplus_mod_idemp_l. }
      unfold until. rewrite Em.
      replace (f + 1 + (F - (f mod F + 1))) with (f + (F - f mod F)) by lia.
      destruct (Z.ltb_spec (f + (F - f mod F)) (2 ^ 32)); lia.
Qed.

(** ** The limit *)
Lemma limit_exact p :
  Monitor.flags_ok p = true →
  Monitor.operationRetryTimes p =
    (Monitor.maxTolerateFailedTimes p + 1) * (Monitor.checkIntervalMs p + Monitor.timeoutMs p) / 1000 ∧
  0 ≤ Monitor.operationRetryTimes p.
Proof.
  unfold Monitor.flags_ok, Monitor.NumCheck, Monitor.operationRetryTimes,
    Monitor.KV_OPERATE_RETRY_INTERVAL_LOWER_BOUND.
  rewrite !andb_true_iff, !Z.leb_le. intros Hp.
  rewrite (to_uint32_small (Monitor.maxTolerateFailedTimes p + 1)) by lia.
  rewrite (to_uint32_small (Monitor.checkIntervalMs p + Monitor.timeoutMs p)) by lia.
  rewrite to_uint32_small by nia. split; [done|]. apply Z.div_pos; nia.
Qed.

(** The attempts take longer than the checks. *)
Lemma attempts_outlast p lag :
  Monitor.flags_ok p = true → 0 ≤ lag ≤ 3000 →
  let F := Monitor.maxTolerateFailedTimes p in
  let P := Monitor.checkIntervalMs p + Monitor.timeoutMs p in
  1000 ≤ (F + 1) * P → 2 * F * P + lag < waited (Monitor.operationRetryTimes p + 1).
Proof.
  intros Hp Hlag F P Hmin. destruct (limit_exact p Hp) as [-> _]. fold F P.
  assert (200 ≤ P) as HP.
  { unfold Monitor.flags_ok, Monitor.NumCheck in Hp. rewrite !andb_true_iff, !Z.leb_le in Hp. lia. }
  set (L := (F + 1) * P / 1000). unfold waited.
  assert (1 ≤ L) by (apply Z.div_le_lower_bound; lia).
  assert ((F + 1) * P < 1000 * (L + 1)) by (pose proof (Z.mul_succ_div_gt ((F + 1) * P) 1000); lia).
  nia.
Qed.

(** ** One request *)
Definition events_of (q : string) (l : list Event) : list Event := filter (λ e, ev_key e = q) l.
Definition resolved (q : string) (g : list (Z * Log)) : Z := count (Ended q) g + count (Failed q) g.

(** [M] are the requests that wait, [R] the repetitions that are due. *)
Definition request_ok (L T0 : Z) (q : string) (M : gset string) (R : list Event) (g : list (Z * Log))
    : Prop :=
  resolved q g ≤ (if decide (q ∈ M) then 0 else 1) ∧ count (Sent q) g ≤ L ∧
  match events_of q R with
  | [] => q ∉ M
  | [e] => 1 ≤ ev_attempt e ∧ count (Sent q) g = ev_attempt e - 1 ∧
      (q ∈ M → T0 + waited (ev_attempt e) ≤ ev_due e)
  | _ => False
  end.

Definition unknown (q : string) (M : gset string) (R : list Event) (g : list (Z * Log)) : Prop :=
  (q ∉ M) ∧ events_of q R = [] ∧ count (Sent q) g = 0 ∧ resolved q g = 0.

Lemma count_cons x t z g : count x ((t, z) :: g) = (if decide (z = x) then 1 else 0) + count x g.
Proof. unfold count. rewrite filter_cons. cbn. case_decide; cbn; lia. Qed.
Lemma resolved_cons q t z g :
  resolved q ((t, z) :: g) =
  (if decide (z = Ended q) then 1 else 0) + (if decide (z = Failed q) then 1 else 0) + resolved q g.
Proof. unfold resolved. rewrite !count_cons. lia. Qed.

(** What another request does changes nothing. *)
Lemma request_frame L T0 q M M' R R' g g' :
  (q ∈ M' ↔ q ∈ M) → events_of q R' = events_of q R → count (Sent q) g' = count (Sent q) g →
  resolved q g' = resolved q g → request_ok L T0 q M R g → request_ok L T0 q M' R' g'.
Proof.
  intros HM HR Hs Hr (H1 & H2 & H3). unfold request_ok. rewrite HR, Hs, Hr. split_and!; [|done|].
  - by destruct (decide (q ∈ M)), (decide (q ∈ M')); try tauto.
  - destruct (events_of q R) as [|e [|]]; tauto.
Qed.
Lemma unknown_frame q M M' R R' g g' :
  (q ∈ M' ↔ q ∈ M) → events_of q R' = events_of q R → count (Sent q) g' = count (Sent q) g →
  resolved q g' = resolved q g → unknown q M R g → unknown q M' R' g'.
Proof. unfold unknown. intros HM -> -> ->. by rewrite HM. Qed.

Lemma events_of_cons_ne q e R : ev_key e ≠ q → events_of q (e :: R) = events_of q R.
Proof. intros Hne. unfold events_of. by rewrite filter_cons_False. Qed.
Lemma events_of_cancel_ne q k R :
  k ≠ q → events_of q (filter (λ e, is_timer_of k e = false) R) = events_of q R.
Proof.
  intros Hne. unfold events_of. rewrite list_filter_filter. apply list_filter_iff. intros e.
  unfold is_timer_of. split; [tauto|]. intros <-. split; [done|].
  rewrite bool_decide_false by done. apply andb_false_r.
Qed.

(** A request begins. *)
Lemma request_begins L q m x t M R g :
  0 ≤ L → unknown q M R g → request_ok L t q ({[q]} ∪ M) (mkEvent q m x 1 t false :: R) g.
Proof.
  intros HL (HM & HR & Hs & Hr). unfold request_ok, events_of in *. rewrite Hr, Hs, filter_cons_True by done.
  rewrite HR. split_and!; [destruct (decide _); lia|done|done|done|]. intros _. cbn. unfold waited. lia.
Qed.
(** It is refused. *)
Lemma request_refused L q t M R g : 0 ≤ L → unknown q M R g → request_ok L t q M R g.
Proof.
  intros HL (HM & HR & Hs & Hr). unfold request_ok. rewrite Hr, Hs, HR.
  split_and!; [destruct (decide _); lia|done|done].
Qed.

(** It ends. *)
Lemma request_ends L T0 q t M R g :
  q ∈ M → request_ok L T0 q M R g →
  request_ok L T0 q (M ∖ {[q]}) (filter (λ e, is_timer_of q e = false) R) ((t, Ended q) :: g).
Proof.
  intros Hq (Hr & Hs & He). rewrite decide_True in Hr by done.
  unfold request_ok. rewrite resolved_cons, count_cons.
  rewrite (decide_False (P := q ∈ M ∖ {[q]})) by set_solver. rewrite (decide_True (P := Ended q = Ended q)) by done.
  rewrite (decide_False (P := Ended q = Failed q)), (decide_False (P := Ended q = Sent q)) by done. split_and!; [lia|lia|].
  assert (events_of q (filter (λ e, is_timer_of q e = false) R) =
    filter (λ e, is_timer_of q e = false) (events_of q R)) as ->
    by (unfold events_of; rewrite !list_filter_filter; apply list_filter_iff; tauto).
  destruct (events_of q R) as [|e [|]]; [set_solver| |done].
  destruct He as (? & ? & ?). rewrite filter_cons. case_decide; cbn; [|set_solver].
  split_and!; [done|lia|set_solver].
Qed.

(** An attempt. *)
Lemma request_fails L T0 q t M R g :
  q ∈ M → events_of q R = [] → resolved q g ≤ 0 → count (Sent q) g ≤ L →
  request_ok L T0 q (M ∖ {[q]}) R ((t, Failed q) :: g).
Proof.
  intros Hq HR Hr Hs. unfold request_ok. rewrite resolved_cons, count_cons, HR.
  rewrite (decide_False (P := q ∈ M ∖ {[q]})) by set_solver. rewrite (decide_True (P := Failed q = Failed q)) by done.
  rewrite (decide_False (P := Failed q = Ended q)), (decide_False (P := Failed q = Sent q)) by done. split_and!; [lia|lia|set_solver].
Qed.
Lemma request_sent L T0 q e M R g t (ms : Z) R' :
  events_of q R = [] → 1 ≤ ev_attempt e ≤ L → count (Sent q) g = ev_attempt e - 1 →
  resolved q g ≤ (if decide (q ∈ M) then 0 else 1) →
  (q ∈ M → T0 + waited (ev_attempt e) ≤ t ∧ backoff_lower 5 1000 (ev_attempt e + 1) ≤ ms) →
  R' = (if decide (q ∈ M) then mkEvent q (ev_method e) (ev_msg e) (ev_attempt e + 1) (t + ms) true :: R
        else R) →
  request_ok L T0 q M R' ((t, Sent q) :: g).
Proof.
  intros HR Ha Hs Hr Hw ->. unfold request_ok. rewrite resolved_cons, count_cons.
  rewrite (decide_False (P := Sent q = Ended q)), (decide_False (P := Sent q = Failed q)) by done.
  rewrite (decide_True (P := Sent q = Sent q)) by done.
  split_and!; [lia|lia|]. destruct (decide (q ∈ M)) as [Hq|Hq].
  - unfold events_of in *. rewrite filter_cons_True, HR by done. cbn. split_and!; [lia|lia|].
    intros _. rewrite waited_next. destruct (Hw Hq). lia.
  - by rewrite HR.
Qed.

(** ** All requests *)
Definition all_ok (L : Z) (b : gmap string Z) (M : gset string) (R : list Event) (g : list (Z * Log))
    : Prop :=
  ∀ q, match b !! q with
       | Some T0 => request_ok L T0 q M R g
       | None => unknown q M R g
       end.

Lemma all_frame L b k M M' R R' g g' :
  all_ok L b M R g →
  (∀ q, q ≠ k → (q ∈ M' ↔ q ∈ M) ∧ events_of q R' = events_of q R ∧
     count (Sent q) g' = count (Sent q) g ∧ resolved q g' = resolved q g) →
  match b !! k with
  | Some T0 => request_ok L T0 k M' R' g'
  | None => unknown k M' R' g'
  end →
  all_ok L b M' R' g'.
Proof.
  intros Ha Hf Hk q. destruct (decide (q = k)) as [->|Hne]; [done|].
  destruct (Hf q Hne) as (? & ? & ? & ?). specialize (Ha q).
  destruct (b !! q); [by eapply request_frame|by eapply unknown_frame].
Qed.

Lemma all_ends L b k t M R g :
  k ∈ M → all_ok L b M R g →
  all_ok L b (M ∖ {[k]}) (filter (λ e, is_timer_of k e = false) R) ((t, Ended k) :: g).
Proof.
  intros Hk Ha. apply (all_frame _ _ k _ _ _ _ _ _ Ha).
  - intros q Hne. split_and!; [set_solver|by apply events_of_cancel_ne| |].
    + rewrite count_cons, decide_False by done. lia.
    + rewrite resolved_cons, !decide_False by congruence. lia.
  - specialize (Ha k). destruct (b !! k); [by apply request_ends|]. by destruct Ha.
Qed.

(** ** Handlers of the client *)
Definition matched (s : KvClient.State) : gset string := Retry.requestMatch_ (KvClient.txnHelper_ s).
Definition limit (s : KvClient.State) : Z := Retry.attemptLimit_ (KvClient.txnHelper_ s).

(** A handler that begins no transaction and lets none fail. *)
Definition acts {X} (m : KvClient.A X) : Prop :=
  ∀ t s R g,
    limit (exec m s) = limit s ∧ matched (exec m s) ⊆ matched s ∧
    (∀ k, KvClient.ByTxn (Retry.SetFailed k) ∉ outs m s) ∧
    ∀ L b, all_ok L b (matched s) R g →
      all_ok L b (matched (exec m s)) (absorb t (outs m s) (R, g)).1 (absorb t (outs m s) (R, g)).2.

Lemma absorb_app t os os' p : absorb t (os ++ os') p = absorb t os' (absorb t os p).
Proof. apply foldl_app. Qed.

Lemma acts_bind {X Y} (m : KvClient.A X) (f : X → KvClient.A Y) :
  acts m → (∀ x, acts (f x)) → acts (m ≫= f).
Proof.
  intros Hm Hf t s R g. rewrite exec_bind, outs_bind.
  destruct (Hm t s R g) as (Hl & Hsub & Hnf & Hall).
  destruct (absorb t (outs m s) (R, g)) as [R1 g1] eqn:E.
  destruct (Hf (val m s) t (exec m s) R1 g1) as (Hl' & Hsub' & Hnf' & Hall').
  split_and!; [congruence|set_solver|set_solver|]. intros L b Ha. rewrite absorb_app, E.
  apply Hall'. by apply Hall.
Qed.
Lemma acts_ret {X} (x : X) : acts (mret x).
Proof. intros t s R g. rewrite exec_ret, outs_ret. split_and!; [done|done|set_solver|done]. Qed.
Lemma acts_members : acts members.
Proof. intros t s R g. rewrite exec_members, outs_members. split_and!; [done|done|set_solver|done]. Qed.
Lemma acts_when b (m : KvClient.A unit) : acts m → acts (act_when b m).
Proof. intros Hm. destruct b; [done|apply acts_ret]. Qed.
Lemma acts_modify f : (∀ s, KvClient.txnHelper_ (f s) = KvClient.txnHelper_ s) → acts (modify f).
Proof.
  intros Hf t s R g. rewrite exec_modify, outs_modify. unfold limit, matched. rewrite Hf.
  split_and!; [done|done|set_solver|done].
Qed.

(** Messages that are no transaction's. *)
Lemma absorb_others t os p :
  Forall (λ o, match o with KvClient.ByTxn _ => False | _ => True end) os → absorb t os p = p.
Proof.
  intros Hos. revert p. induction Hos as [|o os Ho Hos IH]; intros p; [done|]. unfold absorb. cbn [foldl].
  assert (absorb1 t p o = p) as -> by by destruct o. apply IH.
Qed.
Lemma acts_others {X} (m : KvClient.A X) :
  (∀ s, KvClient.txnHelper_ (exec m s) = KvClient.txnHelper_ s) →
  (∀ s, Forall (λ o, match o with KvClient.ByTxn _ => False | _ => True end) (outs m s)) → acts m.
Proof.
  intros Hm Ho t s R g. specialize (Ho s). unfold limit, matched. rewrite Hm, absorb_others by done.
  split_and!; [done|done| |done]. intros k Hk. rewrite Forall_forall in Ho. by apply Ho in Hk.
Qed.
Lemma Forall_tag {R' : Type} (tag : Retry.Out R' → KvClient.Out) (P : KvClient.Out → Prop) os :
  (∀ o, P (tag o)) → Forall P (tag <$> os).
Proof. intros Ht. apply Forall_fmap, Forall_forall. intros o _. apply Ht. Qed.
Lemma acts_put {X} m : acts (KvClient.with_put (X := X) m).
Proof. apply acts_others; [done|]. intros s. by apply Forall_tag. Qed.
Lemma acts_deleter {X} m : acts (KvClient.with_deleter (X := X) m).
Proof. apply acts_others; [done|]. intros s. by apply Forall_tag. Qed.
Lemma acts_get {X} m : acts (KvClient.with_get (X := X) m).
Proof. apply acts_others; [done|]. intros s. by apply Forall_tag. Qed.

Lemma End_effect {R'} k (rsp : R') s :
  (exec (Retry.End k rsp) s, outs (Retry.End k rsp) s) =
  if decide (k ∈ Retry.requestMatch_ s)
  then (Retry.mkState (Retry.requestMatch_ s ∖ {[k]}) (Retry.attemptLimit_ s),
        [Retry.SetValue k rsp; Retry.CancelTimer k])
  else (s, []).
Proof.
  unfold Retry.End. rewrite exec_bind, outs_bind, val_members, exec_members, outs_members.
  destruct (decide _) as [Hk|Hk]; [by rewrite bool_decide_true|by rewrite bool_decide_false].
Qed.

Lemma acts_txn {X} (m : Act Retry.State (Retry.Out (option TxnResponse)) X) :
  (∀ t s R g,
    Retry.attemptLimit_ (exec m s) = Retry.attemptLimit_ s ∧
    Retry.requestMatch_ (exec m s) ⊆ Retry.requestMatch_ s ∧
    (∀ k, Retry.SetFailed k ∉ outs m s) ∧
    ∀ L b, all_ok L b (Retry.requestMatch_ s) R g →
      all_ok L b (Retry.requestMatch_ (exec m s)) (absorb t (KvClient.ByTxn <$> outs m s) (R, g)).1
        (absorb t (KvClient.ByTxn <$> outs m s) (R, g)).2) →
  acts (KvClient.with_txn m).
Proof.
  intros Hm t s R g. destruct (Hm t (KvClient.txnHelper_ s) R g) as (Hl & Hs & Hf & Ha).
  split_and!; [done|done| |done]. intros k Hk. apply list_elem_of_fmap in Hk as (o & [= <-] & Ho).
  by apply Hf in Ho.
Qed.

Lemma acts_end k rsp : acts (KvClient.with_txn (Retry.End k rsp)).
Proof.
  apply acts_txn. intros t s R g. pose proof (End_effect k rsp s) as E. destruct (decide _) as [Hk|Hk];
    injection E as -> ->; (split_and!; [done|set_solver|set_solver|]); [|done].
  intros L b Ha. by apply all_ends.
Qed.

(** The end of all of them. *)
Definition endings {R'} (rsp : R') (l : list string) : list (Retry.Out R') :=
  l ≫= λ k, [Retry.SetValue k rsp; Retry.CancelTimer k].
Lemma EndAll_loop {R'} (rsp : R') l s :
  let m := for_each l (λ k, post (Retry.SetValue k rsp) ≫= λ _, post (Retry.CancelTimer k) ≫= λ _,
                            Retry.erase_match k) in
  exec m s = Retry.mkState (Retry.requestMatch_ s ∖ list_to_set l) (Retry.attemptLimit_ s) ∧
  outs m s = endings rsp l.
Proof.
  revert s. induction l as [|k l IH]; intros s; cbn [for_each].
  - rewrite exec_ret, outs_ret. split; [|done]. destruct s as [M lim]. cbn. f_equal. set_solver.
  - rewrite exec_bind, outs_bind. destruct (IH (exec (post (Retry.SetValue k rsp) ≫= λ _,
      post (Retry.CancelTimer k) ≫= λ _, Retry.erase_match k) s)) as [-> ->]. split; [|done].
    cbn. f_equal. set_solver.
Qed.
Lemma EndAll_effect {R'} (rsp : R') s :
  exec (Retry.EndAll rsp) s = Retry.mkState ∅ (Retry.attemptLimit_ s) ∧
  outs (Retry.EndAll rsp) s = endings rsp (elements (Retry.requestMatch_ s)).
Proof.
  unfold Retry.EndAll. rewrite exec_bind, outs_bind, val_members, exec_members, outs_members.
  destruct (EndAll_loop rsp (elements (Retry.requestMatch_ s)) s) as [-> ->]. split; [|done].
  f_equal. set_solver.
Qed.

Lemma all_end L b t rsp l M R g :
  NoDup l → (∀ k, k ∈ l → k ∈ M) → all_ok L b M R g →
  all_ok L b (M ∖ list_to_set l) (absorb t (KvClient.ByTxn <$> endings rsp l) (R, g)).1
    (absorb t (KvClient.ByTxn <$> endings rsp l) (R, g)).2.
Proof.
  intros Hl. revert M R g. induction Hl as [|k l Hk Hl IH]; intros M R g HM Ha.
  - cbn. by replace (M ∖ ∅) with M by set_solver.
  - cbn. replace (M ∖ ({[k]} ∪ list_to_set l)) with (M ∖ {[k]} ∖ list_to_set l) by set_solver.
    apply IH; [set_solver|]. apply all_ends; [set_solver|done].
Qed.

Lemma acts_end_all rsp : acts (KvClient.with_txn (Retry.EndAll rsp)).
Proof.
  apply acts_txn. intros t s R g. destruct (EndAll_effect rsp s) as [-> ->].
  split_and!; [done|set_solver| |].
  - intros k (k' & Hk & _)%list_elem_of_bind. set_solver.
  - intros L b Ha. cbn [Retry.requestMatch_].
    replace ∅ with (Retry.requestMatch_ s ∖ list_to_set (elements (Retry.requestMatch_ s))) by set_solver.
    apply all_end; [apply NoDup_elements|set_solver|done].
Qed.

Create HintDb acts.
#[local] Hint Resolve acts_ret acts_members acts_put acts_deleter acts_get acts_end acts_end_all : acts.
Ltac actor :=
  repeat first
    [ match goal with
      | |- acts (_ ≫= _) => simple apply acts_bind; [|intros ?]
      | |- acts (act_when _ _) => simple apply acts_when
      | |- acts (match ?x with _ => _ end) => destruct x
      end
    | progress eauto with acts ].

Section handlers.
Context {PB : Protobuf} {PC : Codec PutRequest} {MC : Codec MetaStoreRequest}.

Lemma acts_OnTxn msg : acts (KvClient.OnTxn msg).
Proof. unfold KvClient.OnTxn. destruct (Client.OnTxn msg) as [[id r]|]; actor. Qed.

Lemma acts_other {X} (m : KvClient.A X) : other m → acts m.
Proof.
  destruct 1; unfold KvClient.Put, KvClient.Delete, KvClient.Get, KvClient.OnPut, KvClient.OnDelete,
    KvClient.OnGet, KvClient.RetryputHelper_, KvClient.RetrydeleterHelper_, KvClient.RetrygetHelper_; actor.
Qed.

Lemma acts_FallBreakResponse : acts KvClient.FallBreakResponse.
Proof. unfold KvClient.FallBreakResponse. actor. Qed.

Lemma acts_OnHealthyStatus st : acts (KvClient.OnHealthyStatus st).
Proof.
  unfold KvClient.OnHealthyStatus. actor; try apply acts_FallBreakResponse.
  - apply acts_modify. intros s. by case_bool_decide.
  - by apply acts_others; [|intros; repeat constructor].
Qed.

(** The fall-break leaves no request waiting. *)
Lemma fallbreak_empties st s : lost st = true → matched (exec (KvClient.OnHealthyStatus st) s) = ∅.
Proof.
  intros [He Hb]%andb_true_iff. unfold KvClient.OnHealthyStatus.
  rewrite exec_bind, exec_modify, exec_bind, exec_when, exec_post.
  set (s1 := if bool_decide _ then s else _).
  assert (KvClient.broken s1 = true) as Hs1.
  { unfold KvClient.broken. subst s1. apply bool_decide_eq_true in Hb. case_bool_decide as Hc.
    - rewrite Hc. unfold IsError, IsOk in He |- *. rewrite Hc, He. by apply bool_decide_eq_true.
    - cbn. rewrite He. by apply bool_decide_eq_true. }
  replace (if IsOk st then s1 else s1) with s1 by by case_match.
  rewrite exec_bind, val_members, exec_members, exec_when, Hs1. unfold KvClient.FallBreakResponse.
  rewrite !exec_bind. unfold matched.
  match goal with |- context [exec (KvClient.with_txn ?m) ?s0] =>
    change (KvClient.txnHelper_ (exec (KvClient.with_txn m) s0)) with (exec m (KvClient.txnHelper_ s0)) end.
  by match goal with |- context [exec (Retry.EndAll ?r) ?x] => destruct (EndAll_effect r x) as [-> _] end.
Qed.

(** A transaction begins, or is refused. *)
Definition begins {X} (uuid : string) (m : KvClient.A X) (s : KvClient.State) : Prop :=
  limit (exec m s) = limit s ∧
  (matched (exec m s) = matched s ∧ outs m s = [] ∨
   matched (exec m s) = {[uuid]} ∪ matched s ∧
   ∃ msg, outs m s = [KvClient.ByTxn (Retry.RetryNow uuid "Txn" msg 1)]).

Lemma CommitTxn_begins uuid request async s : begins uuid (KvClient.CommitTxn uuid request async) s.
Proof.
  unfold begins, KvClient.CommitTxn. rewrite exec_bind, outs_bind, val_members, exec_members, outs_members.
  destruct (KvClient.broken s); [by auto|]. split; [done|]. right. split; [done|]. by eexists.
Qed.
Lemma CommitWithReq_begins uuid request async s :
  begins uuid (KvClient.CommitWithReq uuid request async) s.
Proof.
  unfold begins, KvClient.CommitWithReq. rewrite exec_bind, outs_bind, val_members, exec_members, outs_members.
  destruct (KvClient.broken s); [by auto|]. split; [done|]. right. split; [done|]. by eexists.
Qed.
End handlers.

(** ** An attempt *)
Lemma Retry_effect {R'} ms k m x a (s : Retry.State) :
  let w := decide (k ∈ Retry.requestMatch_ s) in
  (exec (Retry.Retry (R := R') ms k m x a) s, outs (Retry.Retry (R := R') ms k m x a) s) =
  if Retry.ExceedAttemptLimit s a then
    if w then (Retry.mkState (Retry.requestMatch_ s ∖ {[k]}) (Retry.attemptLimit_ s), [Retry.SetFailed k])
    else (s, [])
  else (s, (if w then [Retry.RetryAfter k m x (a + 1) (ms (a + 1))] else []) ++ [Retry.Send k m x]).
Proof.
  unfold Retry.Retry. rewrite exec_bind, outs_bind, val_members, exec_members, outs_members.
  destruct (Retry.ExceedAttemptLimit s a).
  - unfold Retry.Failed. rewrite exec_bind, outs_bind, val_members, exec_members, outs_members.
    destruct (decide _) as [Hk|Hk]; [by rewrite bool_decide_true|by rewrite bool_decide_false].
  - unfold Retry.AddTimer. rewrite !exec_bind, !outs_bind, val_members, exec_members, outs_members.
    destruct (decide _) as [Hk|Hk]; [by rewrite bool_decide_true|by rewrite bool_decide_false].
Qed.

Lemma exec_with_txn {X} (m : Act Retry.State (Retry.Out (option TxnResponse)) X) s :
  exec (KvClient.with_txn m) s = KvClient.set_txn (exec m (KvClient.txnHelper_ s)) s.
Proof. done. Qed.
Lemma outs_with_txn {X} (m : Act Retry.State (Retry.Out (option TxnResponse)) X) s :
  outs (KvClient.with_txn m) s = KvClient.ByTxn <$> outs m (KvClient.txnHelper_ s).
Proof. done. Qed.

Lemma attempt_effect ms k m x a s :
  let h := KvClient.RetrytxnHelper_ ms k m x a in
  limit (exec h s) = limit s ∧
  (if Retry.ExceedAttemptLimit (KvClient.txnHelper_ s) a then
     if decide (k ∈ matched s) then
       matched (exec h s) = matched s ∖ {[k]} ∧ outs h s = [KvClient.ByTxn (Retry.SetFailed k)]
     else matched (exec h s) = matched s ∧ outs h s = []
   else
     matched (exec h s) = matched s ∧
     outs h s =
       (if decide (k ∈ matched s) then [KvClient.ByTxn (Retry.RetryAfter k m x (a + 1) (ms (a + 1)))] else [])
       ++ [KvClient.ByTxn (Retry.Send k m x)]).
Proof.
  intros h. pose proof (Retry_effect (R' := option TxnResponse) ms k m x a (KvClient.txnHelper_ s)) as E.
  cbn zeta in E. unfold h, KvClient.RetrytxnHelper_, limit, matched in *. rewrite exec_with_txn, outs_with_txn.
  cbn [KvClient.txnHelper_ KvClient.set_txn].
  destruct (Retry.ExceedAttemptLimit _ _), (decide _); injection E as -> ->; done.
Qed.

Lemma events_of_split q l1 e l2 :
  ev_key e = q → events_of q (l1 ++ e :: l2) = events_of q l1 ++ e :: events_of q l2.
Proof. intros Hq. unfold events_of. by rewrite filter_app, filter_cons_True. Qed.

(** The event that fires is the only one of its request. *)
Lemma all_event L b M l1 e l2 g :
  all_ok L b M (l1 ++ e :: l2) g →
  ∃ T0, b !! ev_key e = Some T0 ∧ events_of (ev_key e) (l1 ++ l2) = [] ∧
    resolved (ev_key e) g ≤ (if decide (ev_key e ∈ M) then 0 else 1) ∧
    1 ≤ ev_attempt e ∧ count (Sent (ev_key e)) g = ev_attempt e - 1 ∧ count (Sent (ev_key e)) g ≤ L ∧
    (ev_key e ∈ M → T0 + waited (ev_attempt e) ≤ ev_due e).
Proof.
  intros Ha. specialize (Ha (ev_key e)). destruct (b !! ev_key e) as [T0|].
  - destruct Ha as (Hr & Hs & He). rewrite events_of_split in He by done. exists T0. split; [done|].
    unfold events_of in *. rewrite filter_app.
    destruct (filter _ l1) as [|? [|]], (filter _ l2); try done. destruct He as (? & ? & ?). done.
  - destruct Ha as (_ & He & _). rewrite events_of_split in He by done. by destruct (events_of _ l1).
Qed.

Lemma events_of_skip q l1 e l2 : ev_key e ≠ q → events_of q (l1 ++ l2) = events_of q (l1 ++ e :: l2).
Proof. intros Hne. unfold events_of. by rewrite !filter_app, filter_cons_False. Qed.

Lemma all_fails L b M l1 e l2 g t :
  all_ok L b M (l1 ++ e :: l2) g → ev_key e ∈ M →
  all_ok L b (M ∖ {[ev_key e]}) (l1 ++ l2) ((t, Failed (ev_key e)) :: g).
Proof.
  intros Ha Hk. destruct (all_event _ _ _ _ _ _ _ Ha) as (T0 & Hb & He & Hr & _ & _ & Hs & _).
  rewrite decide_True in Hr by done.
  apply (all_frame _ _ (ev_key e) _ _ _ _ _ _ Ha); [|rewrite Hb; by apply request_fails].
  intros q Hne. split_and!; [set_solver|by apply events_of_skip| |].
  - rewrite count_cons, decide_False by done. lia.
  - rewrite resolved_cons, !decide_False by congruence. lia.
Qed.

Lemma all_gone L b M l1 e l2 g :
  all_ok L b M (l1 ++ e :: l2) g → ev_key e ∉ M → all_ok L b M (l1 ++ l2) g.
Proof.
  intros Ha Hk. destruct (all_event _ _ _ _ _ _ _ Ha) as (T0 & Hb & He & Hr & _ & _ & Hs & _).
  apply (all_frame _ _ (ev_key e) _ _ _ _ _ _ Ha).
  - intros q Hne. split_and!; [done|by apply events_of_skip|done|done].
  - rewrite Hb. unfold request_ok. by rewrite He.
Qed.

Lemma all_sent L b M l1 e l2 g t ms :
  all_ok L b M (l1 ++ e :: l2) g → ev_attempt e ≤ L → ev_due e ≤ t →
  backoff_lower 5 1000 (ev_attempt e + 1) ≤ ms →
  all_ok L b M
    ((if decide (ev_key e ∈ M)
      then [mkEvent (ev_key e) (ev_method e) (ev_msg e) (ev_attempt e + 1) (t + ms) true] else [])
     ++ l1 ++ l2) ((t, Sent (ev_key e)) :: g).
Proof.
  intros Ha HL Ht Hms. destruct (all_event _ _ _ _ _ _ _ Ha) as (T0 & Hb & He & Hr & H1 & Hc & Hs & Hw).
  apply (all_frame _ _ (ev_key e) _ _ _ _ _ _ Ha).
  - intros q Hne. split_and!; [done| | |].
    + rewrite <- (events_of_skip _ _ e) by done. destruct (decide _); cbn [app]; [|done].
      by rewrite events_of_cons_ne.
    + rewrite count_cons, decide_False by congruence. lia.
    + rewrite resolved_cons, !decide_False by done. lia.
  - rewrite Hb. apply (request_sent _ _ _ e _ (l1 ++ l2) _ _ ms); try done.
    + intros Hk. specialize (Hw Hk). lia.
    + by destruct (decide _).
Qed.

Lemma absorb_log t os R g :
  ∃ g', (absorb t os (R, g)).2 = g' ++ g ∧
    ∀ t' x, (t', x) ∈ g' → t' = t ∧ ∀ q, x = Failed q → KvClient.ByTxn (Retry.SetFailed q) ∈ os.
Proof.
  revert R g. induction os as [|o os IH]; intros R g; [exists []; set_solver|].
  unfold absorb. cbn [foldl]. destruct (absorb1 t (R, g) o) as [R1 g1] eqn:E.
  destruct (IH R1 g1) as (g' & Hg & Hp). unfold absorb in Hg. rewrite Hg.
  assert (g1 = g ∨ ∃ x, g1 = (t, x) :: g ∧ ∀ q, x = Failed q → o = KvClient.ByTxn (Retry.SetFailed q))
    as [->|(x & -> & Hx)].
  { destruct o as [| | |[]|]; injection E as <- <-; auto; right; eexists; (split; [done|]); naive_solver. }
  - exists g'. split; [done|]. intros t' x Hin. destruct (Hp t' x Hin) as [-> Hf]. split; [done|].
    intros q Hq. right. auto.
  - exists (g' ++ [(t, x)]). split; [by rewrite <- app_assoc|].
    intros t' x' [Hin|[= -> ->]%list_elem_of_singleton]%elem_of_app.
    + destruct (Hp t' x' Hin) as [-> Hf]. split; [done|]. intros q Hq. right. auto.
    + split; [done|]. intros q Hq. rewrite (Hx q Hq). left.
Qed.

(** ** A result of the monitor *)
Lemma publish_effect st s :
  exec (Monitor.publish st) s = s ∧
  outs (Monitor.publish st) s = (λ o, Monitor.OnHealthyStatus o st) <$> Monitor.observers_ s.
Proof.
  unfold Monitor.publish. rewrite exec_bind, outs_bind, val_members, exec_members, outs_members.
  generalize (Monitor.observers_ s). intros l. cbn [app].
  induction l as [|o l [IH1 IH2]]; [done|]. cbn [for_each fmap list_fmap].
  rewrite exec_bind, outs_bind, exec_post, outs_post, IH1, IH2. done.
Qed.

(** The failure counter, and that the loss is told when it is due. *)
Lemma IncreaseUnHealthy_effect p st s :
  let f := to_uint32 (Monitor.failedTimes_ s + 1) in
  exec (Monitor.IncreaseUnHealthy p st) s = Monitor.set_failed f s ∧
  (Monitor.maxTolerateFailedTimes p ≠ 0 → publishes (Monitor.maxTolerateFailedTimes p) f →
   ∀ o, o ∈ Monitor.observers_ s → Monitor.OnHealthyStatus o st ∈ outs (Monitor.IncreaseUnHealthy p st) s).
Proof.
  intros f. unfold Monitor.IncreaseUnHealthy.
  rewrite !exec_bind, !outs_bind, exec_modify, outs_modify, val_members, exec_members, outs_members.
  cbn [Monitor.failedTimes_ Monitor.set_failed app]. fold f.
  destruct (Z.ltb_spec f (Monitor.maxTolerateFailedTimes p)) as [Hlt|Hge].
  { split; [done|]. intros _ [Hp _]. lia. }
  destruct (bool_decide _ && _) eqn:E.
  { split; [done|]. intros _ [_ Hp]. apply andb_true_iff in E as [_ E%bool_decide_eq_true]. done. }
  destruct (publish_effect st (Monitor.set_failed f s)) as [-> ->]. split; [done|].
  intros _ _ o Ho. apply list_elem_of_fmap. eauto.
Qed.

Lemma OnMetaStoreHealthy_effect p s :
  exec (Monitor.OnMetaStoreHealthy p) s = Monitor.set_failed 0 (Monitor.set_level Monitor.ALARM_OFF s).
Proof.
  assert (∀ s, exec (Monitor.ResetUnHealthy p) s = Monitor.set_failed 0 s) as Hr.
  { intros s0. unfold Monitor.ResetUnHealthy. rewrite !exec_bind, val_members, exec_members, exec_when, exec_modify.
    case_match; [|done]. by rewrite (proj1 (publish_effect _ _)). }
  unfold Monitor.OnMetaStoreHealthy. rewrite !exec_bind, val_members, exec_members, exec_modify, Hr.
  by destruct (Monitor.alarmLevel_ s).
Qed.

Lemma result_effect p t r s :
  let m := Monitor.OnCheckMetaStoreStatus p t r in
  let f := if Monitor.healthy r then 0 else to_uint32 (Monitor.failedTimes_ s + 1) in
  Monitor.failedTimes_ (exec m s) = f ∧ Monitor.isChecking_ (exec m s) = false ∧
  Monitor.observers_ (exec m s) = Monitor.observers_ s ∧
  (Monitor.healthy r = false → Monitor.maxTolerateFailedTimes p ≠ 0 →
   publishes (Monitor.maxTolerateFailedTimes p) f →
   ∀ o, o ∈ Monitor.observers_ s → Monitor.OnHealthyStatus o (Monitor.error_of r) ∈ outs m s).
Proof.
  intros m f. subst m f. unfold Monitor.OnCheckMetaStoreStatus. rewrite !exec_bind, outs_bind.
  destruct (Monitor.healthy r).
  - rewrite OnMetaStoreHealthy_effect. done.
  - unfold Monitor.OnMetaStoreUnhealthy. rewrite !exec_bind, outs_bind, val_members, exec_members.
    destruct (IncreaseUnHealthy_effect p (Monitor.error_of r) s) as [-> Hout].
    split_and!; [by destruct (Monitor.alarmLevel_ _)..|].
    intros _ HF Hp o Ho. apply elem_of_app. left. apply elem_of_app. left. auto.
Qed.

(** ** The system *)
Section timed.
Context {PB : Protobuf} {PC : Codec PutRequest} {MC : Codec MetaStoreRequest}.
Context (param : Monitor.Param) (lag : Z).
Context (Hflags : Monitor.flags_ok param = true) (Hlag : 0 ≤ lag ≤ 3000).

Let F := Monitor.maxTolerateFailedTimes param.
Let I := Monitor.checkIntervalMs param.
Let T := Monitor.timeoutMs param.
Let L := Monitor.operationRetryTimes param.
Context (Hmin : 1000 ≤ (F + 1) * (I + T)).

(** Why a request that waits will not run out of attempts: the store was seen,
    or the client is being told, or the checks go on failing. *)
Definition watched (y : Sys) (T0 : Z) : Prop :=
  (∃ t, (t, SeenThere) ∈ log y ∧ T0 ≤ t) ∨
  (∃ st t, (st, t) ∈ notices y ∧ lost st = true ∧ t ≤ T0 + 2 * F * (I + T) + lag) ∨
  (∃ m, 0 ≤ m ∧ m + until F (Monitor.failedTimes_ (monitor y)) ≤ 2 * F ∧
        deadline param (check y) ≤ T0 + (m + 1) * (I + T)).

Record inv (y : Sys) : Prop := mk_inv {
  inv_all : all_ok L (begun y) (matched (client y)) (retries y) (log y);
  inv_limit : limit (client y) = L;
  inv_checking : Monitor.isChecking_ (monitor y) = match check y with Checking _ => true | _ => false end;
  inv_failed : 0 ≤ Monitor.failedTimes_ (monitor y) < 2 ^ 32;
  inv_observers : "kv" ∈ Monitor.observers_ (monitor y);
  inv_check : match check y with
              | Due t => now y ≤ t ≤ now y + I
              | Checking since => since ≤ now y ≤ since + T
              end;
  inv_notices n : n ∈ notices y → now y ≤ n.2;
  inv_log t x : (t, x) ∈ log y → t ≤ now y;
  inv_begun q T0 : begun y !! q = Some T0 → T0 ≤ now y;
  inv_watched q T0 : begun y !! q = Some T0 → q ∈ matched (client y) → watched y T0;
  inv_failures t q : (t, Failed q) ∈ log y →
    ∃ T0 t', begun y !! q = Some T0 ∧ (t', SeenThere) ∈ log y ∧ T0 ≤ t' ≤ t }.

Lemma param_bounds : 0 < F < 2 ^ 32 ∧ 0 < I ∧ 0 < T.
Proof using Hflags.
  unfold Monitor.flags_ok, Monitor.NumCheck in Hflags. rewrite !andb_true_iff, !Z.leb_le in Hflags.
  subst F I T. lia.
Qed.

Lemma watched_mono y y' T0 :
  (∀ p, p ∈ log y → p ∈ log y') → (∀ n, n ∈ notices y → n ∈ notices y') →
  Monitor.failedTimes_ (monitor y') = Monitor.failedTimes_ (monitor y) →
  deadline param (check y') ≤ deadline param (check y) → watched y T0 → watched y' T0.
Proof.
  intros Hl Hn Hf Hd [(t & Ht & Hle)|[(st & t & Hin & Hst)|(m & Hm & Hu & Hdl)]].
  - left. eauto.
  - right. left. eauto.
  - right. right. exists m. rewrite Hf. split_and!; [done|done|lia].
Qed.

(** The client goes on: it begins nothing, and the failures are accounted for. *)
Lemma inv_client y c R g :
  inv y → limit c = L → matched c ⊆ matched (client y) → all_ok L (begun y) (matched c) R (g ++ log y) →
  (∀ t x, (t, x) ∈ g → t = now y ∧ ∀ q, x = Failed q →
     ∃ T0 t', begun y !! q = Some T0 ∧ (t', SeenThere) ∈ log y ∧ T0 ≤ t' ≤ t) →
  inv (mkSys (now y) c (monitor y) (check y) R (notices y) (begun y) (g ++ log y)).
Proof.
  intros [Hall Hlim Hc Hf Ho Hck Hno Hlog Hbg Hw Hfl] Hl Hsub Ha Hg. split; cbn; try done.
  - intros t x [Hin|Hin]%elem_of_app; [|by eapply Hlog]. destruct (Hg _ _ Hin) as [-> _]. lia.
  - intros q T0 Hq Hin. apply (watched_mono y); cbn; try done.
    + intros p Hp. apply elem_of_app. by right.
    + apply (Hw q); [done|]. by apply Hsub.
  - intros t q [Hin|Hin]%elem_of_app.
    + destruct (Hg _ _ Hin) as [_ Hq]. destruct (Hq q eq_refl) as (T0 & t' & ? & ? & ?).
      exists T0, t'. rewrite elem_of_app. auto.
    + destruct (Hfl _ _ Hin) as (T0 & t' & ? & ? & ?). exists T0, t'. rewrite elem_of_app. auto.
Qed.

Lemma inv_acts {X} (m : KvClient.A X) y : acts m → inv y → inv (run m y).
Proof.
  intros Hm Hy. destruct (Hm (now y) (client y) (retries y) (log y)) as (Hl & Hsub & Hnf & Ha).
  destruct (absorb_log (now y) (outs m (client y)) (retries y) (log y)) as (g & Hg & Hgp).
  specialize (Ha _ _ (inv_all _ Hy)). unfold run. rewrite Hg in Ha |- *. apply inv_client; try done.
  - rewrite Hl. by apply inv_limit.
  - intros t x Hin. destruct (Hgp _ _ Hin) as [-> Hq]. split; [done|]. intros q E.
    by destruct (Hnf q); apply Hq.
Qed.

(** A request that has waited for all its attempts was seen. *)
Lemma watched_seen y T0 :
  inv y → watched y T0 → T0 + waited (L + 1) ≤ now y → ∃ t, (t, SeenThere) ∈ log y ∧ T0 ≤ t.
Proof using Hflags Hlag Hmin.
  intros Hy Hw Ht. pose proof (attempts_outlast param lag Hflags Hlag Hmin) as Hout. cbn zeta in Hout.
  fold F I T L in Hout. destruct param_bounds as (HF & HI & HT).
  destruct Hw as [Hs|[(st & t & Hin & _ & Hle)|(m & Hm & Hu & Hd)]]; [done|exfalso..].
  - apply (inv_notices _ Hy) in Hin. cbn in Hin. lia.
  - pose proof (until_bounds F _ HF (inv_failed _ Hy)).
    assert (now y ≤ deadline param (check y)).
    { pose proof (inv_check _ Hy). unfold deadline. fold T. destruct (check y); lia. }
    nia.
Qed.

(** ** Every step *)
Lemma L_nonneg : 0 ≤ L.
Proof using Hflags. by apply limit_exact. Qed.

Lemma watched_now y : inv y → watched y (now y).
Proof using Hflags Hlag Hmin.
  intros Hy. right. right. exists 0. destruct param_bounds as (HF & HI & HT).
  pose proof (until_bounds F _ HF (inv_failed _ Hy)). split_and!; [done|lia|].
  pose proof (inv_check _ Hy). unfold deadline. fold T. destruct (check y); lia.
Qed.

Lemma inv_commit y uuid {X} (m : KvClient.A X) :
  inv y → begun y !! uuid = None → begins uuid m (client y) → inv (run m (begin_at uuid y)).
Proof using Hflags Hlag Hmin.
  intros Hy Hu [Hl Hb]. pose proof Hy as [Hall Hlim Hc Hf Ho Hck Hno Hlog Hbg Hw Hfl].
  pose proof (Hall uuid) as Hun. rewrite Hu in Hun.
  assert (Hfail : ∀ t q, (t, Failed q) ∈ log y → ∃ T0 t',
    <[uuid := now y]> (begun y) !! q = Some T0 ∧ (t', SeenThere) ∈ log y ∧ T0 ≤ t' ≤ t).
  { intros t q Hin. destruct (Hfl _ _ Hin) as (T0 & t' & Hq & ?). exists T0, t'. split; [|done].
    rewrite lookup_insert_ne by congruence. done. }
  assert (Hbegun : ∀ q T0, <[uuid := now y]> (begun y) !! q = Some T0 → T0 ≤ now y).
  { intros q T0. rewrite lookup_insert_Some. intros [[<- <-]|[_ Hq]]; [done|eauto]. }
  destruct Hb as [[HM Hout]|[HM [msg Hout]]]; unfold run; cbn -[matched limit]; rewrite Hout; split;
    cbn -[matched limit]; try done; try congruence; rewrite ?HM.
  - intros q. destruct (decide (q = uuid)) as [->|Hne].
    + rewrite lookup_insert_eq. apply request_refused; [apply L_nonneg|done].
    + rewrite lookup_insert_ne by done. apply Hall.
  - intros q T0. rewrite lookup_insert_Some. intros [[<- <-]|[_ Hq]] Hin; [by destruct Hun|].
    by apply (Hw q T0).
  - intros q. destruct (decide (q = uuid)) as [->|Hne].
    + rewrite lookup_insert_eq. apply request_begins; [apply L_nonneg|done].
    + rewrite lookup_insert_ne by done. specialize (Hall q).
      assert (events_of q (mkEvent uuid "Txn" msg 1 (now y) false :: retries y) = events_of q (retries y))
        by by apply events_of_cons_ne.
      assert (q ∈ {[uuid]} ∪ matched (client y) ↔ q ∈ matched (client y))
        by (rewrite elem_of_union, elem_of_singleton; tauto).
      destruct (begun y !! q); [eapply request_frame|eapply unknown_frame]; done.
  - intros q T0. rewrite lookup_insert_Some. intros [[<- <-]|[Hne Hq]] Hin; [exact (watched_now y Hy)|].
    apply (Hw q T0); [done|]. by apply elem_of_union in Hin as [Hin%elem_of_singleton|].
Qed.

Lemma inv_retry y l1 e l2 ms :
  inv y → retries y = l1 ++ e :: l2 → ev_due e ≤ now y → (∀ a, backoff_lower 5 1000 a ≤ ms a) →
  inv (run (KvClient.RetrytxnHelper_ ms (ev_key e) (ev_method e) (ev_msg e) (ev_attempt e))
         (set_retries (l1 ++ l2) y)).
Proof using Hflags Hlag Hmin.
  intros Hy HR Hdue Hms. pose proof Hy as [Hall Hlim Hc Hf Ho Hck Hno Hlog Hbg Hw Hfl].
  rewrite HR in Hall. destruct (all_event _ _ _ _ _ _ _ Hall) as (T0 & Hb & _ & _ & Ha & Hs & HsL & Hwt).
  assert (Retry.ExceedAttemptLimit (KvClient.txnHelper_ (client y)) (ev_attempt e) = (L <? ev_attempt e)) as Hex.
  { unfold Retry.ExceedAttemptLimit. change (Retry.attemptLimit_ _) with (limit (client y)). rewrite Hlim.
    pose proof L_nonneg. by rewrite bool_decide_false by lia. }
  destruct (attempt_effect ms (ev_key e) (ev_method e) (ev_msg e) (ev_attempt e) (client y)) as [Hl E].
  rewrite Hex in E. set (m := KvClient.RetrytxnHelper_ _ _ _ _ _) in *. rewrite Hlim in Hl.
  assert (Hrun : ∀ R g, absorb (now y) (outs m (client y)) (l1 ++ l2, log y) = (R, g ++ log y) →
    matched (exec m (client y)) ⊆ matched (client y) →
    all_ok L (begun y) (matched (exec m (client y))) R (g ++ log y) →
    (∀ t x, (t, x) ∈ g → t = now y ∧ ∀ q, x = Failed q →
      ∃ T0 t', begun y !! q = Some T0 ∧ (t', SeenThere) ∈ log y ∧ T0 ≤ t' ≤ t) →
    inv (run m (set_retries (l1 ++ l2) y))).
  { intros R g Hab Hsub Ha' Hg. unfold run. cbn [client set_retries now retries log].
    rewrite Hab. exact (inv_client y _ _ _ Hy Hl Hsub Ha' Hg). }
  destruct (Z.ltb_spec L (ev_attempt e)) as [Hover|Hle];
    [destruct (decide (ev_key e ∈ matched (client y))) as [Hk|Hk]|]; destruct E as [HM Hout]; rewrite Hout, HM in Hrun.
  - apply (Hrun (l1 ++ l2) [(now y, Failed (ev_key e))]); [done|apply subseteq_difference_l; done| |].
    + by apply all_fails.
    + intros t x [= -> ->]%list_elem_of_singleton. split; [done|]. intros q [= <-].
      assert (ev_attempt e = L + 1) as Ea by lia. specialize (Hwt Hk). rewrite Ea in Hwt.
      destruct (watched_seen y T0 Hy (Hw _ _ Hb Hk)) as (t' & Ht' & Hle'); [lia|].
      exists T0, t'. split_and!; [done..|]. by eapply Hlog.
  - apply (Hrun (l1 ++ l2) []); [done|done| |by intros t x ?%elem_of_nil]. by eapply all_gone.
  - eapply (Hrun _ [(now y, Sent (ev_key e))]); [|done|apply (all_sent _ _ _ _ _ _ _ _ (ms (ev_attempt e + 1)) Hall Hle Hdue); done|].
    + by destruct (decide _).
    + by intros t x [= -> ->]%list_elem_of_singleton.
Qed.

(** The client hears of the store. *)
Lemma inv_notice y l1 st t l2 :
  inv y → notices y = l1 ++ (st, t) :: l2 →
  inv (run (KvClient.OnHealthyStatus st) (set_notices (l1 ++ l2) y)).
Proof using Hflags Hlag Hmin.
  intros Hy Hn. pose proof (inv_acts _ _ (acts_OnHealthyStatus st) Hy) as [Hall Hlim Hc Hf Ho Hck Hno Hlog Hbg Hw Hfl].
  assert (Hin : ∀ n, n ∈ l1 ++ l2 → n ∈ notices y).
  { intros n. rewrite Hn, !elem_of_app, elem_of_cons. tauto. }
  split; try done.
  - intros n Hn'. apply Hno. by apply Hin.
  - intros q T0 Hq Hm. destruct (lost st) eqn:Hl.
    { exfalso. cbn -[matched] in Hm. by rewrite (fallbreak_empties _ _ Hl) in Hm. }
    destruct (Hw q T0 Hq Hm) as [Hs|[(st' & t' & Hst & Hl' & Ht')|Hm']]; [by left| |by right; right].
    right. left. exists st', t'. split_and!; [|done..]. cbn in Hst |- *.
    rewrite Hn, elem_of_app, elem_of_cons in Hst. apply elem_of_app.
    destruct Hst as [|[[= -> ->]|]]; [by left|congruence|by right].
Qed.

Lemma inv_check_step y :
  inv y →
  inv (set_monitor (exec (Monitor.CheckMetaStoreStatus param) (monitor y))
         (match check y with Due _ => Checking (now y) | c => c end) y).
Proof using Hflags Hlag Hmin.
  intros Hy. pose proof Hy as [Hall Hlim Hc Hf Ho Hck Hno Hlog Hbg Hw Hfl]. pose proof param_bounds as (_ & _ & HT).
  assert (exec (Monitor.CheckMetaStoreStatus param) (monitor y) = Monitor.set_checking true (monitor y)) as ->.
  { unfold Monitor.CheckMetaStoreStatus. rewrite exec_bind, val_members, exec_members.
    destruct (Monitor.isChecking_ (monitor y)) eqn:E; [|done]. rewrite exec_ret.
    destruct (monitor y). cbn in E. by subst. }
  split; cbn; try done.
  - by destruct (check y).
  - destruct (check y); [lia|done].
  - intros q T0 Hq Hm. apply (watched_mono y); cbn; try done; [|by apply (Hw q)].
    destruct (check y); cbn; lia.
Qed.

Lemma told_in t o st os : o = "kv" → Monitor.OnHealthyStatus o st ∈ os → (st, t + lag) ∈ told lag t os.
Proof. intros -> Hin. unfold told. apply list_elem_of_omap. by exists (Monitor.OnHealthyStatus "kv" st). Qed.
Lemma told_due t n os : n ∈ told lag t os → n.2 = t + lag.
Proof.
  unfold told. intros (o & _ & Ho)%list_elem_of_omap. destruct o; try done.
  repeat case_match; try done. by injection Ho as <-.
Qed.

Lemma inv_result y since r :
  inv y → check y = Checking since →
  let m := Monitor.OnCheckMetaStoreStatus param (now y) r in
  inv (add_log (if there r then [(now y, SeenThere)] else [])
        (set_notices (told lag (now y) (outs m (monitor y)) ++ notices y)
          (set_monitor (exec m (monitor y)) (Due (now y + Monitor.checkIntervalMs param)) y))).
Proof using Hflags Hlag Hmin.
  intros Hy Hsince m. pose proof Hy as [Hall Hlim Hc Hf Ho Hck Hno Hlog Hbg Hw Hfl].
  destruct param_bounds as (HF & HI & HT). rewrite Hsince in Hck.
  destruct (result_effect param (now y) r (monitor y)) as (Hf' & Hc' & Ho' & Hpub). fold m in Hf', Hc', Ho', Hpub.
  assert (Hseen : ∀ p, p ∈ log y → p ∈ (if there r then [(now y, SeenThere)] else []) ++ log y)
    by (intros; apply elem_of_app; by right).
  split; cbn -[matched limit]; try done.
  - intros q. specialize (Hall q). destruct (there r); [|done].
    destruct (begun y !! q); [eapply request_frame|eapply unknown_frame]; try done;
      cbn [app]; rewrite ?count_cons, ?resolved_cons, ?decide_False by done; lia.
  - rewrite Hf'. destruct (Monitor.healthy r); [lia|]. unfold to_uint32. apply Z.mod_pos_bound. lia.
  - by rewrite Ho'.
  - fold I. lia.
  - intros n [Hn|Hn]%elem_of_app; [rewrite (told_due _ _ _ Hn); lia|by apply Hno].
  - intros t x [Hin|Hin]%elem_of_app; [|by eapply Hlog]. destruct (there r); [|by apply elem_of_nil in Hin].
    apply list_elem_of_singleton in Hin as [= -> ->]. lia.
  - intros q T0 Hq Hm. specialize (Hw q T0 Hq Hm). specialize (Hbg q T0 Hq).
    destruct (there r) eqn:Hr. { left. exists (now y). cbn. split; [left|done]. }
    apply orb_false_iff in Hr as [Hun Hlost%negb_false_iff]. rewrite Hun in Hf', Hpub.
    destruct Hw as [Hs|[(st & t & Hin & Hst)|(k & Hk & Hu & Hd)]]; [by left| |].
    { right. left. exists st, t. cbn. split; [apply elem_of_app; by right|done]. }
    rewrite Hsince in Hd. cbn in Hd. fold T in Hd.
    pose proof (until_bounds F _ HF Hf) as Hub.
    destruct (until_next F _ HF Hf) as [Hp|Hu']; right; [left|right].
    + exists (Monitor.error_of r), (now y + lag). cbn. split_and!; [|done|nia].
      apply elem_of_app. left. apply (told_in _ "kv"); [done|]. apply Hpub; [done|fold F; lia|done|done].
    + exists (k + 1). cbn. rewrite Hf', Hu'. fold I T. split_and!; lia.
  - intros t q [Hin|Hin]%elem_of_app.
    + destruct (there r); [|by apply elem_of_nil in Hin]. by apply list_elem_of_singleton in Hin.
    + destruct (Hfl _ _ Hin) as (T0 & t' & ? & ? & ?). exists T0, t'. auto.
Qed.

Lemma inv_tick y t :
  inv y → now y ≤ t → t ≤ next_check param (check y) → Forall (λ n, t ≤ n.2) (notices y) →
  inv (set_now t y).
Proof using Hflags Hlag Hmin.
  intros [Hall Hlim Hc Hf Ho Hck Hno Hlog Hbg Hw Hfl] Ht Hn Hnot. split; cbn -[matched limit]; try done.
  - unfold next_check in Hn. fold T in Hn. destruct (check y); lia.
  - by apply Forall_forall.
  - intros t' x Hin. specialize (Hlog _ _ Hin). lia.
  - intros q T0 Hq. specialize (Hbg _ _ Hq). lia.
Qed.

Lemma inv_register y o :
  inv y → inv (set_monitor (exec (Monitor.RegisterHealthyObserver (Some o)) (monitor y)) (check y) y).
Proof using Hflags Hlag Hmin.
  intros [Hall Hlim Hc Hf Ho Hck Hno Hlog Hbg Hw Hfl]. split; cbn -[matched limit]; try done.
  apply elem_of_app. by left.
Qed.

Lemma inv_start prefix : inv (start param prefix).
Proof using Hflags Hlag Hmin.
  destruct param_bounds as (HF & HI & HT).
  split; cbn -[matched limit]; try done; try (by intros ? ?%elem_of_nil); try (by intros ? ? ?%elem_of_nil).
  - left.
  - fold I. lia.
Qed.

Lemma inv_step y y' : inv y → step param lag y y' → inv y'.
Proof using Hflags Hlag Hmin.
  intros Hy Hs. destruct Hs.
  - apply inv_commit; [done..|apply CommitTxn_begins].
  - apply inv_commit; [done..|apply CommitWithReq_begins].
  - apply inv_acts; [apply acts_OnTxn|done].
  - apply inv_acts; [by apply acts_other|done].
  - by apply inv_retry.
  - by eapply inv_notice.
  - by apply inv_check_step.
  - by eapply inv_result.
  - by apply inv_register.
  - by apply inv_tick.
Qed.

Lemma inv_reachable prefix y : rtc (step param lag) (start param prefix) y → inv y.
Proof using Hflags Hlag Hmin.
  intros Hr. assert (∀ x, inv x → rtc (step param lag) x y → inv y) as Hgen.
  { clear Hr. intros x Hx Hr. induction Hr; eauto using inv_step. }
  eapply Hgen; [apply inv_start|done].
Qed.
End timed.

(** C40: take a client whose retry limit is computed from flags that the flag
    parser accepts, a second of checks or more, and let messages be late or
    lost while the monitor is on time and its word reaches the client within
    three seconds.  The limit is computed without overflow; a transaction is
    sent at most that often and resolved at most once; as long as it waits, its
    next attempt is due; and it only runs out of attempts if a health check
    since its beginning saw the store: a lost store ends it by the fall-break
    before. *)
Theorem retries_outlast_checks {PB : Protobuf} {PC : Codec PutRequest} {MC : Codec MetaStoreRequest}
    (param : Monitor.Param) (lag : Z) (prefix : string) (y : Sys) (q : string) (T0 : Z) :
  let F := Monitor.maxTolerateFailedTimes param in
  let period := Monitor.checkIntervalMs param + Monitor.timeoutMs param in
  Monitor.flags_ok param = true → 0 ≤ lag ≤ 3000 → 1000 ≤ (F + 1) * period →
  rtc (step param lag) (start param prefix) y → begun y !! q = Some T0 →
  Monitor.operationRetryTimes param = (F + 1) * period / 1000 ∧
  count (Sent q) (log y) ≤ Monitor.operationRetryTimes param ∧
  count (Ended q) (log y) + count (Failed q) (log y) ≤ 1 ∧
  (q ∈ Retry.requestMatch_ (KvClient.txnHelper_ (client y)) → ∃ e, e ∈ retries y ∧ ev_key e = q) ∧
  (∀ t, (t, Failed q) ∈ log y → ∃ t', (t', SeenThere) ∈ log y ∧ T0 ≤ t' ≤ t).
Proof.
  intros F period Hflags Hlag Hmin Hr Hq.
  destruct (inv_reachable param lag Hflags Hlag Hmin prefix y Hr) as [Hall _ _ _ _ _ _ _ _ _ Hfl].
  specialize (Hall q). rewrite Hq in Hall. destruct Hall as (Hres & Hsent & He).
  split_and!; [by apply limit_exact|done| | |].
  - unfold resolved in Hres. destruct (decide _); lia.
  - intros Hin. destruct (events_of q (retries y)) as [|e [|]] eqn:E; [done| |done].
    exists e. assert (e ∈ events_of q (retries y)) as Hev by (rewrite E; left).
    unfold events_of in Hev. by apply list_elem_of_filter in Hev as [? ?].
  - intros t Hin. destruct (Hfl _ _ Hin) as (T1 & t' & Hq' & Ht'). assert (T1 = T0) as -> by congruence.
    by exists t'.
Qed.

(** ** A run: a transaction is sent, and fails since its answer is lost *)
#[local] Instance demo_put_codec : Codec PutRequest := {| ser _ := ""; parse _ := None |}.
#[local] Instance demo_request_codec : Codec MetaStoreRequest :=
  {| ser r := mq_requestid r; parse _ := None |}.
Definition demo_param : Monitor.Param := Monitor.mkParam 1 400 200 "etcd".
Definition demo_backoff (a : Z) : Z := backoff_lower 5 1000 a.
Definition demo_committed : Sys :=
  run (KvClient.CommitTxn (PB := demo_pb) "q" (mkTxn [] [] []) true) (begin_at "q" (start demo_param "")).
Definition demo_event : Event := mkEvent "q" "Txn" "q" 1 0 false.
Definition demo_sent : Sys :=
  run (KvClient.RetrytxnHelper_ demo_backoff "q" "Txn" "q" 1) (set_retries [] demo_committed).

(** One health check of a store that is there. *)
Definition to_check (y : Sys) : Sys := set_now (next_check demo_param (check y)) y.
Definition begin_check (y : Sys) : Sys :=
  set_monitor (exec (Monitor.CheckMetaStoreStatus demo_param) (monitor y))
    (match check y with Due _ => Checking (now y) | c => c end) y.
Definition end_check (r : Monitor.Response) (y : Sys) : Sys :=
  let m := Monitor.OnCheckMetaStoreStatus demo_param (now y) r in
  add_log (if there r then [(now y, SeenThere)] else [])
    (set_notices (told 1000 (now y) (outs m (monitor y)) ++ notices y)
      (set_monitor (exec m (monitor y)) (Due (now y + Monitor.checkIntervalMs demo_param)) y)).
Definition demo_check (y : Sys) : Sys := end_check (inr StatusOK) (begin_check (to_check y)).
Definition may_check (y : Sys) : bool :=
  match check y, notices y with Due t, [] => now y <=? t | _, _ => false end.

(** The store is there, but the answer is lost: the attempt that follows after
    seven seconds is over the limit. *)
Definition demo_event' : Event := mkEvent "q" "Txn" "q" 2 7000 true.
Definition demo_waited : Sys := Nat.iter 18 demo_check demo_sent.
Definition demo_failed : Sys :=
  run (KvClient.RetrytxnHelper_ demo_backoff "q" "Txn" "q" 2) (set_retries [] demo_waited).

Lemma demo_check_steps y :
  may_check y = true → rtc (step (PB := demo_pb) demo_param 1000) y (demo_check y).
Proof.
  unfold may_check. intros H. destruct (check y) as [t|] eqn:Hc; [|done].
  destruct (notices y) eqn:Hn; [|done]. apply Z.leb_le in H.
  apply (rtc_l _ _ (to_check y)).
  { unfold to_check. rewrite Hc. apply step_tick; [exact H|rewrite Hc; reflexivity|rewrite Hn; constructor]. }
  apply (rtc_l _ _ (begin_check (to_check y))); [exact (step_check demo_param 1000 (to_check y))|].
  apply rtc_once.
  assert (check (begin_check (to_check y)) = Checking (now (to_check y))) as Hb.
  { unfold begin_check. cbn [check set_monitor]. change (check (to_check y)) with (check y). by rewrite Hc. }
  exact (step_result demo_param 1000 _ _ (inr StatusOK) Hb).
Qed.

Lemma demo_checks_steps n y :
  forallb (λ i, may_check (Nat.iter i demo_check y)) (seq 0 n) = true →
  rtc (step (PB := demo_pb) demo_param 1000) y (Nat.iter n demo_check y).
Proof.
  induction n as [|n IH]; [done|]. rewrite seq_S, forallb_app. intros [H1 H2]%andb_prop.
  transitivity (Nat.iter n demo_check y); [by apply IH|].
  apply demo_check_steps. cbn in H2. by rewrite andb_true_r in H2.
Qed.

Lemma demo_failed_steps : rtc (step (PB := demo_pb) demo_param 1000) (start demo_param "") demo_failed.
Proof.
  apply (rtc_l _ _ demo_committed); [by apply step_commit|].
  apply (rtc_l _ _ demo_sent).
  { apply (step_retry _ _ demo_committed [] demo_event []); [reflexivity|reflexivity|].
    intros a. unfold demo_backoff. lia. }
  apply (rtc_r _ demo_waited); [apply demo_checks_steps; vm_compute; reflexivity|].
  apply (step_retry _ _ demo_waited [] demo_event' []); [reflexivity|by vm_compute|].
  intros a. unfold demo_backoff. lia.
Qed.

Lemma demo_failed_log : log demo_failed !! 0%nat = Some (7200, Failed "q").
Proof. vm_compute. reflexivity. Qed.
Lemma demo_failed_begun : begun demo_failed !! "q" = Some 0.
Proof. vm_compute. reflexivity. Qed.

Lemma retries_outlast_checks_witness :
  let l := log demo_failed in
  (7200, Failed "q") ∈ l ∧ count (Sent "q") l ≤ Monitor.operationRetryTimes demo_param ∧
  count (Ended "q") l + count (Failed "q") l ≤ 1 ∧
  ∃ t', (t', SeenThere) ∈ l ∧ 0 ≤ t' ≤ 7200.
Proof.
  pose proof (list_elem_of_lookup_2 _ _ _ demo_failed_log) as Hin.
  destruct (retries_outlast_checks (PB := demo_pb) demo_param 1000 "" demo_failed "q" 0)
    as (_ & Hs & Hr & _ & Hf).
  - reflexivity.
  - lia.
  - vm_compute. discriminate.
  - exact demo_failed_steps.
  - exact demo_failed_begun.
  - exact (conj Hin (conj Hs (conj Hr (Hf 7200 Hin)))).
Defined.

(** With the least values the flags admit, the limit is zero: a transaction
    fails without having been sent. *)
Definition least_param : Monitor.Param := Monitor.mkParam 1 100 100 "etcd".
Definition least_run : Sys :=
  run (KvClient.RetrytxnHelper_ demo_backoff "q" "Txn" "q" 1)
    (set_retries []
      (run (KvClient.CommitTxn (PB := demo_pb) "q" (mkTxn [] [] []) true) (begin_at "q" (start least_param "")))).

Lemma least_flags_send_nothing :
  Monitor.flags_ok least_param = true ∧ Monitor.operationRetryTimes least_param = 0 ∧
  log least_run = [(0, Failed "q")].
Proof. vm_compute. auto. Qed.
