(* ===== verification/Family.v ===== *)
(** * Families of instances

    The master remembers which instance was created by which
    ([function_master/instance_manager/instance_family_caches.cpp]) and ends
    the descendants of an instance that is gone
    ([instance_manager_actor.cpp], [MasterBusiness] and [SlaveBusiness]). *)

From S2P Require Import Prelude InstanceTypes.
From Stdlib Require Import ZArith Lia.
From stdpp Require Import base gmap strings fin_maps list.

Open Scope Z_scope.

Module Family.
Import InstanceState.

(** An instance, with the flag [detached] of its record. *)
Record Inst := mkInst { fi_info : InstanceInfo; detached : bool }.
Definition fi_id (x : Inst) : string := instanceid (ii_id (fi_info x)).
Definition fi_parent (x : Inst) : string := parentid (ii_id (fi_info x)).

(** [info] is a pointer. *)
Record InstanceFamilyEntry := mkEntry {
  childrenInstanceID : gset string; info : option Inst }.

Abbreviation Fam := (gmap string InstanceFamilyEntry).

(** ** [InstanceFamilyCaches] *)

Definition root_info : Inst := mkInst info_empty false.
Definition InstanceFamilyCaches : Fam := {["" := mkEntry ∅ (Some root_info)]}.

Definition with_child (c : string) (e : InstanceFamilyEntry) : InstanceFamilyEntry :=
  mkEntry ({[c]} ∪ childrenInstanceID e) (info e).
Definition without_child (c : string) (e : InstanceFamilyEntry) : InstanceFamilyEntry :=
  mkEntry (childrenInstanceID e ∖ {[c]}) (info e).
Definition with_info (x : Inst) (e : InstanceFamilyEntry) : InstanceFamilyEntry :=
  mkEntry (childrenInstanceID e) (Some x).

Definition parent_key (x : Inst) : string := if detached x then "" else fi_parent x.

Definition AddInstance (x : Inst) (F : Fam) : Fam :=
  match (if bool_decide (is_Some (F !! parent_key x)) then Some (parent_key x)
         else if bool_decide (is_Some (F !! "")) then Some "" else None) with
  | None => F
  | Some p =>
      let F := alter (with_child (fi_id x)) p F in
      match F !! fi_id x with
      | Some _ => alter (with_info x) (fi_id x) F
      | None => <[fi_id x := mkEntry ∅ (Some x)]> F
      end
  end.

(** [None] where the code reads through a null pointer or an entry it has
    erased: that of the root, or of an instance that is its own parent. *)
Definition RemoveInstance (id : string) (F : Fam) : option Fam :=
  match F !! id with
  | None => Some F
  | Some e =>
      if bool_decide (F !! "" = None) then Some (delete id F)
      else
        x ← info e;
        let p := parent_key x in
        match F !! p with
        | None => Some (alter (without_child id) "" (delete id F))
        | Some _ =>
            if bool_decide (id = "") || bool_decide (p = id) then None else
            let kept := filter (λ c, is_Some (F !! c)) (childrenInstanceID e) in
            let F := alter (λ r, mkEntry (kept ∪ childrenInstanceID r) (info r)) "" F in
            Some (alter (without_child id) "" (alter (without_child id) p (delete id F)))
        end
  end.

Definition IsInstanceExists (id : string) (F : Fam) : bool := bool_decide (is_Some (F !! id)).

Definition GetInstance (id : string) (F : Fam) : option Inst :=
  if bool_decide (id = "") then None else e ← F !! id; info e.

(** The states that [SyncInstances] skips. *)
Definition not_healthy (status : Z) : bool := in_states [EXITING; EXITED; FATAL] status.

Definition SyncInstances (infos : list (string * Inst)) (F : Fam) : Fam :=
  foldl (λ F p,
    let x := p.2 in
    if not_healthy (code (fi_info x)) then F
    else match F !! fi_id x with
         | Some _ => F
         | None => <[fi_id x := mkEntry ∅ (Some x)]> F
         end) F infos.

(** ** [GetAllDescendantsOf]

    The list grows while it is walked.  [NullPointer]: a null pointer is read
    through; [Running]: the fuel did not suffice. *)
Inductive Walk := Listed (l : list (option Inst)) (F : Fam) | NullPointer | Running.

Section walk.
(** The order in which the set is walked. *)
Context (order : gset string → list string) (noDetachedInstance : bool).

(** The children that are appended, for the ids of the set in their order. *)
Fixpoint collect (F : Fam) (ids : list string) : option (list (option Inst)) :=
  match ids with
  | [] => Some []
  | c :: ids =>
      match F !! c with
      | None => collect F ids
      | Some e =>
          x ← info e;
          l ← collect F ids;
          Some (if negb (detached x) || negb noDetachedInstance then Some x :: l else l)
      end
  end.

(** [family_\[id\]] makes an entry when there is none. *)
Definition touch (id : string) (F : Fam) : Fam :=
  match F !! id with Some _ => F | None => <[id := mkEntry ∅ None]> F end.
Definition children_of (F : Fam) (id : string) : gset string :=
  from_option childrenInstanceID ∅ (F !! id).

Fixpoint walk (fuel : nat) (seen todo : list (option Inst)) (F : Fam) : Walk :=
  match todo with
  | [] => Listed seen F
  | i :: todo =>
      match fuel with
      | O => Running
      | S fuel =>
          match i with
          | None => walk fuel (seen ++ [i]) todo F
          | Some x =>
              let F := touch (fi_id x) F in
              match collect F (order (children_of F (fi_id x))) with
              | None => NullPointer
              | Some l => walk fuel (seen ++ [i]) (todo ++ l) F
              end
          end
      end
  end.

Definition GetAllDescendantsOf (fuel : nat) (id : string) (F : Fam) : Walk :=
  match F !! id with
  | None => Listed [] F
  | Some e =>
      match walk fuel [] [info e] F with
      | Listed l F => Listed (tail l) F
      | w => w
      end
  end.
End walk.

(** ** The instance manager *)
Record State := mkState { family : Fam; exitingInstances : gset string }.

Inductive Out :=
  | KillInstanceWithRetry (x : Inst) (signal : Z) (msg : string)
  | TryCancelSchedule (id reason : string).

Abbreviation M := (Act State Out).

Definition SHUT_DOWN_SIGNAL : Z := 1.
Definition FAMILY_EXIT_SIGNAL : Z := 6.
Definition EXIT_TYPE_RETURN : Z := 1.
Definition EXIT_TYPE_KILLED_INFO : Z := 6.
Definition FAAS_FRONTEND_FUNCTION_NAME_PREFIX : string := "0/0-system-faasfrontend/".
Definition FRONTEND_STR : string := "frontend".

Definition IsFrontendFunction (function : string) : bool :=
  String.prefix FAAS_FRONTEND_FUNCTION_NAME_PREFIX function.
Definition IsCreateByFrontend (x : Inst) : bool :=
  bool_decide (extensions (fi_info x) !! CREATE_SOURCE = Some FRONTEND_STR).
Definition IsNonRecoverableStatus (code : Z) : bool := in_states [FATAL; SCHEDULE_FAILED; EVICTED] code.

Definition set_family (F : Fam) (s : State) : State := mkState F (exitingInstances s).
Definition set_exiting (X : gset string) (s : State) : State := mkState (family s) X.

Definition KillInstance (x : Inst) (signal : Z) (msg : string) : M unit :=
  modify (λ s, set_exiting ({[fi_id x]} ∪ exitingInstances s) s) ≫= λ _,
  post (KillInstanceWithRetry x signal msg).
Definition KillAllInstances (l : list Inst) (signal : Z) (msg : string) : M unit :=
  for_each l (λ x, KillInstance x signal msg).

Definition IsInstanceShouldBeKilled (x : Inst) (s : State) : bool :=
  let i := fi_info x in
  if failover i then false
  else if lowreliability i && IsNonRecoverableStatus (code i) then true
  else if detached x then false
  else
    let isParentExists := IsInstanceExists (fi_parent x) (family s) || IsCreateByFrontend x
                          || IsStaticFunctionInstance i in
    let isParentExiting := bool_decide (fi_parent x ∈ exitingInstances s) in
    let isSelfExiting := bool_decide (code i = EXITING) || bool_decide (code i = EXITED) in
    negb isParentExists || (isParentExiting && negb isSelfExiting).

Definition IsAppDriverFinished (x : Inst) : bool :=
  let st := instancestatus (fi_info x) in
  IsAppDriver (createoptions (fi_info x)) && bool_decide (is_code st = FATAL)
  && (bool_decide (is_type st = EXIT_TYPE_RETURN) || bool_decide (is_type st = EXIT_TYPE_KILLED_INFO)).

Section manager.
Context (order : gset string → list string) (fuel : nat).

(** The instances a walk lists; [None]: it does not come to an end, or a null
    pointer is in the list, which is read through when it is killed. *)
Definition descendants (id : string) : M (option (list Inst)) := λ s,
  match GetAllDescendantsOf order true fuel id (family s) with
  | Listed l F => (mapM (λ i, i) l, set_family F s, [])
  | _ => (None, s, [])
  end.

Definition add_instance (x : Inst) : M unit := modify (λ s, set_family (AddInstance x (family s)) s).
(** The flag says that the handler has come to its end. *)
Definition remove_instance (id : string) : M bool :=
  s ← members;
  match RemoveInstance id (family s) with
  | Some F => modify (set_family F) ≫= λ _, mret true
  | None => mret false
  end.

(** [MasterBusiness] *)
Definition OnInstancePutForFamilyManagement (x : Inst) : M bool :=
  if IsFrontendFunction (function (ii_id (fi_info x))) then add_instance x ≫= λ _, mret true
  else
    ok ← (if bool_decide (code (fi_info x) = FATAL) then
            d ← descendants (fi_id x);
            match d with
            | None => mret false
            | Some l =>
                (if IsAppDriverFinished x
                 then KillAllInstances l SHUT_DOWN_SIGNAL ("app(" +:+ fi_id x +:+ ") finishes")
                 else KillAllInstances l FAMILY_EXIT_SIGNAL
                        ("ancestor instance(" +:+ fi_id x +:+ ") is abnormal")) ≫= λ _,
                mret true
            end
          else mret true);
    if negb ok then mret false
    else
      s ← members;
      act_when (IsInstanceShouldBeKilled x s) (KillAllInstances [x] SHUT_DOWN_SIGNAL "") ≫= λ _,
      add_instance x ≫= λ _, mret true.

Definition OnInstanceDeleteForFamilyManagement (x : Inst) : M bool :=
  modify (λ s, set_exiting (exitingInstances s ∖ {[fi_id x]}) s) ≫= λ _,
  if IsFrontendFunction (function (ii_id (fi_info x))) then remove_instance (fi_id x)
  else
    d ← descendants (fi_id x);
    match d with
    | None => mret false
    | Some l =>
        ok ← remove_instance (fi_id x);
        if negb ok then mret false
        else
          KillAllInstances l SHUT_DOWN_SIGNAL ("ancestor instance(" +:+ fi_id x +:+ ") exited") ≫= λ _,
          post (TryCancelSchedule (fi_id x) ("parent(" +:+ fi_id x +:+ ") exited")) ≫= λ _,
          mret true
    end.
End manager.

(** [SlaveBusiness] *)
Definition Slave_OnInstancePutForFamilyManagement (x : Inst) : M bool :=
  add_instance x ≫= λ _, mret true.
Definition Slave_OnInstanceDeleteForFamilyManagement (x : Inst) : M bool :=
  ok ← remove_instance (fi_id x);
  if negb ok then mret false
  else modify (λ s, set_exiting (exitingInstances s ∖ {[fi_id x]}) s) ≫= λ _, mret true.

(** A synchronisation with the store: all instances are made known, then each
    is put. *)
Section sync.
Context (put : Inst → M bool).
Fixpoint put_all (l : list (string * Inst)) : M bool :=
  match l with
  | [] => mret true
  | p :: l => ok ← put p.2; if negb ok then mret false else put_all l
  end.
Definition OnSync (allInstances : list (string * Inst)) : M bool :=
  modify (λ s, set_family (SyncInstances allInstances (family s)) s) ≫= λ _, put_all allInstances.
End sync.
End Family.
