(* ===== verification/FamilyProps.v ===== *)
(** * Families: the walk over descendants and the end of a family

    An instance has one parent for life, and a parent precedes its children
    ([rank]).  Then the walk of [GetAllDescendantsOf] comes to an end and lists
    the descendants in breadth-first order, each once; and a master that has
    heard of all instances ends the descendants of a deleted one. *)

From S2P Require Import Prelude InstanceTypes Family.
From Stdlib Require Import ZArith Lia.
From stdpp Require Import base gmap strings fin_maps relations sorting list.

Import Family.

(** ** Entries and their children *)
Lemma elem_of_children_alter f F p q c :
  c ∈ children_of (alter f p F) q ↔
  (if decide (p = q) then ∃ e, F !! q = Some e ∧ c ∈ childrenInstanceID (f e) else c ∈ children_of F q).
Proof.
  unfold children_of. destruct (decide (p = q)) as [->|Hne].
  - rewrite lookup_alter_eq. destruct (F !! q); cbn; [|set_solver]. naive_solver.
  - by rewrite lookup_alter_ne.
Qed.
Lemma children_of_Some F p c : c ∈ children_of F p → is_Some (F !! p).
Proof. unfold children_of. destruct (F !! p); [done|set_solver]. Qed.
(** Only the sets of children change. *)
Definition same_infos (F F' : Fam) : Prop := ∀ k, info <$> F !! k = info <$> F' !! k.
Lemma same_infos_alter f p F : (∀ e, info (f e) = info e) → same_infos F (alter f p F).
Proof.
  intros Hf k. destruct (decide (p = k)) as [->|Hk].
  - rewrite lookup_alter_eq. destruct (F !! k); cbn; [by rewrite Hf|done].
  - by rewrite lookup_alter_ne.
Qed.
Lemma same_infos_trans F G H : same_infos F G → same_infos G H → same_infos F H.
Proof. intros H1 H2 k. by rewrite (H1 k). Qed.
Lemma elem_of_without_child c p F q d :
  d ∈ children_of (alter (without_child c) p F) q ↔ d ∈ children_of F q ∧ (p = q → d ≠ c).
Proof.
  rewrite elem_of_children_alter. destruct (decide _) as [->|]; [|naive_solver].
  unfold children_of. destruct (F !! q); set_solver.
Qed.
Lemma elem_of_with_children K p F q d :
  d ∈ children_of (alter (λ r, mkEntry (K ∪ childrenInstanceID r) (info r)) p F) q ↔
  d ∈ children_of F q ∨ (p = q ∧ is_Some (F !! q) ∧ d ∈ K).
Proof.
  rewrite elem_of_children_alter. destruct (decide _) as [->|]; [|naive_solver].
  unfold children_of. destruct (F !! q); cbn; [|set_solver]. split; [|naive_solver set_solver].
  intros (e & [= <-] & H). set_solver.
Qed.
Lemma elem_of_children_delete c F q d :
  d ∈ children_of (delete c F) q ↔ d ∈ children_of F q ∧ q ≠ c.
Proof.
  unfold children_of. destruct (decide (q = c)) as [->|].
  - rewrite lookup_delete_eq. set_solver.
  - rewrite lookup_delete_ne by done. naive_solver.
Qed.
Lemma infos_deleted c F F' k :
  same_infos (delete c F) F' → info <$> F' !! k = if decide (k = c) then None else info <$> F !! k.
Proof.
  intros Hs. rewrite <-(Hs k). destruct (decide _) as [->|]; [by rewrite lookup_delete_eq|].
  by rewrite lookup_delete_ne.
Qed.
Lemma info_Some (F F' : Fam) k : info <$> F !! k = info <$> F' !! k → is_Some (F !! k) ↔ is_Some (F' !! k).
Proof. intros H. rewrite <-!(fmap_is_Some info), H. done. Qed.
(** [AddInstance]: the entry of the instance, then the link to it. *)
Definition set_info (x : Inst) (F : Fam) : Fam :=
  match F !! fi_id x with
  | Some _ => alter (with_info x) (fi_id x) F
  | None => <[fi_id x := mkEntry ∅ (Some x)]> F
  end.
Lemma set_info_lookup x F k :
  set_info x F !! k = if decide (k = fi_id x) then Some (mkEntry (children_of F k) (Some x)) else F !! k.
Proof.
  unfold set_info, children_of. destruct (decide (k = fi_id x)) as [->|Hk].
  - destruct (F !! fi_id x) eqn:E; [by rewrite lookup_alter_eq, E|by rewrite lookup_insert_eq].
  - destruct (F !! fi_id x); [by rewrite lookup_alter_ne|by rewrite lookup_insert_ne].
Qed.
Lemma set_info_children x F p : children_of (set_info x F) p = children_of F p.
Proof.
  unfold children_of at 1. rewrite set_info_lookup. destruct (decide _) as [->|]; done.
Qed.
(** [SyncInstances] *)
Definition sync_one (x : Inst) (F : Fam) : Fam :=
  if not_healthy (code (fi_info x)) then F
  else match F !! fi_id x with Some _ => F | None => <[fi_id x := mkEntry ∅ (Some x)]> F end.
Lemma SyncInstances_cons k x l F : SyncInstances ((k, x) :: l) F = SyncInstances l (sync_one x F).
Proof. done. Qed.
Lemma sync_one_is x F : sync_one x F = F ∨ (F !! fi_id x = None ∧ sync_one x F = set_info x F).
Proof.
  unfold sync_one, set_info. destruct (not_healthy _); [by left|].
  destruct (F !! fi_id x); [by left|by right].
Qed.
(** The instance an entry holds. *)
Definition cached (F : Fam) (c : string) (x : Inst) : Prop :=
  ∃ e, F !! c = Some e ∧ info e = Some x.
Lemma cached_fun F c x y : cached F c x → cached F c y → x = y.
Proof. intros (e & ? & ?) (e' & ? & ?). by simplify_eq. Qed.

Section family.
Context (order : gset string → list string) (Horder : ∀ X, order X ≡ₚ elements X).
Context (parent_of : string → string) (det : string → bool) (rank : string → nat).

(** The key of the entry an instance is hung below. *)
Definition above (c : string) : string := if det c then "" else parent_of c.

Context (Hrank : ∀ c, c ≠ "" → rank (above c) < rank c).

Definition proper (x : Inst) : Prop :=
  fi_id x ≠ "" ∧ fi_parent x = parent_of (fi_id x) ∧ detached x = det (fi_id x).

Lemma proper_key x : proper x → parent_key x = above (fi_id x).
Proof. intros (_ & Hp & Hd). unfold parent_key, above. by rewrite Hp, Hd. Qed.

(** ** Well-formed families *)
Record fam_ok (F : Fam) : Prop := {
  fo_root : ∃ X, F !! "" = Some (mkEntry X (Some root_info));
  fo_keyed k e : F !! k = Some e → k ≠ "" → ∃ x, info e = Some x ∧ fi_id x = k ∧ proper x;
  fo_edge p c : c ∈ children_of F p → c ≠ "" ∧ is_Some (F !! c) ∧ (p = "" ∨ p = above c) }.

Lemma cached_ok F c x : fam_ok F → cached F c x → c ≠ "" → fi_id x = c ∧ proper x.
Proof.
  intros HF (e & He & Hx) Hc. destruct (fo_keyed F HF c e He Hc) as (x' & Hx' & Hid & Hp).
  by simplify_eq.
Qed.
Lemma cached_id F c x : fam_ok F → cached F c x → fi_id x = c.
Proof.
  intros HF Hx. destruct (decide (c = "")) as [->|Hc]; [|by apply (cached_ok F)].
  destruct (fo_root F HF) as [X HX], Hx as (e & He & Hx). simplify_eq. cbn in Hx. by simplify_eq.
Qed.
Lemma fam_cached F c : fam_ok F → is_Some (F !! c) → ∃ x, cached F c x.
Proof.
  intros HF [e He]. destruct (decide (c = "")) as [->|Hc].
  - destruct (fo_root F HF) as [X HX]. simplify_eq. by exists root_info, (mkEntry X (Some root_info)).
  - destruct (fo_keyed F HF c e He Hc) as (x & Hx & _). by exists x, e.
Qed.

(** ** The walk *)
Section walk.
Context (F : Fam) (HF : fam_ok F).

Definition kid_list (p : string) : list Inst :=
  filter (λ x, detached x = false) (omap (λ c, F !! c ≫= info) (order (children_of F p))).
Definition next (l : list Inst) : list Inst := l ≫= λ x, kid_list (fi_id x).
Fixpoint spread (n : nat) (l : list Inst) : list Inst :=
  match n with O => [] | S n => next l ++ spread n (next l) end.

Definition known (x : Inst) : Prop := cached F (fi_id x) x.

Lemma elem_of_kids p x :
  x ∈ kid_list p ↔ fi_id x ∈ children_of F p ∧ known x ∧ detached x = false.
Proof using HF Horder.
  unfold kid_list. rewrite list_elem_of_filter, list_elem_of_omap. split.
  - intros (Hd & c & Hc & Hx). rewrite Horder, elem_of_elements in Hc.
    apply bind_Some in Hx as Hx'. assert (fi_id x = c) as Hid by by apply (cached_id F).
    unfold known. by rewrite Hid.
  - intros (Hc & Hx & Hd). split; [done|]. exists (fi_id x). rewrite Horder, elem_of_elements.
    split; [done|]. by apply bind_Some.
Qed.

Lemma collect_kids ids :
  (∀ c, c ∈ ids → is_Some (F !! c)) →
  collect true F ids =
    Some (Some <$> filter (λ x, detached x = false) (omap (λ c, F !! c ≫= info) ids)).
Proof using HF.
  induction ids as [|c ids IH]; [done|]. intros Hin. cbn.
  destruct (fam_cached F c HF) as (x & e & He & Hx); [apply Hin; left|].
  rewrite He. cbn. rewrite Hx. cbn. rewrite IH by (intros; apply Hin; by right). cbn.
  rewrite orb_false_r. by destruct (detached x).
Qed.

Lemma walk_one fuel seen x todo :
  known x →
  walk order true (S fuel) seen (Some x :: todo) F =
  walk order true fuel (seen ++ [Some x]) (todo ++ (Some <$> kid_list (fi_id x))) F.
Proof using HF Horder.
  intros (e & He & Hx). cbn. unfold touch. rewrite He. rewrite collect_kids; [done|].
  intros c Hc. rewrite Horder, elem_of_elements in Hc. by apply (fo_edge F HF) in Hc as (_ & ? & _).
Qed.

Lemma walk_level l m fuel seen :
  Forall known l →
  walk order true (length l + fuel) seen ((Some <$> l) ++ (Some <$> m)) F =
  walk order true fuel (seen ++ (Some <$> l)) (Some <$> m ++ next l) F.
Proof using HF Horder.
  intros Hl. revert m seen. induction Hl as [|x l Hx Hl IH]; intros m seen.
  - cbn. by rewrite !app_nil_r.
  - cbn [length fmap list_fmap app Nat.add]. rewrite walk_one by done.
    rewrite <-(app_assoc (Some <$> l)), <-fmap_app, IH. f_equal.
    + by rewrite <-app_assoc.
    + cbn. by rewrite <-app_assoc.
Qed.

Lemma known_next l : Forall known (next l).
Proof using HF Horder.
  apply Forall_forall. intros x (y & Hx & _)%list_elem_of_bind. by apply elem_of_kids in Hx as (_ & ? & _).
Qed.

(** An attached child in the family. *)
Definition child_of (p c : string) : Prop :=
  c ≠ "" ∧ det c = false ∧ parent_of c = p ∧ is_Some (F !! c).

Lemma child_rank p c : child_of p c → rank p < rank c.
Proof using Hrank.
  intros (Hc & Hd & <- & _). specialize (Hrank c Hc). unfold above in Hrank. by rewrite Hd in Hrank.
Qed.

Lemma kids_children p x : p ≠ "" → x ∈ kid_list p → child_of p (fi_id x).
Proof using HF Horder.
  intros Hp (Hc & Hx & Hd)%elem_of_kids. apply (fo_edge F HF) in Hc as (Hne & Hs & [?|Ha]); [done|].
  destruct (cached_ok F _ _ HF Hx Hne) as (_ & _ & _ & Hdet). unfold above in Ha.
  split_and!; [done|congruence| |done]. by rewrite <-Hdet, Hd in Ha.
Qed.

Lemma next_children l y :
  (∀ x, x ∈ l → fi_id x ≠ "") → y ∈ next l → ∃ x, x ∈ l ∧ child_of (fi_id x) (fi_id y).
Proof using HF Horder.
  intros Hl (x & Hy & Hx)%list_elem_of_bind. exists x. split; [done|]. apply kids_children; auto.
Qed.
Lemma next_nonroot l y : y ∈ next l → fi_id y ≠ "".
Proof using HF Horder.
  intros (x & Hy & Hx)%list_elem_of_bind. apply elem_of_kids in Hy as (Hc & _).
  by apply (fo_edge F HF) in Hc as (? & _).
Qed.

(** No instance of the family is deeper than [depth]. *)
Definition depth : nat := max_list (rank <$> elements (dom F)).
Lemma rank_depth c : is_Some (F !! c) → rank c ≤ depth.
Proof using.
  intros Hc. apply max_list_elem_of_le, list_elem_of_fmap. exists c. split; [done|].
  by apply elem_of_elements, elem_of_dom.
Qed.

Lemma walk_spread n l seen fuel :
  Forall known l → (∀ x, x ∈ l → fi_id x ≠ "") → (∀ x, x ∈ l → depth < rank (fi_id x) + n) →
  length (l ++ spread n l) ≤ fuel →
  walk order true fuel seen (Some <$> l) F = Listed (seen ++ (Some <$> l ++ spread n l)) F.
Proof using HF Horder Hrank.
  revert l seen fuel. induction n as [|n IH]; intros l seen fuel Hl Hne Hd Hf.
  - destruct l as [|x l]; [by destruct fuel; cbn; rewrite app_nil_r|].
    apply Forall_cons in Hl as [(e & He & _) _]. pose proof (Hd x ltac:(left)).
    pose proof (rank_depth (fi_id x) ltac:(by eexists)). lia.
  - rewrite length_app in Hf. replace fuel with (length l + (fuel - length l)) by lia.
    rewrite <-(app_nil_r (Some <$> l)). change (@nil (option Inst)) with (Some <$> @nil Inst).
    rewrite walk_level, app_nil_l by done. rewrite IH.
    + by rewrite <-app_assoc, <-fmap_app.
    + apply known_next.
    + apply next_nonroot.
    + intros y Hy. destruct (next_children l y Hne Hy) as (x & Hx & Hc).
      apply child_rank in Hc. specialize (Hd x Hx). lia.
    + cbn [spread] in Hf. lia.
Qed.

(** ** What the walk lists *)
Lemma nsteps_rank k p c : nsteps child_of k p c → rank p + k ≤ rank c.
Proof using Hrank. induction 1 as [|k p q c Hpq _ IH]; [lia|]. apply child_rank in Hpq. lia. Qed.

Lemma nsteps_unique j k p c : nsteps child_of j p c → nsteps child_of k p c → j = k.
Proof using Hrank.
  revert k c. induction j as [|j IH]; intros k c Hj Hk.
  - inversion Hj; subst. apply nsteps_rank in Hk. lia.
  - destruct k as [|k]; [inversion Hk; subst; apply nsteps_rank in Hj; lia|].
    apply nsteps_inv_r in Hj as (q & Hj & Hq), Hk as (q' & Hk & Hq').
    assert (q = q') as <- by by destruct Hq as (_ & _ & <- & _), Hq' as (_ & _ & <- & _).
    f_equal. by eapply IH.
Qed.

Lemma spread_steps n l y :
  (∀ x, x ∈ l → fi_id x ≠ "") → y ∈ spread n l →
  ∃ x k, x ∈ l ∧ nsteps child_of (S k) (fi_id x) (fi_id y).
Proof using HF Horder.
  revert l. induction n as [|n IH]; intros l Hne; cbn; [by intros ?%elem_of_nil|].
  intros [Hy|Hy]%elem_of_app.
  - destruct (next_children l y Hne Hy) as (x & Hx & Hc). exists x, 0. split; [done|]. by apply nsteps_once.
  - destruct (IH (next l) (next_nonroot l) Hy) as (z & k & Hz & Hs).
    destruct (next_children l z Hne Hz) as (x & Hx & Hc). exists x, (S k). split; [done|].
    by eapply nsteps_l.
Qed.

Lemma spread_known n l : Forall known (spread n l).
Proof using HF Horder.
  revert l. induction n as [|n IH]; intros l; cbn; [done|]. apply Forall_app. split; [apply known_next|done].
Qed.
Lemma spread_nonroot n l y : y ∈ spread n l → fi_id y ≠ "".
Proof using HF Horder.
  revert l. induction n as [|n IH]; intros l; cbn; [by intros ?%elem_of_nil|].
  intros [Hy|Hy]%elem_of_app; [by eapply next_nonroot|by eapply IH].
Qed.

(** The children of what is listed are listed. *)
Lemma spread_closed n l x y :
  (∀ x, x ∈ l → fi_id x ≠ "") → (∀ x, x ∈ l → depth < rank (fi_id x) + n) →
  x ∈ l ++ spread n l → y ∈ kid_list (fi_id x) → y ∈ spread n l.
Proof using HF Horder Hrank.
  revert l. induction n as [|n IH]; intros l Hne Hd Hx Hy; cbn in *.
  - rewrite app_nil_r in Hx. specialize (Hd x Hx).
    pose proof (child_rank _ _ (kids_children _ _ (Hne x Hx) Hy)) as Hr.
    apply elem_of_kids in Hy as (_ & (e & He & _) & _).
    pose proof (rank_depth (fi_id y) ltac:(by eexists)). lia.
  - rewrite !elem_of_app in *. destruct Hx as [Hx|Hx]; [left; apply list_elem_of_bind; eauto|right].
    apply IH; [apply next_nonroot| |by apply elem_of_app|done].
    intros z Hz. destruct (next_children l z Hne Hz) as (w & Hw & Hc%child_rank).
    specialize (Hd w Hw). lia.
Qed.

Lemma NoDup_omap_cached l : NoDup l → NoDup (fi_id <$> omap (λ c, F !! c ≫= info) l).
Proof using HF.
  induction 1 as [|c l Hc Hl IH]; [constructor|]. cbn.
  destruct (F !! c ≫= info) as [x|] eqn:Hx; [|done]. cbn. constructor; [|done].
  apply bind_Some in Hx. rewrite (cached_id F c x HF Hx).
  intros (y & Hy & (c' & Hc' & Hy')%list_elem_of_omap)%list_elem_of_fmap.
  apply bind_Some in Hy'. rewrite (cached_id F c' y HF Hy') in Hy. by subst.
Qed.
Lemma NoDup_kids p : NoDup (fi_id <$> kid_list p).
Proof using HF Horder.
  unfold kid_list. eapply sublist_NoDup; [|apply fmap_sublist, sublist_filter].
  apply NoDup_omap_cached. rewrite Horder. apply NoDup_elements.
Qed.

Lemma NoDup_next l :
  (∀ x, x ∈ l → fi_id x ≠ "") → NoDup (fi_id <$> l) → NoDup (fi_id <$> next l).
Proof using HF Horder.
  induction l as [|x l IH]; [done|]. intros Hne [Hx Hl]%NoDup_cons.
  change (next (x :: l)) with (kid_list (fi_id x) ++ next l).
  rewrite fmap_app. apply NoDup_app. split_and!; [apply NoDup_kids| |apply IH; [|done]].
  - intros c (y & -> & Hy)%list_elem_of_fmap (z & Hz & Hnz)%list_elem_of_fmap.
    apply kids_children in Hy as (_ & _ & Hp & _); [|apply Hne; left].
    destruct (next_children l z) as (w & Hw & _ & _ & Hp' & _); [intros; apply Hne; by right|done|].
    apply Hx, list_elem_of_fmap. exists w. rewrite <-Hz in Hp'. by rewrite <-Hp, Hp'.
  - intros y Hy. apply Hne. by right.
Qed.

(** The instances of one level are equally far from [X]; later levels are
    farther away. *)
Definition at_distance (X : string) (k : nat) (l : list Inst) : Prop :=
  ∀ x, x ∈ l → nsteps child_of k X (fi_id x).
Lemma next_distance X k l :
  (∀ x, x ∈ l → fi_id x ≠ "") → at_distance X k l → at_distance X (S k) (next l).
Proof using HF Horder.
  intros Hne Hl y Hy. destruct (next_children l y Hne Hy) as (x & Hx & Hc).
  eapply nsteps_r; [by apply Hl|done].
Qed.

Lemma spread_distance n X k l y :
  (∀ x, x ∈ l → fi_id x ≠ "") → at_distance X k l → y ∈ spread n l →
  ∃ j, k < j ∧ nsteps child_of j X (fi_id y).
Proof using HF Horder.
  intros Hne Hl Hy. destruct (spread_steps n l y Hne Hy) as (x & j & Hx & Hs).
  exists (k + S j). split; [lia|]. by eapply nsteps_trans; [apply Hl|].
Qed.

Lemma spread_NoDup n X k l :
  (∀ x, x ∈ l → fi_id x ≠ "") → NoDup (fi_id <$> l) → at_distance X k l →
  NoDup (fi_id <$> spread n l).
Proof using HF Horder Hrank.
  revert k l. induction n as [|n IH]; intros k l Hne Hnd Hl; cbn [spread]; [constructor|].
  pose proof (next_distance X k l Hne Hl) as Hn.
  rewrite fmap_app. apply NoDup_app. split_and!.
  - by apply NoDup_next.
  - intros c (y & -> & Hy)%list_elem_of_fmap (z & Hz & Hsz)%list_elem_of_fmap.
    destruct (spread_distance n X (S k) (next l) z (next_nonroot l) Hn Hsz) as (j & Hj & Hs).
    rewrite <-Hz in Hs. pose proof (nsteps_unique _ _ _ _ (Hn y Hy) Hs). lia.
  - by apply (IH (S k)); [apply next_nonroot|apply NoDup_next|].
Qed.

Definition nearer (X : string) (x y : Inst) : Prop :=
  ∃ j k, j ≤ k ∧ nsteps child_of j X (fi_id x) ∧ nsteps child_of k X (fi_id y).
Lemma spread_breadth_first n X k l :
  (∀ x, x ∈ l → fi_id x ≠ "") → at_distance X k l → StronglySorted (nearer X) (spread n l).
Proof using HF Horder.
  revert k l. induction n as [|n IH]; intros k l Hne Hl; cbn [spread]; [constructor|].
  pose proof (next_distance X k l Hne Hl) as Hn.
  apply StronglySorted_app_2; [| |by apply (IH (S k)), Hn; apply next_nonroot].
  - intros x y Hx Hy. destruct (spread_distance n X (S k) (next l) y (next_nonroot l) Hn Hy) as (j & Hj & Hs).
    exists (S k), j. split_and!; [lia|by apply Hn|done].
  - clear IH. induction (next l) as [|x m IHm]; constructor.
    + apply IHm. intros y Hy. apply Hn. by right.
    + apply Forall_forall. intros y Hy. exists (S k), (S k).
      split_and!; [lia|apply Hn; left|apply Hn; by right].
Qed.

(** The descendants of an instance. *)
Definition all_below (x : Inst) : list Inst := spread (S depth) [x].

Lemma GetAllDescendantsOf_spec fuel x :
  known x → fi_id x ≠ "" → length (x :: all_below x) ≤ fuel →
  GetAllDescendantsOf order true fuel (fi_id x) F = Listed (Some <$> all_below x) F.
Proof using HF Horder Hrank.
  intros Hx Hne Hf. pose proof Hx as (e & He & Hi). unfold GetAllDescendantsOf. rewrite He, Hi.
  change [Some x] with (Some <$> [x]). rewrite (walk_spread (S depth)); [done| | | |done].
  - by constructor.
  - by intros y ->%list_elem_of_singleton.
  - intros y ->%list_elem_of_singleton. lia.
Qed.
End walk.

(** ** The operations keep a family well-formed *)
Lemma init_ok : fam_ok InstanceFamilyCaches.
Proof using.
  clear Hrank Horder order rank. unfold InstanceFamilyCaches. split.
  - exists ∅. apply lookup_singleton_eq.
  - intros k e He Hk. by rewrite lookup_singleton_ne in He.
  - intros p c Hc. destruct (decide (p = "")) as [->|Hp].
    + unfold children_of in Hc. rewrite lookup_singleton_eq in Hc. set_solver.
    + unfold children_of in Hc. rewrite lookup_singleton_ne in Hc by done. set_solver.
Qed.

Lemma fam_ok_edges F F' :
  fam_ok F → same_infos F F' →
  (∀ p c, c ∈ children_of F' p → c ∈ children_of F p ∨ (c ≠ "" ∧ is_Some (F !! c) ∧ (p = "" ∨ p = above c))) →
  fam_ok F'.
Proof using.
  clear Hrank Horder order rank. intros HF Hs He. split.
  - destruct (fo_root F HF) as [X HX]. specialize (Hs ""). rewrite HX in Hs.
    destruct (F' !! "") as [[Y i]|]; cbn in Hs; simplify_eq. by exists Y.
  - intros k e Hk Hne. specialize (Hs k). rewrite Hk in Hs.
    destruct (F !! k) as [e'|] eqn:Hk'; cbn in Hs; simplify_eq.
    destruct (fo_keyed F HF k e' Hk' Hne) as (x & Hx & ?). exists x. split; [congruence|done].
  - intros p c Hc. assert (is_Some (F !! c) → is_Some (F' !! c)) as Hdom.
    { intros [e Hec]. specialize (Hs c). rewrite Hec in Hs. destruct (F' !! c); by cbn in Hs. }
    destruct (He p c Hc) as [Ho|(? & ? & ?)]; [|naive_solver].
    apply (fo_edge F HF) in Ho as (? & ? & ?). naive_solver.
Qed.

Definition place (c : string) (F : Fam) : string :=
  if bool_decide (is_Some (F !! above c)) then above c else "".

Lemma place_ne c F : c ≠ "" → place c F ≠ c.
Proof using Hrank.
  intros Hc Heq. unfold place in Heq. case_bool_decide; [|done].
  specialize (Hrank c Hc). rewrite Heq in Hrank. lia.
Qed.
Lemma place_Some c F : fam_ok F → is_Some (F !! place c F).
Proof.
  intros HF. unfold place. case_bool_decide; [done|]. destruct (fo_root F HF) as [X ->]. done.
Qed.

Lemma AddInstance_is x F :
  fam_ok F → proper x →
  AddInstance x F = alter (with_child (fi_id x)) (place (fi_id x) F) (set_info x F).
Proof using Hrank.
  intros HF Hx. pose proof (place_ne (fi_id x) F (proj1 Hx)) as Hne.
  unfold AddInstance. rewrite (proper_key x Hx).
  assert ((if bool_decide (is_Some (F !! above (fi_id x))) then Some (above (fi_id x))
           else if bool_decide (is_Some (F !! "")) then Some "" else None) = Some (place (fi_id x) F)) as ->.
  { unfold place. case_bool_decide; [done|]. destruct (fo_root F HF) as [X ->]. done. }
  unfold set_info. rewrite lookup_alter_ne by done. destruct (F !! fi_id x).
  - by rewrite alter_alter_ne.
  - by rewrite alter_insert_ne.
Qed.

Lemma set_info_ok x F : fam_ok F → proper x → fam_ok (set_info x F).
Proof.
  intros HF Hx. split.
  - rewrite set_info_lookup, decide_False by (intros ?; by destruct Hx). apply HF.
  - intros k e. rewrite set_info_lookup. destruct (decide _) as [->|]; [|apply HF].
    intros [= <-] _. by exists x.
  - intros p c. rewrite set_info_children. intros Hc. apply (fo_edge F HF) in Hc as (? & ? & ?).
    split_and!; [done| |done]. rewrite set_info_lookup. by destruct (decide _).
Qed.

Lemma AddInstance_children x F p c :
  fam_ok F → proper x →
  c ∈ children_of (AddInstance x F) p ↔
  c ∈ children_of F p ∨ (c = fi_id x ∧ p = place (fi_id x) F).
Proof using Hrank.
  clear Horder order. intros HF Hx. rewrite AddInstance_is, elem_of_children_alter by done.
  destruct (decide _) as [<-|Hne]; [|rewrite set_info_children; naive_solver].
  destruct (place_Some (fi_id x) F HF) as [e He]. unfold children_of.
  rewrite set_info_lookup, decide_False, He by (by apply place_ne, Hx). cbn. set_solver.
Qed.
Lemma AddInstance_lookup x F k :
  fam_ok F → proper x → info <$> AddInstance x F !! k = info <$> set_info x F !! k.
Proof using Hrank.
  intros HF Hx. rewrite AddInstance_is by done. symmetry. by apply same_infos_alter.
Qed.
Lemma AddInstance_ok x F : fam_ok F → proper x → fam_ok (AddInstance x F).
Proof using Hrank.
  intros HF Hx. apply (fam_ok_edges (set_info x F)); [by apply set_info_ok| |].
  - intros k. by rewrite AddInstance_lookup.
  - intros p c. rewrite AddInstance_children, set_info_children by done.
    intros [?|[-> ->]]; [by left|right]. split_and!; [apply Hx| |].
    + by rewrite set_info_lookup, decide_True.
    + unfold place. case_bool_decide; [by right|by left].
Qed.

Lemma AddInstance_dom x F k :
  fam_ok F → proper x → is_Some (AddInstance x F !! k) ↔ k = fi_id x ∨ is_Some (F !! k).
Proof using Hrank.
  intros HF Hx. rewrite info_Some by by apply AddInstance_lookup. rewrite set_info_lookup.
  destruct (decide _); naive_solver.
Qed.
Lemma AddInstance_cached x F k y :
  fam_ok F → proper x → cached (AddInstance x F) k y ↔ (k = fi_id x ∧ y = x) ∨ (k ≠ fi_id x ∧ cached F k y).
Proof using Hrank.
  clear Horder order. intros HF Hx. assert (∀ G, cached G k y ↔ info <$> G !! k = Some (Some y)) as Hc.
  { intros G. unfold cached. rewrite fmap_Some. naive_solver. }
  rewrite !Hc, AddInstance_lookup, set_info_lookup by done. destruct (decide _); naive_solver.
Qed.

(** [RemoveInstance] *)
Lemma RemoveInstance_absent c F : F !! c = None → RemoveInstance c F = Some F.
Proof. intros H. unfold RemoveInstance. by rewrite H. Qed.

Lemma RemoveInstance_spec c F :
  fam_ok F → c ≠ "" → ∃ F', RemoveInstance c F = Some F' ∧
    (∀ k, info <$> F' !! k = if decide (k = c) then None else info <$> F !! k) ∧
    (∀ p d, p ≠ c → d ∈ children_of F p → d ≠ c → d ∈ children_of F' p) ∧
    (∀ p d, d ∈ children_of F' p → d ≠ c ∧ (d ∈ children_of F p ∨ (p = "" ∧ d ∈ children_of F c))).
Proof using Hrank.
  clear Horder order. intros HF Hc. unfold RemoveInstance. destruct (F !! c) as [e|] eqn:He.
  2: { exists F. split; [done|]. split_and!.
       - intros k. destruct (decide _) as [->|]; [by rewrite He|done].
       - done.
       - intros p d Hd. split; [|by left]. apply (fo_edge F HF) in Hd as (_ & Hs & _). intros ->.
         rewrite He in Hs. by destruct Hs. }
  destruct (fo_root F HF) as [X HX]. rewrite bool_decide_false by (rewrite HX; done).
  destruct (fo_keyed F HF c e He Hc) as (x & Hx & Hid & Hp). rewrite Hx. cbn.
  rewrite (proper_key x Hp), Hid. pose proof (Hrank c Hc) as Hr.
  assert (above c ≠ c) as Hne by (intros Heq; rewrite Heq in Hr; lia).
  destruct (F !! above c) as [ep|] eqn:Hep.
  - rewrite !bool_decide_false by done. cbn. eexists. split; [done|].
    setoid_rewrite elem_of_without_child. setoid_rewrite elem_of_without_child.
    setoid_rewrite elem_of_children_delete. setoid_rewrite elem_of_with_children. split_and!.
    + intros k. apply (infos_deleted c F). eapply same_infos_trans; [|by apply same_infos_alter].
      eapply same_infos_trans; [|by apply same_infos_alter]. intros j.
      destruct (decide (j = c)) as [->|]; [by rewrite !lookup_delete_eq|].
      rewrite !lookup_delete_ne by done. by apply same_infos_alter.
    + naive_solver.
    + intros p d [[[H Hpc] H1] H2]. assert (d ≠ c) as Hdc.
      { intros ->. destruct H as [H|(<- & _)]; [|by apply H2].
        apply (fo_edge F HF) in H as (_ & _ & [->| ->]); [by apply H2|by apply H1]. }
      split; [done|]. destruct H as [H|(<- & _ & H)]; [by left|right]. split; [done|].
      unfold children_of. rewrite He. cbn. by apply elem_of_filter in H as [_ H].
  - eexists. split; [done|]. setoid_rewrite elem_of_without_child.
    setoid_rewrite elem_of_children_delete. split_and!.
    + intros k. apply (infos_deleted c F). by apply same_infos_alter.
    + naive_solver.
    + intros p d [[H Hpc] H1]. split; [|by left]. intros ->.
      pose proof (children_of_Some _ _ _ H) as Hs.
      apply (fo_edge F HF) in H as (_ & _ & [->| ->]); [by apply H1|]. rewrite Hep in Hs. by destruct Hs.
Qed.

Lemma RemoveInstance_ok c F F' : fam_ok F → c ≠ "" → RemoveInstance c F = Some F' → fam_ok F'.
Proof using Hrank.
  intros HF Hc HR. destruct (RemoveInstance_spec c F HF Hc) as (G & HG & Hi & _ & Hch). simplify_eq.
  assert (∀ k, k ≠ c → is_Some (F !! k) → is_Some (F' !! k)) as Hdom.
  { intros k Hk. specialize (Hi k). rewrite decide_False in Hi by done. by apply info_Some. }
  split.
  - destruct (fo_root F HF) as [X HX]. specialize (Hi ""). rewrite decide_False, HX in Hi by done.
    destruct (F' !! "") as [[Y i]|]; cbn in Hi; simplify_eq. by exists Y.
  - intros k e Hk Hne. specialize (Hi k). rewrite Hk in Hi. destruct (decide (k = c)); [done|].
    destruct (F !! k) as [e'|] eqn:Hk'; cbn in Hi; simplify_eq.
    destruct (fo_keyed F HF k e' Hk' Hne) as (x & Hx & ?). exists x. split; [congruence|done].
  - intros p d Hd. apply Hch in Hd as (Hdc & [Hd|[-> Hd]]); apply (fo_edge F HF) in Hd as (? & ? & ?);
      split_and!; auto.
Qed.

Lemma sync_one_ok x F : fam_ok F → proper x → fam_ok (sync_one x F).
Proof. intros HF Hx. destruct (sync_one_is x F) as [->|[_ ->]]; [done|by apply set_info_ok]. Qed.

(** Whatever the fuel, a walk that ends lists instances and leaves the family
    as it is. *)
Lemma walk_safe F fuel seen todo :
  fam_ok F → Forall (known F) todo →
  walk order true fuel (Some <$> seen) (Some <$> todo) F = Running ∨
  ∃ l, walk order true fuel (Some <$> seen) (Some <$> todo) F = Listed (Some <$> l) F.
Proof using Horder.
  intros HF. revert seen todo. induction fuel as [|fuel IH]; intros seen todo Ht.
  - destruct todo; [right; by exists seen|by left].
  - destruct todo as [|x todo]; [right; by exists seen|]. apply Forall_cons in Ht as [Hx Ht].
    rewrite fmap_cons, walk_one by done. change [Some x] with (Some <$> [x]). rewrite <-!fmap_app.
    apply IH, Forall_app. split; [done|]. apply Forall_forall.
    intros y Hy. by apply (elem_of_kids F HF) in Hy as (_ & ? & _).
Qed.
End family.
