(* ===== verification/FamilyExit.v ===== *)
(** * The end of a family

    A master that hears of instances one by one, or of all of them when it
    synchronizes with the store, ends the descendants of a deleted instance.
    Ids of deleted instances are not used again. *)

From S2P Require Import Prelude InstanceTypes Family FamilyProps.
From Stdlib Require Import ZArith Lia.
From stdpp Require Import base gmap strings fin_maps relations sorting list.

Import Family.

Record Sys := mkSys { manager : State; gone : gset string }.

(** What the master does not end although its parent is missing. *)
Definition exempt (x : Inst) : bool :=
  failover (fi_info x) || IsCreateByFrontend x || IsStaticFunctionInstance (fi_info x)
  || IsFrontendFunction (function (ii_id (fi_info x))).

Section system.
Context (order : gset string → list string).
Context (parent_of : string → string) (det : string → bool).

Inductive step : Sys → Sys → Prop :=
  | step_put y fuel x :
      proper parent_of det x → fi_id x ∉ gone y →
      let m := OnInstancePutForFamilyManagement order fuel x in
      val m (manager y) = true → step y (mkSys (exec m (manager y)) (gone y))
  | step_delete y fuel x :
      proper parent_of det x →
      let m := OnInstanceDeleteForFamilyManagement order fuel x in
      val m (manager y) = true → step y (mkSys (exec m (manager y)) ({[fi_id x]} ∪ gone y))
  | step_sync y fuel l :
      Forall (λ p, proper parent_of det p.2 ∧ fi_id p.2 ∉ gone y) l →
      let m := OnSync (OnInstancePutForFamilyManagement order fuel) l in
      val m (manager y) = true → step y (mkSys (exec m (manager y)) (gone y))
  | step_kill y x signal msg :
      step y (mkSys (exec (KillInstance x signal msg) (manager y)) (gone y)).

Definition start : Sys := mkSys (mkState InstanceFamilyCaches ∅) ∅.
End system.

(** ** Handlers *)
Lemma exec_kill_all l signal msg s :
  exec (KillAllInstances l signal msg) s = mkState (family s) (list_to_set (fi_id <$> l) ∪ exitingInstances s).
Proof.
  revert s. induction l as [|x l IH]; intros s.
  - cbn. rewrite exec_ret, (left_id_L ∅ (∪)). by destruct s.
  - unfold KillAllInstances in *. cbn [for_each]. rewrite exec_bind, IH. cbn. f_equal. set_solver.
Qed.
Lemma outs_kill_all l signal msg s :
  outs (KillAllInstances l signal msg) s = (λ x, KillInstanceWithRetry x signal msg) <$> l.
Proof.
  revert s. induction l as [|x l IH]; intros s; [done|].
  unfold KillAllInstances in *. cbn [for_each]. by rewrite outs_bind, IH.
Qed.

Section family.
Context (order : gset string → list string) (Horder : ∀ X, order X ≡ₚ elements X).
Context (parent_of : string → string) (det : string → bool) (rank : string → nat).
Context (Hrank : ∀ c, c ≠ "" → rank (above parent_of det c) < rank c).

#[local] Abbreviation proper := (proper parent_of det).
#[local] Abbreviation fam_ok := (fam_ok parent_of det).
#[local] Abbreviation all_below := (all_below order rank).

Lemma mapM_Some {A} (l : list A) : mapM (λ i, i) (Some <$> l) = Some l.
Proof. induction l as [|a l IH]; [done|]. cbn. by rewrite IH. Qed.

Lemma descendants_safe fuel c s :
  fam_ok (family s) → c ≠ "" →
  exec (descendants order fuel c) s = s ∧ outs (descendants order fuel c) s = [].
Proof using Horder.
  intros HF Hc. destruct s as [F E]. unfold descendants, exec, outs, GetAllDescendantsOf. cbn in *.
  destruct (F !! c) as [e|] eqn:He; [|done].
  destruct (fo_keyed _ _ F HF c e He Hc) as (x & Hx & Hid & _). rewrite Hx.
  destruct (walk_safe order Horder parent_of det F fuel [] [x] HF) as [Hw|[l Hw]].
  - constructor; [|done]. exists e. by rewrite Hid.
  - cbn in Hw. by rewrite Hw.
  - cbn in Hw. by rewrite Hw.
Qed.

Lemma descendants_absent fuel c s :
  family s !! c = None → val (descendants order fuel c) s = Some [].
Proof. intros H. unfold descendants, val, GetAllDescendantsOf. by rewrite H. Qed.
Lemma descendants_known fuel x s :
  fam_ok (family s) → cached (family s) (fi_id x) x → fi_id x ≠ "" →
  length (x :: all_below (family s) x) ≤ fuel →
  val (descendants order fuel (fi_id x)) s = Some (all_below (family s) x).
Proof using Horder Hrank.
  intros HF Hx Hne Hf. unfold descendants, val.
  rewrite (GetAllDescendantsOf_spec order Horder parent_of det rank Hrank) by done.
  cbn. apply mapM_Some.
Qed.

Lemma add_instance_effect x s :
  exec (add_instance x) s = mkState (AddInstance x (family s)) (exitingInstances s).
Proof. done. Qed.

(** An attached instance whose parent is missing is ended, or exempt. *)
Lemma orphan_killed x s :
  proper x → detached x = false → family s !! parent_of (fi_id x) = None →
  IsFrontendFunction (function (ii_id (fi_info x))) = false → exempt x = false →
  IsInstanceShouldBeKilled x s = true.
Proof.
  intros (_ & Hp & _) Hd Hn Hff Hex. unfold IsInstanceShouldBeKilled, IsInstanceExists.
  unfold exempt in Hex. rewrite Hff, orb_false_r in Hex.
  apply orb_false_iff in Hex as [[-> Hf]%orb_false_iff Hs].
  rewrite Hp, Hn, Hd, Hf, Hs. by destruct (lowreliability _ && _).
Qed.

(** What follows the treatment of a fatal instance. *)
Lemma put_tail_effect x s :
  proper x → IsFrontendFunction (function (ii_id (fi_info x))) = false →
  let m := (s ← members;
            act_when (IsInstanceShouldBeKilled x s) (KillAllInstances [x] SHUT_DOWN_SIGNAL "") ≫= λ _,
            add_instance x ≫= λ _, mret true) in
  val m s = true ∧
  ∃ E, exec m s = mkState (AddInstance x (family s)) E ∧ exitingInstances s ⊆ E ∧
    (detached x = false → family s !! parent_of (fi_id x) = None → fi_id x ∈ E ∨ exempt x = true).
Proof.
  intros Hx Hff m. subst m.
  rewrite !exec_bind, !val_bind, val_members, exec_members, exec_when, val_ret, exec_ret.
  split; [done|]. destruct (IsInstanceShouldBeKilled x s) eqn:Hk.
  - rewrite exec_kill_all, add_instance_effect. eexists. split; [done|]. cbn.
    split; [set_solver|]. intros _ _. left. set_solver.
  - rewrite add_instance_effect. eexists. split; [done|]. split; [done|]. intros Hd Hn. right.
    destruct (exempt x) eqn:He; [done|]. by rewrite (orphan_killed x s) in Hk.
Qed.

Lemma put_effect fuel x s :
  fam_ok (family s) → proper x →
  let m := OnInstancePutForFamilyManagement order fuel x in
  val m s = true →
  ∃ E, exec m s = mkState (AddInstance x (family s)) E ∧ exitingInstances s ⊆ E ∧
    (detached x = false → family s !! parent_of (fi_id x) = None → fi_id x ∈ E ∨ exempt x = true).
Proof using Horder Hrank.
  intros HF Hx m Hv. subst m. unfold OnInstancePutForFamilyManagement in *.
  destruct (IsFrontendFunction _) eqn:Hff.
  { rewrite exec_bind, exec_ret, add_instance_effect. eexists. split; [done|]. split; [done|].
    intros _ _. right. unfold exempt. by rewrite Hff, orb_true_r. }
  rewrite exec_bind, val_bind in *. case_bool_decide as Hfatal.
  - rewrite !exec_bind, !val_bind in *. destruct (descendants_safe fuel (fi_id x) s HF (proj1 Hx)) as [Hs _].
    rewrite Hs in *. destruct (val (descendants _ _ _) s) as [l|]; [|done].
    rewrite !exec_bind, !val_bind, !val_ret, !exec_ret in *. cbn [negb] in *.
    set (s' := exec _ s) in *.
    assert (family s' = family s ∧ exitingInstances s ⊆ exitingInstances s') as [Hf He].
    { subst s'. destruct (IsAppDriverFinished x); rewrite exec_kill_all; cbn; split; [done|set_solver..]. }
    destruct (put_tail_effect x s' Hx Hff) as (_ & E & HE & Hsub & Ho). rewrite Hf in *.
    exists E. split; [exact HE|]. split; [set_solver|done].
  - rewrite val_ret, exec_ret in *. apply put_tail_effect; done.
Qed.

(** A put comes to an end. *)
Lemma put_ends x s :
  fam_ok (family s) → proper x →
  ∃ fuel0, ∀ fuel, fuel0 ≤ fuel → val (OnInstancePutForFamilyManagement order fuel x) s = true.
Proof using Horder Hrank.
  intros HF Hx. assert (∃ l fuel0, ∀ fuel, fuel0 ≤ fuel →
    val (descendants order fuel (fi_id x)) s = Some l) as (l & fuel0 & Hl).
  { destruct (family s !! fi_id x) as [e|] eqn:He.
    - destruct (fam_cached _ _ _ (fi_id x) HF) as [z Hz]; [by eexists|].
      pose proof (cached_id _ _ _ _ _ HF Hz) as Hid. rewrite <-Hid in Hz |- *.
      exists (all_below (family s) z), (length (z :: all_below (family s) z)). intros fuel Hf.
      apply descendants_known; [done|done| |done]. rewrite Hid. apply Hx.
    - exists [], 0. intros fuel _. by apply descendants_absent. }
  exists fuel0. intros fuel Hf. unfold OnInstancePutForFamilyManagement.
  destruct (IsFrontendFunction _) eqn:Hff; [done|]. rewrite val_bind. case_bool_decide.
  - rewrite !val_bind, Hl by done. rewrite val_bind, !val_ret. cbn [negb].
    by apply put_tail_effect.
  - rewrite val_ret. by apply put_tail_effect.
Qed.

(** ** The invariant *)

(** Instances are linked to the parent that is there; without a parent they
    are ended or exempt, unless the parent has been deleted.  [P] holds those
    that a synchronization has still to put. *)
Definition linked (P : gset string) (F : Fam) (E G : gset string) : Prop :=
  ∀ c z, cached F c z → c ≠ "" → detached z = false → c ∉ P →
    (is_Some (F !! parent_of c) → c ∈ children_of F (parent_of c) ∨ c ∈ E ∨ exempt z = true) ∧
    (F !! parent_of c = None → parent_of c ∉ G → c ∈ E ∨ exempt z = true).

Record inv (P : gset string) (s : State) (G : gset string) : Prop := {
  inv_ok : fam_ok (family s);
  inv_gone c : c ∈ G → family s !! c = None;
  inv_linked : linked P (family s) (exitingInstances s) G }.

Lemma parent_ne c : c ≠ "" → det c = false → parent_of c ≠ c.
Proof using Hrank.
  intros Hc Hd Heq. specialize (Hrank c Hc). unfold above in Hrank. rewrite Hd, Heq in Hrank. lia.
Qed.

Lemma linked_more P P' F E E' G : P ⊆ P' → E ⊆ E' → linked P F E G → linked P' F E' G.
Proof using. clear Hrank Horder order rank det. intros HP HE HL c z Hc H1 H2 H3. destruct (HL c z Hc H1 H2) as [HA HB]; set_solver. Qed.

Lemma linked_add P F E G x :
  fam_ok F → proper x → fi_id x ∉ G → linked P F E G →
  (detached x = false → F !! parent_of (fi_id x) = None → fi_id x ∈ E ∨ exempt x = true) →
  linked (P ∖ {[fi_id x]}) (AddInstance x F) E G.
Proof using Hrank.
  clear Horder order. intros HF Hx HG HL Ho c z Hc Hne Hd HP.
  pose proof (AddInstance_dom parent_of det rank Hrank x F) as Hdom.
  assert (∀ p, AddInstance x F !! p = None → F !! p = None) as Hnone.
  { intros p Hp. apply eq_None_not_Some. intros Hs. apply eq_None_not_Some in Hp. apply Hp, Hdom; auto. }
  apply (AddInstance_cached parent_of det rank Hrank) in Hc as [[-> ->]|[Hci Hc]]; [| |done..].
  - pose proof Hx as (_ & _ & Hdx). rewrite Hd in Hdx. split; [|intros Hp _; apply Ho; auto].
    intros [Hp|Hp]%Hdom; [|left|done..].
    + symmetry in Hdx. exfalso. by apply (parent_ne (fi_id x)).
    + apply (AddInstance_children parent_of det rank Hrank); [done..|]. right. split; [done|].
      unfold place, above. rewrite <-Hdx, bool_decide_true by done. done.
  - destruct (HL c z Hc Hne Hd) as [HA HB]; [set_solver|]. split; [|auto].
    intros [Hp|Hp]%Hdom; [| |done..].
    + destruct (F !! parent_of c) eqn:Hpc; [|right; apply HB; [done|congruence]].
      destruct HA as [HA|HA]; [by eexists| |by right]. left.
      apply (AddInstance_children parent_of det rank Hrank); auto.
    + destruct (HA Hp) as [HA'|HA']; [|by right]. left.
      apply (AddInstance_children parent_of det rank Hrank); auto.
Qed.

Lemma inv_put P s G fuel x :
  inv P s G → proper x → fi_id x ∉ G →
  let m := OnInstancePutForFamilyManagement order fuel x in
  val m s = true → inv (P ∖ {[fi_id x]}) (exec m s) G.
Proof using Horder Hrank.
  intros [HF HG HL] Hx Hg m Hv. destruct (put_effect fuel x s HF Hx Hv) as (E & HE & Hsub & Ho).
  subst m. rewrite HE. split; cbn [family exitingInstances].
  - by apply (AddInstance_ok parent_of det rank Hrank).
  - intros c Hc. apply eq_None_not_Some. intros [->|Hs]%(AddInstance_dom parent_of det rank Hrank); [done| |done..].
    rewrite HG in Hs by done. by destruct Hs.
  - apply linked_add; [done..| |done]. by apply (linked_more P P _ (exitingInstances s)).
Qed.

Lemma inv_sync_one P s G x :
  inv P s G → proper x → fi_id x ∉ G → fi_id x ∈ P →
  inv P (set_family (sync_one x (family s)) s) G.
Proof using Hrank.
  clear Horder order. intros [HF HG HL] Hx Hg HP. split; cbn.
  - by apply sync_one_ok.
  - intros c Hc. destruct (sync_one_is x (family s)) as [->|[_ ->]]; [auto|].
    rewrite set_info_lookup, decide_False by (intros ->; done). auto.
  - destruct (sync_one_is x (family s)) as [->|[Hn ->]]; [done|]. intros c z (e & He & Hz) Hne Hd Hc.
    rewrite set_info_lookup in He. destruct (decide _) as [->|Hci]; [done|].
    destruct (HL c z) as [HA HB]; [by exists e|done..|]. rewrite set_info_lookup, set_info_children.
    destruct (decide _) as [Heq|]; [|done]. split; [|done]. intros _. right. apply HB; congruence.
Qed.

Lemma inv_sync P s G l :
  inv P s G → Forall (λ p, proper p.2 ∧ fi_id p.2 ∉ G ∧ fi_id p.2 ∈ P) l →
  inv P (set_family (SyncInstances l (family s)) s) G.
Proof using Hrank.
  intros Hi Hl. revert s Hi. induction Hl as [|[k x] l (Hx & Hg & HP) Hl IH]; intros s Hi.
  - by destruct s.
  - rewrite SyncInstances_cons. apply (IH (set_family (sync_one x (family s)) s)). by apply inv_sync_one.
Qed.

Lemma inv_put_all P s G fuel l :
  inv P s G → Forall (λ p, proper p.2 ∧ fi_id p.2 ∉ G) l →
  let m := put_all (OnInstancePutForFamilyManagement order fuel) l in
  val m s = true → inv (P ∖ list_to_set ((λ p, fi_id p.2) <$> l)) (exec m s) G.
Proof using Horder Hrank.
  intros Hi Hl. revert P s Hi. induction Hl as [|p l [Hx Hg] Hl IH]; intros P s Hi m Hv; subst m.
  - cbn. rewrite exec_ret. by rewrite difference_empty_L.
  - cbn [put_all] in *. rewrite exec_bind, val_bind in *.
    destruct (val (OnInstancePutForFamilyManagement order fuel p.2) s) eqn:Hp; [|done]. cbn [negb] in *.
    eapply inv_put in Hi; [|done..]. apply IH in Hi; [|done].
    replace (P ∖ list_to_set _) with ((P ∖ {[fi_id p.2]}) ∖ list_to_set ((λ p, fi_id p.2) <$> l)); [done|].
    clear. cbn. apply set_eq. intros c. rewrite !elem_of_difference, elem_of_union, elem_of_singleton. naive_solver.
Qed.

(** ** Deletions *)
Lemma removed_cached X F F' c z :
  (∀ k, info <$> F' !! k = if decide (k = X) then None else info <$> F !! k) →
  cached F' c z → c ≠ X ∧ cached F c z.
Proof using.
  clear. intros Hi (e & He & Hz). specialize (Hi c). rewrite He in Hi.
  destruct (decide (c = X)); [done|]. split; [done|].
  destruct (F !! c) as [e'|] eqn:He'; cbn in Hi; simplify_eq. exists e'. by rewrite <-Hz.
Qed.

Lemma linked_remove P F F' E E' G X :
  fam_ok F → X ≠ "" → RemoveInstance X F = Some F' → E ∖ {[X]} ⊆ E' →
  linked P F E G → linked P F' E' ({[X]} ∪ G).
Proof using Hrank.
  clear Horder order. intros HF HX HR HE HL c z Hc Hne Hd HP.
  destruct (RemoveInstance_spec parent_of det rank Hrank X F HF HX) as (F1 & HR1 & Hi & Hch & _). simplify_eq.
  destruct (removed_cached X F F' c z Hi Hc) as [HcX Hc'].
  destruct (HL c z Hc' Hne Hd HP) as [HA HB].
  assert (∀ p, p ≠ X → is_Some (F' !! p) ↔ is_Some (F !! p)) as Hdom.
  { intros p Hp. specialize (Hi p). rewrite decide_False in Hi by done. by apply info_Some. }
  assert (F' !! X = None) as HXn.
  { specialize (Hi X). rewrite decide_True in Hi by done. by destruct (F' !! X). }
  assert (∀ c, c ∈ E → c ≠ X → c ∈ E') as HE' by set_solver. split.
  - intros Hp. assert (parent_of c ≠ X) as HpX by (intros Heq; rewrite Heq, HXn in Hp; by destruct Hp).
    destruct (HA (proj1 (Hdom _ HpX) Hp)) as [?|[?|?]]; auto.
  - intros Hp Hg. assert (parent_of c ≠ X ∧ parent_of c ∉ G) as [HpX HpG] by set_solver.
    destruct HB as [?|?]; auto. apply eq_None_not_Some. intros Hs%(Hdom _ HpX). rewrite Hp in Hs. by destruct Hs.
Qed.

Lemma remove_instance_effect X s :
  fam_ok (family s) → X ≠ "" →
  ∃ F', RemoveInstance X (family s) = Some F' ∧ val (remove_instance X) s = true ∧
    exec (remove_instance X) s = set_family F' s ∧ outs (remove_instance X) s = [].
Proof using Hrank.
  intros HF HX. destruct (RemoveInstance_spec parent_of det rank Hrank X _ HF HX) as (F' & HR & _).
  exists F'. split; [done|]. unfold remove_instance.
  rewrite val_bind, exec_bind, outs_bind, val_members, exec_members, outs_members, HR. done.
Qed.

(** The whole handler, given what the walk lists. *)
Lemma delete_effect fuel x s l :
  fam_ok (family s) → proper x → IsFrontendFunction (function (ii_id (fi_info x))) = false →
  val (descendants order fuel (fi_id x)) (set_exiting (exitingInstances s ∖ {[fi_id x]}) s) = Some l →
  ∃ F', RemoveInstance (fi_id x) (family s) = Some F' ∧
    let m := OnInstanceDeleteForFamilyManagement order fuel x in
    val m s = true ∧
    exec m s = mkState F' (list_to_set (fi_id <$> l) ∪ (exitingInstances s ∖ {[fi_id x]})) ∧
    outs m s =
      ((λ z, KillInstanceWithRetry z SHUT_DOWN_SIGNAL ("ancestor instance(" +:+ fi_id x +:+ ") exited")) <$> l)
      ++ [TryCancelSchedule (fi_id x) ("parent(" +:+ fi_id x +:+ ") exited")].
Proof using Horder Hrank.
  intros HF Hx Hff Hl. set (s1 := set_exiting _ s) in *.
  destruct (remove_instance_effect (fi_id x) s1 HF (proj1 Hx)) as (F' & HR & Hv & He & Ho).
  destruct (descendants_safe fuel (fi_id x) s1 HF (proj1 Hx)) as [Hds Hdo].
  exists F'. split; [exact HR|]. unfold OnInstanceDeleteForFamilyManagement. rewrite Hff.
  rewrite val_bind, exec_bind, outs_bind, exec_modify, outs_modify. fold s1.
  rewrite val_bind, exec_bind, outs_bind, Hl, Hds, Hdo.
  rewrite val_bind, exec_bind, outs_bind, Hv, He, Ho. cbn [negb].
  rewrite !val_bind, !exec_bind, !outs_bind, exec_kill_all, outs_kill_all, exec_post, outs_post.
  by rewrite val_ret, exec_ret, outs_ret.
Qed.

Lemma inv_delete P s G fuel x :
  inv P s G → proper x →
  let m := OnInstanceDeleteForFamilyManagement order fuel x in
  val m s = true → inv P (exec m s) ({[fi_id x]} ∪ G).
Proof using Horder Hrank.
  intros [HF HG HL] Hx m Hv. subst m.
  assert (∃ F' E', RemoveInstance (fi_id x) (family s) = Some F' ∧
    exec (OnInstanceDeleteForFamilyManagement order fuel x) s = mkState F' E' ∧
    exitingInstances s ∖ {[fi_id x]} ⊆ E') as (F' & E' & HR & -> & HE).
  { destruct (IsFrontendFunction (function (ii_id (fi_info x)))) eqn:Hff.
    - unfold OnInstanceDeleteForFamilyManagement. rewrite Hff, exec_bind, exec_modify.
      set (s1 := set_exiting _ s).
      destruct (remove_instance_effect (fi_id x) s1 HF (proj1 Hx)) as (F' & HR & _ & -> & _).
      by exists F', (exitingInstances s1).
    - destruct (val (descendants order fuel (fi_id x)) (set_exiting (exitingInstances s ∖ {[fi_id x]}) s))
        as [l|] eqn:Hl.
      + destruct (delete_effect fuel x s l HF Hx Hff Hl) as (F' & HR & _ & -> & _).
        eexists _, _. split_and!; [done..|set_solver].
      + exfalso. unfold OnInstanceDeleteForFamilyManagement in Hv.
        by rewrite Hff, !val_bind, exec_modify, Hl in Hv. }
  destruct (RemoveInstance_spec parent_of det rank Hrank (fi_id x) _ HF (proj1 Hx)) as (F1 & HR1 & Hi & _).
  simplify_eq. split; cbn [family exitingInstances].
  - by eapply (RemoveInstance_ok parent_of det rank Hrank); [|apply Hx|].
  - intros c Hc. specialize (Hi c). destruct (decide (c = fi_id x)) as [->|Hne]; [by destruct (F' !! _)|].
    rewrite HG in Hi by set_solver. by destruct (F' !! c).
  - eapply linked_remove; [done|apply Hx|done|done|done].
Qed.

Lemma inv_init : inv ∅ (manager start) ∅.
Proof using.
  clear. split.
  - apply init_ok.
  - set_solver.
  - intros c z (e & He & _) Hc. unfold start, InstanceFamilyCaches in He. cbn in He. by rewrite lookup_singleton_ne in He.
Qed.

Lemma family_inv_reachable y :
  rtc (step order parent_of det) start y → inv ∅ (manager y) (gone y).
Proof using Horder Hrank.
  revert y. apply rtc_ind_r; [apply inv_init|]. intros y y' _ Hs Hi. destruct Hs as [y fuel x Hx Hg m Hv|y fuel x Hx m Hv|y fuel l Hl m Hv|y x sg msg].
  - eapply inv_put in Hi; [|done..]. by replace (∅ ∖ {[fi_id x]}) with (∅ : gset string) in Hi by set_solver.
  - by apply inv_delete.
  - subst m. unfold OnSync in *. rewrite exec_bind, val_bind, exec_modify in *.
    set (P := list_to_set ((λ p, fi_id p.2) <$> l) : gset string).
    assert (inv P (set_family (SyncInstances l (family (manager y))) (manager y)) (gone y)) as H.
    { apply inv_sync.
      - destruct Hi as [H1 H2 H3]. split; [done..|]. by eapply linked_more; [|done|done].
      - rewrite Forall_forall in *. intros p Hp. destruct (Hl p Hp). split_and!; [done..|].
        apply elem_of_list_to_set, list_elem_of_fmap. eauto. }
    eapply inv_put_all in H; [|done..]. subst P. by rewrite difference_diag_L in H.
  - destruct Hi as [H1 H2 H3]. split; [done..|]. eapply linked_more; [done| |done]. clear. set_solver.
Qed.

(** ** What is ended *)
Lemma all_below_shape F z :
  fam_ok F → cached F (fi_id z) z → fi_id z ≠ "" →
  NoDup (fi_id <$> all_below F z) ∧
  StronglySorted (nearer parent_of det F (fi_id z)) (all_below F z) ∧
  ∀ w, w ∈ all_below F z → cached F (fi_id w) w ∧ tc (child_of parent_of det F) (fi_id z) (fi_id w).
Proof using Horder Hrank.
  intros HF Hz Hne. assert (∀ x, x ∈ [z] → fi_id x ≠ "") as Hn by by intros x ->%list_elem_of_singleton.
  assert (at_distance parent_of det F (fi_id z) 0 [z]) as Hd.
  { intros x ->%list_elem_of_singleton. constructor. }
  split_and!.
  - eapply (spread_NoDup order Horder parent_of det rank Hrank F HF); [done| |done]. apply NoDup_singleton.
  - by eapply (spread_breadth_first order Horder parent_of det F HF).
  - intros w Hw. split.
    + pose proof (spread_known order Horder parent_of det F HF (S (depth rank F)) [z]) as Hk.
      rewrite Forall_forall in Hk. by apply Hk.
    + destruct (spread_steps order Horder parent_of det F HF _ _ _ Hn Hw) as (v & k & ->%list_elem_of_singleton & Hs).
      apply tc_nsteps. exists (S k). split; [lia|done].
Qed.

Lemma all_below_closed y z c w :
  inv ∅ (manager y) (gone y) → cached (family (manager y)) (fi_id z) z → fi_id z ≠ "" →
  cached (family (manager y)) c w → c ≠ "" → detached w = false →
  fi_parent w ∈ fi_id z :: (fi_id <$> all_below (family (manager y)) z) →
  c ∈ fi_id <$> all_below (family (manager y)) z ∨ c ∈ exitingInstances (manager y) ∨ exempt w = true.
Proof using Horder Hrank.
  intros [HF _ HL] Hz Hne Hc Hcne Hd Hp. set (F := family (manager y)) in *.
  destruct (cached_ok _ _ _ _ _ HF Hc Hcne) as (Hid & Hw). pose proof Hw as (_ & Hpar & _).
  rewrite Hid in Hpar. rewrite Hpar in Hp.
  assert (∃ v, v ∈ [z] ++ all_below F z ∧ fi_id v = parent_of c ∧ cached F (fi_id v) v) as (v & Hv & Hvp & Hvc).
  { apply elem_of_cons in Hp as [->|(v & -> & Hv)%list_elem_of_fmap].
    - exists z. split_and!; [by left|done..].
    - exists v. split_and!; [by right|done|]. by apply (all_below_shape F z). }
  destruct (HL c w Hc Hcne Hd) as [HA _]; [set_solver|].
  destruct HA as [HA|HA]; [rewrite <-Hvp; destruct Hvc as (e & -> & _); done| |by right]. left.
  apply list_elem_of_fmap. exists w. split; [done|].
  eapply (spread_closed order Horder parent_of det rank Hrank F HF _ _ v); [| |exact Hv|].
  - by intros x ->%list_elem_of_singleton.
  - intros x ->%list_elem_of_singleton. lia.
  - apply (elem_of_kids order Horder parent_of det F HF). rewrite Hvp, Hid. split_and!; [done| |done].
    unfold known. by rewrite Hid.
Qed.
End family.


(** ** A run: a driver, its child and its grandchild are put, then the driver
    is deleted *)
Definition demo_inst (id parent : string) (status : Z) : Inst :=
  mkInst (set_status (mkStat status 0 "" 0 0)
    (mkInfo (mkIdentity id "" "" "" "" parent false "") no_placement no_status 0
       ∅ ∅ [] None false false false 0 ""))
    false.
Definition demo_parent (c : string) : string :=
  if String.eqb c "b" then "a" else if String.eqb c "c" then "b" else "".
Definition demo_det (c : string) : bool := false.
Definition demo_rank (c : string) : nat :=
  if String.eqb c "" then 0 else if String.eqb c "c" then 3 else if String.eqb c "b" then 2 else 1.
Definition demo_order (X : gset string) : list string := elements X.
Definition demo_put (y : Sys) (x : Inst) : Sys :=
  mkSys (exec (OnInstancePutForFamilyManagement demo_order 8 x) (manager y)) (gone y).
Definition demo_a : Inst := demo_inst "a" "" 3.
Definition demo_b : Inst := demo_inst "b" "a" 3.
Definition demo_c : Inst := demo_inst "c" "b" 3.
Definition demo_run : Sys := demo_put (demo_put (demo_put start demo_a) demo_b) demo_c.

Lemma demo_rank_ok c : c ≠ "" → demo_rank (above demo_parent demo_det c) < demo_rank c.
Proof.
  unfold above, demo_det, demo_rank, demo_parent.
  destruct (String.eqb_spec c ""); [done|]. destruct (String.eqb_spec c "b"), (String.eqb_spec c "c"); subst;
    cbn; lia.
Qed.
Lemma demo_run_steps : rtc (step demo_order demo_parent demo_det) start demo_run.
Proof.
  eapply rtc_l; [apply (step_put _ _ _ start 8 demo_a); [done|set_solver|by vm_compute]|].
  eapply rtc_l; [apply (step_put _ _ _ (demo_put start demo_a) 8 demo_b); [done|set_solver|by vm_compute]|].
  apply rtc_once.
  apply (step_put _ _ _ (demo_put (demo_put start demo_a) demo_b) 8 demo_c); [done|set_solver|by vm_compute].
Qed.
Lemma demo_cached : cached (family (manager demo_run)) "a" demo_a.
Proof.
  eexists. split; [vm_compute; reflexivity|reflexivity].
Qed.

Lemma demo_cached_b : cached (family (manager demo_run)) "b" demo_b.
Proof. eexists. split; [vm_compute; reflexivity|reflexivity]. Qed.
Lemma demo_none_exiting : exitingInstances (manager demo_run) = ∅.
Proof. by vm_compute. Qed.


(** ** Where the assumptions are needed *)

(** An instance that names itself as its parent is its own child once it is
    put again, and the walk over its descendants does not end. *)
Definition self_put : Fam :=
  AddInstance (demo_inst "a" "a" 3) (AddInstance (demo_inst "a" "a" 3) InstanceFamilyCaches).
Lemma self_walk fuel seen :
  walk demo_order true fuel seen [Some (demo_inst "a" "a" 3)] self_put = Running.
Proof.
  revert seen. induction fuel as [|fuel IH]; intros seen; [done|]. cbn [walk].
  replace (touch _ self_put) with self_put by by vm_compute.
  replace (collect true self_put _) with (Some [Some (demo_inst "a" "a" 3)]) by by vm_compute.
  apply IH.
Qed.
Lemma own_parent_never_listed fuel : GetAllDescendantsOf demo_order true fuel "a" self_put = Running.
Proof.
  unfold GetAllDescendantsOf. replace (self_put !! "a") with
    (Some (mkEntry {["a"]} (Some (demo_inst "a" "a" 3)))) by by vm_compute.
  cbn [info]. by rewrite self_walk.
Qed.

(** When an instance and then its child are removed, the grandchild is not
    hung below the root: it is in the family but no descendant of the root. *)
Lemma grandchild_lost :
  let F := family (manager demo_run) in
  ∃ F1 F2, RemoveInstance "a" F = Some F1 ∧ RemoveInstance "b" F1 = Some F2 ∧
    IsInstanceExists "c" F2 = true ∧ GetAllDescendantsOf demo_order true 8 "" F2 = Listed [] F2.
Proof. eexists _, _. split; [vm_compute; reflexivity|]. split; [vm_compute; reflexivity|]. by vm_compute. Qed.
