(* ===== verification/IntMap.v ===== *)
(** * Maps and sets of integers in their order

    A range-based [for] over a [std::map<int, A>] visits the keys in increasing
    order.  Shared by the port pool and the timer pool. *)

From S2P Require Import Prelude.
From Stdlib Require Import ZArith Lia.
From stdpp Require Import base gmap sorting list.

Open Scope Z_scope.

Definition in_order (P : gset Z) : list Z := merge_sort Z.le (elements P).
Definition keys {A} (m : gmap Z A) : list Z := in_order (dom m).

Section order.
Implicit Types (P : gset Z) (p q : Z).

Lemma elem_of_in_order P p : p ∈ in_order P ↔ p ∈ P.
Proof. unfold in_order. by rewrite merge_sort_Permutation, elem_of_elements. Qed.

Lemma NoDup_in_order P : NoDup (in_order P).
Proof. unfold in_order. rewrite merge_sort_Permutation. apply NoDup_elements. Qed.

Lemma in_order_sorted P : StronglySorted Z.le (in_order P).
Proof. apply StronglySorted_merge_sort; apply _. Qed.

(** The first is the smallest. *)
Lemma head_in_order P p : head (in_order P) = Some p ↔ p ∈ P ∧ ∀ q, q ∈ P → p ≤ q.
Proof.
  pose proof (in_order_sorted P) as Hs. setoid_rewrite <-elem_of_in_order.
  destruct (in_order P) as [|k l]; simpl.
  { split; [done|]. intros [[]%not_elem_of_nil _]. }
  inversion_clear Hs as [|?? _ Hk]. rewrite Forall_forall in Hk.
  split.
  - intros [= <-]. split; [left|]. intros q [->|Hq]%elem_of_cons; [done|by apply Hk].
  - intros [[->|Hp]%elem_of_cons Hmin]; [done|]. f_equal.
    apply Z.le_antisymm; [by apply Hk|apply Hmin; left].
Qed.

Lemma head_in_order_None P : head (in_order P) = None ↔ P = ∅.
Proof.
  split; [|by intros ->].
  destruct (in_order P) as [|k l] eqn:Ho; [|done]. intros _. apply set_eq. intros p.
  rewrite <-elem_of_in_order, Ho. set_solver.
Qed.

Lemma in_order_around p P :
  p ∈ P → ∃ l k, in_order P = l ++ p :: k ∧ StronglySorted Z.le (l ++ p :: k)
    ∧ Forall (λ q, q < p) l ∧ Forall (λ q, p < q) k.
Proof.
  intros (l & k & Ho)%elem_of_in_order%list_elem_of_split. exists l, k.
  pose proof (in_order_sorted P) as Hs. pose proof (NoDup_in_order P) as Hnd. rewrite Ho in *.
  apply NoDup_app in Hnd as (_ & Hl & [Hk _]%NoDup_cons).
  split_and!; [done..| |]; apply Forall_forall; intros q Hq.
  - assert (q ≠ p) by (intros ->; apply (Hl p Hq); left).
    assert (q ≤ p) by (eapply (StronglySorted_app_1_elem_of Z.le l (p :: k)); [done..|left]). lia.
  - assert (q ≠ p) by (by intros ->). apply StronglySorted_app_1_r in Hs.
    inversion_clear Hs as [|?? _ Hall]. rewrite Forall_forall in Hall. specialize (Hall q Hq). lia.
Qed.

Lemma elem_of_keys {A} (m : gmap Z A) p : p ∈ keys m ↔ is_Some (m !! p).
Proof. unfold keys. by rewrite elem_of_in_order, elem_of_dom. Qed.
End order.
