(* ===== verification/Ports.v ===== *)
(** * Ports of a node ([runtime_manager/port/port_manager.cpp])

    The pool of ports a runtime manager hands out.  Whether the operating
    system has a port in use ([CheckPortInUse]) is an argument of a request. *)

From S2P Require Import Prelude IntMap.
From Stdlib Require Import ZArith Lia.
From stdpp Require Import base gmap strings pretty fin_maps sorting list.

Open Scope Z_scope.

Module Ports.

Definition MAX_PORT_NUM : Z := 65535.

Record RuntimeInfo := mkRt { runtimeID : string; port : Z; grpcPort : Z; used : bool }.
Record State := mkState { portMap_ : gmap Z RuntimeInfo; nextPort_ : Z; ready_ : bool }.

(** The order of a scan that begins at the cursor and goes round. *)
Definition scan_order (from : Z) (m : gmap Z RuntimeInfo) : list Z :=
  filter (λ p, from ≤ p) (keys m) ++ filter (λ p, p < from) (keys m).

Definition begin_key (m : gmap Z RuntimeInfo) : Z := default (-1) (head (keys m)).

(** [std::map::upper_bound], going round at the end. *)
Definition AdvanceAllocationCursor (p : Z) (s : State) : State :=
  mkState (portMap_ s)
    (match keys (portMap_ s) with
     | [] => -1
     | k :: _ => default k (head (filter (λ q, p < q) (keys (portMap_ s))))
     end) (ready_ s).

(** [n] entries from [initialPort] on. *)
Fixpoint fill (initialPort : Z) (n : nat) (m : gmap Z RuntimeInfo) : gmap Z RuntimeInfo :=
  match n with
  | O => m
  | S n => fill (initialPort + 1) n (<[initialPort := mkRt "" initialPort (-1) false]> m)
  end.

(** [initialPort + portNum] is within the range of [int]. *)
Definition InitPortResource (initialPort portNum : Z) (s : State) : State :=
  if MAX_PORT_NUM <? portNum then mkState ∅ (-1) false
  else
    let m := fill initialPort (Z.to_nat portNum) ∅ in
    mkState m (begin_key m) true.

Definition BeginReconcile (s : State) : State := mkState (portMap_ s) (nextPort_ s) false.
Definition IsReady (s : State) : bool := ready_ s.
Definition Clear (s : State) : State := mkState ∅ (-1) false.

(** ** Reservations that replace the cache *)
Definition cleared (p : Z) : RuntimeInfo := mkRt "" p (-1) false.
Definition hold (r : string) (p : Z) (i : RuntimeInfo) : RuntimeInfo := mkRt r p (grpcPort i) true.

Fixpoint reserve_ports (r : string) (ports : list Z) (a : gmap Z RuntimeInfo * gset Z)
    : option (gmap Z RuntimeInfo * gset Z) :=
  match ports with
  | [] => Some a
  | p :: ports =>
      match a.1 !! p with
      | None => None
      | Some i =>
          if bool_decide (p ∈ a.2) then None
          else reserve_ports r ports (<[p := hold r p i]> a.1, {[p]} ∪ a.2)
      end
  end.
Fixpoint reserve_all (l : list (string * list Z)) (a : gmap Z RuntimeInfo * gset Z)
    : option (gmap Z RuntimeInfo * gset Z) :=
  match l with
  | [] => Some a
  | (r, ports) :: l =>
      if bool_decide (r = "") then None
      else a ← reserve_ports r ports a; reserve_all l a
  end.

Definition RebuildPorts (reservations : gmap string (list Z)) (s : State) : bool * State :=
  match reserve_all (std_map_list reservations) (map_imap (λ p _, Some (cleared p)) (portMap_ s), ∅) with
  | None => (false, s)
  | Some (rebuilt, reserved) =>
      let s' := mkState rebuilt (begin_key rebuilt) (ready_ s) in
      let s' := match elements reserved with
                | [] => s'
                | p :: l => AdvanceAllocationCursor (foldr Z.max p l) s'
                end in
      (true, mkState (portMap_ s') (nextPort_ s') true)
  end.

Definition owned_by (r : string) (i : RuntimeInfo) : bool := used i && bool_decide (runtimeID i = r).

(** ** Requests *)
Section request.
Context (CheckPortInUse : Z → bool).

Fixpoint scan_one (r : string) (order : list Z) (m : gmap Z RuntimeInfo)
    : option (Z * gmap Z RuntimeInfo) :=
  match order with
  | [] => None
  | p :: order =>
      match m !! p with
      | None => scan_one r order m
      | Some i =>
          if used i then scan_one r order m
          else if CheckPortInUse p then scan_one r order m
          else Some (p, <[p := hold r p i]> m)
      end
  end.

Definition RequestPort (r : string) (s : State) : string * State :=
  if negb (ready_ s) then ("", s)
  else
    match scan_one r (scan_order (nextPort_ s) (portMap_ s)) (portMap_ s) with
    | None => ("", s)
    | Some (p, m) => (pretty p, AdvanceAllocationCursor p (mkState m (nextPort_ s) (ready_ s)))
    end.

Definition GetPorts (r : string) (s : State) : list Z :=
  filter (λ p, from_option (owned_by r) false (portMap_ s !! p) = true) (keys (portMap_ s)).

(** The ports that were allocated, the last one first. *)
Fixpoint scan_many (r : string) (count : Z) (order : list Z) (allocated : list Z)
    (m : gmap Z RuntimeInfo) : list Z * gmap Z RuntimeInfo :=
  if negb (Z.of_nat (length allocated) <? count) then (allocated, m)
  else
    match order with
    | [] => (allocated, m)
    | p :: order =>
        match m !! p with
        | None => scan_many r count order allocated m
        | Some i =>
            if used i || CheckPortInUse p then scan_many r count order allocated m
            else scan_many r count order (p :: allocated) (<[p := hold r p i]> m)
        end
    end.

Definition released : RuntimeInfo := mkRt "" 0 0 false.
Definition roll_back (ports : list Z) (m : gmap Z RuntimeInfo) : gmap Z RuntimeInfo :=
  foldr (λ p, alter (λ _, released) p) m ports.

Definition RequestPorts (r : string) (count : Z) (s : State) : list Z * State :=
  if negb (ready_ s) then ([], s)
  else if count <=? 0 then ([], s)
  else
    match GetPorts r s with
    | [] =>
        let a := scan_many r count (scan_order (nextPort_ s) (portMap_ s)) [] (portMap_ s) in
        if Z.of_nat (length a.1) <? count then
          ([], mkState (roll_back (rev a.1) a.2) (nextPort_ s) (ready_ s))
        else
          match a.1 with
          | [] => ([], s)
          | last :: _ => (rev a.1, AdvanceAllocationCursor last (mkState a.2 (nextPort_ s) (ready_ s)))
          end
    | existing => (if bool_decide (Z.of_nat (length existing) = count) then existing else [], s)
    end.
End request.

(** ** Reading and releasing *)
Definition GetPort (r : string) (s : State) : string :=
  match GetPorts r s with
  | [] => ""
  | p :: _ => from_option (λ i, pretty (port i)) "" (portMap_ s !! p)
  end.

(** The first entry of the runtime, used or not. *)
Definition ReleasePort (r : string) (s : State) : Z * State :=
  match filter (λ p, runtimeID <$> portMap_ s !! p = Some r) (keys (portMap_ s)) with
  | [] => (-1, s)
  | p :: _ => (0, mkState (<[p := released]> (portMap_ s)) (nextPort_ s) (ready_ s))
  end.

Definition ReleasePorts (r : string) (s : State) : State :=
  mkState ((λ i, if owned_by r i then released else i) <$> portMap_ s) (nextPort_ s) (ready_ s).

(** ** One runtime's ports replaced *)
Fixpoint may_reconcile (r : string) (m : gmap Z RuntimeInfo) (ports : list Z) (requested : gset Z) : bool :=
  match ports with
  | [] => true
  | p :: ports =>
      match m !! p with
      | None => false
      | Some i =>
          if bool_decide (p ∈ requested) || (used i && bool_decide (runtimeID i ≠ r)) then false
          else may_reconcile r m ports ({[p]} ∪ requested)
      end
  end.

Definition ReconcileRuntimePorts (r : string) (ports : list Z) (s : State) : bool * State :=
  if negb (ready_ s) || bool_decide (r = "") then (false, s)
  else if negb (may_reconcile r (portMap_ s) ports ∅) then (false, s)
  else
    let m := map_imap (λ p i, Some (if owned_by r i then cleared p else i)) (portMap_ s) in
    (true, mkState (foldl (λ m p, alter (hold r p) p m) m ports) (nextPort_ s) (ready_ s)).

(** [initialPort_] and [poolSize_] *)
Definition PortManager : State := InitPortResource 500 2000 (mkState ∅ (-1) false).
End Ports.
