(* ===== verification/PortsProps.v ===== *)
(** * The port pool refines a table of owners

    [Table] is what the port manager promises: who owns which port of the pool.
    [ports_refine] shows that the loops over [portMap_] implement it. *)

From S2P Require Import Prelude IntMap Ports.
From Stdlib Require Import ZArith Lia.
From stdpp Require Import base gmap strings pretty fin_maps sorting list.

Open Scope Z_scope.

Module PortsProps.
Import Ports.

(** ** The table *)
Record Table := mkTable { pool : gset Z; owner : gmap Z string; cursor : Z; open : bool }.

Definition rotation (from : Z) (P : gset Z) : list Z :=
  filter (λ p, from ≤ p) (in_order P) ++ filter (λ p, p < from) (in_order P).
(** The port after [p], going round. *)
Definition next_after (p : Z) (P : gset Z) : Z :=
  default (default (-1) (head (in_order P))) (head (filter (λ q, p < q) (in_order P))).

Definition free (inuse : Z → bool) (t : Table) (p : Z) : Prop :=
  owner t !! p = None ∧ inuse p = false.
#[export] Instance free_dec inuse t p : Decision (free inuse t p) := _.

Definition candidates (inuse : Z → bool) (t : Table) : list Z :=
  filter (free inuse t) (rotation (cursor t) (pool t)).
Definition owned (r : string) (t : Table) : list Z :=
  filter (λ p, owner t !! p = Some r) (in_order (pool t)).

Definition give (r : string) (ps : list Z) (o : gmap Z string) : gmap Z string :=
  list_to_map ((λ p, (p, r)) <$> ps) ∪ o.
Definition take_from (r : string) (o : gmap Z string) : gmap Z string :=
  filter (λ x, x.2 ≠ r) o.

Definition pairs (res : list (string * list Z)) : list (Z * string) :=
  res ≫= λ x, (λ p, (p, x.1)) <$> x.2.

(** ** The operations *)
Inductive Op :=
  | OpInit (initialPort portNum : Z)
  | OpBeginReconcile
  | OpRebuild (reservations : gmap string (list Z))
  | OpRequest (r : string)
  | OpRequestMany (r : string) (count : Z)
  | OpReconcile (r : string) (ports : list Z)
  | OpGet (r : string)
  | OpGetMany (r : string)
  | OpRelease (r : string)
  | OpReleaseMany (r : string)
  | OpClear.

Inductive Ret := RNone | RPort (p : string) | RPorts (l : list Z) | RBool (b : bool) | RInt (z : Z).

Definition run (inuse : Z → bool) (op : Op) (s : State) : Ret * State :=
  match op with
  | OpInit i n => (RNone, InitPortResource i n s)
  | OpBeginReconcile => (RNone, BeginReconcile s)
  | OpRebuild m => let x := RebuildPorts m s in (RBool x.1, x.2)
  | OpRequest r => let x := RequestPort inuse r s in (RPort x.1, x.2)
  | OpRequestMany r n => let x := RequestPorts inuse r n s in (RPorts x.1, x.2)
  | OpReconcile r l => let x := ReconcileRuntimePorts r l s in (RBool x.1, x.2)
  | OpGet r => (RPort (GetPort r s), s)
  | OpGetMany r => (RPorts (GetPorts r s), s)
  | OpRelease r => let x := ReleasePort r s in (RInt x.1, x.2)
  | OpReleaseMany r => (RNone, ReleasePorts r s)
  | OpClear => (RNone, Clear s)
  end.

(** What each of them does to the table. *)
Definition empty_table : Table := mkTable ∅ ∅ (-1) false.
Definition set_owner (o : gmap Z string) (t : Table) : Table := mkTable (pool t) o (cursor t) (open t).

Definition valid_reservations (m : gmap string (list Z)) (P : gset Z) : Prop :=
  m !! ""%string = None ∧ NoDup (pairs (std_map_list m)).*1 ∧ Forall (λ p, p ∈ P) (pairs (std_map_list m)).*1.
#[export] Instance valid_reservations_dec m P : Decision (valid_reservations m P) := _.

Definition may_hold (r : string) (t : Table) (p : Z) : Prop :=
  p ∈ pool t ∧ (owner t !! p = None ∨ owner t !! p = Some r).
#[export] Instance may_hold_dec r t p : Decision (may_hold r t p) := _.

Definition spec_rebuild (m : gmap string (list Z)) (t : Table) : Ret * Table :=
  if decide (valid_reservations m (pool t)) then
    let l := pairs (std_map_list m) in
    (RBool true, mkTable (pool t) (list_to_map l)
       (match l.*1 with
        | [] => default (-1) (head (in_order (pool t)))
        | p :: ps => next_after (foldr Z.max p ps) (pool t)
        end) true)
  else (RBool false, t).

Definition spec_request (inuse : Z → bool) (r : string) (t : Table) : Ret * Table :=
  match candidates inuse t with
  | p :: _ => if open t then (RPort (pretty p), mkTable (pool t) (<[p := r]> (owner t)) (next_after p (pool t)) true)
              else (RPort "", t)
  | [] => (RPort "", t)
  end.

Definition spec_request_many (inuse : Z → bool) (r : string) (count : Z) (t : Table) : Ret * Table :=
  let got := take (Z.to_nat count) (candidates inuse t) in
  if negb (open t) || (count <=? 0) then (RPorts [], t)
  else if decide (owned r t ≠ []) then
    (RPorts (if bool_decide (Z.of_nat (length (owned r t)) = count) then owned r t else []), t)
  else if decide (Z.of_nat (length got) = count) then
    (RPorts got, mkTable (pool t) (give r got (owner t)) (next_after (default 0 (last got)) (pool t)) true)
  else (RPorts [], t).

Definition spec_reconcile (r : string) (ports : list Z) (t : Table) : Ret * Table :=
  if decide (open t = true ∧ r ≠ ""%string ∧ NoDup ports ∧ Forall (may_hold r t) ports) then
    (RBool true, set_owner (give r ports (take_from r (owner t))) t)
  else (RBool false, t).

Definition spec_release (r : string) (t : Table) : Ret * Table :=
  match filter (λ p, default ""%string (owner t !! p) = r) (in_order (pool t)) with
  | p :: _ => (RInt 0, set_owner (delete p (owner t)) t)
  | [] => (RInt (-1), t)
  end.

Definition spec (inuse : Z → bool) (op : Op) (t : Table) : Ret * Table :=
  match op with
  | OpInit i n =>
      (RNone, if MAX_PORT_NUM <? n then empty_table
              else mkTable (list_to_set (seqZ i n)) ∅ (if 0 <? n then i else -1) true)
  | OpBeginReconcile => (RNone, mkTable (pool t) (owner t) (cursor t) false)
  | OpRebuild m => spec_rebuild m t
  | OpRequest r => spec_request inuse r t
  | OpRequestMany r n => spec_request_many inuse r n t
  | OpReconcile r l => spec_reconcile r l t
  | OpGet r => (RPort (from_option pretty ""%string (head (owned r t))), t)
  | OpGetMany r => (RPorts (owned r t), t)
  | OpRelease r => spec_release r t
  | OpReleaseMany r => (RNone, set_owner (take_from r (owner t)) t)
  | OpClear => (RNone, empty_table)
  end.

(** ** The abstraction *)
Definition owner_of (i : RuntimeInfo) : option string := if used i then Some (runtimeID i) else None.
Definition abs (s : State) : Table :=
  mkTable (dom (portMap_ s)) (omap owner_of (portMap_ s)) (nextPort_ s) (ready_ s).

Definition entry_ok (p : Z) (i : RuntimeInfo) : Prop :=
  if used i then port i = p else runtimeID i = ""%string.
Definition inv (s : State) : Prop := map_Forall entry_ok (portMap_ s).

(** ** The order of the scan *)
Lemma elem_of_rotation c P p : p ∈ rotation c P ↔ p ∈ P.
Proof.
  unfold rotation. rewrite elem_of_app, !list_elem_of_filter, elem_of_in_order.
  destruct (Z.le_gt_cases c p); intuition lia.
Qed.

Lemma NoDup_rotation c P : NoDup (rotation c P).
Proof.
  apply NoDup_app. split_and!; [apply NoDup_filter, NoDup_in_order| |apply NoDup_filter, NoDup_in_order].
  intros p [Hp _]%list_elem_of_filter [Hq _]%list_elem_of_filter. lia.
Qed.

Lemma advance_eq p s :
  AdvanceAllocationCursor p s = mkState (portMap_ s) (next_after p (dom (portMap_ s))) (ready_ s).
Proof.
  unfold AdvanceAllocationCursor, next_after. change (in_order (dom (portMap_ s))) with (keys (portMap_ s)).
  by destruct (keys (portMap_ s)).
Qed.

(** ** The pool *)
Lemma fill_dom i n m : dom (fill i n m) = list_to_set (seqZ i (Z.of_nat n)) ∪ dom m.
Proof.
  revert i m. induction n as [|n IH]; intros i m; simpl fill; [simpl; set_solver|].
  rewrite IH, dom_insert_L, (seqZ_cons i (Z.of_nat (S n))) by lia.
  replace (Z.pred (Z.of_nat (S n))) with (Z.of_nat n) by lia.
  rewrite Z.add_1_r. simpl. set_solver.
Qed.

Definition unused (m : gmap Z RuntimeInfo) : Prop :=
  map_Forall (λ _ i, used i = false ∧ runtimeID i = ""%string) m.

Lemma fill_unused i n m : unused m → unused (fill i n m).
Proof.
  revert i m. induction n as [|n IH]; intros i m Hm; simpl; [done|].
  by apply IH, map_Forall_insert_2.
Qed.

Lemma unused_ok m : unused m → map_Forall entry_ok m ∧ omap owner_of m = ∅.
Proof.
  intros Hm. split.
  - intros p i Hp. unfold entry_ok. by destruct (Hm _ _ Hp) as [-> ->].
  - apply map_eq. intros p. rewrite lookup_omap, lookup_empty.
    destruct (m !! p) eqn:Hp; [|done]. simpl. unfold owner_of. by rewrite (proj1 (Hm _ _ Hp)).
Qed.

Lemma head_in_order_seqZ i n : 0 < n → head (in_order (list_to_set (seqZ i n))) = Some i.
Proof.
  intros Hn. apply head_in_order. setoid_rewrite elem_of_list_to_set. setoid_rewrite elem_of_seqZ.
  split; [lia|]. intros q Hq. lia.
Qed.

Lemma init_refine i n s :
  inv (InitPortResource i n s) ∧ ∀ inuse, abs (InitPortResource i n s) = (spec inuse (OpInit i n) (abs s)).2.
Proof.
  unfold InitPortResource. simpl. destruct (Z.ltb_spec MAX_PORT_NUM n); [split; [apply map_Forall_empty|done]|].
  assert (unused (fill i (Z.to_nat n) ∅)) as [Hok Hnone]%unused_ok by apply fill_unused, map_Forall_empty.
  split; [exact Hok|]. intros _. unfold abs. simpl. rewrite Hnone.
  unfold begin_key, keys. rewrite fill_dom, dom_empty_L, (right_id_L ∅ (∪)).
  destruct (Z.ltb_spec 0 n).
  - rewrite Z2Nat.id by lia. by rewrite head_in_order_seqZ by done.
  - destruct n; done || lia.
Qed.

(** ** Owners after an update *)
Definition hold_all (r : string) (ps : list Z) (m : gmap Z RuntimeInfo) : gmap Z RuntimeInfo :=
  foldl (λ m p, alter (hold r p) p m) m ps.

Lemma hold_all_lookup r ps m p :
  NoDup ps → hold_all r ps m !! p = (if decide (p ∈ ps) then hold r p <$> m !! p else m !! p).
Proof.
  revert m. induction ps as [|q ps IH]; intros m Hnd; [done|].
  apply NoDup_cons in Hnd as [Hq Hnd]. simpl. rewrite IH by done.
  destruct (decide (p = q)) as [->|Hne].
  - rewrite decide_False, decide_True by (done || left). by rewrite lookup_alter_eq.
  - rewrite lookup_alter_ne by done. repeat case_decide; set_solver.
Qed.

Lemma hold_all_dom r ps m : dom (hold_all r ps m) = dom m.
Proof. revert m. induction ps as [|p ps IH]; intros m; [done|]. simpl. by rewrite IH, dom_alter_L. Qed.

Lemma hold_all_ok r ps m : NoDup ps → map_Forall entry_ok m → map_Forall entry_ok (hold_all r ps m).
Proof.
  intros Hnd Hm p i. rewrite hold_all_lookup by done. case_decide; [|apply Hm].
  intros (j & _ & ->)%fmap_Some. done.
Qed.

Lemma give_lookup r ps o p : give r ps o !! p = (if decide (p ∈ ps) then Some r else o !! p).
Proof.
  unfold give. rewrite lookup_union. case_decide as Hp.
  - assert ((list_to_map ((λ p, (p, r)) <$> ps) : gmap Z string) !! p = Some r) as ->; [|by destruct (o !! p)].
    induction ps as [|q ps IH]; [by apply not_elem_of_nil in Hp|]. simpl.
    destruct (decide (p = q)) as [->|Hne]; [by rewrite lookup_insert_eq|].
    rewrite lookup_insert_ne by done. apply IH. set_solver.
  - rewrite not_elem_of_list_to_map_1; [by destruct (o !! p)|].
    rewrite <-list_fmap_compose. by rewrite list_elem_of_fmap; intros (? & -> & ?).
Qed.

Lemma hold_all_owners r ps m :
  NoDup ps → (∀ p, p ∈ ps → p ∈ dom m) → omap owner_of (hold_all r ps m) = give r ps (omap owner_of m).
Proof.
  intros Hnd Hin. apply map_eq. intros p. rewrite give_lookup, !lookup_omap, hold_all_lookup by done.
  case_decide as Hp; [|done]. apply Hin, elem_of_dom in Hp as [i ->]. done.
Qed.

(** ** Requests *)
Lemma free_lookup inuse s p i :
  portMap_ s !! p = Some i → free inuse (abs s) p ↔ used i || inuse p = false.
Proof.
  intros Hp. unfold free, abs. simpl. rewrite lookup_omap, Hp. simpl. unfold owner_of.
  destruct (used i), (inuse p); simpl; naive_solver.
Qed.

Lemma scan_one_eq inuse r order s :
  (∀ p, p ∈ order → p ∈ dom (portMap_ s)) →
  scan_one inuse r order (portMap_ s)
  = match filter (free inuse (abs s)) order with
    | [] => None
    | p :: _ => Some (p, hold_all r [p] (portMap_ s))
    end.
Proof.
  induction order as [|p order IH]; intros Hin; [done|]. simpl.
  assert (p ∈ dom (portMap_ s)) as [i Hp]%elem_of_dom by (apply Hin; left).
  assert (∀ q, q ∈ order → q ∈ dom (portMap_ s)) as Hin' by (intros q Hq; apply Hin; by right).
  rewrite Hp, filter_cons. pose proof (free_lookup inuse s p i Hp) as Hf.
  destruct (used i), (inuse p); simpl in Hf;
    first [rewrite decide_False by naive_solver; by apply IH | rewrite decide_True by naive_solver].
  unfold hold_all. simpl. do 2 f_equal. by rewrite (alter_alt_Some (hold r p) _ p i Hp).
Qed.

Lemma elem_of_candidates inuse t p : p ∈ candidates inuse t ↔ p ∈ pool t ∧ free inuse t p.
Proof. unfold candidates. rewrite list_elem_of_filter, elem_of_rotation. tauto. Qed.

Lemma NoDup_candidates inuse t : NoDup (candidates inuse t).
Proof. apply NoDup_filter, NoDup_rotation. Qed.

Lemma scan_one_candidates inuse r s :
  scan_one inuse r (scan_order (nextPort_ s) (portMap_ s)) (portMap_ s)
  = match candidates inuse (abs s) with
    | [] => None
    | p :: _ => Some (p, hold_all r [p] (portMap_ s))
    end.
Proof. apply scan_one_eq. intros p. apply elem_of_rotation. Qed.

Lemma request_refine inuse r s :
  inv s → let x := RequestPort inuse r s in
  inv x.2 ∧ (RPort x.1, abs x.2) = spec_request inuse r (abs s).
Proof.
  intros Hi. unfold RequestPort, spec_request. rewrite scan_one_candidates.
  change (open (abs s)) with (ready_ s).
  destruct (candidates inuse (abs s)) as [|p ps] eqn:Hc, (ready_ s); simpl; try (split; done).
  assert (p ∈ pool (abs s)) as Hp by (apply (elem_of_candidates inuse); rewrite Hc; left).
  rewrite advance_eq. simpl. split; [by apply (hold_all_ok r [p]); [apply NoDup_singleton|]|].
  unfold abs. simpl. f_equal. f_equal; [by rewrite dom_alter_L| |by rewrite dom_alter_L].
  change (alter (hold r p) p (portMap_ s)) with (hold_all r [p] (portMap_ s)).
  rewrite hold_all_owners; [|apply NoDup_singleton|set_solver].
  unfold give. simpl. by rewrite <-insert_union_l, (left_id_L ∅ (∪)).
Qed.

Definition tab (m : gmap Z RuntimeInfo) : Table := abs (mkState m 0 true).

Lemma free_hold inuse r p q m : p ≠ q → free inuse (tab (alter (hold r p) p m)) q ↔ free inuse (tab m) q.
Proof. intros Hne. unfold free, tab, abs. simpl. by rewrite !lookup_omap, lookup_alter_ne by done. Qed.

(** The loop takes the first usable ports of the scan. *)
Lemma scan_many_eq inuse r count order allocated m :
  NoDup order → (∀ p, p ∈ order → p ∈ dom m) →
  scan_many inuse r count order allocated m
  = let got := take (Z.to_nat (count - Z.of_nat (length allocated))) (filter (free inuse (tab m)) order) in
    (rev got ++ allocated, hold_all r got m).
Proof.
  revert allocated m. induction order as [|p order IH]; intros allocated m Hnd Hin; simpl.
  { rewrite filter_nil, take_nil. by case_match. }
  apply NoDup_cons in Hnd as [Hp Hnd].
  destruct (Z.ltb_spec (Z.of_nat (length allocated)) count) as [Hlt|Hge]; simpl.
  2: { by replace (Z.to_nat (count - Z.of_nat (length allocated))) with 0%nat by lia. }
  assert (p ∈ dom m) as [i Hi]%elem_of_dom by (apply Hin; left).
  assert (∀ q, q ∈ order → q ∈ dom m) as Hin' by (intros q Hq; apply Hin; by right).
  rewrite Hi, filter_cons. pose proof (free_lookup inuse (mkState m 0 true) p i Hi) as Hf.
  fold (tab m) in Hf. destruct (used i || inuse p).
  { rewrite decide_False by naive_solver. by apply IH. }
  rewrite decide_True by naive_solver.
  rewrite <-(alter_alt_Some (hold r p) _ p i Hi), IH by (done || rewrite dom_alter_L; done).
  rewrite (filter_iff_in _ (free inuse (tab m)) order)
    by (intros q Hq; apply free_hold; by intros ->).
  replace (Z.to_nat (count - Z.of_nat (length allocated)))
    with (S (Z.to_nat (count - Z.of_nat (length (p :: allocated))))) by (simpl; lia).
  simpl. by rewrite <-app_assoc.
Qed.

Lemma roll_back_lookup ps m p :
  roll_back ps m !! p = (if decide (p ∈ ps) then (λ _, released) <$> m !! p else m !! p).
Proof.
  induction ps as [|q ps IH]; simpl; [done|].
  destruct (decide (p = q)) as [->|Hne].
  - rewrite lookup_alter_eq, IH, (decide_True _ _ (list_elem_of_here q ps)). case_decide; [|done].
    by destruct (m !! q).
  - rewrite lookup_alter_ne, IH by done. repeat case_decide; set_solver.
Qed.

Lemma roll_back_dom ps m : dom (roll_back ps m) = dom m.
Proof. induction ps as [|p ps IH]; simpl; [done|]. by rewrite dom_alter_L. Qed.

(** Rolling back leaves the owners as they were. *)
Lemma roll_back_owners inuse r got m :
  NoDup got → (∀ p, p ∈ got → free inuse (tab m) p) →
  omap owner_of (roll_back got (hold_all r got m)) = omap owner_of m.
Proof.
  intros Hnd Hf. apply map_eq. intros p. rewrite !lookup_omap, roll_back_lookup, hold_all_lookup by done.
  case_decide as Hp; [|done]. destruct (Hf p Hp) as [Hp' _].
  unfold tab, abs in Hp'. simpl in Hp'. rewrite lookup_omap in Hp'. rewrite Hp'. by destruct (m !! p).
Qed.

Lemma roll_back_ok r got m :
  NoDup got → map_Forall entry_ok m → map_Forall entry_ok (roll_back got (hold_all r got m)).
Proof.
  intros Hnd Hm p i. rewrite roll_back_lookup, hold_all_lookup by done.
  case_decide; [|apply Hm]. by intros (? & _ & ->)%fmap_Some.
Qed.

Lemma get_ports_owned r s : GetPorts r s = owned r (abs s).
Proof.
  apply filter_iff_in. intros p _. unfold abs. simpl. rewrite lookup_omap.
  destruct (portMap_ s !! p) as [i|]; simpl; [|done]. unfold owned_by, owner_of.
  destruct (used i); simpl; [|done]. rewrite bool_decide_eq_true. naive_solver.
Qed.

Lemma scan_many_candidates inuse r count s :
  scan_many inuse r count (scan_order (nextPort_ s) (portMap_ s)) [] (portMap_ s)
  = let got := take (Z.to_nat count) (candidates inuse (abs s)) in (rev got, hold_all r got (portMap_ s)).
Proof.
  rewrite scan_many_eq by (apply NoDup_rotation || intros p; apply elem_of_rotation).
  simpl. rewrite Z.sub_0_r, app_nil_r. done.
Qed.

Lemma taken_ok inuse n s got :
  got = take n (candidates inuse (abs s)) →
  NoDup got ∧ (∀ p, p ∈ got → p ∈ dom (portMap_ s)) ∧ (∀ p, p ∈ got → free inuse (tab (portMap_ s)) p).
Proof.
  intros ->. assert (take n (candidates inuse (abs s)) `sublist_of` candidates inuse (abs s)) as Hsub
    by apply sublist_take.
  split; [eapply sublist_NoDup; [apply NoDup_candidates|exact Hsub]|].
  split; intros p Hp; by destruct (proj1 (elem_of_candidates _ _ _) (elem_of_sublist _ _ _ Hp Hsub)).
Qed.

Lemma request_many_refine inuse r count s :
  inv s → let x := RequestPorts inuse r count s in
  inv x.2 ∧ (RPorts x.1, abs x.2) = spec_request_many inuse r count (abs s).
Proof.
  intros Hi. unfold RequestPorts, spec_request_many. rewrite get_ports_owned, scan_many_candidates.
  change (open (abs s)) with (ready_ s). destruct (ready_ s) eqn:Hr; [|by split]. simpl orb.
  destruct (Z.leb_spec count 0) as [|Hc]; [by split|]. simpl negb. cbv iota.
  destruct (owned r (abs s)) as [|p0 l] eqn:Ho; [|by split].
  rewrite decide_False by naive_solver. cbv zeta.
  remember (take (Z.to_nat count) (candidates inuse (abs s))) as got eqn:Hgot.
  destruct (taken_ok _ _ _ _ Hgot) as (Hnd & Hin & Hfree).
  assert (length got ≤ Z.to_nat count)%nat by (subst; rewrite length_take; lia).
  cbn [fst snd]. rewrite length_rev.
  destruct (Z.ltb_spec (Z.of_nat (length got)) count) as [Hlt|Hge].
  - rewrite rev_involutive, decide_False by lia. split; [by apply roll_back_ok|].
    unfold abs. simpl. by rewrite roll_back_dom, hold_all_dom, (roll_back_owners inuse), Hr by done.
  - rewrite decide_True by lia.
    destruct (rev got) as [|p l] eqn:Hrev; [apply (f_equal length) in Hrev; rewrite length_rev in Hrev; simpl in Hrev; lia|].
    assert (got = rev l ++ [p]) as Hg by (by rewrite <-(rev_involutive got), Hrev).
    rewrite advance_eq. split; [by apply hold_all_ok|].
    rewrite <-Hrev, rev_involutive. unfold abs. simpl.
    by rewrite hold_all_dom, hold_all_owners, Hg, last_snoc by done.
Qed.

(** ** Reading and releasing *)
Lemma owner_abs s p : owner (abs s) !! p = portMap_ s !! p ≫= owner_of.
Proof. unfold abs. simpl. apply lookup_omap. Qed.

Lemma get_refine r s : inv s → GetPort r s = from_option pretty ""%string (head (owned r (abs s))).
Proof.
  intros Hi. unfold GetPort. rewrite get_ports_owned.
  destruct (owned r (abs s)) as [|p l] eqn:Ho; [done|]. simpl.
  assert (p ∈ owned r (abs s)) as [Hp _]%list_elem_of_filter by (rewrite Ho; left).
  rewrite owner_abs in Hp. apply bind_Some in Hp as (i & Hp & Hu). rewrite Hp. simpl. f_equal.
  specialize (Hi p i Hp). unfold entry_ok, owner_of in *. by destruct (used i).
Qed.

Lemma runtime_of s p :
  inv s → p ∈ dom (portMap_ s) →
  runtimeID <$> portMap_ s !! p = Some (default ""%string (owner (abs s) !! p)).
Proof.
  intros Hi [i Hp]%elem_of_dom. rewrite owner_abs, Hp. simpl.
  specialize (Hi p i Hp). unfold entry_ok, owner_of in *. by destruct (used i); simpl; f_equal.
Qed.

Lemma release_refine r s :
  inv s → let x := ReleasePort r s in inv x.2 ∧ (RInt x.1, abs x.2) = spec_release r (abs s).
Proof.
  intros Hi. unfold ReleasePort, spec_release.
  rewrite (filter_iff_in _ (λ p, default ""%string (owner (abs s) !! p) = r)).
  2: { intros p Hp%elem_of_in_order. rewrite runtime_of by done. naive_solver. }
  change (in_order (pool (abs s))) with (keys (portMap_ s)).
  destruct (filter _ _) as [|p l] eqn:Hf; [by split|]. simpl.
  split; [by apply map_Forall_insert_2|]. unfold set_owner, abs. simpl. do 2 f_equal.
  - assert (p ∈ dom (portMap_ s)); [|by rewrite dom_insert_L; set_solver].
    apply elem_of_in_order. change (in_order _) with (keys (portMap_ s)).
    assert (p ∈ p :: l) as Hp by left. rewrite <-Hf in Hp. by apply list_elem_of_filter in Hp as [_ ?].
  - by rewrite omap_insert_None.
Qed.

Lemma owned_by_owner r i : owned_by r i = bool_decide (owner_of i = Some r).
Proof.
  unfold owned_by, owner_of. destruct (used i); simpl; [|done]. apply bool_decide_ext. naive_solver.
Qed.

(** An entry of [r] given up and every other kept. *)
Lemma take_from_owners r m m' :
  (∀ p, m' !! p ≫= owner_of = m !! p ≫= λ i, if owned_by r i then None else owner_of i) →
  omap owner_of m' = take_from r (omap owner_of m).
Proof.
  intros Hm. apply map_eq. intros p. unfold take_from. rewrite lookup_omap, Hm, map_lookup_filter, lookup_omap.
  destruct (m !! p) as [i|]; simpl; [|done]. rewrite owned_by_owner.
  destruct (owner_of i) as [q|]; simpl; [|done].
  case_bool_decide; simplify_eq; by rewrite ?option_guard_True, ?option_guard_False by naive_solver.
Qed.

Lemma release_many_refine r s :
  inv s → inv (ReleasePorts r s) ∧ abs (ReleasePorts r s) = set_owner (take_from r (owner (abs s))) (abs s).
Proof.
  intros Hi. split.
  - intros p i. unfold ReleasePorts. simpl. rewrite lookup_fmap. intros (j & Hj & ->)%fmap_Some.
    case_match; [done|]. by apply Hi.
  - unfold set_owner, abs, ReleasePorts. simpl. rewrite dom_fmap_L. f_equal.
    apply take_from_owners. intros p. rewrite lookup_fmap. destruct (portMap_ s !! p); simpl; [|done].
    by case_match.
Qed.

(** ** One runtime's ports replaced *)
Lemma may_reconcile_iff r s ports reserved :
  may_reconcile r (portMap_ s) ports reserved = true
  ↔ NoDup ports ∧ Forall (may_hold r (abs s)) ports ∧ ∀ p, p ∈ ports → p ∉ reserved.
Proof.
  revert reserved. induction ports as [|p ports IH]; intros reserved; simpl.
  { split; [|done]. intros _. split_and!; [constructor|constructor|set_solver]. }
  rewrite NoDup_cons, Forall_cons. unfold may_hold at 1. rewrite owner_abs. simpl. rewrite elem_of_dom.
  destruct (portMap_ s !! p) as [i|]; simpl; [|naive_solver].
  destruct (bool_decide_reflect (p ∈ reserved)); simpl; [set_solver|].
  unfold owner_of. destruct (used i); simpl.
  - case_bool_decide; [naive_solver|]. rewrite IH. set_solver.
  - rewrite IH. set_solver.
Qed.

Lemma reconcile_refine r ports s :
  inv s → let x := ReconcileRuntimePorts r ports s in
  inv x.2 ∧ (RBool x.1, abs x.2) = spec_reconcile r ports (abs s).
Proof.
  intros Hi. unfold ReconcileRuntimePorts, spec_reconcile. change (open (abs s)) with (ready_ s).
  destruct (ready_ s) eqn:Hr; [|by rewrite decide_False by naive_solver]. simpl orb.
  case_bool_decide as Hempty; [by rewrite decide_False by naive_solver|].
  pose proof (may_reconcile_iff r s ports ∅) as Hmay.
  destruct (may_reconcile r (portMap_ s) ports ∅); simpl.
  2: { rewrite decide_False; [done|]. intros (_ & _ & Hnd & Hall).
    discriminate (proj2 Hmay). split_and!; [done..|set_solver]. }
  destruct (proj1 Hmay eq_refl) as (Hnd & Hhold & _). rewrite decide_True by done.
  set (m := map_imap _ _).
  change (foldl _ m ports) with (hold_all r ports m).
  assert (∀ p, m !! p = (λ i, if owned_by r i then cleared p else i) <$> portMap_ s !! p) as Hm.
  { intros p. unfold m. rewrite map_lookup_imap. by destruct (portMap_ s !! p). }
  assert (dom m = dom (portMap_ s)) as Hdom.
  { apply set_eq. intros p. by rewrite !elem_of_dom, Hm, fmap_is_Some. }
  split.
  - apply hold_all_ok; [done|]. intros p i. rewrite Hm. intros (j & Hj & ->)%fmap_Some.
    case_match; [done|]. by apply Hi.
  - unfold set_owner, abs. simpl. rewrite hold_all_dom, Hdom, Hr, hold_all_owners; [|done|].
    + do 3 f_equal. apply take_from_owners. intros p. rewrite Hm. destruct (portMap_ s !! p); simpl; [|done].
      by case_match.
    + intros p Hp. rewrite Hdom. rewrite Forall_forall in Hhold. apply (Hhold p Hp).
Qed.

(** ** The whole cache replaced *)
Fixpoint reserve_pairs (ps : list (Z * string)) (a : gmap Z RuntimeInfo * gset Z)
    : option (gmap Z RuntimeInfo * gset Z) :=
  match ps with
  | [] => Some a
  | (p, r) :: ps =>
      a ← reserve_ports r [p] a; reserve_pairs ps a
  end.
Definition place (ps : list (Z * string)) (m : gmap Z RuntimeInfo) : gmap Z RuntimeInfo :=
  foldl (λ m x, alter (hold x.2 x.1) x.1 m) m ps.

Lemma reserve_pairs_app ps qs a : reserve_pairs (ps ++ qs) a = reserve_pairs ps a ≫= reserve_pairs qs.
Proof.
  revert a. induction ps as [|[p r] ps IH]; intros a; [done|]. simpl.
  repeat case_match; simpl; done || apply IH.
Qed.

Lemma reserve_ports_pairs r ports a : reserve_ports r ports a = reserve_pairs ((λ p, (p, r)) <$> ports) a.
Proof.
  revert a. induction ports as [|p ports IH]; intros a; [done|]. simpl.
  destruct (a.1 !! p); [|done]. case_bool_decide; [done|]. simpl. apply IH.
Qed.

Lemma reserve_all_pairs l a :
  reserve_all l a = if decide (""%string ∈ l.*1) then None else reserve_pairs (pairs l) a.
Proof.
  revert a. induction l as [|[r ports] l IH]; intros a; [done|]. simpl.
  case_bool_decide as Hr; [by rewrite decide_True by (subst; left)|].
  change (pairs ((r, ports) :: l)) with (((λ p, (p, r)) <$> ports) ++ pairs l).
  rewrite reserve_pairs_app, reserve_ports_pairs.
  destruct (reserve_pairs _ a) as [a'|]. 2: { clear IH. by case_match. }
  cbn [mbind option_bind].
  rewrite IH, (decide_ext (""%string ∈ l.*1) (""%string ∈ r :: l.*1)); [done|]. rewrite elem_of_cons. naive_solver.
Qed.

Lemma reserve_pairs_eq ps m R :
  reserve_pairs ps (m, R)
  = if decide (NoDup ps.*1 ∧ Forall (λ p, p ∈ dom m ∧ p ∉ R) ps.*1)
    then Some (place ps m, list_to_set ps.*1 ∪ R) else None.
Proof.
  revert m R. induction ps as [|[p r] ps IH]; intros m R.
  { rewrite decide_True by (split; constructor). simpl. by rewrite (left_id_L ∅ (∪)). }
  rewrite fmap_cons. simpl reserve_pairs.
  rewrite (decide_ext _ ((p ∉ ps.*1 ∧ NoDup ps.*1)
    ∧ (p ∈ dom m ∧ p ∉ R) ∧ Forall (λ q, q ∈ dom m ∧ q ∉ R) ps.*1)) by (by rewrite NoDup_cons, Forall_cons).
  destruct (m !! p) as [i|] eqn:Hp.
  2: { rewrite decide_False; [done|]. rewrite elem_of_dom, Hp. intros (_ & [[? [=]] _] & _). }
  assert (p ∈ dom m) by by apply elem_of_dom.
  destruct (bool_decide_reflect (p ∈ R)); [by rewrite decide_False by (intros (_ & [_ ?] & _); done)|].
  cbn [mbind option_bind]. rewrite <-(alter_alt_Some (hold r p) _ p i Hp), IH, dom_alter_L.
  rewrite (decide_ext _ ((p ∉ ps.*1 ∧ NoDup ps.*1)
    ∧ (p ∈ dom m ∧ p ∉ R) ∧ Forall (λ q, q ∈ dom m ∧ q ∉ R) ps.*1)) by (rewrite !Forall_forall; set_solver).
  case_decide; [|done]. do 2 f_equal. simpl. set_solver.
Qed.

Lemma place_dom ps m : dom (place ps m) = dom m.
Proof. revert m. induction ps as [|[p r] ps IH]; intros m; [done|]. simpl. by rewrite IH, dom_alter_L. Qed.

Lemma place_ok ps m : map_Forall entry_ok m → map_Forall entry_ok (place ps m).
Proof.
  revert m. induction ps as [|[p r] ps IH]; intros m Hm; [done|]. simpl. apply IH.
  intros q i. destruct (decide (p = q)) as [->|Hne].
  - rewrite lookup_alter_eq. by intros (? & _ & ->)%fmap_Some.
  - rewrite lookup_alter_ne by done. apply Hm.
Qed.

Lemma place_owners ps m :
  NoDup ps.*1 → Forall (λ p, p ∈ dom m) ps.*1 → omap owner_of (place ps m) = list_to_map ps ∪ omap owner_of m.
Proof.
  revert m. induction ps as [|[p r] ps IH]; intros m Hnd Hin; simpl; [by rewrite (left_id_L ∅ (∪))|].
  apply NoDup_cons in Hnd as [Hp Hnd]. apply Forall_cons in Hin as [Hpm Hin].
  rewrite IH; [|done|by rewrite dom_alter_L].
  change (alter (hold r p) p m) with (hold_all r [p] m).
  rewrite hold_all_owners; [|apply NoDup_singleton|set_solver]. unfold give. simpl.
  rewrite <-insert_union_l, (left_id_L ∅ (∪)), <-insert_union_r, insert_union_l; [done|].
  by apply not_elem_of_list_to_map_1.
Qed.

(** The largest of a list depends only on its elements. *)
Lemma foldr_max_spec p l : foldr Z.max p l ∈ p :: l ∧ ∀ q, q ∈ p :: l → q ≤ foldr Z.max p l.
Proof.
  induction l as [|x l [IH1 IH2]]; simpl; [set_solver by lia|]. split.
  - destruct (Z.max_spec x (foldr Z.max p l)) as [[_ ->]|[_ ->]]; set_solver.
  - intros q Hq. assert (q = x ∨ q ∈ p :: l) as [->|Hq'] by set_solver; [lia|].
    specialize (IH2 q Hq'). lia.
Qed.

Lemma foldr_max_unique p l q k :
  (∀ x, x ∈ p :: l ↔ x ∈ q :: k) → foldr Z.max p l = foldr Z.max q k.
Proof.
  intros Hx. destruct (foldr_max_spec p l) as [H1 H2], (foldr_max_spec q k) as [H3 H4].
  apply Z.le_antisymm; [apply H4, Hx, H1|apply H2, Hx, H3].
Qed.

Lemma cleared_map (m : gmap Z RuntimeInfo) :
  unused (map_imap (λ p _, Some (cleared p)) m) ∧ dom (map_imap (λ p _, Some (cleared p)) m) = dom m.
Proof.
  split.
  - intros p i. rewrite map_lookup_imap. intros (? & _ & [= <-])%bind_Some. done.
  - apply set_eq. intros p. rewrite !elem_of_dom, map_lookup_imap. destruct (m !! p); simpl; naive_solver.
Qed.

Lemma valid_reservations_iff m P :
  valid_reservations m P ↔ ""%string ∉ (std_map_list m).*1
    ∧ NoDup (pairs (std_map_list m)).*1
    ∧ Forall (λ p, p ∈ P ∧ p ∉ (∅ : gset Z)) (pairs (std_map_list m)).*1.
Proof.
  unfold valid_reservations.
  assert (m !! ""%string = None ↔ ""%string ∉ (std_map_list m).*1) as ->.
  { rewrite eq_None_not_Some, list_elem_of_fmap. apply not_iff_compat. split.
    - intros [l Hl]. exists (""%string, l). by rewrite elem_of_std_map_list.
    - intros ([k l] & -> & Hl%elem_of_std_map_list). by exists l. }
  rewrite !Forall_forall. pose proof (not_elem_of_empty (C := gset Z)). naive_solver.
Qed.

(** The cursor is put behind the largest port of the reservations. *)
Lemma behind_reserved ps c b m :
  (match elements ((list_to_set ps ∪ ∅) : gset Z) with
   | [] => mkState m c b
   | p :: l => AdvanceAllocationCursor (foldr Z.max p l) (mkState m c b)
   end) = mkState m (match ps with
                     | [] => c
                     | p :: l => next_after (foldr Z.max p l) (dom m)
                     end) b.
Proof.
  destruct ps as [|q k].
  { simpl. by rewrite (left_id_L ∅ (∪)), elements_empty. }
  assert (∀ x, x ∈ elements ((list_to_set (q :: k) ∪ ∅) : gset Z) ↔ x ∈ q :: k) as Hx.
  { intros x. rewrite elem_of_elements, (right_id_L ∅ (∪)). apply elem_of_list_to_set. }
  destruct (elements _) as [|p l].
  - destruct (not_elem_of_nil q). apply Hx. left.
  - rewrite advance_eq, (foldr_max_unique _ _ _ _ Hx). done.
Qed.

Lemma rebuild_refine m s :
  inv s → let x := RebuildPorts m s in inv x.2 ∧ (RBool x.1, abs x.2) = spec_rebuild m (abs s).
Proof.
  intros Hi. unfold RebuildPorts, spec_rebuild. change (pool (abs s)) with (dom (portMap_ s)).
  destruct (cleared_map (portMap_ s)) as [[Hok Hnone]%unused_ok Hdom].
  rewrite (decide_ext _ _ _ _ (valid_reservations_iff m (dom (portMap_ s)))), reserve_all_pairs, reserve_pairs_eq, Hdom.
  destruct (decide (""%string ∈ (std_map_list m).*1)) as [He|He];
    [by rewrite decide_False by naive_solver|].
  destruct (decide (NoDup (pairs (std_map_list m)).*1 ∧ _)) as [[Hnd Hall]|Hbad];
    [|by rewrite decide_False by naive_solver].
  rewrite decide_True by done. cbv zeta. rewrite behind_reserved. simpl. split; [by apply place_ok|].
  assert (Forall (λ p, p ∈ dom (portMap_ s)) (pairs (std_map_list m)).*1) as Hin
    by (eapply Forall_impl; [exact Hall|]; by intros ? []).
  unfold abs. simpl. rewrite place_owners, place_dom, Hdom, Hnone, (right_id_L ∅ (∪)) by (done || by rewrite Hdom).
  unfold begin_key, keys. by rewrite place_dom, Hdom.
Qed.

(** C16: the port pool refines the table of owners.  From a well-formed pool
    every operation of the port manager answers what the table answers, leads
    to the table's next state and keeps the pool well formed: a request for
    [n] ports gives the first [n] ports of the scan that nobody owns and the
    system does not use, and changes no owner when there are fewer; a rebuild
    gives exactly the reserved ports or changes nothing; a reconciliation
    replaces the ports of one runtime or changes nothing; a release frees the
    runtime's ports and no other. *)
Theorem ports_refine inuse op s :
  inv s → let x := run inuse op s in inv x.2 ∧ (x.1, abs x.2) = spec inuse op (abs s).
Proof.
  intros Hi. destruct op as [i n| |m|r|r n|r l|r|r|r|r|]; simpl.
  - destruct (init_refine i n s) as [? Ha]. split; [done|]. by rewrite (Ha inuse).
  - done.
  - by apply rebuild_refine.
  - by apply request_refine.
  - by apply request_many_refine.
  - by apply reconcile_refine.
  - by rewrite get_refine.
  - by rewrite get_ports_owned.
  - by apply release_refine.
  - by destruct (release_many_refine r s Hi) as [? ->].
  - split; [apply map_Forall_empty|done].
Qed.

(** A pool of three ports of which the system uses the first. *)
Definition demo : State := InitPortResource 500 3 (mkState ∅ (-1) false).
Definition demo_inuse (p : Z) : bool := p =? 500.

Lemma demo_inv : inv demo.
Proof. apply init_refine. Qed.
Lemma demo_run : (run demo_inuse (OpRequestMany "r" 2) demo).1 = RPorts [501; 502].
Proof. vm_compute. reflexivity. Qed.

Lemma ports_refine_witness :
  (run demo_inuse (OpRequestMany "r" 2) demo).1 = RPorts [501; 502]
  ∧ inv (run demo_inuse (OpRequestMany "r" 2) demo).2
  ∧ ((run demo_inuse (OpRequestMany "r" 2) demo).1, abs (run demo_inuse (OpRequestMany "r" 2) demo).2)
    = spec demo_inuse (OpRequestMany "r" 2) (abs demo).
Proof. split; [exact demo_run|]. exact (ports_refine demo_inuse (OpRequestMany "r" 2) demo demo_inv). Defined.

(** A port that was given out is the last one of the next scan. *)
Lemma given_port_last p P : p ∈ P → last (rotation (next_after p P) P) = Some p.
Proof.
  intros (l & k & Ho & Hs & Hl & Hk)%in_order_around. unfold rotation, next_after. rewrite Ho.
  assert (filter (λ q, p < q) (l ++ p :: k) = k) as ->.
  { rewrite filter_app, filter_cons, decide_False, (filter_all _ k), (filter_other _ l); [done| |done|lia].
    eapply Forall_impl; [exact Hl|]. simpl. lia. }
  destruct k as [|x k]; simpl.
  - assert (∀ h, default h (head (l ++ [p])) = default (-1) (head (l ++ [p]))) as Hh by (intros h; by destruct l).
    assert (Forall (λ q, default (-1) (head (l ++ [p])) ≤ q) (l ++ [p])) as Hall.
    { destruct (l ++ [p]) as [|h t]; [done|]. inversion_clear Hs. simpl. by constructor. }
    rewrite filter_all, filter_other, app_nil_r by
      (exact Hall || (eapply Forall_impl; [exact Hall|]; simpl; lia)). apply last_snoc.
  - apply StronglySorted_app_1_r in Hs. inversion_clear Hs as [|?? Hs' _]. inversion_clear Hs' as [|?? _ Hx].
    apply Forall_cons in Hk as [Hpx Hk].
    replace (filter (λ q, q < x) (l ++ p :: x :: k)) with (l ++ [p]); [by rewrite app_assoc, last_snoc|].
    rewrite filter_app, !filter_cons, decide_True, decide_False, (filter_other _ k), (filter_all _ l); [done|..]; try lia.
    + eapply Forall_impl; [exact Hl|]. simpl. lia.
    + eapply Forall_impl; [exact Hx|]. simpl. lia.
Qed.

(** Every first port the configuration accepts but 0 and 1, with the default
    size of the pool, puts numbers into it that are not ports. *)
Lemma pool_beyond_ports i n s :
  2 ≤ i ≤ 65535 → n = 65535 → 65536 ∈ dom (portMap_ (InitPortResource i n s)).
Proof.
  intros Hi Hn. destruct (init_refine i n s) as [_ Ha]. specialize (Ha (λ _, false)).
  apply (f_equal pool) in Ha. simpl in Ha. rewrite Ha.
  destruct (Z.ltb_spec MAX_PORT_NUM n); [unfold MAX_PORT_NUM in *; lia|].
  apply elem_of_list_to_set, elem_of_seqZ. lia.
Qed.

Lemma request_beyond_ports :
  let s := (RequestPort (λ _, false) "a" (InitPortResource 65535 2 (mkState ∅ (-1) false))).2 in
  (RequestPort (λ _, false) "b" s).1 = "65536"%string.
Proof. vm_compute. reflexivity. Qed.
End PortsProps.
