(* ===== verification/Timers.v ===== *)
(** * The timers of the actor library ([litebus/src/timer/timertools.cpp])

    A pool of timers by deadline, one run timer of the operating system that is
    armed for the next tick, and a watch timer that looks at the pool every
    twenty seconds.  The clock is read where the code reads it: its values are
    arguments.  What a timer runs is a value of a type [A]. *)

From S2P Require Import Prelude IntMap.
From Stdlib Require Import ZArith Lia.
From stdpp Require Import base gmap list.

Open Scope Z_scope.

Module Timers.

Definition SCAN_TIMERPOOL_DELAY : Z := 30.

Section timers.
Context {A : Type}.

(** The thunk of a default constructed timer aborts the process: [None]. *)
Record Timer := mkTimer { id : Z; t : Z; thunk : option A }.
Definition default_timer (now : Z) : Timer := mkTimer 0 now None.

Abbreviation TimerPoolType := (gmap Z (list Timer)).

(** [run_timer]: when the run timer goes off; [next_id]: the static counter of
    [AddTimer]. *)
Record State := mkState {
  g_timerPool : TimerPoolType; g_ticks : Z; run_timer : option Z; next_id : Z; initStatus : bool }.

Definition set_pool (p : TimerPoolType) (s : State) : State :=
  mkState p (g_ticks s) (run_timer s) (next_id s) (initStatus s).
Definition set_ticks (k : Z) (s : State) : State :=
  mkState (g_timerPool s) k (run_timer s) (next_id s) (initStatus s).
Definition set_run (r : option Z) (s : State) : State :=
  mkState (g_timerPool s) (g_ticks s) r (next_id s) (initStatus s).

Definition In (now duration : Z) : Z := (now + duration) mod 2 ^ 64.

Definition NextTick (p : TimerPoolType) : Z := default 0 (head (keys p)).

(** [ok]: the calls of the operating system that create and start the run
    timer succeed. *)
Definition CreateTimerToLoop (ok : bool) (now delay : Z) (s : State) : State :=
  set_run (if ok then Some (now + delay) else None) s.

Definition ScheduleTick (ok : bool) (nowTime : Z) (s : State) : State :=
  let nextTick := NextTick (g_timerPool s) in
  if nextTick =? 0 then s
  else if negb ((g_ticks s =? 0) || (nextTick <? g_ticks s)) then s
  else if nowTime <? nextTick then
    CreateTimerToLoop ok nowTime (nextTick - nowTime) (set_ticks nextTick s)
  else
    CreateTimerToLoop ok nowTime SCAN_TIMERPOOL_DELAY (set_ticks (SCAN_TIMERPOOL_DELAY + nowTime) s).

(** The timers whose deadline has passed, and the pool without them. *)
Definition due (now : Z) (p : TimerPoolType) : list Timer :=
  filter (λ k, k ≤ now) (keys p) ≫= λ k, default [] (p !! k).
Definition later (now : Z) (p : TimerPoolType) : TimerPoolType := filter (λ x, now < x.1) p.

(** The run timer went off.  Its event is read, the timers that passed leave
    the pool; the result is what [ExecTimers] runs. *)
Definition ScanTimerPool (ok : bool) (now nowTime : Z) (s : State) : list Timer * State :=
  (due now (g_timerPool s),
   ScheduleTick ok nowTime (set_ticks 0 (set_run None (set_pool (later now (g_timerPool s)) s)))).

(** The watch timer went off. *)
Definition CheckPassedTimer (ok : bool) (now nowTime : Z) (s : State) : list Timer * State :=
  let s' := set_pool (later now (g_timerPool s)) s in
  (due now (g_timerPool s),
   ScheduleTick ok nowTime (if g_ticks s' <=? now then set_ticks 0 s' else s')).

(** [run]: the thunk that is run at once. *)
Definition AddTimer (ok : bool) (now nowTime duration : Z) (f : A) (s : State) : option A * Timer * State :=
  if negb (initStatus s) then (None, default_timer now, s)
  else if duration =? 0 then (Some f, default_timer now, s)
  else
    let timer := mkTimer (next_id s) (In now duration) (Some f) in
    let p := g_timerPool s in
    let s' := mkState (<[t timer := default [] (p !! t timer) ++ [timer]]> p)
                (g_ticks s) (run_timer s) (next_id s + 1) (initStatus s) in
    if Nat.eqb (size p) 0 || (t timer <? default 0 (head (keys p))) then
      (None, timer, ScheduleTick ok nowTime s')
    else (None, timer, s').

Definition Cancel (timer : Timer) (s : State) : bool * State :=
  if negb (initStatus s) then (false, s)
  else
    match g_timerPool s !! t timer with
    | None => (false, s)
    | Some l =>
        let l' := filter (λ x, id x ≠ id timer) l in
        (true, set_pool (if bool_decide (length l' = 0%nat) then delete (t timer) (g_timerPool s)
                         else <[t timer := l']> (g_timerPool s)) s)
    end.

(** The tick is kept. *)
Definition Initialize (s : State) : State := mkState ∅ (g_ticks s) (run_timer s) (next_id s) true.
Definition Finalize (s : State) : State :=
  if negb (initStatus s) then s
  else mkState (g_timerPool s) (g_ticks s) None (next_id s) false.

Definition boot : State := Initialize (mkState ∅ 0 None 1 false).
End timers.
Arguments Timer : clear implicits.
Arguments State : clear implicits.
End Timers.
