(* ===== verification/TimersProps.v ===== *)
(** * No timer is lost, early or run twice

    Threads add and cancel timers, the loop's thread scans the pool when the
    run timer or the watch timer goes off, and the clock moves on.  [Sys] keeps
    beside the state what was added, run and cancelled. *)

From S2P Require Import Prelude IntMap Timers.
From Stdlib Require Import ZArith Lia.
From stdpp Require Import base gmap list relations.

Open Scope Z_scope.

Module TimersProps.
Import Timers.

Section props.
Context {A : Type}.
Implicit Types (tm : Timer A) (s : State A).

Record Sys := mkSys {
  st : State A; clock : Z;
  added : list (Timer A); ran : list (Z * Timer A); cancelled : list (Timer A) }.

Definition taken (tm : Timer A) (s : State A) : list (Timer A) :=
  filter (λ x, id x = id tm) (default [] (g_timerPool s !! t tm)).

(** [AddTimer] reads the clock for the deadline before it takes the lock, and
    again when it schedules the tick. *)
Inductive step : Sys → Sys → Prop :=
  | step_add x now nowTime duration f :
      clock x ≤ nowTime → now ≤ nowTime → 0 < now → 0 < duration → now + duration < 2 ^ 64 →
      let r := AddTimer true now nowTime duration f (st x) in
      step x (mkSys r.2 nowTime (added x ++ [r.1.2]) (ran x) (cancelled x))
  | step_cancel x tm :
      tm ∈ added x →
      step x (mkSys (Cancel tm (st x)).2 (clock x) (added x) (ran x) (cancelled x ++ taken tm (st x)))
  | step_scan x k now nowTime :
      run_timer (st x) = Some k → k ≤ now → clock x ≤ now → now ≤ nowTime →
      let r := ScanTimerPool true now nowTime (st x) in
      step x (mkSys r.2 nowTime (added x) (ran x ++ ((now,.) <$> r.1)) (cancelled x))
  | step_watch x now nowTime :
      clock x ≤ now → now ≤ nowTime →
      let r := CheckPassedTimer true now nowTime (st x) in
      step x (mkSys r.2 nowTime (added x) (ran x ++ ((now,.) <$> r.1)) (cancelled x))
  | step_clock x c : clock x ≤ c → step x (mkSys (st x) c (added x) (ran x) (cancelled x)).

Definition start (c : Z) : Sys := mkSys boot c [] [] [].

Definition in_pool (s : State A) (tm : Timer A) : Prop := tm ∈ default [] (g_timerPool s !! t tm).

(** ** The tick *)
Definition armed (s : State A) (c : Z) : Prop :=
  (g_ticks s = 0 ∧ g_timerPool s = ∅)
  ∨ (0 < g_ticks s ∧ run_timer s = Some (g_ticks s)
     ∧ ∀ k, k ∈ dom (g_timerPool s) → g_ticks s ≤ Z.max k (c + SCAN_TIMERPOOL_DELAY)).

Lemma armed_later s c c' : c ≤ c' → armed s c → armed s c'.
Proof. intros Hc [?|(? & ? & Hk)]; [by left|]. right. split_and!; [done..|]. intros k Hin. specialize (Hk k Hin). lia. Qed.

Lemma next_tick_least (p : gmap Z (list (Timer A))) :
  (∀ k, k ∈ dom p → 0 < k) →
  (NextTick p = 0 ∧ p = ∅) ∨ (0 < NextTick p ∧ ∀ k, k ∈ dom p → NextTick p ≤ k).
Proof.
  intros Hpos. unfold NextTick, keys. destruct (head (in_order (dom p))) as [k|] eqn:Hh; simpl.
  - apply head_in_order in Hh as [Hk Hmin]. right. split; [by apply Hpos|done].
  - left. split; [done|]. by apply dom_empty_iff_L, head_in_order_None.
Qed.

Lemma schedule_pool ok c s :
  g_timerPool (ScheduleTick ok c s) = g_timerPool s ∧ next_id (ScheduleTick ok c s) = next_id s
  ∧ initStatus (ScheduleTick ok c s) = initStatus s.
Proof. unfold ScheduleTick. by repeat case_match. Qed.

(** A tick that was set is armed or replaced by an earlier one. *)
Lemma schedule_armed c s :
  0 < c → (∀ k, k ∈ dom (g_timerPool s) → 0 < k) →
  g_ticks s = 0 ∨ (0 < g_ticks s ∧ run_timer s = Some (g_ticks s)) →
  armed (ScheduleTick true c s) c.
Proof.
  intros Hc Hpos Ht. unfold ScheduleTick, CreateTimerToLoop, armed, SCAN_TIMERPOOL_DELAY.
  destruct (next_tick_least _ Hpos) as [[-> Hp]|[Hn Hmin]]; simpl.
  { destruct Ht as [?|[? ?]]; [by left|]. right. split_and!; [done..|]. rewrite Hp. set_solver. }
  destruct (Z.eqb_spec (NextTick (g_timerPool s)) 0); [lia|].
  destruct (Z.eqb_spec (g_ticks s) 0), (Z.ltb_spec (NextTick (g_timerPool s)) (g_ticks s)); cbn [orb negb];
    try (destruct (Z.ltb_spec c (NextTick (g_timerPool s))); cbn [g_ticks run_timer g_timerPool set_run set_ticks];
         right; (split_and!; [lia|f_equal; lia|]); intros k Hk; specialize (Hmin k Hk); lia).
  destruct Ht as [?|[? ?]]; [done|]. right. split_and!; [done..|]. intros k Hk. specialize (Hmin k Hk). lia.
Qed.

(** ** The pool *)
Definition pool_ok (p : gmap Z (list (Timer A))) (l : list (Timer A)) : Prop :=
  ∀ k ts, p !! k = Some ts → ts ≠ [] ∧ NoDup ts ∧ Forall (λ tm, t tm = k ∧ tm ∈ l) ts.

Record inv (x : Sys) : Prop := {
  i_clock : 0 < clock x;
  i_on : initStatus (st x) = true;
  i_armed : armed (st x) (clock x);
  i_pool : pool_ok (g_timerPool (st x)) (added x);
  i_ids : ∀ tm tm', tm ∈ added x → tm' ∈ added x → id tm = id tm' → tm = tm';
  i_next : 0 < next_id (st x);
  i_id : ∀ tm, tm ∈ added x → 0 < id tm < next_id (st x) ∧ 0 < t tm;
  i_once : NoDup (ran x).*2;
  i_ran : ∀ w tm, (w, tm) ∈ ran x → tm ∈ added x ∧ t tm ≤ w ≤ clock x ∧ ¬ in_pool (st x) tm;
  i_cancelled : ∀ tm, tm ∈ cancelled x → tm ∈ added x ∧ ¬ in_pool (st x) tm ∧ tm ∉ (ran x).*2;
  i_all : ∀ tm, tm ∈ added x → in_pool (st x) tm ∨ tm ∈ (ran x).*2 ∨ tm ∈ cancelled x;
}.

Lemma elem_of_due now p l tm :
  pool_ok p l → tm ∈ due now p ↔ tm ∈ default [] (p !! t tm) ∧ t tm ≤ now.
Proof.
  intros Hp. unfold due. rewrite list_elem_of_bind. split.
  - intros (k & Htm & [Hk _]%list_elem_of_filter).
    destruct (p !! k) as [ts|] eqn:Hts; simpl in Htm; [|by apply not_elem_of_nil in Htm].
    destruct (Hp k ts Hts) as (_ & _ & Hall). rewrite Forall_forall in Hall.
    destruct (Hall tm Htm) as [<- _]. by rewrite Hts.
  - intros [Htm Hle]. exists (t tm). split; [done|]. apply list_elem_of_filter. split; [done|].
    apply elem_of_keys. destruct (p !! t tm); [by eexists|by apply not_elem_of_nil in Htm].
Qed.

Lemma NoDup_due now p l : pool_ok p l → NoDup (due now p).
Proof.
  intros Hp. unfold due.
  assert (NoDup (filter (λ k, k ≤ now) (keys p))) as Hnd by apply NoDup_filter, NoDup_in_order.
  induction Hnd as [|k ks Hk Hnd IH]; simpl; [constructor|].
  apply NoDup_app. split_and!; [| |done].
  - destruct (p !! k) eqn:Hts; simpl; [by apply (Hp k)|constructor].
  - intros tm Htm (k' & Htm' & Hk')%list_elem_of_bind. apply Hk.
    destruct (p !! k) eqn:Hts; simpl in Htm; [|by apply not_elem_of_nil in Htm].
    destruct (p !! k') eqn:Hts'; simpl in Htm'; [|by apply not_elem_of_nil in Htm'].
    destruct (Hp k _ Hts) as (_ & _ & Hall), (Hp k' _ Hts') as (_ & _ & Hall').
    rewrite Forall_forall in Hall, Hall'.
    destruct (Hall tm Htm) as [<- _], (Hall' tm Htm') as [<- _]. done.
Qed.

Lemma later_lookup now (p : gmap Z (list (Timer A))) k :
  later now p !! k = if decide (now < k) then p !! k else None.
Proof.
  apply option_eq. intros ts. unfold later. rewrite map_lookup_filter_Some. simpl. case_decide; naive_solver.
Qed.

Lemma elem_of_later_dom now (p : gmap Z (list (Timer A))) k : k ∈ dom (later now p) → k ∈ dom p ∧ now < k.
Proof. rewrite !elem_of_dom, later_lookup. case_decide; [done|]. by intros []. Qed.

Lemma pool_ok_later now p l : pool_ok p l → pool_ok (later now p) l.
Proof. intros Hp k ts. rewrite later_lookup. case_decide; [apply Hp|done]. Qed.

Lemma pool_ok_pos x k : inv x → k ∈ dom (g_timerPool (st x)) → 0 < k.
Proof.
  intros Hi [ts Hts]%elem_of_dom. destruct (i_pool x Hi k ts Hts) as (Hne & _ & Hall).
  destruct ts as [|tm ts]; [done|]. apply Forall_cons in Hall as [[<- Htm] _]. by apply (i_id x Hi).
Qed.

(** The timers that passed leave the pool and are run. *)
Lemma inv_expire x now nowTime s :
  inv x → clock x ≤ now ≤ nowTime →
  g_timerPool s = later now (g_timerPool (st x)) → next_id s = next_id (st x) →
  initStatus s = true → armed s nowTime →
  inv (mkSys s nowTime (added x) (ran x ++ ((now,.) <$> due now (g_timerPool (st x)))) (cancelled x)).
Proof.
  intros Hi Hc Hpool Hid Hon Harm. pose proof (i_pool x Hi) as Hok.
  assert (∀ tm, in_pool s tm ↔ in_pool (st x) tm ∧ now < t tm) as Hin.
  { intros tm. unfold in_pool. rewrite Hpool, later_lookup. case_decide; simpl; [tauto|].
    split; [by intros ?%not_elem_of_nil|tauto]. }
  assert (((now,.) <$> due now (g_timerPool (st x))).*2 = due now (g_timerPool (st x))) as Hdue.
  { rewrite <-list_fmap_compose. apply list_fmap_id. }
  split; simpl; rewrite ?fmap_app, ?Hdue, ?Hid, ?Hpool; try done; try apply Hi.
  - pose proof (i_clock x Hi). lia.
  - by apply pool_ok_later.
  - apply NoDup_app. split_and!; [apply Hi| |by eapply NoDup_due].
    intros tm ([w tm'] & -> & Hr)%list_elem_of_fmap Hd%(elem_of_due _ _ _ _ Hok).
    apply (i_ran x Hi) in Hr as (_ & _ & Hn). apply Hn, Hd.
  - intros w tm [Hr|Hd]%elem_of_app.
    + apply (i_ran x Hi) in Hr as (? & ? & ?). rewrite Hin. split_and!; [done|lia..|naive_solver].
    + apply list_elem_of_fmap in Hd as (tm' & [= -> ->] & Hd).
      apply (elem_of_due _ _ _ _ Hok) in Hd as [Hp Hle]. rewrite Hin. split_and!; [|lia..].
      destruct (g_timerPool (st x) !! t tm') as [ts|] eqn:Hts; simpl in Hp; [|by apply not_elem_of_nil in Hp].
      destruct (Hok _ _ Hts) as (_ & _ & Hall). rewrite Forall_forall in Hall. by apply Hall.
  - intros tm Ht. apply (i_cancelled x Hi) in Ht as (? & Hn & ?). rewrite Hin, elem_of_app.
    split_and!; [done|naive_solver|]. intros [?|Hd%(elem_of_due _ _ _ _ Hok)]; naive_solver.
  - intros tm Ht. rewrite Hin, elem_of_app, (elem_of_due _ _ _ _ Hok).
    destruct (i_all x Hi tm Ht) as [Hp|[?|?]]; [|naive_solver..].
    destruct (Z.le_gt_cases (t tm) now); unfold in_pool in *; naive_solver.
Qed.

(** ** A timer is added *)
Lemma armed_tick s c : armed s c → g_ticks s = 0 ∨ (0 < g_ticks s ∧ run_timer s = Some (g_ticks s)).
Proof. intros [[? _]|(? & ? & _)]; auto. Qed.

Definition push (tm : Timer A) (s : State A) : State A :=
  mkState (<[t tm := default [] (g_timerPool s !! t tm) ++ [tm]]> (g_timerPool s))
    (g_ticks s) (run_timer s) (next_id s + 1) (initStatus s).

Lemma in_pool_push tm tm' s : in_pool (push tm s) tm' ↔ in_pool s tm' ∨ tm' = tm.
Proof.
  unfold in_pool, push. simpl. destruct (decide (t tm = t tm')) as [Heq|Hne].
  - rewrite Heq, lookup_insert_eq. simpl. rewrite elem_of_app, list_elem_of_singleton. done.
  - rewrite lookup_insert_ne by done. naive_solver.
Qed.

Lemma in_pool_added x tm : inv x → in_pool (st x) tm → tm ∈ added x.
Proof.
  unfold in_pool. intros Hi Hp. destruct (_ !! _) as [ts|] eqn:Hts; simpl in Hp; [|by apply not_elem_of_nil in Hp].
  destruct (i_pool x Hi _ _ Hts) as (_ & _ & Hall). rewrite Forall_forall in Hall. by apply Hall.
Qed.

Lemma inv_push x tm s c :
  inv x → clock x ≤ c → id tm = next_id (st x) → 0 < t tm →
  g_timerPool s = g_timerPool (push tm (st x)) → next_id s = next_id (st x) + 1 → initStatus s = true → armed s c →
  inv (mkSys s c (added x ++ [tm]) (ran x) (cancelled x)).
Proof.
  intros Hi Hc Hid Hpos Hpool Hnext Hon Harm.
  assert (∀ tm', in_pool s tm' ↔ in_pool (st x) tm' ∨ tm' = tm) as Hin.
  { intros tm'. rewrite <-in_pool_push. unfold in_pool. by rewrite Hpool. }
  assert (∀ tm', tm' ∈ added x → id tm' < id tm) as Hlt by (intros tm'; rewrite Hid; apply (i_id x Hi)).
  assert (tm ∉ added x) as Hfresh by (intros Hn%Hlt; lia).
  split; simpl; try done; try apply Hi.
  - pose proof (i_clock x Hi). lia.
  - rewrite Hpool. intros k ts. unfold push. simpl. destruct (decide (t tm = k)) as [<-|Hne].
    + rewrite lookup_insert_eq. intros [= <-].
      assert (NoDup (default [] (g_timerPool (st x) !! t tm))
        ∧ Forall (λ tm', t tm' = t tm ∧ tm' ∈ added x) (default [] (g_timerPool (st x) !! t tm))) as [Hnd Hall].
      { destruct (_ !! _) eqn:Hts; simpl; [|split; constructor]. by apply (i_pool x Hi). }
      split_and!; [by destruct (default _ _)| |].
      * apply NoDup_app. split_and!; [done| |apply NoDup_singleton].
        intros y Hy ->%list_elem_of_singleton. rewrite Forall_forall in Hall. by apply Hfresh, Hall.
      * apply Forall_app. split; [|constructor; [set_solver|constructor]].
        eapply Forall_impl; [exact Hall|]. set_solver.
    + rewrite lookup_insert_ne by done. intros (? & ? & Hall)%(i_pool x Hi). split_and!; [done..|].
      eapply Forall_impl; [exact Hall|]. set_solver.
  - intros y z [Hy| ->%list_elem_of_singleton]%elem_of_app [Hz| ->%list_elem_of_singleton]%elem_of_app Heq; try done.
    + by apply (i_ids x Hi).
    + apply Hlt in Hy. lia.
    + apply Hlt in Hz. lia.
  - rewrite Hnext. pose proof (i_next x Hi). lia.
  - rewrite Hnext. pose proof (i_next x Hi).
    intros y [Hy%(i_id x Hi)| ->%list_elem_of_singleton]%elem_of_app; lia.
  - intros w y Hr. destruct (i_ran x Hi w y Hr) as (? & ? & ?). rewrite Hin. split_and!; [set_solver|lia..|].
    intros [?| ->]; done.
  - intros y Hy. destruct (i_cancelled x Hi y Hy) as (? & ? & ?). rewrite Hin. split_and!; [set_solver| |done].
    intros [?| ->]; done.
  - intros y [Hy| ->%list_elem_of_singleton]%elem_of_app; rewrite Hin; [|by left; right].
    destruct (i_all x Hi y Hy) as [?|[?|?]]; auto.
Qed.

Lemma add_eq ok now nowTime duration f s :
  initStatus s = true → duration ≠ 0 →
  AddTimer ok now nowTime duration f s
  = let tm := mkTimer (next_id s) (In now duration) (Some f) in
    (None, tm, if Nat.eqb (size (g_timerPool s)) 0 || (t tm <? default 0 (head (keys (g_timerPool s))))
               then ScheduleTick ok nowTime (push tm s) else push tm s).
Proof.
  intros Hon Hd. unfold AddTimer. rewrite Hon. destruct (Z.eqb_spec duration 0); [done|].
  unfold push. rewrite Hon. cbv zeta. cbn [negb]. by destruct (_ || _).
Qed.

Lemma timer_add_effect ok now nowTime duration f s :
  initStatus s = true → duration ≠ 0 →
  let r := AddTimer ok now nowTime duration f s in
  r.1.2 = mkTimer (next_id s) (In now duration) (Some f) ∧ next_id r.2 = next_id s + 1
  ∧ ∀ tm, in_pool r.2 tm ↔ in_pool s tm ∨ tm = r.1.2.
Proof.
  intros Hon Hd. rewrite add_eq by done. simpl. set (tm := mkTimer _ _ _).
  destruct (schedule_pool ok nowTime (push tm s)) as (Hp & Hn & _).
  split_and!; [done|by case_match|]. intros tm'. rewrite <-in_pool_push.
  unfold in_pool. case_match; by rewrite ?Hp.
Qed.

Lemma add_armed x tm c :
  inv x → clock x ≤ c → 0 < t tm →
  armed (if Nat.eqb (size (g_timerPool (st x))) 0 || (t tm <? default 0 (head (keys (g_timerPool (st x)))))
         then ScheduleTick true c (push tm (st x)) else push tm (st x)) c.
Proof.
  intros Hi Hc Hpos. pose proof (i_armed x Hi) as Harm.
  destruct (_ || _) eqn:Hcase.
  - apply schedule_armed; [pose proof (i_clock x Hi); lia| |exact (armed_tick (st x) (clock x) Harm)].
    intros k. unfold push. simpl. rewrite dom_insert_L. intros [->%elem_of_singleton|Hk]%elem_of_union; [done|].
    by apply (pool_ok_pos x).
  - apply orb_false_iff in Hcase as [Hsize%Nat.eqb_neq Hle%Z.ltb_ge].
    apply map_size_ne_0_lookup_1 in Hsize as (k0 & Hk0).
    destruct Harm as [[_ Hp]|(Ht & Hr & Hall)]; [rewrite Hp, lookup_empty in Hk0; by destruct Hk0|].
    unfold keys in Hle. destruct (head _) as [k|] eqn:Hh; simpl in Hle.
    2: { apply head_in_order_None, dom_empty_iff_L in Hh. rewrite Hh, lookup_empty in Hk0. by destruct Hk0. }
    apply head_in_order in Hh as [Hk Hmin]. right. split_and!; [done..|]. unfold push. simpl.
    intros k'. rewrite dom_insert_L. intros [->%elem_of_singleton|Hk'%Hall]%elem_of_union; [|lia].
    specialize (Hall k Hk). lia.
Qed.

(** ** A timer is cancelled *)
Lemma elem_of_taken x tm tm' :
  inv x → tm ∈ added x → tm' ∈ taken tm (st x) ↔ tm' = tm ∧ in_pool (st x) tm.
Proof.
  intros Hi Htm. unfold taken. rewrite list_elem_of_filter. split; [|by intros [-> ?]].
  intros [Hid Hin]. assert (tm' = tm) as ->; [|done]. apply (i_ids x Hi); try done.
  destruct (_ !! _) eqn:Hts; simpl in Hin; [|by apply not_elem_of_nil in Hin].
  destruct (i_pool x Hi _ _ Hts) as (_ & _ & Hall). rewrite Forall_forall in Hall. by apply Hall.
Qed.

Lemma cancel_lookup tm s k :
  initStatus s = true → (∀ k ts, g_timerPool s !! k = Some ts → ts ≠ []) →
  g_timerPool (Cancel tm s).2 !! k
  = if decide (k = t tm)
    then ts ← g_timerPool s !! k; (let ts' := filter (λ x, id x ≠ id tm) ts in if ts' is [] then None else Some ts')
    else g_timerPool s !! k.
Proof.
  intros Hon Hne. unfold Cancel. rewrite Hon. simpl. case_decide as Hk; [subst|].
  - destruct (g_timerPool s !! t tm) as [ts|] eqn:Hts; simpl; [|done].
    destruct (filter _ ts); simpl; [by rewrite lookup_delete_eq|by rewrite lookup_insert_eq].
  - destruct (g_timerPool s !! t tm) as [ts|] eqn:Hts; simpl; [|done].
    case_bool_decide; by rewrite ?lookup_delete_ne, ?lookup_insert_ne by done.
Qed.

Lemma cancel_rest tm s :
  g_ticks (Cancel tm s).2 = g_ticks s ∧ run_timer (Cancel tm s).2 = run_timer s
  ∧ next_id (Cancel tm s).2 = next_id s ∧ initStatus (Cancel tm s).2 = initStatus s.
Proof. unfold Cancel. by repeat case_match. Qed.

Lemma in_pool_cancel x tm tm' :
  inv x → tm ∈ added x → in_pool (Cancel tm (st x)).2 tm' ↔ in_pool (st x) tm' ∧ tm' ≠ tm.
Proof.
  intros Hi Htm. unfold in_pool at 1. rewrite cancel_lookup; [|apply Hi|intros k ts Hts; by apply (i_pool x Hi k)].
  case_decide as Ht.
  - unfold in_pool. destruct (g_timerPool (st x) !! t tm') as [ts|] eqn:Hts; simpl; [|set_solver].
    trans (tm' ∈ filter (λ x, id x ≠ id tm) ts); [by destruct (filter _ ts)|].
    rewrite list_elem_of_filter. split; [naive_solver|]. intros [Hin Hne]. split; [|done].
    intros Hid. apply Hne. apply (i_ids x Hi); try done. apply (in_pool_added x tm' Hi).
    unfold in_pool. by rewrite Hts.
  - split; [|naive_solver]. intros ?. split; [done|]. by intros ->.
Qed.

Lemma inv_cancel x tm :
  inv x → tm ∈ added x →
  inv (mkSys (Cancel tm (st x)).2 (clock x) (added x) (ran x) (cancelled x ++ taken tm (st x))).
Proof.
  intros Hi Htm. destruct (cancel_rest tm (st x)) as (Hticks & Hrun & Hid & Hon).
  pose proof (λ k, cancel_lookup tm (st x) k (i_on x Hi) (λ k ts Hts, proj1 (i_pool x Hi k ts Hts))) as Hlook.
  split; simpl; try apply Hi.
  - rewrite Hon. apply Hi.
  - unfold armed. rewrite Hticks, Hrun. destruct (i_armed x Hi) as [[? Hp]|(? & ? & Hall)].
    + left. split; [done|]. apply map_eq. intros k. rewrite Hlook, Hp, lookup_empty. by case_decide.
    + right. split_and!; [done..|]. intros k [ts Hk]%elem_of_dom. apply Hall, elem_of_dom.
      rewrite Hlook in Hk. case_decide; [|by eexists]. apply bind_Some in Hk as (? & ? & _). by eexists.
  - intros k ts. rewrite Hlook. case_decide; [|apply (i_pool x Hi)].
    intros (ts0 & Hts & Hf)%bind_Some. destruct (i_pool x Hi k ts0 Hts) as (_ & Hnd & Hall).
    assert (ts = filter (λ x, id x ≠ id tm) ts0 ∧ ts ≠ []) as [-> Hne].
    { destruct (filter _ ts0); [done|]. by injection Hf as <-. }
    split_and!; [done|by apply NoDup_filter|]. rewrite Forall_forall in Hall |- *.
    intros y [_ Hy]%list_elem_of_filter. by apply Hall.
  - rewrite Hid. apply Hi.
  - rewrite Hid. apply Hi.
  - intros w y Hr. destruct (i_ran x Hi w y Hr) as (? & ? & ?). rewrite in_pool_cancel by done. naive_solver.
  - intros y [Hy|Hy]%elem_of_app; rewrite in_pool_cancel by done.
    + destruct (i_cancelled x Hi y Hy) as (? & ? & ?). naive_solver.
    + apply elem_of_taken in Hy as [-> Hin]; [|done..]. split_and!; [done|naive_solver|].
      intros ([w y] & -> & Hr)%list_elem_of_fmap. by destruct (i_ran x Hi w y Hr) as (_ & _ & []).
  - intros y Hy. rewrite in_pool_cancel, elem_of_app, elem_of_taken by done.
    destruct (i_all x Hi y Hy) as [?|[?|?]]; [|auto..].
    destruct (decide (id y = id tm)) as [E%(i_ids x Hi)|]; naive_solver.
Qed.

(** An id that no timer has: a default constructed timer. *)
Lemma cancel_unknown x tm : inv x → id tm = 0 → (Cancel tm (st x)).2 = st x ∧ taken tm (st x) = [].
Proof.
  intros Hi Hid. unfold Cancel, taken. rewrite (i_on x Hi). simpl.
  destruct (g_timerPool (st x) !! t tm) as [ts|] eqn:Hts; simpl; [|done].
  destruct (i_pool x Hi _ _ Hts) as (Hne & _ & Hall). rewrite Forall_forall in Hall.
  rewrite filter_all, filter_other; [|apply Forall_forall; intros y [_ Hy%(i_id x Hi)]%Hall; lia..].
  rewrite bool_decide_eq_false_2 by (by destruct ts). simpl. rewrite insert_id by done. by destruct (st x).
Qed.

(** ** Every step *)
Lemma timers_inv_step x y : inv x → step x y → inv y.
Proof.
  intros Hi Hs. destruct Hs as [x now nowTime duration f Hc Hn Hpos Hd Hb r|x tm Htm
    |x k now nowTime Hr Hk Hc Hn r|x now nowTime Hc Hn r|x c Hc]; subst.
  - subst r. rewrite add_eq by (apply Hi || lia).
    assert (In now duration = now + duration) as Hin by (apply Z.mod_small; lia).
    set (tm := mkTimer (next_id (st x)) (In now duration) (Some f)).
    assert (0 < t tm) by (simpl; lia).
    pose proof (add_armed x tm nowTime Hi Hc) as Harm.
    destruct (schedule_pool true nowTime (push tm (st x))) as (Hp & Hnx & Hon).
    apply inv_push; try done; [..|by apply Harm]; clear Harm; simpl; case_match; rewrite ?Hon; done || apply Hi.
  - by apply inv_cancel.
  - subst r. simpl. unfold ScanTimerPool.
    set (s' := set_ticks _ _). destruct (schedule_pool true nowTime s') as (Hp & Hnx & Hon).
    apply inv_expire; try done; [by rewrite Hon; apply Hi|].
    apply schedule_armed; [pose proof (i_clock x Hi); lia| |by left].
    intros k' [Hk' _]%(elem_of_later_dom). by apply (pool_ok_pos x).
  - subst r. simpl. unfold CheckPassedTimer. simpl.
    match goal with |- context [ScheduleTick _ _ ?z] => set (s' := z) end.
    assert (g_timerPool s' = later now (g_timerPool (st x)) ∧ next_id s' = next_id (st x)
      ∧ initStatus s' = initStatus (st x)) as (Hp' & Hnx' & Hon') by (subst s'; by case_match).
    destruct (schedule_pool true nowTime s') as (Hp & Hnx & Hon).
    apply inv_expire; rewrite ?Hp, ?Hnx, ?Hon; try done; [by rewrite Hon'; apply Hi|].
    apply schedule_armed; [pose proof (i_clock x Hi); lia| |].
    + rewrite Hp'. intros k' [Hk' _]%(elem_of_later_dom). by apply (pool_ok_pos x).
    + subst s'. destruct (_ <=? now); [by left|]. exact (armed_tick _ _ (i_armed x Hi)).
  - destruct Hi. split; simpl; try done; [lia|by eapply armed_later|].
    intros w y Hr. destruct (i_ran0 w y Hr) as (? & ? & ?). split_and!; [done|lia..|done].
Qed.

Lemma timers_inv_init c : 0 < c → inv (start c).
Proof.
  intros Hc. split; simpl; try done; try set_solver.
  - by left.
  - constructor.
Qed.

Lemma timers_inv c x : 0 < c → rtc step (start c) x → inv x.
Proof.
  intros Hc. revert x. apply rtc_ind_r; [by apply timers_inv_init|]. intros y z _ Hs Hi. by eapply timers_inv_step.
Qed.

(** A timer that waits has the run timer armed for it. *)
Lemma pool_armed x tm :
  inv x → in_pool (st x) tm →
  ∃ k, run_timer (st x) = Some k ∧ k ≤ Z.max (t tm) (clock x + SCAN_TIMERPOOL_DELAY).
Proof.
  intros Hi Hp. assert (t tm ∈ dom (g_timerPool (st x))) as Hdom.
  { apply elem_of_dom. unfold in_pool in Hp. destruct (_ !! _); [by eexists|by apply not_elem_of_nil in Hp]. }
  destruct (i_armed x Hi) as [[_ He]|(_ & ? & Hall)]; [rewrite He in Hdom; set_solver|]. eauto.
Qed.

(** A step that adds and cancels nothing only runs timers of the pool. *)
Lemma timers_step_frame x y :
  inv x → step x y → added y = added x → cancelled y = cancelled x →
  ∃ l, ran y = ran x ++ l ∧ next_id (st y) = next_id (st x)
    ∧ (∀ tm, tm ∈ l.*2 → in_pool (st x) tm) ∧ (∀ tm, in_pool (st y) tm → in_pool (st x) tm).
Proof.
  intros Hi Hs.
  assert (∀ now s, g_timerPool s = later now (g_timerPool (st x)) →
    (∀ tm, tm ∈ ((now,.) <$> due now (g_timerPool (st x))).*2 → in_pool (st x) tm)
    ∧ ∀ tm, in_pool s tm → in_pool (st x) tm) as Hexp.
  { intros now s Hs'. split.
    - intros tm. rewrite <-list_fmap_compose, list_fmap_id. by intros [? _]%(elem_of_due _ _ _ _ (i_pool x Hi)).
    - intros tm. unfold in_pool. rewrite Hs', later_lookup. case_decide; [done|]. by intros ?%not_elem_of_nil. }
  destruct Hs as [x now nowTime duration f Hc Hn Hpos Hd Hb r|x tm Htm
    |x k now nowTime Hr Hk Hc Hn r|x now nowTime Hc Hn r|x c Hc]; simpl; intros Ha Hcan.
  - apply (f_equal length) in Ha. rewrite length_app in Ha. simpl in Ha. lia.
  - exists []. rewrite app_nil_r. destruct (cancel_rest tm (st x)) as (_ & _ & -> & _).
    split_and!; [done..|by intros ? ?%not_elem_of_nil|].
    intros tm' Hp. apply in_pool_cancel in Hp; tauto.
  - exists ((now,.) <$> r.1). subst r. unfold ScanTimerPool. simpl. set (s' := set_ticks _ _).
    destruct (schedule_pool true nowTime s') as (Hp & -> & _). split; [done|]. split; [done|]. by apply Hexp.
  - exists ((now,.) <$> r.1). subst r. unfold CheckPassedTimer. simpl.
    match goal with |- context [ScheduleTick _ _ ?z] => set (s' := z) end.
    destruct (schedule_pool true nowTime s') as (Hp & -> & _). split; [done|].
    split; [subst s'; by case_match|]. apply Hexp. rewrite Hp. subst s'. by case_match.
  - exists []. rewrite app_nil_r. split_and!; [done..|by intros ? ?%not_elem_of_nil|done].
Qed.

(** C11: no timer is lost, early or run twice.  In every state that is reached
    from the start of the timers, whatever threads add and cancel and whenever
    the run timer and the watch timer go off, a timer that was added is in
    exactly one of three places: it was run, once and not before its deadline;
    it was cancelled; or it waits in the pool, and then the run timer is armed
    for its deadline or for at most thirty milliseconds from now, whichever is
    later, and the scan it starts runs the timer if its deadline has passed. *)
Theorem timers_kept c x tm :
  0 < c → rtc step (start c) x → tm ∈ added x →
  NoDup (ran x).*2
  ∧ ((∃ w, (w, tm) ∈ ran x ∧ t tm ≤ w) ∧ tm ∉ cancelled x ∧ ¬ in_pool (st x) tm
     ∨ tm ∈ cancelled x ∧ tm ∉ (ran x).*2 ∧ ¬ in_pool (st x) tm
     ∨ in_pool (st x) tm ∧ tm ∉ cancelled x ∧ tm ∉ (ran x).*2
       ∧ (∃ k, run_timer (st x) = Some k ∧ k ≤ Z.max (t tm) (clock x + SCAN_TIMERPOOL_DELAY))
       ∧ ∀ ok now nowTime, t tm ≤ now → tm ∈ (ScanTimerPool ok now nowTime (st x)).1).
Proof.
  intros Hc Hx Htm. pose proof (timers_inv c x Hc Hx) as Hi. split; [apply Hi|].
  assert (in_pool (st x) tm → tm ∉ cancelled x ∧ tm ∉ (ran x).*2) as Hexcl.
  { intros Hp. split; [intros ?%(i_cancelled x Hi); naive_solver|].
    intros ([w y] & -> & Hr)%list_elem_of_fmap. by destruct (i_ran x Hi w y Hr) as (_ & _ & []). }
  destruct (i_all x Hi tm Htm) as [Hp|[Hr|Hcan]].
  - right. right. split; [done|]. split; [by apply Hexcl|]. split; [by apply Hexcl|]. split.
    + by apply pool_armed.
    + intros ok now nowTime Hle. simpl. by apply (elem_of_due _ _ _ _ (i_pool x Hi)).
  - left. apply list_elem_of_fmap in Hr as ([w y] & -> & Hr).
    destruct (i_ran x Hi w y Hr) as (? & ? & ?). split_and!; [exists w; split; [done|simpl; lia]| |done].
    intros (_ & _ & Hn)%(i_cancelled x Hi). apply Hn, list_elem_of_fmap. by exists (w, y).
  - right. left. by destruct (i_cancelled x Hi tm Hcan) as (_ & ? & ?).
Qed.
End props.

(** Two timers, and the scan at the deadline of the second. *)
Definition demo_step (x : Sys (A := Z)) (c d f : Z) : Sys :=
  let r := AddTimer true c c d f (st x) in mkSys r.2 c (added x ++ [r.1.2]) (ran x) (cancelled x).
Definition demo2 : Sys := demo_step (demo_step (start 1000) 1000 500 1) 1010 90 2.
Definition demo3 : Sys :=
  let r := ScanTimerPool true 1100 1101 (st demo2) in
  mkSys r.2 1101 (added demo2) (ran demo2 ++ ((1100,.) <$> r.1)) (cancelled demo2).
Definition demo_timer : Timer Z := mkTimer 1 1500 (Some 1).

Lemma demo3_reachable : rtc step (start 1000) demo3.
Proof.
  eapply rtc_l; [apply (step_add (start 1000) 1000 1000 500 1); simpl; lia|].
  eapply rtc_l; [apply (step_add _ 1010 1010 90 2); simpl; lia|].
  eapply rtc_l; [|apply rtc_refl].
  apply (step_scan demo2 1100 1100 1101); [vm_compute; reflexivity|simpl; lia..].
Qed.
Lemma demo3_timer : demo_timer ∈ added demo3.
Proof. vm_compute. left. Qed.

Lemma timers_kept_witness :
  demo_timer ∈ added demo3
  ∧ NoDup (ran demo3).*2
  ∧ ((∃ w, (w, demo_timer) ∈ ran demo3 ∧ t demo_timer ≤ w) ∧ demo_timer ∉ cancelled demo3 ∧ ¬ in_pool (st demo3) demo_timer
     ∨ demo_timer ∈ cancelled demo3 ∧ demo_timer ∉ (ran demo3).*2 ∧ ¬ in_pool (st demo3) demo_timer
     ∨ in_pool (st demo3) demo_timer ∧ demo_timer ∉ cancelled demo3 ∧ demo_timer ∉ (ran demo3).*2
       ∧ (∃ k, run_timer (st demo3) = Some k ∧ k ≤ Z.max (t demo_timer) (clock demo3 + SCAN_TIMERPOOL_DELAY))
       ∧ ∀ ok now nowTime, t demo_timer ≤ now → demo_timer ∈ (ScanTimerPool ok now nowTime (st demo3)).1).
Proof.
  split; [exact demo3_timer|].
  exact (timers_kept 1000 demo3 demo_timer ltac:(lia) demo3_reachable demo3_timer).
Defined.

(** [Cancel] answers true for a timer that has run when another one of the same
    deadline waits. *)
Lemma cancel_answers_for_another :
  let other := mkTimer 2 1500 (Some 2) in
  let s := mkState {[1500 := [other]]} 1500 (Some 1500) 3 true in
  let s' := (Cancel (mkTimer 1 1500 (Some 1)) s).2 in
  (Cancel (mkTimer 1 1500 (Some 1)) s).1 = true ∧ g_timerPool s' !! 1500 = Some [other].
Proof. vm_compute. done. Qed.

(** After [Finalize] and [Initialize] the tick of the closed run timer is kept,
    and a timer that is added waits without a run timer. *)
Lemma tick_kept_over_restart :
  let s := (AddTimer true 1000 1000 500 1 boot).2 in
  let s' := (AddTimer true 5000 5000 100 2 (Initialize (Finalize s))).2 in
  g_timerPool s' ≠ ∅ ∧ run_timer s' = None ∧ g_ticks s' = 1500.
Proof. vm_compute. done. Qed.
End TimersProps.
