(* ===== verification/Cooldown.v ===== *)
(** * Cooldown of a tenant ([common/utils/tenant_cooldown_manager.h])

    A tenant that exceeded its quota is blocked until a timer runs.  The timer's
    callback goes through the mailbox of the actor, so a callback of an older
    timer may still be on its way when the block is renewed; a generation tells
    them apart.  The handlers are those of the instance controllers of the
    domain scheduler and of the function proxy. *)

From S2P Require Import Prelude IntMap Timers SchedItems.
From Stdlib Require Import ZArith Lia.
From stdpp Require Import base gmap strings list.

Open Scope Z_scope.

Module Cooldown.
Import Timers.

(** What a timer runs: the expiry of a cooldown, or something of another user
    of the timers. *)
Inductive Thunk := Expired (tenantID : string) (generation : Z) | Other (what : Z).

Record Entry := mkEntry { timer : Timer Thunk; generation : Z }.
Abbreviation Entries := (gmap string Entry).

Definition DEFAULT_TENANT_COOLDOWN_MS : Z := 10000.

(** ** The manager *)
(** [scheduleTimer] is the callable of the handlers: [AsyncAfter] of the expiry
    handler. *)
Definition scheduleTimer (ok : bool) (now nowTime cooldownMs : Z) (tenantID : string) (gen : Z)
    (ts : Timers.State Thunk) : Timer Thunk * Timers.State Thunk :=
  let r := AddTimer ok now nowTime cooldownMs (Expired tenantID gen) ts in (r.1.2, r.2).

Definition Apply (tenantID : string) (now : Z)
    (schedule : Z → Timers.State Thunk → Timer Thunk * Timers.State Thunk)
    (x : Entries * Timers.State Thunk) : Entries * Timers.State Thunk :=
  if bool_decide (tenantID = ""%string) then x
  else
    let entry := default (mkEntry (default_timer now) 0) (x.1 !! tenantID) in
    let ts := (Cancel (timer entry) x.2).2 in
    let gen := (generation entry + 1) mod 2 ^ 64 in
    let r := schedule gen ts in
    (<[tenantID := mkEntry r.1 gen]> x.1, r.2).

Definition IsBlocked (tenantID : string) (e : Entries) : bool := bool_decide (is_Some (e !! tenantID)).

Definition OnExpired (tenantID : string) (gen : Z) (e : Entries) : bool * Entries :=
  match e !! tenantID with
  | Some entry => if generation entry =? gen then (true, delete tenantID e) else (false, e)
  | None => (false, e)
  end.

Definition CancelAll (x : Entries * Timers.State Thunk) : Entries * Timers.State Thunk :=
  (∅, foldr (λ entry ts, (Cancel (timer entry) ts).2) x.2 (map_to_list x.1).*2).

(** ** The handlers *)
Definition cooldown_of (cooldownMs : Z) : Z :=
  if cooldownMs <=? 0 then DEFAULT_TENANT_COOLDOWN_MS else cooldownMs.

Definition OnTenantQuotaExceeded (ok : bool) (now nowTime : Z) (tenantID : string) (cooldownMs : Z)
    (x : Entries * Timers.State Thunk) : Entries * Timers.State Thunk :=
  Apply tenantID now (scheduleTimer ok now nowTime (cooldown_of cooldownMs) tenantID) x.

Definition OnTenantCooldownExpired (tenantID : string) (gen : Z) (e : Entries) : Entries :=
  (OnExpired tenantID gen e).2.

(** The first test of [Schedule] and of [PrepareCreateInstance]. *)
Definition cooldown_gate (tenantID : string) (e : Entries) : option Z :=
  if negb (bool_decide (tenantID = ""%string)) && IsBlocked tenantID e then Some RESOURCE_NOT_ENOUGH else None.
End Cooldown.
