(* ===== verification/CooldownProps.v ===== *)
(** * A cooldown lasts until its own timer

    The system of the timers ([TimersProps]) with one actor that blocks tenants:
    the callbacks of the timers that ran are its mailbox, and are handled in
    their order. *)

From S2P Require Import Prelude IntMap SchedItems Timers TimersProps Cooldown.
From Stdlib Require Import ZArith Lia.
From stdpp Require Import base gmap strings list relations.

Open Scope Z_scope.

Module CooldownProps.
Import Timers TimersProps Cooldown.

#[export] Instance Thunk_eq_dec : EqDecision Thunk.
Proof. solve_decision. Defined.
#[export] Instance Timer_eq_dec : EqDecision (Timer Thunk).
Proof. solve_decision. Defined.

(** [handled]: how many of the timers that ran have been handled. *)
Record Sys := mkSys { tx : TimersProps.Sys (A := Thunk); entries : Entries; handled : nat }.

Definition tenant_of (tm : Timer Thunk) : option string :=
  match thunk tm with Some (Expired tn _) => Some tn | _ => None end.

Definition handle (tm : Timer Thunk) (e : Entries) : Entries :=
  match thunk tm with Some (Expired tn g) => OnTenantCooldownExpired tn g e | _ => e end.

(** The event's [Apply], with the cancelled timer beside the state. *)
Definition applied (now nowTime : Z) (tn : string) (ms : Z) (x : Sys) : Sys :=
  let entry := default (mkEntry (default_timer now) 0) (entries x !! tn) in
  let r := OnTenantQuotaExceeded true now nowTime tn ms (entries x, st (tx x)) in
  let tm := timer (default entry (r.1 !! tn)) in
  mkSys (TimersProps.mkSys r.2 nowTime (added (tx x) ++ [tm]) (ran (tx x))
           (cancelled (tx x) ++ taken (timer entry) (st (tx x)))) r.1 (handled x).

Inductive step : Sys → Sys → Prop :=
  | step_exceeded x now nowTime tn ms :
      tn ≠ ""%string → clock (tx x) ≤ nowTime → 0 < now ≤ nowTime → now + cooldown_of ms < 2 ^ 64 →
      next_id (st (tx x)) < 2 ^ 64 →
      step x (applied now nowTime tn ms x)
  | step_handle x w tm :
      ran (tx x) !! handled x = Some (w, tm) →
      step x (mkSys (tx x) (handle tm (entries x)) (S (handled x)))
  | step_time x y :
      TimersProps.step (tx x) y → added y = added (tx x) → cancelled y = cancelled (tx x) →
      step x (mkSys y (entries x) (handled x))
  | step_other_add x now nowTime d v :
      clock (tx x) ≤ nowTime → 0 < now ≤ nowTime → 0 < d → now + d < 2 ^ 64 →
      let r := AddTimer true now nowTime d (Other v) (st (tx x)) in
      step x (mkSys (TimersProps.mkSys r.2 nowTime (added (tx x) ++ [r.1.2]) (ran (tx x)) (cancelled (tx x)))
                (entries x) (handled x))
  | step_other_cancel x tm :
      tm ∈ added (tx x) → tenant_of tm = None →
      step x (mkSys (TimersProps.mkSys (Cancel tm (st (tx x))).2 (clock (tx x)) (added (tx x)) (ran (tx x))
                       (cancelled (tx x) ++ taken tm (st (tx x)))) (entries x) (handled x)).

Definition start (c : Z) : Sys := mkSys (TimersProps.start c) ∅ 0.

(** The timer of the last event of a tenant. *)
Definition last_apply (tn : string) (x : Sys) : option (Timer Thunk) :=
  last (filter (λ tm, tenant_of tm = Some tn) (added (tx x))).

Definition expired (x : Sys) (tm : Timer Thunk) : Prop := tm ∈ (take (handled x) (ran (tx x))).*2.

Abbreviation ran2 x := ((ran (tx x)).*2).

(** An older timer of the tenant is not in the pool, and its callback, if it is
    still on its way, is of an older generation and comes first. *)
Definition older (x : Sys) (tn : string) (tm tm' : Timer Thunk) : Prop :=
  ¬ in_pool (st (tx x)) tm
  ∧ ∀ i, (handled x ≤ i)%nat → ran2 x !! i = Some tm →
      ∃ g g', thunk tm = Some (Expired tn g) ∧ thunk tm' = Some (Expired tn g') ∧ g < g'
        ∧ ∀ j, ran2 x !! j = Some tm' → (i < j)%nat.

Definition current (x : Sys) (tn : string) (tm : Timer Thunk) : Prop :=
  expired x tm ∧ entries x !! tn = None
  ∨ ¬ expired x tm ∧ ∃ g, entries x !! tn = Some (mkEntry tm g) ∧ thunk tm = Some (Expired tn g)
      ∧ 0 < g < next_id (st (tx x)) ∧ tm ∉ cancelled (tx x).

Record cinv (x : Sys) : Prop := {
  c_timers : TimersProps.inv (tx x);
  c_handled : (handled x ≤ length (ran (tx x)))%nat;
  c_none : ∀ tn, last_apply tn x = None → entries x !! tn = None;
  c_last : ∀ tn tm, last_apply tn x = Some tm → current x tn tm;
  c_older : ∀ tn tm tm', last_apply tn x = Some tm' → tm ∈ added (tx x) → tenant_of tm = Some tn →
    tm ≠ tm' → older x tn tm tm';
}.

(** ** Lists of timers *)
Lemma last_apply_in tn x tm : last_apply tn x = Some tm → tm ∈ added (tx x) ∧ tenant_of tm = Some tn.
Proof. intros Hl%last_Some_elem_of. apply list_elem_of_filter in Hl. tauto. Qed.

Lemma last_apply_exists tn x tm :
  tm ∈ added (tx x) → tenant_of tm = Some tn → ∃ tm', last_apply tn x = Some tm'.
Proof.
  intros Hin Ht. unfold last_apply. destruct (last _) as [tm'|] eqn:Hl; [by eexists|].
  apply last_None in Hl. assert (tm ∈ filter (λ tm, tenant_of tm = Some tn) (added (tx x))) as Hf
    by by apply list_elem_of_filter.
  rewrite Hl in Hf. by apply not_elem_of_nil in Hf.
Qed.

Lemma last_apply_snoc tn x y tm :
  added (tx y) = added (tx x) ++ [tm] →
  last_apply tn y = if decide (tenant_of tm = Some tn) then Some tm else last_apply tn x.
Proof.
  intros Ha. unfold last_apply. rewrite Ha, filter_app, filter_cons, filter_nil. case_decide.
  - apply last_snoc.
  - by rewrite app_nil_r.
Qed.

Lemma expired_index x tm : cinv x → expired x tm ↔ ∃ i, (i < handled x)%nat ∧ ran2 x !! i = Some tm.
Proof.
  intros Hi. unfold expired. rewrite fmap_take, list_elem_of_lookup. split.
  - intros [i [? ?]%lookup_take_Some]. eauto.
  - intros (i & ? & ?). exists i. by apply lookup_take_Some.
Qed.

Lemma ran_in x tm : cinv x → tm ∈ ran2 x → tm ∈ added (tx x) ∧ ¬ in_pool (st (tx x)) tm ∧ tm ∉ cancelled (tx x).
Proof.
  intros Hi Hr. pose proof Hr as ([w y] & -> & Hw)%list_elem_of_fmap.
  destruct (i_ran _ (c_timers x Hi) w y Hw) as (? & _ & ?). split_and!; [done..|].
  by intros (_ & _ & ?)%(i_cancelled _ (c_timers x Hi)).
Qed.

Lemma ran_index x i j tm : cinv x → ran2 x !! i = Some tm → ran2 x !! j = Some tm → i = j.
Proof. intros Hi. apply NoDup_lookup, (i_once _ (c_timers x Hi)). Qed.

(** An older callback that is on its way is of an older generation than the
    tenant's entry. *)
Lemma older_generation x tn tm tm' i :
  cinv x → last_apply tn x = Some tm' → tm ≠ tm' → tenant_of tm = Some tn →
  (handled x ≤ i)%nat → ran2 x !! i = Some tm →
  ∃ g g', thunk tm = Some (Expired tn g) ∧ entries x !! tn = Some (mkEntry tm' g') ∧ g < g' < next_id (st (tx x)).
Proof.
  intros Hi Hl Hne Ht Hle Hr.
  assert (tm ∈ added (tx x)) as Hin by (apply (ran_in x); [done|by eapply list_elem_of_lookup_2]).
  destruct (c_older x Hi tn tm tm' Hl Hin Ht Hne) as [_ Hq].
  destruct (Hq i Hle Hr) as (g & g' & Hg & Hg' & Hlt & Hj).
  destruct (c_last x Hi tn tm' Hl) as [[(j & Hlt' & Hj')%expired_index _]|(_ & g2 & He & Hg2 & ? & _)]; [|done|].
  - specialize (Hj j Hj'). lia.
  - assert (g2 = g') as -> by congruence. exists g, g'. split_and!; done || lia.
Qed.

(** ** Steps of the timers and of their other users *)
Lemma cinv_frame x y l :
  cinv x → TimersProps.inv y → next_id (st (tx x)) ≤ next_id (st y) →
  (∀ tn, last_apply tn (mkSys y (entries x) (handled x)) = last_apply tn x) →
  (∀ tm, tm ∈ added y → is_Some (tenant_of tm) → tm ∈ added (tx x)) →
  ran y = ran (tx x) ++ l → (∀ tm, tm ∈ l.*2 → in_pool (st (tx x)) tm) →
  (∀ tm, is_Some (tenant_of tm) → in_pool (st y) tm → in_pool (st (tx x)) tm) →
  (∀ tm, is_Some (tenant_of tm) → tm ∈ cancelled y → tm ∈ cancelled (tx x)) →
  cinv (mkSys y (entries x) (handled x)).
Proof.
  intros Hi Hy Hid Hlast Hadd Hran Hl Hpool Hcan.
  assert (∀ tm, expired (mkSys y (entries x) (handled x)) tm ↔ expired x tm) as Hexp.
  { intros tm. unfold expired. simpl. rewrite Hran, take_app_le by apply Hi. done. }
  split; simpl; [done| | | |].
  - rewrite Hran, length_app. pose proof (c_handled x Hi). lia.
  - intros tn. rewrite Hlast. apply Hi.
  - intros tn tm. rewrite Hlast. intros Hla. destruct (last_apply_in tn x tm Hla) as [_ Ht].
    unfold current. simpl. rewrite Hexp.
    destruct (c_last x Hi tn tm Hla) as [?|(? & g & ? & ? & ? & Hn)]; [by left|].
    right. split; [done|]. exists g. split_and!; [done..|lia|lia|]. intros ?%Hcan; [done|by rewrite Ht].
  - intros tn tm tm'. rewrite Hlast. intros Hla Hin Ht Hne.
    assert (is_Some (tenant_of tm)) as Hs by by rewrite Ht.
    destruct (c_older x Hi tn tm tm' Hla (Hadd tm Hin Hs) Ht Hne) as [Hnp Hq].
    split; simpl; [by intros ?%Hpool|]. intros i Hle. rewrite Hran, fmap_app. intros Hr.
    apply lookup_app_Some in Hr as [Hr|[_ Hr]]; [|by apply list_elem_of_lookup_2, Hl in Hr].
    destruct (Hq i Hle Hr) as (g & g' & ? & ? & ? & Hj). exists g, g'. split_and!; [done..|].
    intros j [Hj'|[Hj' _]]%lookup_app_Some; [by apply Hj|].
    apply lookup_lt_Some in Hr. lia.
Qed.

(** A callback is handled. *)
Lemma expired_S x w tm tm' e :
  cinv x → ran (tx x) !! handled x = Some (w, tm) →
  expired (mkSys (tx x) e (S (handled x))) tm' ↔ expired x tm' ∨ tm' = tm.
Proof.
  intros Hi Hr. unfold expired. simpl. rewrite (take_S_r _ _ _ Hr), fmap_app, elem_of_app. simpl.
  by rewrite list_elem_of_singleton.
Qed.

Lemma ran2_lookup x i w tm : ran (tx x) !! i = Some (w, tm) → ran2 x !! i = Some tm.
Proof. intros Hr. by rewrite list_lookup_fmap, Hr. Qed.

Lemma older_S x e tn tm tm' : older x tn tm tm' → older (mkSys (tx x) e (S (handled x))) tn tm tm'.
Proof. intros [? Hq]. split; [done|]. simpl. intros i Hle. apply Hq. lia. Qed.

(** The entries after a callback: only the tenant's current timer unblocks it. *)
Lemma handle_entries x w tm tn tm' :
  cinv x → ran (tx x) !! handled x = Some (w, tm) → last_apply tn x = Some tm' →
  handle tm (entries x) !! tn = if decide (tm = tm') then None else entries x !! tn.
Proof.
  intros Hi Hr%ran2_lookup Hl. destruct (last_apply_in tn x tm' Hl) as [Hin' Ht'].
  unfold handle, OnTenantCooldownExpired, OnExpired.
  destruct (thunk tm) as [[tn0 g|v]|] eqn:Hth.
  2,3: by rewrite decide_False by (intros <-; unfold tenant_of in Ht'; by rewrite Hth in Ht').
  assert (tenant_of tm = Some tn0) as Ht0 by (unfold tenant_of; by rewrite Hth).
  destruct (decide (tn0 = tn)) as [->|Hne].
  - case_decide as Heq.
    + subst tm'. destruct (c_last x Hi tn tm Hl) as [[He _]|(_ & g' & He & Hg & _)].
      * apply expired_index in He as (i & Hlt & Hri); [|done]. pose proof (ran_index x _ _ _ Hi Hr Hri). lia.
      * rewrite He. simpl. assert (g' = g) as -> by congruence. rewrite Z.eqb_refl. simpl. apply lookup_delete_eq.
    + destruct (older_generation x tn tm tm' _ Hi Hl Heq Ht0 (le_n _) Hr) as (g1 & g2 & Hg1 & He & Hlt).
      assert (g1 = g) as -> by congruence. rewrite He. simpl. destruct (Z.eqb_spec g2 g); [lia|exact He].
  - rewrite decide_False by (intros <-; congruence).
    destruct (entries x !! tn0); [|done]. case_match; [|done]. simpl. by rewrite lookup_delete_ne.
Qed.

Lemma handle_none x w tm tn :
  cinv x → ran (tx x) !! handled x = Some (w, tm) → last_apply tn x = None →
  handle tm (entries x) !! tn = None.
Proof.
  intros Hi _ Hl%(c_none x Hi). unfold handle, OnTenantCooldownExpired, OnExpired.
  repeat case_match; simpl; try done. by rewrite lookup_delete_None; right.
Qed.

Lemma cinv_handle x w tm :
  cinv x → ran (tx x) !! handled x = Some (w, tm) → cinv (mkSys (tx x) (handle tm (entries x)) (S (handled x))).
Proof.
  intros Hi Hr. split; simpl; [apply Hi| | | |].
  - apply lookup_lt_Some in Hr. lia.
  - intros tn. by apply (handle_none x w).
  - intros tn tm' Hl. change (last_apply tn x = Some tm') in Hl. unfold current. simpl.
    rewrite (handle_entries x w tm tn tm' Hi Hr Hl), (expired_S x w tm tm' _ Hi Hr).
    case_decide as Heq; [by left; auto|].
    destruct (c_last x Hi tn tm' Hl) as [[? ?]|(? & ?)]; [by left; auto|]. right. naive_solver.
  - intros tn tm1 tm2 Hl Hin Ht Hne. by apply older_S, (c_older x Hi).
Qed.

(** ** A tenant exceeds its quota *)
Definition entry_of (now : Z) (tn : string) (x : Sys) : Entry :=
  default (mkEntry (default_timer now) 0) (entries x !! tn).

(** The timers after the old timer was cancelled. *)
Definition cancelled_first (now : Z) (tn : string) (x : Sys) : TimersProps.Sys :=
  TimersProps.mkSys (Cancel (timer (entry_of now tn x)) (st (tx x))).2 (clock (tx x)) (added (tx x)) (ran (tx x))
    (cancelled (tx x) ++ taken (timer (entry_of now tn x)) (st (tx x))).

Lemma applied_eq now nowTime tn ms x :
  tn ≠ ""%string →
  applied now nowTime tn ms x
  = let x1 := cancelled_first now tn x in
    let g := (generation (entry_of now tn x) + 1) mod 2 ^ 64 in
    let r := AddTimer true now nowTime (cooldown_of ms) (Expired tn g) (st x1) in
    mkSys (TimersProps.mkSys r.2 nowTime (added x1 ++ [r.1.2]) (ran x1) (cancelled x1))
      (<[tn := mkEntry r.1.2 g]> (entries x)) (handled x).
Proof.
  intros Hne. unfold applied, OnTenantQuotaExceeded, Apply. rewrite bool_decide_eq_false_2 by done.
  cbn [fst snd]. by rewrite lookup_insert_eq.
Qed.

(** The entry is the tenant's last timer, or a new one. *)
Lemma entry_last x now tn :
  cinv x →
  (∃ tm g, last_apply tn x = Some tm ∧ entry_of now tn x = mkEntry tm g ∧ thunk tm = Some (Expired tn g)
     ∧ 0 < g < next_id (st (tx x)))
  ∨ entry_of now tn x = mkEntry (default_timer now) 0
    ∧ ∀ tm, tm ∈ added (tx x) → tenant_of tm = Some tn → ¬ in_pool (st (tx x)) tm
        ∧ ∀ i, ran2 x !! i = Some tm → (i < handled x)%nat.
Proof.
  intros Hi. unfold entry_of. destruct (last_apply tn x) as [tm|] eqn:Hl.
  2: { right. rewrite (c_none x Hi tn Hl). split; [done|]. intros tm Hin Ht.
       destruct (last_apply_exists tn x tm Hin Ht). congruence. }
  destruct (c_last x Hi tn tm Hl) as [[He Hn]|(_ & g & He & Hg & ? & _)].
  - right. rewrite Hn. split; [done|]. intros tm1 Hin Ht.
    apply expired_index in He as (i & Hlt & Hri); [|done].
    destruct (decide (tm1 = tm)) as [->|Hne].
    + split; [by apply (ran_in x tm Hi), list_elem_of_lookup_2 with i|].
      intros j Hj. by rewrite (ran_index x j i tm Hi Hj Hri).
    + split; [by apply (c_older x Hi tn tm1 tm)|]. intros j Hj.
      destruct (le_lt_dec (handled x) j) as [Hle|]; [|done].
      destruct (older_generation x tn tm1 tm j Hi Hl Hne Ht Hle Hj) as (? & ? & _ & ? & _). congruence.
  - left. rewrite He. simpl. eauto 10.
Qed.

Lemma cancelled_first_inv x now tn : cinv x → TimersProps.inv (cancelled_first now tn x).
Proof.
  intros Hi. unfold cancelled_first. destruct (entry_last x now tn Hi) as [(tm & g & Hl & -> & _)|[-> _]]; cbn [timer].
  - apply inv_cancel; [apply Hi|by apply (last_apply_in tn)].
  - destruct (cancel_unknown (tx x) (default_timer now) (c_timers x Hi) eq_refl) as [-> ->].
    rewrite app_nil_r. pose proof (c_timers x Hi). by destruct (tx x).
Qed.

(** What the cancellation leaves: the pool without the tenant's timers. *)
Lemma cancelled_first_pool x now tn tm :
  cinv x → tm ∈ added (tx x) → in_pool (st (cancelled_first now tn x)) tm →
  in_pool (st (tx x)) tm ∧ tenant_of tm ≠ Some tn.
Proof.
  intros Hi Hin. unfold cancelled_first. simpl.
  destruct (entry_last x now tn Hi) as [(tm' & g & Hl & -> & _)|[-> Hno]]; simpl.
  - rewrite in_pool_cancel; [|apply Hi|by apply (last_apply_in tn)]. intros [Hp Hne]. split; [done|].
    intros Ht. by destruct (c_older x Hi tn tm tm' Hl Hin Ht Hne).
  - destruct (cancel_unknown (tx x) (default_timer now) (c_timers x Hi) eq_refl) as [-> _].
    intros Hp. split; [done|]. intros Ht. by destruct (Hno tm Hin Ht).
Qed.

Lemma cancelled_first_cancelled x now tn tm :
  cinv x → tm ∈ cancelled (cancelled_first now tn x) → tm ∈ cancelled (tx x) ∨ last_apply tn x = Some tm.
Proof.
  intros Hi. unfold cancelled_first. simpl. rewrite elem_of_app. intros [?|Ht]; [by left|right].
  destruct (entry_last x now tn Hi) as [(tm' & g & Hl & He & _)|[He _]]; rewrite He in Ht; simpl in Ht.
  - apply elem_of_taken in Ht as [-> _]; [done|apply Hi|by apply (last_apply_in tn)].
  - destruct (cancel_unknown (tx x) (default_timer now) (c_timers x Hi) eq_refl) as [_ Hn].
    rewrite Hn in Ht. by apply not_elem_of_nil in Ht.
Qed.

(** The state after [Apply], by what it changes. *)
Record renewed (x : Sys) (tn : string) (tm : Timer Thunk) (g : Z) (y : Sys) : Prop := {
  r_inv : TimersProps.inv (tx y);
  r_added : added (tx y) = added (tx x) ++ [tm];
  r_fresh : tm ∉ added (tx x);
  r_thunk : thunk tm = Some (Expired tn g);
  r_ran : ran (tx y) = ran (tx x);
  r_handled : handled y = handled x;
  r_entries : entries y = <[tn := mkEntry tm g]> (entries x);
  r_gen : 0 < g < next_id (st (tx y));
  r_next : next_id (st (tx x)) ≤ next_id (st (tx y));
  r_pool : ∀ tm', tm' ∈ added (tx x) → in_pool (st (tx y)) tm' → in_pool (st (tx x)) tm' ∧ tenant_of tm' ≠ Some tn;
  r_cancelled : ∀ tm', tm' ∈ cancelled (tx y) → tm' ∈ added (tx x)
    ∧ (tm' ∈ cancelled (tx x) ∨ last_apply tn x = Some tm');
  r_old : ∀ tm' i, tm' ∈ added (tx x) → tenant_of tm' = Some tn → (handled x ≤ i)%nat → ran2 x !! i = Some tm' →
    ∃ g', thunk tm' = Some (Expired tn g') ∧ g' < g;
}.

Lemma generation_bound x now tn :
  cinv x → next_id (st (tx x)) < 2 ^ 64 →
  (generation (entry_of now tn x) + 1) mod 2 ^ 64 = generation (entry_of now tn x) + 1
  ∧ 0 < generation (entry_of now tn x) + 1 ≤ next_id (st (tx x)).
Proof.
  intros Hi Hb. pose proof (i_next _ (c_timers x Hi)).
  assert (0 ≤ generation (entry_of now tn x) < next_id (st (tx x))).
  { destruct (entry_last x now tn Hi) as [(tm & g & _ & -> & _ & ?)|[-> _]]; simpl; lia. }
  split; [apply Z.mod_small|]; lia.
Qed.

Lemma old_generation x now tn tm i :
  cinv x → tm ∈ added (tx x) → tenant_of tm = Some tn → (handled x ≤ i)%nat → ran2 x !! i = Some tm →
  ∃ g, thunk tm = Some (Expired tn g) ∧ g < generation (entry_of now tn x) + 1.
Proof.
  intros Hi Hin Ht Hle Hr. destruct (entry_last x now tn Hi) as [(tm0 & g0 & Hl & He & Hg & _)|[_ Hno]].
  - rewrite He. simpl. destruct (decide (tm = tm0)) as [->|Hne]; [exists g0; split; [done|lia]|].
    destruct (older_generation x tn tm tm0 i Hi Hl Hne Ht Hle Hr) as (g & g' & ? & He' & ?).
    unfold entry_of in He. rewrite He' in He. simpl in He. simplify_eq. exists g. split; [done|lia].
  - destruct (Hno tm Hin Ht) as [_ Hlt]. specialize (Hlt i Hr). lia.
Qed.

Lemma applied_renewed x now nowTime tn ms :
  cinv x → tn ≠ ""%string → clock (tx x) ≤ nowTime → 0 < now ≤ nowTime → now + cooldown_of ms < 2 ^ 64 →
  next_id (st (tx x)) < 2 ^ 64 →
  ∃ tm g, renewed x tn tm g (applied now nowTime tn ms x).
Proof.
  intros Hi Hne Hc Hn Hb Hid. rewrite applied_eq by done. cbv zeta.
  destruct (generation_bound x now tn Hi Hid) as [-> Hgen].
  pose proof (cancelled_first_inv x now tn Hi) as Hi1. pose proof (old_generation x now tn) as Hold.
  assert (next_id (st (cancelled_first now tn x)) = next_id (st (tx x))) as Hnext by apply cancel_rest.
  set (g := generation _ + 1) in *.
  assert (0 < cooldown_of ms) as Hpos
    by (unfold cooldown_of, DEFAULT_TENANT_COOLDOWN_MS; destruct (Z.leb_spec ms 0); lia).
  destruct (timer_add_effect true now nowTime (cooldown_of ms) (Expired tn g) (st (cancelled_first now tn x))
    (i_on _ Hi1) ltac:(lia)) as (Htm & Hnext' & Hpool).
  pose proof (step_add (cancelled_first now tn x) now nowTime (cooldown_of ms) (Expired tn g)
    Hc ltac:(lia) ltac:(lia) Hpos Hb) as Hstep. cbv zeta in Hstep.
  pose proof (timers_inv_step _ _ Hi1 Hstep) as Hi2.
  remember (AddTimer true now nowTime (cooldown_of ms) (Expired tn g) (st (cancelled_first now tn x))) as r eqn:Hr.
  clear Hr. exists r.1.2, g.
  assert (r.1.2 ∉ added (tx x)) as Hfresh.
  { rewrite Htm. intros Hin%(i_id _ (c_timers x Hi)). cbn [id] in Hin. lia. }
  split; simpl; try done.
  - by rewrite Htm.
  - lia.
  - lia.
  - intros tm' Hin [Hp| ->]%Hpool; [|done]. by apply (cancelled_first_pool x now).
  - intros tm' Hin. split; [by apply (i_cancelled _ Hi1 tm')|by apply (cancelled_first_cancelled x now)].
  - intros tm' i. by apply Hold.
Qed.

Lemma cinv_renewed x tn tm g y : cinv x → renewed x tn tm g y → cinv y.
Proof.
  intros Hi [Hinv Hadd Hfresh Hth Hran Hh Hent Hg Hid Hpool Hcan Hold].
  assert (tenant_of tm = Some tn) as Ht by (unfold tenant_of; by rewrite Hth).
  assert (∀ tm', expired y tm' ↔ expired x tm') as Hexp by (intros tm'; unfold expired; by rewrite Hran, Hh).
  assert (∀ j, ran2 x !! j ≠ Some tm) as Hno
    by (intros j Hj%list_elem_of_lookup_2; by apply Hfresh, (ran_in x)).
  split; [done|rewrite Hran, Hh; apply Hi| | |].
  - intros tn'. rewrite (last_apply_snoc tn' x y tm Hadd), Hent, Ht. case_decide as Hd; [done|].
    rewrite lookup_insert_ne by congruence. apply Hi.
  - intros tn' tm'. rewrite (last_apply_snoc tn' x y tm Hadd), Ht. unfold current. rewrite Hent, Hexp.
    case_decide as Hd.
    + injection Hd as <-. intros [= <-]. right. split.
      { intros (i & _ & Hr)%expired_index; [by apply (Hno i)|done]. }
      exists g. split_and!; [by rewrite lookup_insert_eq|done|lia..|]. by intros [? _]%Hcan.
    + intros Hl. rewrite lookup_insert_ne by congruence.
      destruct (c_last x Hi tn' tm' Hl) as [?|(? & g' & ? & ? & ? & Hc)]; [by left|]. right. split; [done|].
      exists g'. split_and!; [done..|lia|lia|]. intros [_ [?|Hl']]%Hcan; [done|].
      apply last_apply_in in Hl as [_ Ht1]. apply last_apply_in in Hl' as [_ Ht2]. congruence.
  - intros tn' tm1 tm'. rewrite (last_apply_snoc tn' x y tm Hadd), Hadd, Ht. unfold older. rewrite Hran, Hh.
    intros Hl Hin Ht1 Hne. case_decide as Hd.
    + injection Hd as <-. injection Hl as <-.
      assert (tm1 ∈ added (tx x)) as Hin1 by set_solver. split; [by intros [_ ?]%Hpool|].
      intros i Hle Hr. destruct (Hold tm1 i Hin1 Ht1 Hle Hr) as (g1 & Hg1 & Hlt). exists g1, g.
      split_and!; [done..|]. intros j Hj. by destruct (Hno j).
    + assert (tm1 ∈ added (tx x)) as Hin1.
      { apply elem_of_app in Hin as [?| ->%list_elem_of_singleton]; [done|congruence]. }
      destruct (c_older x Hi tn' tm1 tm' Hl Hin1 Ht1 Hne) as [Hnp Hq].
      split; [|done]. intros [? _]%Hpool; done.
Qed.

(** ** Every step *)
Lemma cinv_time x y :
  cinv x → TimersProps.step (tx x) y → added y = added (tx x) → cancelled y = cancelled (tx x) →
  cinv (mkSys y (entries x) (handled x)).
Proof.
  intros Hi Hs Hadd Hcan. pose proof (timers_inv_step _ _ (c_timers x Hi) Hs) as Hy.
  assert (∃ l, ran y = ran (tx x) ++ l ∧ next_id (st y) = next_id (st (tx x))
    ∧ (∀ tm, tm ∈ l.*2 → in_pool (st (tx x)) tm) ∧ (∀ tm, in_pool (st y) tm → in_pool (st (tx x)) tm))
    as (l & Hran & Hid & Hl & Hp).
  { by apply timers_step_frame; [apply Hi|..]. }
  apply (cinv_frame x y l Hi Hy); try done.
  - lia.
  - intros tn. unfold last_apply. simpl. by rewrite Hadd.
  - intros tm. by rewrite Hadd.
  - intros tm _. apply Hp.
  - intros tm _. by rewrite Hcan.
Qed.

Lemma cinv_step x y : cinv x → step x y → cinv y.
Proof.
  intros Hi Hs. destruct Hs as [x now nowTime tn ms Hne Hc Hn Hb Hid|x w tm Hr|x y Hs Ha Hc
    |x now nowTime d v Hc Hn Hd Hb r|x tm Hin Ht].
  - destruct (applied_renewed x now nowTime tn ms) as (tm & g & Hr); [done..|]. by eapply cinv_renewed.
  - by eapply cinv_handle.
  - by apply cinv_time.
  - destruct (timer_add_effect true now nowTime d (Other v) (st (tx x)) (i_on _ (c_timers x Hi)) ltac:(lia))
      as (Htm & Hnx & Hp).
    pose proof (step_add (tx x) now nowTime d (Other v) Hc ltac:(lia) ltac:(lia) Hd Hb) as Hs.
    pose proof (timers_inv_step _ _ (c_timers x Hi) Hs) as Hy. cbv zeta in Hy. fold r in Hy, Htm, Hnx, Hp.
    assert (tenant_of r.1.2 = None) as Ht by (by rewrite Htm).
    apply (cinv_frame x _ [] Hi Hy); simpl; try done.
    + lia.
    + intros tn. unfold last_apply. simpl. rewrite filter_app, filter_cons, filter_nil, Ht.
      by rewrite decide_False, app_nil_r.
    + intros tm [?| ->%list_elem_of_singleton]%elem_of_app Hsome; [done|]. rewrite Ht in Hsome. by destruct Hsome.
    + by rewrite app_nil_r.
    + by intros tm ?%not_elem_of_nil.
    + intros tm Hsome [?| ->]%Hp; [done|]. rewrite Ht in Hsome. by destruct Hsome.
  - pose proof (inv_cancel (tx x) tm (c_timers x Hi) Hin) as Hy.
    apply (cinv_frame x _ [] Hi Hy); simpl; try done.
    + by destruct (cancel_rest tm (st (tx x))) as (_ & _ & -> & _).
    + by rewrite app_nil_r.
    + by intros tm' ?%not_elem_of_nil.
    + intros tm' _ Hp. apply in_pool_cancel in Hp; [tauto|apply Hi|done].
    + intros tm' Hsome [?|[-> _]%elem_of_taken]%elem_of_app; [done|rewrite Ht in Hsome; by destruct Hsome|apply Hi|done].
Qed.

Lemma cinv_reachable c x : 0 < c → rtc step (start c) x → cinv x.
Proof.
  intros Hc. revert x. apply rtc_ind_r; [|intros y z _ Hs Hi; by eapply cinv_step].
  split; simpl; try done. by apply timers_inv_init.
Qed.

(** C5: a tenant is blocked exactly until its last cooldown has run out.  In
    every reachable state of the timers and the actor, with any order of events,
    scans, other timers and callbacks that were already on their way when a
    block was renewed, a tenant is refused if and only if the callback of the
    timer of its last event has not been handled.  That callback is never
    handled before its deadline, and until then the timer waits in the pool
    with the run timer armed or its callback is in the mailbox: no block is
    cut short and none stays for ever. *)
Theorem cooldown_exact c x tn :
  0 < c → rtc step (start c) x → tn ≠ ""%string →
  (cooldown_gate tn (entries x) = Some RESOURCE_NOT_ENOUGH
     ↔ ∃ tm, last_apply tn x = Some tm ∧ ¬ expired x tm)
  ∧ ∀ tm, last_apply tn x = Some tm →
      expired x tm ∧ t tm ≤ clock (tx x)
      ∨ ¬ expired x tm
        ∧ (tm ∈ drop (handled x) (ran2 x)
           ∨ in_pool (st (tx x)) tm
             ∧ ∃ k, run_timer (st (tx x)) = Some k ∧ k ≤ Z.max (t tm) (clock (tx x) + SCAN_TIMERPOOL_DELAY)).
Proof.
  intros Hc Hx Hne. pose proof (cinv_reachable c x Hc Hx) as Hi. split.
  - unfold cooldown_gate, IsBlocked. rewrite (bool_decide_eq_false_2 (tn = _)) by done. simpl. split.
    + case_bool_decide as Hb; [|done]. intros _. destruct (last_apply tn x) as [tm|] eqn:Hl.
      * exists tm. split; [done|]. destruct (c_last x Hi tn tm Hl) as [[_ Hn]|[? _]]; [|done].
        rewrite Hn in Hb. by destruct Hb.
      * rewrite (c_none x Hi tn Hl) in Hb. by destruct Hb.
    + intros (tm & Hl & He). destruct (c_last x Hi tn tm Hl) as [[? _]|(_ & g & Hg & _)]; [done|].
      rewrite Hg. done.
  - intros tm Hl. destruct (last_apply_in tn x tm Hl) as [Hin _].
    destruct (c_last x Hi tn tm Hl) as [[He _]|(He & g & _ & _ & _ & Hcan)].
    + left. split; [done|]. apply list_elem_of_fmap in He as ([w y] & -> & Hw).
      apply elem_of_take in Hw as (i & Hw%list_elem_of_lookup_2 & _).
      destruct (i_ran _ (c_timers x Hi) w y Hw) as (_ & ? & _). simpl. lia.
    + right. split; [done|]. destruct (i_all _ (c_timers x Hi) tm Hin) as [Hp|[Hr|?]]; [right|left|done].
      * split; [done|]. by apply (pool_armed (tx x)); [apply Hi|].
      * rewrite <-(take_drop (handled x) (ran2 x)) in Hr. apply elem_of_app in Hr as [Hr|]; [|done].
        destruct He. unfold expired. by rewrite fmap_take.
Qed.

(** The block of a tenant is renewed when its first timer has run and its
    callback is on its way; that callback is then handled. *)
Definition demo1 : Sys := applied 1000 1000 "t" 50 (start 1000).
Definition demo_scan : TimersProps.Sys :=
  let r := ScanTimerPool true 1050 1050 (st (tx demo1)) in
  TimersProps.mkSys r.2 1050 (added (tx demo1)) (ran (tx demo1) ++ ((1050,.) <$> r.1)) (cancelled (tx demo1)).
Definition demo2 : Sys := applied 1060 1060 "t" 0 (mkSys demo_scan (entries demo1) (handled demo1)).
Definition demo_old : Timer Thunk := mkTimer 1 1050 (Some (Expired "t" 1)).
Definition demo3 : Sys := mkSys (tx demo2) (handle demo_old (entries demo2)) 1.

Lemma cooldown_demo_reachable : rtc step (start 1000) demo3.
Proof.
  eapply rtc_l; [apply (step_exceeded (start 1000) 1000 1000 "t" 50); vm_compute; intuition congruence|].
  eapply rtc_l; [apply (step_time demo1 demo_scan)|].
  { apply (step_scan (tx demo1) 1050 1050 1050); vm_compute; intuition congruence. }
  { reflexivity. }
  { reflexivity. }
  eapply rtc_l; [apply (step_exceeded _ 1060 1060 "t" 0); vm_compute; intuition congruence|].
  eapply rtc_l; [apply (step_handle demo2 1050 demo_old); vm_compute; reflexivity|apply rtc_refl].
Qed.

Lemma demo_blocked : cooldown_gate "t" (entries demo3) = Some RESOURCE_NOT_ENOUGH.
Proof. vm_compute. reflexivity. Qed.

Lemma cooldown_exact_witness :
  cooldown_gate "t" (entries demo3) = Some RESOURCE_NOT_ENOUGH
  ∧ ∃ tm, last_apply "t" demo3 = Some tm ∧ ¬ expired demo3 tm.
Proof.
  split; [exact demo_blocked|].
  apply (proj1 (cooldown_exact 1000 demo3 "t" ltac:(lia) cooldown_demo_reachable ltac:(discriminate))), demo_blocked.
Defined.
End CooldownProps.
