(* ===== verification/Quota.v ===== *)
(** * Quotas of the tenants ([function_master/instance_manager/quota_manager])

    [QuotaManagerActor] keeps what the instances of each tenant use, and when a
    tenant is above its quota has its newest instances killed and tells the
    schedulers to refuse it for a while.  The clock is an argument; the amounts
    of an instance are the whole numbers the code casts them to. *)

From S2P Require Import Prelude.
From Stdlib Require Import ZArith Lia.
From stdpp Require Import base gmap strings list fin_maps.

Open Scope Z_scope.

Module Quota.

(** ** Configuration ([quota_config.h]) *)
Record TenantQuota := mkQuota { q_cpuMillicores : Z; q_memLimitMb : Z; q_cooldownMs : Z }.
Record QuotaConfig := mkConfig {
  enabled_ : bool; defaultQuota_ : TenantQuota; perTenantQuota_ : gmap string TenantQuota }.

Definition builtin_quota : TenantQuota := mkQuota 32000 65536 10000.

(** What the JSON reader finds in the file: the three optional members of
    ["default"] if there is such an object; [None]: no file is configured.  A
    file that is missing or that cannot be parsed ends the process. *)
Definition parseQuota (node : option Z * option Z * option Z) : TenantQuota :=
  mkQuota (default 32000 node.1.1) (default 65536 node.1.2) (default 10000 node.2).
Definition LoadFromFile (file : option (option (option Z * option Z * option Z))) : QuotaConfig :=
  match file with
  | None => mkConfig false builtin_quota ∅
  | Some None => mkConfig true builtin_quota ∅
  | Some (Some node) => mkConfig true (parseQuota node) ∅
  end.

Definition GetQuota (tenantID : string) (c : QuotaConfig) : TenantQuota :=
  default (defaultQuota_ c) (perTenantQuota_ c !! tenantID).
Definition IsEnabled (c : QuotaConfig) : bool := enabled_ c.
Definition UpdateTenantQuota (tenantID : string) (q : TenantQuota) (c : QuotaConfig) : QuotaConfig :=
  mkConfig true (defaultQuota_ c) (<[tenantID := q]> (perTenantQuota_ c)).

(** ** State *)
Record Inst := mkInst { tenantid : string; instanceid : string; cpu_res : option Z; mem_res : option Z }.

Record TenantUsage := mkUsage {
  cpuMillicores : Z; memMb : Z;
  sortedInstances : list (Z * string);
  instanceResources : gmap string (Z * Z) }.
Definition empty_usage : TenantUsage := mkUsage 0 0 [] ∅.

(** [instanceMgr], [domainSched]: the name of the address is set. *)
Record State := mkState {
  config_ : QuotaConfig; tenantUsage_ : gmap string TenantUsage; instanceArrivalTime_ : gmap string Z;
  instanceMgr : bool; domainSched : bool }.

Inductive Out :=
  | ForwardKill (requestID instanceID : string)
  | TenantQuotaExceeded (tenantID : string) (cooldownMs : Z)
  | ForwardQueryInstancesInfo.

Definition ExtractResources (i : Inst) : Z * Z := (default 0 (cpu_res i), default 0 (mem_res i)).
Definition IsSystemTenant (tenantID : string) : bool :=
  bool_decide (tenantID = ""%string) || bool_decide (tenantID = "0"%string).

Definition BindInstanceMgrAID (s : State) : State :=
  mkState (config_ s) (tenantUsage_ s) (instanceArrivalTime_ s) true (domainSched s).
Definition BindDomainSchedSrvAID (s : State) : State :=
  mkState (config_ s) (tenantUsage_ s) (instanceArrivalTime_ s) (instanceMgr s) true.
Definition Finalize (s : State) : State := mkState (config_ s) ∅ ∅ (instanceMgr s) (domainSched s).

(** ** Usage of one tenant *)
(** [std::multimap]: a new element comes after those of its key, and [erase] of
    a key takes all of them. *)
Definition multimap_insert (k : Z) (v : string) (l : list (Z * string)) : list (Z * string) :=
  filter (λ x, x.1 ≤ k) l ++ (k, v) :: filter (λ x, k < x.1) l.
Definition multimap_erase (k : Z) (l : list (Z * string)) : list (Z * string) := filter (λ x, x.1 ≠ k) l.

Definition charge (now : Z) (id : string) (r : Z * Z) (u : TenantUsage) : TenantUsage :=
  mkUsage (cpuMillicores u + r.1) (memMb u + r.2)
    (multimap_insert now id (sortedInstances u)) (<[id := r]> (instanceResources u)).

(** Nothing changes for an instance that is not tracked. *)
Definition discharge (id : string) (u : TenantUsage) : TenantUsage :=
  match instanceResources u !! id with
  | None => u
  | Some r => mkUsage (Z.max 0 (cpuMillicores u - r.1)) (Z.max 0 (memMb u - r.2))
                (sortedInstances u) (delete id (instanceResources u))
  end.

Definition set_sorted (l : list (Z * string)) (u : TenantUsage) : TenantUsage :=
  mkUsage (cpuMillicores u) (memMb u) l (instanceResources u).

Definition over (q : TenantQuota) (u : TenantUsage) : bool :=
  (q_cpuMillicores q <? cpuMillicores u) || (q_memLimitMb q <? memMb u).

(** The [while] loop over the instances, the newest first; the result is what
    was evicted. *)
Fixpoint evict (q : TenantQuota) (newest_first : list (Z * string)) (u : TenantUsage) : list string * TenantUsage :=
  match newest_first with
  | [] => ([], set_sorted [] u)
  | (k, id) :: l =>
      if over q u then let r := evict q l (discharge id u) in (id :: r.1, r.2)
      else ([], set_sorted (rev newest_first) u)
  end.

Definition evict_request (tenantID id : string) : string :=
  ("QUOTA_EVICT|tenantID=" +:+ tenantID +:+ "|instanceID=" +:+ id)%string.

(** ** Handlers *)
Definition set_usage (tn : string) (u : TenantUsage) (s : State) : State :=
  mkState (config_ s) (<[tn := u]> (tenantUsage_ s)) (instanceArrivalTime_ s) (instanceMgr s) (domainSched s).
Definition set_arrival (a : gmap string Z) (s : State) : State :=
  mkState (config_ s) (tenantUsage_ s) a (instanceMgr s) (domainSched s).

Definition CheckAndEnforce (tn : string) (s : State) : list Out * State :=
  if negb (IsEnabled (config_ s)) then ([], s)
  else
    let q := GetQuota tn (config_ s) in
    let u := default empty_usage (tenantUsage_ s !! tn) in
    if negb (over q u) then ([], set_usage tn u s)
    else
      let r := evict q (rev (sortedInstances u)) u in
      let s' := set_usage tn r.2 s in
      (((λ id, ForwardKill (evict_request tn id) id) <$> (if instanceMgr s then r.1 else []))
         ++ (if domainSched s then [TenantQuotaExceeded tn (q_cooldownMs q)] else []),
       set_arrival (foldr delete (instanceArrivalTime_ s') r.1) s').

(** One instance added to the books, for a message and for a snapshot. *)
Definition track (now : Z) (i : Inst) (s : State) : State :=
  let u := default empty_usage (tenantUsage_ s !! tenantid i) in
  set_arrival (<[instanceid i := now]> (instanceArrivalTime_ s))
    (set_usage (tenantid i) (charge now (instanceid i) (ExtractResources i) u) s).

(** [None]: a message that cannot be parsed. *)
Definition OnInstanceRunning (now : Z) (msg : option Inst) (s : State) : list Out * State :=
  match msg with
  | None => ([], s)
  | Some i => if IsSystemTenant (tenantid i) then ([], s) else CheckAndEnforce (tenantid i) (track now i s)
  end.

Definition OnInstanceExited (msg : option Inst) (s : State) : State :=
  match msg with
  | None => s
  | Some i =>
      if IsSystemTenant (tenantid i) then s
      else
        match tenantUsage_ s !! tenantid i with
        | None => s
        | Some u =>
            let u := discharge (instanceid i) u in
            match instanceArrivalTime_ s !! instanceid i with
            | None => set_usage (tenantid i) u s
            | Some k =>
                set_arrival (delete (instanceid i) (instanceArrivalTime_ s))
                  (set_usage (tenantid i) (set_sorted (multimap_erase k (sortedInstances u)) u) s)
            end
        end
  end.

Definition RebuildUsageFromSnapshot (s : State) : list Out * State :=
  (if instanceMgr s then [ForwardQueryInstancesInfo] else [], s).
Definition Init (s : State) : list Out * State := RebuildUsageFromSnapshot s.

(** [InstanceManagerDriver::Start]: [Spawn] runs [Init], then the address of the
    instance manager is bound. *)
Definition driver_start (s : State) : list Out * State :=
  let r := Init s in (r.1, BindInstanceMgrAID r.2).

Definition enforce_all (tns : list string) (s : State) : list Out * State :=
  foldl (λ a tn, let r := CheckAndEnforce tn a.2 in (a.1 ++ r.1, r.2)) ([], s) tns.

(** The tenants are visited in the order of the hash map. *)
Definition OnSnapshotRebuilt (now : Z) (code : Z) (infos : list Inst) (s : State) : list Out * State :=
  if negb (code =? 0) then ([], s)
  else
    let s0 := mkState (config_ s) ∅ ∅ (instanceMgr s) (domainSched s) in
    let s1 := foldl (λ s i, if IsSystemTenant (tenantid i) then s else track now i s) s0 infos in
    enforce_all (map_to_list (tenantUsage_ s1)).*1 s1.

Definition OnSnapshotResponse (now : Z) (msg : option (Z * list Inst)) (s : State) : list Out * State :=
  match msg with None => ([], s) | Some (code, infos) => OnSnapshotRebuilt now code infos s end.
End Quota.
