(* ===== verification/QuotaProps.v ===== *)
(** * The books of the quota manager are exact and every tenant is kept within
      its quota *)

From S2P Require Import Prelude Quota.
From Stdlib Require Import ZArith Lia.
From stdpp Require Import base gmap strings list fin_maps relations.

Open Scope Z_scope.

Module QuotaProps.
Import Quota.

(** ** Sums over the instances of a tenant *)
Definition total (w : string → Z * Z → Z) (m : gmap string (Z * Z)) : Z :=
  map_fold (λ id r acc, w id r + acc) 0 m.

Lemma total_empty w : total w ∅ = 0.
Proof. apply map_fold_empty. Qed.

Lemma total_insert w id r m : m !! id = None → total w (<[id := r]> m) = w id r + total w m.
Proof. intros Hn. unfold total. rewrite map_fold_insert_L; [done|intros; lia|done]. Qed.

Lemma total_delete w id r m : m !! id = Some r → total w (delete id m) = total w m - w id r.
Proof.
  intros Hr. rewrite <-(insert_delete_id m id r Hr) at 2.
  rewrite total_insert by apply lookup_delete_eq. lia.
Qed.

Lemma total_le w w' m :
  (∀ id r, m !! id = Some r → w id r ≤ w' id r) → total w m ≤ total w' m.
Proof.
  induction m as [|id r m Hn IH] using map_ind; intros Hle; [by rewrite !total_empty|].
  rewrite !total_insert by done.
  assert (w id r ≤ w' id r) by (apply Hle; by rewrite lookup_insert_eq).
  assert (total w m ≤ total w' m); [|lia]. apply IH. intros id' r' Hr'. apply Hle.
  rewrite lookup_insert_ne; [done|]. by intros ->; rewrite Hn in Hr'.
Qed.

Lemma total_ext w w' m :
  (∀ id r, m !! id = Some r → w id r = w' id r) → total w m = total w' m.
Proof. intros He. apply Z.le_antisymm; apply total_le; intros id r Hr; rewrite (He id r Hr); lia. Qed.

(** ** The two amounts *)
Definition part (mem : bool) (r : Z * Z) : Z := if mem then r.2 else r.1.
Definition used (mem : bool) (u : TenantUsage) : Z := if mem then memMb u else cpuMillicores u.
Definition limit (mem : bool) (q : TenantQuota) : Z := if mem then q_memLimitMb q else q_cpuMillicores q.

Definition all (mem : bool) (_ : string) (r : Z * Z) : Z := part mem r.
(** Instances that eviction cannot reach. *)
Definition fixed (mem : bool) (l : list (Z * string)) (id : string) (r : Z * Z) : Z :=
  if decide (id ∈ l.*2) then 0 else part mem r.

Lemma over_iff q u : over q u = true ↔ ∃ b, limit b q < used b u.
Proof.
  unfold over. rewrite orb_true_iff, !Z.ltb_lt. split.
  - intros [?|?]; [by exists false|by exists true].
  - intros [[] ?]; [by right|by left].
Qed.

Lemma not_over q u b : over q u = false → used b u ≤ limit b q.
Proof. intros Ho. apply Z.le_ngt. intros Hlt. assert (over q u = true); [apply over_iff; eauto|congruence]. Qed.

(** ** One tenant's books *)
Record books (u : TenantUsage) : Prop := {
  b_used : ∀ b, used b u = total (all b) (instanceResources u);
  b_pos : ∀ id r b, instanceResources u !! id = Some r → 0 ≤ part b r;
  b_sorted : ∀ k id, (k, id) ∈ sortedInstances u → is_Some (instanceResources u !! id);
  b_once : NoDup (sortedInstances u).*2;
}.

(** What cannot be evicted is within the quota. *)
Definition fixed_ok (q : TenantQuota) (u : TenantUsage) : Prop :=
  ∀ b, total (fixed b (sortedInstances u)) (instanceResources u) ≤ limit b q.

Lemma fixed_le b l u : books u → total (fixed b l) (instanceResources u) ≤ used b u.
Proof.
  intros Hb. rewrite (b_used u Hb). apply total_le. intros id r Hr. unfold fixed, all.
  case_decide; [by eapply b_pos|lia].
Qed.

Lemma fixed_nil b u : books u → total (fixed b []) (instanceResources u) = used b u.
Proof. intros Hb. rewrite (b_used u Hb). apply total_ext. intros id r _. unfold fixed. by rewrite decide_False by set_solver. Qed.

Lemma books_empty : books empty_usage.
Proof. split; simpl; [by intros []|done|set_solver|constructor]. Qed.

Lemma discharge_used b id r u :
  books u → instanceResources u !! id = Some r → used b (discharge id u) = used b u - part b r.
Proof.
  intros Hb Hr. unfold discharge. rewrite Hr.
  assert (part b r ≤ used b u); [|destruct b; simpl in *; lia].
  rewrite (b_used u Hb), <-(insert_delete_id _ _ _ Hr), total_insert by apply lookup_delete_eq.
  assert (0 ≤ total (all b) (delete id (instanceResources u))); [|unfold all at 1; lia].
  etrans; [|apply (total_le (λ _ _, 0))].
  - clear. induction (delete id (instanceResources u)) as [|i r m Hn IH] using map_ind;
      [by rewrite total_empty|]. rewrite total_insert by done. lia.
  - intros i r' [_ Hr']%lookup_delete_Some. by eapply (b_pos u Hb).
Qed.

(** ** The multimap *)
Lemma multimap_insert_perm k v l : multimap_insert k v l ≡ₚ (k, v) :: l.
Proof.
  unfold multimap_insert. rewrite <-Permutation_middle. apply Permutation_skip.
  induction l as [|[k' v'] l IH]; [done|]. rewrite !filter_cons. simpl.
  destruct (decide (k' ≤ k)); destruct (decide (k < k')); try lia; simpl; [by rewrite IH|].
  by rewrite <-Permutation_middle, IH.
Qed.

Lemma elem_of_erase k l x : x ∈ multimap_erase k l ↔ x ∈ l ∧ x.1 ≠ k.
Proof. unfold multimap_erase. rewrite list_elem_of_filter. tauto. Qed.

Lemma erase_sublist k l : multimap_erase k l `sublist_of` l.
Proof.
  unfold multimap_erase. induction l as [|x l IH]; [done|]. rewrite filter_cons.
  case_decide; [by apply sublist_skip|by apply sublist_cons].
Qed.

(** ** A new instance *)
Lemma charge_books now id r u :
  books u → instanceResources u !! id = None → (∀ b, 0 ≤ part b r) →
  books (charge now id r u)
  ∧ ∀ b, total (fixed b (sortedInstances (charge now id r u))) (instanceResources (charge now id r u))
         = total (fixed b (sortedInstances u)) (instanceResources u).
Proof.
  intros Hb Hn Hr.
  assert (id ∉ (sortedInstances u).*2) as Hns.
  { intros ([k i] & -> & Hin)%list_elem_of_fmap. apply (b_sorted u Hb) in Hin. simpl in Hn. rewrite Hn in Hin. by destruct Hin. }
  split; [split|]; unfold charge; simpl.
  - intros b. rewrite total_insert by done. unfold all at 1. pose proof (b_used u Hb b). destruct b; simpl in *; lia.
  - intros id' r' b. destruct (decide (id = id')) as [<-|Hne].
    + rewrite lookup_insert_eq. by intros [= <-].
    + rewrite lookup_insert_ne by done. apply (b_pos u Hb).
  - intros k id'. rewrite multimap_insert_perm. intros [[= -> ->]|Hin]%elem_of_cons; [by rewrite lookup_insert_eq|].
    destruct (decide (id = id')) as [<-|Hne]; [by rewrite lookup_insert_eq|]. rewrite lookup_insert_ne by done.
    by eapply (b_sorted u Hb).
  - rewrite multimap_insert_perm. simpl. apply NoDup_cons. split; [done|apply Hb].
  - intros b. rewrite total_insert by done. unfold fixed at 1. rewrite decide_True by (rewrite multimap_insert_perm; left).
    rewrite Z.add_0_l. apply total_ext. intros id' r' Hr'. unfold fixed. apply decide_ext.
    rewrite multimap_insert_perm. simpl. rewrite elem_of_cons. split; [|by right]. intros [->|?]; [congruence|done].
Qed.

(** ** An instance leaves *)
Lemma discharge_sorted id u : sortedInstances (discharge id u) = sortedInstances u.
Proof. unfold discharge. by case_match. Qed.

Lemma discharge_resources id u : instanceResources (discharge id u) = delete id (instanceResources u).
Proof. unfold discharge. case_match; [done|]. by rewrite delete_id. Qed.

(** The books with a list from which the instance is gone. *)
Lemma discharge_books id l u :
  books u → l `sublist_of` sortedInstances u → id ∉ l.*2 → books (set_sorted l (discharge id u)).
Proof.
  intros Hb Hl Hid. split; simpl.
  - intros b. change (used b (discharge id u) = total (all b) (instanceResources (discharge id u))).
    rewrite discharge_resources. destruct (instanceResources u !! id) as [r|] eqn:Hr.
    + rewrite (discharge_used b id r u Hb Hr), (total_delete _ _ _ _ Hr), (b_used u Hb). done.
    + rewrite delete_id by done. unfold discharge. rewrite Hr. apply Hb.
  - rewrite discharge_resources. intros id' r b [_ Hr]%lookup_delete_Some. by eapply (b_pos u Hb).
  - rewrite discharge_resources. intros k id' Hin. rewrite lookup_delete_ne.
    + eapply (b_sorted u Hb), elem_of_sublist; done.
    + intros ->. apply Hid, list_elem_of_fmap. by exists (k, id').
  - eapply sublist_NoDup; [apply Hb|by apply fmap_sublist].
Qed.

Lemma discharge_le b id u : books u → used b (discharge id u) ≤ used b u.
Proof.
  intros Hb. destruct (instanceResources u !! id) as [r|] eqn:Hr.
  - rewrite (discharge_used b id r u Hb Hr). pose proof (b_pos u Hb id r b Hr). lia.
  - unfold discharge. by rewrite Hr.
Qed.

(** ** Eviction *)
Lemma set_sorted_id u : set_sorted (sortedInstances u) u = u.
Proof. by destruct u. Qed.

Lemma evict_one k id l u :
  books (set_sorted (rev ((k, id) :: l)) u) →
  books (set_sorted (rev l) (discharge id u))
  ∧ ∀ b, total (fixed b (rev l)) (instanceResources (discharge id u))
         = total (fixed b (rev ((k, id) :: l))) (instanceResources u).
Proof.
  intros Hb. simpl rev in *.
  assert (id ∉ (rev l).*2 ∧ id ∈ (rev l ++ [(k, id)]).*2) as [Hn Hin].
  { pose proof (b_once _ Hb) as Hnd. simpl in Hnd. rewrite fmap_app in Hnd |- *. apply NoDup_app in Hnd as (_ & Hd & _).
    split; [|set_solver]. intros Hid. by apply (Hd id Hid), list_elem_of_singleton. }
  split.
  - change (set_sorted (rev l) (discharge id u)) with
      (set_sorted (rev l) (set_sorted (rev l ++ [(k, id)]) (discharge id u))).
    replace (set_sorted (rev l ++ [(k, id)]) (discharge id u))
      with (discharge id (set_sorted (rev l ++ [(k, id)]) u)) by (unfold discharge; simpl; by case_match).
    apply discharge_books; [done| |done]. simpl. apply sublist_inserts_r. done.
  - intros b. rewrite discharge_resources.
    destruct (b_sorted _ Hb k id) as [r Hr]; [simpl; set_solver|]. simpl in Hr.
    rewrite <-(insert_delete_id _ _ _ Hr), (total_insert (fixed b (rev l ++ _))) by apply lookup_delete_eq.
    rewrite delete_insert_eq, delete_delete_eq. unfold fixed at 2. rewrite decide_True, Z.add_0_l by done.
    apply total_ext. intros id' r' [Hne _]%lookup_delete_Some. unfold fixed. apply decide_ext.
    rewrite fmap_app, elem_of_app. simpl. rewrite list_elem_of_singleton. naive_solver.
Qed.

(** Eviction takes the newest instances, as many as are needed, and ends within
    the quota. *)
Lemma evict_spec q l u :
  books (set_sorted (rev l) u) → fixed_ok q (set_sorted (rev l) u) →
  let r := evict q l u in
  books r.2 ∧ fixed_ok q r.2 ∧ (∀ b, used b r.2 ≤ limit b q)
  ∧ (∃ n, r.1 = take n l.*2 ∧ sortedInstances r.2 = rev (drop n l))
  ∧ (∀ id, id ∉ r.1 → instanceResources r.2 !! id = instanceResources u !! id)
  ∧ ∀ id, is_Some (instanceResources r.2 !! id) → is_Some (instanceResources u !! id).
Proof.
  revert u. induction l as [|[k id] l IH]; intros u Hb Hf; simpl evict.
  { split_and!; try done; [|by exists 0%nat]. intros b. specialize (Hf b). simpl in Hf.
    change (instanceResources u) with (instanceResources (set_sorted [] u)) in Hf. by rewrite fixed_nil in Hf. }
  destruct (over q u) eqn:Ho.
  - destruct (evict_one k id l u Hb) as [Hb' Ht].
    assert (fixed_ok q (set_sorted (rev l) (discharge id u))) as Hf' by (intros b; simpl; rewrite Ht; apply (Hf b)).
    destruct (IH _ Hb' Hf') as (? & ? & ? & (n & Hn & Hd) & Hres & Hsub). split_and!; try done; simpl.
    + exists (S n). simpl. by rewrite Hn.
    + intros i Hi. rewrite Hres, discharge_resources by set_solver. rewrite lookup_delete_ne; [done|]. set_solver.
    + intros i [r Hr]%Hsub. rewrite discharge_resources in Hr. apply lookup_delete_Some in Hr as [_ ?]. by eexists.
  - split_and!; try done; [intros b; by apply not_over|by exists 0%nat].
Qed.

(** No victim is taken that was not needed. *)
Lemma evict_needed q l u n :
  (n < length (evict q l u).1)%nat → over q (foldl (λ u id, discharge id u) u (take n (evict q l u).1)) = true.
Proof.
  revert u n. induction l as [|[k id] l IH]; intros u n; simpl; [lia|].
  destruct (over q u) eqn:Ho; simpl; [|lia]. destruct n as [|n]; simpl; [done|]. intros Hn. apply IH. lia.
Qed.

(** ** The actor *)
Definition tracked (s : State) (tn id : string) : Prop :=
  ∃ u, tenantUsage_ s !! tn = Some u ∧ is_Some (instanceResources u !! id).

Record inv0 (s : State) : Prop := {
  v_books : ∀ tn u, tenantUsage_ s !! tn = Some u → books u;
  v_arrival : ∀ tn u k id, tenantUsage_ s !! tn = Some u → (k, id) ∈ sortedInstances u →
    instanceArrivalTime_ s !! id = Some k;
  v_one : ∀ tn tn' id, tracked s tn id → tracked s tn' id → tn = tn';
  v_fixed : ∀ tn u, IsEnabled (config_ s) = true → tenantUsage_ s !! tn = Some u →
    fixed_ok (GetQuota tn (config_ s)) u;
}.

Definition within (s : State) (tn : string) : Prop :=
  IsEnabled (config_ s) = true →
  ∀ u b, tenantUsage_ s !! tn = Some u → used b u ≤ limit b (GetQuota tn (config_ s)).

Definition sane (c : QuotaConfig) : Prop := ∀ tn b, 0 ≤ limit b (GetQuota tn c).

Definition usage (s : State) (tn : string) : TenantUsage := default empty_usage (tenantUsage_ s !! tn).

Lemma usage_ok s tn :
  sane (config_ s) → inv0 s →
  books (usage s tn) ∧ (IsEnabled (config_ s) = true → fixed_ok (GetQuota tn (config_ s)) (usage s tn))
  ∧ (∀ k id, (k, id) ∈ sortedInstances (usage s tn) → instanceArrivalTime_ s !! id = Some k)
  ∧ ∀ id, is_Some (instanceResources (usage s tn) !! id) → tracked s tn id.
Proof.
  intros Hq Hi. unfold usage. destruct (tenantUsage_ s !! tn) as [u|] eqn:Hu; simpl.
  - split_and!; [by eapply v_books|intros; by eapply v_fixed|intros; by eapply v_arrival|]. intros id Hid. by exists u.
  - split_and!; [apply books_empty| |set_solver|by intros ? []].
    intros _ b. simpl. rewrite total_empty. apply Hq.
Qed.

(** The usage of one tenant is replaced. *)
Lemma inv0_set tn u a s :
  inv0 s → books u → (IsEnabled (config_ s) = true → fixed_ok (GetQuota tn (config_ s)) u) →
  (∀ k id, (k, id) ∈ sortedInstances u → a !! id = Some k) →
  (∀ id, is_Some (instanceResources u !! id) → ∀ tn', tracked s tn' id → tn' = tn) →
  (∀ tn' u' k id, tn' ≠ tn → tenantUsage_ s !! tn' = Some u' → (k, id) ∈ sortedInstances u' → a !! id = Some k) →
  inv0 (set_arrival a (set_usage tn u s)).
Proof.
  intros Hi Hb Hf Ha Hone Hoth.
  assert (∀ tn' id, tracked (set_arrival a (set_usage tn u s)) tn' id →
    tn' = tn ∧ is_Some (instanceResources u !! id) ∨ tn' ≠ tn ∧ tracked s tn' id) as Htr.
  { intros tn' id (u' & Hu' & Hid). simpl in Hu'. destruct (decide (tn = tn')) as [<-|Hne].
    - rewrite lookup_insert_eq in Hu'. injection Hu' as <-. by left.
    - rewrite lookup_insert_ne in Hu' by done. right. split; [done|by exists u']. }
  split; simpl.
  - intros tn' u' [[<- <-]|[_ ?]]%lookup_insert_Some; [done|by eapply v_books].
  - intros tn' u' k id [[<- <-]|[? ?]]%lookup_insert_Some; [by apply Ha|by eapply Hoth].
  - intros t1 t2 id [[-> H1]|[Hn1 H1]]%Htr [[-> H2]|[Hn2 H2]]%Htr; [done| | |by eapply v_one].
    + symmetry. by eapply Hone.
    + by eapply Hone.
  - intros tn' u' He [[<- <-]|[_ ?]]%lookup_insert_Some; [by apply Hf|by eapply v_fixed].
Qed.

Lemma track_inv0 now i s :
  sane (config_ s) → inv0 s → (∀ tn, ¬ tracked s tn (instanceid i)) → (∀ b, 0 ≤ part b (ExtractResources i)) →
  inv0 (track now i s).
Proof.
  intros Hq Hi Hnew Hpos. destruct (usage_ok s (tenantid i) Hq Hi) as (Hb & Hf & Ha & Ht).
  unfold track. fold (usage s (tenantid i)).
  assert (instanceResources (usage s (tenantid i)) !! instanceid i = None) as Hn.
  { apply eq_None_not_Some. intros Hs%Ht. by eapply Hnew. }
  destruct (charge_books now (instanceid i) (ExtractResources i) _ Hb Hn Hpos) as [Hb' Hf'].
  apply inv0_set; try done.
  - intros He b. rewrite Hf'. by apply Hf.
  - intros k id. simpl. rewrite multimap_insert_perm. intros [[= -> ->]|Hin]%elem_of_cons; [by rewrite lookup_insert_eq|].
    rewrite lookup_insert_ne; [by apply Ha|]. intros <-. apply (b_sorted _ Hb) in Hin. rewrite Hn in Hin. by destruct Hin.
  - intros id. simpl. intros [r [[<- _]|[_ Hr]]%lookup_insert_Some] tn' Htr.
    + by destruct (Hnew tn').
    + eapply v_one; [done|done|]. apply Ht. by exists r.
  - intros tn' u' k id Hne Hu' Hin. rewrite lookup_insert_ne; [by eapply v_arrival|]. intros <-.
    apply (Hnew tn'). exists u'. split; [done|]. eapply b_sorted; [by eapply v_books|done].
Qed.

Lemma foldr_delete_lookup (ids : list string) (a : gmap string Z) id :
  id ∉ ids → foldr delete a ids !! id = a !! id.
Proof. intros Hn. induction ids as [|i ids IH]; [done|]. simpl. rewrite lookup_delete_ne by set_solver. apply IH. set_solver. Qed.

Lemma set_arrival_id s : set_arrival (instanceArrivalTime_ s) s = s.
Proof. by destruct s. Qed.

(** Enforcement gives the tenant's usage within its quota and touches no other. *)
Lemma enforce_usage tn s :
  sane (config_ s) → inv0 s → IsEnabled (config_ s) = true →
  ∃ u a, (CheckAndEnforce tn s).2 = set_arrival a (set_usage tn u s)
    ∧ books u ∧ fixed_ok (GetQuota tn (config_ s)) u ∧ (∀ b, used b u ≤ limit b (GetQuota tn (config_ s)))
    ∧ (∀ k id, (k, id) ∈ sortedInstances u → a !! id = Some k)
    ∧ (∀ id, is_Some (instanceResources u !! id) → tracked s tn id)
    ∧ ∀ id, ¬ tracked s tn id → a !! id = instanceArrivalTime_ s !! id.
Proof.
  intros Hq Hi He. destruct (usage_ok s tn Hq Hi) as (Hb & Hf & Ha & Ht).
  unfold CheckAndEnforce. rewrite He. simpl negb. cbv iota zeta. fold (usage s tn).
  destruct (over (GetQuota tn (config_ s)) (usage s tn)) eqn:Ho; simpl negb; cbv iota; simpl snd.
  2: { exists (usage s tn), (instanceArrivalTime_ s). split_and!; try done; [by apply Hf|].
       intros b. by apply not_over. }
  destruct (evict_spec (GetQuota tn (config_ s)) (rev (sortedInstances (usage s tn))) (usage s tn))
    as (Hb' & Hf' & Hw & (n & Hn & Hs) & Hres & Hsub).
  { by rewrite rev_involutive, set_sorted_id. }
  { rewrite rev_involutive, set_sorted_id. by apply Hf. }
  set (r := evict _ _ _) in *. eexists _, _. split; [reflexivity|].
  assert (∀ id, id ∈ r.1 → tracked s tn id) as Hev.
  { intros id Hid. rewrite Hn in Hid. apply elem_of_take in Hid as (j & Hj%list_elem_of_lookup_2 & _).
    rewrite <-Permutation_rev in Hj. apply list_elem_of_fmap in Hj as ([k i] & -> & Hin). by eapply Ht, b_sorted. }
  split_and!; try done.
  - intros k id Hin. rewrite Hs, <-Permutation_rev in Hin.
    assert (id ∉ r.1) as Hout.
    { rewrite Hn. pose proof (b_once _ Hb) as Hnd. rewrite (Permutation_rev (sortedInstances _)) in Hnd.
      rewrite <-(take_drop n (rev _)), fmap_app in Hnd. apply NoDup_app in Hnd as (_ & Hd & _).
      rewrite <-fmap_take. intros Hid%Hd. apply Hid, list_elem_of_fmap. by exists (k, id). }
    simpl. rewrite foldr_delete_lookup by done. apply Ha. rewrite (Permutation_rev (sortedInstances _)).
    rewrite <-(take_drop n (rev _)). apply elem_of_app. by right.
  - intros id Hid. by apply Ht, Hsub.
  - intros id Hid. simpl. apply foldr_delete_lookup. by intros ?%Hev.
Qed.

Lemma enforce_inv0 tn s :
  sane (config_ s) → inv0 s →
  let s' := (CheckAndEnforce tn s).2 in
  inv0 s' ∧ config_ s' = config_ s ∧ within s' tn ∧ ∀ tn', within s tn' → within s' tn'.
Proof.
  intros Hq Hi. destruct (IsEnabled (config_ s)) eqn:He.
  2: { unfold CheckAndEnforce, within. rewrite He. simpl. rewrite He. done. }
  destruct (enforce_usage tn s Hq Hi He) as (u & a & -> & Hb & Hf & Hw & Ha & Ht & Hout). simpl.
  split_and!; [|done| |].
  - apply inv0_set; try done.
    + intros id Hid tn' Htr. by eapply v_one; [| |apply Ht].
    + intros tn' u' k id Hne Hu' Hin. rewrite Hout; [by eapply v_arrival|]. intros Htr. apply Hne.
      eapply v_one; [done| |done]. exists u'. split; [done|]. eapply b_sorted; [by eapply v_books|done].
  - intros _ u' b. simpl. rewrite lookup_insert_eq. by intros [= <-].
  - intros tn' Hwi _ u' b. simpl. intros [[<- <-]|[_ ?]]%lookup_insert_Some; [done|by eapply Hwi].
Qed.

Lemma enforce_all_inv0 tns s :
  sane (config_ s) → inv0 s →
  let s' := (enforce_all tns s).2 in
  inv0 s' ∧ config_ s' = config_ s ∧ (∀ tn, within s tn ∨ tn ∈ tns → within s' tn).
Proof.
  unfold enforce_all. generalize ([] : list Out). revert s. induction tns as [|tn tns IH]; intros s os Hq Hi; simpl.
  { split_and!; [done..|]. intros tn [?|?%not_elem_of_nil]; done. }
  destruct (enforce_inv0 tn s Hq Hi) as (Hi' & Hc & Hw & Hws).
  destruct (IH _ (os ++ (CheckAndEnforce tn s).1) ltac:(by rewrite Hc) Hi') as (Hi2 & Hc2 & Hw2).
  split_and!; [done|congruence|]. intros tn' [?|[->|?]%elem_of_cons]; apply Hw2; auto.
Qed.

(** ** Every step *)
Definition inv (s : State) : Prop := sane (config_ s) ∧ inv0 s ∧ ∀ tn, within s tn.

Definition fits (i : Inst) : Prop := ∀ b, 0 ≤ part b (ExtractResources i).
Definition listed (infos : list Inst) : list Inst := filter (λ i, IsSystemTenant (tenantid i) = false) infos.

(** An instance is announced when it is not on the books, and leaves under the
    tenant it is on the books of. *)
Inductive step : State → State → Prop :=
  | step_running s now i :
      (∀ tn, ¬ tracked s tn (instanceid i)) → fits i → step s (OnInstanceRunning now (Some i) s).2
  | step_exited s i :
      (∀ tn, tracked s tn (instanceid i) → tn = tenantid i) → step s (OnInstanceExited (Some i) s)
  | step_snapshot s now code infos :
      NoDup (instanceid <$> listed infos) → Forall fits infos →
      step s (OnSnapshotResponse now (Some (code, infos)) s).2
  | step_bind_manager s : step s (BindInstanceMgrAID s)
  | step_bind_scheduler s : step s (BindDomainSchedSrvAID s)
  | step_finalize s : step s (Finalize s).

Definition start (c : QuotaConfig) : State := mkState c ∅ ∅ false false.

Lemma inv_running now i s :
  inv s → (∀ tn, ¬ tracked s tn (instanceid i)) → fits i → inv (OnInstanceRunning now (Some i) s).2.
Proof.
  intros (Hq & Hi & Hw) Hnew Hfit. simpl. destruct (IsSystemTenant (tenantid i)); [done|].
  pose proof (track_inv0 now i s Hq Hi Hnew Hfit) as Hi1.
  destruct (enforce_inv0 (tenantid i) (track now i s) Hq Hi1) as (Hi2 & Hc & Hwt & Hws).
  split_and!; [by rewrite Hc|done|]. intros tn. destruct (decide (tn = tenantid i)) as [->|Hne]; [done|].
  apply Hws. intros He u b. unfold track. simpl. rewrite lookup_insert_ne by done. by apply Hw.
Qed.

Lemma exit_books i u l k s :
  inv s → tenantUsage_ s !! tenantid i = Some u → l `sublist_of` sortedInstances u → instanceid i ∉ l.*2 →
  (∀ tn, tracked s tn (instanceid i) → tn = tenantid i) →
  (k = instanceArrivalTime_ s ∨ k = delete (instanceid i) (instanceArrivalTime_ s)) →
  inv (set_arrival k (set_usage (tenantid i) (set_sorted l (discharge (instanceid i) u)) s)).
Proof.
  intros (Hq & Hi & Hw) Hu Hl Hout Hown Hk. pose proof (v_books s Hi _ _ Hu) as Hb.
  pose proof (discharge_books (instanceid i) l u Hb Hl Hout) as Hb'.
  assert (∀ b, used b (set_sorted l (discharge (instanceid i) u)) ≤ used b u) as Hle
    by (intros b; apply (discharge_le b (instanceid i) u Hb)).
  assert (∀ id, id ≠ instanceid i → k !! id = instanceArrivalTime_ s !! id) as Hlook
    by (intros id Hne; destruct Hk as [->| ->]; [done|by rewrite lookup_delete_ne]).
  split_and!; [done| |].
  - apply inv0_set; try done.
    + intros He b. etrans; [by apply fixed_le|]. etrans; [apply Hle|]. by eapply Hw.
    + intros k' id Hin. simpl in Hin. rewrite Hlook.
      * eapply v_arrival; [done|done|]. by eapply elem_of_sublist.
      * intros ->. apply Hout, list_elem_of_fmap. by exists (k', instanceid i).
    + intros id. simpl. rewrite discharge_resources. intros [r [_ Hr]%lookup_delete_Some] tn' Htr.
      eapply v_one; [done|done|]. exists u. split; [done|by exists r].
    + intros tn' u' k' id Hne Hu' Hin. rewrite Hlook; [by eapply v_arrival|]. intros ->. apply Hne, Hown.
      exists u'. split; [done|]. eapply b_sorted; [by eapply v_books|done].
  - intros tn He u' b. simpl. intros [[<- <-]|[_ ?]]%lookup_insert_Some; [|by eapply Hw].
    etrans; [apply Hle|]. by eapply Hw.
Qed.

Lemma inv_exited i s :
  inv s → (∀ tn, tracked s tn (instanceid i) → tn = tenantid i) → inv (OnInstanceExited (Some i) s).
Proof.
  intros Hinv Hown. pose proof Hinv as (Hq & Hi & Hw). simpl. destruct (IsSystemTenant (tenantid i)); [done|].
  destruct (tenantUsage_ s !! tenantid i) as [u|] eqn:Hu; [|done].
  destruct (instanceArrivalTime_ s !! instanceid i) as [k|] eqn:Hk.
  - rewrite discharge_sorted. apply exit_books; try done; [apply erase_sublist| |by right].
    intros ([k' id] & Hid & [Hin Hne]%elem_of_erase)%list_elem_of_fmap. simpl in *. subst id. apply Hne.
    rewrite (v_arrival s Hi _ _ _ _ Hu Hin) in Hk. congruence.
  - rewrite <-(set_sorted_id (discharge _ u)), discharge_sorted, <-(set_arrival_id (set_usage _ _ _)).
    apply exit_books; try done; [|by left].
    intros ([k' id] & Hid & Hin)%list_elem_of_fmap. simpl in *. subst id.
    rewrite (v_arrival s Hi _ _ _ _ Hu Hin) in Hk. congruence.
Qed.

Lemma tracked_track now i s tn id : tracked (track now i s) tn id → tracked s tn id ∨ id = instanceid i.
Proof.
  intros (u & Hu & Hid). unfold track in Hu. simpl in Hu. destruct (decide (tenantid i = tn)) as [<-|Hne].
  - rewrite lookup_insert_eq in Hu. injection Hu as <-. simpl in Hid.
    destruct (decide (instanceid i = id)) as [<-|Hi]; [by right|]. rewrite lookup_insert_ne in Hid by done. left.
    destruct (tenantUsage_ s !! tenantid i) as [u|] eqn:Hu; simpl in Hid; [by exists u|].
    rewrite lookup_empty in Hid. by destruct Hid.
  - rewrite lookup_insert_ne in Hu by done. left. by exists u.
Qed.

Lemma snapshot_inv0 now infos s :
  sane (config_ s) → inv0 s → NoDup (instanceid <$> listed infos) → Forall fits infos →
  (∀ i tn, i ∈ listed infos → ¬ tracked s tn (instanceid i)) →
  let s' := foldl (λ s i, if IsSystemTenant (tenantid i) then s else track now i s) s infos in
  inv0 s' ∧ config_ s' = config_ s.
Proof.
  revert s. induction infos as [|i infos IH]; intros s Hq Hi Hnd Hfit Hnew; [done|]. simpl.
  apply Forall_cons in Hfit as [Hf Hfit]. unfold listed in Hnd, Hnew. rewrite filter_cons in Hnd, Hnew.
  destruct (IsSystemTenant (tenantid i)); [by apply IH|]. simpl in Hnd, Hnew.
  apply NoDup_cons in Hnd as [Hn Hnd].
  assert (inv0 (track now i s)) as Hi1 by (apply track_inv0; try done; intros tn; apply Hnew; left).
  apply (IH (track now i s)); try done.
  intros j tn Hj Htr%tracked_track. destruct Htr as [Htr|Heq].
  - eapply Hnew; [right|]; done.
  - apply Hn. rewrite <-Heq. by apply list_elem_of_fmap_2.
Qed.

Lemma inv0_cleared c a b : inv0 (mkState c ∅ ∅ a b).
Proof. split; simpl; try done; by intros tn tn' id (u & ? & _). Qed.

Lemma inv_snapshot now code infos s :
  inv s → NoDup (instanceid <$> listed infos) → Forall fits infos →
  inv (OnSnapshotResponse now (Some (code, infos)) s).2.
Proof.
  intros Hinv Hnd Hfit. pose proof Hinv as (Hq & _ & _). simpl. unfold OnSnapshotRebuilt.
  destruct (code =? 0); [|done]. cbn [negb]. cbv iota zeta.
  destruct (snapshot_inv0 now infos (mkState (config_ s) ∅ ∅ (instanceMgr s) (domainSched s)) Hq
    (inv0_cleared _ _ _) Hnd Hfit) as [Hi1 Hc1]; [by intros i tn _ (u & ? & _)|].
  set (s1 := foldl _ _ infos) in *.
  destruct (enforce_all_inv0 (map_to_list (tenantUsage_ s1)).*1 s1) as (Hi2 & Hc2 & Hw2); [by rewrite Hc1|done|].
  split_and!; [by rewrite Hc2, Hc1|done|]. intros tn. apply Hw2.
  destruct (tenantUsage_ s1 !! tn) as [u|] eqn:Hu; [right|left].
  - apply list_elem_of_fmap. exists (tn, u). by rewrite elem_of_map_to_list.
  - intros _ u b. by rewrite Hu.
Qed.

Lemma quota_inv_step s s' : inv s → step s s' → inv s'.
Proof.
  intros Hi Hs. destruct Hs as [s now i Hn Hf|s i Ho|s now code infos Hnd Hf|s|s|s].
  - by apply inv_running.
  - by apply inv_exited.
  - by apply inv_snapshot.
  - destruct Hi as (? & [] & ?). by split_and!.
  - destruct Hi as (? & [] & ?). by split_and!.
  - destruct Hi as (? & _ & _). split_and!; [done|apply inv0_cleared|]. by intros tn _ u b ?.
Qed.

(** The configuration is never changed. *)
Lemma enforce_config tn s : config_ (CheckAndEnforce tn s).2 = config_ s.
Proof. unfold CheckAndEnforce. by repeat case_match. Qed.

Lemma snapshot_config now code infos s : config_ (OnSnapshotRebuilt now code infos s).2 = config_ s.
Proof.
  unfold OnSnapshotRebuilt, enforce_all. destruct (negb _); [done|]. cbv zeta.
  set (s0 := mkState _ _ _ _ _). set (s1 := foldl _ s0 infos).
  assert (config_ s1 = config_ s) as <-.
  { subst s1. change (config_ s) with (config_ s0). generalize s0. clear.
    induction infos as [|i infos IH]; intros s; [done|]. simpl. rewrite IH. by case_match. }
  generalize ([] : list Out). generalize ((map_to_list (tenantUsage_ s1)).*1). intros tns. generalize s1. clear.
  induction tns as [|tn tns IH]; intros s os; [done|]. simpl. rewrite IH. apply enforce_config.
Qed.

Lemma step_config s s' : step s s' → config_ s' = config_ s.
Proof.
  destruct 1; simpl; try done; [case_match; [done|apply (enforce_config _ (track now i s))]|by repeat case_match|apply snapshot_config].
Qed.

Lemma quota_inv_reachable c s : sane c → rtc step (start c) s → inv s ∧ config_ s = c.
Proof.
  intros Hc. revert s. apply rtc_ind_r.
  - split; [|done]. split_and!; [done|apply inv0_cleared|]. by intros tn _ u b ?.
  - intros y z _ Hs [Hi Hcy]. split; [by eapply quota_inv_step|]. by rewrite (step_config y z Hs).
Qed.


(** Three instances of a tenant with a quota for two: the newest is killed. *)
Definition demo_config : QuotaConfig := mkConfig true (mkQuota 10 100 5000) ∅.
Definition demo_inst (id : string) : Inst := mkInst "t" id (Some 4) (Some 20).
Definition demo0 : State := BindInstanceMgrAID (start demo_config).
Definition demo1 : State := (OnInstanceRunning 10 (Some (demo_inst "a")) demo0).2.
Definition demo2 : State := (OnInstanceRunning 20 (Some (demo_inst "b")) demo1).2.
Definition demo_state : State := (OnInstanceRunning 30 (Some (demo_inst "c")) demo2).2.

Lemma not_tracked s id :
  forallb (λ u, negb (bool_decide (is_Some (instanceResources u !! id)))) (map_to_list (tenantUsage_ s)).*2 = true →
  ∀ tn, ¬ tracked s tn id.
Proof.
  rewrite forallb_forall. intros Hall tn (u & Hu & Hid).
  assert (In u (map_to_list (tenantUsage_ s)).*2) as Hin%Hall.
  { apply list_elem_of_In, list_elem_of_fmap. exists (tn, u). by rewrite elem_of_map_to_list. }
  apply negb_true_iff, bool_decide_eq_false in Hin. done.
Qed.

Lemma demo_announce s now id :
  forallb (λ u, negb (bool_decide (is_Some (instanceResources u !! id)))) (map_to_list (tenantUsage_ s)).*2 = true →
  step s (OnInstanceRunning now (Some (demo_inst id)) s).2.
Proof. intros Hn. apply step_running; [by apply not_tracked|]. intros []; vm_compute; discriminate. Qed.

Lemma quota_demo_reachable : rtc step (start demo_config) demo_state.
Proof.
  apply (rtc_l _ _ demo0); [apply step_bind_manager|].
  apply (rtc_l _ _ demo1); [apply (demo_announce demo0); vm_compute; reflexivity|].
  apply (rtc_l _ _ demo2); [apply (demo_announce demo1); vm_compute; reflexivity|].
  apply (rtc_l _ _ demo_state); [apply (demo_announce demo2); vm_compute; reflexivity|].
  apply rtc_refl.
Qed.

Definition demo_usage : TenantUsage := usage demo_state "t".
Lemma demo_lookup :
  tenantUsage_ demo_state !! "t"%string = Some demo_usage ∧ (sortedInstances demo_usage).*2 = ["a"; "b"]%string.
Proof. vm_compute. done. Qed.
Lemma demo_sane : sane demo_config.
Proof. intros tn []; unfold GetQuota; simpl; rewrite lookup_empty; simpl; lia. Qed.


(** ** Three defects *)
(** An instance that is announced twice is charged twice, and is killed although
    the tenant is within its quota. *)
Lemma running_counts_twice :
  let i := mkInst "t" "a" (Some 6) (Some 20) in
  let s := (OnInstanceRunning 10 (Some i) (BindInstanceMgrAID (start demo_config))).2 in
  (OnInstanceRunning 20 (Some i) s).1 = [ForwardKill (evict_request "t" "a") "a"].
Proof. vm_compute. reflexivity. Qed.

(** The exit of one of two instances of a snapshot, which share their arrival
    time, takes the other one from the order of eviction. *)
Lemma exit_forgets_peer :
  let s := (OnSnapshotRebuilt 10 0 [demo_inst "a"; demo_inst "b"] (start demo_config)).2 in
  let u := usage (OnInstanceExited (Some (demo_inst "a")) s) "t" in
  sortedInstances u = [] ∧ instanceResources u !! "b"%string = Some (4, 20).
Proof. vm_compute. done. Qed.

(** The address of the instance manager is bound after [Init] has run, so no
    snapshot is asked for. *)
Lemma snapshot_never_asked c : (driver_start (start c)).1 = [].
Proof. done. Qed.
End QuotaProps.
