(* ===== verification/Election.v ===== *)
(** * Election of a leader ([common/leader/txn_leader_actor.cpp])

    A node that finds no leader creates the election key in the metadata store,
    bound to a lease it keeps alive; the others watch the key and elect when it
    is deleted.  [TxnExplorerActor] ([common/explorer]) follows the key for
    everybody else.  The client of the store is what the handlers talk to; its
    answers are arguments. *)

From S2P Require Import Prelude.
From Stdlib Require Import ZArith Lia.
From stdpp Require Import base gmap strings list.

Open Scope Z_scope.

Module Election.

(** ** The actor *)
Record Actor := mkActor { leaseID_ : Z; campaigning_ : bool; leader_ : bool; watcher_ : bool }.
Definition new_actor : Actor := mkActor (-1) false false false.

(** A message to the actor itself. *)
Inductive Self := Elect_ | KeepAlive_ (leaseID : Z).

(** What is asked of the client, and messages to itself, at once or after
    [keepAliveInterval_]. *)
Inductive Out :=
  | GetAndWatch
  | Grant
  | CommitTxn (leaseID : Z)     (* if the key's create revision is 0, create it with the proposal and the lease *)
  | GetKey
  | KeepAliveOnce (leaseID : Z)
  | Revoke (leaseID : Z)
  | CloseWatcher
  | Tell (delayed : bool) (m : Self).

(** The answer to a read of the key: an error, or the value, if there is one. *)
Inductive GetResponse := GetError | GetValue (v : option string).
Inductive WatchEvent := PUT (v : string) | DELETE.

Abbreviation A := (Act Actor Out).

Definition set_lease (l : Z) (a : Actor) : Actor := mkActor l (campaigning_ a) (leader_ a) (watcher_ a).
Definition set_campaigning (b : bool) (a : Actor) : Actor := mkActor (leaseID_ a) b (leader_ a) (watcher_ a).
Definition set_leader (b : bool) (a : Actor) : Actor := mkActor (leaseID_ a) (campaigning_ a) b (watcher_ a).

(** [GetLeader] asks for the key and a watch of it. *)
Definition Init : A unit := post GetAndWatch.

(** The handler of the first answer. *)
Definition handler (r : GetResponse) : A unit :=
  match r with
  | GetError => post (Tell true Elect_)
  | GetValue None => post (Tell false Elect_)
  | GetValue (Some _) => mret tt
  end.

(** The events from the last one backwards, up to the first deletion; a put
    only touches metrics. *)
Fixpoint observe (newest_first : list WatchEvent) : A unit :=
  match newest_first with
  | [] => mret tt
  | DELETE :: _ => post (Tell false Elect_)
  | PUT _ :: l => observe l
  end.
Definition observer (events : list WatchEvent) : A unit := observe (rev events).

Definition OnWatch : A unit := modify (λ a, mkActor (leaseID_ a) (campaigning_ a) (leader_ a) true).

Definition Sync (r : GetResponse) : A unit :=
  match r with
  | GetError | GetValue None => post (Tell false Elect_)
  | GetValue (Some _) => mret tt
  end.

Definition Finalize : A unit :=
  a ← members;
  modify (λ a, set_campaigning false (set_leader false a)) ≫= λ _,
  act_when (watcher_ a) (post CloseWatcher) ≫= λ _,
  act_when (negb (leaseID_ a =? -1)) (post (Revoke (leaseID_ a))).

Definition Elect : A unit :=
  a ← members;
  if campaigning_ a then mret tt
  else modify (λ a, set_campaigning true (set_leader false a)) ≫= λ _, post Grant.

(** [None]: the lease was not granted.  The result goes on to [Campaign] or,
    as a failed future, to [OnCampaign]. *)
Definition OnGrantLease (leaseId : option Z) : A (option Z) :=
  match leaseId with
  | None => mret None
  | Some l => modify (set_lease l) ≫= λ _, post (Tell true (KeepAlive_ l)) ≫= λ _, mret (Some l)
  end.

Definition Campaign (leaseID : Z) : A unit := post (CommitTxn leaseID).

Definition OnCampaign (success : bool) : A unit :=
  modify (set_campaigning false) ≫= λ _,
  if success then modify (set_leader true)
  else
    modify (set_leader false) ≫= λ _,
    a ← members;
    act_when (negb (leaseID_ a =? -1)) (post (Revoke (leaseID_ a))) ≫= λ _,
    post GetKey.

(** The continuation of the read that follows a failed campaign. *)
Definition after_campaign (r : GetResponse) : A unit :=
  match r with
  | GetError => post (Tell true Elect_)
  | GetValue None => post (Tell false Elect_)
  | GetValue (Some _) => mret tt
  end.

Definition KeepAlive (leaseID : Z) : A unit :=
  a ← members;
  if negb (leaseID_ a =? -1) && negb (leaseID_ a =? leaseID) then mret tt
  else if negb (campaigning_ a) && negb (leader_ a) then mret tt
  else post (KeepAliveOnce leaseID) ≫= λ _, post (Tell true (KeepAlive_ leaseID)).

(** The continuation of a keep-alive; only the status is looked at. *)
Definition on_keep_alive (error : bool) : A unit := act_when error (post (Tell true Elect_)).

(** ** The explorer *)
Record LeaderInfo := mkInfo { name : string; address : string; electRevision : Z }.
Record Explorer := mkExplorer { electRevision_ : Z; cachedLeaderInfo_ : LeaderInfo; callbacks_ : list Z }.
Inductive Call := Callback (id : Z) (leader : LeaderInfo).

Record KeyValue := mkKv { key : string; value : string; mod_revision : Z }.

Definition OnWatchEvent (kv : KeyValue) : Act Explorer Call unit :=
  e ← members;
  if negb (mod_revision kv =? 0) && (mod_revision kv <=? electRevision_ e) then mret tt
  else
    let info := mkInfo (key kv) (value kv) (mod_revision kv) in
    modify (λ e, mkExplorer (mod_revision kv) info (callbacks_ e)) ≫= λ _,
    for_each (callbacks_ e) (λ id, post (Callback id info)).

(** The events of a batch are handed over from the last one backwards; those
    that are not a put ([None]) are skipped. *)
Definition explore (events : list (option KeyValue)) : Act Explorer Call unit :=
  for_each (rev events) (λ o, if o is Some kv then OnWatchEvent kv else mret tt).

(** [None]: an error. *)
Definition Explorer_Sync (r : option (list KeyValue)) : Act Explorer Call unit :=
  match r with
  | None | Some [] => mret tt
  | Some (kv :: _) => OnWatchEvent kv
  end.
End Election.
