(* ===== verification/ElectionProps.v ===== *)
(** * At most one leader, and no election is forgotten

    Nodes that run the election actor over one metadata store.  Every request
    is answered in its own time, the answer may be an error although the request
    had its effect, a campaign may reach the store late, events come in batches
    of any size, a watch may be lost and taken up again. *)

From S2P Require Import Prelude Election.
From Stdlib Require Import ZArith Lia.
From stdpp Require Import base gmap strings list relations.

Open Scope Z_scope.

Module ElectionProps.
Import Election.

#[export] Instance WatchEvent_eq_dec : EqDecision WatchEvent.
Proof. solve_decision. Defined.

(** ** Nodes and messages *)
(** Requests on their way to the store, messages of the actor to itself (timers
    included), and answers on their way back. *)
Inductive Msg :=
  | Ask (o : Out)
  | Note (m : Self)
  | AnsInit (r : GetResponse)
  | AnsGrant (leaseID : option Z)
  | DoCampaign (leaseID : Z)
  | AnsTxn (success : bool)
  | AnsGet (r : GetResponse)
  | AnsSync (r : GetResponse)
  | AnsKeep (error : bool).

Record Node := mkNode { actor : Actor; msgs : list Msg; events : list WatchEvent; watching : bool }.

Definition out_msg (o : Out) : list Msg :=
  match o with Tell _ m => [Note m] | CloseWatcher => [] | _ => [Ask o] end.

(** The handler of a message, with the continuation of a grant. *)
Definition handle (m : Msg) : A (list Msg) :=
  match m with
  | Ask _ => mret []
  | Note Elect_ => Elect ≫= λ _, mret []
  | Note (KeepAlive_ l) => KeepAlive l ≫= λ _, mret []
  | AnsInit r => handler r ≫= λ _, mret []
  | AnsGrant o => r ← OnGrantLease o; mret [if r is Some l then DoCampaign l else AnsTxn false]
  | DoCampaign l => Campaign l ≫= λ _, mret []
  | AnsTxn b => OnCampaign b ≫= λ _, mret []
  | AnsGet r => after_campaign r ≫= λ _, mret []
  | AnsSync r => Sync r ≫= λ _, mret []
  | AnsKeep e => on_keep_alive e ≫= λ _, mret []
  end.

Definition is_ask (m : Msg) : bool := if m is Ask _ then true else false.

Definition run_node (m : A (list Msg)) (rest : list Msg) (es : list WatchEvent) (nd : Node) : Node :=
  mkNode (exec m (actor nd)) (rest ++ val m (actor nd) ++ (outs m (actor nd) ≫= out_msg)) es (watching nd).

(** ** The store: who holds the key with which lease, the leases that are alive,
    and whom each was granted to *)
Record Store := mkStore { holder : option (string * Z); live : gset Z; granted : gmap Z string }.

Record Sys := mkSys { nodes : gmap string Node; store : Store; late : list (string * Z) }.

Definition start : Sys := mkSys ∅ (mkStore None ∅ ∅) [].

Definition tell (e : WatchEvent) (nd : Node) : Node :=
  if watching nd then mkNode (actor nd) (msgs nd) (events nd ++ [e]) true else nd.
Definition answer (l1 l2 : list Msg) (ms : list Msg) (w : bool) (nd : Node) : Node :=
  mkNode (actor nd) (l1 ++ l2 ++ ms) (events nd) w.

Definition key_value (s : Store) : option string := fst <$> holder s.

Definition create (n : string) (l : Z) (s : Store) : Store := mkStore (Some (n, l)) (live s) (granted s).

(** A lease ends, and the key with it. *)
Definition held_by (l : Z) (s : Store) : bool :=
  bool_decide (l ∈ live s) && (if holder s is Some (_, l') then l' =? l else false).
Definition end_lease (l : Z) (s : Store) : Store :=
  mkStore (if held_by l s then None else holder s) (live s ∖ {[l]}) (granted s).
Definition drop_lease (l : Z) (ns : gmap string Node) (s : Store) : gmap string Node * Store :=
  (if held_by l s then tell DELETE <$> ns else ns, end_lease l s).

(** [timely]: a lease does not run out while the campaign it was granted for is
    going on, and the read that follows a failed campaign gets a response,
    if only one with an error, before the client gives up on it. *)
Inductive step (timely : bool) : Sys → Sys → Prop :=
  | step_start ns s lt n :
      ns !! n = None → step timely (mkSys ns s lt) (mkSys (<[n := mkNode new_actor [Ask GetAndWatch] [] false]> ns) s lt)
  | step_handle ns s lt n nd l1 m l2 :
      ns !! n = Some nd → msgs nd = l1 ++ m :: l2 → is_ask m = false →
      step timely (mkSys ns s lt) (mkSys (<[n := run_node (handle m) (l1 ++ l2) (events nd) nd]> ns) s lt)
  | step_events ns s lt n nd batch es :
      ns !! n = Some nd → events nd = batch ++ es → batch ≠ [] →
      step timely (mkSys ns s lt)
        (mkSys (<[n := run_node (observer batch ≫= λ _, mret []) (msgs nd) es nd]> ns) s lt)
  | step_watched ns s lt n nd :
      ns !! n = Some nd →
      step timely (mkSys ns s lt)
        (mkSys (<[n := run_node (OnWatch ≫= λ _, mret []) (msgs nd) (events nd) nd]> ns) s lt)
  | step_watch_failed ns s lt n nd l1 l2 :
      ns !! n = Some nd → msgs nd = l1 ++ Ask GetAndWatch :: l2 →
      step timely (mkSys ns s lt)
        (mkSys (<[n := answer l1 l2 [Ask GetAndWatch; AnsInit GetError] (watching nd) nd]> ns) s lt)
  | step_watch ns s lt n nd l1 l2 :
      ns !! n = Some nd → msgs nd = l1 ++ Ask GetAndWatch :: l2 →
      step timely (mkSys ns s lt)
        (mkSys (<[n := answer l1 l2 [AnsInit (GetValue (key_value s))] true nd]> ns) s lt)
  | step_resync ns s lt n nd :
      ns !! n = Some nd → watching nd = true →
      step timely (mkSys ns s lt)
        (mkSys (<[n := mkNode (actor nd) (msgs nd ++ [AnsSync (GetValue (key_value s))]) [] true]> ns) s lt)
  | step_resync_failed ns s lt n nd :
      ns !! n = Some nd → watching nd = true →
      step timely (mkSys ns s lt)
        (mkSys (<[n := mkNode (actor nd) (msgs nd ++ [AnsSync GetError]) (events nd) true]> ns) s lt)
  | step_grant ns s lt n nd l1 l2 l :
      ns !! n = Some nd → msgs nd = l1 ++ Ask Grant :: l2 → granted s !! l = None →
      step timely (mkSys ns s lt)
        (mkSys (<[n := answer l1 l2 [AnsGrant (Some l)] (watching nd) nd]> ns)
           (mkStore (holder s) ({[l]} ∪ live s) (<[l := n]> (granted s))) lt)
  | step_grant_failed ns s lt n nd l1 l2 :
      ns !! n = Some nd → msgs nd = l1 ++ Ask Grant :: l2 →
      step timely (mkSys ns s lt) (mkSys (<[n := answer l1 l2 [AnsGrant None] (watching nd) nd]> ns) s lt)
  | step_won ns s lt n nd l1 l2 l ok :
      ns !! n = Some nd → msgs nd = l1 ++ Ask (CommitTxn l) :: l2 → holder s = None →
      step timely (mkSys ns s lt)
        (mkSys (tell (PUT n) <$> <[n := answer l1 l2 [AnsTxn ok] (watching nd) nd]> ns) (create n l s) lt)
  | step_lost ns s lt n nd l1 l2 l lt' :
      ns !! n = Some nd → msgs nd = l1 ++ Ask (CommitTxn l) :: l2 → lt' = lt ∨ lt' = (n, l) :: lt →
      step timely (mkSys ns s lt) (mkSys (<[n := answer l1 l2 [AnsTxn false] (watching nd) nd]> ns) s lt')
  | step_late ns s n l lt1 lt2 :
      holder s = None →
      step timely (mkSys ns s (lt1 ++ (n, l) :: lt2)) (mkSys (tell (PUT n) <$> ns) (create n l s) (lt1 ++ lt2))
  | step_get ns s lt n nd l1 l2 r :
      ns !! n = Some nd → msgs nd = l1 ++ Ask GetKey :: l2 → r = GetError ∨ r = GetValue (key_value s) →
      step timely (mkSys ns s lt) (mkSys (<[n := answer l1 l2 [AnsGet r] (watching nd) nd]> ns) s lt)
  | step_get_failed ns s lt n nd l1 l2 :
      timely = false → ns !! n = Some nd → msgs nd = l1 ++ Ask GetKey :: l2 →
      step timely (mkSys ns s lt) (mkSys (<[n := answer l1 l2 [] (watching nd) nd]> ns) s lt)
  | step_keep ns s lt n nd l1 l2 l error :
      ns !! n = Some nd → msgs nd = l1 ++ Ask (KeepAliveOnce l) :: l2 →
      step timely (mkSys ns s lt) (mkSys (<[n := answer l1 l2 [AnsKeep error] (watching nd) nd]> ns) s lt)
  | step_revoke ns s lt n nd l1 l2 l :
      ns !! n = Some nd → msgs nd = l1 ++ Ask (Revoke l) :: l2 →
      let x := drop_lease l (<[n := answer l1 l2 [] (watching nd) nd]> ns) s in
      step timely (mkSys ns s lt) (mkSys x.1 x.2 lt)
  | step_revoke_lost ns s lt n nd l1 l2 l :
      ns !! n = Some nd → msgs nd = l1 ++ Ask (Revoke l) :: l2 →
      step timely (mkSys ns s lt) (mkSys (<[n := answer l1 l2 [] (watching nd) nd]> ns) s lt)
  | step_expire ns s lt l :
      l ∈ live s →
      (timely = true → ∀ n nd, ns !! n = Some nd → campaigning_ (actor nd) = true → leaseID_ (actor nd) ≠ l) →
      let x := drop_lease l ns s in
      step timely (mkSys ns s lt) (mkSys x.1 x.2 lt).

(** ** What a node knows *)
(** Messages of a campaign. *)
Definition chain (m : Msg) : bool :=
  match m with
  | Ask Grant | AnsGrant _ | DoCampaign _ | Ask (CommitTxn _) | AnsTxn _ => true
  | _ => false
  end.
Definition count (l : list Msg) : nat := length (filter (λ m, chain m = true) l).

Definition bad (r : GetResponse) : bool := if r is GetValue (Some _) then false else true.
(** Messages that lead to an election. *)
Definition wakes (m : Msg) : bool :=
  match m with
  | Note Elect_ | Ask GetKey | Ask GetAndWatch => true
  | AnsGet r | AnsInit r | AnsSync r => bad r
  | _ => false
  end.
Definition underway (nd : Node) : Prop :=
  campaigning_ (actor nd) = true ∨ (∃ m, m ∈ msgs nd ∧ wakes m = true) ∨ DELETE ∈ events nd.

(** The key is held with the node's lease, as long as the lease is alive. *)
Definition rules (s : Store) (n : string) (l : Z) : Prop :=
  granted s !! l = Some n ∧ (l ∈ live s → holder s = Some (n, l)).

Definition chain_ok (timely : bool) (s : Store) (n : string) (nd : Node) (m : Msg) : Prop :=
  let mine l := granted s !! l = Some n ∧ Ask (Revoke l) ∉ msgs nd in
  match m with
  | AnsGrant (Some l) => mine l
  | DoCampaign l | Ask (CommitTxn l) => l = leaseID_ (actor nd) ∧ mine l
  | AnsTxn true =>
      mine (leaseID_ (actor nd)) ∧ rules s n (leaseID_ (actor nd))
      ∧ (timely = true → holder s = Some (n, leaseID_ (actor nd)))
  | _ => True
  end.

Record node_ok (timely : bool) (s : Store) (n : string) (nd : Node) : Prop := {
  k_count : count (msgs nd) = Nat.b2n (campaigning_ (actor nd));
  k_chain : ∀ m, m ∈ msgs nd → chain_ok timely s n nd m;
  k_leader : campaigning_ (actor nd) = true → leader_ (actor nd) = false;
  k_rules : leader_ (actor nd) = true → rules s n (leaseID_ (actor nd));
  k_mine : leaseID_ (actor nd) ≠ -1 → granted s !! leaseID_ (actor nd) = Some n;
  k_revoke : ∀ l, Ask (Revoke l) ∈ msgs nd → granted s !! l = Some n;
  k_watch : watching nd = false → Ask GetAndWatch ∈ msgs nd;
  k_live : timely = true → holder s = None → underway nd;
}.

(** ** Changes of the store, for a node that has no part in them *)
Lemma chain_count_app l1 l2 : count (l1 ++ l2) = (count l1 + count l2)%nat.
Proof. unfold count. by rewrite filter_app, length_app. Qed.
Lemma chain_count_cons m l : count (m :: l) = (Nat.b2n (chain m) + count l)%nat.
Proof. unfold count. rewrite filter_cons. by destruct (chain m). Qed.
Lemma count_0 l m : count l = 0%nat → m ∈ l → chain m = false.
Proof.
  unfold count. intros Hl%nil_length_inv Hm. destruct (chain m) eqn:Hc; [|done].
  assert (m ∈ filter (λ m, chain m = true) l) as Hf by by apply list_elem_of_filter.
  rewrite Hl in Hf. by apply not_elem_of_nil in Hf.
Qed.

Lemma tell_ok tm s n nd e : node_ok tm s n nd → node_ok tm s n (tell e nd).
Proof.
  intros Hok. unfold tell. destruct (watching nd) eqn:Hw; [|done]. destruct Hok as [? ? ? ? ? ? ? Hl].
  split; simpl; try done. intros Ht Hh. destruct (Hl Ht Hh) as [?|[?|?]]; unfold underway; simpl; [by auto..|].
  right. right. set_solver.
Qed.

(** The store may change as long as what the node relies on is kept. *)
Lemma node_ok_store tm s s' n nd :
  node_ok tm s n nd →
  (∀ l m, granted s !! l = Some m → granted s' !! l = Some m) →
  (∀ l, rules s n l → rules s' n l) →
  (tm = true → AnsTxn true ∈ msgs nd → holder s = Some (n, leaseID_ (actor nd)) →
     holder s' = Some (n, leaseID_ (actor nd))) →
  (tm = true → holder s' = None → underway nd) →
  node_ok tm s' n nd.
Proof.
  intros [] Hg Hr Hh Hl. split; try done; eauto.
  - intros m Hm. specialize (k_chain0 m Hm). destruct m as [[]| | |[]| |[]| | |]; simpl in *; naive_solver.
Qed.

Lemma grant_ok tm s n nd n' l :
  node_ok tm s n nd → granted s !! l = None →
  node_ok tm (mkStore (holder s) ({[l]} ∪ live s) (<[l := n']> (granted s))) n nd.
Proof.
  intros Hok Hl. eapply node_ok_store; [done|..]; simpl; try done.
  - intros l' m Hm. rewrite lookup_insert_ne; [done|]. congruence.
  - intros l' [Hg Hh]. split; simpl.
    + rewrite lookup_insert_ne; [done|]. congruence.
    + intros [->%elem_of_singleton|?]%elem_of_union; [congruence|by apply Hh].
  - apply Hok.
Qed.

Lemma create_ok tm s n nd n' l :
  node_ok tm s n nd → holder s = None → node_ok tm (create n' l s) n nd.
Proof.
  intros Hok Hn. eapply node_ok_store; [done|..]; simpl; try done.
  - intros l' [Hg Hh]. split; [done|]. intros Hl%Hh. simpl in *. congruence.
  - intros _ _. congruence.
Qed.

Lemma end_lease_ok tm s n nd l :
  node_ok tm s n nd → (tm = true → AnsTxn true ∈ msgs nd → leaseID_ (actor nd) ≠ l) →
  node_ok tm (end_lease l s) n (if held_by l s then tell DELETE nd else nd).
Proof.
  intros Hok Hne. unfold end_lease. destruct (held_by l s) eqn:Hh.
  - assert (l ∈ live s ∧ ∃ n', holder s = Some (n', l)) as (Hl & n' & Hn').
    { unfold held_by in Hh. apply andb_true_iff in Hh as [?%bool_decide_eq_true Hh]. split; [done|].
      destruct (holder s) as [[n' l']|]; [|done]. apply Z.eqb_eq in Hh as ->. by exists n'. }
    eapply node_ok_store; [by apply tell_ok|..]; simpl; try done.
    + intros l' [Hg Hr]. split; [done|]. intros [Hin Hnl]%elem_of_difference. apply Hr in Hin.
      simpl in *. assert (l' = l) by congruence. set_solver.
    + assert (∀ e, msgs (tell e nd) = msgs nd ∧ actor (tell e nd) = actor nd) as Hm
        by (intros e; unfold tell; by case_match).
      destruct (Hm DELETE) as [-> ->]. intros Ht Hin Hho. exfalso. apply (Hne Ht Hin). congruence.
    + intros _ _. unfold tell, underway. destruct (watching nd) eqn:Hw; simpl; [right; right; set_solver|].
      right. left. exists (Ask GetAndWatch). split; [by apply (k_watch _ _ _ _ Hok)|done].
  - eapply node_ok_store; [done|..]; simpl; try done.
    + intros l' [Hg Hr]. split; [done|]. intros [Hin _]%elem_of_difference. by apply Hr.
    + apply Hok.
Qed.

(** ** Changes of a node *)
Definition plain (x : Msg) : Prop := chain x = false ∧ ∀ l, x ≠ Ask (Revoke l).

Lemma chain_ok_plain tm s n nd x : chain x = false → chain_ok tm s n nd x.
Proof. by destruct x as [[]| | |[]| |[]| | |]. Qed.

(** Messages outside a campaign come and go. *)
Lemma node_ok_plain tm s n nd nd' :
  node_ok tm s n nd →
  count (msgs nd') = count (msgs nd) → (∀ x, x ∈ msgs nd' → x ∈ msgs nd ∨ plain x) →
  leaseID_ (actor nd') = leaseID_ (actor nd) → campaigning_ (actor nd') = campaigning_ (actor nd) →
  leader_ (actor nd') = leader_ (actor nd) →
  (watching nd' = false → Ask GetAndWatch ∈ msgs nd') → (tm = true → holder s = None → underway nd') →
  node_ok tm s n nd'.
Proof.
  intros Hok Hc Hx Hl Hca Hle Hw Hu.
  assert (∀ l, Ask (Revoke l) ∈ msgs nd' → Ask (Revoke l) ∈ msgs nd) as Hrev.
  { intros l [?|[_ Hn]]%Hx; [done|]. by destruct (Hn l). }
  destruct Hok. split; rewrite ?Hc, ?Hl, ?Hca, ?Hle; try done; [|by auto].
  intros x [Hin|[Hp _]]%Hx; [|by apply chain_ok_plain].
  specialize (k_chain0 x Hin). destruct x as [[]| | |[]| |[]| | |]; simpl in *; rewrite ?Hl; naive_solver.
Qed.

(** A campaign goes on: its one message is replaced. *)
Lemma node_ok_campaign tm s n nd nd' :
  node_ok tm s n nd →
  (∃ m ms, count (msgs nd') = 1%nat ∧ chain m = true ∧ m ∈ msgs nd' ∧ chain_ok tm s n nd' m
     ∧ (∀ x, x ∈ msgs nd' → x = m ∨ (x ∈ msgs nd ∧ chain x = false) ∨ x ∈ ms) ∧ Forall plain ms) →
  campaigning_ (actor nd') = true → leader_ (actor nd') = false →
  (leaseID_ (actor nd') ≠ -1 → granted s !! leaseID_ (actor nd') = Some n) →
  (watching nd' = false → Ask GetAndWatch ∈ msgs nd') →
  node_ok tm s n nd'.
Proof.
  intros Hok (m & ms & Hc & Hm & Hin & Hcm & Hx & Hms) Hca Hle Hl Hw. rewrite Forall_forall in Hms.
  split; rewrite ?Hca, ?Hle; try done.
  - intros x [->|[[_ Hp]|Hp%Hms]]%Hx; [done|by apply chain_ok_plain|by apply chain_ok_plain, Hp].
  - intros l [Heq|[[Hr _]|Hr%Hms]]%Hx; [by subst m|by eapply (k_revoke _ _ _ _ Hok)|by destruct (proj2 Hr l)].
  - intros _ _. by left.
Qed.

Lemma campaign_message tm s n nd l1 m l2 :
  node_ok tm s n nd → msgs nd = l1 ++ m :: l2 → chain m = true →
  campaigning_ (actor nd) = true ∧ count (l1 ++ l2) = 0%nat.
Proof.
  intros Hok Hm Hc. pose proof (k_count _ _ _ _ Hok) as Hcnt. rewrite Hm, chain_count_app, chain_count_cons, Hc in Hcnt.
  rewrite chain_count_app. destruct (campaigning_ (actor nd)); simpl in *; split; done || lia.
Qed.

Lemma watch_kept tm s n nd l1 m l2 :
  node_ok tm s n nd → msgs nd = l1 ++ m :: l2 → m ≠ Ask GetAndWatch → watching nd = false →
  Ask GetAndWatch ∈ l1 ++ l2.
Proof. intros Hok Hm Hne Hw%(k_watch _ _ _ _ Hok). rewrite Hm in Hw. set_solver. Qed.

(** A message that wakes nobody can go. *)
Lemma underway_kept nd nd' l1 m l2 ms :
  underway nd → msgs nd = l1 ++ m :: l2 → wakes m = false → msgs nd' = l1 ++ l2 ++ ms →
  campaigning_ (actor nd') = campaigning_ (actor nd) → events nd' = events nd → underway nd'.
Proof.
  intros Hu Hm Hw Hm' Hc He. unfold underway. rewrite Hc, He, Hm'. destruct Hu as [?|[(x & Hx & Hwx)|?]]; [by auto| |by auto].
  right. left. exists x. split; [|done]. rewrite Hm in Hx. assert (x ≠ m) by congruence. set_solver.
Qed.

(** ** Handlers *)
Lemma run_elect rest es nd :
  run_node (handle (Note Elect_)) rest es nd
  = if campaigning_ (actor nd) then mkNode (actor nd) (rest ++ []) es (watching nd)
    else mkNode (set_campaigning true (set_leader false (actor nd))) (rest ++ [Ask Grant]) es (watching nd).
Proof. destruct nd as [[l [] ld w] ms es' wt]; done. Qed.

Lemma run_keep_alive l rest es nd :
  ∃ ms, run_node (handle (Note (KeepAlive_ l))) rest es nd = mkNode (actor nd) (rest ++ ms) es (watching nd)
    ∧ Forall plain ms ∧ count ms = 0%nat.
Proof.
  destruct nd as [[l' c ld w] ms es' wt]. unfold run_node, handle, KeepAlive, exec, val, outs. simpl.
  destruct (negb (l' =? -1) && negb (l' =? l)); simpl; [by exists []; repeat constructor|].
  destruct (negb c && negb ld); simpl; [by exists []; repeat constructor|].
  exists [Ask (KeepAliveOnce l); Note (KeepAlive_ l)]. split_and!; [done| |done].
  by repeat first [apply Forall_cons; split|apply Forall_nil; done].
Qed.

Definition waker (r : GetResponse) : list Msg := if bad r then [Note Elect_] else [].
Lemma run_answers r rest es nd :
  run_node (handle (AnsInit r)) rest es nd = mkNode (actor nd) (rest ++ waker r) es (watching nd)
  ∧ run_node (handle (AnsGet r)) rest es nd = mkNode (actor nd) (rest ++ waker r) es (watching nd)
  ∧ run_node (handle (AnsSync r)) rest es nd = mkNode (actor nd) (rest ++ waker r) es (watching nd).
Proof. destruct nd, r as [|[]]; done. Qed.

Lemma run_grant l rest es nd :
  run_node (handle (AnsGrant (Some l))) rest es nd
  = mkNode (set_lease l (actor nd)) (rest ++ [DoCampaign l; Note (KeepAlive_ l)]) es (watching nd).
Proof. by destruct nd. Qed.
Lemma run_no_grant rest es nd :
  run_node (handle (AnsGrant None)) rest es nd = mkNode (actor nd) (rest ++ [AnsTxn false]) es (watching nd).
Proof. by destruct nd. Qed.
Lemma run_campaign l rest es nd :
  run_node (handle (DoCampaign l)) rest es nd = mkNode (actor nd) (rest ++ [Ask (CommitTxn l)]) es (watching nd).
Proof. by destruct nd. Qed.
Lemma run_won rest es nd :
  run_node (handle (AnsTxn true)) rest es nd
  = mkNode (set_leader true (set_campaigning false (actor nd))) (rest ++ []) es (watching nd).
Proof. by destruct nd. Qed.
Lemma run_lost rest es nd :
  run_node (handle (AnsTxn false)) rest es nd
  = mkNode (set_leader false (set_campaigning false (actor nd)))
      (rest ++ (if leaseID_ (actor nd) =? -1 then [] else [Ask (Revoke (leaseID_ (actor nd)))]) ++ [Ask GetKey])
      es (watching nd).
Proof.
  destruct nd as [[l c ld w] ms es' wt]. unfold run_node, handle, OnCampaign, exec, val, outs. simpl.
  by destruct (l =? -1).
Qed.
Lemma run_keep e rest es nd :
  run_node (handle (AnsKeep e)) rest es nd
  = mkNode (actor nd) (rest ++ (if e then [Note Elect_] else [])) es (watching nd).
Proof. by destruct nd, e. Qed.

Lemma run_watched rest es nd :
  run_node (OnWatch ≫= λ _, mret []) rest es nd
  = mkNode (mkActor (leaseID_ (actor nd)) (campaigning_ (actor nd)) (leader_ (actor nd)) true) (rest ++ []) es (watching nd).
Proof. by destruct nd. Qed.

Lemma run_observer batch rest es nd :
  run_node (observer batch ≫= λ _, mret []) rest es nd
  = mkNode (actor nd) (rest ++ (if decide (DELETE ∈ batch) then [Note Elect_] else [])) es (watching nd).
Proof.
  assert (∀ l a, exec (observe l) a = a ∧ outs (observe l) a = if decide (DELETE ∈ l) then [Tell false Elect_] else [])
    as Hobs.
  { induction l as [|[v|] l IH]; intros a; cbn [observe].
    - split; [done|]. by rewrite decide_False by set_solver.
    - destruct (IH a) as [-> ->]. split; [done|]. apply decide_ext. set_solver.
    - split; [done|]. by rewrite decide_True by left. }
  unfold run_node, observer. act_simpl. destruct (Hobs (rev batch) (actor nd)) as [-> ->].
  rewrite (decide_ext _ (DELETE ∈ batch)) by (by rewrite <-Permutation_rev).
  case_decide; simpl; by rewrite ?app_nil_r.
Qed.

(** A message outside a campaign is replaced by plain ones. *)
Lemma node_ok_swap tm s n nd l1 m l2 ms es w :
  node_ok tm s n nd → msgs nd = l1 ++ m :: l2 → chain m = false → Forall plain ms → count ms = 0%nat →
  let nd' := mkNode (actor nd) (l1 ++ l2 ++ ms) es w in
  (w = false → Ask GetAndWatch ∈ l1 ++ l2 ++ ms) → (tm = true → holder s = None → underway nd') →
  node_ok tm s n nd'.
Proof.
  intros Hok Hm Hc Hms Hcnt nd' Hw Hu. apply (node_ok_plain tm s n nd); try done; simpl.
  - rewrite Hm, !chain_count_app, chain_count_cons, Hc, Hcnt. simpl. lia.
  - rewrite Forall_forall in Hms. intros x. rewrite Hm, !elem_of_app, elem_of_cons. intros [?|[?|?%Hms]]; auto.
Qed.

Lemma plain_note : plain (Note Elect_).
Proof. done. Qed.
Lemma waker_plain r : Forall plain (waker r) ∧ count (waker r) = 0%nat.
Proof. unfold waker. destruct (bad r); [|by repeat constructor]. split; [|done]. by apply Forall_singleton. Qed.

Lemma answers_ok tm s n nd l1 m l2 r :
  node_ok tm s n nd → msgs nd = l1 ++ m :: l2 → chain m = false → m ≠ Ask GetAndWatch → wakes m = bad r →
  node_ok tm s n (mkNode (actor nd) ((l1 ++ l2) ++ waker r) (events nd) (watching nd)).
Proof.
  intros Hok Hm Hc Hne Hw. rewrite <-app_assoc. destruct (waker_plain r) as [Hp Hcnt].
  apply (node_ok_swap tm s n nd l1 m l2); try done.
  - intros Hwt. rewrite app_assoc. apply elem_of_app. left. by eapply watch_kept.
  - intros Ht Hh. destruct (bad r) eqn:Hb.
    + right. left. exists (Note Elect_). split; [|done]. simpl. unfold waker. rewrite Hb. set_solver.
    + apply (underway_kept nd _ l1 m l2 (waker r)); try done. by apply (k_live _ _ _ _ Hok).
Qed.

(** The message of a campaign is replaced by its next one. *)
Lemma next_ok tm s n nd l1 m l2 a m' ms :
  node_ok tm s n nd → msgs nd = l1 ++ m :: l2 → chain m = true → chain m' = true → Forall plain ms → count ms = 0%nat →
  campaigning_ a = true → leader_ a = false → (leaseID_ a ≠ -1 → granted s !! leaseID_ a = Some n) →
  let nd' := mkNode a ((l1 ++ l2) ++ m' :: ms) (events nd) (watching nd) in
  chain_ok tm s n nd' m' → node_ok tm s n nd'.
Proof.
  intros Hok Hm Hc Hc' Hms Hcnt Hca Hle Hl nd' Hm'.
  destruct (campaign_message _ _ _ _ _ _ _ Hok Hm Hc) as [_ H0].
  apply (node_ok_campaign tm s n nd); try done; simpl.
  - exists m', ms. split_and!; try done.
    + rewrite chain_count_app, chain_count_cons, H0, Hc', Hcnt. done.
    + set_solver.
    + intros x [Hx|[->|Hx]%elem_of_cons]%elem_of_app; [right; left|by left|by right; right].
      split; [rewrite Hm; set_solver|exact (count_0 _ _ H0 Hx)].
  - intros Hw. apply elem_of_app. left. eapply watch_kept; [done..| |done]. by intros ->.
Qed.

Lemma elect_ok tm s n nd l1 l2 :
  node_ok tm s n nd → msgs nd = l1 ++ Note Elect_ :: l2 →
  node_ok tm s n (run_node (handle (Note Elect_)) (l1 ++ l2) (events nd) nd).
Proof.
  intros Hok Hm. rewrite run_elect. destruct (campaigning_ (actor nd)) eqn:Hc.
  - rewrite <-app_assoc. apply (node_ok_swap tm s n nd l1 (Note Elect_) l2); try done.
    + intros Hw. rewrite app_nil_r. by eapply watch_kept.
    + intros _ _. by left.
  - assert (count (l1 ++ l2) = 0%nat) as H0.
    { pose proof (k_count _ _ _ _ Hok) as Hk. rewrite Hm, Hc, chain_count_app, chain_count_cons in Hk. simpl in Hk.
      rewrite chain_count_app. lia. }
    apply (node_ok_campaign tm s n nd); simpl; try done; [|by apply Hok|].
    + exists (Ask Grant), []. split_and!; try done; [by rewrite chain_count_app, H0|set_solver|].
      intros x [Hx| ->%list_elem_of_singleton]%elem_of_app; [|by left]. right. left.
      split; [rewrite Hm; set_solver|exact (count_0 _ _ H0 Hx)].
    + intros Hw. apply elem_of_app. left. by eapply watch_kept.
Qed.

Lemma lost_ok tm s n nd l1 l2 :
  node_ok tm s n nd → msgs nd = l1 ++ AnsTxn false :: l2 →
  node_ok tm s n (run_node (handle (AnsTxn false)) (l1 ++ l2) (events nd) nd).
Proof.
  intros Hok Hm. rewrite run_lost. destruct (campaign_message _ _ _ _ _ _ _ Hok Hm eq_refl) as [_ H0].
  set (ms := (if leaseID_ (actor nd) =? -1 then [] else [Ask (Revoke (leaseID_ (actor nd)))]) ++ [Ask GetKey]).
  assert (∀ x, x ∈ ms → x = Ask GetKey ∨ x = Ask (Revoke (leaseID_ (actor nd))) ∧ leaseID_ (actor nd) ≠ -1) as Hms.
  { subst ms. intros x. destruct (Z.eqb_spec (leaseID_ (actor nd)) (-1)); set_solver. }
  assert (count ms = 0%nat) as Hcnt by (subst ms; by case_match).
  split; simpl; try done.
  - by rewrite chain_count_app, H0, Hcnt.
  - intros x [Hx|Hx%Hms]%elem_of_app; apply chain_ok_plain; [exact (count_0 _ _ H0 Hx)|].
    destruct Hx as [->|[-> _]]; done.
  - apply Hok.
  - intros l [Hx|Hx%Hms]%elem_of_app.
    + apply (k_revoke _ _ _ _ Hok). rewrite Hm. set_solver.
    + destruct Hx as [?|[[= ->] Hne]]; [done|]. by apply (k_mine _ _ _ _ Hok).
  - intros Hw. apply elem_of_app. left. by eapply watch_kept.
  - intros _ _. right. left. exists (Ask GetKey). split; [|done]. simpl. subst ms. set_solver.
Qed.

Lemma won_ok tm s n nd l1 l2 :
  node_ok tm s n nd → msgs nd = l1 ++ AnsTxn true :: l2 →
  node_ok tm s n (run_node (handle (AnsTxn true)) (l1 ++ l2) (events nd) nd).
Proof.
  intros Hok Hm. rewrite run_won, app_nil_r. destruct (campaign_message _ _ _ _ _ _ _ Hok Hm eq_refl) as [_ H0].
  assert (AnsTxn true ∈ msgs nd) as Hin by (rewrite Hm; set_solver).
  destruct (k_chain _ _ _ _ Hok _ Hin) as (_ & Hr & Ht).
  split; simpl; try done.
  - intros x Hx. apply chain_ok_plain. exact (count_0 _ _ H0 Hx).
  - apply Hok.
  - intros l Hx. apply (k_revoke _ _ _ _ Hok). rewrite Hm. set_solver.
  - intros Hw. by eapply watch_kept.
  - intros Htm Hh. rewrite (Ht Htm) in Hh. done.
Qed.

Lemma handle_ok tm s n nd l1 m l2 :
  node_ok tm s n nd → msgs nd = l1 ++ m :: l2 → is_ask m = false →
  node_ok tm s n (run_node (handle m) (l1 ++ l2) (events nd) nd).
Proof.
  intros Hok Hm Ha. assert (m ∈ msgs nd) as Hin by (rewrite Hm; set_solver).
  pose proof (k_chain _ _ _ _ Hok m Hin) as Hch.
  destruct m as [o|[|l]|r|[l|]|l|[]|r|r|e]; [done|..].
  - by apply elect_ok.
  - destruct (run_keep_alive l (l1 ++ l2) (events nd) nd) as (ms & -> & Hp & Hc). rewrite <-app_assoc.
    apply (node_ok_swap tm s n nd l1 (Note (KeepAlive_ l)) l2); try done.
    + intros Hw. rewrite app_assoc. apply elem_of_app. left. by eapply watch_kept.
    + intros Ht Hh. apply (underway_kept nd _ l1 (Note (KeepAlive_ l)) l2 ms); try done. by apply (k_live _ _ _ _ Hok).
  - rewrite (proj1 (run_answers r _ _ _)). by apply (answers_ok tm s n nd l1 (AnsInit r)).
  - rewrite run_grant. destruct (campaign_message _ _ _ _ _ _ _ Hok Hm eq_refl) as [Hca _]. destruct Hch as [Hg Hn].
    apply (next_ok tm s n nd l1 (AnsGrant (Some l)) l2 _ (DoCampaign l)); simpl; try done.
    + by repeat constructor.
    + by apply (k_leader _ _ _ _ Hok).
    + split_and!; [done..|]. rewrite Hm in Hn. set_solver.
  - rewrite run_no_grant. destruct (campaign_message _ _ _ _ _ _ _ Hok Hm eq_refl) as [Hca _].
    apply (next_ok tm s n nd l1 (AnsGrant None) l2 _ (AnsTxn false) []); simpl; try done;
      [by apply (k_leader _ _ _ _ Hok)|by apply (k_mine _ _ _ _ Hok)].
  - rewrite run_campaign. destruct (campaign_message _ _ _ _ _ _ _ Hok Hm eq_refl) as [Hca _].
    destruct Hch as (-> & Hg & Hn).
    apply (next_ok tm s n nd l1 (DoCampaign (leaseID_ (actor nd))) l2 _ (Ask (CommitTxn (leaseID_ (actor nd)))) []);
      simpl; try done; [by apply (k_leader _ _ _ _ Hok)|].
    split_and!; [done..|]. rewrite Hm in Hn. set_solver.
  - by apply won_ok.
  - by apply lost_ok.
  - rewrite (proj1 (proj2 (run_answers r _ _ _))). by apply (answers_ok tm s n nd l1 (AnsGet r)).
  - rewrite (proj2 (proj2 (run_answers r _ _ _))). by apply (answers_ok tm s n nd l1 (AnsSync r)).
  - rewrite run_keep, <-app_assoc. apply (node_ok_swap tm s n nd l1 (AnsKeep e) l2); try done.
    + destruct e; by repeat constructor.
    + by destruct e.
    + intros Hw. rewrite app_assoc. apply elem_of_app. left. by eapply watch_kept.
    + intros Ht Hh. apply (underway_kept nd _ l1 (AnsKeep e) l2 (if e then [Note Elect_] else [])); try done.
      by apply (k_live _ _ _ _ Hok).
Qed.

(** ** Every step *)
Definition all_ok (tm : bool) (s : Store) (ns : gmap string Node) : Prop :=
  ∀ n nd, ns !! n = Some nd → node_ok tm s n nd.

Lemma all_insert tm s ns n nd : all_ok tm s ns → node_ok tm s n nd → all_ok tm s (<[n := nd]> ns).
Proof. intros Hall Hok n' nd' [[<- <-]|[_ ?]]%lookup_insert_Some; [done|by apply Hall]. Qed.

Lemma all_tell tm s ns e : all_ok tm s ns → all_ok tm s (tell e <$> ns).
Proof. intros Hall n nd. rewrite lookup_fmap. intros (nd' & Hnd & ->)%fmap_Some. by apply tell_ok, Hall. Qed.

Lemma won_campaigns tm s n nd : node_ok tm s n nd → AnsTxn true ∈ msgs nd → campaigning_ (actor nd) = true.
Proof.
  intros Hok (l1 & l2 & Hm)%list_elem_of_split. by destruct (campaign_message _ _ _ _ _ _ _ Hok Hm eq_refl).
Qed.

Lemma all_end_lease tm s ns l :
  all_ok tm s ns →
  (∀ n nd, ns !! n = Some nd → tm = true → AnsTxn true ∈ msgs nd → leaseID_ (actor nd) ≠ l) →
  all_ok tm (end_lease l s) (drop_lease l ns s).1.
Proof.
  intros Hall Hne n nd Hnd. unfold drop_lease in Hnd. simpl in Hnd.
  assert (∃ nd', ns !! n = Some nd' ∧ nd = if held_by l s then tell DELETE nd' else nd') as (nd' & Hnd' & ->).
  { destruct (held_by l s); [|by exists nd]. rewrite lookup_fmap in Hnd. by apply fmap_Some in Hnd. }
  apply end_lease_ok; [by apply Hall|by eapply Hne].
Qed.

(** A request outside a campaign gets its answer. *)
Lemma ask_ok tm s n nd l1 m l2 ms w :
  node_ok tm s n nd → msgs nd = l1 ++ m :: l2 → chain m = false → Forall plain ms → count ms = 0%nat →
  (w = false → watching nd = false ∧ (m ≠ Ask GetAndWatch ∨ Ask GetAndWatch ∈ ms)) →
  (tm = true → wakes m = true → holder s = None → ∃ x, x ∈ ms ∧ wakes x = true) →
  node_ok tm s n (answer l1 l2 ms w nd).
Proof.
  intros Hok Hm Hc Hms Hcnt Hw Hwk. apply (node_ok_swap tm s n nd l1 m l2); try done.
  - intros [Hwt [Hne|Hin]]%Hw; [|set_solver]. rewrite app_assoc. apply elem_of_app. left. by eapply watch_kept.
  - intros Ht Hh. destruct (wakes m) eqn:Hwm.
    + destruct (Hwk Ht eq_refl Hh) as (x & Hx & Hwx). right. left. exists x. split; [|done]. simpl. set_solver.
    + apply (underway_kept nd _ l1 m l2 ms); try done. by apply (k_live _ _ _ _ Hok).
Qed.

(** A request of a campaign gets its answer. *)
Lemma ask_next tm s n nd l1 m l2 m' :
  node_ok tm s n nd → msgs nd = l1 ++ m :: l2 → chain m = true → chain m' = true →
  chain_ok tm s n (answer l1 l2 [m'] (watching nd) nd) m' → node_ok tm s n (answer l1 l2 [m'] (watching nd) nd).
Proof.
  intros Hok Hm Hc Hc' Hch. destruct (campaign_message _ _ _ _ _ _ _ Hok Hm Hc) as [Hca _].
  unfold answer in *. rewrite app_assoc in *.
  apply (next_ok tm s n nd l1 m l2 _ m' []); try done; [by apply (k_leader _ _ _ _ Hok)|by apply (k_mine _ _ _ _ Hok)].
Qed.

(** An event batch or a new watch. *)
Lemma extend_ok tm s n nd a ms es w :
  node_ok tm s n nd → leaseID_ a = leaseID_ (actor nd) → campaigning_ a = campaigning_ (actor nd) →
  leader_ a = leader_ (actor nd) → Forall plain ms → count ms = 0%nat → (w = false → watching nd = false) →
  (holder s = None → DELETE ∈ events nd → DELETE ∈ es ∨ ∃ x, x ∈ ms ∧ wakes x = true) →
  node_ok tm s n (mkNode a (msgs nd ++ ms) es w).
Proof.
  intros Hok Hl Hc Hle Hms Hcnt Hw He. apply (node_ok_plain tm s n nd); try done; simpl.
  - rewrite chain_count_app, Hcnt. lia.
  - rewrite Forall_forall in Hms. intros x [?|?%Hms]%elem_of_app; auto.
  - intros Hwt%Hw. apply elem_of_app. left. by apply (k_watch _ _ _ _ Hok).
  - intros Ht Hh. unfold underway. simpl. rewrite Hc.
    destruct (k_live _ _ _ _ Hok Ht Hh) as [?|[(x & Hx & Hwx)|Hd]]; [by auto|right; left; exists x; set_solver|].
    destruct (He Hh Hd) as [?|(x & Hx & Hwx)]; [by auto|]. right. left. exists x. set_solver.
Qed.

Lemma key_value_bad s : holder s = None → bad (GetValue (key_value s)) = true.
Proof. unfold key_value. by intros ->. Qed.

Lemma plain_one m : chain m = false → (∀ l, m ≠ Ask (Revoke l)) → Forall plain [m] ∧ count [m] = 0%nat.
Proof. intros Hc Hr. split; [by apply Forall_singleton|]. by rewrite chain_count_cons, Hc. Qed.

Lemma started_ok tm s n : node_ok tm s n (mkNode new_actor [Ask GetAndWatch] [] false).
Proof.
  split; simpl; try done.
  - by intros m ->%list_elem_of_singleton.
  - by intros l ?%list_elem_of_singleton.
  - intros _. left.
  - intros _ _. right. left. exists (Ask GetAndWatch). split; [left|done].
Qed.

Lemma events_ok tm s n nd batch es :
  node_ok tm s n nd → events nd = batch ++ es →
  node_ok tm s n (run_node (observer batch ≫= λ _, mret []) (msgs nd) es nd).
Proof.
  intros Hok He. rewrite run_observer. apply extend_ok; try done.
  - case_decide; [by apply Forall_singleton|constructor].
  - by case_decide.
  - rewrite He. intros _ [Hd|?]%elem_of_app; [|by left]. right. exists (Note Elect_).
    rewrite decide_True by done. split; [left|done].
Qed.

Lemma grant_step_ok tm s n nd l1 l2 l :
  node_ok tm s n nd → msgs nd = l1 ++ Ask Grant :: l2 → granted s !! l = None →
  node_ok tm (mkStore (holder s) ({[l]} ∪ live s) (<[l := n]> (granted s))) n
    (answer l1 l2 [AnsGrant (Some l)] (watching nd) nd).
Proof.
  intros Hok Hm Hl. apply (ask_next _ _ _ _ _ (Ask Grant)); try done; [by apply grant_ok|].
  simpl. rewrite lookup_insert_eq. split; [done|]. intros Hin.
  assert (Ask (Revoke l) ∈ msgs nd) as Hr%(k_revoke _ _ _ _ Hok) by (rewrite Hm; set_solver). congruence.
Qed.

Lemma won_step_ok tm s n nd l1 l2 l ok :
  node_ok tm s n nd → msgs nd = l1 ++ Ask (CommitTxn l) :: l2 → holder s = None →
  node_ok tm (create n l s) n (answer l1 l2 [AnsTxn ok] (watching nd) nd).
Proof.
  intros Hok Hm Hh. assert (Ask (CommitTxn l) ∈ msgs nd) as Hin by (rewrite Hm; set_solver).
  destruct (k_chain _ _ _ _ Hok _ Hin) as (-> & Hg & Hr).
  apply (ask_next _ _ _ _ _ (Ask (CommitTxn (leaseID_ (actor nd))))); try done; [by apply create_ok|].
  destruct ok; [|done]. simpl. split_and!; [done|rewrite Hm in Hr; set_solver|by split|done].
Qed.

Lemma revoke_distinct tm s ns n nd l1 l2 l n' nd' :
  all_ok tm s ns → ns !! n = Some nd → msgs nd = l1 ++ Ask (Revoke l) :: l2 →
  <[n := answer l1 l2 [] (watching nd) nd]> ns !! n' = Some nd' → AnsTxn true ∈ msgs nd' →
  leaseID_ (actor nd') ≠ l.
Proof.
  intros Hall Hn Hm Hn' Hin Heq. subst l. pose proof (Hall n nd Hn) as Hok.
  assert (Ask (Revoke (leaseID_ (actor nd'))) ∈ msgs nd) as Hr by (rewrite Hm; set_solver).
  apply lookup_insert_Some in Hn' as [[<- <-]|[Hne Hn']].
  - simpl in Hin, Hr. destruct (k_chain _ _ _ _ Hok (AnsTxn true)) as ((_ & Hnr) & _); [rewrite Hm; set_solver|]. done.
  - destruct (k_chain _ _ _ _ (Hall n' nd' Hn') (AnsTxn true) Hin) as ((Hg & _) & _).
    apply (k_revoke _ _ _ _ Hok) in Hr. congruence.
Qed.

Lemma election_step tm x y :
  step tm x y → all_ok tm (store x) (nodes x) → all_ok tm (store y) (nodes y).
Proof.
  destruct 1 as [ns s lt n Hn|ns s lt n nd l1 m l2 Hn Hm Ha|ns s lt n nd batch es Hn He Hb|ns s lt n nd Hn
    |ns s lt n nd l1 l2 Hn Hm|ns s lt n nd l1 l2 Hn Hm|ns s lt n nd Hn Hw|ns s lt n nd Hn Hw
    |ns s lt n nd l1 l2 l Hn Hm Hl|ns s lt n nd l1 l2 Hn Hm|ns s lt n nd l1 l2 l ok Hn Hm Hh
    |ns s lt n nd l1 l2 l lt' Hn Hm Hlt|ns s n l lt1 lt2 Hh|ns s lt n nd l1 l2 r Hn Hm Hr
    |ns s lt n nd l1 l2 Ht Hn Hm|ns s lt n nd l1 l2 l error Hn Hm|ns s lt n nd l1 l2 l Hn Hm z|ns s lt n nd l1 l2 l Hn Hm|ns s lt l Hl Ht z];
    simpl; intros Hall; try (pose proof (Hall n _ Hn) as Hok).
  - apply all_insert; [done|apply started_ok].
  - apply all_insert; [done|by apply handle_ok].
  - apply all_insert; [done|by apply events_ok].
  - apply all_insert; [done|]. rewrite run_watched. apply (extend_ok tm s n nd); try done. by left.
  - apply all_insert; [done|]. apply (ask_ok tm s n nd l1 (Ask GetAndWatch)); try done.
    + by repeat constructor.
    + intros ->. split; [done|right; set_solver].
    + intros _ _ _. exists (Ask GetAndWatch). split; [left|done].
  - apply all_insert; [done|]. destruct (plain_one (AnsInit (GetValue (key_value s)))) as [? ?]; [done..|].
    apply (ask_ok tm s n nd l1 (Ask GetAndWatch)); try done.
    intros _ _ Hh. eexists. split; [left|by apply key_value_bad].
  - apply all_insert; [done|]. destruct (plain_one (AnsSync (GetValue (key_value s)))) as [? ?]; [done..|].
    apply extend_ok; try done. intros Hh _. right. eexists. split; [left|by apply key_value_bad].
  - apply all_insert; [done|]. destruct (plain_one (AnsSync GetError)) as [? ?]; [done..|].
    apply extend_ok; try done. by left.
  - apply all_insert; [|by apply grant_step_ok]. intros n' nd' Hn'. by apply grant_ok; [apply Hall|].
  - apply all_insert; [done|]. by apply (ask_next _ _ _ _ _ (Ask Grant)).
  - apply all_tell, all_insert; [|by apply won_step_ok]. intros n' nd' Hn'. by apply create_ok; [apply Hall|].
  - apply all_insert; [done|]. by apply (ask_next _ _ _ _ _ (Ask (CommitTxn l))).
  - apply all_tell. intros n' nd' Hn'. by apply create_ok; [apply Hall|].
  - apply all_insert; [done|]. destruct (plain_one (AnsGet r)) as [? ?]; [done..|].
    apply (ask_ok tm s n nd l1 (Ask GetKey)); try done; [by intros ->; auto|].
    intros _ _ Hh. eexists. split; [left|]. destruct Hr as [->| ->]; [done|by apply key_value_bad].
  - apply all_insert; [done|]. apply (ask_ok tm s n nd l1 (Ask GetKey)); try done; [by intros ->; auto|].
    by intros ?; simplify_eq.
  - apply all_insert; [done|]. destruct (plain_one (AnsKeep error)) as [? ?]; [done..|].
    apply (ask_ok tm s n nd l1 (Ask (KeepAliveOnce l))); try done. by intros ->; auto.
  - apply all_end_lease; [|intros n' nd' Hn' _; by eapply revoke_distinct].
    apply all_insert; [done|]. apply (ask_ok tm s n nd l1 (Ask (Revoke l))); try done. by intros ->; auto.
  - apply all_insert; [done|]. apply (ask_ok tm s n nd l1 (Ask (Revoke l))); try done. by intros ->; auto.
  - apply all_end_lease; [done|]. intros n' nd' Hn' Htm Hin. apply (Ht Htm n' nd' Hn').
    eapply won_campaigns; [by apply Hall|done].
Qed.

Lemma election_reachable tm x : rtc (step tm) start x → all_ok tm (store x) (nodes x).
Proof. revert x. apply rtc_ind_r; [done|]. intros y z _ Hs. by apply election_step. Qed.

(** C12: at most one leader, and no election is forgotten.  Whatever nodes start,
    however late answers come, as errors of requests that took effect too, and
    however events are batched or lost with a watch: a node that takes itself
    for the leader and whose lease is alive holds the key, so there is no second
    one.  If no lease runs out during its own campaign and the reads after
    failed campaigns are answered ([timely]), then whenever the key is free
    every node has a message of a campaign on its way, or one that makes it
    elect, or the deletion of the key still to be seen. *)
Theorem one_leader_and_some tm x n nd :
  rtc (step tm) start x → nodes x !! n = Some nd →
  (leader_ (actor nd) = true → leaseID_ (actor nd) ∈ live (store x) →
     holder (store x) = Some (n, leaseID_ (actor nd))
     ∧ ∀ n' nd', nodes x !! n' = Some nd' → leader_ (actor nd') = true →
         leaseID_ (actor nd') ∈ live (store x) → n' = n)
  ∧ (tm = true → holder (store x) = None →
     (∃ m, m ∈ msgs nd ∧ (chain m = true ∨ wakes m = true)) ∨ DELETE ∈ events nd).
Proof.
  intros Hx Hn. pose proof (election_reachable tm x Hx) as Hall. split.
  - intros Hl Hlive. pose proof (proj2 (k_rules _ _ _ _ (Hall n nd Hn) Hl) Hlive) as Hh. split; [done|].
    intros n' nd' Hn' Hl' Hlive'. pose proof (proj2 (k_rules _ _ _ _ (Hall n' nd' Hn') Hl') Hlive'). congruence.
  - intros Ht Hh. destruct (k_live _ _ _ _ (Hall n nd Hn) Ht Hh) as [Hc|[(m & ? & ?)|?]]; [|by eauto|by auto].
    left. pose proof (k_count _ _ _ _ (Hall n nd Hn)) as Hcnt. rewrite Hc in Hcnt. unfold count in Hcnt.
    destruct (filter (λ m, chain m = true) (msgs nd)) as [|m l] eqn:Hf; [done|]. exists m.
    assert (m ∈ filter (λ m, chain m = true) (msgs nd)) as [? ?]%list_elem_of_filter by (rewrite Hf; left). auto.
Qed.

(** ** One node becomes the leader *)
Definition won_node : Node :=
  mkNode (mkActor 7 false true false) [Note (KeepAlive_ 7)] [PUT "a"] true.

Ltac demo_step tac := eapply rtc_l; [tac; try apply lookup_insert_eq; try reflexivity|].

Lemma demo_won :
  ∃ x, rtc (step true) start x ∧ nodes x !! "a" = Some won_node ∧ holder (store x) = Some ("a", 7) ∧ 7 ∈ live (store x).
Proof.
  eexists. split.
  - demo_step ltac:(apply (step_start true ∅ _ _ "a")).
    demo_step ltac:(eapply (step_watch true _ _ _ "a" _ [] [])). cbn.
    demo_step ltac:(eapply (step_handle true _ _ _ "a" _ [] (AnsInit (GetValue None)) [])). cbn.
    demo_step ltac:(eapply (step_handle true _ _ _ "a" _ [] (Note Elect_) [])). cbn.
    demo_step ltac:(eapply (step_grant true _ _ _ "a" _ [] [] 7)). cbn.
    demo_step ltac:(eapply (step_handle true _ _ _ "a" _ [] (AnsGrant (Some 7)) [])). cbn.
    demo_step ltac:(eapply (step_handle true _ _ _ "a" _ [] (DoCampaign 7) [Note (KeepAlive_ 7)])). cbn.
    demo_step ltac:(eapply (step_won true _ _ _ "a" _ [Note (KeepAlive_ 7)] [] 7 true)). cbn.
    demo_step ltac:(eapply (step_handle true _ _ _ "a" _ [Note (KeepAlive_ 7)] (AnsTxn true) [])). cbn.
    apply rtc_refl.
  - split; [vm_compute; reflexivity|]. split; [reflexivity|]. cbn. set_solver.
Qed.

(** The theorem for the node that has won. *)
Lemma one_leader_and_some_witness :
  ∃ x, rtc (step true) start x ∧ nodes x !! "a" = Some won_node
    ∧ holder (store x) = Some ("a", 7)
    ∧ ∀ n' nd', nodes x !! n' = Some nd' → leader_ (actor nd') = true →
        leaseID_ (actor nd') ∈ live (store x) → n' = "a".
Proof.
  destruct demo_won as (x & Hx & Hn & _ & Hl). exists x. split; [exact Hx|]. split; [exact Hn|].
  apply (proj1 (one_leader_and_some true x "a" won_node Hx Hn)); [reflexivity|exact Hl].
Defined.

(** ** A leader without a key *)
(** The lease runs out while the answer to the campaign is on its way; the
    deletion is seen first, and [Elect] is dropped because the campaign still
    goes on.  Then the answer makes the node the leader of a key that is gone. *)
Definition false_leader : Node := mkNode (mkActor 7 false true false) [Note (KeepAlive_ 7)] [] true.

Lemma false_leader_reachable :
  ∃ x, rtc (step false) start x ∧ nodes x !! "a" = Some false_leader ∧ holder (store x) = None.
Proof.
  eexists. split.
  - demo_step ltac:(apply (step_start false ∅ _ _ "a")).
    demo_step ltac:(eapply (step_watch false _ _ _ "a" _ [] [])). cbn.
    demo_step ltac:(eapply (step_handle false _ _ _ "a" _ [] (AnsInit (GetValue None)) [])). cbn.
    demo_step ltac:(eapply (step_handle false _ _ _ "a" _ [] (Note Elect_) [])). cbn.
    demo_step ltac:(eapply (step_grant false _ _ _ "a" _ [] [] 7)). cbn.
    demo_step ltac:(eapply (step_handle false _ _ _ "a" _ [] (AnsGrant (Some 7)) [])). cbn.
    demo_step ltac:(eapply (step_handle false _ _ _ "a" _ [] (DoCampaign 7) [Note (KeepAlive_ 7)])). cbn.
    demo_step ltac:(eapply (step_won false _ _ _ "a" _ [Note (KeepAlive_ 7)] [] 7 true)). cbn.
    eapply rtc_l; [apply (step_expire false _ _ _ 7); [cbn; set_solver|done]|].
    demo_step ltac:(eapply (step_events false _ _ _ "a" _ [PUT "a"; DELETE] []); [| |done]). cbn.
    demo_step ltac:(eapply (step_handle false _ _ _ "a" _ [Note (KeepAlive_ 7); AnsTxn true] (Note Elect_) [])). cbn.
    demo_step ltac:(eapply (step_handle false _ _ _ "a" _ [Note (KeepAlive_ 7)] (AnsTxn true) [])). cbn.
    apply rtc_refl.
  - split; [vm_compute; reflexivity|vm_compute; reflexivity].
Qed.

(** The store answers the keep-alive of a lease that is gone without an error,
    so nothing ever changes. *)
Lemma false_leader_stays :
  run_node (handle (AnsKeep false)) [Note (KeepAlive_ 7)] []
    (answer [] [Note (KeepAlive_ 7)] [AnsKeep false] true
       (run_node (handle (Note (KeepAlive_ 7))) [] [] false_leader)) = false_leader.
Proof. reflexivity. Qed.

(** A deletion elects even if a newer put of the same batch names a leader. *)
Lemma put_does_not_stop_scan v a : outs (observer [DELETE; PUT v]) a = [Tell false Elect_].
Proof. reflexivity. Qed.

(** ** The explorer *)
Definition shown (kv : KeyValue) : LeaderInfo := mkInfo (key kv) (value kv) (mod_revision kv).

Lemma outs_callbacks info (l : list Z) (e : Explorer) :
  exec (for_each l (λ id, post (Callback id info))) e = e
  ∧ outs (for_each l (λ id, post (Callback id info))) e = (λ id, Callback id info) <$> l.
Proof. induction l as [|id l [IH1 IH2]]; [done|]. cbn [for_each]. act_simpl. by rewrite IH1, IH2. Qed.

Lemma explorer_new kv e :
  (electRevision_ e < mod_revision kv) ∨ mod_revision kv = 0 →
  exec (OnWatchEvent kv) e = mkExplorer (mod_revision kv) (shown kv) (callbacks_ e)
  ∧ outs (OnWatchEvent kv) e = (λ id, Callback id (shown kv)) <$> callbacks_ e.
Proof.
  intros Hr. unfold OnWatchEvent. act_simpl.
  destruct (negb (mod_revision kv =? 0) && (mod_revision kv <=? electRevision_ e)) eqn:Hb.
  - apply andb_prop in Hb as [Hb1 Hb2]. rewrite negb_true_iff in Hb1. lia.
  - act_simpl. apply outs_callbacks.
Qed.

Lemma explorer_old kv e :
  mod_revision kv ≠ 0 → mod_revision kv ≤ electRevision_ e →
  exec (OnWatchEvent kv) e = e ∧ outs (OnWatchEvent kv) e = [].
Proof.
  intros H0 Hr. unfold OnWatchEvent. act_simpl.
  by rewrite (proj2 (Z.eqb_neq _ _) H0), (proj2 (Z.leb_le _ _) Hr).
Qed.

Lemma explorer_olds (l : list (option KeyValue)) e :
  Forall (λ o, ∀ kv, o = Some kv → mod_revision kv ≠ 0 ∧ mod_revision kv ≤ electRevision_ e) l →
  exec (for_each l (λ o, if o is Some kv then OnWatchEvent kv else mret tt)) e = e
  ∧ outs (for_each l (λ o, if o is Some kv then OnWatchEvent kv else mret tt)) e = [].
Proof.
  induction 1 as [|o l Ho _ [IH1 IH2]]; [done|]. cbn [for_each]. act_simpl. destruct o as [kv|].
  - destruct (Ho kv eq_refl) as [H0 Hr]. destruct (explorer_old kv e H0 Hr) as [E O]. by rewrite O, E.
  - by act_simpl.
Qed.

(** Of a batch in the order of revisions only the last put is published, once to
    every callback. *)
Lemma explore_latest es kv e :
  electRevision_ e < mod_revision kv →
  Forall (λ o, ∀ kv', o = Some kv' → mod_revision kv' ≠ 0 ∧ mod_revision kv' ≤ mod_revision kv) es →
  exec (explore (es ++ [Some kv])) e = mkExplorer (mod_revision kv) (shown kv) (callbacks_ e)
  ∧ outs (explore (es ++ [Some kv])) e = (λ id, Callback id (shown kv)) <$> callbacks_ e.
Proof.
  intros Hr Hes. unfold explore. rewrite rev_app_distr. cbn [rev app for_each]. act_simpl.
  destruct (explorer_new kv e (or_introl Hr)) as [-> ->].
  destruct (explorer_olds (rev es) (mkExplorer (mod_revision kv) (shown kv) (callbacks_ e))) as [-> ->].
  { by apply Forall_rev. }
  by rewrite app_nil_r.
Qed.
End ElectionProps.
